(* ===== verification/_CoqProject ===== *)
-Q . S2P
Prelude.v
Crc32.v
Model.v
Format.v
FileSystem.v
Runs.v
Names.v
Segment.v
Store.v
Recovery.v
Retention.v
StoreInv.v
StoreAppend.v
StoreRead.v
StoreRetention.v
SegmentRecovery.v
StoreRecovery.v
StoreCrash.v
LogSpec.v
StoreRefinement.v
Utf8.v
Offsets.v
OffsetsSpec.v
OffsetsLog.v
Topics.v
TopicsSpec.v
Grpc.v
GrpcSpec.v
ServiceSpec.v
Threads.v
Config.v
Termination.v
Float64.v
Metrics.v
Confine.v
Isolation.v
Family.v
TopicCreation.v
HttpServer.v
GrpcServer.v
Broker.v
ConcurrentSpec.v
ServiceRefinement.v
Concurrent.v
BrokerService.v
ConcurrentService.v
Startup.v
BrokerInv.v
BrokerSpec.v
BenchLatency.v
BenchProducer.v
BenchProducerSpec.v
BenchConsumer.v
Flags.v
Commands.v
CommandsSpec.v
