(* ===== verification/Prelude.v ===== *)
(** * A verification of the distributed message broker

    The broker (Go, src/) is one process that keeps topics, each a list of partitions, and
    each partition an append-only log of records in segment files with sparse indexes.
    Clients produce, fetch and commit consumer offsets over gRPC; a worker deletes old
    segments; an HTTP server exposes readiness and metrics.  This library models the
    repository's Go code as Rocq functions and proves what its parts promise.

    ** How code is modelled

    A function that returns [(T, error)] is a function into [res T] ([Ok], [Err], [Panic]:
    a slice out of range is [Panic]).  Code that uses files or mutates its receiver is in
    the state-and-error monad [M S A] of FileSystem.v, where [S] is the receiver together
    with the [World]: the files with their durable prefixes, a schedule of I/O failures
    and the metric events.  Every system call consults the schedule, and theorems
    quantify over it; "no failures" is the empty schedule.  Machine integers are [Z] with
    [u32], [u64] and [i64] written where the code converts or can wrap.  Goroutines are
    program counters in a state, and one step of one goroutine is an operation that other
    goroutines can observe; properties hold for every interleaving.

    ** Files and the source they model

    - Prelude, Runs, Termination: results, bytes, integers, lists and automation; the
      program logic [runs] ("returns a value in [Q], or fails by an injected failure in
      [E]"); the fuel of every loop is enough.
    - FileSystem: package os with failures, partial writes, sync and crashes.
    - Crc32, Utf8, Float64, Flags: hash/crc32, unicode/utf8, float64, package flag.
    - Model, Format: internal/model/record.go and internal/storage/format.go
      ([EncodeBatch], [DecodeBatch]).
    - Names, Segment: internal/storage/segment.go ([NewSegment], [Segment_Append],
      [ReadIndexEntries], ...).
    - Store, Recovery, Retention: internal/storage/store.go ([Store_Append], [Store_Read],
      [Store_Close]; [OpenStore], [recoverSegment], [rebuildIndex];
      [Store_ApplyRetention]) and observer.go.
    - StoreInv, StoreAppend, StoreRead, StoreRetention, SegmentRecovery, StoreRecovery,
      StoreCrash: the invariant [store_ok] of a store and its files, what each operation
      does to it, recovery from torn files, and crashes.
    - LogSpec, StoreRefinement: the abstract log that a partition promises and the
      refinement of the store to it.
    - Offsets, OffsetsSpec: internal/offsets/store.go; OffsetsLog: the sequence of commits
      that it promises, and the refinement of the store to it.
    - Topics, TopicsSpec: internal/partition/log.go and internal/topic/manager.go.
    - Confine, Isolation: what an operation of a partition can touch; partitions do not
      interfere, and the metrics count the calls.
    - Grpc, GrpcSpec: internal/grpcserver/broker_handler.go and admin.go.
    - GrpcServer, HttpServer: internal/grpcserver/server.go and conn_stats.go,
      internal/httpserver/server.go.
    - Metrics: internal/observability/metrics.go.
    - Config, Startup: internal/config/config.go, internal/logger/logger.go and the part
      of cmd/broker/main.go before [Start].
    - Broker, BrokerInv, BrokerSpec: internal/broker/broker.go and the signals of
      cmd/broker/main.go; the invariant [orderly] of the goroutines.
    - ServiceSpec, Family, TopicCreation, ServiceRefinement, BrokerService: the service
      that the broker promises to its clients (topics, a log per partition and the
      committed offsets), the partitions of a data directory side by side and how a topic
      joins them, the refinement of [Broker_New], the handlers, retention and [Shutdown]
      to it, and what follows for clients.
    - Threads, ConcurrentSpec, Concurrent, ConcurrentService: the handlers of
      broker_handler.go as threads of critical sections, the service with any number of
      requests in flight, the refinement of the concurrent broker to it, and what follows
      for concurrent clients.
    - BenchLatency, BenchProducer, BenchProducerSpec, BenchConsumer: internal/bench.
    - Commands, CommandsSpec: cmd/admin, cmd/producer, cmd/consumer, cmd/bench_producer
      and cmd/bench_consumer.

    How they interact: a handler of Grpc.v looks a partition up in the manager of Topics.v
    and calls [partition.Append] or [partition.Read], which are the store's operations;
    [Broker_New] builds manager, offset store and servers, a request step of Broker.v runs
    a handler, the retention worker runs [partition.ApplyRetention] partition by partition,
    and [act_down] closes them in the order of [Shutdown]; the commands call the handlers.

    ** What is proved

    - The broker is a family of logs and committed offsets: from an empty data directory,
      every run of requests (CreateTopic included), retention, shutdowns, exits, crashes
      and starts, under every schedule of failures, is a run of the service with the same
      responses; so what Produce acknowledged in sync mode and what CommitOffset
      acknowledged is there after any such run.  Excluded is the creation of a topic that
      is listed but that the process failed to load at its start, which can destroy it (a
      concrete run shows this).
    - The same with concurrent requests: a handler is a sequence of critical sections, one
      per call on the manager, a partition or the offset store, each of which runs under
      the mutex of that object; sections of different handlers interleave in any order.
      What was acknowledged before a request is invoked is what the request sees; no
      section panics, and a handler answers after at most four of them.  Run without
      interruption the sections are the handler, and [Manager.Close] is the sequence of
      the closings of its partitions, between which handlers may run.  The retention of
      one partition and CreateTopic are single steps: they hold the mutex of what they
      change, and what other goroutines do meanwhile is on other files.
    - A partition is a log: every run of calls, failures, crashes and reopenings of a store
      is a run of the abstract log (LogSpec) with the same results; what was acknowledged
      in sync mode is read back after any crash; append, read, retention and recovery are
      each specified under every schedule of failures.
    - The batch format: round trip, equality with the concatenation of its fields,
      detection of a changed byte, and inputs on which decoding cannot and can panic.
    - The offset store: an acknowledged commit survives a crash; recovery keeps the last
      commit of every key and truncates a torn entry.
    - The topic manager: topic creation is all or nothing and its metadata file is
      replaced atomically; start-up registers what the file lists.
    - The handlers and commands: status codes, what is produced is fetched, what is
      committed is returned, a record goes through the producer and consumer commands
      unchanged.
    - The process: storage is closed last and by nobody else, and a shutdown finishes
      under every interleaving; an accepted configuration is usable.
    - The benchmarks: records are shared out without loss, the count stops at the target,
      the verification accepts exactly gap-free ranges, exit status 0 means that all was
      sent and verified.
    - Behaviour that the authors may not want (two I/O errors that destroy a topic, panic
      on short records, overflowing retention ages, an early exit on a signal during a
      crash, truncated partition numbers) is proved as such.

    ** Bounds and fuel

    Loops over the bytes of a file ([scan_segment], [recover_loop], [rebuild_loop],
    [recover_offsets]) take the file size as fuel and would report "out of fuel"; each
    iteration advances by at least nine bytes, and Termination.v shows that this error is
    unreachable for any file.  The retention loops take the number of segments, of which
    each iteration removes one, and stop at one.  Theorems on appends assume that the log
    end stays below 2^64 and that the clock reading, in milliseconds, is an int64 above the
    least one; theorems on the benchmark assume that its counters stay below 2^63, and
    those on opening a store that max_batch_bytes is below 2^31 and that the segment size
    is an int64 (the defaults are 5 MiB and 128 MiB).

    ** Parameters

    encoding/json on topics.json ([Marshal], [Unmarshal]; the class [JsonLaws] is its round
    trip), the YAML decoder,
    time.ParseDuration, the address check of grpc.NewClient and the grpc library
    ([GrpcLibrary], whose documented behaviour is the classes [GrpcLaws] and
    [GrpcReturns]) are arguments; witnesses instantiate them.

    ** Not modelled

    The generated API (src/gen: its messages are records of Grpc.v), log messages, the
    text of reports and usage messages, durations observed by metrics, server timeouts,
    the prometheus and pprof handlers, and calls that are lost or time out on the network.
    Shell scripts, dashboards and tests are not part of the program. *)

From Stdlib Require Export ZArith Lia.
From Stdlib Require Import Init.Byte Strings.Byte.
From stdpp Require Export base list strings gmap sets countable sorting.

Open Scope Z_scope.

(** ** Errors and results

    A Go function that returns [(T, error)] is a function into [res T]: [Ok]
    is the value with a nil error, [Err] a non-nil error and [Panic] a run-time
    panic (an index or slice out of range, a nil dereference).  An error is
    identified by the sentinel that [errors.Is] finds in it; errors that wrap
    no sentinel of the repository are [Errorf] with the site that builds them,
    and an error of the operating system is [ErrIO]. *)
Inductive error : Type :=
  | ErrCorruptBatch
  | ErrUnsupportedVersion
  | ErrMalformedMagic
  | ErrStoreClosed
  | ErrOffsetOutOfRange
  | ErrBatchTooLarge
  | ErrStoreCorrupt
  | ErrIndexOffsetOverflow
  | ErrOffsetStoreClosed
  | ErrOffsetStoreUnavailable
  | ErrCorruptOffsetLog
  | ErrInvalidArgument
  | ErrTopicExists
  | ErrTopicNotFound
  | ErrPartitionNotFound
  | ErrInvalidTopicName
  | ErrTooManyPartitions
  | ErrNotExist
  | ErrIO
  | ErrEOF
  | Errorf (site : string).

#[global] Instance error_eq_dec : EqDecision error.
Proof. solve_decision. Defined.

Inductive res (A : Type) : Type :=
  | Ok (a : A)
  | Err (e : error)
  | Panic.
Arguments Ok {A} _.
Arguments Err {A} _.
Arguments Panic {A}.

Definition rbind {A B} (m : res A) (k : A → res B) : res B :=
  match m with
  | Ok a => k a
  | Err e => Err e
  | Panic => Panic
  end.

Declare Scope go_scope.
Delimit Scope go_scope with go.
Notation "'let!' x ':=' m 'in' k" := (rbind m (fun x => k))
  (at level 10, x pattern, m at level 100, k at level 200) : go_scope.
Open Scope go_scope.

Definition is_ok {A} (r : res A) : bool :=
  match r with Ok _ => true | _ => false end.

(** ** Machine integers

    A w-bit integer is a [Z]; conversions and arithmetic that can leave the
    range wrap explicitly with these functions. *)
Abbreviation two31 := 2147483648.
Abbreviation two32 := 4294967296.
Abbreviation two63 := 9223372036854775808.
Abbreviation two64 := 18446744073709551616.

Definition u32 (z : Z) : Z := z mod two32.
Definition u64 (z : Z) : Z := z mod two64.
Definition i32 (z : Z) : Z := (z + two31) mod two32 - two31.
Definition i64 (z : Z) : Z := (z + two63) mod two64 - two63.

Definition MaxUint32 : Z := 4294967295.
Definition MaxInt64 : Z := 9223372036854775807.

Lemma u32_small z : 0 <= z < two32 → u32 z = z.
Proof. intros. unfold u32. rewrite Z.mod_small; lia. Qed.
Lemma u64_small z : 0 <= z < two64 → u64 z = z.
Proof. intros. unfold u64. rewrite Z.mod_small; lia. Qed.
Lemma i32_small z : - two31 <= z < two31 → i32 z = z.
Proof. intros. unfold i32. rewrite Z.mod_small; lia. Qed.
Lemma i64_small z : - two63 <= z < two63 → i64 z = z.
Proof. intros. unfold i64. rewrite Z.mod_small; lia. Qed.
Lemma u32_range z : 0 <= u32 z < two32.
Proof. apply Z.mod_pos_bound; lia. Qed.
Lemma u64_range z : 0 <= u64 z < two64.
Proof. apply Z.mod_pos_bound; lia. Qed.
Lemma i64_range z : - two63 <= i64 z < two63.
Proof. unfold i64. pose proof (Z.mod_pos_bound (z + two63) two64). lia. Qed.

(** Converting a signed value to uint64 and back is the identity. *)
Lemma i64_u64 z : i64 (u64 z) = i64 z.
Proof.
  unfold i64, u64. f_equal.
  rewrite <- (Z.add_mod_idemp_l z) by lia. done.
Qed.

Lemma i32_high z : two31 <= z < two32 → i32 z = z - two32.
Proof.
  intros. unfold i32.
  replace (z + two31) with ((z - two31) + 1 * two32) by lia.
  rewrite Z.mod_add by lia. rewrite Z.mod_small; lia.
Qed.
Lemma i64_high z : two63 <= z < two64 → i64 z = z - two64.
Proof.
  intros. unfold i64.
  replace (z + two63) with ((z - two63) + 1 * two64) by lia.
  rewrite Z.mod_add by lia. rewrite Z.mod_small; lia.
Qed.

(** ** Bytes *)
Abbreviation bytes := (list byte).

#[global] Instance byte_eq_dec : EqDecision byte := Byte.byte_eq_dec.

Definition Z_of_byte (b : byte) : Z := Z.of_N (Byte.to_N b).

Definition byte_of_Z (z : Z) : byte :=
  match Byte.of_N (Z.to_N (z mod 256)) with
  | Some b => b
  | None => x00
  end.

Lemma Z_of_byte_range b : 0 <= Z_of_byte b < 256.
Proof. unfold Z_of_byte. pose proof (Byte.to_N_bounded b). lia. Qed.

Lemma Z_of_byte_of_Z z : Z_of_byte (byte_of_Z z) = z mod 256.
Proof.
  unfold Z_of_byte, byte_of_Z.
  pose proof (Z.mod_pos_bound z 256 ltac:(lia)) as Hm.
  destruct (Byte.of_N _) as [b|] eqn:E.
  - apply Byte.to_of_N in E. rewrite E. lia.
  - apply Byte.of_N_None_iff in E. lia.
Qed.

Lemma Z_of_byte_inj b c : Z_of_byte b = Z_of_byte c → b = c.
Proof.
  unfold Z_of_byte. intros H%N2Z.inj.
  pose proof (Byte.of_to_N b) as Hb. pose proof (Byte.of_to_N c) as Hc.
  rewrite H in Hb. congruence.
Qed.

Lemma byte_of_Z_of_byte b : byte_of_Z (Z_of_byte b) = b.
Proof.
  apply Z_of_byte_inj. rewrite Z_of_byte_of_Z.
  apply Z.mod_small, Z_of_byte_range.
Qed.

Definition blen {A} (l : list A) : Z := Z.of_nat (length l).

Lemma blen_nil (A : Type) : blen (@nil A) = 0.
Proof. done. Qed.
Lemma blen_cons {A} (x : A) l : blen (x :: l) = 1 + blen l.
Proof. unfold blen. simpl. lia. Qed.
Lemma blen_app {A} (l k : list A) : blen (l ++ k) = blen l + blen k.
Proof. unfold blen. rewrite length_app. lia. Qed.
Lemma blen_nonneg {A} (l : list A) : 0 <= blen l.
Proof. unfold blen. lia. Qed.
Lemma blen_replicate {A} n (x : A) : blen (replicate n x) = Z.of_nat n.
Proof. unfold blen. by rewrite length_replicate. Qed.
Lemma blen_fmap {A B} (f : A → B) l : blen (f <$> l) = blen l.
Proof. unfold blen. by rewrite length_fmap. Qed.

Create Rewrite HintDb blen.
#[export] Hint Rewrite @blen_nil @blen_cons @blen_app @blen_replicate
  @blen_fmap : blen.

(** [blen_lia] normalises lengths of concatenations and calls [lia] with the
    fact that every remaining length is non-negative. *)
Ltac blen_pos :=
  repeat match goal with
  | |- context [blen ?l] =>
      lazymatch goal with
      | H : 0 <= blen l |- _ => fail
      | _ => pose proof (blen_nonneg l)
      end
  | _ : context [blen ?l] |- _ =>
      lazymatch goal with
      | H : 0 <= blen l |- _ => fail
      | _ => pose proof (blen_nonneg l)
      end
  end.
Ltac blen_lia := autorewrite with blen in *; blen_pos; lia.

(** ** encoding/binary.BigEndian *)

(** The [n] low bytes of [z], most significant first. *)
Fixpoint be_put (n : nat) (z : Z) : bytes :=
  match n with
  | O => []
  | S n' => byte_of_Z (Z.shiftr z (8 * Z.of_nat n')) :: be_put n' z
  end.

Definition be_get (l : bytes) : Z :=
  fold_left (fun acc b => acc * 256 + Z_of_byte b) l 0.

Lemma blen_be_put n z : blen (be_put n z) = Z.of_nat n.
Proof. induction n as [|n IH]; [done|]. simpl be_put. blen_lia. Qed.
#[export] Hint Rewrite blen_be_put : blen.

Lemma fold_be_get l acc :
  fold_left (fun acc b => acc * 256 + Z_of_byte b) l acc
  = acc * 256 ^ blen l + be_get l.
Proof.
  revert acc. induction l as [|b l IH]; intros acc.
  - unfold be_get, blen. simpl. lia.
  - unfold be_get. simpl fold_left. rewrite !IH, blen_cons.
    rewrite Z.pow_add_r by (unfold blen; lia). lia.
Qed.

Lemma be_get_cons b l : be_get (b :: l) = Z_of_byte b * 256 ^ blen l + be_get l.
Proof. unfold be_get at 1. simpl fold_left. rewrite fold_be_get. lia. Qed.

Lemma be_get_range l : 0 <= be_get l < 256 ^ blen l.
Proof.
  induction l as [|b l IH]; [done|].
  rewrite be_get_cons, blen_cons, Z.pow_add_r by (unfold blen; lia).
  pose proof (Z_of_byte_range b). nia.
Qed.

Lemma be_get_put n z : be_get (be_put n z) = z mod 256 ^ Z.of_nat n.
Proof.
  induction n as [|n IH]; [by rewrite Z.mod_1_r|].
  simpl be_put. rewrite be_get_cons, IH, Z_of_byte_of_Z, blen_be_put.
  rewrite Z.shiftr_div_pow2, Z.pow_mul_r by lia.
  change (2 ^ 8) with 256.
  replace (256 ^ Z.of_nat (S n)) with (256 ^ Z.of_nat n * 256)
    by (rewrite Nat2Z.inj_succ, Z.pow_succ_r by lia; lia).
  rewrite Z.rem_mul_r by lia. lia.
Qed.

Lemma be_get_put4 z : be_get (be_put 4 z) = u32 z.
Proof. apply be_get_put. Qed.
Lemma be_get_put8 z : be_get (be_put 8 z) = u64 z.
Proof. apply be_get_put. Qed.

Lemma be_put_mod n z : be_put n (z mod 256 ^ Z.of_nat n) = be_put n z.
Proof.
  assert (∀ m, (m <= n)%nat → be_put m (z mod 256 ^ Z.of_nat n) = be_put m z)
    as H; [|by apply H].
  induction m as [|m IH]; intros Hm; [done|]. simpl be_put.
  rewrite IH by lia. f_equal. apply Z_of_byte_inj.
  rewrite !Z_of_byte_of_Z, !Z.shiftr_div_pow2 by lia.
  rewrite Z.pow_mul_r by lia. change (2 ^ 8) with 256.
  replace (256 ^ Z.of_nat n)
    with (256 ^ Z.of_nat m * (256 * 256 ^ Z.of_nat (n - m - 1))).
  2:{ rewrite <- Z.pow_succ_r, <- Z.pow_add_r by lia. f_equal. lia. }
  rewrite Z.rem_mul_r by lia.
  replace (z mod 256 ^ Z.of_nat m + 256 ^ Z.of_nat m *
    ((z / 256 ^ Z.of_nat m) mod (256 * 256 ^ Z.of_nat (n - m - 1))))
    with ((z / 256 ^ Z.of_nat m) mod (256 * 256 ^ Z.of_nat (n - m - 1))
          * 256 ^ Z.of_nat m + z mod 256 ^ Z.of_nat m) by lia.
  rewrite Z.div_add_l by lia.
  rewrite (Z.div_small (z mod _)) by (apply Z.mod_pos_bound; lia).
  rewrite Z.add_0_r, Z.rem_mul_r by lia.
  rewrite Z.mul_comm, Z.mod_add by lia. by rewrite Z.mod_mod by lia.
Qed.

(** ** Slices

    [slice b lo hi] is [b[lo:hi]] for a slice whose capacity is its length,
    as for every buffer the code allocates with [make]. *)
Definition slice (b : bytes) (lo hi : Z) : res bytes :=
  if (0 <=? lo) && (lo <=? hi) && (hi <=? blen b)
  then Ok (take (Z.to_nat (hi - lo)) (drop (Z.to_nat lo) b))
  else Panic.

(** [copy(b[lo:hi], src)], with the buffer after the copy as the result. *)
Definition go_copy (b : bytes) (lo hi : Z) (src : bytes) : res bytes :=
  if (0 <=? lo) && (lo <=? hi) && (hi <=? blen b)
  then let part := take (Z.to_nat (hi - lo)) src in
       Ok (take (Z.to_nat lo) b ++ part
             ++ drop (Z.to_nat lo + length part) b)
  else Panic.

(** [binary.BigEndian.Uint32(b[lo:lo+4])] and the 64-bit version. *)
Definition Uint32_at (b : bytes) (lo : Z) : res Z :=
  let! s := slice b lo (lo + 4) in Ok (be_get s).
Definition Uint64_at (b : bytes) (lo : Z) : res Z :=
  let! s := slice b lo (lo + 8) in Ok (be_get s).

(** [binary.BigEndian.PutUint32(b[lo:lo+4], v)] and the 64-bit version. *)
Definition PutUint32_at (b : bytes) (lo v : Z) : res bytes :=
  go_copy b lo (lo + 4) (be_put 4 v).
Definition PutUint64_at (b : bytes) (lo v : Z) : res bytes :=
  go_copy b lo (lo + 8) (be_put 8 v).

Lemma slice_app_r (p s q : bytes) lo hi :
  lo = blen p → hi = lo + blen s → slice (p ++ s ++ q) lo hi = Ok s.
Proof.
  intros -> ->. unfold slice.
  replace (_ && _ && _) with true by (symmetry; rewrite !andb_true_iff,
    !Z.leb_le; blen_lia).
  f_equal. unfold blen.
  replace (Z.to_nat (Z.of_nat (length p) + Z.of_nat (length s)
    - Z.of_nat (length p))) with (length s) by lia.
  rewrite Nat2Z.id, drop_app_length, take_app_length. done.
Qed.

Lemma Uint32_at_app (p q : bytes) lo v :
  lo = blen p → Uint32_at (p ++ be_put 4 v ++ q) lo = Ok (u32 v).
Proof.
  intros ->. unfold Uint32_at. rewrite slice_app_r by (try blen_lia; done).
  cbn [rbind]. by rewrite be_get_put4.
Qed.

Lemma Uint64_at_app (p q : bytes) lo v :
  lo = blen p → Uint64_at (p ++ be_put 8 v ++ q) lo = Ok (u64 v).
Proof.
  intros ->. unfold Uint64_at. rewrite slice_app_r by (try blen_lia; done).
  cbn [rbind]. by rewrite be_get_put8.
Qed.

Lemma go_copy_app (p o q s : bytes) lo hi :
  lo = blen p → hi = lo + blen s → blen o = blen s →
  go_copy (p ++ o ++ q) lo hi s = Ok (p ++ s ++ q).
Proof.
  intros -> -> Ho. unfold go_copy.
  replace (_ && _ && _) with true by (symmetry; rewrite !andb_true_iff,
    !Z.leb_le; blen_lia).
  f_equal. unfold blen in *.
  replace (Z.to_nat (Z.of_nat (length p) + Z.of_nat (length s)
    - Z.of_nat (length p))) with (length s) by lia.
  rewrite (take_ge s) by lia.
  rewrite Nat2Z.id, take_app_length. f_equal. f_equal.
  rewrite drop_app_ge by lia.
  replace (length p + length s - length p)%nat with (length o) by lia.
  by rewrite drop_app_length.
Qed.

(** ** Lists *)
Definition zeros (n : Z) : bytes := replicate (Z.to_nat n) x00.

Lemma blen_zeros n : 0 <= n → blen (zeros n) = n.
Proof. intros. unfold zeros. rewrite blen_replicate. lia. Qed.

Lemma zeros_split n m : 0 <= m <= n → zeros n = zeros m ++ zeros (n - m).
Proof.
  intros. unfold zeros. rewrite <- replicate_add. f_equal. lia.
Qed.

(** Writing [s] at the end of the filled part [w] of a zeroed buffer. *)
Lemma go_copy_zeros (w s : bytes) k lo hi :
  lo = blen w → hi = lo + blen s → blen s <= k →
  go_copy (w ++ zeros k) lo hi s = Ok ((w ++ s) ++ zeros (k - blen s)).
Proof.
  intros -> -> Hk. pose proof (blen_nonneg s).
  rewrite (zeros_split k (blen s)) by lia.
  rewrite go_copy_app by (rewrite ?blen_zeros by lia; lia).
  by rewrite <- app_assoc.
Qed.

(** A Go [for _, x := range l] loop whose body threads a state and can return
    early with an error. *)
Fixpoint rfold {S A} (f : S → A → res S) (l : list A) (s : S) : res S :=
  match l with
  | [] => Ok s
  | x :: l => let! s := f s x in rfold f l s
  end.

(** ** Positions in a byte sequence

    [at_off b off x]: the bytes [x] stand in [b] at offset [off]. *)
Definition at_off (b : bytes) (off : Z) (x : bytes) : Prop :=
  ∃ p q, b = p ++ x ++ q ∧ off = blen p.

Lemma at_off_intro p x q : at_off (p ++ x ++ q) (blen p) x.
Proof. by exists p, q. Qed.

Lemma at_off_head x q : at_off (x ++ q) 0 x.
Proof. by exists [], q. Qed.

Lemma at_off_app b off x y :
  at_off b off (x ++ y) ↔ at_off b off x ∧ at_off b (off + blen x) y.
Proof.
  split.
  - intros (p & q & -> & ->). split.
    + exists p, (y ++ q). by rewrite <- !app_assoc.
    + exists (p ++ x), q. rewrite <- !app_assoc. split; [done|blen_lia].
  - intros [(p & q & -> & ->) (p' & q' & Heq & Hlen)].
    assert (p' = p ++ x ∧ y ++ q' = q) as [-> <-].
    { rewrite app_assoc in Heq. symmetry in Heq.
      apply app_inj_1 in Heq; [done|]. unfold blen in Hlen.
      rewrite length_app. lia. }
    exists p, q'. by rewrite <- !app_assoc.
Qed.

Lemma at_off_bound b off x : at_off b off x → 0 <= off ∧ off + blen x <= blen b.
Proof. intros (p & q & -> & ->). split; blen_lia. Qed.

Lemma at_off_trans b off x o y :
  at_off b off x → at_off x o y → at_off b (off + o) y.
Proof.
  intros (p & q & -> & ->) (p' & q' & -> & ->).
  exists (p ++ p'), (q' ++ q). rewrite <- !app_assoc. split; [done|blen_lia].
Qed.

Lemma at_off_app_r b c off x : at_off b off x → at_off (b ++ c) off x.
Proof.
  intros (p & q & -> & ->). exists p, (q ++ c). by rewrite <- !app_assoc.
Qed.

Lemma at_off_slice b off x hi :
  at_off b off x → hi = off + blen x → slice b off hi = Ok x.
Proof. intros (p & q & -> & ->) ->. by apply slice_app_r. Qed.

Lemma at_off_Uint32 b off v :
  at_off b off (be_put 4 v) → Uint32_at b off = Ok (u32 v).
Proof. intros (p & q & -> & ->). by apply Uint32_at_app. Qed.

Lemma at_off_Uint64 b off v :
  at_off b off (be_put 8 v) → Uint64_at b off = Ok (u64 v).
Proof. intros (p & q & -> & ->). by apply Uint64_at_app. Qed.

Lemma at_off_cast b off off' x : at_off b off x → off = off' → at_off b off' x.
Proof. by intros ? <-. Qed.

(** Finds the fact about the bytes at an offset that is given in another form. *)
Ltac at_off := eapply at_off_cast; [eassumption|]; lia.

Lemma slice_ok b lo hi s :
  slice b lo hi = Ok s → 0 <= lo ∧ lo <= hi ∧ hi <= blen b ∧ blen s = hi - lo.
Proof.
  unfold slice. destruct (_ && _) eqn:E; [|done]. intros [= <-].
  rewrite !andb_true_iff, !Z.leb_le in E.
  unfold blen in *. rewrite length_take, length_drop. lia.
Qed.

(** ** Concatenation of encoded items *)
Lemma concat_fmap_nil {A B} (f : A → list B) : concat (f <$> []) = [].
Proof. done. Qed.
Lemma concat_fmap_cons {A B} (f : A → list B) x l :
  concat (f <$> x :: l) = f x ++ concat (f <$> l).
Proof. done. Qed.
Lemma concat_fmap_app {A B} (f : A → list B) l k :
  concat (f <$> l ++ k) = concat (f <$> l) ++ concat (f <$> k).
Proof. by rewrite fmap_app, concat_app. Qed.

#[export] Hint Rewrite @concat_fmap_nil @concat_fmap_cons @concat_fmap_app : blen.
#[global] Arguments be_put : simpl never.

Lemma blen_eq {A} (l : list A) : blen l = Z.of_nat (length l).
Proof. done. Qed.


Lemma be_get_inj (a b : bytes) : length a = length b → be_get a = be_get b → a = b.
Proof.
  revert b. induction a as [|x a IH]; intros [|y b] Hl; try done.
  rewrite !be_get_cons. injection Hl as Hl. unfold blen. rewrite Hl. intros Heq.
  pose proof (be_get_range a) as Ha. pose proof (be_get_range b) as Hb.
  unfold blen in *. rewrite Hl in Ha. set (n := 256 ^ Z.of_nat (length b)) in *.
  assert (Z_of_byte x = Z_of_byte y) as Hxy.
  { apply (f_equal (fun z => z / n)) in Heq.
    rewrite !Z.div_add_l, !Z.div_small in Heq by lia. lia. }
  apply Z_of_byte_inj in Hxy as ->. f_equal. apply IH; [done|lia].
Qed.

Lemma slice_no_panic b lo hi :
  0 <= lo → lo <= hi → hi <= blen b → ∃ s, slice b lo hi = Ok s ∧ blen s = hi - lo.
Proof.
  intros H1 H2 H3. destruct (slice b lo hi) as [s|e|] eqn:E.
  - exists s. split; [done|]. by apply slice_ok in E as (_ & _ & _ & ?).
  - unfold slice in E. by destruct (_ && _).
  - unfold slice in E. rewrite (proj2 (Z.leb_le _ _)), (proj2 (Z.leb_le lo hi)),
      (proj2 (Z.leb_le hi _)) in E by done. done.
Qed.

Lemma Uint32_at_no_panic b lo :
  0 <= lo → lo + 4 <= blen b → ∃ v, Uint32_at b lo = Ok v ∧ 0 <= v < two32.
Proof.
  intros H1 H2. destruct (slice_no_panic b lo (lo + 4)) as (s & Hs & Hl); [lia..|].
  unfold Uint32_at. rewrite Hs. cbn [rbind]. eexists. split; [done|].
  pose proof (be_get_range s) as Hr. rewrite Hl in Hr.
  by replace (lo + 4 - lo) with 4 in Hr by lia.
Qed.

Lemma Uint64_at_no_panic b lo :
  0 <= lo → lo + 8 <= blen b → ∃ v, Uint64_at b lo = Ok v ∧ 0 <= v < two64.
Proof.
  intros H1 H2. destruct (slice_no_panic b lo (lo + 8)) as (s & Hs & Hl); [lia..|].
  unfold Uint64_at. rewrite Hs. cbn [rbind]. eexists. split; [done|].
  pose proof (be_get_range s) as Hr. rewrite Hl in Hr.
  by replace (lo + 8 - lo) with 8 in Hr by lia.
Qed.

Lemma insert_changes {A} (l : list A) i x :
  (i < length l)%nat → l !! i ≠ Some x → <[i := x]> l ≠ l.
Proof.
  intros Hi Hx Heq. apply Hx. rewrite <- Heq. by apply list_lookup_insert_eq.
Qed.

Lemma blen_insert {A} (l : list A) i x : blen (<[i := x]> l) = blen l.
Proof. unfold blen. by rewrite length_insert. Qed.
#[export] Hint Rewrite @blen_insert : blen.
