(* ===== verification/Crc32.v ===== *)
(** * CRC-32 (hash/crc32, IEEE polynomial)

    [ChecksumIEEE] is the reflected CRC-32 that both log formats use, written
    bit by bit.  The lemmas give its range and the property the formats rely
    on: changing one byte of the checked bytes changes the checksum. *)

From S2P Require Import Prelude.
From Stdlib Require Import Init.Byte.

Definition crc_poly : Z := 3988292384. (* 0xEDB88320 *)

Definition crc_bit (c : Z) : Z :=
  if Z.testbit c 0 then Z.lxor (Z.shiftr c 1) crc_poly else Z.shiftr c 1.

Definition crc_update (c : Z) (b : byte) : Z :=
  Nat.iter 8 crc_bit (Z.lxor c (Z_of_byte b)).

Definition ChecksumIEEE (data : bytes) : Z :=
  Z.lxor (fold_left crc_update data MaxUint32) MaxUint32.

(** The check value of the CRC-32 catalogue, for "123456789". *)
Example crc_check_value :
  ChecksumIEEE [x31; x32; x33; x34; x35; x36; x37; x38; x39] = 3421780262.
Proof. vm_compute. reflexivity. Qed.

(** ** Range *)

Lemma in32_testbit c n : 0 <= c < two32 → 32 <= n → Z.testbit c n = false.
Proof.
  intros [H0 H1] Hn. destruct (decide (c = 0)) as [->|]; [apply Z.bits_0|].
  apply Z.bits_above_log2; [done|].
  apply Z.lt_le_trans with 32; [|done]. apply Z.log2_lt_pow2; [lia|done].
Qed.

Lemma testbit_in32 c : 0 <= c → (∀ n, 32 <= n → Z.testbit c n = false) → c < two32.
Proof.
  intros H0 H. destruct (Z.lt_ge_cases c two32) as [|Hge]; [done|].
  assert (32 <= Z.log2 c) as Hl by (apply Z.log2_le_pow2; [lia|done]).
  apply H in Hl. rewrite Z.bit_log2 in Hl by lia. done.
Qed.

Lemma lxor_in32 a b :
  0 <= a < two32 → 0 <= b < two32 → 0 <= Z.lxor a b < two32.
Proof.
  intros Ha Hb. assert (0 <= Z.lxor a b) by (apply Z.lxor_nonneg; lia).
  split; [done|]. apply testbit_in32; [done|]. intros n Hn.
  by rewrite Z.lxor_spec, !in32_testbit.
Qed.

Lemma shiftr1_in31 c : 0 <= c < two32 → 0 <= Z.shiftr c 1 < two31.
Proof.
  intros. rewrite Z.shiftr_div_pow2 by lia. change (2 ^ 1) with 2.
  split; [apply Z.div_pos; lia | apply Z.div_lt_upper_bound; lia].
Qed.

Lemma crc_bit_range c : 0 <= c < two32 → 0 <= crc_bit c < two32.
Proof.
  intros Hc. pose proof (shiftr1_in31 c Hc). unfold crc_bit.
  destruct (Z.testbit c 0); [|lia]. apply lxor_in32; [lia|].
  unfold crc_poly. lia.
Qed.

Lemma crc_bits_range n c : 0 <= c < two32 → 0 <= Nat.iter n crc_bit c < two32.
Proof.
  intros. induction n as [|n IH]; [done|]. simpl. by apply crc_bit_range.
Qed.

Lemma crc_update_range c b : 0 <= c < two32 → 0 <= crc_update c b < two32.
Proof.
  intros. apply crc_bits_range, lxor_in32; [done|].
  pose proof (Z_of_byte_range b). lia.
Qed.

Lemma crc_fold_range l c :
  0 <= c < two32 → 0 <= fold_left crc_update l c < two32.
Proof.
  revert c. induction l as [|b l IH]; intros c Hc; [done|].
  simpl. by apply IH, crc_update_range.
Qed.

Lemma ChecksumIEEE_range l : 0 <= ChecksumIEEE l < two32.
Proof.
  apply lxor_in32; [apply crc_fold_range|]; unfold MaxUint32; lia.
Qed.

(** ** Detection of a changed byte *)

Lemma crc_bit_top c : 0 <= c < two32 → Z.testbit (crc_bit c) 31 = Z.testbit c 0.
Proof.
  intros Hc. unfold crc_bit.
  assert (Z.testbit (Z.shiftr c 1) 31 = false) as Hs.
  { rewrite Z.shiftr_spec by lia. by apply in32_testbit. }
  destruct (Z.testbit c 0); [|done]. rewrite Z.lxor_spec, Hs. done.
Qed.

Lemma crc_bit_inj c d :
  0 <= c < two32 → 0 <= d < two32 → crc_bit c = crc_bit d → c = d.
Proof.
  intros Hc Hd Heq.
  assert (Z.testbit c 0 = Z.testbit d 0) as Hb.
  { rewrite <- !crc_bit_top by done. by rewrite Heq. }
  assert (Z.shiftr c 1 = Z.shiftr d 1) as Hs.
  { unfold crc_bit in Heq. rewrite Hb in Heq. destruct (Z.testbit d 0); [|done].
    apply (f_equal (fun x => Z.lxor x crc_poly)) in Heq.
    by rewrite !Z.lxor_assoc, Z.lxor_nilpotent, !Z.lxor_0_r in Heq. }
  rewrite !Z.shiftr_div_pow2 in Hs by lia. change (2 ^ 1) with 2 in Hs.
  rewrite !Z.bit0_odd in Hb.
  rewrite (Z.div_mod c 2), (Z.div_mod d 2), !Zmod_odd, Hs, Hb by lia. done.
Qed.

Lemma crc_bits_inj n c d :
  0 <= c < two32 → 0 <= d < two32 →
  Nat.iter n crc_bit c = Nat.iter n crc_bit d → c = d.
Proof.
  intros Hc Hd. induction n as [|n IH]; [done|]. simpl. intros Heq.
  apply IH, crc_bit_inj; auto using crc_bits_range.
Qed.

Lemma lxor_cancel_l a b c : Z.lxor a b = Z.lxor a c → b = c.
Proof.
  intros H. apply (f_equal (Z.lxor a)) in H.
  by rewrite <- !Z.lxor_assoc, Z.lxor_nilpotent, !Z.lxor_0_l in H.
Qed.

Lemma crc_update_inj_state c d b :
  0 <= c < two32 → 0 <= d < two32 → crc_update c b = crc_update d b → c = d.
Proof.
  intros Hc Hd Heq. pose proof (Z_of_byte_range b).
  apply crc_bits_inj in Heq; [|apply lxor_in32; lia..].
  rewrite !(Z.lxor_comm _ (Z_of_byte b)) in Heq. by apply lxor_cancel_l in Heq.
Qed.

Lemma crc_update_inj_byte c a b :
  0 <= c < two32 → crc_update c a = crc_update c b → a = b.
Proof.
  intros Hc Heq. pose proof (Z_of_byte_range a). pose proof (Z_of_byte_range b).
  apply crc_bits_inj in Heq; [|apply lxor_in32; lia..].
  by apply lxor_cancel_l, Z_of_byte_inj in Heq.
Qed.

Lemma crc_fold_inj l c d :
  0 <= c < two32 → 0 <= d < two32 →
  fold_left crc_update l c = fold_left crc_update l d → c = d.
Proof.
  revert c d. induction l as [|b l IH]; intros c d Hc Hd; [done|]. simpl.
  intros Heq. apply IH in Heq; [|by apply crc_update_range..].
  by eapply crc_update_inj_state.
Qed.

(** Two messages that differ in exactly one byte have different checksums. *)
Lemma ChecksumIEEE_one_byte p q a b :
  ChecksumIEEE (p ++ a :: q) = ChecksumIEEE (p ++ b :: q) → a = b.
Proof.
  unfold ChecksumIEEE. intros Heq. rewrite !(Z.lxor_comm _ MaxUint32) in Heq.
  apply lxor_cancel_l in Heq. rewrite !fold_left_app in Heq. simpl in Heq.
  assert (0 <= MaxUint32 < two32) as Hm by (unfold MaxUint32; lia).
  pose proof (crc_fold_range p _ Hm).
  apply crc_fold_inj in Heq; [|by apply crc_update_range..].
  by eapply crc_update_inj_byte.
Qed.

Lemma ChecksumIEEE_insert body i b :
  (i < length body)%nat → body !! i ≠ Some b →
  ChecksumIEEE (<[i := b]> body) ≠ ChecksumIEEE body.
Proof.
  intros Hi Hb. destruct (lookup_lt_is_Some_2 body i Hi) as [x Hx].
  rewrite insert_take_drop by done. intros Heq.
  rewrite <- (f_equal ChecksumIEEE (take_drop_middle body i x Hx)) in Heq.
  apply ChecksumIEEE_one_byte in Heq. congruence.
Qed.
