(* ===== verification/Model.v ===== *)
(** * Records (internal/model/record.go)

    A [[]byte] field that the code compares with nil (record keys and values)
    is an [option bytes], nil being [None].  Header values and header lists are
    only measured and iterated, never compared with nil, so nil and empty are
    the same list. *)

From S2P Require Import Prelude.

Record Header := mkHeader {
  h_Key : bytes;
  h_Value : bytes;
}.

(** [model.Record], a record produced by a client. *)
Record ClientRecord := mkClientRecord {
  r_Key : option bytes;
  r_Value : option bytes;
  r_Headers : list Header;
  r_Timestamp : Z;
}.

(** [model.StoredRecord], with the offset and timestamp the broker assigns. *)
Record StoredRecord := mkStoredRecord {
  Offset : Z;
  Timestamp : Z;
  Key : option bytes;
  Value : option bytes;
  Headers : list Header;
}.

#[global] Instance Header_eq_dec : EqDecision Header.
Proof. solve_decision. Defined.
#[global] Instance StoredRecord_eq_dec : EqDecision StoredRecord.
Proof. solve_decision. Defined.

(** [len] of a byte slice that may be nil. *)
Definition olen (o : option bytes) : Z :=
  match o with None => 0 | Some b => blen b end.

Lemma olen_nonneg o : 0 <= olen o.
Proof. destruct o; [apply blen_nonneg | done]. Qed.
