(* ===== verification/Format.v ===== *)
(** * The batch format (internal/storage/format.go)

    [EncodeBatch] sizes a buffer and writes at running offsets; [DecodeBatch] reads
    header, checksum and records with the code's bound checks, a slice or index out of
    range being [Panic].  The theorems relate both to the concatenation of the fields,
    [batch_bytes]. *)

From S2P Require Import Prelude Crc32 Model.
From Stdlib Require Import Init.Byte.

Definition MagicSize : Z := 4.
Definition VersionSize : Z := 1.
Definition BatchLengthSize : Z := 4.
Definition BaseOffsetSize : Z := 8.
Definition RecordCountSize : Z := 4.
Definition MaxTimestampSize : Z := 8.
Definition BatchHeaderSize : Z := 33.
Definition MinimumBatchRemainder : Z :=
  BatchHeaderSize - MagicSize - VersionSize - BatchLengthSize.
Definition MinimumRecordSize : Z := 24.
Definition MagicBytes : bytes := [x50; x47; x4c; x47].
Definition FormatVersion1 : byte := x01.

(** ** EncodeBatch *)

(** Lines 45-51: the largest record timestamp, starting from 0. *)
Definition batch_max_timestamp (records : list StoredRecord) : Z :=
  fold_left (fun m r => if m <? Timestamp r then Timestamp r else m) records 0.

(** Lines 53-66: the size of the encoded records. *)
Definition records_payload_size (records : list StoredRecord) : Z :=
  fold_left (fun size r =>
    let size := size + MinimumRecordSize in
    let size := if 0 <? olen (Key r) then size + olen (Key r) else size in
    let size := if 0 <? olen (Value r) then size + olen (Value r) else size in
    fold_left (fun size h => size + (8 + blen (h_Key h) + blen (h_Value h)))
      (Headers r) size) records 0.

(** One field written at [offset], which then moves past it. *)
Definition put_field (s : bytes * Z) (data : bytes) : res (bytes * Z) :=
  let '(buf, offset) := s in
  let! buf := go_copy buf offset (offset + blen data) data in
  Ok (buf, offset + blen data).

(** Lines 96-116: a nil slice has length 0xFFFFFFFF and no bytes. *)
Definition put_nullable (s : bytes * Z) (o : option bytes) : res (bytes * Z) :=
  match o with
  | None => put_field s (be_put 4 4294967295)
  | Some k => let! s := put_field s (be_put 4 (u32 (blen k))) in put_field s k
  end.

(** Lines 122-134. *)
Definition put_header (s : bytes * Z) (h : Header) : res (bytes * Z) :=
  let! s := put_field s (be_put 4 (u32 (blen (h_Key h)))) in
  let! s := put_field s (h_Key h) in
  let! s := put_field s (be_put 4 (u32 (blen (h_Value h)))) in
  put_field s (h_Value h).

(** Lines 86-135: the body of the record loop. *)
Definition put_record (baseOffset maxTimestamp : Z) (s : bytes * Z)
    (r : StoredRecord) : res (bytes * Z) :=
  let! s := put_field s (be_put 4 (u32 (u64 (Offset r - baseOffset)))) in
  let timestampDelta := i64 (maxTimestamp - Timestamp r) in
  let! s := put_field s (be_put 8 (u64 timestampDelta)) in
  let! s := put_nullable s (Key r) in
  let! s := put_nullable s (Value r) in
  let! s := put_field s (be_put 4 (u32 (blen (Headers r)))) in
  rfold put_header (Headers r) s.

(** Lines 71-82: magic, version, length and the header fields but the checksum. *)
Definition put_batch_header (buf : bytes) (totalSize baseOffset count maxTimestamp : Z)
    : res bytes :=
  let! buf := go_copy buf 0 4 MagicBytes in
  let! buf := go_copy buf 4 5 [FormatVersion1] in
  let batchLength := u32 (totalSize - 9) in
  let! buf := PutUint32_at buf 5 batchLength in
  let! buf := PutUint64_at buf 13 baseOffset in
  let! buf := PutUint32_at buf 21 (u32 count) in
  PutUint64_at buf 25 (u64 maxTimestamp).

Definition EncodeBatch (records : list StoredRecord) : res bytes :=
  match records with
  | [] => Err (Errorf "cannot encode empty batch")
  | r0 :: _ =>
    let baseOffset := Offset r0 in
    let maxTimestamp := batch_max_timestamp records in
    let totalSize := BatchHeaderSize + records_payload_size records in
    let buf := zeros totalSize in
    let! buf := put_batch_header buf totalSize baseOffset (blen records) maxTimestamp in
    let! (buf, offset) :=
      rfold (put_record baseOffset maxTimestamp) records (buf, BatchHeaderSize) in
    let! body := slice buf 13 totalSize in
    let! buf := PutUint32_at buf 9 (ChecksumIEEE body) in
    slice buf 0 offset
  end.

(** ** DecodeBatch *)

(** Lines 217-233 and 235-251: a nullable byte slice at [offset]. *)
Definition get_nullable (data : bytes) (totalExpectedSize offset : Z)
    : res (option bytes * Z) :=
  let! raw := Uint32_at data offset in
  let lenVal := i32 raw in
  let offset := offset + 4 in
  if 0 <? lenVal then
    if totalExpectedSize <? offset + lenVal then Err ErrCorruptBatch
    else let! k := slice data offset (offset + lenVal) in
         Ok (Some k, offset + lenVal)
  else if lenVal =? 0 then Ok (Some [], offset)
  else if lenVal <? -1 then Err ErrCorruptBatch
  else Ok (None, offset).

(** Lines 267-295: the body of the header loop. *)
Definition get_header (data : bytes) (totalExpectedSize offset : Z)
    : res (Header * Z) :=
  if totalExpectedSize <? offset + 8 then Err ErrCorruptBatch else
  let! hkLen := Uint32_at data offset in
  let offset := offset + 4 in
  if totalExpectedSize <? offset + hkLen then Err ErrCorruptBatch else
  let! hk := slice data offset (offset + hkLen) in
  let offset := offset + hkLen in
  let! hvLen := Uint32_at data offset in
  let offset := offset + 4 in
  if totalExpectedSize <? offset + hvLen then Err ErrCorruptBatch else
  let! hv := slice data offset (offset + hvLen) in
  Ok (mkHeader hk hv, offset + hvLen).

(** [n] more iterations of the header loop. *)
Fixpoint get_headers (data : bytes) (totalExpectedSize : Z) (n : nat) (offset : Z)
    : res (list Header * Z) :=
  match n with
  | O => Ok ([], offset)
  | S n =>
    let! (h, offset) := get_header data totalExpectedSize offset in
    let! (hs, offset) := get_headers data totalExpectedSize n offset in
    Ok (h :: hs, offset)
  end.

(** Lines 202-305: the body of the record loop. *)
Definition get_record (data : bytes) (totalExpectedSize baseOffset maxTimestamp offset : Z)
    : res (StoredRecord * Z) :=
  if totalExpectedSize <? offset + MinimumRecordSize then Err ErrCorruptBatch else
  let! offsetDelta := Uint32_at data offset in
  let offset := offset + 4 in
  let! rawDelta := Uint64_at data offset in
  let timestampDelta := i64 rawDelta in
  if timestampDelta <? 0 then Err ErrCorruptBatch else
  let offset := offset + 8 in
  let! (key, offset) := get_nullable data totalExpectedSize offset in
  let! (value, offset) := get_nullable data totalExpectedSize offset in
  let! headerCount := Uint32_at data offset in
  let offset := offset + 4 in
  let remainingRecordBytes := totalExpectedSize - offset in
  if u32 (Z.quot remainingRecordBytes 8) <? headerCount then Err ErrCorruptBatch else
  let! (headers, offset) :=
    get_headers data totalExpectedSize (Z.to_nat headerCount) offset in
  Ok (mkStoredRecord (u64 (baseOffset + offsetDelta))
        (i64 (maxTimestamp - timestampDelta)) key value headers, offset).

Fixpoint get_records (data : bytes) (totalExpectedSize baseOffset maxTimestamp : Z)
    (n : nat) (offset : Z) : res (list StoredRecord * Z) :=
  match n with
  | O => Ok ([], offset)
  | S n =>
    let! (r, offset) :=
      get_record data totalExpectedSize baseOffset maxTimestamp offset in
    let! (rs, offset) :=
      get_records data totalExpectedSize baseOffset maxTimestamp n offset in
    Ok (r :: rs, offset)
  end.

(** Lines 183-313: the header fields, the records, and no trailing bytes. *)
Definition decode_body (data : bytes) (batchLength totalExpectedSize : Z)
    : res (list StoredRecord) :=
  let! baseOffset := Uint64_at data 13 in
  let! recordCount := Uint32_at data 21 in
  let! rawMax := Uint64_at data 25 in
  let maxTimestamp := i64 rawMax in
  let remainderBytes :=
    batchLength - (BaseOffsetSize + RecordCountSize + MaxTimestampSize) in
  if u32 (Z.quot remainderBytes MinimumRecordSize) <? recordCount
  then Err ErrCorruptBatch else
  if recordCount =? 0 then Ok [] else
  let! (records, offset) :=
    get_records data totalExpectedSize baseOffset maxTimestamp
      (Z.to_nat recordCount) BatchHeaderSize in
  if negb (offset =? totalExpectedSize) then Err ErrCorruptBatch else
  Ok records.

Definition DecodeBatch (data : bytes) : res (list StoredRecord) :=
  if blen data <? BatchHeaderSize then Err ErrCorruptBatch else
  let! magic := slice data 0 4 in
  if bool_decide (magic ≠ MagicBytes) then Err ErrMalformedMagic else
  let! version := slice data 4 5 in
  if bool_decide (version ≠ [FormatVersion1]) then Err ErrUnsupportedVersion else
  let! batchLength := Uint32_at data 5 in
  if batchLength <? MinimumBatchRemainder then Err ErrCorruptBatch else
  let totalExpectedSize := MagicSize + VersionSize + BatchLengthSize + batchLength in
  if blen data <? totalExpectedSize then Err ErrCorruptBatch else
  let! expectedChecksum := Uint32_at data 9 in
  let! body := slice data 13 totalExpectedSize in
  if negb (expectedChecksum =? ChecksumIEEE body) then Err ErrCorruptBatch else
  decode_body data batchLength totalExpectedSize.

Example rt_small :
  let recs := [mkStoredRecord 7 1000 (Some []) (Some [x61; x62]) [];
               mkStoredRecord 8 990 None None [mkHeader [x68] []; mkHeader [] [x01]]] in
  (let! b := EncodeBatch recs in DecodeBatch b) = Ok recs.
Proof. vm_compute. reflexivity. Qed.

(** ** Reference encoding

    The bytes of a batch as one concatenation, with no buffer. *)
Definition nullable_bytes (o : option bytes) : bytes :=
  match o with
  | None => be_put 4 4294967295
  | Some k => be_put 4 (u32 (blen k)) ++ k
  end.

Definition header_bytes (h : Header) : bytes :=
  be_put 4 (u32 (blen (h_Key h))) ++ h_Key h
  ++ be_put 4 (u32 (blen (h_Value h))) ++ h_Value h.

Definition record_bytes (baseOffset maxTimestamp : Z) (r : StoredRecord) : bytes :=
  be_put 4 (u32 (u64 (Offset r - baseOffset)))
  ++ be_put 8 (u64 (i64 (maxTimestamp - Timestamp r)))
  ++ nullable_bytes (Key r) ++ nullable_bytes (Value r)
  ++ be_put 4 (u32 (blen (Headers r))) ++ concat (header_bytes <$> Headers r).

Definition batch_base (records : list StoredRecord) : Z :=
  match records with [] => 0 | r :: _ => Offset r end.

Definition records_bytes (records : list StoredRecord) : bytes :=
  concat (record_bytes (batch_base records) (batch_max_timestamp records) <$> records).

(** What the checksum covers. *)
Definition body_bytes (records : list StoredRecord) : bytes :=
  be_put 8 (batch_base records) ++ be_put 4 (u32 (blen records))
  ++ be_put 8 (u64 (batch_max_timestamp records)) ++ records_bytes records.

Definition batch_bytes (records : list StoredRecord) : bytes :=
  MagicBytes ++ [FormatVersion1]
  ++ be_put 4 (u32 (BatchHeaderSize + records_payload_size records - 9))
  ++ be_put 4 (ChecksumIEEE (body_bytes records)) ++ body_bytes records.

(** *** Sizes *)

Lemma blen_nullable_bytes o : blen (nullable_bytes o) = 4 + olen o.
Proof. destruct o; unfold nullable_bytes, olen; blen_lia. Qed.

Lemma blen_header_bytes h :
  blen (header_bytes h) = 8 + blen (h_Key h) + blen (h_Value h).
Proof. unfold header_bytes. blen_lia. Qed.
#[export] Hint Rewrite blen_nullable_bytes blen_header_bytes : blen.

Lemma headers_size_fold hs acc :
  fold_left (fun size h => size + (8 + blen (h_Key h) + blen (h_Value h))) hs acc
  = acc + blen (concat (header_bytes <$> hs)).
Proof.
  revert acc. induction hs as [|h hs IH]; intros acc; cbn [fold_left].
  - blen_lia.
  - rewrite IH. blen_lia.
Qed.

Lemma add_if_pos (n s : Z) : 0 <= n → (if 0 <? n then s + n else s) = s + n.
Proof. intros. destruct (Z.ltb_spec 0 n); lia. Qed.

Lemma records_payload_size_blen base mts records :
  records_payload_size records = blen (concat (record_bytes base mts <$> records)).
Proof.
  unfold records_payload_size.
  enough (∀ acc, fold_left (fun size r =>
    let size := size + MinimumRecordSize in
    let size := if 0 <? olen (Key r) then size + olen (Key r) else size in
    let size := if 0 <? olen (Value r) then size + olen (Value r) else size in
    fold_left (fun size h => size + (8 + blen (h_Key h) + blen (h_Value h)))
      (Headers r) size) records acc
    = acc + blen (concat (record_bytes base mts <$> records))) as H by apply H.
  induction records as [|r rs IH]; intros acc; cbn [fold_left]; [blen_lia|].
  cbv zeta. rewrite IH, concat_fmap_cons, headers_size_fold, !add_if_pos by apply olen_nonneg.
  unfold record_bytes, MinimumRecordSize. blen_lia.
Qed.

Lemma blen_records_bytes records :
  blen (records_bytes records) = records_payload_size records.
Proof. unfold records_bytes. by rewrite <- records_payload_size_blen. Qed.

Lemma blen_body_bytes records :
  blen (body_bytes records) = 20 + records_payload_size records.
Proof. unfold body_bytes. rewrite !blen_app, blen_records_bytes. blen_lia. Qed.

Lemma blen_batch_bytes records :
  blen (batch_bytes records) = BatchHeaderSize + records_payload_size records.
Proof.
  unfold batch_bytes. rewrite !blen_app, blen_body_bytes.
  unfold BatchHeaderSize, MagicBytes. blen_lia.
Qed.

Lemma records_payload_size_lower records :
  24 * blen records <= records_payload_size records.
Proof.
  rewrite (records_payload_size_blen 0 0).
  induction records as [|r rs IH]; [blen_lia|].
  rewrite concat_fmap_cons. unfold record_bytes at 1. autorewrite with blen in *.
  pose proof (olen_nonneg (Key r)). pose proof (olen_nonneg (Value r)). blen_lia.
Qed.

(** *** The buffer writes produce the reference encoding *)

(** [fills f bs]: run at the end of the filled part of a zeroed buffer, [f]
    appends [bs] to it. *)
Definition fills (f : bytes * Z → res (bytes * Z)) (bs : bytes) : Prop :=
  ∀ w k, blen bs <= k →
    f (w ++ zeros k, blen w) = Ok ((w ++ bs) ++ zeros (k - blen bs), blen (w ++ bs)).

Lemma fills_field bs : fills (fun s => put_field s bs) bs.
Proof.
  intros w k Hk. unfold put_field. rewrite go_copy_zeros by (auto; lia).
  cbn [rbind]. by rewrite blen_app.
Qed.

Lemma fills_seq f g a b :
  fills f a → fills g b → fills (fun s => let! s := f s in g s) (a ++ b).
Proof.
  intros Hf Hg w k Hk. rewrite blen_app in Hk. pose proof (blen_nonneg b).
  rewrite Hf by lia. cbn [rbind]. rewrite Hg by lia.
  rewrite <- !app_assoc, !blen_app.
  by replace (k - blen a - blen b) with (k - (blen a + blen b)) by lia.
Qed.

Lemma fills_rfold {A} (f : bytes * Z → A → res (bytes * Z)) g l :
  (∀ x, fills (fun s => f s x) (g x)) → fills (rfold f l) (concat (g <$> l)).
Proof.
  intros Hf. induction l as [|x l IH].
  - intros w k Hk. simpl. by rewrite !app_nil_r, blen_nil, Z.sub_0_r.
  - apply (fills_seq (fun s => f s x) (rfold f l)); auto.
Qed.

Create HintDb fills.
#[export] Hint Resolve fills_field fills_seq fills_rfold : fills.

Lemma fills_nullable o : fills (fun s => put_nullable s o) (nullable_bytes o).
Proof. destruct o; unfold put_nullable, nullable_bytes; auto with fills. Qed.

Lemma fills_header h : fills (fun s => put_header s h) (header_bytes h).
Proof. unfold put_header, header_bytes. auto with fills. Qed.
#[export] Hint Resolve fills_nullable fills_header : fills.

Lemma fills_record base mts r :
  fills (fun s => put_record base mts s r) (record_bytes base mts r).
Proof. unfold put_record, record_bytes. auto 8 with fills. Qed.
#[export] Hint Resolve fills_record : fills.

(** The six header writes into the zeroed buffer. *)
Lemma put_batch_header_zeros base n m k :
  0 <= k →
  put_batch_header (zeros (33 + k)) (33 + k) base n m
  = Ok ((MagicBytes ++ [FormatVersion1] ++ be_put 4 (u32 (33 + k - 9)) ++ zeros 4
         ++ be_put 8 base ++ be_put 4 (u32 n) ++ be_put 8 (u64 m)) ++ zeros k).
Proof.
  intros Hk. unfold put_batch_header, PutUint32_at, PutUint64_at.
  assert (blen MagicBytes = 4) as Hm by (by vm_compute).
  assert (blen [FormatVersion1] = 1) as Hv by (by vm_compute).
  rewrite <- (app_nil_l (zeros (33 + k))).
  rewrite go_copy_zeros by (rewrite ?Hm, ?blen_nil; lia). cbn [rbind].
  rewrite go_copy_zeros by (rewrite ?blen_app, ?blen_nil, ?Hm, ?Hv; lia).
  cbn [rbind].
  rewrite go_copy_zeros
    by (rewrite ?blen_app, ?blen_nil, ?Hm, ?Hv, ?blen_be_put; lia).
  cbn [rbind]. rewrite Hm, Hv, blen_be_put.
  rewrite (zeros_split (33 + k - 4 - 1 - Z.of_nat 4) 4) by lia.
  rewrite app_assoc.
  do 3 (rewrite go_copy_zeros by (rewrite ?blen_app, ?blen_nil, ?Hm, ?Hv,
    ?blen_be_put, ?blen_zeros by lia; lia); cbn [rbind]).
  rewrite !blen_be_put, app_nil_l, <- !app_assoc.
  by replace (33 + k - 4 - 1 - Z.of_nat 4 - 4 - Z.of_nat 8 - Z.of_nat 4 - Z.of_nat 8)
    with k by lia.
Qed.


Lemma EncodeBatch_batch_bytes records :
  records ≠ [] → EncodeBatch records = Ok (batch_bytes records).
Proof.
  intros Hne. pose proof (records_payload_size_lower records) as Hlow.
  pose proof (blen_nonneg records). pose proof (blen_records_bytes records) as HR.
  unfold EncodeBatch, batch_bytes, body_bytes.
  destruct records as [|r0 rs] eqn:E; [done|].
  change (Offset r0) with (batch_base (r0 :: rs)). rewrite <- E in *.
  set (P := records_payload_size records) in *.
  set (mts := batch_max_timestamp records). set (base := batch_base records).
  unfold BatchHeaderSize. rewrite put_batch_header_zeros by lia. cbn [rbind].
  set (hdr := MagicBytes ++ _).
  assert (blen hdr = 33) as Hh.
  { unfold hdr. rewrite !blen_app, !blen_be_put, blen_zeros by lia. by vm_compute. }
  rewrite <- Hh at 1. rewrite (fills_rfold _ _ records (fills_record base mts))
    by (change (concat _) with (records_bytes records); lia).
  cbn [rbind]. change (concat (record_bytes base mts <$> records))
    with (records_bytes records).
  rewrite HR, Z.sub_diag, app_nil_r.
  set (pre := MagicBytes ++ [FormatVersion1] ++ be_put 4 (u32 (33 + P - 9))).
  set (body := be_put 8 base ++ _).
  assert (hdr ++ records_bytes records = pre ++ zeros 4 ++ body) as ->.
  { unfold hdr, pre, body. by rewrite <- !app_assoc. }
  assert (blen pre = 9) as Hp by (unfold pre; rewrite !blen_app, !blen_be_put; by vm_compute).
  assert (blen body = 20 + P) as Hb.
  { unfold body. rewrite !blen_app, !blen_be_put, HR. lia. }
  rewrite (at_off_slice _ _ body).
  2:{ exists (pre ++ zeros 4), []. rewrite app_nil_r, <- app_assoc, blen_app, Hp.
      by rewrite blen_zeros. }
  2:{ lia. }
  cbn [rbind]. unfold PutUint32_at.
  rewrite go_copy_app by (rewrite ?blen_be_put, ?blen_zeros by lia; lia).
  cbn [rbind]. rewrite (at_off_slice _ _ (pre ++ be_put 4 (ChecksumIEEE body) ++ body)).
  - done.
  - exists [], []. by rewrite app_nil_r.
  - rewrite !blen_app, Hp, !blen_be_put, Hb, ?blen_zeros by lia. lia.
Qed.

(** ** Round trip *)

(** A record that its encoding can represent: the deltas and lengths fit the
    signed and unsigned fields that DecodeBatch reads them back from. *)
Definition record_fits (base mts : Z) (r : StoredRecord) : Prop :=
  0 <= Offset r < two64 ∧ u64 (Offset r - base) < two32
  ∧ - two63 <= Timestamp r ∧ Timestamp r <= mts ∧ mts - Timestamp r < two63
  ∧ olen (Key r) < two31 ∧ olen (Value r) < two31.

(** A batch that EncodeBatch and DecodeBatch carry without loss. *)
Record encodable (records : list StoredRecord) : Prop := mkEncodable {
  enc_nonempty : records ≠ [];
  enc_size : BatchHeaderSize + records_payload_size records - 9 < two32;
  enc_max : batch_max_timestamp records < two63;
  enc_records : Forall (record_fits (batch_base records) (batch_max_timestamp records))
                  records;
}.

Lemma get_nullable_at data total off o :
  at_off data off (nullable_bytes o) → olen o < two31 →
  off + blen (nullable_bytes o) <= total →
  get_nullable data total off = Ok (o, off + blen (nullable_bytes o)).
Proof.
  intros Hat Ho Htot. rewrite blen_nullable_bytes in *.
  unfold get_nullable. destruct o as [k|]; unfold nullable_bytes, olen in *.
  - apply at_off_app in Hat as [Hlen Hk]. rewrite blen_be_put in Hk.
    pose proof (blen_nonneg k).
    rewrite (at_off_Uint32 _ _ _ Hlen). cbn [rbind].
    rewrite !u32_small, i32_small by (rewrite ?u32_small; lia).
    destruct (Z.ltb_spec 0 (blen k)).
    + destruct (Z.ltb_spec total (off + 4 + blen k)); [lia|].
      rewrite (at_off_slice _ _ k) by (done || lia). cbn [rbind].
      do 2 f_equal. lia.
    + assert (blen k = 0) as Hz by lia. rewrite Hz. simpl.
      rewrite blen_eq in Hz. destruct k; [|simpl in Hz; lia].
      do 2 f_equal; lia.
  - rewrite (at_off_Uint32 _ _ _ Hat). cbn [rbind].
    change (i32 (u32 4294967295)) with (-1). simpl. do 2 f_equal; lia.
Qed.

Lemma get_header_at data total off h :
  at_off data off (header_bytes h) → blen (header_bytes h) < two32 →
  off + blen (header_bytes h) <= total →
  get_header data total off = Ok (h, off + blen (header_bytes h)).
Proof.
  intros Hat Hlt Htot. destruct h as [hk hv]. rewrite blen_header_bytes in *.
  unfold header_bytes, get_header in *. cbn [h_Key h_Value] in *.
  pose proof (blen_nonneg hk). pose proof (blen_nonneg hv).
  apply at_off_app in Hat as [H1 Hat]. apply at_off_app in Hat as [H2 Hat].
  apply at_off_app in Hat as [H3 H4].
  rewrite blen_be_put in *. change (Z.of_nat 4) with 4 in *.
  destruct (Z.ltb_spec total (off + 8)); [lia|].
  rewrite (at_off_Uint32 _ _ _ H1). cbn [rbind].
  rewrite !(u32_small (blen hk)) by (rewrite ?u32_small; lia).
  destruct (Z.ltb_spec total (off + 4 + blen hk)); [lia|].
  rewrite (at_off_slice _ _ hk) by (done || lia). cbn [rbind].
  rewrite (at_off_Uint32 _ _ _ H3). cbn [rbind].
  rewrite !(u32_small (blen hv)) by (rewrite ?u32_small; lia).
  destruct (Z.ltb_spec total (off + 4 + blen hk + 4 + blen hv)); [lia|].
  rewrite (at_off_slice _ _ hv) by (done || lia). cbn [rbind].
  do 2 f_equal. lia.
Qed.

Lemma get_headers_at data total off hs :
  at_off data off (concat (header_bytes <$> hs)) →
  blen (concat (header_bytes <$> hs)) < two32 →
  off + blen (concat (header_bytes <$> hs)) <= total →
  get_headers data total (length hs) off
  = Ok (hs, off + blen (concat (header_bytes <$> hs))).
Proof.
  revert off. induction hs as [|h hs IH]; intros off Hat Hlt Htot.
  - simpl. rewrite blen_nil. do 2 f_equal. lia.
  - rewrite concat_fmap_cons in *. rewrite blen_app in *.
    pose proof (blen_nonneg (header_bytes h)).
    pose proof (blen_nonneg (concat (header_bytes <$> hs))).
    apply at_off_app in Hat as [Hh Hhs].
    cbn [get_headers length]. rewrite (get_header_at _ _ _ h) by (done || lia). cbn [rbind].
    rewrite IH by (done || lia). cbn [rbind]. do 2 f_equal. lia.
Qed.

(** The record a decoder rebuilds from the deltas is the one encoded. *)
Lemma offset_delta base o :
  0 <= base < two64 → 0 <= o < two64 → u64 (o - base) < two32 →
  u64 (base + u32 (u32 (u64 (o - base)))) = o.
Proof.
  intros Hb Ho Hd. pose proof (u64_range (o - base)).
  rewrite !u32_small by (rewrite ?u32_small; lia).
  unfold u64. rewrite Z.add_mod_idemp_r by lia.
  replace (base + (o - base)) with o by lia. apply Z.mod_small. lia.
Qed.

Lemma timestamp_delta mts ts :
  - two63 <= ts <= mts → mts - ts < two63 → mts < two63 →
  i64 (u64 (u64 (i64 (mts - ts)))) = mts - ts ∧ i64 (mts - (mts - ts)) = ts.
Proof.
  intros. rewrite (i64_small (mts - ts)) by lia. rewrite !u64_small by (rewrite ?u64_small; lia).
  rewrite !i64_small by lia. lia.
Qed.

Lemma header_count_bound hs :
  8 * blen hs <= blen (concat (header_bytes <$> hs)).
Proof.
  induction hs as [|h hs IH]; [blen_lia|]. rewrite concat_fmap_cons. blen_lia.
Qed.

Lemma get_record_at data total off base mts r :
  0 <= base < two64 → mts < two63 → record_fits base mts r →
  at_off data off (record_bytes base mts r) → total < two32 + 9 →
  off + blen (record_bytes base mts r) <= total → 33 <= off →
  get_record data total base mts off = Ok (r, off + blen (record_bytes base mts r)).
Proof.
  intros Hb Hm (Ho & Hd & Ht1 & Ht2 & Ht3 & Hk & Hv) Hat Htot Hle Hoff.
  destruct r as [o ts k v hs]; cbn [Offset Timestamp Key Value Headers] in *.
  pose proof (header_count_bound hs) as Hc. pose proof (blen_nonneg hs) as Hn1.
  pose proof (olen_nonneg k) as Hn2. pose proof (olen_nonneg v) as Hn3.
  destruct (timestamp_delta mts ts) as [Htd Hti]; [lia..|].
  unfold record_bytes in *; cbn [Offset Timestamp Key Value Headers] in *.
  rewrite !blen_app, !blen_be_put, !blen_nullable_bytes in Hle.
  apply at_off_app in Hat as [H1 Hat]. apply at_off_app in Hat as [H2 Hat].
  apply at_off_app in Hat as [H3 Hat]. apply at_off_app in Hat as [H4 Hat].
  apply at_off_app in Hat as [H5 H6].
  rewrite !blen_be_put in *. change (Z.of_nat 4) with 4 in *.
  change (Z.of_nat 8) with 8 in *.
  unfold get_record, MinimumRecordSize.
  destruct (Z.ltb_spec total (off + 24)); [lia|].
  rewrite (at_off_Uint32 _ _ _ H1). cbn [rbind].
  rewrite (at_off_Uint64 _ _ _ H2). cbn [rbind]. cbv zeta. rewrite Htd.
  destruct (Z.ltb_spec (mts - ts) 0); [lia|].
  rewrite (get_nullable_at _ _ _ k) by (rewrite ?blen_nullable_bytes; done || lia).
  cbn [rbind].
  rewrite (get_nullable_at _ _ _ v) by (rewrite ?blen_nullable_bytes in *; done || lia).
  cbn [rbind]. rewrite (at_off_Uint32 _ _ _ H5). cbn [rbind].
  rewrite !blen_nullable_bytes in *.
  rewrite !(u32_small (blen hs)) by (rewrite ?u32_small; lia).
  set (rem := total - (_ + 4)). assert (8 * blen hs <= rem) as Hrem by (unfold rem; lia).
  assert (blen hs <= Z.quot rem 8) as Hq by (apply Z.quot_le_lower_bound; lia).
  assert (Z.quot rem 8 < two32).
  { apply Z.le_lt_trans with (rem / 8); [rewrite Z.quot_div_nonneg; lia|].
    apply Z.div_lt_upper_bound; unfold rem; lia. }
  rewrite (u32_small (Z.quot rem 8)) by lia.
  destruct (Z.ltb_spec (Z.quot rem 8) (blen hs)); [lia|].
  replace (Z.to_nat (blen hs)) with (length hs) by (rewrite blen_eq; lia).
  rewrite get_headers_at by (done || unfold rem in *; lia).
  cbn [rbind]. rewrite offset_delta, Hti by done.
  rewrite !blen_app, !blen_be_put, !blen_nullable_bytes. do 2 f_equal. lia.
Qed.

Lemma get_records_at data total off base mts rs :
  0 <= base < two64 → mts < two63 → Forall (record_fits base mts) rs →
  at_off data off (concat (record_bytes base mts <$> rs)) → total < two32 + 9 →
  off + blen (concat (record_bytes base mts <$> rs)) <= total → 33 <= off →
  get_records data total base mts (length rs) off
  = Ok (rs, off + blen (concat (record_bytes base mts <$> rs))).
Proof.
  intros Hb Hm. revert off. induction rs as [|r rs IH]; intros off Hf Hat Htot Hle Hoff.
  - simpl. rewrite blen_nil. do 2 f_equal. lia.
  - inversion Hf; subst. rewrite concat_fmap_cons in *. rewrite blen_app in *.
    pose proof (blen_nonneg (record_bytes base mts r)).
    pose proof (blen_nonneg (concat (record_bytes base mts <$> rs))).
    apply at_off_app in Hat as [H1' H2'].
    cbn [get_records length]. rewrite (get_record_at _ _ _ _ _ r) by (done || lia).
    cbn [rbind]. rewrite IH by (done || lia). cbn [rbind]. do 2 f_equal. lia.
Qed.

(** The maximum timestamp is at least 0 and at least every timestamp, and is
    one of them or 0. *)
Lemma max_timestamp_fold rs acc :
  let m := fold_left (fun m r => if m <? Timestamp r then Timestamp r else m) rs acc in
  acc <= m ∧ Forall (fun r => Timestamp r <= m) rs
  ∧ (m = acc ∨ Exists (fun r => Timestamp r = m) rs).
Proof.
  revert acc. induction rs as [|r rs IH]; intros acc; simpl; [split; [lia|auto]|].
  destruct (IH (if acc <? Timestamp r then Timestamp r else acc)) as (H1 & H2 & H3).
  destruct (Z.ltb_spec acc (Timestamp r)); (split; [lia|split; [constructor; [lia|done]|]]);
    destruct H3; auto.
Qed.

Lemma batch_max_timestamp_nonneg records : 0 <= batch_max_timestamp records.
Proof. apply (max_timestamp_fold records 0). Qed.

(** The checks on the header of a complete frame. *)
Lemma DecodeBatch_frame magic version l crc body tail :
  blen magic = 4 → blen version = 1 → blen crc = 4 → l = 4 + blen body →
  24 <= l < two32 →
  let data := magic ++ version ++ be_put 4 l ++ crc ++ body ++ tail in
  DecodeBatch data =
    if bool_decide (magic ≠ MagicBytes) then Err ErrMalformedMagic else
    if bool_decide (version ≠ [FormatVersion1]) then Err ErrUnsupportedVersion else
    if negb (be_get crc =? ChecksumIEEE body) then Err ErrCorruptBatch else
    decode_body data l (9 + l).
Proof.
  intros Hm Hv Hc Hl Hr data.
  assert (blen data = 9 + l + blen tail) as Hlen.
  { unfold data. rewrite !blen_app, blen_be_put. lia. }
  pose proof (blen_nonneg tail).
  assert (at_off data 0 (magic ++ version ++ be_put 4 l ++ crc ++ body)) as Hat.
  { exists [], tail. unfold data. by rewrite app_nil_l, <- !app_assoc. }
  apply at_off_app in Hat as [H1 Hat]. apply at_off_app in Hat as [H2 Hat].
  apply at_off_app in Hat as [H3 Hat]. apply at_off_app in Hat as [H4 H5].
  rewrite blen_be_put, Hm, Hv, Hc in *.
  unfold DecodeBatch, MinimumBatchRemainder, BatchHeaderSize, MagicSize, VersionSize,
    BatchLengthSize.
  destruct (Z.ltb_spec (blen data) 33); [lia|].
  rewrite (at_off_slice _ _ magic) by (done || lia). cbn [rbind].
  case_bool_decide; [done|].
  rewrite (at_off_slice _ _ version) by (at_off || lia). cbn [rbind].
  case_bool_decide; [done|].
  rewrite (at_off_Uint32 _ _ l) by at_off. cbn [rbind]. rewrite u32_small by lia.
  destruct (Z.ltb_spec l (33 - 4 - 1 - 4)); [lia|].
  destruct (Z.ltb_spec (blen data) (4 + 1 + 4 + l)); [lia|].
  unfold Uint32_at at 1. rewrite (at_off_slice _ _ crc) by (at_off || lia). cbn [rbind].
  rewrite (at_off_slice _ _ body) by (at_off || lia). done.
Qed.

Lemma decode_body_batch_bytes records tail l :
  encodable records → l = BatchHeaderSize + records_payload_size records - 9 →
  decode_body (batch_bytes records ++ tail) l (9 + l) = Ok records.
Proof.
  intros [Hne Hsz Hmx Hrec] Hl. pose proof (records_payload_size_lower records) as Hlow.
  pose proof (blen_nonneg records) as Hn. unfold BatchHeaderSize in *.
  assert (0 < blen records) as Hpos
    by (destruct records; [done|]; rewrite blen_cons in *; blen_lia).
  pose proof (batch_max_timestamp_nonneg records) as Hm0.
  assert (0 <= batch_base records < two64) as Hb.
  { destruct records as [|r rs]; [done|]. inversion Hrec as [|? ? Hr]; subst.
    by destruct Hr. }
  pose proof (blen_records_bytes records) as HR.
  set (data := batch_bytes records ++ tail).
  assert (at_off data 13 (body_bytes records)) as Hat.
  { exists (MagicBytes ++ [FormatVersion1] ++ be_put 4 (u32 (BatchHeaderSize
      + records_payload_size records - 9)) ++ be_put 4 (ChecksumIEEE (body_bytes records))),
      tail. split.
    - unfold data, batch_bytes. by rewrite <- !app_assoc.
    - by rewrite !blen_app, !blen_be_put. }
  unfold body_bytes in Hat.
  apply at_off_app in Hat as [H1 Hat]. apply at_off_app in Hat as [H2 Hat].
  apply at_off_app in Hat as [H3 H4]. rewrite !blen_be_put in *.
  unfold decode_body, BaseOffsetSize, RecordCountSize, MaxTimestampSize, MinimumRecordSize.
  rewrite (at_off_Uint64 _ _ _ H1). cbn [rbind].
  rewrite (at_off_Uint32 _ _ (u32 (blen records))) by at_off. cbn [rbind].
  rewrite (at_off_Uint64 _ _ (u64 (batch_max_timestamp records))) by at_off.
  cbn [rbind]. cbv zeta.
  rewrite !i64_u64, (i64_small (batch_max_timestamp _)) by lia.
  rewrite (u64_small (batch_base _)) by lia.
  rewrite !(u32_small (blen records)) by (rewrite ?u32_small; lia).
  assert (blen records <= Z.quot (l - (8 + 4 + 8)) 24 < two32) as Hq.
  { split; [apply Z.quot_le_lower_bound; lia|].
    rewrite Z.quot_div_nonneg by lia. apply Z.div_lt_upper_bound; lia. }
  rewrite (u32_small (Z.quot _ _)) by lia.
  destruct (Z.ltb_spec (Z.quot (l - (8 + 4 + 8)) 24) (blen records)); [lia|].
  destruct (Z.eqb_spec (blen records) 0); [lia|].
  replace (Z.to_nat (blen records)) with (length records) by (rewrite blen_eq; lia).
  unfold records_bytes in H4.
  rewrite (get_records_at _ _ _ _ _ records); try done; try lia; try at_off.
  2:{ fold (records_bytes records). unfold BatchHeaderSize. lia. }
  cbn [rbind]. fold (records_bytes records). rewrite HR.
  destruct (Z.eqb_spec (BatchHeaderSize + records_payload_size records) (9 + l)); [done|].
  unfold BatchHeaderSize in *; lia.
Qed.

Lemma batch_length_field records :
  encodable records →
  24 <= BatchHeaderSize + records_payload_size records - 9 < two32.
Proof.
  intros [_ ? _ _]. pose proof (records_payload_size_lower records).
  pose proof (blen_nonneg records). unfold BatchHeaderSize in *. lia.
Qed.

Lemma DecodeBatch_batch_bytes records tail :
  encodable records → DecodeBatch (batch_bytes records ++ tail) = Ok records.
Proof.
  intros He. pose proof (batch_length_field records He) as Hl.
  pose proof (decode_body_batch_bytes records tail _ He eq_refl) as Hbody.
  pose proof (ChecksumIEEE_range (body_bytes records)).
  unfold batch_bytes in *. rewrite <- !app_assoc in *.
  rewrite (u32_small (_ - 9)) in * by lia.
  rewrite DecodeBatch_frame by (rewrite ?blen_be_put, ?blen_body_bytes;
    unfold BatchHeaderSize in *; done || lia).
  rewrite bool_decide_eq_false_2 by (intros Hx; by apply Hx).
  rewrite bool_decide_eq_false_2 by (intros Hx; by apply Hx).
  rewrite be_get_put4, u32_small, Z.eqb_refl by done. apply Hbody.
Qed.

(** ** Reads past the declared batch

    [safe total r]: no panic, and the offset reached is at most [total]. *)
Definition safe {A} (lo total : Z) (r : res (A * Z)) : Prop :=
  match r with
  | Ok (_, off) => lo <= off <= total
  | Err _ => True
  | Panic => False
  end.

Section Slack.
Context (data : bytes) (total : Z) (Hslack : total + 8 <= blen data).

Lemma get_nullable_safe off :
  0 <= off <= total + 4 → safe off (Z.max total (off + 4)) (get_nullable data total off).
Proof.
  intros Ho. unfold get_nullable, safe.
  destruct (Uint32_at_no_panic data off) as (v & -> & Hv); [lia..|]. cbn [rbind].
  destruct (Z.ltb_spec 0 (i32 v)).
  - destruct (Z.ltb_spec total (off + 4 + i32 v)); [done|].
    destruct (slice_no_panic data (off + 4) (off + 4 + i32 v)) as (s & -> & _);
      [lia..|]. cbn [rbind]. lia.
  - destruct (i32 v =? 0); [lia|]. destruct (i32 v <? -1); [done|lia].
Qed.

Lemma get_header_safe off : 0 <= off → safe off total (get_header data total off).
Proof.
  intros Ho. unfold get_header, safe.
  destruct (Z.ltb_spec total (off + 8)); [done|].
  destruct (Uint32_at_no_panic data off) as (k & -> & Hk); [lia..|]. cbn [rbind].
  destruct (Z.ltb_spec total (off + 4 + k)); [done|].
  destruct (slice_no_panic data (off + 4) (off + 4 + k)) as (s & -> & _); [lia..|].
  cbn [rbind].
  destruct (Uint32_at_no_panic data (off + 4 + k)) as (v & -> & Hv); [lia..|].
  cbn [rbind]. destruct (Z.ltb_spec total (off + 4 + k + 4 + v)); [done|].
  destruct (slice_no_panic data (off + 4 + k + 4) (off + 4 + k + 4 + v))
    as (t & -> & _); [lia..|]. cbn [rbind]. lia.
Qed.

Lemma get_headers_safe n off :
  0 <= off → safe off (Z.max off total) (get_headers data total n off).
Proof.
  revert off. induction n as [|n IH]; intros off Ho; simpl; [lia|].
  pose proof (get_header_safe off Ho) as Hh. unfold safe in Hh.
  destruct (get_header data total off) as [[h o]| |]; cbn [rbind]; try done.
  specialize (IH o ltac:(lia)). unfold safe in *.
  destruct (get_headers data total n o) as [[hs o']| |]; cbn [rbind]; try done. lia.
Qed.

Lemma get_record_safe base mts off :
  0 <= off → safe off (total + 8) (get_record data total base mts off).
Proof.
  intros Ho. unfold get_record, MinimumRecordSize.
  destruct (Z.ltb_spec total (off + 24)); [done|].
  destruct (Uint32_at_no_panic data off) as (d & -> & Hd); [lia..|]. cbn [rbind].
  destruct (Uint64_at_no_panic data (off + 4)) as (t & -> & Ht); [lia..|].
  cbn [rbind]. destruct (i64 t <? 0); [done|].
  pose proof (get_nullable_safe (off + 4 + 8) ltac:(lia)) as Hk. unfold safe in Hk.
  destruct (get_nullable data total (off + 4 + 8)) as [[k ko]| |]; cbn [rbind]; try done.
  pose proof (get_nullable_safe ko ltac:(lia)) as Hv. unfold safe in Hv.
  destruct (get_nullable data total ko) as [[v vo]| |]; cbn [rbind]; try done.
  destruct (Uint32_at_no_panic data vo) as (c & -> & Hc); [lia..|]. cbn [rbind].
  destruct (_ <? c); [done|].
  pose proof (get_headers_safe (Z.to_nat c) (vo + 4) ltac:(lia)) as Hh. unfold safe in *.
  destruct (get_headers _ _ _ _) as [[hs ho]| |]; cbn [rbind]; try done. lia.
Qed.

Lemma get_records_safe base mts n off :
  0 <= off → get_records data total base mts n off ≠ Panic.
Proof.
  revert off. induction n as [|n IH]; intros off Ho; [done|]. cbn [get_records].
  pose proof (get_record_safe base mts off Ho) as Hr. unfold safe in Hr.
  destruct (get_record _ _ _ _ _) as [[r o]| |]; cbn [rbind]; try done.
  specialize (IH o ltac:(lia)).
  by destruct (get_records _ _ _ _ _ _) as [[rs o']| |].
Qed.
End Slack.

(** *** One changed byte *)

(** The verdict on a frame whose magic, version, checksum or body was changed. *)
Lemma DecodeBatch_bad_frame magic version l crc body :
  blen magic = 4 → blen version = 1 → blen crc = 4 → l = 4 + blen body →
  24 <= l < two32 →
  magic ≠ MagicBytes ∨ version ≠ [FormatVersion1] ∨ be_get crc ≠ ChecksumIEEE body →
  ∃ e, DecodeBatch (magic ++ version ++ be_put 4 l ++ crc ++ body) = Err e.
Proof.
  intros Hm Hv Hc Hl Hr Hbad.
  pose proof (DecodeBatch_frame magic version l crc body [] Hm Hv Hc Hl Hr) as Hd.
  cbv zeta in Hd. rewrite app_nil_r in Hd. rewrite Hd. clear Hd.
  do 2 (case_bool_decide; [by eexists|]).
  destruct (Z.eqb_spec (be_get crc) (ChecksumIEEE body)); [|by eexists].
  exfalso. tauto.
Qed.

(** ** Properties *)

(** C18: EncodeBatch, which sizes a buffer first and then writes every field at
    a running offset, rejects the empty batch and otherwise returns exactly the
    concatenation of the fields: no write is out of range, the buffer is filled
    to its last byte, and the checksum is that of the bytes after it. *)
Theorem EncodeBatch_reference records :
  EncodeBatch records =
    match records with
    | [] => Err (Errorf "cannot encode empty batch")
    | _ => Ok (batch_bytes records)
    end.
Proof.
  destruct records as [|r rs]; [done|]. by apply EncodeBatch_batch_bytes.
Qed.

(** C17: decoding an encoded batch gives back its records, whatever bytes follow
    the batch in the input. *)
Theorem decode_encode_roundtrip records tail :
  encodable records →
  (let! b := EncodeBatch records in DecodeBatch (b ++ tail)) = Ok records.
Proof.
  intros He. rewrite EncodeBatch_batch_bytes by apply He.
  by apply DecodeBatch_batch_bytes.
Qed.

(** A byte changed in one of two adjacent parts. *)
Lemma changed_app (x y : bytes) i b :
  (i < length (x ++ y))%nat → (x ++ y) !! i ≠ Some b →
  (i < length x ∧ x !! i ≠ Some b ∧ <[i := b]> (x ++ y) = <[i := b]> x ++ y)%nat
  ∨ (length x <= i ∧ i - length x < length y ∧ y !! (i - length x) ≠ Some b
     ∧ <[i := b]> (x ++ y) = x ++ <[i - length x := b]> y)%nat.
Proof.
  rewrite length_app. intros Hi Hb. destruct (decide (i < length x)%nat) as [Hlt|Hge].
  - left. rewrite lookup_app_l in Hb by done. by rewrite insert_app_l.
  - right. rewrite lookup_app_r in Hb by lia. rewrite insert_app_r_alt by lia. split; [lia|]. split; [lia|done].
Qed.

(** C30: a batch with one byte changed anywhere but in the length field is
    rejected: the magic, the version or the checksum gives it away. *)
Theorem DecodeBatch_detects_changed_byte records i b :
  encodable records → (i < length (batch_bytes records))%nat →
  batch_bytes records !! i ≠ Some b → ¬ (5 <= i < 9)%nat →
  ∃ e, DecodeBatch (<[i := b]> (batch_bytes records)) = Err e.
Proof.
  intros He Hi Hb Hlen. pose proof (batch_length_field records He) as Hl.
  pose proof (ChecksumIEEE_range (body_bytes records)) as Hcr.
  pose proof (blen_body_bytes records) as Hbody.
  unfold batch_bytes, BatchHeaderSize in *. rewrite (u32_small (_ - 9)) in * by lia.
  set (l := 33 + records_payload_size records - 9) in *.
  set (body := body_bytes records) in *. set (crc := be_put 4 (ChecksumIEEE body)) in *.
  assert (length crc = 4%nat) as Hc by done.
  assert (length (be_put 4 l) = 4%nat) as Hll by done.
  assert (be_get crc = ChecksumIEEE body) as Hcv
    by (unfold crc; rewrite be_get_put4; by apply u32_small).
  assert (l = 4 + blen body) as Hlb by lia.
  destruct (changed_app _ _ _ _ Hi Hb) as [(H0 & Hd & ->)|(H1 & Hi0 & Hd & ->)].
  { apply DecodeBatch_bad_frame; [by rewrite ?blen_insert..|done|done|]. left. by apply insert_changes. }
  change (length MagicBytes) with 4%nat in *.
  destruct (changed_app _ _ _ _ Hi0 Hd) as [(H2 & Hd2 & ->)|(H2 & Hid & Hd2 & ->)].
  { simpl in H2. assert (i - 4 = 0)%nat as H0 by lia. rewrite H0 in *.
    apply DecodeBatch_bad_frame; [done..|]. right. left. simpl in *. congruence. }
  change (length [FormatVersion1]) with 1%nat in *.
  destruct (changed_app _ _ _ _ Hid Hd2) as [(H3 & _)|(H3 & Hid2 & Hd3 & ->)]; [lia|].
  destruct (changed_app _ _ _ _ Hid2 Hd3) as [(H4 & Hd4 & ->)|(_ & Hid3 & Hd4 & ->)].
  - apply DecodeBatch_bad_frame; [done|done|by rewrite blen_insert|done|done|].
    right. right. rewrite <- Hcv. intros Heq. apply be_get_inj in Heq; [|by rewrite length_insert].
    revert Heq. by apply insert_changes.
  - apply DecodeBatch_bad_frame; [done..|by rewrite blen_insert|done|].
    right. right. rewrite Hcv. intros Heq. symmetry in Heq. revert Heq.
    by apply ChecksumIEEE_insert.
Qed.

(** When the input extends at least 8 bytes past the declared batch,
    DecodeBatch never panics, whatever the bytes are. *)
Theorem DecodeBatch_no_panic_with_slack data :
  (∀ l, Uint32_at data 5 = Ok l → 9 + l + 8 <= blen data) → DecodeBatch data ≠ Panic.
Proof.
  intros Hslack. unfold DecodeBatch, MinimumBatchRemainder, BatchHeaderSize,
    MagicSize, VersionSize, BatchLengthSize.
  destruct (Z.ltb_spec (blen data) 33) as [|Hd]; [done|].
  destruct (slice_no_panic data 0 4) as (m & -> & _); [lia..|]. cbn [rbind].
  case_bool_decide; [done|].
  destruct (slice_no_panic data 4 5) as (v & -> & _); [lia..|]. cbn [rbind].
  case_bool_decide; [done|].
  destruct (Uint32_at_no_panic data 5) as (l & Hl & Hlr); [lia..|]. rewrite Hl.
  specialize (Hslack l Hl). cbn [rbind].
  destruct (Z.ltb_spec l (33 - 4 - 1 - 4)) as [|Hmin]; [done|].
  destruct (Z.ltb_spec (blen data) (4 + 1 + 4 + l)); [done|].
  destruct (Uint32_at_no_panic data 9) as (c & -> & _); [lia..|]. cbn [rbind].
  destruct (slice_no_panic data 13 (4 + 1 + 4 + l)) as (b & -> & _); [lia..|].
  cbn [rbind]. destruct (negb _); [done|]. unfold decode_body.
  destruct (Uint64_at_no_panic data 13) as (o & -> & _); [lia..|]. cbn [rbind].
  destruct (Uint32_at_no_panic data 21) as (n & -> & _); [lia..|]. cbn [rbind].
  destruct (Uint64_at_no_panic data 25) as (t & -> & _); [lia..|]. cbn [rbind].
  destruct (_ <? n); [done|]. destruct (n =? 0); [done|].
  pose proof (get_records_safe data (4 + 1 + 4 + l) ltac:(lia) o (i64 t)
    (Z.to_nat n) BatchHeaderSize) as Hs.
  destruct (get_records _ _ _ _ _ _) as [[rs off]| |]; cbn [rbind].
  - by destruct (negb _).
  - done.
  - exfalso. by apply Hs.
Qed.

(** A batch whose checksum is right and whose only record declares a key that
    ends 3 bytes before the end of the batch. *)
Definition key_to_end_body : bytes :=
  be_put 8 0 ++ be_put 4 1 ++ be_put 8 0
  ++ be_put 4 0 ++ be_put 8 0 ++ be_put 4 5 ++ replicate 5 x61 ++ [x00; x00; x00].
Definition key_to_end_batch : bytes :=
  MagicBytes ++ [FormatVersion1] ++ be_put 4 (4 + blen key_to_end_body)
  ++ be_put 4 (ChecksumIEEE key_to_end_body) ++ key_to_end_body.


(** ** Concrete batches *)

Definition demo_batch : list StoredRecord :=
  [mkStoredRecord 7 1700000000000 (Some [x6b]) (Some [x76; x31]) [mkHeader [x68] [x31]];
   mkStoredRecord 8 1700000000005 None (Some []) []].

Lemma demo_batch_encodable : encodable demo_batch.
Proof.
  split; [done|vm_compute; done|vm_compute; done|].
  repeat constructor; vm_compute; congruence || reflexivity.
Qed.

Lemma decode_encode_roundtrip_witness :
  (let! b := EncodeBatch demo_batch in DecodeBatch (b ++ [x00; xff])) = Ok demo_batch.
Proof. apply (decode_encode_roundtrip demo_batch [x00; xff]), demo_batch_encodable. Defined.

Lemma DecodeBatch_detects_changed_byte_witness :
  ∃ e, DecodeBatch (<[50%nat := x58]> (batch_bytes demo_batch)) = Err e.
Proof.
  apply (DecodeBatch_detects_changed_byte demo_batch 50 x58);
    [exact demo_batch_encodable|vm_compute; lia|vm_compute; congruence|lia].
Defined.

Lemma DecodeBatch_no_panic_with_slack_witness :
  DecodeBatch (key_to_end_batch ++ replicate 8 x00) ≠ Panic.
Proof.
  apply DecodeBatch_no_panic_with_slack. intros l Hl. vm_compute in Hl. injection Hl as <-.
  vm_compute. congruence.
Defined.
