(* ===== verification/FileSystem.v ===== *)
(** * Files, faults and the state-and-error monad

    The operating system as the storage code uses it through package os.  A
    path is the list of its components, a file its bytes together with the
    number of leading bytes that a sync has made durable.  A [*os.File] handle
    is the path it was opened at: the code never removes or renames a file
    while it still reads or writes through a handle on it.

    Every call may fail.  [w_faults] is the schedule of outcomes of the calls
    to come, an empty schedule meaning that every call succeeds; a failing
    write has transferred part of its bytes, but not all of them (the runtime's
    write loop reports success as soon as the last byte is written).  Theorems quantify over the
    schedule. *)

From S2P Require Import Prelude.
From Stdlib Require Import Init.Byte.

Abbreviation path := (list string).

Record file := mkFile {
  fdata : bytes;
  fsynced : nat;
}.

Inductive outcome : Type :=
  | Succeeds
  | Fails (transferred : nat).

(** Calls of the storage.Observer interface (observer.go), without the
    durations; the flag tells whether the reported error is nil. *)
Inductive event : Type :=
  | ObserveAppend (records bytes : Z) (ok : bool)
  | ObserveRead (records bytes : Z) (ok : bool)
  | ObserveFsync (ok : bool)
  | ObserveRecovery (ok : bool)
  | IndexRebuilt
  | SegmentDeleted
  | SetPartitionState (logBytes segmentCount : Z).

Record World := mkWorld {
  w_files : gmap path file;
  w_dirs : gset path;
  w_faults : list outcome;
  w_events : list event;
}.

Definition set_files (fs : gmap path file) (w : World) : World :=
  mkWorld fs (w_dirs w) (w_faults w) (w_events w).
Definition set_dirs (ds : gset path) (w : World) : World :=
  mkWorld (w_files w) ds (w_faults w) (w_events w).
Definition add_event (e : event) (w : World) : World :=
  mkWorld (w_files w) (w_dirs w) (w_faults w) (w_events w ++ [e]).

(** The outcome of the next call. *)
Definition next_outcome (w : World) : outcome * World :=
  match w_faults w with
  | [] => (Succeeds, w)
  | o :: os => (o, mkWorld (w_files w) (w_dirs w) os (w_events w))
  end.

(** ** The monad

    [M S A] is a computation on the state [S] with a result of type [A]; the
    state is kept when the computation ends in an error, as Go keeps the
    mutations made before an early return. *)
Definition M (S A : Type) : Type := S → res A * S.

Definition ret {S A} (a : A) : M S A := fun s => (Ok a, s).
Definition fail {S A} (e : error) : M S A := fun s => (Err e, s).
Definition panic {S A} : M S A := fun s => (Panic, s).
Definition get {S} : M S S := fun s => (Ok s, s).
Definition bind {S A B} (m : M S A) (k : A → M S B) : M S B := fun s =>
  match m s with
  | (Ok a, s') => k a s'
  | (Err e, s') => (Err e, s')
  | (Panic, s') => (Panic, s')
  end.
(** [attempt m] hands the error of [m] to the code that follows. *)
Definition attempt {S A} (m : M S A) : M S (res A) := fun s =>
  match m s with
  | (Panic, s') => (Panic, s')
  | (r, s') => (Ok r, s')
  end.
(** [on_err m h]: when [m] fails, run the clean-up [h], whose own errors are
    dropped, and return the error of [m]. *)
Definition on_err {S A} (m : M S A) (h : M S unit) : M S A := fun s =>
  match m s with
  | (Err e, s') => (Err e, snd (h s'))
  | r => r
  end.
(** A call whose error is dropped ([_ = f()]). *)
Definition ignore {S A} (m : M S A) : M S unit := fun s => (Ok tt, snd (m s)).
Definition lift_res {S A} (r : res A) : M S A := fun s => (r, s).

Notation "'let*' x ':=' m 'in' k" := (bind m (fun x => k))
  (at level 10, x pattern, m at level 100, k at level 200) : go_scope.
Notation "'do*' m 'in' k" := (bind m (fun _ => k))
  (at level 10, m at level 100, k at level 200) : go_scope.

(** State of an object (a segment, a store) together with the world. *)
Definition io {X A} (p : World → res A * World) : M (X * World) A := fun '(x, w) =>
  let '(r, w') := p w in (r, (x, w')).
Definition get_obj {X} : M (X * World) X := fun '(x, w) => (Ok x, (x, w)).
Definition modify {X} (f : X → X) : M (X * World) unit := fun '(x, w) =>
  (Ok tt, (f x, w)).
Definition emit {X} (e : event) : M (X * World) unit := fun '(x, w) =>
  (Ok tt, (x, add_event e w)).

(** ** Calls of package os *)

Definition overwrite (d : bytes) (pos : nat) (src : bytes) : bytes :=
  let d := d ++ replicate (pos - length d) x00 in
  take pos d ++ src ++ drop (pos + length src) d.

(** [f.WriteAt(data, pos)]: a failing call has written a proper prefix of
    [data]. *)
Definition fs_write_at (p : path) (data : bytes) (pos : Z) (w : World) : res unit * World :=
  let '(o, w) := next_outcome w in
  match w_files w !! p with
  | None => (Err ErrIO, w)
  | Some f =>
    let written d := set_files (<[p := mkFile (overwrite (fdata f) (Z.to_nat pos) d)
                                   (min (fsynced f) (Z.to_nat pos))]> (w_files w)) w in
    match o with
    | Succeeds => (Ok tt, written data)
    | Fails n => (Err ErrIO, written (take (min n (length data - 1)) data))
    end
  end.

(** [f.ReadAt(buf, pos)] with [len buf = n]: the bytes read, fewer than [n]
    when the call returns io.EOF. *)
Definition fs_read_at (p : path) (n pos : Z) (w : World) : res bytes * World :=
  let '(o, w) := next_outcome w in
  match o, w_files w !! p with
  | Succeeds, Some f => (Ok (take (Z.to_nat n) (drop (Z.to_nat pos) (fdata f))), w)
  | _, _ => (Err ErrIO, w)
  end.

(** [f.Sync()]. *)
Definition fs_sync (p : path) (w : World) : res unit * World :=
  let '(o, w) := next_outcome w in
  match o, w_files w !! p with
  | Succeeds, Some f =>
    (Ok tt, set_files (<[p := mkFile (fdata f) (length (fdata f))]> (w_files w)) w)
  | _, _ => (Err ErrIO, w)
  end.

(** [f.Close()]. *)
Definition fs_close (p : path) (w : World) : res unit * World :=
  let '(o, w) := next_outcome w in
  match o with Succeeds => (Ok tt, w) | Fails _ => (Err ErrIO, w) end.

(** [f.Truncate(n)]. *)
Definition fs_truncate (p : path) (n : Z) (w : World) : res unit * World :=
  let '(o, w) := next_outcome w in
  match o, w_files w !! p with
  | Succeeds, Some f =>
    let d := take (Z.to_nat n)
               (fdata f ++ replicate (Z.to_nat n - length (fdata f)) x00) in
    (Ok tt, set_files (<[p := mkFile d (min (fsynced f) (Z.to_nat n))]> (w_files w)) w)
  | _, _ => (Err ErrIO, w)
  end.

(** [os.OpenFile(p, O_CREATE|O_RDWR)]. *)
Definition fs_open_create (p : path) (w : World) : res unit * World :=
  let '(o, w) := next_outcome w in
  match o, w_files w !! p with
  | Fails _, _ => (Err ErrIO, w)
  | Succeeds, Some _ => (Ok tt, w)
  | Succeeds, None => (Ok tt, set_files (<[p := mkFile [] 0]> (w_files w)) w)
  end.

(** [os.OpenFile(p, O_CREATE|O_WRONLY|O_TRUNC)]. *)
Definition fs_open_trunc (p : path) (w : World) : res unit * World :=
  let '(o, w) := next_outcome w in
  match o with
  | Fails _ => (Err ErrIO, w)
  | Succeeds => (Ok tt, set_files (<[p := mkFile [] 0]> (w_files w)) w)
  end.

(** [os.OpenFile(p, O_RDWR)]. *)
Definition fs_open_existing (p : path) (w : World) : res unit * World :=
  let '(o, w) := next_outcome w in
  match o, w_files w !! p with
  | Fails _, _ => (Err ErrIO, w)
  | Succeeds, Some _ => (Ok tt, w)
  | Succeeds, None => (Err ErrNotExist, w)
  end.

(** [f.Stat()] or [os.Stat(p)], of which the code uses the size. *)
Definition fs_stat (p : path) (w : World) : res Z * World :=
  let '(o, w) := next_outcome w in
  match o, w_files w !! p with
  | Fails _, _ => (Err ErrIO, w)
  | Succeeds, Some f => (Ok (blen (fdata f)), w)
  | Succeeds, None => (Err ErrNotExist, w)
  end.

(** [os.Remove(p)] of a file. *)
Definition fs_remove (p : path) (w : World) : res unit * World :=
  let '(o, w) := next_outcome w in
  match o, w_files w !! p with
  | Fails _, _ => (Err ErrIO, w)
  | Succeeds, Some _ => (Ok tt, set_files (delete p (w_files w)) w)
  | Succeeds, None => (Err ErrNotExist, w)
  end.

(** [os.Rename(p, q)]. *)
Definition fs_rename (p q : path) (w : World) : res unit * World :=
  let '(o, w) := next_outcome w in
  match o, w_files w !! p with
  | Fails _, _ => (Err ErrIO, w)
  | Succeeds, Some f => (Ok tt, set_files (<[q := f]> (delete p (w_files w))) w)
  | Succeeds, None => (Err ErrNotExist, w)
  end.

(** [os.MkdirAll(d)]: the directory and its parents. *)
Fixpoint prefixes (d : path) : list path :=
  match d with
  | [] => [[]]
  | c :: d => [] :: (cons c <$> prefixes d)
  end.

Definition fs_mkdir_all (d : path) (w : World) : res unit * World :=
  let '(o, w) := next_outcome w in
  match o with
  | Fails _ => (Err ErrIO, w)
  | Succeeds => (Ok tt, set_dirs (list_to_set (prefixes d) ∪ w_dirs w) w)
  end.

(** The name of [p] in the directory [d], if it stands in it. *)
Definition name_in (d p : path) : option string :=
  match list.last p with
  | Some name => if bool_decide (p = d ++ [name]) then Some name else None
  | None => None
  end.

(** [os.ReadDir(d)]: the names of the files of [d]; its subdirectories, which
    the code skips, are left out. *)
Definition fs_read_dir (d : path) (w : World) : res (list string) * World :=
  let '(o, w) := next_outcome w in
  match o with
  | Fails _ => (Err ErrIO, w)
  | Succeeds => (Ok (omap (fun '(p, _) => name_in d p) (map_to_list (w_files w))), w)
  end.

(** [syncDirectory]: open, sync and close a directory. *)
Definition fs_sync_dir (d : path) (w : World) : res unit * World :=
  let '(o, w) := next_outcome w in
  match o with Succeeds => (Ok tt, w) | Fails _ => (Err ErrIO, w) end.

(** [os.Stat(d)] of a directory. *)
Definition fs_stat_dir (d : path) (w : World) : res unit * World :=
  let '(o, w) := next_outcome w in
  match o with
  | Fails _ => (Err ErrIO, w)
  | Succeeds => if bool_decide (d ∈ w_dirs w) then (Ok tt, w) else (Err ErrNotExist, w)
  end.

(** [os.ReadFile(p)]. *)
Definition fs_read_file (p : path) (w : World) : res bytes * World :=
  let '(o, w) := next_outcome w in
  match o, w_files w !! p with
  | Fails _, _ => (Err ErrIO, w)
  | Succeeds, Some f => (Ok (fdata f), w)
  | Succeeds, None => (Err ErrNotExist, w)
  end.

(** [os.RemoveAll(d)]: the directory and everything below it. *)
Definition fs_remove_all (d : path) (w : World) : res unit * World :=
  let '(o, w) := next_outcome w in
  match o with
  | Fails _ => (Err ErrIO, w)
  | Succeeds => (Ok tt, set_dirs (filter (fun q => ¬ d `prefix_of` q) (w_dirs w))
                          (set_files (filter (fun x => ¬ d `prefix_of` fst x) (w_files w)) w))
  end.

(** [os.Remove(d)] of a directory, which must be empty. *)
Definition fs_remove_dir (d : path) (w : World) : res unit * World :=
  let '(o, w) := next_outcome w in
  match o with
  | Fails _ => (Err ErrIO, w)
  | Succeeds =>
    if bool_decide (filter (fun q => d `prefix_of` q ∧ q ≠ d) (w_dirs w) = ∅
                    ∧ filter (fun x => d `prefix_of` fst x) (w_files w) = ∅)
    then (Ok tt, set_dirs (w_dirs w ∖ {[ d ]}) w)
    else (Err ErrIO, w)
  end.

(** ** Laws of the monad and of the calls *)

Lemma bind_inv {S A B} (m : M S A) (k : A → M S B) s r s' :
  bind m k s = (r, s') →
  (∃ a s1, m s = (Ok a, s1) ∧ k a s1 = (r, s'))
  ∨ (∃ e, m s = (Err e, s') ∧ r = Err e) ∨ (m s = (Panic, s') ∧ r = Panic).
Proof.
  unfold bind. destruct (m s) as [[a|e|] s1]; intros H; [left; eauto| |];
    injection H as <- <-; eauto.
Qed.

Lemma bind_ok {S A B} (m : M S A) (k : A → M S B) s b s' :
  bind m k s = (Ok b, s') → ∃ a s1, m s = (Ok a, s1) ∧ k a s1 = (Ok b, s').
Proof. unfold bind. destruct (m s) as [[a|e|] s1]; [eauto|done..]. Qed.

Lemma on_err_inv {S A} (m : M S A) h s r s' :
  on_err m h s = (r, s') →
  (∃ a, m s = (Ok a, s') ∧ r = Ok a)
  ∨ (∃ e s1, m s = (Err e, s1) ∧ r = Err e ∧ s' = snd (h s1))
  ∨ (m s = (Panic, s') ∧ r = Panic).
Proof.
  unfold on_err. destruct (m s) as [[a|e|] s1]; intros H; injection H as <- <-; eauto 10.
Qed.

(** Inversion of a run of [bind] or [on_err]: one goal per way it can end. *)
Ltac binv H a s1 H1 :=
  let e := fresh "e" in
  apply bind_inv in H as [(a & s1 & H1 & H) | [(e & H1 & ->) | (H1 & ->)]].

(** A run adds no faults to an empty schedule. *)
Record quiet (w w' : World) : Prop := mkQuiet {
  q_faults : w_faults w = [] → w_faults w' = [];
}.

Lemma quiet_refl w : quiet w w.
Proof. by split. Qed.
Lemma quiet_trans w1 w2 w3 : quiet w1 w2 → quiet w2 w3 → quiet w1 w3.
Proof. intros [?] [?]. split. auto. Qed.
Lemma quiet_event w e : quiet w (add_event e w).
Proof. by split. Qed.

Create HintDb fs.
#[export] Hint Resolve quiet_refl quiet_event : fs.
#[export] Hint Extern 5 (quiet ?a ?b) =>
  match goal with
  | H : quiet a ?c |- _ => apply (quiet_trans a c b H)
  end : fs.

(** Popping an outcome changes no file, and without scheduled faults the
    outcome is a success. *)
Lemma next_outcome_spec w o w1 :
  next_outcome w = (o, w1) →
  w_files w1 = w_files w ∧ quiet w w1 ∧ (w_faults w = [] → o = Succeeds).
Proof.
  unfold next_outcome. destruct (w_faults w) eqn:E; intros [= <- <-].
  - auto with fs.
  - split; [done|]. split; [|done]. split. by rewrite E.
Qed.

Ltac pop_outcome H o w1 HF HQ HS :=
  let E := fresh in
  destruct (next_outcome _) as [o w1] eqn:E in H;
  apply next_outcome_spec in E as (HF & HQ & HS).

Lemma quiet_set_files w w' F : quiet w w' → quiet w (set_files F w').
Proof. by intros []. Qed.
Lemma quiet_set_dirs w w' D : quiet w w' → quiet w (set_dirs D w').
Proof. by intros []. Qed.
#[export] Hint Resolve quiet_set_files quiet_set_dirs : fs.

Lemma overwrite_end d x : overwrite d (length d) x = d ++ x.
Proof.
  unfold overwrite. rewrite Nat.sub_diag, app_nil_r, firstn_all.
  rewrite drop_ge by lia. by rewrite app_nil_r.
Qed.

Lemma fs_write_at_spec p d pos w r w' f :
  w_files w !! p = Some f → fs_write_at p d pos w = (r, w') →
  quiet w w' ∧
  ((r = Ok tt ∧ w_files w' =
      <[p := mkFile (overwrite (fdata f) (Z.to_nat pos) d)
               (min (fsynced f) (Z.to_nat pos))]> (w_files w))
   ∨ (r = Err ErrIO ∧ w_faults w ≠ [] ∧ ∃ n, (n <= length d - 1)%nat ∧ w_files w' =
      <[p := mkFile (overwrite (fdata f) (Z.to_nat pos) (take n d))
               (min (fsynced f) (Z.to_nat pos))]> (w_files w))).
Proof.
  intros Hp H. unfold fs_write_at in H. pop_outcome H o w1 HF HQ HS.
  rewrite HF, Hp in H. destruct o as [|n]; injection H as <- <-.
  - split; [auto with fs|]. left. done.
  - split; [auto with fs|]. right. split; [done|]. split; [by intros ?%HS|].
    exists (min n (length d - 1)). split; [lia|done].
Qed.

Lemma fs_sync_spec p w r w' f :
  w_files w !! p = Some f → fs_sync p w = (r, w') →
  quiet w w' ∧
  ((r = Ok tt ∧ w_files w' = <[p := mkFile (fdata f) (length (fdata f))]> (w_files w))
   ∨ (r = Err ErrIO ∧ w_faults w ≠ [] ∧ w_files w' = w_files w)).
Proof.
  intros Hp H. unfold fs_sync in H. pop_outcome H o w1 HF HQ HS.
  rewrite HF, Hp in H. destruct o as [|n]; injection H as <- <-.
  - split; [auto with fs|]. left. done.
  - split; [auto with fs|]. right. split; [done|]. split; [by intros ?%HS|done].
Qed.

Lemma fs_close_spec p w r w' :
  fs_close p w = (r, w') →
  quiet w w' ∧ w_files w' = w_files w ∧ (r = Ok tt ∨ (r = Err ErrIO ∧ w_faults w ≠ [])).
Proof.
  unfold fs_close. intros H. pop_outcome H o w1 HF HQ HS.
  destruct o as [|n]; injection H as <- <-; [by auto|].
  split; [done|]. split; [done|]. right. split; [done|]. by intros ?%HS.
Qed.

Lemma fs_stat_spec p w r w' f :
  w_files w !! p = Some f → fs_stat p w = (r, w') →
  quiet w w' ∧ w_files w' = w_files w
  ∧ (r = Ok (blen (fdata f)) ∨ (r = Err ErrIO ∧ w_faults w ≠ [])).
Proof.
  intros Hp H. unfold fs_stat in H. pop_outcome H o w1 HF HQ HS.
  rewrite HF, Hp in H. destruct o as [|n]; injection H as <- <-; [by auto|].
  split; [done|]. split; [done|]. right. split; [done|]. by intros ?%HS.
Qed.

Lemma fs_open_create_new p w r w' :
  w_files w !! p = None → fs_open_create p w = (r, w') →
  quiet w w' ∧
  ((r = Ok tt ∧ w_files w' = <[p := mkFile [] 0]> (w_files w))
   ∨ (r = Err ErrIO ∧ w_faults w ≠ [] ∧ w_files w' = w_files w)).
Proof.
  intros Hp H. unfold fs_open_create in H. pop_outcome H o w1 HF HQ HS.
  rewrite HF, Hp in H. destruct o as [|n]; injection H as <- <-.
  - split; [auto with fs|]. left. done.
  - split; [auto with fs|]. right. split; [done|]. split; [by intros ?%HS|done].
Qed.

Lemma fs_open_create_existing p w r w' f :
  w_files w !! p = Some f → fs_open_create p w = (r, w') →
  quiet w w' ∧ w_files w' = w_files w ∧ (r = Ok tt ∨ (r = Err ErrIO ∧ w_faults w ≠ [])).
Proof.
  intros Hp H. unfold fs_open_create in H. pop_outcome H o w1 HF HQ HS.
  rewrite HF, Hp in H. destruct o as [|n]; injection H as <- <-; [by auto|].
  split; [done|]. split; [done|]. right. split; [done|]. by intros ?%HS.
Qed.

Lemma fs_read_at_spec p n pos w r w' f :
  w_files w !! p = Some f → fs_read_at p n pos w = (r, w') →
  quiet w w' ∧ w_files w' = w_files w
  ∧ (r = Ok (take (Z.to_nat n) (drop (Z.to_nat pos) (fdata f)))
     ∨ (r = Err ErrIO ∧ w_faults w ≠ [])).
Proof.
  intros Hp H. unfold fs_read_at in H. pop_outcome H o w1 HF HQ HS.
  rewrite HF, Hp in H. destruct o as [|k]; injection H as <- <-; [by auto|].
  split; [done|]. split; [done|]. right. split; [done|]. by intros ?%HS.
Qed.

(** ** Data and durability of files *)

(** Data a set of files holds, without what is durable. *)
Definition data_at (F : gmap path file) (p : path) : option bytes := fdata <$> F !! p.

Lemma data_at_insert_eq F p f : data_at (<[p := f]> F) p = Some (fdata f).
Proof. unfold data_at. by rewrite lookup_insert_eq. Qed.
Lemma data_at_insert_ne F p q f : p ≠ q → data_at (<[p := f]> F) q = data_at F q.
Proof. intros. unfold data_at. by rewrite lookup_insert_ne. Qed.
Lemma data_at_Some F p d : data_at F p = Some d → ∃ k, F !! p = Some (mkFile d k).
Proof.
  unfold data_at. destruct (F !! p) as [[d' k]|]; [|done]. intros [= <-]. eauto.
Qed.
Lemma data_at_insert_same F p f g q :
  F !! p = Some f → fdata g = fdata f → data_at (<[p := g]> F) q = data_at F q.
Proof.
  intros Hp Heq. destruct (decide (p = q)) as [<-|Hne].
  - rewrite data_at_insert_eq. unfold data_at. by rewrite Hp, Heq.
  - by apply data_at_insert_ne.
Qed.

(** Only the file [p] changes, and its data becomes [d]. *)
Definition file_becomes (F F' : gmap path file) (p : path) (d : bytes) : Prop :=
  data_at F' p = Some d ∧ ∀ q, q ≠ p → F' !! q = F !! q.

Lemma file_becomes_refl F F' p d : data_at F p = Some d → F' = F → file_becomes F F' p d.
Proof. by intros ? ->. Qed.
Lemma file_becomes_trans F F1 F2 p d1 d2 :
  file_becomes F F1 p d1 → file_becomes F1 F2 p d2 → file_becomes F F2 p d2.
Proof. intros [_ H1] [? H2]. split; [done|]. intros q Hq. by rewrite H2, H1. Qed.
Lemma file_becomes_insert F p f d :
  fdata f = d → file_becomes F (<[p := f]> F) p d.
Proof.
  intros <-. split; [apply data_at_insert_eq|]. intros q Hq. by rewrite lookup_insert_ne.
Qed.

(** A crash: of every file at least what was synced remains, and what remains is
    durable. *)
Definition crashed (F F' : gmap path file) : Prop :=
  ∀ p, match F !! p with
       | None => F' !! p = None
       | Some f => ∃ n, (fsynced f <= n)%nat
           ∧ F' !! p = Some (mkFile (take n (fdata f)) (length (take n (fdata f))))
       end.

Lemma crashed_synced F F' p d :
  crashed F F' → F !! p = Some (mkFile d (length d)) → data_at F' p = Some d.
Proof.
  intros H Hp. specialize (H p). rewrite Hp in H. destruct H as (n & Hn & H').
  unfold data_at. rewrite H'. simpl in *. by rewrite take_ge.
Qed.

Lemma crashed_nothing F :
  map_Forall (fun _ f => fsynced f = length (fdata f)) F → crashed F F.
Proof.
  intros H p. destruct (F !! p) as [[d k]|] eqn:E; [|done]. apply H in E. simpl in *. subst k.
  exists (length d). by rewrite firstn_all.
Qed.

(** The first [n] bytes of the file are durable. *)
Definition durable (F : gmap path file) (p : path) (n : nat) : Prop :=
  ∃ f, F !! p = Some f ∧ (n <= fsynced f)%nat ∧ (n <= length (fdata f))%nat.

(** Every file of [P] keeps its durable prefix. *)
Definition grows (P : path → Prop) (F F' : gmap path file) : Prop :=
  ∀ p n, P p → durable F p n → durable F' p n.

Lemma durable_same F F' p n : F' !! p = F !! p → durable F p n → durable F' p n.
Proof. intros Heq (f & Hf & ?). exists f. by rewrite Heq. Qed.

Lemma grows_refl P F : grows P F F.
Proof. by intros p n _. Qed.
Lemma grows_trans P F1 F2 F3 : grows P F1 F2 → grows P F2 F3 → grows P F1 F3.
Proof. intros H1 H2 p n Hp Hd. auto. Qed.

(** A new file, or one that is not in [P]. *)
Lemma grows_insert_other P F p f : F !! p = None ∨ ¬ P p → grows P F (<[p := f]> F).
Proof.
  intros Hp q n Hq Hd. eapply durable_same; [|exact Hd]. rewrite lookup_insert_ne; [done|].
  intros <-. destruct Hp as [Hp|Hp]; [|done]. destruct Hd as (g & Hg & _). congruence.
Qed.

(** More data, or more of it synced. *)
Lemma grows_insert P F p f g :
  F !! p = Some f → (length (fdata f) <= length (fdata g))%nat →
  (min (fsynced f) (length (fdata f)) <= fsynced g)%nat → grows P F (<[p := g]> F).
Proof.
  intros Hf Hl Hs q n Hq (h & Hh & H1 & H2). unfold durable.
  destruct (decide (p = q)) as [->|Hne].
  - rewrite Hf in Hh. injection Hh as <-. rewrite lookup_insert_eq. eexists. split; [done|]. lia.
  - rewrite lookup_insert_ne by done. eauto.
Qed.

(** The file [p] may lose its last bytes, but nothing durable that it still holds. *)
Definition cut_back (F F' : gmap path file) (p : path) : Prop :=
  ∀ f, F !! p = Some f → ∃ f' n, F' !! p = Some f' ∧ fdata f' = take n (fdata f)
    ∧ (min (fsynced f) (length (fdata f')) <= fsynced f')%nat.

Lemma cut_back_same F F' p : F' !! p = F !! p → cut_back F F' p.
Proof.
  intros Heq f Hf. exists f, (length (fdata f)). rewrite Heq, firstn_all.
  split; [done|]. split; [done|lia].
Qed.

Lemma cut_back_trans F F1 F2 p : cut_back F F1 p → cut_back F1 F2 p → cut_back F F2 p.
Proof.
  intros H1 H2 f Hf. apply H1 in Hf as (f1 & n1 & Hf1 & Hd1 & Hs1).
  apply H2 in Hf1 as (f2 & n2 & Hf2 & Hd2 & Hs2). exists f2, (min n2 n1).
  split; [done|]. split; [by rewrite Hd2, Hd1, take_take|].
  rewrite Hd2 in *. rewrite Hd1 in *. rewrite !length_take in *. lia.
Qed.

(** The file [p] is cut to [d], and nothing else changes. *)
Definition trimmed (F F' : gmap path file) (p : path) (d : bytes) : Prop :=
  file_becomes F F' p d ∧ cut_back F F' p.

Lemma trimmed_refl F F' p d : data_at F p = Some d → F' = F → trimmed F F' p d.
Proof. intros Hd ->. split; [by apply file_becomes_refl|by apply cut_back_same]. Qed.
Lemma trimmed_trans F F1 F2 p d1 d2 :
  trimmed F F1 p d1 → trimmed F1 F2 p d2 → trimmed F F2 p d2.
Proof.
  intros [H1 C1] [H2 C2]. split; [by eapply file_becomes_trans|by eapply cut_back_trans].
Qed.

Lemma durable_kept F F' p x tail n :
  durable F p n → cut_back F F' p → data_at F' p = Some (x ++ tail) → (n <= length x)%nat →
  durable F' p n.
Proof.
  intros (f & Hf & H1 & H2) Hc Hd Hn. apply Hc in Hf as (f' & k & Hf' & Hx & Hs).
  unfold data_at in Hd. rewrite Hf' in Hd. injection Hd as Hd. rewrite Hd in Hs.
  exists f'. rewrite Hd, length_app in *. split; [done|]. lia.
Qed.

Lemma trimmed_durable F F' p x tail n :
  trimmed F F' p (x ++ tail) → (n <= length x)%nat → durable F p n → durable F' p n.
Proof. intros [[Hd _] Hc] Hn Hdur. by eapply durable_kept. Qed.

Lemma trimmed_synced F p d k : F !! p = Some (mkFile d k) → trimmed F (<[p := mkFile d (length d)]> F) p d.
Proof.
  intros Hf. split; [by apply file_becomes_insert|]. intros f Hf'. rewrite Hf in Hf'.
  injection Hf' as <-. eexists _, (length d). rewrite lookup_insert_eq, firstn_all.
  split; [done|]. split; [done|]. simpl. lia.
Qed.
