(* ===== verification/Runs.v ===== *)
(** * Reasoning about runs of the state-and-error monad

    [runs m s Q E]: started in [s], the computation [m] either returns a value
    and a state that satisfy [Q], or an injected failure makes it return an I/O
    error in a state that satisfies [E]; it neither panics nor fails on its own.
    The rules below follow the structure of a program. *)

From S2P Require Import Prelude FileSystem.
From Stdlib Require Import Init.Byte.

(** States that carry a world. *)
Class HasWorld (S : Type) := wld : S → World.
#[global] Instance World_HasWorld : HasWorld World := fun w => w.
#[global] Instance pair_HasWorld (X : Type) : HasWorld (X * World) := snd.

Section Runs.
Context {S : Type} `{HasWorld S}.

Definition runs {A} (m : M S A) (s : S) (Q : A → S → Prop) (E : S → Prop) : Prop :=
  ∀ r s', m s = (r, s') → quiet (wld s) (wld s')
    ∧ ((∃ a, r = Ok a ∧ Q a s') ∨ (r = Err ErrIO ∧ w_faults (wld s) ≠ [] ∧ E s')).

Lemma runs_ret {A} (a : A) s Q E : Q a s → runs (ret a) s Q E.
Proof. intros HQ r s' [= <- <-]. split; [apply quiet_refl|]. left. eauto. Qed.

Lemma runs_lift {A} (v : res A) a s Q E : v = Ok a → Q a s → runs (lift_res v) s Q E.
Proof. intros -> HQ r s' [= <- <-]. split; [apply quiet_refl|]. left. eauto. Qed.

Lemma runs_bind {A B} (m : M S A) (k : A → M S B) s Q E :
  runs m s (fun a s1 => runs (k a) s1 Q E) E → runs (bind m k) s Q E.
Proof.
  intros Hm r s' Hr. binv Hr a s1 H1; apply Hm in H1 as (HQ & [(x & Hx & Hk)|(Hx & Hf & He)]);
    simplify_eq.
  - apply Hk in Hr as (HQ' & Hres). split; [by eapply quiet_trans|].
    destruct Hres as [?|(-> & Hf & He)]; [by left|right]. split; [done|].
    split; [|done]. intros Hw. by apply Hf, HQ.
  - split; [done|]. right. eauto.
Qed.

Lemma runs_weaken {A} (m : M S A) s (Q Q' : A → S → Prop) (E E' : S → Prop) :
  runs m s Q E → (∀ a s', Q a s' → Q' a s') → (∀ s', E s' → E' s') → runs m s Q' E'.
Proof.
  intros Hm HQ HE r s' Hr. apply Hm in Hr as (? & [(a & -> & ?)|(-> & ? & ?)]);
    (split; [done|]); [left|right]; eauto 10.
Qed.

Lemma runs_on_err {A} (m : M S A) h s Q (E E' : S → Prop) :
  runs m s Q E' →
  (∀ s1, E' s1 → quiet (wld s1) (wld (snd (h s1))) ∧ E (snd (h s1))) →
  runs (on_err m h) s Q E.
Proof.
  intros Hm Hh r s' Hr.
  apply on_err_inv in Hr as [(a & H1 & ->)|[(e & s1 & H1 & -> & ->)|(H1 & ->)]];
    apply Hm in H1 as (HQ & [(x & Hx & Hk)|(Hx & Hf & He)]); simplify_eq.
  - split; [done|]. left. eauto.
  - destruct (Hh _ He) as [HQ' HE']. split; [by eapply quiet_trans|]. right. eauto.
Qed.

Lemma runs_attempt {A} (m : M S A) s (Q : res A → S → Prop) E :
  runs m s (fun a s1 => Q (Ok a) s1) (fun s1 => ∀ e, Q (Err e) s1) →
  runs (attempt m) s Q E.
Proof.
  intros Hm r s' Hr. unfold attempt in Hr. destruct (m s) as [r1 s1] eqn:E1.
  apply Hm in E1 as (HQ & [(a & -> & Hx)|(-> & _ & Hx)]); injection Hr as <- <-;
    (split; [done|]); left; eauto.
Qed.

Lemma runs_ignore {A} (m : M S A) s (Q : unit → S → Prop) E :
  runs m s (fun _ s1 => Q tt s1) (fun s1 => Q tt s1) → runs (ignore m) s Q E.
Proof.
  intros Hm r s' Hr. unfold ignore in Hr. destruct (m s) as [r1 s1] eqn:E1.
  apply Hm in E1 as (HQ & [(a & -> & Hx)|(-> & _ & Hx)]); injection Hr as <- <-;
    (split; [done|]); left; eauto.
Qed.

Lemma runs_no_faults {A} (m : M S A) s Q E :
  runs m s Q E → w_faults (wld s) = [] → ∃ a s', m s = (Ok a, s') ∧ Q a s'.
Proof.
  intros Hm Hf. destruct (m s) as [r s'] eqn:E1.
  apply Hm in E1 as (_ & [(a & -> & Hx)|(_ & Hn & _)]); [eauto|done].
Qed.

End Runs.

Lemma runs_io {X A} (p : M World A) (x : X) w Q E :
  runs p w (fun a w' => Q a (x, w')) (fun w' => E (x, w')) → runs (io p) (x, w) Q E.
Proof.
  intros Hp r [x' w'] Hr. unfold io in Hr. destruct (p w) as [r1 w1] eqn:E1.
  injection Hr as <- <- <-. apply Hp in E1. exact E1.
Qed.

Lemma runs_get_obj {X} (x : X) w (Q : X → X * World → Prop) E :
  Q x (x, w) → runs get_obj (x, w) Q E.
Proof. intros HQ r s' [= <- <-]. split; [apply quiet_refl|]. left. eauto. Qed.

Lemma runs_modify {X} f (x : X) w (Q : unit → X * World → Prop) E :
  Q tt (f x, w) → runs (modify f) (x, w) Q E.
Proof. intros HQ r s' [= <- <-]. split; [apply quiet_refl|]. left. eauto. Qed.

Lemma runs_emit {X} ev (x : X) w (Q : unit → X * World → Prop) E :
  Q tt (x, add_event ev w) → runs (emit ev) (x, w) Q E.
Proof. intros HQ r s' [= <- <-]. split; [apply quiet_event|]. left. eauto. Qed.

(** ** The calls of package os *)

Lemma runs_write_at p d pos w (Q : unit → World → Prop) (E : World → Prop) f :
  w_files w !! p = Some f →
  (∀ w', w_files w' = <[p := mkFile (overwrite (fdata f) (Z.to_nat pos) d)
                               (min (fsynced f) (Z.to_nat pos))]> (w_files w) → Q tt w') →
  (∀ w' n, (n <= length d - 1)%nat →
     w_files w' = <[p := mkFile (overwrite (fdata f) (Z.to_nat pos) (take n d))
                           (min (fsynced f) (Z.to_nat pos))]> (w_files w) → E w') →
  runs (fs_write_at p d pos) w Q E.
Proof.
  intros Hf HQ HE r w' Hr. apply (fs_write_at_spec _ _ _ _ _ _ _ Hf) in Hr
    as (HQt & [(-> & HF)|(-> & Hn & n & Hle & HF)]); (split; [done|]); [left|right]; eauto 10.
Qed.

Lemma runs_read_at p n pos w (Q : bytes → World → Prop) (E : World → Prop) f :
  w_files w !! p = Some f →
  (∀ w', w_files w' = w_files w →
     Q (take (Z.to_nat n) (drop (Z.to_nat pos) (fdata f))) w') →
  (∀ w', w_files w' = w_files w → E w') →
  runs (fs_read_at p n pos) w Q E.
Proof.
  intros Hf HQ HE r w' Hr. apply (fs_read_at_spec _ _ _ _ _ _ _ Hf) in Hr
    as (HQt & HF & [->|[-> Hn]]); (split; [done|]); [left|right]; eauto 10.
Qed.

Lemma runs_sync p w (Q : unit → World → Prop) (E : World → Prop) f :
  w_files w !! p = Some f →
  (∀ w', w_files w' = <[p := mkFile (fdata f) (length (fdata f))]> (w_files w) → Q tt w') →
  (∀ w', w_files w' = w_files w → E w') →
  runs (fs_sync p) w Q E.
Proof.
  intros Hf HQ HE r w' Hr. apply (fs_sync_spec _ _ _ _ _ Hf) in Hr
    as (HQt & [(-> & HF)|(-> & Hn & HF)]); (split; [done|]); [left|right]; eauto 10.
Qed.

Lemma runs_close p w (Q : unit → World → Prop) (E : World → Prop) :
  (∀ w', w_files w' = w_files w → Q tt w') → (∀ w', w_files w' = w_files w → E w') →
  runs (fs_close p) w Q E.
Proof.
  intros HQ HE r w' Hr. apply fs_close_spec in Hr as (HQt & HF & [->|[-> Hn]]);
    (split; [done|]); [left|right]; eauto 10.
Qed.

(** A close whose error is dropped. *)
Lemma runs_ignore_close {X} p (x : X) w (Q : unit → X * World → Prop) (E : X * World → Prop) :
  (∀ w', w_files w' = w_files w → Q tt (x, w')) → runs (ignore (io (fs_close p))) (x, w) Q E.
Proof. intros HQ. apply runs_ignore, runs_io, runs_close; auto. Qed.

Lemma runs_stat p w (Q : Z → World → Prop) (E : World → Prop) f :
  w_files w !! p = Some f →
  (∀ w', w_files w' = w_files w → Q (blen (fdata f)) w') →
  (∀ w', w_files w' = w_files w → E w') →
  runs (fs_stat p) w Q E.
Proof.
  intros Hf HQ HE r w' Hr. apply (fs_stat_spec _ _ _ _ _ Hf) in Hr
    as (HQt & HF & [->|[-> Hn]]); (split; [done|]); [left|right]; eauto 10.
Qed.

Lemma runs_truncate p n w (Q : unit → World → Prop) (E : World → Prop) f :
  w_files w !! p = Some f →
  (∀ w', w_files w' = <[p := mkFile (take (Z.to_nat n)
            (fdata f ++ replicate (Z.to_nat n - length (fdata f)) x00))
            (min (fsynced f) (Z.to_nat n))]> (w_files w) → Q tt w') →
  (∀ w', w_files w' = w_files w → E w') →
  runs (fs_truncate p n) w Q E.
Proof.
  intros Hf HQ HE r w' Hr. unfold fs_truncate in Hr. pop_outcome Hr o w1 HF HQt HS.
  rewrite HF, Hf in Hr. destruct o as [|k]; injection Hr as <- <-.
  - split; [by apply quiet_set_files|]. left. eexists. split; [done|]. by apply HQ.
  - split; [done|]. right. split; [done|]. split; [by intros ?%HS|auto].
Qed.

(** [os.OpenFile] with O_CREATE: the file exists afterwards. *)
Lemma runs_open_create p w (Q : unit → World → Prop) (E : World → Prop) :
  (∀ w' f, w_files w !! p = Some f → w_files w' = w_files w → Q tt w') →
  (∀ w', w_files w !! p = None → w_files w' = <[p := mkFile [] 0]> (w_files w) → Q tt w') →
  (∀ w', w_files w' = w_files w → E w') →
  runs (fs_open_create p) w Q E.
Proof.
  intros HQ1 HQ2 HE r w' Hr. destruct (w_files w !! p) as [f|] eqn:Hp.
  - apply (fs_open_create_existing _ _ _ _ _ Hp) in Hr as (HQt & HF & [->|[-> Hn]]);
      (split; [done|]); [left|right]; eauto 10.
  - apply (fs_open_create_new _ _ _ _ Hp) in Hr as (HQt & [(-> & HF)|(-> & Hn & HF)]);
      (split; [done|]); [left|right]; eauto 10.
Qed.

Lemma runs_mkdir_all d w (Q : unit → World → Prop) (E : World → Prop) :
  (∀ w', w_files w' = w_files w → Q tt w') → (∀ w', w_files w' = w_files w → E w') →
  runs (fs_mkdir_all d) w Q E.
Proof.
  intros HQ HE r w' Hr. unfold fs_mkdir_all in Hr. pop_outcome Hr o w1 HF HQt HS.
  destruct o as [|k]; injection Hr as <- <-.
  - split; [by apply quiet_set_dirs|]. left. eexists. split; [done|]. by apply HQ.
  - split; [done|]. right. split; [done|]. split; [by intros ?%HS|auto].
Qed.

Lemma runs_open_trunc p w (Q : unit → World → Prop) (E : World → Prop) :
  (∀ w', w_files w' = <[p := mkFile [] 0]> (w_files w) → Q tt w') →
  (∀ w', w_files w' = w_files w → E w') →
  runs (fs_open_trunc p) w Q E.
Proof.
  intros HQ HE r w' Hr. unfold fs_open_trunc in Hr. pop_outcome Hr o w1 HF HQt HS.
  destruct o as [|k]; injection Hr as <- <-.
  - split; [by apply quiet_set_files|]. left. eexists. split; [done|]. apply HQ. simpl. by rewrite HF.
  - split; [done|]. right. split; [done|]. split; [by intros ?%HS|auto].
Qed.

Lemma runs_rename p q w (Q : unit → World → Prop) (E : World → Prop) f :
  w_files w !! p = Some f →
  (∀ w', w_files w' = <[q := f]> (delete p (w_files w)) → Q tt w') →
  (∀ w', w_files w' = w_files w → E w') →
  runs (fs_rename p q) w Q E.
Proof.
  intros Hf HQ HE r w' Hr. unfold fs_rename in Hr. pop_outcome Hr o w1 HF HQt HS.
  rewrite HF, Hf in Hr. destruct o as [|k]; injection Hr as <- <-.
  - split; [by apply quiet_set_files|]. left. eexists. split; [done|]. by apply HQ.
  - split; [done|]. right. split; [done|]. split; [by intros ?%HS|auto].
Qed.

Lemma runs_sync_dir d w (Q : unit → World → Prop) (E : World → Prop) :
  (∀ w', w_files w' = w_files w → Q tt w') → (∀ w', w_files w' = w_files w → E w') →
  runs (fs_sync_dir d) w Q E.
Proof.
  intros HQ HE r w' Hr. unfold fs_sync_dir in Hr. pop_outcome Hr o w1 HF HQt HS.
  destruct o as [|k]; injection Hr as <- <-; (split; [done|]); [left|right]; eauto 10.
  split; [done|]. split; [by intros ?%HS|auto].
Qed.

Lemma runs_open_existing p w (Q : unit → World → Prop) (E : World → Prop) f :
  w_files w !! p = Some f →
  (∀ w', w_files w' = w_files w → Q tt w') → (∀ w', w_files w' = w_files w → E w') →
  runs (fs_open_existing p) w Q E.
Proof.
  intros Hf HQ HE r w' Hr. unfold fs_open_existing in Hr. pop_outcome Hr o w1 HF HQt HS.
  rewrite HF, Hf in Hr. destruct o as [|k]; injection Hr as <- <-; (split; [done|]); [left|right]; eauto 10.
  split; [done|]. split; [by intros ?%HS|auto].
Qed.

(** Removing a file, whatever the outcome, changes at most this file. *)
Lemma remove_keeps p w q :
  q ≠ p → w_files (snd (fs_remove p w)) !! q = w_files w !! q
  ∧ quiet w (snd (fs_remove p w)).
Proof.
  intros Hq. destruct (fs_remove p w) as [r w'] eqn:H. unfold fs_remove in H.
  pop_outcome H o w1 HF HQ HS. rewrite HF in H.
  destruct o as [|k]; [destruct (w_files w !! p)|]; injection H as <- <-; simpl;
    rewrite ?HF; (split; [|auto with fs]); try done.
  by rewrite lookup_delete_ne.
Qed.
