(* ===== verification/Names.v ===== *)
(** * File names of a partition directory

    The names that NewSegment (segment.go) gives to log and index files, and
    how OpenStore (store.go) reads a base offset back from a name. *)

From S2P Require Import Prelude.
From Stdlib Require Import Strings.Ascii.

(** ** File names: [fmt.Sprintf("%020d.log", base)] and [strconv.ParseUint] *)

Definition digit (d : Z) : ascii := ascii_of_nat (48 + Z.to_nat d).

(** The [w] low decimal digits of [n], most significant first: for [n] below
    [10 ^ w] the zero-padded decimal of width [w]. *)
Fixpoint pad_dec (w : nat) (n : Z) : string :=
  match w with
  | O => ""
  | S w => pad_dec w (n / 10) +:+ String (digit (n mod 10)) ""
  end.

Fixpoint parse_digits (s : string) (acc : Z) : option Z :=
  match s with
  | EmptyString => Some acc
  | String c s =>
    let d := Z.of_nat (nat_of_ascii c) - 48 in
    if (0 <=? d) && (d <=? 9) then
      let acc := acc * 10 + d in
      if two64 <=? acc then None else parse_digits s acc
    else None
  end.

(** [strconv.ParseUint(s, 10, 64)]. *)
Definition ParseUint (s : string) : option Z :=
  match s with
  | EmptyString => None
  | _ => parse_digits s 0
  end.

Definition log_name (base : Z) : string := pad_dec 20 base +:+ ".log".
Definition index_name (base : Z) : string := pad_dec 20 base +:+ ".index".

(** [strings.HasSuffix(s, suf)] and [strings.TrimSuffix(s, suf)] in one:
    the text before the suffix. *)
Definition cut_suffix (suf s : string) : option string :=
  let n := String.length s in
  let k := String.length suf in
  if (k <=? n)%nat && bool_decide (String.substring (n - k) k s = suf)
  then Some (String.substring 0 (n - k) s) else None.

(** Lines 86-102: the base offset in the name of a log file. *)
Definition base_of_name (name : string) : option Z :=
  match cut_suffix ".log" name with
  | Some prefix =>
    if (String.length prefix =? 20)%nat then ParseUint prefix else None
  | None => None
  end.


(** ** Round trip *)

Lemma nat_of_digit d : 0 <= d < 10 → Z.of_nat (nat_of_ascii (digit d)) - 48 = d.
Proof. intros. unfold digit. rewrite nat_ascii_embedding; lia. Qed.

Lemma parse_digits_app s t acc :
  parse_digits (s +:+ t) acc
  = match parse_digits s acc with Some a => parse_digits t a | None => None end.
Proof.
  revert acc. induction s as [|c s IH]; intros acc; [done|]. simpl.
  destruct (_ && _); [|done]. destruct (two64 <=? _); [done|]. apply IH.
Qed.

Lemma parse_pad_dec w n acc :
  0 <= n < 10 ^ Z.of_nat w → 0 <= acc → acc * 10 ^ Z.of_nat w + n < two64 →
  parse_digits (pad_dec w n) acc = Some (acc * 10 ^ Z.of_nat w + n).
Proof.
  revert n acc. induction w as [|w IH]; intros n acc Hn Hacc Hmax.
  - change (10 ^ Z.of_nat 0) with 1 in *. simpl. f_equal. lia.
  - cbn [pad_dec]. rewrite parse_digits_app.
    rewrite Nat2Z.inj_succ, Z.pow_succ_r in * by lia.
    pose proof (Z.div_mod n 10 ltac:(lia)) as Hdm.
    pose proof (Z.mod_pos_bound n 10 ltac:(lia)) as Hmb.
    rewrite IH by nia.
    cbn [parse_digits]. rewrite nat_of_digit by lia.
    destruct (Z.leb_spec 0 (n mod 10)); [|lia].
    destruct (Z.leb_spec (n mod 10) 9); [|lia]. cbn [andb].
    destruct (Z.leb_spec two64 ((acc * 10 ^ Z.of_nat w + n / 10) * 10 + n mod 10)); [nia|].
    f_equal. nia.
Qed.

Lemma length_append s t : String.length (s +:+ t) = (String.length s + String.length t)%nat.
Proof. induction s as [|c s IH]; [done|]. simpl. by rewrite IH. Qed.

Lemma length_pad_dec w n : String.length (pad_dec w n) = w.
Proof.
  revert n. induction w as [|w IH]; intros n; [done|].
  cbn [pad_dec]. rewrite length_append, IH. simpl. lia.
Qed.

Lemma ParseUint_pad_dec n : 0 <= n < two64 → ParseUint (pad_dec 20 n) = Some n.
Proof.
  intros Hn. assert (pad_dec 20 n ≠ ""%string) as Hne.
  { intros Heq. pose proof (length_pad_dec 20 n) as Hl. by rewrite Heq in Hl. }
  unfold ParseUint. destruct (pad_dec 20 n) as [|c s] eqn:E; [done|]. rewrite <- E.
  rewrite parse_pad_dec; [f_equal; lia| |lia|lia].
  change (10 ^ Z.of_nat 20) with 100000000000000000000. lia.
Qed.

Lemma substring_prefix s t : String.substring 0 (String.length s) (s +:+ t) = s.
Proof. induction s as [|c s IH]; simpl; [by destruct t|]. by rewrite IH. Qed.

Lemma substring_all t : String.substring 0 (String.length t) t = t.
Proof. induction t as [|c t IH]; [done|]. simpl. by rewrite IH. Qed.

Lemma substring_suffix s t :
  String.substring (String.length s) (String.length t) (s +:+ t) = t.
Proof. induction s as [|c s IH]; [apply substring_all|done]. Qed.

Lemma cut_suffix_app p suf : cut_suffix suf (p +:+ suf) = Some p.
Proof.
  unfold cut_suffix. rewrite length_append.
  replace (String.length p + String.length suf - String.length suf)%nat
    with (String.length p) by lia.
  rewrite substring_suffix, substring_prefix, bool_decide_eq_true_2 by done.
  destruct (Nat.leb_spec (String.length suf) (String.length p + String.length suf));
    [done|lia].
Qed.

Lemma base_of_log_name b : 0 <= b < two64 → base_of_name (log_name b) = Some b.
Proof.
  intros. unfold base_of_name, log_name.
  rewrite cut_suffix_app, length_pad_dec, Nat.eqb_refl. by apply ParseUint_pad_dec.
Qed.

Lemma log_name_inj a b :
  0 <= a < two64 → 0 <= b < two64 → log_name a = log_name b → a = b.
Proof.
  intros Ha Hb Heq. apply base_of_log_name in Ha, Hb. rewrite Heq in Ha. congruence.
Qed.

Lemma index_name_inj a b :
  0 <= a < two64 → 0 <= b < two64 → index_name a = index_name b → a = b.
Proof.
  intros Ha Hb Heq. apply (f_equal (cut_suffix ".index")) in Heq. unfold index_name in Heq.
  rewrite !cut_suffix_app in Heq. apply ParseUint_pad_dec in Ha, Hb.
  revert Heq Ha Hb. generalize (pad_dec 20 a) (pad_dec 20 b). congruence.
Qed.

(** A name that OpenStore reads as base offset [b] is the name of the log file
    of [b]. *)
Lemma digit_inv c :
  let d := Z.of_nat (nat_of_ascii c) - 48 in 0 <= d <= 9 → digit d = c.
Proof.
  intros d Hd. unfold digit, d in *.
  replace (48 + Z.to_nat (Z.of_nat (nat_of_ascii c) - 48))%nat with (nat_of_ascii c) by lia.
  apply ascii_nat_embedding.
Qed.

Lemma append_nil_r s : s +:+ "" = s.
Proof.
  induction s as [|c s IH]; [done|]. change (String c (s +:+ "") = String c s).
  by rewrite IH.
Qed.
Lemma append_assoc a b c : (a +:+ b) +:+ c = a +:+ (b +:+ c).
Proof.
  induction a as [|x a IH]; [done|].
  change (String x ((a +:+ b) +:+ c) = String x (a +:+ (b +:+ c))). by rewrite IH.
Qed.

(** The digits before [s] are those of [acc]. *)
Lemma parse_digits_pad s acc v k :
  0 <= acc < 10 ^ Z.of_nat k → parse_digits s acc = Some v →
  0 <= v < 10 ^ Z.of_nat (k + String.length s)
  ∧ pad_dec (k + String.length s) v = pad_dec k acc +:+ s.
Proof.
  revert acc k. induction s as [|c s IH]; intros acc k Hacc H.
  - injection H as <-. cbn [String.length]. rewrite Nat.add_0_r. split; [done|].
    symmetry. apply append_nil_r.
  - cbn [parse_digits] in H. set (d := Z.of_nat (nat_of_ascii c) - 48) in *.
    destruct (Z.leb_spec 0 d); [|done]. destruct (Z.leb_spec d 9); [|done].
    cbn [andb] in H. destruct (_ <=? _); [done|].
    apply (IH _ (S k)) in H as [Hv Hp].
    + cbn [String.length].
      replace (k + S (String.length s))%nat with (S k + String.length s)%nat by lia.
      split; [done|]. rewrite Hp.
      cbn [pad_dec]. rewrite Z.div_add_l, (Z.div_small d), Z.add_0_r by lia.
      rewrite Z.add_comm, Z.mod_add, Z.mod_small by lia.
      unfold d. rewrite digit_inv by (fold d; lia). by rewrite append_assoc.
    + rewrite Nat2Z.inj_succ, Z.pow_succ_r by lia. lia.
Qed.

Lemma split_string n s :
  (n <= String.length s)%nat →
  s = String.substring 0 n s +:+ String.substring n (String.length s - n) s.
Proof.
  revert n. induction s as [|c s IH]; intros [|n] Hn; simpl in *; try done; try lia.
  - by rewrite substring_all.
  - change (String c s = String c (String.substring 0 n s
      +:+ String.substring n (String.length s - n) s)).
    f_equal. apply IH. lia.
Qed.

Lemma cut_suffix_Some suf s p : cut_suffix suf s = Some p → s = p +:+ suf.
Proof.
  unfold cut_suffix. destruct (Nat.leb_spec (String.length suf) (String.length s)); [|done].
  case_bool_decide as Hsuf; [|done]. intros [= <-].
  pose proof (split_string (String.length s - String.length suf) s ltac:(lia)) as Hs.
  replace (String.length s - (String.length s - String.length suf))%nat
    with (String.length suf) in Hs by lia.
  by rewrite Hsuf in Hs.
Qed.

Lemma parse_digits_lt s acc v : parse_digits s acc = Some v → acc < two64 → v < two64.
Proof.
  revert acc. induction s as [|c s IH]; intros acc H Hacc; simpl in H; [congruence|].
  destruct (_ && _); [|done]. destruct (Z.leb_spec two64 (acc * 10 + (Z.of_nat (nat_of_ascii c) - 48)));
    [done|]. by apply IH in H.
Qed.

Lemma base_of_name_inv name b :
  base_of_name name = Some b → name = log_name b ∧ 0 <= b < two64.
Proof.
  unfold base_of_name. destruct (cut_suffix ".log" name) as [p|] eqn:E; [|done].
  destruct (Nat.eqb_spec (String.length p) 20) as [Hl|]; [|done]. intros H.
  apply cut_suffix_Some in E as ->. unfold ParseUint in H.
  destruct p as [|c p'] eqn:Ep; [done|]. rewrite <- Ep in *.
  pose proof (parse_digits_lt _ _ _ H ltac:(lia)).
  destruct (parse_digits_pad p 0 b 0) as [Hb Hp]; [done..|].
  rewrite Hl in Hp. unfold log_name. split; [|lia]. simpl Nat.add in Hp.
  rewrite Hp. done.
Qed.

Lemma length_log_name b : String.length (log_name b) = 24%nat.
Proof. unfold log_name. by rewrite length_append, length_pad_dec. Qed.
Lemma length_index_name b : String.length (index_name b) = 26%nat.
Proof. unfold index_name. by rewrite length_append, length_pad_dec. Qed.

Lemma log_name_index_name a b : log_name a ≠ index_name b.
Proof.
  intros Heq. apply (f_equal String.length) in Heq.
  by rewrite length_log_name, length_index_name in Heq.
Qed.

Lemma base_of_index_name b : base_of_name (index_name b) = None.
Proof.
  destruct (base_of_name (index_name b)) as [c|] eqn:E; [|done].
  apply base_of_name_inv in E as [E _]. symmetry in E. by apply log_name_index_name in E.
Qed.

Lemma list_ascii_append s t :
  String.list_ascii_of_string (s +:+ t)
  = String.list_ascii_of_string s ++ String.list_ascii_of_string t.
Proof. induction s as [|c s IH]; [done|]. simpl. by rewrite IH. Qed.

Lemma tmp_suffix_ne name b :
  is_Some (cut_suffix ".index.tmp" name) → name ≠ log_name b ∧ name ≠ index_name b.
Proof.
  intros [p ->%cut_suffix_Some]. unfold log_name, index_name.
  split; intros Heq%(f_equal (fun s => list.last (String.list_ascii_of_string s)));
    rewrite !list_ascii_append, !last_app in Heq; by simpl in Heq.
Qed.

#[global] Opaque pad_dec log_name index_name.
