(* ===== verification/Segment.v ===== *)
(** * Log segments and their sparse index files (internal/storage/segment.go)

    The operations of one segment on its log and index file, with what each does to the
    files, and the specifications used by the proofs on stores. *)

From S2P Require Import Prelude FileSystem Names.
From Stdlib Require Import Init.Byte.

(** ** State *)

Record IndexEntry := mkIndexEntry {
  RelativeOffset : Z;
  Position : Z;
}.

Record Segment := mkSegment {
  seg_baseOffset : Z;
  seg_nextOffset : Z;
  seg_size : Z;
  seg_path : path;
  seg_indexPath : path;
  seg_indexEntries : list IndexEntry;
  seg_lastIndexedPosition : Z;
  seg_indexSize : Z;
  seg_indexDirty : bool;
  seg_active : bool;
  seg_maxTimestamp : Z;
  seg_handlesClosed : bool;
}.

Definition seg_with_nextOffset (o : Z) (s : Segment) : Segment :=
  mkSegment (seg_baseOffset s) o (seg_size s) (seg_path s) (seg_indexPath s)
    (seg_indexEntries s) (seg_lastIndexedPosition s) (seg_indexSize s)
    (seg_indexDirty s) (seg_active s) (seg_maxTimestamp s) (seg_handlesClosed s).
Definition seg_with_size (n : Z) (s : Segment) : Segment :=
  mkSegment (seg_baseOffset s) (seg_nextOffset s) n (seg_path s) (seg_indexPath s)
    (seg_indexEntries s) (seg_lastIndexedPosition s) (seg_indexSize s)
    (seg_indexDirty s) (seg_active s) (seg_maxTimestamp s) (seg_handlesClosed s).
Definition seg_with_index (es : list IndexEntry) (last : Z) (s : Segment) : Segment :=
  mkSegment (seg_baseOffset s) (seg_nextOffset s) (seg_size s) (seg_path s)
    (seg_indexPath s) es last (seg_indexSize s)
    (seg_indexDirty s) (seg_active s) (seg_maxTimestamp s) (seg_handlesClosed s).
Definition seg_with_indexSize (n : Z) (s : Segment) : Segment :=
  mkSegment (seg_baseOffset s) (seg_nextOffset s) (seg_size s) (seg_path s)
    (seg_indexPath s) (seg_indexEntries s) (seg_lastIndexedPosition s) n
    (seg_indexDirty s) (seg_active s) (seg_maxTimestamp s) (seg_handlesClosed s).
Definition seg_with_indexDirty (b : bool) (s : Segment) : Segment :=
  mkSegment (seg_baseOffset s) (seg_nextOffset s) (seg_size s) (seg_path s)
    (seg_indexPath s) (seg_indexEntries s) (seg_lastIndexedPosition s) (seg_indexSize s)
    b (seg_active s) (seg_maxTimestamp s) (seg_handlesClosed s).
Definition seg_with_active (b : bool) (s : Segment) : Segment :=
  mkSegment (seg_baseOffset s) (seg_nextOffset s) (seg_size s) (seg_path s)
    (seg_indexPath s) (seg_indexEntries s) (seg_lastIndexedPosition s) (seg_indexSize s)
    (seg_indexDirty s) b (seg_maxTimestamp s) (seg_handlesClosed s).
Definition seg_with_handlesClosed (b : bool) (s : Segment) : Segment :=
  mkSegment (seg_baseOffset s) (seg_nextOffset s) (seg_size s) (seg_path s)
    (seg_indexPath s) (seg_indexEntries s) (seg_lastIndexedPosition s) (seg_indexSize s)
    (seg_indexDirty s) (seg_active s) (seg_maxTimestamp s) b.
(** [SetMaxTimestamp]. *)
Definition SetMaxTimestamp (ts : Z) (s : Segment) : Segment :=
  mkSegment (seg_baseOffset s) (seg_nextOffset s) (seg_size s) (seg_path s)
    (seg_indexPath s) (seg_indexEntries s) (seg_lastIndexedPosition s) (seg_indexSize s)
    (seg_indexDirty s) (seg_active s) ts (seg_handlesClosed s).

(** [if ts > seg.maxTimestamp { seg.maxTimestamp = ts }]. *)
Definition raise_maxTimestamp (ts : Z) (s : Segment) : Segment :=
  if seg_maxTimestamp s <? ts then SetMaxTimestamp ts s else s.

(** ** Operations *)

Definition NewSegment (dir : path) (baseOffset : Z) (active : bool) : M World Segment :=
  let p := dir ++ [log_name baseOffset] in
  let ip := dir ++ [index_name baseOffset] in
  do* fs_open_create p in
  let* size := on_err (fs_stat p) (ignore (fs_close p)) in
  do* on_err (fs_open_create ip) (ignore (fs_close p)) in
  let* indexSize := on_err (fs_stat ip)
                      (do* ignore (fs_close p) in ignore (fs_close ip)) in
  ret (mkSegment baseOffset baseOffset size p ip [] (-1) indexSize false active 0 false).

(** [Segment.ReadAt] with a buffer of [n] bytes; io.EOF is returned as it is. *)
Definition Segment_ReadAt (n position : Z) : M (Segment * World) bytes :=
  let* s := get_obj in
  let* got := io (fs_read_at (seg_path s) n position) in
  if blen got <? n then fail ErrEOF else ret got.

Definition Segment_Append (data : bytes) : M (Segment * World) Z :=
  let* s := get_obj in
  let startPos := seg_size s in
  do* io (fs_write_at (seg_path s) data startPos) in
  do* modify (seg_with_size (startPos + blen data)) in
  ret startPos.

(** The loop of [ReadIndexEntries] (lines 131-168 of the file) from entry [i]. *)
Fixpoint read_entries (buf : bytes) (n : nat) (i lastRel lastPos : Z)
    : res (list IndexEntry) :=
  match n with
  | O => Ok []
  | S n =>
    let offset := i * 12 in
    let! rel := Uint32_at buf offset in
    let! pos := Uint64_at buf (offset + 4) in
    if 0 <? i then
      if rel <=? lastRel then Err (Errorf "non-increasing relative offset") else
      if pos <=? lastPos then Err (Errorf "non-increasing position") else
      if MaxInt64 <? pos then Err (Errorf "position overflows max int64") else
      let! es := read_entries buf n (i + 1) rel pos in
      Ok (mkIndexEntry rel pos :: es)
    else
      if negb (rel =? 0) || negb (pos =? 0)
      then Err (Errorf "first index entry must be {0, 0}") else
      if MaxInt64 <? pos then Err (Errorf "position overflows max int64") else
      let! es := read_entries buf n (i + 1) rel pos in
      Ok (mkIndexEntry rel pos :: es)
  end.

Definition ReadIndexEntries : M (Segment * World) (list IndexEntry) :=
  let* s := get_obj in
  let indexSize := seg_indexSize s in
  if indexSize =? 0 then ret [] else
  if negb (indexSize mod 12 =? 0) then fail (Errorf "not a multiple of 12 bytes") else
  if 64 * 1024 * 1024 <? indexSize then fail (Errorf "exceeds maximum index size") else
  let numEntries := indexSize / 12 in
  let* got := io (fs_read_at (seg_indexPath s) indexSize 0) in
  let buf := got ++ zeros (indexSize - blen got) in
  lift_res (read_entries buf (Z.to_nat numEntries) 0 0 0).

(** The 12 bytes of an entry. *)
Definition entry_bytes (e : IndexEntry) : bytes :=
  be_put 4 (RelativeOffset e) ++ be_put 8 (Position e).

Definition AppendIndexEntry (entry : IndexEntry) : M (Segment * World) unit :=
  do* modify (fun s => seg_with_indexDirty true
                (seg_with_index (seg_indexEntries s ++ [entry])
                   (i64 (Position entry)) s)) in
  let* s := get_obj in
  do* io (fs_write_at (seg_indexPath s) (entry_bytes entry) (seg_indexSize s)) in
  modify (seg_with_indexSize (seg_indexSize s + 12)).

Definition FlushIndex : M (Segment * World) unit :=
  let* s := get_obj in
  if seg_indexDirty s then
    do* io (fs_sync (seg_indexPath s)) in
    modify (seg_with_indexDirty false)
  else ret tt.

Definition Segment_Flush : M (Segment * World) unit :=
  let* s := get_obj in
  do* io (fs_sync (seg_path s)) in
  FlushIndex.

(** [errors.Join(a, b)] of two results. *)
Definition errors_join (a b : res unit) : res unit :=
  match a with Ok _ => b | _ => a end.

Definition Segment_Close : M (Segment * World) unit :=
  let* s := get_obj in
  if seg_handlesClosed s then ret tt else
  do* modify (seg_with_handlesClosed true) in
  let* r1 := attempt (io (fs_close (seg_path s))) in
  let* r2 := attempt (io (fs_close (seg_indexPath s))) in
  lift_res (errors_join r1 r2).

(** ** Specifications of the operations under any fault schedule *)

Lemma io_inv {X A} (p : M World A) (x x' : X) w r w' :
  io p (x, w) = (r, (x', w')) → x' = x ∧ p w = (r, w').
Proof. unfold io. destruct (p w). by intros [= <- <- <-]. Qed.

(** Append either writes all of [data] after the tracked size and advances it,
    or fails, leaves the segment as it was and a prefix of [data] behind. *)
Lemma Segment_Append_spec data seg w r seg' w' f :
  w_files w !! seg_path seg = Some f → seg_size seg = blen (fdata f) →
  Segment_Append data (seg, w) = (r, (seg', w')) →
  quiet w w' ∧
  ((r = Ok (seg_size seg) ∧ seg' = seg_with_size (seg_size seg + blen data) seg
    ∧ w_files w' = <[seg_path seg := mkFile (fdata f ++ data)
                        (min (fsynced f) (length (fdata f)))]> (w_files w))
   ∨ (r = Err ErrIO ∧ w_faults w ≠ [] ∧ seg' = seg ∧ ∃ n, (n <= length data - 1)%nat ∧ w_files w' =
        <[seg_path seg := mkFile (fdata f ++ take n data)
            (min (fsynced f) (length (fdata f)))]> (w_files w))).
Proof.
  intros Hf Hs H. unfold Segment_Append in H.
  binv H s s1 H1; [|done..]. injection H1 as <- <-.
  assert (Z.to_nat (seg_size seg) = length (fdata f)) as Hpos by (rewrite Hs, blen_eq; lia).
  binv H u s1 H1.
  - destruct s1 as [seg1 w1]. apply io_inv in H1 as [-> H1].
    apply (fs_write_at_spec _ _ _ _ _ _ f Hf) in H1 as (HQ & [(Hr & HF)|(? & _)]); [|done].
    rewrite Hpos, overwrite_end in HF. injection H as <- <- <-. auto.
  - apply io_inv in H1 as [-> H1].
    apply (fs_write_at_spec _ _ _ _ _ _ f Hf) in H1 as (HQ & [(? & _)|(He & Hn & n & Hle & HF)]);
      [done|].
    rewrite Hpos, overwrite_end in HF. simplify_eq. eauto 10.
  - apply io_inv in H1 as [-> H1].
    by apply (fs_write_at_spec _ _ _ _ _ _ f Hf) in H1 as (HQ & [(? & _)|(? & _)]).
Qed.

(** The write of an index entry: whatever happens the entry is in memory; the
    file gets the 12 bytes at the tracked index size, or part of them. *)
Lemma AppendIndexEntry_spec e seg w r seg' w' g :
  w_files w !! seg_indexPath seg = Some g →
  AppendIndexEntry e (seg, w) = (r, (seg', w')) →
  let seg1 := seg_with_indexDirty true
                (seg_with_index (seg_indexEntries seg ++ [e]) (i64 (Position e)) seg) in
  quiet w w' ∧
  ((r = Ok tt ∧ seg' = seg_with_indexSize (seg_indexSize seg + 12) seg1
    ∧ w_files w' = <[seg_indexPath seg :=
          mkFile (overwrite (fdata g) (Z.to_nat (seg_indexSize seg)) (entry_bytes e))
            (min (fsynced g) (Z.to_nat (seg_indexSize seg)))]> (w_files w))
   ∨ (r = Err ErrIO ∧ w_faults w ≠ [] ∧ seg' = seg1 ∧ ∃ n, (n <= 11)%nat ∧
      w_files w' = <[seg_indexPath seg :=
          mkFile (overwrite (fdata g) (Z.to_nat (seg_indexSize seg)) (take n (entry_bytes e)))
            (min (fsynced g) (Z.to_nat (seg_indexSize seg)))]> (w_files w))).
Proof.
  intros Hg H. unfold AppendIndexEntry in H.
  binv H u s1 H1; [|done..]. injection H1 as <- <-.
  binv H s s1 H1; [|done..]. injection H1 as <- <-.
  binv H u s1 H1; [destruct s1 as [seg1 w1]|..]; apply io_inv in H1 as [-> H1];
    apply (fs_write_at_spec _ _ _ _ _ _ g Hg) in H1
      as (HQ & [(Hr & HF)|(Hr & Hn & n & Hle & HF)]); try done.
  - injection H as <- <- <-. auto.
  - simplify_eq. eauto 10.
Qed.

(** Flush changes no data; when it succeeds the log file is durable. *)
Lemma Segment_Flush_spec seg w r seg' w' f g :
  w_files w !! seg_path seg = Some f → w_files w !! seg_indexPath seg = Some g →
  seg_path seg ≠ seg_indexPath seg →
  Segment_Flush (seg, w) = (r, (seg', w')) →
  quiet w w' ∧ (∃ b, seg' = seg_with_indexDirty b seg)
  ∧ (∀ p, data_at (w_files w') p = data_at (w_files w) p)
  ∧ (∀ p, p ≠ seg_path seg → p ≠ seg_indexPath seg → w_files w' !! p = w_files w !! p)
  ∧ (∀ P, grows P (w_files w) (w_files w'))
  ∧ ((r = Ok tt ∧ w_files w' !! seg_path seg = Some (mkFile (fdata f) (length (fdata f))))
     ∨ (r = Err ErrIO ∧ w_faults w ≠ [])).
Proof.
  intros Hf Hg Hne H. unfold Segment_Flush in H.
  assert (∀ P F p h, F !! p = Some h → grows P F (<[p := mkFile (fdata h) (length (fdata h))]> F))
    as Hgr by (intros P F p h Hh; apply (grows_insert _ _ _ _ _ Hh); simpl; lia).
  assert (seg = seg_with_indexDirty (seg_indexDirty seg) seg) as Hid by by destruct seg.
  binv H s s1 H1; [|done..]. injection H1 as <- <-.
  binv H u s1 H1; [destruct s1 as [seg1 w1]|..]; apply io_inv in H1 as [-> H1];
    apply (fs_sync_spec _ _ _ _ f Hf) in H1 as (HQ & [(Hr & HF)|(Hr & Hn & HF)]); try done.
  2:{ rewrite HF. split_and!; eauto using grows_refl. }
  unfold FlushIndex in H. binv H s s1 H1; [|done..]. injection H1 as <- <-.
  assert (w_files w1 !! seg_indexPath seg = Some g) as Hg1
    by (rewrite HF, lookup_insert_ne by done; done).
  destruct (seg_indexDirty seg) eqn:Hd.
  - binv H v s1 H1; [destruct s1 as [seg2 w2]|..]; apply io_inv in H1 as [-> H1];
      apply (fs_sync_spec _ _ _ _ g Hg1) in H1 as (HQ1 & [(Hr1 & HF1)|(Hr1 & Hn1 & HF1)]);
      try done.
    + injection H as <- <- <-. split_and!; [eauto with fs|eauto|..].
      * intros p. rewrite HF1, (data_at_insert_same _ _ g), HF, (data_at_insert_same _ _ f);
          done.
      * intros p Hp1 Hp2. by rewrite HF1, lookup_insert_ne, HF, lookup_insert_ne.
      * intros P. rewrite HF in HF1, Hg1. rewrite HF1.
        eapply grows_trans; [by apply (Hgr P _ (seg_path seg) f)|by apply Hgr].
      * left. split; [done|]. by rewrite HF1, lookup_insert_ne, HF, lookup_insert_eq.
    + split_and!; [eauto with fs|eauto|..].
      * intros p. by rewrite HF1, HF, (data_at_insert_same _ _ f).
      * intros p Hp1 Hp2. by rewrite HF1, HF, lookup_insert_ne.
      * intros P. rewrite HF1, HF. by apply Hgr.
      * right. split; [done|]. intros Hw. apply Hn1. by apply HQ.
  - injection H as <- <- <-. split_and!; [done|eauto|..].
    + intros p. by rewrite HF, (data_at_insert_same _ _ f).
    + intros p Hp1 Hp2. by rewrite HF, lookup_insert_ne.
    + intros P. rewrite HF. by apply Hgr.
    + left. split; [done|]. by rewrite HF, lookup_insert_eq.
Qed.

(** The empty segment that NewSegment makes of two new files. *)
Definition empty_segment (dir : path) (base : Z) (active : bool) : Segment :=
  mkSegment base base 0 (dir ++ [log_name base]) (dir ++ [index_name base]) [] (-1) 0
    false active 0 false.

(** A clean-up that touches no file. *)
Definition tidy (h : M World unit) : Prop :=
  ∀ w, quiet w (snd (h w)) ∧ w_files (snd (h w)) = w_files w.

Lemma tidy_close p : tidy (ignore (fs_close p)).
Proof.
  intros w. unfold ignore. destruct (fs_close p w) as [r w'] eqn:E.
  by apply fs_close_spec in E as (? & ? & _).
Qed.

Lemma tidy_seq p (h : M World unit) : tidy h → tidy (do* ignore (fs_close p) in h).
Proof.
  intros Hh w. destruct (tidy_close p w) as [HQ HF]. unfold bind.
  change (ignore (fs_close p) w) with (@Ok unit tt, snd (fs_close p w)).
  change (snd (ignore (fs_close p) w)) with (snd (fs_close p w)) in *.
  destruct (Hh (snd (fs_close p w))) as [HQ' HF']. split; [eauto with fs|congruence].
Qed.
#[export] Hint Resolve tidy_close tidy_seq : fs.

Lemma on_err_tidy {A} (m : M World A) h w r w' :
  tidy h → on_err m h w = (r, w') →
  ∃ w1, m w = (r, w1) ∧ quiet w1 w' ∧ w_files w' = w_files w1.
Proof.
  intros Hh H. apply on_err_inv in H as [(a & H & ->)|[(e & w1 & H & -> & ->)|(H & ->)]];
    eexists; (split; [done|]); auto with fs.
Qed.

Lemma quiet_faults w w' : quiet w w' → w_faults w' ≠ [] → w_faults w ≠ [].
Proof. intros [HQ] Hn Hw. auto. Qed.
#[export] Hint Resolve quiet_faults : fs.

(** NewSegment on a base offset that has no files yet: a failing call leaves
    none, one or both of the two empty files behind. *)
Lemma NewSegment_new dir base active w r w' :
  let lp := dir ++ [log_name base] in
  let ip := dir ++ [index_name base] in
  let F1 := <[lp := mkFile [] 0]> (w_files w) in
  let F2 := <[ip := mkFile [] 0]> F1 in
  w_files w !! lp = None → w_files w !! ip = None →
  NewSegment dir base active w = (r, w') →
  quiet w w' ∧
  ((r = Ok (empty_segment dir base active) ∧ w_files w' = F2)
   ∨ (r = Err ErrIO ∧ w_faults w ≠ []
      ∧ (w_files w' = w_files w ∨ w_files w' = F1 ∨ w_files w' = F2))).
Proof.
  intros lp ip F1 F2 Hl Hi H. unfold NewSegment in H. fold lp ip in H.
  assert (lp ≠ ip) as Hne.
  { unfold lp, ip. intros Heq%(f_equal list.last). rewrite !last_snoc in Heq.
    by apply (inj Some), log_name_index_name in Heq. }
  binv H u w1 H1; apply fs_open_create_new in H1 as (HQ & [(Hr & HF)|(Hr & Hn & HF)]);
    try done; [|simplify_eq; by auto 10].
  assert (w_files w1 !! lp = Some (mkFile [] 0)) as Hl1 by (by rewrite HF, lookup_insert_eq).
  assert (w_files w1 !! ip = None) as Hi1 by (by rewrite HF, lookup_insert_ne).
  binv H sz w2 H1; apply on_err_tidy in H1 as (w2' & H1 & HQc & HFc); auto with fs;
    apply (fs_stat_spec _ _ _ _ _ Hl1) in H1 as (HQ1 & HF1 & [Hr1|(Hr1 & Hn1)]); simplify_eq;
    assert (quiet w w2') as HQa by eauto with fs;
    [|split; [eauto with fs|]; right; split_and!; [done|eauto with fs|];
      right; left; by rewrite HFc, HF1].
  rewrite <- HF1, <- HFc in Hi1, HF.
  binv H v w3 H1; apply on_err_tidy in H1 as (w3' & H1 & HQd & HFd); auto with fs;
    apply (fs_open_create_new _ _ _ _ Hi1) in H1 as (HQ2 & [(Hr2 & HF2)|(Hr2 & Hn2 & HF2)]);
    simplify_eq; assert (quiet w w3') as HQb by eauto with fs;
    [|split; [eauto with fs|]; right; split_and!; [done|eauto with fs|];
      right; left; by rewrite HFd, HF2].
  assert (w_files w3 !! ip = Some (mkFile [] 0)) as Hi3
    by (by rewrite HFd, HF2, lookup_insert_eq).
  rewrite <- HFd, HF in HF2.
  binv H isz w4 H1; apply on_err_tidy in H1 as (w4' & H1 & HQe & HFe); auto with fs;
    apply (fs_stat_spec _ _ _ _ _ Hi3) in H1 as (HQ3 & HF3 & [Hr3|(Hr3 & Hn3)]); simplify_eq;
    assert (quiet w w4') as HQz by eauto with fs.
  - injection H as <- <-. split; [eauto with fs|]. left. split; [done|].
    by rewrite HFe, HF3.
  - split; [eauto with fs|]. right. split_and!; [done|eauto with fs|].
    right; right. by rewrite HFe, HF3.
Qed.

(** Reading the bytes that stand at a position. *)
Lemma Segment_ReadAt_spec n pos x d seg w r seg' w' :
  data_at (w_files w) (seg_path seg) = Some d → at_off d pos x → n = blen x →
  Segment_ReadAt n pos (seg, w) = (r, (seg', w')) →
  seg' = seg ∧ quiet w w' ∧ w_files w' = w_files w
  ∧ (r = Ok x ∨ (r = Err ErrIO ∧ w_faults w ≠ [])).
Proof.
  intros Hd (p & q & -> & ->) -> H. apply data_at_Some in Hd as [k Hf].
  unfold Segment_ReadAt in H. binv H s s1 H1; [|done..]. injection H1 as <- <-.
  binv H got s1 H1; [destruct s1 as [seg1 w1]|..]; apply io_inv in H1 as [-> H1];
    apply (fs_read_at_spec _ _ _ _ _ _ _ Hf) in H1 as (HQ & HF & [Hr|(Hr & Hn)]);
    simplify_eq; [|by split_and!; auto].
  cbn [fdata] in H. rewrite !blen_eq, !Nat2Z.id, drop_app_length, take_app_length in H.
  rewrite Z.ltb_irrefl in H. injection H as <- <- <-. split_and!; auto.
Qed.
