(* ===== verification/Store.v ===== *)
(** * The partition store (internal/storage/store.go): state and operations

    A [Store] keeps its segments oldest first.  The pointer [activeSegment] of
    the code aliases the last element of [segments] whenever it is
    dereferenced, so the active segment is that element here ([on_active]) and
    the comparison [oldest == s.activeSegment] compares positions.  The mutex
    makes every exported operation atomic, so an operation is a function on the
    store and the world; the value that [s.clock()] returns is an argument. *)

From S2P Require Import Prelude FileSystem Model Format Segment.
From Stdlib Require Import Init.Byte.

Record Store := mkStore {
  st_dir : path;
  st_segmentMaxBytes : Z;
  st_maxBatchBytes : Z;
  st_indexIntervalBytes : Z;
  st_flushMode : string;
  st_closed : bool;
  st_writeFailed : bool;
  st_segments : list Segment;
  st_logEndOffset : Z;
  st_earliestOffset : Z;
}.

Definition st_with_closed (b : bool) (s : Store) : Store :=
  mkStore (st_dir s) (st_segmentMaxBytes s) (st_maxBatchBytes s)
    (st_indexIntervalBytes s) (st_flushMode s) b (st_writeFailed s)
    (st_segments s) (st_logEndOffset s) (st_earliestOffset s).
Definition st_with_writeFailed (b : bool) (s : Store) : Store :=
  mkStore (st_dir s) (st_segmentMaxBytes s) (st_maxBatchBytes s)
    (st_indexIntervalBytes s) (st_flushMode s) (st_closed s) b
    (st_segments s) (st_logEndOffset s) (st_earliestOffset s).
Definition st_with_segments (l : list Segment) (s : Store) : Store :=
  mkStore (st_dir s) (st_segmentMaxBytes s) (st_maxBatchBytes s)
    (st_indexIntervalBytes s) (st_flushMode s) (st_closed s) (st_writeFailed s)
    l (st_logEndOffset s) (st_earliestOffset s).
Definition st_with_logEndOffset (o : Z) (s : Store) : Store :=
  mkStore (st_dir s) (st_segmentMaxBytes s) (st_maxBatchBytes s)
    (st_indexIntervalBytes s) (st_flushMode s) (st_closed s) (st_writeFailed s)
    (st_segments s) o (st_earliestOffset s).
Definition st_with_earliestOffset (o : Z) (s : Store) : Store :=
  mkStore (st_dir s) (st_segmentMaxBytes s) (st_maxBatchBytes s)
    (st_indexIntervalBytes s) (st_flushMode s) (st_closed s) (st_writeFailed s)
    (st_segments s) (st_logEndOffset s) o.

(** ** The active segment *)

Definition set_last (l : list Segment) (x : Segment) : list Segment :=
  take (length l - 1) l ++ [x].

(** Run a segment method on the active segment. *)
Definition on_active {A} (m : M (Segment * World) A) : M (Store * World) A :=
  fun '(s, w) =>
    match list.last (st_segments s) with
    | None => (Panic, (s, w))
    | Some seg =>
      let '(r, (seg', w')) := m (seg, w) in
      (r, (st_with_segments (set_last (st_segments s) seg') s, w'))
    end.

(** Run a segment method that leaves the segment as it is. *)
Definition on_seg {A} (seg : Segment) (m : M (Segment * World) A) : M World A :=
  fun w => let '(r, (_, w')) := m (seg, w) in (r, w').

Definition mark_failed : M (Store * World) unit := modify (st_with_writeFailed true).

Definition recordSize (record : StoredRecord) : Z :=
  let size := olen (Key record) + olen (Value record) in
  let size := fold_left (fun size h => size + (blen (h_Key h) + blen (h_Value h)))
                (Headers record) size in
  size + 16.

Definition updateGaugesLocked : M (Store * World) unit :=
  let* s := get_obj in
  let totalBytes := fold_left (fun t seg => t + seg_size seg) (st_segments s) 0 in
  emit (SetPartitionState totalBytes (blen (st_segments s))).

(** ** Append *)

(** Lines 199-209: offsets and the timestamp of the batch. *)
Definition stamp (base timestamp : Z) (records : list ClientRecord) : list StoredRecord :=
  imap (fun i r => mkStoredRecord (u64 (base + Z.of_nat i)) timestamp
                     (r_Key r) (r_Value r) (r_Headers r)) records.

(** Lines 223-238: roll to a new segment. *)
Definition roll_if_full (batchSize : Z) : M (Store * World) unit :=
  let* a := on_active get_obj in
  let* s := get_obj in
  if (0 <? seg_size a) && (st_segmentMaxBytes s <? seg_size a + batchSize) then
    do* on_err (on_active Segment_Flush) mark_failed in
    do* on_active (modify (seg_with_active false)) in
    let* newSeg := on_err (io (NewSegment (st_dir s) (st_logEndOffset s) true))
                     mark_failed in
    modify (fun s => st_with_segments (st_segments s ++ [newSeg]) s)
  else ret tt.

(** Lines 262-274: the sparse index entry of the batch. *)
Definition index_batch (relative pos : Z) : M (Store * World) unit :=
  let* a := on_active get_obj in
  let* s := get_obj in
  let shouldIndex :=
    (blen (seg_indexEntries a) =? 0)
    || (st_indexIntervalBytes s <=? pos - seg_lastIndexedPosition a) in
  if shouldIndex
  then ignore (on_active (AppendIndexEntry (mkIndexEntry (u32 relative) (u64 pos))))
  else ret tt.

(** Lines 276-285. *)
Definition apply_flush_policy : M (Store * World) unit :=
  let* s := get_obj in
  if bool_decide (st_flushMode s = "sync"%string) then
    let* r := attempt (on_active Segment_Flush) in
    do* emit (ObserveFsync (is_ok r)) in
    match r with
    | Ok _ => ret tt
    | Err e => do* mark_failed in fail e
    | Panic => panic
    end
  else ret tt.

(** Lines 240-289: write the batch to the active segment and index it. *)
Definition write_batch (timestamp base n : Z) (encoded : bytes)
    : M (Store * World) (Z * Z) :=
  let* a := on_active get_obj in
  let relative := u64 (base - seg_baseOffset a) in
  if MaxUint32 <? relative
  then do* mark_failed in fail ErrIndexOffsetOverflow else
  let* pos := on_err (on_active (Segment_Append encoded)) mark_failed in
  do* on_active (modify (raise_maxTimestamp timestamp)) in
  let last := u64 (u64 (base + n) - 1) in
  do* modify (st_with_logEndOffset (u64 (last + 1))) in
  do* on_active (modify (seg_with_nextOffset (u64 (last + 1)))) in
  do* index_batch relative pos in
  do* apply_flush_policy in
  do* updateGaugesLocked in
  ret (base, last).

(** Lines 218-289: the part of [Append] after the batch has been encoded. *)
Definition append_encoded (timestamp base n : Z) (encoded : bytes)
    : M (Store * World) (Z * Z) :=
  let* s := get_obj in
  let batchSize := blen encoded in
  if st_maxBatchBytes s <? batchSize then fail ErrBatchTooLarge else
  do* roll_if_full batchSize in
  write_batch timestamp base n encoded.

(** The deferred call of the observer. *)
Definition observed_append {A} (n encodedBytes : Z) (m : M (Store * World) A)
    : M (Store * World) A :=
  fun sw => let '(r, (s, w)) := m sw in
            (r, (s, add_event (ObserveAppend n encodedBytes (is_ok r)) w)).

Definition Store_Append (now : Z) (records : list ClientRecord)
    : M (Store * World) (Z * Z) :=
  let n := blen records in
  if n =? 0 then observed_append n 0 (fail (Errorf "cannot append empty batch")) else
  let* s := get_obj in
  if st_closed s then observed_append n 0 (fail ErrStoreClosed) else
  if st_writeFailed s then observed_append n 0 (fail ErrStoreCorrupt) else
  let timestamp := now in
  let base := st_logEndOffset s in
  let storedRecs := stamp base timestamp records in
  match EncodeBatch storedRecs with
  | Ok encoded => observed_append n (blen encoded) (append_encoded timestamp base n encoded)
  | Err e => observed_append n 0 (fail e)
  | Panic => panic
  end.

(** ** Read *)

(** [sort.Search]: binary search for the first index at which [f] holds. *)
Fixpoint search_loop (fuel : nat) (f : nat → bool) (i j : nat) : nat :=
  match fuel with
  | O => i
  | S fuel =>
    if (i <? j)%nat then
      let h := ((i + j) / 2)%nat in
      if negb (f h) then search_loop fuel f (h + 1) j else search_loop fuel f i h
    else i
  end.
Definition sort_Search (n : nat) (f : nat → bool) : nat := search_loop n f 0 n.

(** The variables of the read loop: [result], [accumulatedBytes], [currOffset]. *)
Record cursor := mkCursor {
  c_result : list StoredRecord;
  c_bytes : Z;
  c_offset : Z;
}.

(** [inl]: the scan goes on; [inr]: [Read] returns these records. *)
Abbreviation scan := (cursor + list StoredRecord)%type.

(** Lines 379-394: the records of one decoded batch. *)
Fixpoint collect (maxBytes : Z) (recs : list StoredRecord) (c : cursor) : scan :=
  match recs with
  | [] => inl c
  | r :: recs =>
    if Offset r <? c_offset c then collect maxBytes recs c else
    let size := recordSize r in
    if (0 <? blen (c_result c)) && (maxBytes <? c_bytes c + size)
    then inr (c_result c)
    else collect maxBytes recs
           (mkCursor (c_result c ++ [r]) (c_bytes c + size) (u64 (Offset r + 1)))
  end.

(** Lines 352-397: scan a segment from [startPos]. *)
Fixpoint scan_segment (fuel : nat) (seg : Segment) (maxBytes startPos : Z) (c : cursor)
    : M World scan :=
  if seg_size seg <=? startPos then ret (inl c) else
  match fuel with
  | O => fail (Errorf "out of fuel")
  | S fuel =>
    if seg_size seg <? startPos + 9 then fail (Errorf "truncated batch header") else
    let* prefixBuf := on_seg seg (Segment_ReadAt 9 startPos) in
    let* batchLength := lift_res (Uint32_at prefixBuf 5) in
    let totalBatchSize := 9 + batchLength in
    if seg_size seg <? startPos + totalBatchSize
    then fail (Errorf "truncated batch payload") else
    let* batchBuf := on_seg seg (Segment_ReadAt totalBatchSize startPos) in
    let* recs := lift_res (DecodeBatch batchBuf) in
    match collect maxBytes recs c with
    | inr result => ret (inr result)
    | inl c => scan_segment fuel seg maxBytes (startPos + totalBatchSize) c
    end
  end.

(** Lines 341-349: the position of the closest index entry. *)
Definition index_start (seg : Segment) (currOffset : Z) : Z :=
  let es := seg_indexEntries seg in
  let idx := sort_Search (length es) (fun j =>
    match es !! j with
    | Some e => currOffset <? u64 (seg_baseOffset seg + RelativeOffset e)
    | None => false
    end) in
  if (0 <? idx)%nat then
    match es !! (idx - 1)%nat with Some e => i64 (Position e) | None => 0 end
  else 0.

(** Lines 337-400: the segments from the first one that holds the offset. *)
Fixpoint read_segments (segs : list Segment) (maxBytes : Z) (c : cursor)
    : M World (list StoredRecord) :=
  match segs with
  | [] => ret (c_result c)
  | seg :: segs =>
    let startPos := index_start seg (c_offset c) in
    let* r := scan_segment (Z.to_nat (seg_size seg - startPos)) seg maxBytes startPos c in
    match r with
    | inr result => ret result
    | inl c => read_segments segs maxBytes c
    end
  end.

(** The deferred call of the observer. *)
Definition observed_read (m : M (Store * World) (list StoredRecord))
    : M (Store * World) (list StoredRecord) :=
  fun sw =>
    let '(r, (s, w)) := m sw in
    let result := match r with Ok l => l | _ => [] end in
    let readBytes := fold_left (fun t r => t + recordSize r) result 0 in
    (r, (s, add_event (ObserveRead (blen result) readBytes (is_ok r)) w)).

Definition Store_Read (offset maxBytes : Z) : M (Store * World) (list StoredRecord) :=
  observed_read (
    if maxBytes <=? 0 then fail (Errorf "maxBytes must be greater than zero") else
    let* s := get_obj in
    if st_closed s then fail ErrStoreClosed else
    if st_writeFailed s then fail ErrStoreCorrupt else
    if (offset <? st_earliestOffset s) || (st_logEndOffset s <? offset)
    then fail ErrOffsetOutOfRange else
    if offset =? st_logEndOffset s then ret [] else
    let segs := st_segments s in
    let segIdx := sort_Search (length segs) (fun i =>
      match segs !! i with
      | Some seg => offset <? seg_nextOffset seg
      | None => false
      end) in
    if (length segs <=? segIdx)%nat then fail ErrOffsetOutOfRange else
    io (read_segments (drop segIdx segs) maxBytes (mkCursor [] 0 offset))).

(** ** Close *)

(** Close every segment; the flag tells whether one of the calls failed. *)
Fixpoint close_segments (segs : list Segment) (w : World) : list Segment * bool * World :=
  match segs with
  | [] => ([], false, w)
  | seg :: segs =>
    let '(r, (seg', w)) := Segment_Close (seg, w) in
    let '(segs', err, w) := close_segments segs w in
    (seg' :: segs', negb (is_ok r) || err, w)
  end.

Definition Store_Close : M (Store * World) unit := fun '(s, w) =>
  if st_closed s then (Ok tt, (s, w)) else
  let s := st_with_closed true s in
  let '(r, (s, w)) :=
    match st_segments s with
    | [] => (Ok tt, (s, w))
    | _ => on_active Segment_Flush (s, w)
    end in
  let '(segs, err, w) := close_segments (st_segments s) w in
  let s := st_with_segments segs s in
  if negb (is_ok r) || err then (Err (Errorf "errors closing store"), (s, w))
  else (Ok tt, (s, w)).

Definition LogEndOffset (s : Store) : Z := st_logEndOffset s.
Definition EarliestOffset (s : Store) : Z := st_earliestOffset s.
