(* ===== verification/Recovery.v ===== *)
(** * Recovery (internal/storage/store.go)

    [recoverSegment] scans a log file and cuts a torn tail of the active segment,
    [validateIndexEntries] and [rebuildIndex] check and replace an index file, and
    [OpenStore] puts the store together.  The loops take the file size as fuel. *)

From S2P Require Import Prelude FileSystem Names Model Format Segment Store.
From Stdlib Require Import Init.Byte.

(** ** recoverSegment *)

Definition truncateLog (validSize : Z) : M (Segment * World) unit :=
  let* seg := get_obj in
  do* io (fs_truncate (seg_path seg) validSize) in
  modify (seg_with_size validSize).

(** Lines 525-533: the offsets of a batch are consecutive; the segment's
    maximum timestamp is kept up to date. *)
Fixpoint check_batch_offsets (expectedOffset j : Z) (recs : list StoredRecord)
    : M (Segment * World) unit :=
  match recs with
  | [] => ret tt
  | r :: recs =>
    if negb (Offset r =? u64 (expectedOffset + j))
    then fail (Errorf "offset discontinuity inside batch") else
    do* modify (raise_maxTimestamp (Timestamp r)) in
    check_batch_offsets expectedOffset (j + 1) recs
  end.

(** Lines 452-538: the scan of the log file. The result is [expectedOffset] and
    [validSize] at the end of the loop. *)
Fixpoint recover_loop (fuel : nat) (maxBatchBytes : Z) (active : bool)
    (currentPos expectedOffset validSize : Z) : M (Segment * World) (Z * Z) :=
  let* seg := get_obj in
  if seg_size seg <=? currentPos then ret (expectedOffset, validSize) else
  match fuel with
  | O => fail (Errorf "out of fuel")
  | S fuel =>
    if seg_size seg <? currentPos + 9 then
      if active then do* truncateLog validSize in ret (expectedOffset, validSize)
      else fail (Errorf "incomplete batch header in closed segment")
    else
    let* prefixBuf := Segment_ReadAt 9 currentPos in
    let* magic := lift_res (slice prefixBuf 0 4) in
    if bool_decide (magic ≠ MagicBytes) then fail ErrMalformedMagic else
    let* version := lift_res (slice prefixBuf 4 5) in
    if bool_decide (version ≠ [FormatVersion1]) then fail ErrUnsupportedVersion else
    let* batchLength := lift_res (Uint32_at prefixBuf 5) in
    if batchLength <? MinimumBatchRemainder then fail ErrCorruptBatch else
    let totalBatchSize := MagicSize + VersionSize + BatchLengthSize + batchLength in
    if maxBatchBytes <? totalBatchSize then fail ErrBatchTooLarge else
    if seg_size seg <? currentPos + totalBatchSize then
      if active then do* truncateLog validSize in ret (expectedOffset, validSize)
      else fail (Errorf "incomplete batch payload inside closed segment")
    else
    let* batchBuf := Segment_ReadAt totalBatchSize currentPos in
    let* recs := lift_res (DecodeBatch batchBuf) in
    match recs with
    | [] => fail (Errorf "segment contains empty record batch")
    | r0 :: _ =>
      if negb (Offset r0 =? expectedOffset) then fail (Errorf "offset discontinuity") else
      do* check_batch_offsets expectedOffset 0 recs in
      recover_loop fuel maxBatchBytes active (currentPos + totalBatchSize)
        (u64 (expectedOffset + blen recs)) (currentPos + totalBatchSize)
    end
  end.

(** Lines 575-619: the loop of [validateIndexEntries] from entry [i]. *)
Fixpoint validate_entries (seg : Segment) (validLogSize : Z) (i : nat)
    (lastRel lastPos : Z) (entries : list IndexEntry) : M World bool :=
  match entries with
  | [] => ret true
  | entry :: entries =>
    if (0 <? i)%nat && ((RelativeOffset entry <=? lastRel) || (Position entry <=? lastPos))
    then ret false else
    if validLogSize <=? i64 (Position entry) then ret false else
    let* prefix := attempt (on_seg seg (Segment_ReadAt 9 (i64 (Position entry)))) in
    match prefix with
    | Ok prefixBuf =>
      let* magic := lift_res (slice prefixBuf 0 4) in
      if bool_decide (magic ≠ MagicBytes) then ret false else
      let expectedAbsOffset := u64 (seg_baseOffset seg + RelativeOffset entry) in
      if validLogSize <? i64 (Position entry) + 33 then ret false else
      let* header := attempt (on_seg seg (Segment_ReadAt 33 (i64 (Position entry)))) in
      match header with
      | Ok headerBuf =>
        let* batchBaseOffset := lift_res (Uint64_at headerBuf 13) in
        if negb (batchBaseOffset =? expectedAbsOffset) then ret false else
        validate_entries seg validLogSize (i + 1) (RelativeOffset entry)
          (Position entry) entries
      | _ => ret false
      end
    | _ => ret false
    end
  end.

Definition validateIndexEntries (seg : Segment) (entries : list IndexEntry)
    (validLogSize : Z) : M World bool :=
  match entries with
  | [] => ret (validLogSize =? 0)
  | e0 :: _ =>
    if negb (RelativeOffset e0 =? 0) || negb (Position e0 =? 0) then ret false else
    validate_entries seg validLogSize 0 0 0 entries
  end.

(** Lines 635-690: the loop of [rebuildIndex]; [fuel] bounds the batches left.
    Returns the entries and the last indexed position. *)
Fixpoint rebuild_loop (fuel : nat) (indexIntervalBytes validLogSize : Z) (tmpPath : path)
    (indexEntries : list IndexEntry) (lastIndexedPosition currentPos : Z)
    : M (Segment * World) (list IndexEntry * Z) :=
  if validLogSize <=? currentPos then ret (indexEntries, lastIndexedPosition) else
  match fuel with
  | O => fail (Errorf "out of fuel")
  | S fuel =>
    let* headerBuf := Segment_ReadAt 33 currentPos in
    let* batchBaseOffset := lift_res (Uint64_at headerBuf 13) in
    let* batchLength := lift_res (Uint32_at headerBuf 5) in
    let totalBatchSize := 9 + batchLength in
    let* rawTimestamp := lift_res (Uint64_at headerBuf 25) in
    let batchMaxTimestamp := i64 rawTimestamp in
    do* modify (raise_maxTimestamp batchMaxTimestamp) in
    let* seg := get_obj in
    let relative := u64 (batchBaseOffset - seg_baseOffset seg) in
    if MaxUint32 <? relative then fail ErrIndexOffsetOverflow else
    let shouldIndex :=
      (blen indexEntries =? 0) || (indexIntervalBytes <=? currentPos - lastIndexedPosition) in
    if shouldIndex then
      let entry := mkIndexEntry (u32 relative) (u64 currentPos) in
      do* io (fs_write_at tmpPath (entry_bytes entry) (12 * blen indexEntries)) in
      rebuild_loop fuel indexIntervalBytes validLogSize tmpPath
        (indexEntries ++ [entry]) currentPos (currentPos + totalBatchSize)
    else
      rebuild_loop fuel indexIntervalBytes validLogSize tmpPath
        indexEntries lastIndexedPosition (currentPos + totalBatchSize)
  end.

(** [seg.indexPath + ".tmp"]. *)
Definition tmp_path (p : path) : path :=
  match list.last p with
  | Some name => take (length p - 1) p ++ [name +:+ ".tmp"]
  | None => [".tmp"%string]
  end.

Definition rebuildIndex (dir : path) (indexIntervalBytes validLogSize : Z)
    : M (Segment * World) unit :=
  let* seg := get_obj in
  let tmpPath := tmp_path (seg_indexPath seg) in
  let discard := do* ignore (io (fs_close tmpPath)) in ignore (io (fs_remove tmpPath)) in
  do* io (fs_open_trunc tmpPath) in
  let* (indexEntries, lastIndexedPosition) :=
    on_err (rebuild_loop (Z.to_nat validLogSize) indexIntervalBytes validLogSize tmpPath
              [] (-1) 0) discard in
  do* on_err (io (fs_sync tmpPath)) discard in
  do* on_err (io (fs_close tmpPath)) (ignore (io (fs_remove tmpPath))) in
  do* ignore (io (fs_close (seg_indexPath seg))) in
  do* on_err (io (fs_rename tmpPath (seg_indexPath seg)))
        (ignore (io (fs_remove tmpPath))) in
  do* io (fs_open_existing (seg_indexPath seg)) in
  do* modify (fun seg =>
        seg_with_indexSize (12 * blen indexEntries)
          (seg_with_indexDirty false
             (seg_with_index indexEntries lastIndexedPosition seg))) in
  do* emit IndexRebuilt in
  io (fs_sync_dir dir).

(** The store's fields that recovery reads are those of [s]. *)
Definition recoverSegment (s : Store) (active : bool) : M (Segment * World) Z :=
  let* seg := get_obj in
  let* (expectedOffset, validSize) :=
    recover_loop (Z.to_nat (seg_size seg)) (st_maxBatchBytes s) active 0
      (seg_baseOffset seg) 0 in
  let* loaded := attempt ReadIndexEntries in
  let* seg := get_obj in
  let* indexValid :=
    match loaded with
    | Ok entries => io (validateIndexEntries seg entries validSize)
    | _ => ret false
    end in
  do* match loaded, indexValid with
      | Ok entries, true =>
        modify (fun seg =>
          match list.last entries with
          | Some e => seg_with_index entries (i64 (Position e)) seg
          | None => seg_with_index entries (seg_lastIndexedPosition seg) seg
          end)
      | _, _ => rebuildIndex (st_dir s) (st_indexIntervalBytes s) validSize
      end in
  ret expectedOffset.

(** ** OpenStore *)

Definition closeAllOpenSegments : M (Store * World) unit := fun '(s, w) =>
  let '(_, _, w) := close_segments (st_segments s) w in
  (Ok tt, (st_with_segments [] s, w)).

(** Lines 79-83: remove abandoned index rebuilds. *)
Fixpoint remove_tmp_files (dir : path) (names : list string) : M World unit :=
  match names with
  | [] => ret tt
  | name :: names =>
    do* match cut_suffix ".index.tmp" name with
        | Some _ => ignore (fs_remove (dir ++ [name]))
        | None => ret tt
        end in
    remove_tmp_files dir names
  end.

(** Lines 128-150: open and recover the segments in order. *)
Fixpoint open_segments (bases : list Z) (expectedNextOffset : Z)
    : M (Store * World) Z :=
  match bases with
  | [] => ret expectedNextOffset
  | base :: bases =>
    if negb (base =? expectedNextOffset)
    then do* closeAllOpenSegments in fail (Errorf "offset discontinuity") else
    let isActive := match bases with [] => true | _ => false end in
    let* s := get_obj in
    let* seg := on_err (io (NewSegment (st_dir s) base isActive)) closeAllOpenSegments in
    do* modify (fun s => st_with_segments (st_segments s ++ [seg]) s) in
    let* nextOffset := on_err (on_active (recoverSegment s isActive))
                         closeAllOpenSegments in
    do* on_active (modify (seg_with_nextOffset nextOffset)) in
    open_segments bases nextOffset
  end.

(** [strings.ToLower] on ASCII letters. *)
Definition lower_ascii (c : Ascii.ascii) : Ascii.ascii :=
  let n := Ascii.nat_of_ascii c in
  if (65 <=? n)%nat && (n <=? 90)%nat then Ascii.ascii_of_nat (n + 32) else c.
Fixpoint ToLower (s : string) : string :=
  match s with
  | EmptyString => EmptyString
  | String c s => String (lower_ascii c) (ToLower s)
  end.

(** Lines 121-168: from the sorted base offsets to the open store. *)
Definition load_segments (baseOffsets : list Z) : M (Store * World) unit :=
  let expectedNextOffset := match baseOffsets with [] => 0 | b :: _ => b end in
  do* modify (st_with_earliestOffset expectedNextOffset) in
  let* expectedNextOffset := open_segments baseOffsets expectedNextOffset in
  do* modify (st_with_logEndOffset expectedNextOffset) in
  let* s := get_obj in
  do* match st_segments s with
      | [] =>
        let* seg := io (NewSegment (st_dir s) 0 true) in
        modify (fun s => st_with_earliestOffset 0 (st_with_logEndOffset 0
                  (st_with_segments [seg] s)))
      | _ => ret tt
      end in
  updateGaugesLocked.

Definition open_store (dir : path) (segmentMaxBytes maxBatchBytes indexIntervalBytes : Z)
    (flushMode : string) : M World Store :=
  do* fs_mkdir_all dir in
  let* files := fs_read_dir dir in
  do* remove_tmp_files dir files in
  let baseOffsets := merge_sort Z.le (omap base_of_name files) in
  fun w =>
    let '(r, (s, w)) := load_segments baseOffsets
      (mkStore dir segmentMaxBytes maxBatchBytes indexIntervalBytes
         (ToLower flushMode) false false [] 0 0, w) in
    (let! _ := r in Ok s, w).

(** [OpenStore], with the deferred call of the observer. *)
Definition OpenStore (dir : path) (segmentMaxBytes maxBatchBytes indexIntervalBytes : Z)
    (flushMode : string) : M World Store := fun w =>
  let '(r, w) := open_store dir segmentMaxBytes maxBatchBytes indexIntervalBytes
                   flushMode w in
  (r, add_event (ObserveRecovery (is_ok r)) w).
