(* ===== verification/Retention.v ===== *)
(** * Retention (internal/storage/store.go)

    [Store_ApplyRetention] deletes closed segments from the old end, first by age and then
    by size; the first failure ends a loop and is part of the error that is returned. *)

From S2P Require Import Prelude FileSystem Model Format Segment Store.

(** [errors.Join] of the errors of several calls: nil when all are nil. *)
Definition join_errs (rs : list (res unit)) : res unit :=
  fold_left errors_join rs (Ok tt).

(** An error that os.IsNotExist accepts is dropped. *)
Definition unless_missing (r : res unit) : res unit :=
  match r with Err ErrNotExist => Ok tt | _ => r end.

(** [deleteSegmentAtIndex(0)]; the code only passes index 0. *)
Definition deleteOldestSegment : M (Store * World) unit := fun '(s, w) =>
  match st_segments s with
  | [] => (Panic, (s, w))
  | seg :: rest =>
    match fs_remove (seg_path seg) w with
    | (Ok _, w) =>
      let w := add_event SegmentDeleted w in
      let s := st_with_segments rest s in
      let s := match rest with
               | [] => s
               | first :: _ => st_with_earliestOffset (seg_baseOffset first) s
               end in
      let '(r1, w) := fs_remove (seg_indexPath seg) w in
      let '(r2, (_, w)) := Segment_Close (seg, w) in
      let '(r3, w) := fs_sync_dir (st_dir s) w in
      (join_errs [unless_missing r1; r2; r3], (s, w))
    | (Err e, w) => (Err e, (s, w))
    | (Panic, w) => (Panic, (s, w))
    end
  end.

(** [s.segments[0] == s.activeSegment]. *)
Definition oldest_is_active (s : Store) : bool :=
  (length (st_segments s) - 1 =? 0)%nat.

(** Lines 838-852: the sizes on disk, summed in uint64. *)
Fixpoint calculateTotalBytes (segs : list Segment) (total : Z) : M World Z :=
  match segs with
  | [] => ret total
  | seg :: segs =>
    let* logSize := fs_stat (seg_path seg) in
    let* indexSize := fs_stat (seg_indexPath seg) in
    calculateTotalBytes segs (u64 (total + u64 (i64 (logSize + indexSize))))
  end.

(** Lines 785-802: delete the expired closed segments, oldest first. The
    result lists the clean-up errors. *)
Fixpoint retain_by_age (fuel : nat) (cutoff : Z) : M (Store * World) (list error) :=
  let* s := get_obj in
  match fuel, st_segments s with
  | S fuel, oldest :: _ =>
    if (length (st_segments s) <=? 1)%nat then ret [] else
    if oldest_is_active s then ret [] else
    if seg_maxTimestamp oldest <=? cutoff then
      let* r := attempt deleteOldestSegment in
      match r with
      | Ok _ => retain_by_age fuel cutoff
      | Err e => ret [e]
      | Panic => panic
      end
    else ret []
  | _, _ => ret []
  end.

(** Lines 805-828: delete closed segments while the partition is too large. *)
Fixpoint retain_by_size (fuel : nat) (maxPartitionBytes : Z)
    : M (Store * World) (list error) :=
  let* s := get_obj in
  match fuel with
  | S fuel =>
    if (length (st_segments s) <=? 1)%nat then ret [] else
    let* t := attempt (io (calculateTotalBytes (st_segments s) 0)) in
    match t with
    | Ok totalBytes =>
      if totalBytes <=? maxPartitionBytes then ret [] else
      if oldest_is_active s then ret [] else
      let* r := attempt deleteOldestSegment in
      match r with
      | Ok _ => retain_by_size fuel maxPartitionBytes
      | Err e => ret [e]
      | Panic => panic
      end
    | Err e => ret [e]
    | Panic => panic
    end
  | O => ret []
  end.

(** [ApplyRetention] at the time [now] (nanoseconds since the epoch), with
    [maxAge] in nanoseconds. A loop deletes one segment per iteration and stops
    at one segment, so the number of segments bounds its iterations. *)
Definition Store_ApplyRetention (now maxAge maxPartitionBytes : Z)
    : M (Store * World) unit :=
  let* s := get_obj in
  if st_closed s || st_writeFailed s then ret tt else
  let cutoff := (now + i64 (- maxAge)) / 1000000 in
  let* errs1 := retain_by_age (length (st_segments s)) cutoff in
  let* s := get_obj in
  let* errs2 := retain_by_size (length (st_segments s)) maxPartitionBytes in
  do* updateGaugesLocked in
  match errs1 ++ errs2 with
  | [] => ret tt
  | _ => fail (Errorf "errors during retention cleanup")
  end.
