(* ===== verification/StoreInv.v ===== *)
(** * The invariant of the partition store

    A segment holds a sequence of batches: its log file is the concatenation of
    their encodings, its in-memory index points at batch starts, and so do the
    whole entries of its index file.  A store is a chain of such segments, each
    but the last one non-empty, that covers the offsets from [earliestOffset]
    up to [logEndOffset]. *)

From S2P Require Import Prelude FileSystem Names Crc32 Model Format Segment Store.
From Stdlib Require Import Init.Byte.

Abbreviation batch := (list StoredRecord).

(** ** Segments *)

Definition seg_content (bs : list batch) : bytes := concat (batch_bytes <$> bs).

(** Record [i] has offset [base + i]. *)
Definition contiguous (base : Z) (recs : list StoredRecord) : Prop :=
  ∀ i r, recs !! i = Some r → Offset r = base + Z.of_nat i.

(** The entry points at the start of one of the batches. *)
Definition entry_ok (bs : list batch) (e : IndexEntry) : Prop :=
  ∃ b1 b b2, bs = b1 ++ b :: b2
    ∧ Position e = blen (seg_content b1) ∧ RelativeOffset e = blen (concat b1).

(** The relative offset of every batch fits the 32-bit field of an index entry. *)
Definition rel_ok (bs : list batch) : Prop :=
  ∀ b1 b b2, bs = b1 ++ b :: b2 → blen (concat b1) <= MaxUint32.

(** An index file: whole entries up to the tracked size, then at most a part
    of one that a failed write left. *)
Definition index_file_ok (bs : list batch) (indexSize : Z) (d : bytes) : Prop :=
  ∃ es junk, d = concat (entry_bytes <$> es) ++ junk
    ∧ indexSize = 12 * blen es ∧ blen junk < 12 ∧ Forall (entry_ok bs) es.

Record seg_ok (F : gmap path file) (dir : path) (maxB : Z) (seg : Segment)
    (bs : list batch) : Prop := mkSegOk {
  so_path : seg_path seg = dir ++ [log_name (seg_baseOffset seg)];
  so_indexPath : seg_indexPath seg = dir ++ [index_name (seg_baseOffset seg)];
  so_file : data_at F (seg_path seg) = Some (seg_content bs);
  so_indexFile : ∃ d, data_at F (seg_indexPath seg) = Some d
                   ∧ index_file_ok bs (seg_indexSize seg) d;
  so_size : seg_size seg = blen (seg_content bs);
  so_small : seg_size seg < two63;
  so_encodable : Forall encodable bs;
  so_fits : Forall (fun b => blen (batch_bytes b) <= maxB) bs;
  so_contiguous : contiguous (seg_baseOffset seg) (concat bs);
  so_next : seg_nextOffset seg = seg_baseOffset seg + blen (concat bs);
  so_base : 0 <= seg_baseOffset seg;
  so_end : seg_nextOffset seg < two64;
  so_index : Forall (entry_ok bs) (seg_indexEntries seg);
  so_timestamps : Forall (fun r => Timestamp r <= seg_maxTimestamp seg) (concat bs);
  so_rel : rel_ok bs;
}.

(** ** Stores *)

(** The segments cover the offsets from [e] to [l]. *)
Fixpoint chain (e : Z) (segs : list Segment) (l : Z) : Prop :=
  match segs with
  | [] => e = l
  | s :: segs => seg_baseOffset s = e ∧ chain (seg_nextOffset s) segs l
  end.

(** The log files of the directory are those of the segments, and no index file
    carries a base offset above that of the active segment. *)
Definition files_ok (F : gmap path file) (dir : path) (bases : list Z) (last : Z) : Prop :=
  (∀ name b, is_Some (F !! (dir ++ [name])) → base_of_name name = Some b → b ∈ bases)
  ∧ (∀ b, last < b < two64 → F !! (dir ++ [index_name b]) = None).

(** [store_ok F s pc pa]: the closed segments hold the batches [pc], the active
    one [pa]. *)
Record store_ok (F : gmap path file) (s : Store) (pc : list (list batch))
    (pa : list batch) : Prop := mkStoreOk {
  ok_open : st_closed s = false;
  ok_healthy : st_writeFailed s = false;
  ok_segments : ∃ closed a, st_segments s = closed ++ [a]
    ∧ Forall2 (seg_ok F (st_dir s) (st_maxBatchBytes s)) closed pc
    ∧ seg_ok F (st_dir s) (st_maxBatchBytes s) a pa
    ∧ chain (st_earliestOffset s) (closed ++ [a]) (st_logEndOffset s)
    ∧ files_ok F (st_dir s) (seg_baseOffset <$> closed ++ [a]) (seg_baseOffset a);
  ok_nonempty : Forall (fun bs => bs ≠ []) pc;
  ok_maxBatch : st_maxBatchBytes s < two31;
  ok_segmentMax : st_segmentMaxBytes s < two63;
}.

(** ** Files on disk, with no store open on them

    After a failed write or a crash the last log file may end in part of a
    batch, and its index file may miss entries, end in part of one, or have
    entries for batches ([lost]) that did not reach the log file. *)

Definition index_disk_ok (bs : list batch) (d : bytes) : Prop :=
  ∃ es junk, d = concat (entry_bytes <$> es) ++ junk ∧ blen junk < 12
    ∧ Forall (entry_ok bs) es.

Record disk_seg (F : gmap path file) (dir : path) (maxB base : Z) (bs lost : list batch)
    (tail : bytes) : Prop := mkDiskSeg {
  ds_file : data_at F (dir ++ [log_name base]) = Some (seg_content bs ++ tail);
  ds_index : ∀ d, data_at F (dir ++ [index_name base]) = Some d →
               index_disk_ok (bs ++ lost) d;
  ds_small : blen (seg_content bs ++ tail) < two63;
  ds_encodable : Forall encodable bs;
  ds_fits : Forall (fun b => blen (batch_bytes b) <= maxB) bs;
  ds_contiguous : contiguous base (concat bs);
  ds_base : 0 <= base;
  ds_end : base + blen (concat bs) < two64;
  ds_rel : rel_ok (bs ++ lost);
  ds_lost : blen (seg_content (bs ++ lost)) < two63;
}.

(** The end of a log file: a proper part of the encoding of a batch. *)
Definition torn (maxB : Z) (tail : bytes) : Prop :=
  ∃ b n, encodable b ∧ blen (batch_bytes b) <= maxB
    ∧ (n < length (batch_bytes b))%nat ∧ tail = take n (batch_bytes b).

Fixpoint disk_chain (F : gmap path file) (dir : path) (maxB e : Z)
    (pc : list (list batch)) (m : Z) : Prop :=
  match pc with
  | [] => e = m
  | bs :: pc =>
    disk_seg F dir maxB e bs [] [] ∧ bs ≠ []
    ∧ disk_chain F dir maxB (e + blen (concat bs)) pc m
  end.

Fixpoint disk_bases (e : Z) (pc : list (list batch)) : list Z :=
  match pc with
  | [] => [e]
  | bs :: pc => e :: disk_bases (e + blen (concat bs)) pc
  end.

Record disk_ok (F : gmap path file) (dir : path) (maxB e : Z) (pc : list (list batch))
    (pa lost : list batch) (tail : bytes) : Prop := mkDiskOk {
  do_chain : ∃ m, disk_chain F dir maxB e pc m ∧ disk_seg F dir maxB m pa lost tail
               ∧ files_ok F dir (disk_bases e pc) m;
  do_torn : tail = [] ∨ torn maxB tail;
}.

(** What a crash cannot take: the log files of the closed segments are durable, and
    so are the first batches of the active one; [d] is an offset up to which every
    record stands in these batches. *)
Fixpoint chain_durable (F : gmap path file) (dir : path) (e : Z) (pc : list (list batch))
    (pa : list batch) (d : Z) : Prop :=
  match pc with
  | [] => ∃ j, durable F (dir ++ [log_name e]) (length (seg_content (take j pa)))
            ∧ d <= e + blen (concat (take j pa))
  | bs :: pc => durable F (dir ++ [log_name e]) (length (seg_content bs))
      ∧ chain_durable F dir (e + blen (concat bs)) pc pa d
  end.

(** The base offset of the active segment. *)
Definition active_base (e : Z) (pc : list (list batch)) : Z := e + blen (concat (concat pc)).

(** The records of the store, in offset order. *)
Definition store_records (pc : list (list batch)) (pa : list batch) : list StoredRecord :=
  concat (concat pc ++ pa).

(** ** Lemmas on batches and positions *)

Lemma seg_content_app b1 b2 : seg_content (b1 ++ b2) = seg_content b1 ++ seg_content b2.
Proof. unfold seg_content. by rewrite concat_fmap_app. Qed.
Lemma seg_content_one b : seg_content [b] = batch_bytes b.
Proof. unfold seg_content. simpl. by rewrite app_nil_r. Qed.
Lemma seg_content_cons b bs : seg_content (b :: bs) = batch_bytes b ++ seg_content bs.
Proof. apply concat_fmap_cons. Qed.

Lemma batch_bytes_lower b : 33 <= blen (batch_bytes b).
Proof.
  rewrite blen_batch_bytes. pose proof (records_payload_size_lower b).
  pose proof (blen_nonneg b). unfold BatchHeaderSize. lia.
Qed.

Lemma entry_ok_app bs bs' e : entry_ok bs e → entry_ok (bs ++ bs') e.
Proof.
  intros (b1 & b & b2 & -> & ? & ?). exists b1, b, (b2 ++ bs').
  by rewrite <- app_assoc.
Qed.

Lemma entry_ok_end bs b :
  entry_ok (bs ++ [b]) (mkIndexEntry (blen (concat bs)) (blen (seg_content bs))).
Proof. by exists bs, b, []. Qed.

Lemma rel_ok_nil : rel_ok [].
Proof. intros [|? ?] b b2 H; done. Qed.

Lemma rel_ok_snoc bs b : rel_ok bs → blen (concat bs) <= MaxUint32 → rel_ok (bs ++ [b]).
Proof.
  intros Hr Hl b1 x b2 Heq. destruct b2 as [|y b2 _] using rev_ind.
  - by apply app_inj_tail in Heq as [<- _].
  - rewrite app_comm_cons, app_assoc in Heq. apply app_inj_tail in Heq as [Heq _]. eauto.
Qed.

Lemma rel_ok_prefix bs bs' : rel_ok (bs ++ bs') → rel_ok bs.
Proof. intros Hr b1 b b2 ->. eapply (Hr b1 b (b2 ++ bs')). by rewrite <- app_assoc. Qed.

Lemma index_file_ok_app bs bs' n d : index_file_ok bs n d → index_file_ok (bs ++ bs') n d.
Proof.
  intros (es & junk & ? & ? & ? & H). exists es, junk. split_and!; try done.
  eapply Forall_impl; [exact H|]. intros e. apply entry_ok_app.
Qed.

Lemma index_file_disk_ok bs n d : index_file_ok bs n d → index_disk_ok bs d.
Proof. intros (es & junk & ? & ? & ? & H). by exists es, junk. Qed.

Lemma blen_entry_bytes e : blen (entry_bytes e) = 12.
Proof. unfold entry_bytes. by autorewrite with blen. Qed.

Lemma blen_entries es : blen (concat (entry_bytes <$> es)) = 12 * blen es.
Proof.
  induction es as [|e es IH]; [done|].
  rewrite concat_fmap_cons, blen_app, blen_cons, IH, blen_entry_bytes. lia.
Qed.

Lemma contiguous_app base l k :
  contiguous base (l ++ k) ↔ contiguous base l ∧ contiguous (base + blen l) k.
Proof.
  unfold contiguous. rewrite blen_eq. split.
  - intros H. split; intros i r Hi.
    + apply H. by apply lookup_app_l_Some.
    + assert ((l ++ k) !! (length l + i)%nat = Some r) as Hi'
        by (by rewrite lookup_app_r, Nat.add_comm, Nat.add_sub by lia).
      apply H in Hi'. lia.
  - intros [H1 H2] i r Hi. apply lookup_app_Some in Hi as [Hi|[Hl Hi]]; [auto|].
    apply H2 in Hi. lia.
Qed.

Lemma contiguous_nil base : contiguous base [].
Proof. intros i r Hi. by rewrite lookup_nil in Hi. Qed.

Lemma contiguous_offsets base l r :
  contiguous base l → r ∈ l → base <= Offset r < base + blen l.
Proof.
  intros H (i & Hi)%list_elem_of_lookup. pose proof (lookup_lt_Some _ _ _ Hi).
  apply H in Hi. rewrite blen_eq. lia.
Qed.

(** ** The first bytes of an encoded batch *)

Lemma batch_prefix9 b :
  encodable b → ∃ h rest, batch_bytes b = h ++ rest ∧ blen h = 9
  ∧ slice h 0 4 = Ok MagicBytes ∧ slice h 4 5 = Ok [FormatVersion1]
  ∧ Uint32_at h 5 = Ok (blen (batch_bytes b) - 9).
Proof.
  intros He. pose proof (batch_length_field b He) as Hl.
  assert (blen MagicBytes = 4) as Hm by done.
  exists (MagicBytes ++ [FormatVersion1]
          ++ be_put 4 (u32 (BatchHeaderSize + records_payload_size b - 9))).
  eexists. unfold batch_bytes at 1. rewrite blen_batch_bytes. split; [by rewrite <- !app_assoc|].
  split; [|split; [|split]].
  - blen_lia.
  - by apply (slice_app_r []).
  - apply (slice_app_r MagicBytes); [done|blen_lia].
  - pose proof (Uint32_at_app (MagicBytes ++ [FormatVersion1]) []
      5 (u32 (BatchHeaderSize + records_payload_size b - 9)) eq_refl) as Hu.
    rewrite app_nil_r, <- app_assoc in Hu. rewrite Hu. f_equal.
    rewrite u32_small; rewrite u32_small; lia.
Qed.

Lemma batch_prefix33 b :
  encodable b → ∃ h rest, batch_bytes b = h ++ rest ∧ blen h = 33
  ∧ Uint32_at h 5 = Ok (blen (batch_bytes b) - 9)
  ∧ Uint64_at h 13 = Ok (u64 (batch_base b))
  ∧ Uint64_at h 25 = Ok (u64 (batch_max_timestamp b)).
Proof.
  intros He. pose proof (batch_length_field b He) as Hl.
  set (l := be_put 4 (u32 (BatchHeaderSize + records_payload_size b - 9))).
  set (crc := be_put 4 (ChecksumIEEE (body_bytes b))).
  set (cnt := be_put 4 (u32 (blen b))).
  set (ts := be_put 8 (u64 (batch_max_timestamp b))).
  exists (MagicBytes ++ [FormatVersion1] ++ l ++ crc ++ be_put 8 (batch_base b) ++ cnt ++ ts).
  exists (records_bytes b). unfold batch_bytes at 1. rewrite blen_batch_bytes.
  assert (blen MagicBytes = 4) as Hm by done.
  assert (blen l = 4 ∧ blen crc = 4 ∧ blen cnt = 4 ∧ blen ts = 8) as (H1 & H2 & H3 & H4)
    by (unfold l, crc, cnt, ts; by rewrite !blen_be_put).
  split; [unfold body_bytes; by rewrite <- !app_assoc|].
  split; [rewrite !blen_app, !blen_be_put, blen_cons, blen_nil; lia|]. split; [|split].
  - pose proof (Uint32_at_app (MagicBytes ++ [FormatVersion1]) (crc ++ be_put 8 (batch_base b) ++ cnt ++ ts)
      5 (u32 (BatchHeaderSize + records_payload_size b - 9)) eq_refl) as Hu.
    rewrite <- app_assoc in Hu. fold l in Hu. rewrite Hu. f_equal. rewrite u32_small; rewrite u32_small; lia.
  - pose proof (Uint64_at_app (MagicBytes ++ [FormatVersion1] ++ l ++ crc) (cnt ++ ts)
      13 (batch_base b)) as Hu.
    rewrite <- !app_assoc in Hu. apply Hu. rewrite !blen_app, blen_cons, blen_nil. lia.
  - pose proof (Uint64_at_app (MagicBytes ++ [FormatVersion1] ++ l ++ crc ++ be_put 8 (batch_base b) ++ cnt)
      [] 25 (u64 (batch_max_timestamp b))) as Hu.
    rewrite <- !app_assoc, app_nil_r in Hu. fold ts in Hu. rewrite Hu.
    + f_equal. rewrite u64_small; [done|apply u64_range].
    + rewrite !blen_app, blen_cons, blen_nil, blen_be_put. lia.
Qed.

(** Where a batch stands in the file of its segment. *)
Lemma batch_at b1 b b2 tail :
  at_off (seg_content (b1 ++ b :: b2) ++ tail) (blen (seg_content b1)) (batch_bytes b).
Proof.
  rewrite seg_content_app, seg_content_cons, <- !app_assoc. apply at_off_intro.
Qed.

(** ** Frames *)

Lemma seg_ok_frame F F' dir maxB seg bs :
  seg_ok F dir maxB seg bs →
  data_at F' (seg_path seg) = data_at F (seg_path seg) →
  data_at F' (seg_indexPath seg) = data_at F (seg_indexPath seg) →
  seg_ok F' dir maxB seg bs.
Proof.
  intros [] Hp Hi. by split; rewrite ?Hp, ?Hi.
Qed.

Lemma log_index_path_ne dir a b : dir ++ [log_name a] ≠ dir ++ [index_name b].
Proof.
  intros Heq%(f_equal list.last). rewrite !last_snoc in Heq.
  by apply (inj Some), log_name_index_name in Heq.
Qed.
Lemma log_path_inj dir a b :
  0 <= a < two64 → 0 <= b < two64 → dir ++ [log_name a] = dir ++ [log_name b] → a = b.
Proof.
  intros Ha Hb Heq%(f_equal list.last). rewrite !last_snoc in Heq.
  by apply (inj Some), log_name_inj in Heq.
Qed.
Lemma index_path_inj dir a b :
  0 <= a < two64 → 0 <= b < two64 → dir ++ [index_name a] = dir ++ [index_name b] → a = b.
Proof.
  intros Ha Hb Heq%(f_equal list.last). rewrite !last_snoc in Heq.
  by apply (inj Some), index_name_inj in Heq.
Qed.

(** Changing the two files of base offset [b] keeps every other segment. *)
Lemma seg_ok_other F F' dir maxB seg bs b :
  seg_ok F dir maxB seg bs → 0 <= b < two64 → seg_baseOffset seg ≠ b →
  (∀ p, p ≠ dir ++ [log_name b] → p ≠ dir ++ [index_name b] →
     data_at F' p = data_at F p) →
  seg_ok F' dir maxB seg bs.
Proof.
  intros Hs Hb Hne HF. pose proof Hs as [Hp Hi _ _ _ _ _ _ _ Hn H0 He _ _].
  pose proof (blen_nonneg (concat bs)).
  apply (seg_ok_frame F); [done|..]; apply HF; rewrite ?Hp, ?Hi;
    try apply log_index_path_ne; try (intros Heq; symmetry in Heq;
      by apply log_index_path_ne in Heq).
  - intros Heq. apply Hne, (log_path_inj dir); [lia|done..].
  - intros Heq. apply Hne, (index_path_inj dir); [lia|done..].
Qed.

Lemma chain_app e s1 s2 l :
  chain e (s1 ++ s2) l ↔ ∃ m, chain e s1 m ∧ chain m s2 l.
Proof.
  revert e. induction s1 as [|s s1 IH]; intros e; simpl.
  - split; [eauto|]. by intros (m & -> & ?).
  - rewrite IH. split; [intros (? & m & ? & ?)|intros (m & [? ?] & ?)]; eauto.
Qed.

(** Every closed segment starts below the active one. *)
Lemma chain_bases_lt F dir maxB closed pc e m :
  Forall2 (seg_ok F dir maxB) closed pc → Forall (fun bs => bs ≠ []) pc →
  chain e closed m →
  e <= m ∧ Forall (fun s => seg_baseOffset s < m) closed.
Proof.
  intros H. revert e. induction H as [|s bs closed pc Hs Hc IH]; intros e Hne Hch.
  - simpl in Hch. split; [lia|constructor].
  - inversion Hne as [|? ? Hbs Hpc]; subst. destruct Hch as [Hb Hch].
    destruct (IH _ Hpc Hch) as [Hle Hlt].
    assert (0 < blen (concat bs)) as Hpos.
    { destruct bs as [|b bs]; [done|]. pose proof (so_encodable _ _ _ _ _ Hs) as He.
      inversion He as [|? ? Hb0]; subst. destruct Hb0 as [Hb0 _ _ _].
      destruct b as [|r b]; [done|]. simpl. rewrite blen_cons. blen_lia. }
    pose proof (so_next _ _ _ _ _ Hs). split; [lia|]. constructor; [lia|done].
Qed.

(** ** Durability *)

Definition log_path (dir p : path) : Prop := ∃ b, p = dir ++ [log_name b].

Lemma active_base_cons e bs pc : active_base e (bs :: pc) = active_base (e + blen (concat bs)) pc.
Proof. unfold active_base. simpl. rewrite concat_app, blen_app. lia. Qed.

Lemma chain_durable_grows F F' dir e pc pa d :
  chain_durable F dir e pc pa d → grows (log_path dir) F F' → chain_durable F' dir e pc pa d.
Proof.
  intros Hd Hg. revert e Hd. induction pc as [|bs pc IH]; intros e; simpl.
  - intros (j & Hj & Hle). exists j. split; [|done]. apply Hg; [by eexists|done].
  - intros [Hb Hd]. split; [|auto]. apply Hg; [by eexists|done].
Qed.

Lemma chain_durable_extend F dir e pc pa pa' d :
  chain_durable F dir e pc pa d → chain_durable F dir e pc (pa ++ pa') d.
Proof.
  revert e. induction pc as [|bs pc IH]; intros e; simpl; [|by intros [? ?%IH]].
  intros (j & Hj & Hle). exists (min j (length pa)).
  rewrite take_app_le by lia. destruct (Nat.le_ge_cases j (length pa)).
  - by rewrite Nat.min_l.
  - rewrite Nat.min_r, firstn_all by done. by rewrite take_ge in Hj, Hle.
Qed.

(** A durable active segment can be closed, and then the next one is empty. *)
Lemma chain_durable_roll F dir e pc pa d :
  chain_durable F dir e pc pa d →
  durable F (dir ++ [log_name (active_base e pc)]) (length (seg_content pa)) →
  is_Some (F !! (dir ++ [log_name (active_base e (pc ++ [pa]))])) →
  chain_durable F dir e (pc ++ [pa]) [] d.
Proof.
  revert e. induction pc as [|bs pc IH]; intros e; simpl.
  - rewrite active_base_cons. unfold active_base. simpl. rewrite blen_nil, !Z.add_0_r.
    intros (j & _ & Hle) Hd [f Hf]. split; [done|]. exists 0%nat. simpl. split.
    + exists f. split; [done|]. simpl. lia.
    + rewrite blen_nil. rewrite <- (take_drop j pa), concat_app, blen_app. blen_lia.
  - rewrite !active_base_cons. intros [Hb Hd] H1 H2. auto.
Qed.

(** When the active log file is durable, so is the whole log. *)
Lemma chain_durable_all F dir e pc pa d :
  chain_durable F dir e pc pa d →
  durable F (dir ++ [log_name (active_base e pc)]) (length (seg_content pa)) →
  chain_durable F dir e pc pa (e + blen (store_records pc pa)).
Proof.
  unfold store_records. revert e. induction pc as [|bs pc IH]; intros e; simpl.
  - unfold active_base. simpl. rewrite blen_nil, Z.add_0_r. intros _ Hd. exists (length pa).
    rewrite firstn_all. split; [done|lia].
  - rewrite active_base_cons. intros [Hb Hd] H1. split; [done|].
    rewrite <- app_assoc, concat_app, blen_app, Z.add_assoc. auto.
Qed.

Lemma chain_durable_weaken F dir e pc pa d d' :
  chain_durable F dir e pc pa d → d' <= d → chain_durable F dir e pc pa d'.
Proof.
  intros Hd Hle. revert e Hd. induction pc as [|bs pc IH]; intros e; simpl; [|by intros [? ?%IH]].
  intros (j & Hj & H). exists j. split; [done|lia].
Qed.

Lemma chain_durable_le F dir e pc pa d :
  chain_durable F dir e pc pa d → d <= e + blen (store_records pc pa).
Proof.
  unfold store_records. revert e. induction pc as [|bs pc IH]; intros e; simpl.
  - intros (j & _ & Hle). rewrite <- (take_drop j pa), concat_app, blen_app. blen_lia.
  - intros [_ Hd%IH]. rewrite <- app_assoc, concat_app, blen_app. lia.
Qed.
