(* ===== verification/StoreAppend.v ===== *)
(** * Append keeps the invariant and extends the log

    The steps of [Store_Append] - stamping, rolling, writing, indexing, flushing - are
    specified one by one under any schedule of failures, with what stays durable, and
    composed. *)

From S2P Require Import Prelude FileSystem Names Crc32 Model Format Segment Store StoreInv.
From Stdlib Require Import Init.Byte.

(** ** The batch that Append builds *)

Lemma stamp_cons base ts r rs :
  stamp base ts (r :: rs)
  = mkStoredRecord (u64 (base + 0)) ts (r_Key r) (r_Value r) (r_Headers r)
    :: stamp (base + 1) ts rs.
Proof.
  unfold stamp. rewrite imap_cons. f_equal. apply imap_ext. intros i x _. simpl.
  do 2 f_equal. lia.
Qed.

Lemma length_stamp base ts rs : length (stamp base ts rs) = length rs.
Proof. unfold stamp. apply length_imap. Qed.

Lemma stamp_offsets base ts rs i r :
  0 <= base → base + blen rs < two64 → stamp base ts rs !! i = Some r →
  Offset r = base + Z.of_nat i ∧ Timestamp r = ts ∧ (i < length rs)%nat.
Proof.
  intros Hb Hn Hi. pose proof (lookup_lt_Some _ _ _ Hi) as Hl. rewrite length_stamp in Hl.
  unfold stamp in Hi. rewrite list_lookup_imap in Hi.
  destruct (rs !! i) as [c|]; [|done]. injection Hi as <-. simpl.
  rewrite blen_eq in Hn. rewrite u64_small by lia. auto.
Qed.

Lemma contiguous_stamp base ts rs :
  0 <= base → base + blen rs < two64 → contiguous base (stamp base ts rs).
Proof. intros Hb Hn i r Hi. by apply stamp_offsets in Hi as (? & _). Qed.

Lemma batch_base_stamp base ts rs :
  rs ≠ [] → 0 <= base < two64 → batch_base (stamp base ts rs) = base.
Proof.
  intros Hne Hb. destruct rs as [|r rs]; [done|]. rewrite stamp_cons. simpl.
  rewrite Z.add_0_r. by apply u64_small.
Qed.

Lemma stamp_timestamps base ts rs : Forall (fun r => Timestamp r = ts) (stamp base ts rs).
Proof.
  revert base. induction rs as [|r rs IH]; intros base; [constructor|].
  rewrite stamp_cons. by constructor.
Qed.

Lemma batch_max_timestamp_stamp base ts rs :
  rs ≠ [] → batch_max_timestamp (stamp base ts rs) = Z.max 0 ts.
Proof.
  intros Hne. pose proof (max_timestamp_fold (stamp base ts rs) 0) as (H0 & Hall & Hex).
  change (fold_left _ _ _) with (batch_max_timestamp (stamp base ts rs)) in H0, Hall, Hex.
  pose proof (stamp_timestamps base ts rs) as Hts.
  assert (ts <= batch_max_timestamp (stamp base ts rs)) as Hle.
  { destruct rs as [|r rs]; [done|]. rewrite stamp_cons in *.
    inversion Hall; subst. done. }
  destruct Hex as [Hex|Hex]; [lia|]. apply Exists_exists in Hex as (r & Hr & Heq).
  rewrite Forall_forall in Hts. rewrite (Hts r Hr) in Heq. lia.
Qed.

(** A record of the batch is no larger than the batch. *)
Lemma record_size_le recs r :
  r ∈ recs → olen (Key r) + olen (Value r) <= records_payload_size recs.
Proof.
  rewrite (records_payload_size_blen 0 0). induction 1 as [r rs|r x rs Hr IH];
    rewrite concat_fmap_cons, blen_app.
  - unfold record_bytes. rewrite !blen_app, !blen_nullable_bytes. blen_lia.
  - pose proof (blen_nonneg (record_bytes 0 0 x)). lia.
Qed.

Lemma encodable_stamp base ts rs :
  rs ≠ [] → 0 <= base → base + blen rs < two64 → - two63 < ts < two63 →
  blen (batch_bytes (stamp base ts rs)) < two31 → encodable (stamp base ts rs).
Proof.
  intros Hne Hb Hn Hts Hsz. rewrite blen_batch_bytes in Hsz.
  pose proof (blen_nonneg rs).
  pose proof (records_payload_size_lower (stamp base ts rs)) as Hlow.
  rewrite (blen_eq (stamp base ts rs)), length_stamp, <- blen_eq in Hlow.
  unfold BatchHeaderSize in *. split.
  - intros Heq. apply (f_equal length) in Heq. rewrite length_stamp in Heq. by destruct rs.
  - unfold BatchHeaderSize. lia.
  - rewrite batch_max_timestamp_stamp by done. lia.
  - rewrite batch_base_stamp, batch_max_timestamp_stamp by (done || lia).
    rewrite Forall_forall. intros r Hr. pose proof (record_size_le _ _ Hr) as Hk.
    pose proof (olen_nonneg (Key r)). pose proof (olen_nonneg (Value r)).
    apply list_elem_of_lookup in Hr as [i Hi].
    apply stamp_offsets in Hi as (Ho & Ht & Hi); [|lia..].
    unfold record_fits. rewrite Ho, Ht. rewrite blen_eq in *.
    rewrite (u64_small (base + Z.of_nat i - base)) by lia. lia.
Qed.

(** ** Working on the active segment *)

Lemma set_last_snoc closed a a' : set_last (closed ++ [a]) a' = closed ++ [a'].
Proof.
  unfold set_last. rewrite length_app. simpl. by rewrite Nat.add_sub, take_app_length.
Qed.

Lemma on_active_snoc {A} (m : M (Segment * World) A) s w closed a r a' w' :
  st_segments s = closed ++ [a] → m (a, w) = (r, (a', w')) →
  on_active m (s, w) = (r, (st_with_segments (closed ++ [a']) s, w')).
Proof.
  intros Hs Hm. unfold on_active. rewrite Hs, last_snoc, Hm. by rewrite set_last_snoc.
Qed.

Lemma on_active_inv {A} (m : M (Segment * World) A) s w closed a r s' w' :
  st_segments s = closed ++ [a] → on_active m (s, w) = (r, (s', w')) →
  ∃ a', m (a, w) = (r, (a', w')) ∧ s' = st_with_segments (closed ++ [a']) s.
Proof.
  intros Hs H. destruct (m (a, w)) as [r0 [a' w0]] eqn:E.
  rewrite (on_active_snoc m s w closed a r0 a' w0) in H by done.
  injection H as <- <- <-. eauto.
Qed.

Lemma on_active_get s w closed a :
  st_segments s = closed ++ [a] → on_active get_obj (s, w) = (Ok a, (s, w)).
Proof.
  intros Hs. rewrite (on_active_snoc _ s w closed a (Ok a) a w) by done.
  unfold st_with_segments. rewrite <- Hs. by destruct s.
Qed.

(** The fields that only OpenStore sets. *)
Record same_cfg (s s' : Store) : Prop := mkSameCfg {
  sc_dir : st_dir s' = st_dir s;
  sc_segmentMax : st_segmentMaxBytes s' = st_segmentMaxBytes s;
  sc_maxBatch : st_maxBatchBytes s' = st_maxBatchBytes s;
  sc_interval : st_indexIntervalBytes s' = st_indexIntervalBytes s;
  sc_flush : st_flushMode s' = st_flushMode s;
  sc_closed : st_closed s' = st_closed s;
  sc_earliest : st_earliestOffset s' = st_earliestOffset s;
}.

Lemma same_cfg_refl s : same_cfg s s.
Proof. by split. Qed.
Lemma same_cfg_trans s1 s2 s3 : same_cfg s1 s2 → same_cfg s2 s3 → same_cfg s1 s3.
Proof. intros [] []. split; congruence. Qed.

(** The configuration of the store. *)
Record same_conf (s s' : Store) : Prop := mkSameConf {
  cf_dir : st_dir s' = st_dir s;
  cf_segmentMax : st_segmentMaxBytes s' = st_segmentMaxBytes s;
  cf_maxBatch : st_maxBatchBytes s' = st_maxBatchBytes s;
  cf_interval : st_indexIntervalBytes s' = st_indexIntervalBytes s;
  cf_flush : st_flushMode s' = st_flushMode s;
}.

Lemma same_conf_refl s : same_conf s s.
Proof. by split. Qed.
Lemma same_conf_trans s1 s2 s3 : same_conf s1 s2 → same_conf s2 s3 → same_conf s1 s3.
Proof. intros [] []. split; congruence. Qed.
Lemma same_cfg_conf s s' : same_cfg s s' → same_conf s s'.
Proof. intros []. by split. Qed.

Lemma store_ok_segments F s pc pa closed a :
  store_ok F s pc pa → st_segments s = closed ++ [a] →
  Forall2 (seg_ok F (st_dir s) (st_maxBatchBytes s)) closed pc
  ∧ seg_ok F (st_dir s) (st_maxBatchBytes s) a pa
  ∧ chain (st_earliestOffset s) (closed ++ [a]) (st_logEndOffset s)
  ∧ files_ok F (st_dir s) (seg_baseOffset <$> closed ++ [a]) (seg_baseOffset a).
Proof.
  intros [_ _ (cl & x & Hs & H) _ _ _] Hs'. rewrite Hs in Hs'.
  by apply app_inj_tail in Hs' as [<- <-].
Qed.

Lemma chain_last e closed a l : chain e (closed ++ [a]) l →
  chain e closed (seg_baseOffset a) ∧ l = seg_nextOffset a.
Proof. rewrite chain_app. simpl. intros (m & ? & <- & <-). auto. Qed.

Lemma closed_below F s pc pa closed a :
  store_ok F s pc pa → st_segments s = closed ++ [a] →
  Forall (fun c => 0 <= seg_baseOffset c < seg_baseOffset a) closed.
Proof.
  intros Hok Hs. destruct (store_ok_segments _ _ _ _ _ _ Hok Hs) as (Hc & Ha & Hch & _).
  apply chain_last in Hch as [Hch _].
  apply (chain_bases_lt _ _ _ _ _ _ _ Hc (ok_nonempty _ _ _ _ Hok)) in Hch as [_ Hlt].
  assert (Forall (fun c => 0 <= seg_baseOffset c) closed) as H0.
  { eapply Forall2_Forall_l; [exact Hc|]. apply Forall_true. intros bs c Hcs.
    by destruct Hcs. }
  apply (Forall_and (fun c => 0 <= seg_baseOffset c)). auto.
Qed.

Lemma Forall2_closed_frame F F' dir maxB closed pc b :
  Forall2 (seg_ok F dir maxB) closed pc → 0 <= b < two64 →
  Forall (fun c => seg_baseOffset c ≠ b) closed →
  (∀ p, p ≠ dir ++ [log_name b] → p ≠ dir ++ [index_name b] →
     data_at F' p = data_at F p) →
  Forall2 (seg_ok F' dir maxB) closed pc.
Proof.
  intros Hc Hb Hne HF. induction Hc as [|c bs closed pc Hcs Hc IH]; [constructor|].
  inversion Hne; subst. constructor; [by eapply seg_ok_other|auto].
Qed.

Lemma data_at_is_Some F p : is_Some (F !! p) ↔ is_Some (data_at F p).
Proof. unfold data_at. by rewrite fmap_is_Some. Qed.

Lemma seg_ok_range F dir maxB seg bs :
  seg_ok F dir maxB seg bs → 0 <= seg_baseOffset seg < two64.
Proof. intros []. pose proof (blen_nonneg (concat bs)). lia. Qed.

Lemma files_ok_mono F F' dir bases m :
  files_ok F dir bases m → (∀ p, is_Some (F' !! p) → is_Some (F !! p)) →
  files_ok F' dir bases m.
Proof.
  intros [Hn Hi] Hdom. split; [eauto|]. intros b Hb. specialize (Hi b Hb).
  apply eq_None_not_Some. intros Hs%Hdom. rewrite Hi in Hs. by destruct Hs.
Qed.

(** Changing the data of the two files of the active segment. *)
Lemma active_frame F F' s pc pa closed a :
  store_ok F s pc pa → st_segments s = closed ++ [a] →
  (∀ p, p ≠ seg_path a → p ≠ seg_indexPath a → data_at F' p = data_at F p) →
  Forall2 (seg_ok F' (st_dir s) (st_maxBatchBytes s)) closed pc
  ∧ chain (st_earliestOffset s) closed (seg_baseOffset a)
  ∧ files_ok F' (st_dir s) (seg_baseOffset <$> closed ++ [a]) (seg_baseOffset a).
Proof.
  intros Hok Hs HF.
  destruct (store_ok_segments _ _ _ _ _ _ Hok Hs) as (Hc & Ha & Hch & Hfiles).
  pose proof (closed_below _ _ _ _ _ _ Hok Hs) as Hlt.
  pose proof (so_path _ _ _ _ _ Ha) as Hpa. pose proof (so_indexPath _ _ _ _ _ Ha) as Hia.
  split_and!.
  - apply (Forall2_closed_frame F _ _ _ _ _ (seg_baseOffset a)); [done| | |].
    + by eapply seg_ok_range.
    + eapply Forall_impl; [exact Hlt|]. simpl. intros; lia.
    + by rewrite <- Hpa, <- Hia.
  - by apply chain_last in Hch as [? _].
  - apply (files_ok_mono F); [done|]. intros p. rewrite !data_at_is_Some.
    destruct (decide (p = seg_path a)) as [->|Hp1].
    { intros _. by rewrite (so_file _ _ _ _ _ Ha). }
    destruct (decide (p = seg_indexPath a)) as [->|Hp2]; [|by rewrite HF].
    intros _. by destruct (so_indexFile _ _ _ _ _ Ha) as (d & -> & _).
Qed.

(** Replacing the active segment and the data of its two files. *)
Lemma store_ok_update F F' s s' closed a a' pc pa pa' :
  store_ok F s pc pa → st_segments s = closed ++ [a] →
  (∀ p, p ≠ seg_path a → p ≠ seg_indexPath a → data_at F' p = data_at F p) →
  seg_ok F' (st_dir s) (st_maxBatchBytes s) a' pa' →
  seg_baseOffset a' = seg_baseOffset a →
  same_cfg s s' → st_writeFailed s' = false → st_segments s' = closed ++ [a'] →
  st_logEndOffset s' = seg_nextOffset a' →
  store_ok F' s' pc pa'.
Proof.
  intros Hok Hs HF Ha' Hbase Hcfg Hwf Hs' Hlog.
  destruct (active_frame _ F' _ _ _ _ _ Hok Hs HF) as (Hc & Hch & Hfiles).
  destruct Hcfg as [Hdir Hsm Hmb _ _ Hcl Her]. destruct Hok as [Hop _ _ Hne Hm1 Hm2].
  split; rewrite ?Hdir, ?Hsm, ?Hmb; try congruence.
  exists closed, a'. split_and!; [done..| |].
  - rewrite chain_app, Her. exists (seg_baseOffset a). simpl. auto.
  - rewrite fmap_app in *. simpl in *. by rewrite Hbase.
Qed.

(** Setting a flag or the maximum timestamp keeps a segment well-formed. *)
Lemma seg_ok_active F dir maxB seg bs b :
  seg_ok F dir maxB seg bs → seg_ok F dir maxB (seg_with_active b seg) bs.
Proof. by intros []. Qed.
Lemma seg_ok_dirty F dir maxB seg bs b :
  seg_ok F dir maxB seg bs → seg_ok F dir maxB (seg_with_indexDirty b seg) bs.
Proof. by intros []. Qed.

Lemma seg_ok_files F dir maxB seg bs :
  seg_ok F dir maxB seg bs →
  ∃ f g, F !! seg_path seg = Some f ∧ fdata f = seg_content bs
    ∧ F !! seg_indexPath seg = Some g ∧ index_file_ok bs (seg_indexSize seg) (fdata g)
    ∧ seg_path seg ≠ seg_indexPath seg.
Proof.
  intros [Hp Hi Hf (d & Hd & Hix) _ _ _ _ _ _ _ _ _ _].
  apply data_at_Some in Hf as [k Hf]. apply data_at_Some in Hd as [k' Hd].
  do 2 eexists. split_and!; try done. rewrite Hp, Hi. apply log_index_path_ne.
Qed.

(** ** What is on disk *)

(** What was durable in [F] with the batches [pc], [pa] still is in [F'] with [pc'],
    [pa']. *)
Definition carries (F F' : gmap path file) (s : Store) (pc : list (list batch)) (pa : list batch)
    (pc' : list (list batch)) (pa' : list batch) : Prop :=
  ∀ d, chain_durable F (st_dir s) (st_earliestOffset s) pc pa d →
       chain_durable F' (st_dir s) (st_earliestOffset s) pc' pa' d.

Lemma carries_trans F F1 F2 s pc pa pc1 pa1 pc2 pa2 :
  carries F F1 s pc pa pc1 pa1 → carries F1 F2 s pc1 pa1 pc2 pa2 → carries F F2 s pc pa pc2 pa2.
Proof. intros H1 H2 d Hd. auto. Qed.
Lemma carries_grows F F' s pc pa :
  grows (log_path (st_dir s)) F F' → carries F F' s pc pa pc pa.
Proof. intros Hg d Hd. by eapply chain_durable_grows. Qed.

(** The files of the store's directory hold exactly the records [recs], up to a torn
    tail and index entries that recovery discards, and nothing durable is lost. *)
Definition kept_on_disk (F F' : gmap path file) (s : Store) (pc : list (list batch))
    (pa : list batch) (recs : list StoredRecord) : Prop :=
  ∃ pc' pa' lost tail,
    disk_ok F' (st_dir s) (st_maxBatchBytes s) (st_earliestOffset s) pc' pa' lost tail
    ∧ store_records pc' pa' = recs ∧ carries F F' s pc pa pc' pa'.

Lemma kept_on_disk_trans F F1 F2 s pc pa pc1 pa1 recs :
  carries F F1 s pc pa pc1 pa1 → kept_on_disk F1 F2 s pc1 pa1 recs →
  kept_on_disk F F2 s pc pa recs.
Proof.
  intros Hc (pc2 & pa2 & lost & tail & Hd & Hr & Hc2). exists pc2, pa2, lost, tail.
  split; [done|]. split; [done|]. by eapply carries_trans.
Qed.

Lemma seg_ok_disk F dir maxB seg bs :
  seg_ok F dir maxB seg bs → disk_seg F dir maxB (seg_baseOffset seg) bs [] [].
Proof.
  intros [Hp Hi Hf (d & Hd & Hix) Hsz Hsm He Hfit Hc Hn H0 Hend _ _ Hrel].
  rewrite Hp in Hf. rewrite Hi in Hd. split; rewrite ?app_nil_r; try done; try congruence.
  - intros d' Hd'. rewrite Hd in Hd'. injection Hd' as <-. by eapply index_file_disk_ok.
Qed.

Lemma segs_disk_chain F dir maxB closed pc e m :
  Forall2 (seg_ok F dir maxB) closed pc → Forall (fun bs => bs ≠ []) pc →
  chain e closed m →
  disk_chain F dir maxB e pc m ∧ disk_bases e pc = (seg_baseOffset <$> closed) ++ [m].
Proof.
  intros Hc. revert e. induction Hc as [|s bs closed pc Hs Hc IH]; intros e Hne Hch;
    simpl in *; [by subst|].
  inversion Hne as [|? ? Hbs Hpc]; subst. destruct Hch as [<- Hch].
  rewrite <- (so_next _ _ _ _ _ Hs). destruct (IH _ Hpc Hch) as [? ->].
  split_and!; try done. by apply seg_ok_disk.
Qed.

(** A store with nothing but extra bytes of a torn batch in the active log. *)
Lemma store_ok_torn F F' s pc pa closed a tail :
  store_ok F s pc pa → st_segments s = closed ++ [a] →
  (∀ p, p ≠ seg_path a → data_at F' p = data_at F p) →
  data_at F' (seg_path a) = Some (seg_content pa ++ tail) →
  blen (seg_content pa ++ tail) < two63 →
  tail = [] ∨ torn (st_maxBatchBytes s) tail →
  disk_ok F' (st_dir s) (st_maxBatchBytes s) (st_earliestOffset s) pc pa [] tail.
Proof.
  intros Hok Hs HF Ha' Hsz Htorn.
  destruct (active_frame _ F' _ _ _ _ _ Hok Hs) as (Hc & Hch & Hfiles); [auto|].
  destruct (store_ok_segments _ _ _ _ _ _ Hok Hs) as (_ & Ha & _).
  destruct (segs_disk_chain _ _ _ _ _ _ _ Hc (ok_nonempty _ _ _ _ Hok) Hch) as [Hdc Hb].
  split; [|done]. exists (seg_baseOffset a). split_and!; [done| |].
  - destruct (seg_ok_disk _ _ _ _ _ Ha) as [Hf Hix _ He Hfit Hcon H0 Hend].
    rewrite (so_path _ _ _ _ _ Ha) in Ha'. split; try done.
    intros d. rewrite HF; [apply Hix|]. rewrite (so_path _ _ _ _ _ Ha).
    intros Heq. symmetry in Heq. by apply log_index_path_ne in Heq.
  - rewrite Hb. by rewrite fmap_app in Hfiles.
Qed.

Lemma store_ok_disk F s pc pa :
  store_ok F s pc pa →
  disk_ok F (st_dir s) (st_maxBatchBytes s) (st_earliestOffset s) pc pa [] [].
Proof.
  intros Hok.
  pose proof (ok_segments _ _ _ _ Hok) as (closed & a & Hs & _ & Ha & _).
  apply (store_ok_torn F F s pc pa closed a); try done; rewrite ?app_nil_r; [|..|auto].
  - by destruct Ha.
  - by destruct Ha as [_ _ _ _ <-].
Qed.

Lemma store_ok_kept F s pc pa :
  store_ok F s pc pa → kept_on_disk F F s pc pa (store_records pc pa).
Proof.
  intros Hok. exists pc, pa, [], []. split; [by apply store_ok_disk|].
  split; [done|apply carries_grows, grows_refl].
Qed.

(** ** Rolling to a new segment *)

Lemma concat_nonempty (bs : list batch) :
  Forall encodable bs → bs ≠ [] → 0 < blen (concat bs).
Proof.
  intros He Hne. destruct He as [|b bs [Hb _ _ _] He]; [done|].
  destruct b as [|r b]; [done|]. simpl. rewrite blen_cons. blen_lia.
Qed.

(** Every base offset of a store is below the end of a non-empty log. *)
Lemma bases_below F s pc pa closed a :
  store_ok F s pc pa → st_segments s = closed ++ [a] → pa ≠ [] →
  0 <= st_logEndOffset s < two64 ∧ seg_baseOffset a < st_logEndOffset s
  ∧ Forall (fun b => b < st_logEndOffset s) (seg_baseOffset <$> closed ++ [a]).
Proof.
  intros Hok Hs Hne. pose proof (closed_below _ _ _ _ _ _ Hok Hs) as Hlt.
  destruct (store_ok_segments _ _ _ _ _ _ Hok Hs) as (_ & Ha & Hch & _).
  apply chain_last in Hch as [_ ->]. destruct Ha as [_ _ _ _ _ _ He _ _ Hn H0 Hend _ _].
  pose proof (concat_nonempty _ He Hne). split; [lia|]. split; [lia|].
  rewrite Forall_fmap, Forall_app. split; [|repeat constructor; simpl; lia].
  eapply Forall_impl; [exact Hlt|]. simpl. intros; lia.
Qed.

(** The files of the segment to come do not exist yet. *)
Lemma fresh_files F s pc pa closed a :
  store_ok F s pc pa → st_segments s = closed ++ [a] → pa ≠ [] →
  F !! (st_dir s ++ [log_name (st_logEndOffset s)]) = None
  ∧ F !! (st_dir s ++ [index_name (st_logEndOffset s)]) = None.
Proof.
  intros Hok Hs Hne. destruct (bases_below _ _ _ _ _ _ Hok Hs Hne) as (Hr & Ha & Hlt).
  destruct (store_ok_segments _ _ _ _ _ _ Hok Hs) as (_ & _ & _ & Hn & Hi).
  split; [|apply Hi; lia]. apply eq_None_not_Some. intros Hsome.
  apply Hn with (b := st_logEndOffset s) in Hsome; [|by apply base_of_log_name].
  rewrite Forall_forall in Hlt. specialize (Hlt _ Hsome). lia.
Qed.

(** [F'] is [F] with the two (or only the first) empty files of base [b]. *)
Definition new_files (F F' : gmap path file) (dir : path) (b : Z) : Prop :=
  data_at F' (dir ++ [log_name b]) = Some []
  ∧ (data_at F' (dir ++ [index_name b]) = None
     ∨ data_at F' (dir ++ [index_name b]) = Some [])
  ∧ ∀ p, p ≠ dir ++ [log_name b] → p ≠ dir ++ [index_name b] → data_at F' p = data_at F p.

Lemma new_files_ok F F' s pc pa closed a :
  store_ok F s pc pa → st_segments s = closed ++ [a] → pa ≠ [] →
  new_files F F' (st_dir s) (st_logEndOffset s) →
  Forall2 (seg_ok F' (st_dir s) (st_maxBatchBytes s)) (closed ++ [a]) (pc ++ [pa])
  ∧ files_ok F' (st_dir s) ((seg_baseOffset <$> closed ++ [a]) ++ [st_logEndOffset s])
      (st_logEndOffset s).
Proof.
  intros Hok Hs Hne (Hl & Hi & HF).
  destruct (bases_below _ _ _ _ _ _ Hok Hs Hne) as (Hr & Hal & Hlt).
  destruct (store_ok_segments _ _ _ _ _ _ Hok Hs) as (Hc & Ha & _ & Hn & Hix). split.
  - apply (Forall2_closed_frame F _ _ _ _ _ (st_logEndOffset s)); [|done| |done].
    + apply Forall2_app; [done|]. constructor; [done|constructor].
    + rewrite Forall_fmap in Hlt. eapply Forall_impl; [exact Hlt|]. simpl. intros; lia.
  - split.
    + intros name b Hsome Hb. rewrite elem_of_app.
      destruct (decide (b = st_logEndOffset s)) as [->|Hnb]; [right; by constructor|].
      left. apply (Hn name); [|done]. rewrite data_at_is_Some, <- HF, <- data_at_is_Some;
        [done|intros Heq%app_inj_tail..]; destruct Heq as [_ ->].
      * rewrite base_of_log_name in Hb by done. congruence.
      * by rewrite base_of_index_name in Hb.
    + intros b Hb. apply eq_None_not_Some. rewrite data_at_is_Some, HF.
      * rewrite <- data_at_is_Some, Hix by lia. by intros [].
      * intros Heq. symmetry in Heq. by apply log_index_path_ne in Heq.
      * intros Heq. apply index_path_inj in Heq; lia.
Qed.

Lemma store_records_roll pc pa : store_records (pc ++ [pa]) [] = store_records pc pa.
Proof. unfold store_records. rewrite (concat_app pc). simpl. by rewrite !app_nil_r. Qed.

(** The active segment was flushed before the next one was created. *)
Definition rolled (F F' : gmap path file) (s : Store) (pc : list (list batch)) (pa : list batch)
    : Prop := carries F F' s pc pa (pc ++ [pa]) [].

Lemma active_base_of F s pc pa closed a :
  store_ok F s pc pa → st_segments s = closed ++ [a] →
  active_base (st_earliestOffset s) pc = seg_baseOffset a
  ∧ active_base (st_earliestOffset s) (pc ++ [pa]) = st_logEndOffset s.
Proof.
  intros Hok Hs. destruct (store_ok_segments _ _ _ _ _ _ Hok Hs) as (Hc & Ha & Hch & _).
  apply chain_last in Hch as [Hch ->].
  assert (active_base (st_earliestOffset s) pc = seg_baseOffset a) as Hb.
  { clear Ha Hok Hs. revert Hch. generalize (st_earliestOffset s).
    induction Hc as [|c bs closed' pc' Hok Hc IH]; intros e; simpl.
    - intros ->. unfold active_base. simpl. rewrite blen_nil. lia.
    - intros [<- Hch%IH]. rewrite active_base_cons, <- (so_next _ _ _ _ _ Hok). done. }
  split; [done|]. unfold active_base in *. rewrite concat_app, concat_app, blen_app. simpl.
  rewrite app_nil_r, (so_next _ _ _ _ _ Ha). lia.
Qed.

Lemma rolled_durable F F' s pc pa closed a :
  store_ok F s pc pa → st_segments s = closed ++ [a] →
  grows (log_path (st_dir s)) F F' →
  durable F (seg_path a) (length (seg_content pa)) →
  is_Some (F' !! (st_dir s ++ [log_name (st_logEndOffset s)])) → rolled F F' s pc pa.
Proof.
  intros Hok Hs Hg Hd Hn d Hch. destruct (active_base_of _ _ _ _ _ _ Hok Hs) as [Hb Hl].
  destruct (store_ok_segments _ _ _ _ _ _ Hok Hs) as (_ & Ha & _).
  rewrite (so_path _ _ _ _ _ Ha) in Hd. apply chain_durable_roll.
  - by eapply chain_durable_grows.
  - rewrite Hb. apply Hg; [by eexists|done].
  - by rewrite Hl.
Qed.

Lemma roll_on_disk F F' s pc pa closed a :
  store_ok F s pc pa → st_segments s = closed ++ [a] → pa ≠ [] →
  new_files F F' (st_dir s) (st_logEndOffset s) → rolled F F' s pc pa →
  kept_on_disk F F' s pc pa (store_records pc pa).
Proof.
  intros Hok Hs Hne HF Hroll. exists (pc ++ [pa]), [], [], [].
  split; [|split; [apply store_records_roll|exact Hroll]].
  destruct (new_files_ok _ _ _ _ _ _ _ Hok Hs Hne HF) as [Hc Hfiles].
  destruct (bases_below _ _ _ _ _ _ Hok Hs Hne) as (Hr & _ & _).
  destruct (store_ok_segments _ _ _ _ _ _ Hok Hs) as (_ & _ & Hch & _).
  destruct HF as (Hl & Hi & _).
  assert (Forall (fun bs => bs ≠ []) (pc ++ [pa])) as Hnn.
  { apply Forall_app. split; [by destruct Hok|by repeat constructor]. }
  destruct (segs_disk_chain _ _ _ _ _ _ _ Hc Hnn Hch) as [Hdc Hb].
  split; [|auto]. exists (st_logEndOffset s). split_and!; [done| |by rewrite Hb].
  split; simpl; rewrite ?blen_nil; try done; try lia; try apply contiguous_nil; try apply rel_ok_nil.
  intros d Hd. destruct Hi as [Hi|Hi]; [congruence|]. rewrite Hd in Hi.
  injection Hi as ->. by exists [], [].
Qed.

Lemma store_ok_push F F' s s' pc pa closed a a' :
  store_ok F s pc pa → st_segments s = closed ++ [a] → pa ≠ [] →
  new_files F F' (st_dir s) (st_logEndOffset s) →
  data_at F' (st_dir s ++ [index_name (st_logEndOffset s)]) = Some [] →
  seg_ok F (st_dir s) (st_maxBatchBytes s) a' pa →
  seg_baseOffset a' = seg_baseOffset a → seg_nextOffset a' = seg_nextOffset a →
  same_cfg s s' → st_writeFailed s' = false → st_logEndOffset s' = st_logEndOffset s →
  st_segments s' =
    (closed ++ [a']) ++ [empty_segment (st_dir s) (st_logEndOffset s) true] →
  store_ok F' s' (pc ++ [pa]) [].
Proof.
  intros Hok Hs Hne HF Hi Ha' Hb' Hn' Hcfg Hwf Hlog Hs'.
  destruct (new_files_ok _ _ _ _ _ _ _ Hok Hs Hne HF) as [Hc Hfiles].
  destruct (bases_below _ _ _ _ _ _ Hok Hs Hne) as (Hr & Hal & _).
  destruct (store_ok_segments _ _ _ _ _ _ Hok Hs) as (_ & _ & Hch & _).
  destruct Hcfg as [Hdir Hsm Hmb _ _ Hcl Her]. pose proof Hok as [Hop _ _ Hnn Hm1 Hm2].
  destruct HF as (Hl & _ & HF).
  split; rewrite ?Hdir, ?Hsm, ?Hmb, ?Her; try congruence.
  2:{ apply Forall_app. split; [done|by repeat constructor]. }
  eexists _, _. split; [exact Hs'|]. split_and!.
  - apply Forall2_app_inv in Hc as [Hc _]; [|by apply Forall2_length in Hc;
      rewrite !length_app in Hc; simpl in Hc; lia].
    apply Forall2_app; [done|]. constructor; [|constructor].
    apply (seg_ok_other F _ _ _ _ _ (st_logEndOffset s)); [done..|lia|done].
  - split; simpl; rewrite ?blen_nil; try done; try lia; try apply contiguous_nil; try apply rel_ok_nil.
    exists []. split; [done|]. by exists [], [].
  - rewrite chain_app in *. exists (st_logEndOffset s). simpl.
    destruct Hch as (m & Hch & Hm). simpl in Hm. rewrite chain_app. split; [|by rewrite Hlog].
    exists m. simpl. by rewrite Hb', Hn'.
  - rewrite !fmap_app in *. simpl in *. by rewrite Hb'.
Qed.

(** Flushing the active segment changes no data. *)
Lemma flush_active_spec s w r s' w' pc pa closed a :
  store_ok (w_files w) s pc pa → st_segments s = closed ++ [a] →
  on_active Segment_Flush (s, w) = (r, (s', w')) →
  quiet w w' ∧ (∀ p, data_at (w_files w') p = data_at (w_files w) p)
  ∧ (∃ d, s' = st_with_segments (closed ++ [seg_with_indexDirty d a]) s)
  ∧ (∀ P, grows P (w_files w) (w_files w'))
  ∧ (r = Ok tt ∧ durable (w_files w') (seg_path a) (length (seg_content pa))
     ∨ (r = Err ErrIO ∧ w_faults w ≠ [])).
Proof.
  intros Hok Hs H. destruct (store_ok_segments _ _ _ _ _ _ Hok Hs) as (_ & Ha & _).
  destruct (seg_ok_files _ _ _ _ _ Ha) as (f & g & Hf & Hfd & Hg & _ & Hne).
  apply (on_active_inv _ _ _ _ _ _ _ _ Hs) in H as (a' & H & ->).
  destruct (Segment_Flush_spec _ _ _ _ _ _ _ Hf Hg Hne H) as (HQ & (d & ->) & HD & _ & Hgr & Hr).
  split_and!; [done..|eauto|done|]. destruct Hr as [[? Hsy]|?]; [left|by right].
  split; [done|]. eexists. split; [exact Hsy|]. simpl. by rewrite Hfd.
Qed.

(** Two sets of files that hold the same data in a directory. *)
Definition same_data (F F' : gmap path file) (dir : path) : Prop :=
  ∀ name, data_at F' (dir ++ [name]) = data_at F (dir ++ [name]).

Lemma files_ok_data F F' dir bases m :
  files_ok F dir bases m → same_data F F' dir → files_ok F' dir bases m.
Proof.
  intros [Hn Hi] HF. split.
  - intros name b Hs. apply Hn. by rewrite data_at_is_Some, <- HF, <- data_at_is_Some.
  - intros b Hb. apply eq_None_not_Some. rewrite data_at_is_Some, HF, <- data_at_is_Some.
    by rewrite Hi; [intros []|].
Qed.

Lemma store_ok_data F F' s pc pa :
  store_ok F s pc pa → same_data F F' (st_dir s) → store_ok F' s pc pa.
Proof.
  intros [Hop Hwf (closed & a & Hs & Hc & Ha & Hch & Hf) Hne Hm1 Hm2] HF.
  assert (∀ seg bs, seg_ok F (st_dir s) (st_maxBatchBytes s) seg bs →
    seg_ok F' (st_dir s) (st_maxBatchBytes s) seg bs) as Hseg.
  { intros seg bs Hok. apply (seg_ok_frame F); [done|..]; destruct Hok as [-> -> _ _]; apply HF. }
  split; [done|done| |done..]. exists closed, a. split_and!; [done|by eapply Forall2_impl|auto|done|].
  by eapply files_ok_data.
Qed.

Lemma disk_ok_data F F' dir maxB e pc pa lost tail :
  disk_ok F dir maxB e pc pa lost tail → same_data F F' dir →
  disk_ok F' dir maxB e pc pa lost tail.
Proof.
  intros [(m & Hc & Hs & Hfiles) Htorn] HF. split; [|done]. exists m.
  assert (∀ e bs ls t, disk_seg F dir maxB e bs ls t → disk_seg F' dir maxB e bs ls t) as Hseg.
  { intros e' bs ls t []. split; try done; by rewrite HF. }
  split_and!; [|auto|by eapply files_ok_data]. clear Hfiles. revert e Hc.
  induction pc as [|bs pc IH]; intros e; simpl; [done|]. intros (? & ? & ?). split_and!; auto.
Qed.

Lemma kept_on_disk_data F F' s pc0 pa0 recs :
  kept_on_disk F F s pc0 pa0 recs → (∀ p, data_at F' p = data_at F p) →
  grows (log_path (st_dir s)) F F' → kept_on_disk F F' s pc0 pa0 recs.
Proof.
  intros (pc & pa & lost & tail & Hd & Hrecs & Hcar) HF Hg. exists pc, pa, lost, tail.
  split; [eapply disk_ok_data; [done|by intros ?]|]. split; [done|].
  eapply carries_trans; [exact Hcar|by apply carries_grows].
Qed.

Lemma new_files_insert F dir b :
  F !! (dir ++ [log_name b]) = None → F !! (dir ++ [index_name b]) = None →
  let F1 := <[dir ++ [log_name b] := mkFile [] 0]> F in
  let F2 := <[dir ++ [index_name b] := mkFile [] 0]> F1 in
  new_files F F1 dir b ∧ new_files F F2 dir b
  ∧ data_at F2 (dir ++ [index_name b]) = Some []
  ∧ (∀ P, grows P F F1 ∧ grows P F F2).
Proof.
  intros Hl Hi F1 F2.
  assert (∀ P, grows P F F1 ∧ grows P F F2) as Hg.
  { intros P. assert (grows P F F1) as H1 by (apply grows_insert_other; by left). split; [done|].
    eapply grows_trans; [exact H1|]. apply grows_insert_other. left. unfold F1.
    rewrite lookup_insert_ne; [done|apply log_index_path_ne]. }
  pose proof (log_index_path_ne dir b b) as Hne.
  unfold new_files, F2, F1.
  assert (data_at F (dir ++ [index_name b]) = None) as Hd by (unfold data_at; by rewrite Hi).
  split_and!; intros; rewrite ?data_at_insert_eq; try done;
    repeat first [rewrite data_at_insert_eq | rewrite data_at_insert_ne by done]; auto; by apply Hg.
Qed.

(** The outcome of a step that fails: the store refuses further work, and what
    is on disk still holds the records [recs]. *)
Definition failed_with (s s' : Store) (w w' : World) (pc : list (list batch)) (pa : list batch)
    (recs : list StoredRecord) : Prop :=
  st_writeFailed s' = true ∧ w_faults w ≠ []
  ∧ kept_on_disk (w_files w) (w_files w') s pc pa recs.

Lemma mark_failed_run {A} (r : res A) (s s' : Store) w w' (m : M (Store * World) A) :
  on_err m mark_failed (s, w) = (r, (s', w')) →
  (∃ a, r = Ok a ∧ m (s, w) = (Ok a, (s', w')))
  ∨ (∃ e s1, r = Err e ∧ m (s, w) = (Err e, (s1, w')) ∧ s' = st_with_writeFailed true s1)
  ∨ (r = Panic ∧ m (s, w) = (Panic, (s', w'))).
Proof.
  intros H. apply on_err_inv in H as [(a & H & ->)|[(e & [s1 w1] & H & -> & Hs)|(H & ->)]];
    [eauto| |eauto].
  simpl in Hs. injection Hs as -> ->. eauto 10.
Qed.

(** The part of the roll after the flush. *)
Lemma roll_new_segment s w r s' w' pc pa closed a a1 :
  store_ok (w_files w) s pc pa → st_segments s = closed ++ [a] → pa ≠ [] →
  seg_ok (w_files w) (st_dir s) (st_maxBatchBytes s) a1 pa →
  seg_baseOffset a1 = seg_baseOffset a → seg_nextOffset a1 = seg_nextOffset a →
  durable (w_files w) (seg_path a) (length (seg_content pa)) →
  bind (on_err (io (NewSegment (st_dir s) (st_logEndOffset s) true)) mark_failed)
    (fun newSeg => modify (fun s => st_with_segments (st_segments s ++ [newSeg]) s))
    (st_with_segments (closed ++ [a1]) s, w) = (r, (s', w')) →
  quiet w w' ∧ same_cfg s s' ∧ st_logEndOffset s' = st_logEndOffset s
  ∧ ((r = Ok tt ∧ store_ok (w_files w') s' (pc ++ [pa]) [] ∧ rolled (w_files w) (w_files w') s pc pa
      ∧ st_segments s' =
          (closed ++ [a1]) ++ [empty_segment (st_dir s) (st_logEndOffset s) true])
     ∨ (r = Err ErrIO ∧ failed_with s s' w w' pc pa (store_records pc pa))).
Proof.
  intros Hok Hs Hne Ha1 Hb1 Hn1 Hdur H.
  destruct (fresh_files _ _ _ _ _ _ Hok Hs Hne) as [Hl Hi].
  destruct (new_files_insert _ _ _ Hl Hi) as (HF1 & HF2 & HF2i & Hg).
  destruct (Hg (log_path (st_dir s))) as [Hg1 Hg2].
  assert (∀ F' d, data_at F' (st_dir s ++ [log_name (st_logEndOffset s)]) = Some d →
    grows (log_path (st_dir s)) (w_files w) F' → rolled (w_files w) F' s pc pa) as Hroll.
  { intros F' d Hd HgF. eapply (rolled_durable (w_files w)); try done.
    apply data_at_is_Some. by rewrite Hd. }
  binv H newSeg s2 H1; apply mark_failed_run in H1 || (destruct s2; apply mark_failed_run in H1).
  all: destruct H1 as [(x & Hx & H1)|[(e' & s3 & Hx & H1 & Hs3)|(Hx & H1)]]; try done;
    apply io_inv in H1 as [Hst H1];
    apply NewSegment_new in H1 as (HQ & [(Hr & HF)|(Hr & Hn & HF)]); try done; simplify_eq.
  - injection H as <- <- <-. split_and!; [done|by split|done|]. left.
    rewrite HF. split_and!; [done| |eapply Hroll; [apply HF2|done]|done].
    eapply (store_ok_push (w_files w)); try done. by destruct Hok.
  - split_and!; [done|by split|done|]. right. split; [done|]. split_and!; [done..|].
    destruct HF as [-> | [-> | ->]]; [by apply store_ok_kept|..]; eapply roll_on_disk; try done;
      (eapply Hroll; [|done]); [apply HF1|apply HF2].
Qed.

(** Rolling: either nothing happens, or the store continues in a new segment at
    the log end, or an error leaves the store failed with its records on disk. *)
Lemma roll_spec batchSize s w r s' w' pc pa closed a :
  store_ok (w_files w) s pc pa → st_segments s = closed ++ [a] →
  roll_if_full batchSize (s, w) = (r, (s', w')) →
  quiet w w' ∧ same_cfg s s' ∧ st_logEndOffset s' = st_logEndOffset s
  ∧ ((r = Ok tt ∧ ∃ pc' pa' closed' a',
        store_ok (w_files w') s' pc' pa' ∧ store_records pc' pa' = store_records pc pa
        ∧ st_segments s' = closed' ++ [a'] ∧ seg_baseOffset a <= seg_baseOffset a'
        ∧ (seg_size a' = 0 ∨ seg_size a' + batchSize <= st_segmentMaxBytes s)
        ∧ carries (w_files w) (w_files w') s pc pa pc' pa')
     ∨ (r = Err ErrIO ∧ failed_with s s' w w' pc pa (store_records pc pa))).
Proof.
  intros Hok Hs H. destruct (store_ok_segments _ _ _ _ _ _ Hok Hs) as (_ & Ha & Hch & _).
  unfold roll_if_full in H. unfold bind at 1 in H. rewrite (on_active_get _ _ _ _ Hs) in H.
  unfold bind at 1, get_obj in H.
  destruct ((0 <? seg_size a) && (st_segmentMaxBytes s <? seg_size a + batchSize)) eqn:Efull.
  2:{ injection H as <- <- <-. split_and!; auto using quiet_refl, same_cfg_refl. left.
      split; [done|]. exists pc, pa, closed, a.
      split_and!; try done; [|apply carries_grows, grows_refl].
      apply andb_false_iff in Efull as [?%Z.ltb_ge|?%Z.ltb_ge]; [left|right; lia].
      pose proof (so_size _ _ _ _ _ Ha). blen_pos. lia. }
  apply andb_true_iff in Efull as [Hpos%Z.ltb_lt _].
  assert (pa ≠ []) as Hne. { intros ->. pose proof (so_size _ _ _ _ _ Ha) as Hsz. simpl in Hsz. by rewrite Hsz in Hpos. }
  binv H u s1 H1; [destruct s1 as [s1 w1]|..]; apply mark_failed_run in H1
    as [(x & Hx & H1)|[(e' & s3 & Hx & H1 & Hs3)|(Hx & H1)]]; try done;
    apply (flush_active_spec _ _ _ _ _ _ _ _ _ Hok Hs) in H1
      as (HQ & HD & (d & Hst) & Hgr & [(Hr & Hdur)|(Hr & Hn)]); try done; simplify_eq.
  2:{ split_and!; [done|by split|done|]. right. split; [done|]. split_and!; [done..|].
      apply (kept_on_disk_data (w_files w)); [by apply store_ok_kept|done|done]. }
  binv H v s2 H2; [|by rewrite (on_active_snoc _ _ _ closed (seg_with_indexDirty d a) (Ok tt)
     (seg_with_active false (seg_with_indexDirty d a)) w1) in H2..].
  rewrite (on_active_snoc _ _ _ closed (seg_with_indexDirty d a) (Ok tt)
     (seg_with_active false (seg_with_indexDirty d a)) w1) in H2 by done.
  injection H2 as <- <-.
  apply (roll_new_segment s w1 r s' w' pc pa closed a) in H as (HQ' & Hc & Hl & Hres); try done.
  - split_and!; [eauto with fs|done|done|]. pose proof (carries_grows _ _ s pc pa (Hgr _)) as Hcar.
    destruct Hres as [(-> & Hok' & Hroll & Hs')|(-> & Hf)].
    + left. split; [done|]. eexists _, _, _, _. split_and!; [exact Hok'| |exact Hs'|..].
      * apply store_records_roll.
      * simpl. apply chain_last in Hch as [_ ->]. destruct Ha. blen_pos. lia.
      * by left.
      * by eapply carries_trans.
    + right. split; [done|]. destruct Hf as (? & ? & ?). split_and!; eauto using kept_on_disk_trans with fs.
  - apply (store_ok_data (w_files w)); [done|by intros ?].
  - apply seg_ok_active, seg_ok_dirty. by apply (seg_ok_frame (w_files w)).
Qed.

(** ** Indexing a batch *)

Lemma overwrite_mid p junk x :
  overwrite (p ++ junk) (length p) x = p ++ x ++ drop (length x) junk.
Proof.
  unfold overwrite. rewrite length_app.
  replace (length p - (length p + length junk))%nat with 0%nat by lia. simpl.
  rewrite app_nil_r, take_app_length, drop_app_ge by lia. do 3 f_equal. lia.
Qed.

Lemma entries_pos es : Z.to_nat (12 * blen es) = length (concat (entry_bytes <$> es)).
Proof. pose proof (blen_entries es) as H. unfold blen in *. lia. Qed.

Lemma index_file_write bs n d e :
  index_file_ok bs n d → entry_ok bs e →
  index_file_ok bs (n + 12) (overwrite d (Z.to_nat n) (entry_bytes e)).
Proof.
  intros (es & junk & -> & -> & Hj & Hes) He. exists (es ++ [e]), [].
  rewrite entries_pos, overwrite_mid, drop_ge, app_nil_r.
  2:{ pose proof (blen_entry_bytes e). unfold blen in *. lia. }
  split_and!; [|blen_lia|done|].
  - by rewrite concat_fmap_app, !app_nil_r.
  - apply Forall_app. auto.
Qed.

Lemma index_file_torn bs n d e k :
  index_file_ok bs n d → (k <= 11)%nat →
  index_file_ok bs n (overwrite d (Z.to_nat n) (take k (entry_bytes e))).
Proof.
  intros (es & junk & -> & -> & Hj & Hes) Hk. eexists es, _.
  rewrite entries_pos, overwrite_mid. split_and!; try done.
  pose proof (blen_entry_bytes e). unfold blen in *.
  rewrite length_app, length_drop, length_take. lia.
Qed.

(** The in-memory index of a segment gains an entry, its index file becomes [d]. *)
Lemma seg_ok_index F F' dir maxB seg seg' bs e d n last :
  seg_ok F dir maxB seg bs → entry_ok bs e →
  data_at F' (seg_path seg) = data_at F (seg_path seg) →
  data_at F' (seg_indexPath seg) = Some d → index_file_ok bs n d →
  seg' = seg_with_indexDirty true (seg_with_index (seg_indexEntries seg ++ [e]) last seg) →
  seg_ok F' dir maxB (seg_with_indexSize n seg') bs.
Proof.
  intros [] He Hp Hi Hd ->. split; simpl; try done; [by rewrite Hp|eauto|].
  apply Forall_app. auto.
Qed.

Lemma index_batch_spec s w r s' w' closed a bs b :
  seg_ok (w_files w) (st_dir s) (st_maxBatchBytes s) a (bs ++ [b]) →
  st_segments s = closed ++ [a] → blen (concat bs) < two32 →
  index_batch (blen (concat bs)) (blen (seg_content bs)) (s, w) = (r, (s', w')) →
  quiet w w' ∧ r = Ok tt ∧ ∃ a', s' = st_with_segments (closed ++ [a']) s
  ∧ seg_ok (w_files w') (st_dir s) (st_maxBatchBytes s) a' (bs ++ [b])
  ∧ seg_baseOffset a' = seg_baseOffset a ∧ seg_nextOffset a' = seg_nextOffset a
  ∧ (∀ p, p ≠ seg_indexPath a → data_at (w_files w') p = data_at (w_files w) p)
  ∧ grows (log_path (st_dir s)) (w_files w) (w_files w').
Proof.
  intros Ha Hs Hrel H. unfold index_batch in H.
  assert (¬ log_path (st_dir s) (seg_indexPath a)) as Hnl.
  { intros [b' Hb']. rewrite (so_indexPath _ _ _ _ _ Ha) in Hb'. symmetry in Hb'.
    by apply log_index_path_ne in Hb'. }
  unfold bind at 1 in H. rewrite (on_active_get _ _ _ _ Hs) in H. unfold bind, get_obj in H.
  destruct (_ || _).
  2:{ injection H as <- <- <-. split_and!; [done..|]. exists a. split_and!; try done.
      - rewrite <- Hs. by destruct s.
      - apply grows_refl. }
  assert (blen (seg_content bs) < two63) as Hpos.
  { destruct Ha as [_ _ _ _ Hsz Hsm _ _ _ _ _ _ _ _]. rewrite Hsz, seg_content_app in Hsm.
    blen_lia. }
  rewrite u32_small, u64_small in H by (blen_pos; lia).
  destruct (seg_ok_files _ _ _ _ _ Ha) as (f & g & Hf & _ & Hg & Hix & Hne).
  unfold ignore in H. destruct (on_active _ _) as [r0 [s0 w0]] eqn:E. injection H as <- <- <-.
  apply (on_active_inv _ _ _ _ _ _ _ _ Hs) in E as (a' & E & ->).
  apply (AppendIndexEntry_spec _ _ _ _ _ _ _ Hg) in E as (HQ & E).
  split_and!; [done..|]. exists a'. split; [done|].
  pose proof (entry_ok_end bs b) as He.
  destruct E as [(_ & -> & HF)|(_ & _ & -> & n & Hle & HF)]; (split; [|split_and!; try done;
      [intros p Hp; rewrite HF; by apply data_at_insert_ne|rewrite HF; apply grows_insert_other; by right]]).
  - eapply seg_ok_index; [exact Ha|exact He|..|done]; rewrite ?HF.
    + by apply data_at_insert_ne.
    + apply data_at_insert_eq.
    + by apply index_file_write.
  - match goal with |- seg_ok _ _ _ ?x _ => replace x with
      (seg_with_indexSize (seg_indexSize a) x) by by destruct a end.
    eapply seg_ok_index; [exact Ha|exact He|..|done]; rewrite ?HF.
    + by apply data_at_insert_ne.
    + apply data_at_insert_eq.
    + by apply index_file_torn.
Qed.

(** ** Writing a batch *)

Lemma raise_maxTimestamp_cases ts s :
  ∃ m, raise_maxTimestamp ts s = SetMaxTimestamp m s
    ∧ seg_maxTimestamp s <= m ∧ ts <= m ∧ (m = ts ∨ m = seg_maxTimestamp s).
Proof.
  unfold raise_maxTimestamp. destruct (Z.ltb_spec (seg_maxTimestamp s) ts).
  - exists ts. split_and!; try done; auto; lia.
  - exists (seg_maxTimestamp s). split_and!; [by destruct s|lia..|auto].
Qed.

Lemma seg_ok_append F F' dir maxB a pa b ts :
  seg_ok F dir maxB a pa → encodable b → blen (batch_bytes b) <= maxB →
  contiguous (seg_nextOffset a) b → seg_nextOffset a + blen b < two64 →
  blen (concat pa) <= MaxUint32 →
  seg_size a + blen (batch_bytes b) < two63 → Forall (fun r => Timestamp r = ts) b →
  data_at F' (seg_path a) = Some (seg_content pa ++ batch_bytes b) →
  data_at F' (seg_indexPath a) = data_at F (seg_indexPath a) →
  seg_ok F' dir maxB
    (seg_with_nextOffset (seg_nextOffset a + blen b)
       (raise_maxTimestamp ts (seg_with_size (seg_size a + blen (batch_bytes b)) a)))
    (pa ++ [b]).
Proof.
  intros [Hp Hi Hf (d & Hd & Hix) Hsz Hsm He Hfit Hc Hn H0 Hend Hidx Hts Hrel] Heb Hmax Hcb Hlast
    Hov Hsmall Htb HF HI.
  destruct (raise_maxTimestamp_cases ts (seg_with_size (seg_size a + blen (batch_bytes b)) a))
    as (m & -> & Hm1 & Hm2 & _).
  assert (concat (pa ++ [b]) = concat pa ++ b) as Hcc
    by (rewrite concat_app; simpl; by rewrite app_nil_r).
  split; simpl; rewrite ?seg_content_app, ?seg_content_one, ?Hcc; try done.
  - exists d. rewrite HI. split; [done|]. by apply index_file_ok_app.
  - blen_lia.
  - apply Forall_app. auto.
  - apply Forall_app. auto.
  - apply contiguous_app. split; [done|]. by rewrite <- Hn.
  - blen_lia.
  - eapply Forall_impl; [exact Hidx|]. intros e. apply entry_ok_app.
  - simpl in Hm1. apply Forall_app. split; (eapply Forall_impl; [eassumption|]); simpl; lia.
  - by apply rel_ok_snoc.
Qed.

(** Nothing durable is lost; in sync mode the whole log, new records included, is
    durable. *)
Definition acknowledged (F F' : gmap path file) (s : Store) (pc : list (list batch))
    (pa : list batch) (pc' : list (list batch)) (pa' : list batch) : Prop :=
  carries F F' s pc pa pc' pa'
  ∧ (st_flushMode s = "sync"%string → ∀ d,
       chain_durable F (st_dir s) (st_earliestOffset s) pc pa d →
       chain_durable F' (st_dir s) (st_earliestOffset s) pc' pa'
         (st_earliestOffset s + blen (store_records pc' pa'))).

Lemma acknowledged_after F F1 F2 s pc pa pc1 pa1 pc2 pa2 :
  carries F F1 s pc pa pc1 pa1 → acknowledged F1 F2 s pc1 pa1 pc2 pa2 →
  acknowledged F F2 s pc pa pc2 pa2.
Proof.
  intros Hc [H1 H2]. split; [by eapply carries_trans|]. intros Hm d Hd. eapply H2; [done|].
  by apply Hc.
Qed.

Lemma apply_flush_policy_spec s w r s' w' pc pa :
  store_ok (w_files w) s pc pa → apply_flush_policy (s, w) = (r, (s', w')) →
  quiet w w' ∧ same_cfg s s' ∧ st_logEndOffset s' = st_logEndOffset s
  ∧ ((r = Ok tt ∧ store_ok (w_files w') s' pc pa ∧ acknowledged (w_files w) (w_files w') s pc pa pc pa)
     ∨ (r = Err ErrIO ∧ failed_with s s' w w' pc pa (store_records pc pa))).
Proof.
  intros Hok H. unfold apply_flush_policy in H. unfold bind at 1, get_obj in H.
  case_bool_decide.
  2:{ injection H as <- <- <-. split_and!; auto using quiet_refl, same_cfg_refl. left.
      split; [done|]. split; [done|]. split; [apply carries_grows, grows_refl|done]. }
  pose proof (ok_segments _ _ _ _ Hok) as (closed & a & Hs & _).
  pose proof (store_ok_segments _ _ _ _ _ _ Hok Hs) as (_ & Ha & Hch & _).
  unfold bind at 1, attempt in H. destruct (on_active _ _) as [r0 [s0 w0]] eqn:E.
  apply (flush_active_spec _ _ _ _ _ _ _ _ _ Hok Hs) in E as (HQ & HD & (d & ->) & Hgr & Hr).
  destruct Hr as [[-> Hdur] |(-> & Hn)]; simpl in H; injection H as <- <- <-.
  - split_and!; [eauto with fs|by split|done|]. left. split; [done|]. simpl. split.
    2:{ split; [by apply carries_grows|]. intros _ d' Hd'.
        eapply chain_durable_all; [by eapply chain_durable_grows|].
        by rewrite (proj1 (active_base_of _ _ _ _ _ _ Hok Hs)), <- (so_path _ _ _ _ _ Ha). }
    apply (store_ok_update (w_files w) _ s _ closed a (seg_with_indexDirty d a) pc pa);
      try done; auto; [|by destruct Hok|by apply chain_last in Hch as [_ ?]].
    apply seg_ok_dirty. by apply (seg_ok_frame (w_files w)).
  - split_and!; [eauto with fs|by split|done|]. right. split; [done|]. split_and!; [done..|].
    simpl. apply (kept_on_disk_data (w_files w)); [by apply store_ok_kept|done|done].
Qed.

(** The state of the store after the batch is in the log file. *)
Lemma write_log_spec s w r s' w' pc pa closed a b :
  store_ok (w_files w) s pc pa → st_segments s = closed ++ [a] →
  encodable b → blen (batch_bytes b) <= st_maxBatchBytes s →
  seg_size a + blen (batch_bytes b) < two63 →
  on_err (on_active (Segment_Append (batch_bytes b))) mark_failed (s, w) = (r, (s', w')) →
  quiet w w' ∧
  ((r = Ok (blen (seg_content pa))
    ∧ s' = st_with_segments
             (closed ++ [seg_with_size (seg_size a + blen (batch_bytes b)) a]) s
    ∧ data_at (w_files w') (seg_path a) = Some (seg_content pa ++ batch_bytes b)
    ∧ (∀ p, p ≠ seg_path a → data_at (w_files w') p = data_at (w_files w) p)
    ∧ grows (log_path (st_dir s)) (w_files w) (w_files w'))
   ∨ (r = Err ErrIO ∧ same_cfg s s' ∧ failed_with s s' w w' pc pa (store_records pc pa))).
Proof.
  intros Hok Hs Hb Hmax Hsmall H.
  pose proof (store_ok_segments _ _ _ _ _ _ Hok Hs) as (_ & Ha & _).
  destruct (seg_ok_files _ _ _ _ _ Ha) as (f & g & Hf & Hd & _ & _ & _).
  pose proof (so_size _ _ _ _ _ Ha) as Hsz.
  apply mark_failed_run in H as [(x & -> & H)|[(e & s1 & -> & H & ->)|(-> & H)]];
    apply (on_active_inv _ _ _ _ _ _ _ _ Hs) in H as (a' & H & ->);
    apply (Segment_Append_spec _ _ _ _ _ _ f Hf) in H
      as (HQ & [(Hr & -> & HF)|(Hr & Hn & -> & n & Hle & HF)]); try done; try congruence.
  - split; [done|]. left. injection Hr as ->. rewrite Hsz, HF, <- Hd, data_at_insert_eq.
    split_and!; try done; [intros p Hp; by apply data_at_insert_ne|].
    apply (grows_insert _ _ _ _ _ Hf); simpl; rewrite ?length_app; lia.
  - split; [done|]. right. injection Hr as ->. split; [done|]. split; [by split|].
    split_and!; [done..|]. exists pc, pa, [], (take n (batch_bytes b)).
    split; [|split; [done|apply carries_grows; rewrite HF;
      apply (grows_insert _ _ _ _ _ Hf); simpl; rewrite ?length_app; lia]].
    apply (store_ok_torn (w_files w) _ s pc pa closed a); try done.
    + intros p Hp. rewrite HF. by apply data_at_insert_ne.
    + by rewrite HF, data_at_insert_eq, Hd.
    + rewrite blen_app, <- Hsz. unfold blen in *. rewrite length_take. lia.
    + right. exists b, n. split_and!; try done.
      pose proof (batch_bytes_lower b). unfold blen in *. lia.
Qed.

Lemma active_next F s pc pa closed a :
  store_ok F s pc pa → st_segments s = closed ++ [a] →
  seg_nextOffset a = st_logEndOffset s
  ∧ st_logEndOffset s = seg_baseOffset a + blen (concat pa)
  ∧ 0 <= seg_baseOffset a ∧ st_logEndOffset s < two64.
Proof.
  intros Hok Hs. pose proof (store_ok_segments _ _ _ _ _ _ Hok Hs) as (_ & Ha & Hch & _).
  apply chain_last in Hch as [_ ->]. destruct Ha. auto.
Qed.

(** A batch that can be appended to a store with log end [base]. *)
Record appendable (maxB base ts : Z) (b : batch) : Prop := mkAppendable {
  ap_encodable : encodable b;
  ap_fits : blen (batch_bytes b) <= maxB;
  ap_contiguous : contiguous base b;
  ap_end : base + blen b < two64;
  ap_timestamps : Forall (fun r => Timestamp r = ts) b;
}.

(** The result of an append that got past its guards. *)
Definition append_result (s s' : Store) (w w' : World) (pc : list (list batch)) (pa : list batch)
    (b : batch) (r : res (Z * Z)) : Prop :=
  let F := w_files w in
  let F' := w_files w' in
  let recs := store_records pc pa in
  (r = Ok (st_logEndOffset s, st_logEndOffset s + blen b - 1)
   ∧ st_logEndOffset s' = st_logEndOffset s + blen b
   ∧ ∃ pc' pa', store_ok F' s' pc' pa' ∧ store_records pc' pa' = recs ++ b
     ∧ acknowledged F F' s pc pa pc' pa')
  ∨ (∃ e, r = Err e ∧ st_writeFailed s' = true ∧ (e = ErrIO ∧ w_faults w ≠ []
                                      ∨ e = ErrIndexOffsetOverflow)
     ∧ (kept_on_disk F F' s pc pa recs ∨ kept_on_disk F F' s pc pa (recs ++ b))).

Lemma store_records_snoc pc pa b : store_records pc (pa ++ [b]) = store_records pc pa ++ b.
Proof. unfold store_records. rewrite !concat_app. simpl. by rewrite app_nil_r, app_assoc. Qed.

Lemma updateGaugesLocked_run s w :
  ∃ w', updateGaugesLocked (s, w) = (Ok tt, (s, w')) ∧ quiet w w' ∧ w_files w' = w_files w.
Proof.
  unfold updateGaugesLocked, bind, get_obj, emit. eexists.
  split; [reflexivity|]. split; [apply quiet_event|done].
Qed.

(** The state update between the write of the log file and the index entry. *)
Lemma after_write F F' s pc pa closed a b ts :
  store_ok F s pc pa → st_segments s = closed ++ [a] →
  appendable (st_maxBatchBytes s) (st_logEndOffset s) ts b →
  blen (concat pa) <= MaxUint32 →
  seg_size a + blen (batch_bytes b) < two63 →
  data_at F' (seg_path a) = Some (seg_content pa ++ batch_bytes b) →
  (∀ p, p ≠ seg_path a → data_at F' p = data_at F p) →
  let L := st_logEndOffset s + blen b in
  let a' := seg_with_nextOffset L (raise_maxTimestamp ts
              (seg_with_size (seg_size a + blen (batch_bytes b)) a)) in
  let s' := st_with_segments (closed ++ [a']) (st_with_logEndOffset L s) in
  store_ok F' s' pc (pa ++ [b])
  ∧ seg_baseOffset a' = seg_baseOffset a ∧ seg_path a' = seg_path a.
Proof.
  intros Hok Hs [He Hfit Hc Hend Hts] Hov Hsmall HF HF'.
  pose proof (store_ok_segments _ _ _ _ _ _ Hok Hs) as (_ & Ha & _).
  destruct (seg_ok_files _ _ _ _ _ Ha) as (f & g & _ & _ & _ & _ & Hne).
  destruct (active_next _ _ _ _ _ _ Hok Hs) as (Hnext & _). rewrite <- Hnext in Hc, Hend.
  assert (seg_ok F' (st_dir s) (st_maxBatchBytes s) (seg_with_nextOffset
    (seg_nextOffset a + blen b) (raise_maxTimestamp ts
      (seg_with_size (seg_size a + blen (batch_bytes b)) a))) (pa ++ [b])) as Ha'
    by (apply (seg_ok_append F); try done; apply HF'; congruence).
  rewrite <- Hnext. intros L a' s'.
  assert (seg_baseOffset a' = seg_baseOffset a ∧ seg_path a' = seg_path a) as [Hb Hp].
  { unfold a'. destruct (raise_maxTimestamp_cases ts (seg_with_size
      (seg_size a + blen (batch_bytes b)) a)) as (m & -> & _). done. }
  split; [|done].
  apply (store_ok_update F F' s s' closed a a' pc pa); try done; [auto|by destruct Hok].
Qed.

(** The end of Append: index entry, flush policy and gauges. *)
Lemma finish_append_spec {A} (x : A) s w r s' w' pc pa b :
  store_ok (w_files w) s pc (pa ++ [b]) → blen (concat pa) < two32 →
  bind (index_batch (blen (concat pa)) (blen (seg_content pa))) (fun _ =>
    bind apply_flush_policy (fun _ => bind updateGaugesLocked (fun _ => ret x)))
    (s, w) = (r, (s', w')) →
  quiet w w' ∧ same_cfg s s' ∧ st_logEndOffset s' = st_logEndOffset s
  ∧ ((r = Ok x ∧ store_ok (w_files w') s' pc (pa ++ [b])
      ∧ acknowledged (w_files w) (w_files w') s pc (pa ++ [b]) pc (pa ++ [b]))
     ∨ (r = Err ErrIO ∧ failed_with s s' w w' pc (pa ++ [b]) (store_records pc (pa ++ [b])))).
Proof.
  intros Hok Hrel H. pose proof (ok_segments _ _ _ _ Hok) as (closed & a & Hs & _ & Ha & Hch & _).
  unfold bind at 1 in H. destruct (index_batch _ _ (s, w)) as [r1 [s1 w1]] eqn:E1.
  destruct (index_batch_spec _ _ _ _ _ _ _ _ _ Ha Hs Hrel E1)
    as (HQ1 & -> & a' & -> & Ha' & Hb' & Hn' & HF' & Hgr). clear E1.
  pose proof (carries_grows _ _ _ pc (pa ++ [b]) Hgr) as Hcar.
  assert (store_ok (w_files w1) (st_with_segments (closed ++ [a']) s) pc (pa ++ [b])) as Hok1.
  { apply (store_ok_update (w_files w) _ s _ closed a a' pc (pa ++ [b])); try done; auto.
    - by destruct Hok.
    - apply chain_last in Hch as [_ ?]. simpl. congruence. }
  binv H v s2 H2; [destruct s2 as [s2 w2]|..];
    apply (apply_flush_policy_spec _ _ _ _ _ _ _ Hok1) in H2
      as (HQ2 & Hc2 & Hl2 & [(Hr2 & Hok2 & Hack)|(Hr2 & Hwf & Hn & Hd)]); try done; simplify_eq.
  - unfold bind in H. destruct (updateGaugesLocked_run s2 w2) as (w3 & Hg & HQ3 & HF3).
    rewrite Hg in H. injection H as <- <- <-. split_and!; [eauto with fs| |done|].
    + by eapply same_cfg_trans; [|exact Hc2].
    + left. rewrite HF3. split; [done|]. split; [done|].
      by eapply acknowledged_after; [|exact Hack].
  - split_and!; [eauto with fs| |done|].
    + by eapply same_cfg_trans; [|exact Hc2].
    + right. split; [done|]. split_and!; eauto using kept_on_disk_trans with fs.
Qed.

Lemma on_active_modify f s w closed a :
  on_active (modify f) (st_with_segments (closed ++ [a]) s, w)
  = (Ok tt, (st_with_segments (closed ++ [f a]) s, w)).
Proof. by rewrite (on_active_snoc _ _ _ closed a (Ok tt) (f a) w). Qed.

Lemma write_batch_spec ts s w r s' w' pc pa closed a b :
  store_ok (w_files w) s pc pa → st_segments s = closed ++ [a] →
  appendable (st_maxBatchBytes s) (st_logEndOffset s) ts b →
  seg_size a + blen (batch_bytes b) < two63 →
  write_batch ts (st_logEndOffset s) (blen b) (batch_bytes b) (s, w) = (r, (s', w')) →
  quiet w w' ∧ same_cfg s s' ∧ append_result s s' w w' pc pa b r
  ∧ (blen (concat pa) <= MaxUint32 → r ≠ Err ErrIndexOffsetOverflow).
Proof.
  intros Hok Hs Hap Hsmall H.
  destruct (active_next _ _ _ _ _ _ Hok Hs) as (Hnext & Hlog & Hb0 & Hl64).
  pose proof (ap_encodable _ _ _ _ Hap) as [Hne _ _ _]. pose proof (ap_end _ _ _ _ Hap) as Hend.
  assert (0 < blen b) as Hbpos by (destruct b; [done|rewrite blen_cons; blen_lia]).
  unfold write_batch in H. unfold bind at 1 in H. rewrite (on_active_get _ _ _ _ Hs) in H.
  replace (u64 (st_logEndOffset s - seg_baseOffset a)) with (blen (concat pa)) in H
    by (rewrite u64_small; blen_pos; lia).
  assert (u64 (u64 (st_logEndOffset s + blen b) - 1) = st_logEndOffset s + blen b - 1) as Hlast
    by (rewrite (u64_small (_ + _)), u64_small; blen_pos; lia).
  rewrite Hlast, u64_small in H by (blen_pos; lia).
  replace (st_logEndOffset s + blen b - 1 + 1) with (st_logEndOffset s + blen b) in H by lia.
  destruct (Z.ltb_spec MaxUint32 (blen (concat pa))) as [Hov|Hov].
  { injection H as <- <- <-. split_and!; [done|by split| |lia]. right.
    eexists. split_and!; [done..|by right|]. left. by apply store_ok_kept. }
  binv H pos s1 H1; [destruct s1 as [s1 w1]|..];
    apply (write_log_spec _ _ _ _ _ _ _ _ _ _ Hok Hs) in H1
      as (HQ1 & [(Hr & Hs1 & HFa & HF & Hg)|(Hr & Hcfg & Hwf & Hn & Hd)]); try done; try apply Hap;
    simplify_eq.
  2:{ split_and!; [done..| |done]. right. eexists. split_and!; [done..|by left|by left]. }
  destruct (after_write _ (w_files w1) _ _ _ _ _ _ _ Hok Hs Hap) as (Hok1 & Hbase & _);
    [done..|].
  assert (carries (w_files w) (w_files w1) s pc pa pc (pa ++ [b])) as Hcar.
  { intros d Hd. apply chain_durable_extend. by eapply chain_durable_grows. }
  do 3 (unfold bind at 1 in H; rewrite ?on_active_modify in H; cbn [modify] in H).
  change (st_with_logEndOffset ?l (st_with_segments ?x ?s))
    with (st_with_segments x (st_with_logEndOffset l s)) in H.
  rewrite on_active_modify in H.
  apply (finish_append_spec _ _ _ _ _ _ _ _ _ Hok1) in H
    as (HQ2 & Hc2 & Hl2 & [(-> & Hok2 & Hack)|(-> & Hwf & Hn & Hd)]); [..|unfold MaxUint32 in Hov; lia].
  - split_and!; [eauto with fs| |left; split_and!; [done|done|]|done].
    + by eapply same_cfg_trans; [|exact Hc2].
    + exists pc, (pa ++ [b]). rewrite store_records_snoc. split; [done|]. split; [done|].
      by eapply acknowledged_after; [|exact Hack].
  - split_and!; [eauto with fs| |right|done].
    + by eapply same_cfg_trans; [|exact Hc2].
    + eexists. rewrite store_records_snoc in Hd. split_and!; eauto with fs.
      right. by eapply kept_on_disk_trans; [|exact Hd].
Qed.

(** ** Append *)

(** The result of an append that ran after a step from [s] to [s1]. *)
Lemma append_result_after s s1 s' w w1 w' pc pa pc1 pa1 b r :
  quiet w w1 → same_cfg s s1 → st_logEndOffset s1 = st_logEndOffset s →
  store_records pc1 pa1 = store_records pc pa →
  carries (w_files w) (w_files w1) s pc pa pc1 pa1 →
  append_result s1 s' w1 w' pc1 pa1 b r → append_result s s' w w' pc pa b r.
Proof.
  intros HQ [Hd1 _ Hm _ Hfm _ He1] Hl Hrec Hcar. unfold append_result. rewrite Hl, Hrec.
  assert (∀ pc2 pa2, carries (w_files w1) (w_files w') s1 pc1 pa1 pc2 pa2 →
    carries (w_files w) (w_files w') s pc pa pc2 pa2) as Hc2.
  { intros pc2 pa2 H. eapply carries_trans; [exact Hcar|]. unfold carries in *.
    by rewrite Hd1, He1 in H. }
  assert (∀ recs, kept_on_disk (w_files w1) (w_files w') s1 pc1 pa1 recs →
    kept_on_disk (w_files w) (w_files w') s pc pa recs) as Hk.
  { intros recs (pc2 & pa2 & lost & tail & H1 & H2 & H3). exists pc2, pa2, lost, tail.
    rewrite Hd1, Hm, He1 in H1. auto. }
  intros [(-> & Hl' & pc2 & pa2 & Hok & Hr2 & [Ha1 Ha2])|(e & -> & Hwf & Hes & Hd)].
  - left. split; [done|]. split; [done|]. exists pc2, pa2. split; [done|]. split; [done|].
    split; [auto|]. rewrite Hfm, Hd1, He1 in Ha2. intros Hm' d Hd. eapply Ha2; [done|].
    by apply Hcar.
  - right. exists e. split; [done|]. split; [done|].
    split; [destruct Hes as [[-> Hn]| ->]; eauto with fs|]. destruct Hd; auto.
Qed.

Lemma append_encoded_spec ts s w r s' w' pc pa b :
  store_ok (w_files w) s pc pa →
  appendable (st_maxBatchBytes s) (st_logEndOffset s) ts b →
  append_encoded ts (st_logEndOffset s) (blen b) (batch_bytes b) (s, w) = (r, (s', w')) →
  quiet w w' ∧ same_cfg s s' ∧ append_result s s' w w' pc pa b r
  ∧ (blen (concat pa) <= MaxUint32 → r ≠ Err ErrIndexOffsetOverflow).
Proof.
  intros Hok Hap H. pose proof (ok_segments _ _ _ _ Hok) as (closed & a & Hs & _).
  destruct (active_next _ _ _ _ _ _ Hok Hs) as (_ & Hlog & _).
  unfold append_encoded in H. unfold bind at 1, get_obj in H.
  pose proof (ap_fits _ _ _ _ Hap) as Hfits. pose proof Hok as [_ _ _ _ Hm1 Hm2].
  destruct (Z.ltb_spec (st_maxBatchBytes s) (blen (batch_bytes b))); [lia|].
  binv H u s1 H1; [destruct s1 as [s1 w1]|..]; apply (roll_spec _ _ _ _ _ _ _ _ _ _ Hok Hs) in H1
    as (HQ1 & Hc1 & Hl1 & [(Hr & pc' & pa' & cl' & a' & Hok1 & Hrec & Hs1 & Hbase & Hsz & Hcar)
                          |(Hr & Hwf & Hn & Hd)]); try done; simplify_eq.
  2:{ split_and!; [done..| |done]. right. eexists. split_and!; [done..|by left|by left]. }
  destruct (active_next _ _ _ _ _ _ Hok1 Hs1) as (_ & Hlog1 & _).
  rewrite <- Hl1 in H. apply (write_batch_spec _ _ _ _ _ _ _ _ _ _ _ Hok1 Hs1) in H
    as (HQ2 & Hc2 & Hres & Hov).
  - split_and!; [eauto with fs|by eapply same_cfg_trans| |].
    + by eapply append_result_after.
    + intros Hpa. apply Hov. lia.
  - by rewrite (sc_maxBatch _ _ Hc1), Hl1.
  - pose proof Hok1 as [_ _ _ _ Hm1' _]. destruct Hsz; blen_pos; lia.
Qed.

(** The batch that [Append] builds from the client's records. *)
Definition next_batch (s : Store) (now : Z) (records : list ClientRecord) : batch :=
  stamp (st_logEndOffset s) now records.

Lemma next_batch_appendable F s pc pa now records :
  store_ok F s pc pa → records ≠ [] → st_logEndOffset s + blen records < two64 →
  - two63 < now < two63 →
  blen (batch_bytes (next_batch s now records)) <= st_maxBatchBytes s →
  appendable (st_maxBatchBytes s) (st_logEndOffset s) now (next_batch s now records).
Proof.
  intros Hok Hne Hend Hnow Hfits. pose proof (ok_segments _ _ _ _ Hok) as (cl & a & Hs & _).
  destruct (active_next _ _ _ _ _ _ Hok Hs) as (_ & Hlog & H0 & _).
  pose proof Hok as [_ _ _ _ Hm _]. pose proof (blen_nonneg (concat pa)).
  unfold next_batch in *. split; try done.
  - apply encodable_stamp; try done; lia.
  - apply contiguous_stamp; lia.
  - by rewrite (blen_eq (stamp _ _ _)), length_stamp, <- blen_eq.
  - apply stamp_timestamps.
Qed.

Lemma blen_next_batch s now records : blen (next_batch s now records) = blen records.
Proof. unfold next_batch. by rewrite (blen_eq (stamp _ _ _)), length_stamp. Qed.

(** What an append that passes the guards does: the batch is too large, or
    [append_encoded] runs on it. *)
Lemma Store_Append_run now records s w :
  records ≠ [] → st_closed s = false → st_writeFailed s = false →
  let b := next_batch s now records in
  Store_Append now records (s, w)
  = observed_append (blen records) (blen (batch_bytes b))
      (append_encoded now (st_logEndOffset s) (blen b) (batch_bytes b)) (s, w).
Proof.
  intros Hne Hcl Hwf b. unfold Store_Append. destruct records as [|r rs]; [done|].
  rewrite blen_cons. destruct (Z.eqb_spec (1 + blen rs) 0); [blen_lia|].
  unfold bind at 1, get_obj. rewrite Hcl, Hwf.
  fold (next_batch s now (r :: rs)). fold b.
  rewrite EncodeBatch_batch_bytes.
  - rewrite <- blen_cons with (x := r). f_equal. f_equal. unfold b. by rewrite blen_next_batch.
  - unfold b, next_batch. by rewrite stamp_cons.
Qed.

Lemma Store_Append_spec now records s w r s' w' pc pa :
  store_ok (w_files w) s pc pa → records ≠ [] →
  st_logEndOffset s + blen records < two64 → - two63 < now < two63 →
  Store_Append now records (s, w) = (r, (s', w')) →
  let b := next_batch s now records in
  quiet w w' ∧ same_cfg s s' ∧
  ((st_maxBatchBytes s < blen (batch_bytes b) ∧ r = Err ErrBatchTooLarge ∧ s' = s
    ∧ w_files w' = w_files w)
   ∨ (blen (batch_bytes b) <= st_maxBatchBytes s
      ∧ append_result s s' w w' pc pa b r
      ∧ (blen (concat pa) <= MaxUint32 → r ≠ Err ErrIndexOffsetOverflow))).
Proof.
  intros Hok Hne Hend Hnow H b. pose proof Hok as [Hcl Hwf _ _ _ _].
  rewrite Store_Append_run in H by done. fold b in H.
  unfold observed_append in H. destruct (append_encoded _ _ _ _ _) as [r1 [s1 w1]] eqn:E.
  injection H as <- <- <-. destruct (Z.ltb_spec (st_maxBatchBytes s) (blen (batch_bytes b))) as [Hbig|Hfit].
  - unfold append_encoded in E. unfold bind at 1, get_obj in E.
    rewrite (proj2 (Z.ltb_lt _ _) Hbig) in E. injection E as <- <- <-.
    split_and!; auto using same_cfg_refl with fs.
  - apply (append_encoded_spec _ _ _ _ _ _ _ _ _ Hok) in E as (HQ & Hc & Hres & Hov).
    + split_and!; [eauto with fs|done|]. right. done.
    + by eapply next_batch_appendable.
Qed.

(** ** Properties *)

(** C8: Append on a well-formed store, under any schedule of I/O failures. A
    batch above the size limit is refused and nothing changes. Otherwise the
    call either returns the offsets [logEnd, logEnd + n - 1] and leaves a
    well-formed store whose records are the old ones followed by the new batch
    (rolling to a new segment first when the active one is full), with nothing
    that was durable lost and, in sync mode on a log that was durable so far, the
    whole log durable; or it fails, the store is marked as failed, and the files
    still hold all old records and at most the new batch, up to a torn tail. It
    never panics. *)
Theorem Append_extends_log now records s w r s' w' pc pa :
  store_ok (w_files w) s pc pa → records ≠ [] →
  st_logEndOffset s + blen records < two64 → - two63 < now < two63 →
  Store_Append now records (s, w) = (r, (s', w')) →
  let b := stamp (st_logEndOffset s) now records in
  let recs := store_records pc pa in
  (st_maxBatchBytes s < blen (batch_bytes b) ∧ r = Err ErrBatchTooLarge ∧ s' = s
   ∧ w_files w' = w_files w)
  ∨ (r = Ok (st_logEndOffset s, st_logEndOffset s + blen records - 1)
     ∧ st_logEndOffset s' = st_logEndOffset s + blen records
     ∧ st_earliestOffset s' = st_earliestOffset s
     ∧ ∃ pc' pa', store_ok (w_files w') s' pc' pa' ∧ store_records pc' pa' = recs ++ b
       ∧ acknowledged (w_files w) (w_files w') s pc pa pc' pa')
  ∨ (∃ e, r = Err e ∧ st_writeFailed s' = true
     ∧ (kept_on_disk (w_files w) (w_files w') s pc pa recs
        ∨ kept_on_disk (w_files w) (w_files w') s pc pa (recs ++ b))).
Proof.
  intros Hok Hne Hend Hnow H b recs.
  destruct (Store_Append_spec _ _ _ _ _ _ _ _ _ Hok Hne Hend Hnow H)
    as (_ & [_ _ _ _ _ _ Her] & [?|(_ & [(-> & Hl & Hex)|(e & -> & Hwf & _ & Hd)] & _)]).
  - by left.
  - rewrite blen_next_batch in *. right. left. auto.
  - right. right. eauto.
Qed.


(** The guards of Append. The empty batch, a closed store and a store whose
    last write failed are refused with their own errors; neither the store nor a
    file changes, and the observer sees exactly one failed append of zero
    bytes. *)
Theorem Append_guards now records s w :
  let refused e := Store_Append now records (s, w)
    = (Err e, (s, add_event (ObserveAppend (blen records) 0 false) w)) in
  (records = [] → refused (Errorf "cannot append empty batch"))
  ∧ (records ≠ [] → st_closed s = true → refused ErrStoreClosed)
  ∧ (records ≠ [] → st_closed s = false → st_writeFailed s = true → refused ErrStoreCorrupt).
Proof.
  unfold Store_Append. split_and!.
  - intros ->. done.
  - intros Hne Hcl. destruct records as [|r rs]; [done|].
    destruct (Z.eqb_spec (blen (r :: rs)) 0); [blen_lia|].
    unfold bind, get_obj. by rewrite Hcl.
  - intros Hne Hcl Hwf. destruct records as [|r rs]; [done|].
    destruct (Z.eqb_spec (blen (r :: rs)) 0); [blen_lia|].
    unfold bind, get_obj. by rewrite Hcl, Hwf.
Qed.

(** *** A concrete store: one empty segment in the directory "data". *)

Definition demo_dir : path := ["data"%string].
Definition demo_files : gmap path file :=
  <[demo_dir ++ [index_name 0] := mkFile [] 0]>
    (<[demo_dir ++ [log_name 0] := mkFile [] 0]> ∅).
Definition demo_store_sized (segmentMaxBytes : Z) (flushMode : string) : Store :=
  mkStore demo_dir segmentMaxBytes 65536 4096 flushMode false false
    [empty_segment demo_dir 0 true] 0 0.
Definition demo_store (flushMode : string) : Store := demo_store_sized 1048576 flushMode.
Definition demo_world (faults : list outcome) : World :=
  mkWorld demo_files ∅ faults [].
Definition demo_records : list ClientRecord :=
  [mkClientRecord (Some [x6b]) (Some [x76; x31]) [] 0; mkClientRecord None (Some [x76; x32]) [] 0].

Lemma demo_store_sized_ok n flushMode :
  n < two63 → store_ok demo_files (demo_store_sized n flushMode) [] [].
Proof.
  intros Hsized.
  pose proof (not_eq_sym (log_index_path_ne demo_dir 0 0)) as Hne.
  assert (data_at demo_files (demo_dir ++ [log_name 0]) = Some []) as Hl
    by (unfold demo_files; rewrite data_at_insert_ne by done; apply data_at_insert_eq).
  assert (data_at demo_files (demo_dir ++ [index_name 0]) = Some []) as Hi
    by apply data_at_insert_eq.
  split; try done; [|simpl; lia..].
  exists [], (empty_segment demo_dir 0 true). split; [done|]. split; [constructor|].
  split; [|split; [done|]].
  - split; simpl; rewrite ?blen_nil; try done; try lia; try apply contiguous_nil; try apply rel_ok_nil.
    exists []. split; [exact Hi|]. by exists [], [].
  - unfold demo_files. split.
    + intros name b Hsome Hb. apply base_of_name_inv in Hb as [-> Hb0].
      rewrite lookup_insert_ne in Hsome
        by (intros Heq; symmetry in Heq; by apply log_index_path_ne in Heq).
      destruct (decide (b = 0)) as [->|Hn]; [by constructor|].
      rewrite lookup_insert_ne in Hsome; [by destruct Hsome|].
      intros Heq. apply log_path_inj in Heq; lia.
    + intros b Hb. simpl in Hb. rewrite !lookup_insert_ne; [done|..].
      * apply log_index_path_ne.
      * intros Heq. apply index_path_inj in Heq; lia.
Qed.

Lemma demo_store_ok flushMode : store_ok demo_files (demo_store flushMode) [] [].
Proof. by apply demo_store_sized_ok. Qed.

Lemma Append_extends_log_witness :
  ∃ r s' w', Store_Append 1700000000000 demo_records
    (demo_store "sync", demo_world [Succeeds; Succeeds; Fails 3]) = (r, (s', w'))
  ∧ st_writeFailed s' = true ∧ r = Err ErrIO
  ∧ (kept_on_disk demo_files (w_files w') (demo_store "sync") [] [] []
     ∨ kept_on_disk demo_files (w_files w') (demo_store "sync") [] []
         (stamp 0 1700000000000 demo_records)).
Proof.
  assert (fst (Store_Append 1700000000000 demo_records
    (demo_store "sync", demo_world [Succeeds; Succeeds; Fails 3])) = Err ErrIO) as Hr
    by (vm_compute; reflexivity).
  destruct (Store_Append _ _ _) as [r [s' w']] eqn:E in *. simpl in Hr. subst r.
  exists (Err ErrIO), s', w'. split; [done|].
  pose proof (Append_extends_log 1700000000000 demo_records (demo_store "sync")
    (demo_world [Succeeds; Succeeds; Fails 3]) (Err ErrIO) s' w' [] [] (demo_store_ok "sync")) as H.
  specialize (H ltac:(discriminate) ltac:(vm_compute; reflexivity) ltac:(lia) E).
  destruct H as [(_ & Hr & _)|[(Hr & _)|(e & _ & Hwf & Hd)]];
    [discriminate Hr|discriminate Hr|].
  split; [exact Hwf|]. split; [reflexivity|]. exact Hd.
Defined.

