(* ===== verification/StoreRead.v ===== *)
(** * Read returns the stored records from an offset on, within a byte budget

    The segment search, the index search and the scan of [Store_Read] against a reference
    that selects from the list of records. *)

From S2P Require Import Prelude FileSystem Names Crc32 Model Format Segment Store StoreInv.
From S2P Require Import StoreAppend.
From Stdlib Require Import Init.Byte.

(** ** sort.Search *)

Lemma search_loop_spec f n fuel i j :
  (j - i <= fuel)%nat → (i <= j <= n)%nat →
  (i = 0%nat ∨ f (i - 1)%nat = false) → (j = n ∨ f j = true) →
  let k := search_loop fuel f i j in
  (i <= k <= j)%nat ∧ (k = 0%nat ∨ f (k - 1)%nat = false) ∧ (k = n ∨ f k = true).
Proof.
  revert i j. induction fuel as [|fuel IH]; intros i j Hfuel Hij Hi Hj;
    cbn [search_loop].
  - replace j with i in Hj by lia. auto with lia.
  - destruct (Nat.ltb_spec i j) as [Hlt|Hge].
    2:{ replace j with i in * by lia. auto with lia. }
    pose proof (Nat.div_mod_eq (i + j) 2) as Hd.
    pose proof (Nat.mod_upper_bound (i + j) 2 ltac:(lia)) as Hm.
    set (h := ((i + j) / 2)%nat) in *.
    destruct (f h) eqn:Efh; cbn [negb].
    + destruct (IH i h) as (? & ? & ?); try lia; auto. split; [lia|auto].
    + destruct (IH (h + 1)%nat j) as (? & ? & ?); try lia; auto.
      { right. by replace (h + 1 - 1)%nat with h by lia. }
      split; [lia|auto].
Qed.

(** The result is between a false and a true position, whatever [f] is. *)
Lemma sort_Search_spec n f :
  let k := sort_Search n f in
  (k <= n)%nat ∧ (k = 0%nat ∨ f (k - 1)%nat = false) ∧ (k = n ∨ f k = true).
Proof.
  destruct (search_loop_spec f n n 0 n) as (? & ? & ?); auto with lia.
  unfold sort_Search. split; [lia|auto].
Qed.

(** ** Collecting records *)

Lemma collect_app maxBytes l1 l2 c :
  collect maxBytes (l1 ++ l2) c =
  match collect maxBytes l1 c with inl c' => collect maxBytes l2 c' | inr x => inr x end.
Proof.
  revert c. induction l1 as [|r l1 IH]; intros c; [done|]. simpl.
  destruct (Offset r <? c_offset c); [apply IH|]. destruct (_ && _); [done|]. apply IH.
Qed.

(** Records below the cursor are skipped. *)
Lemma collect_skip maxBytes l c :
  Forall (fun r => Offset r < c_offset c) l → collect maxBytes l c = inl c.
Proof.
  intros H. induction H as [|r l Hr H IH]; [done|]. simpl.
  by rewrite (proj2 (Z.ltb_lt _ _) Hr).
Qed.

(** [fill maxBytes used started l]: the longest prefix of [l] within the budget,
    of which [used] bytes are spent; a first record is taken in any case. *)
Fixpoint fill (maxBytes used : Z) (started : bool) (l : list StoredRecord)
    : list StoredRecord :=
  match l with
  | [] => []
  | r :: l =>
    if started && (maxBytes <? used + recordSize r) then []
    else r :: fill maxBytes (used + recordSize r) true l
  end.

Definition scan_result (x : scan) : list StoredRecord :=
  match x with inl c => c_result c | inr l => l end.

Lemma collect_fill maxBytes l c :
  contiguous (c_offset c) l → 0 <= c_offset c → c_offset c + blen l < two64 →
  scan_result (collect maxBytes l c)
  = c_result c ++ fill maxBytes (c_bytes c) (0 <? blen (c_result c)) l.
Proof.
  revert c. induction l as [|r l IH]; intros c Hc H0 Hend; simpl.
  { by rewrite app_nil_r. }
  rewrite blen_cons in Hend. pose proof (blen_nonneg l).
  pose proof (Hc 0%nat r eq_refl) as Hr. rewrite Z.add_0_r in Hr.
  rewrite Hr, Z.ltb_irrefl. destruct (_ && _); simpl; [by rewrite app_nil_r|].
  rewrite (u64_small (c_offset c + 1)) by lia. rewrite IH; simpl.
  - rewrite <- app_assoc. simpl. do 3 f_equal. rewrite blen_app.
    destruct (Z.ltb_spec 0 (blen (c_result c) + blen [r])); [done|].
    pose proof (blen_nonneg (c_result c)). rewrite blen_cons, blen_nil in *. lia.
  - intros i x Hx. specialize (Hc (S i) x Hx). lia.
  - lia.
  - lia.
Qed.

(** ** Scanning a segment *)

Lemma on_seg_ReadAt_spec n pos x d seg w r w' :
  data_at (w_files w) (seg_path seg) = Some d → at_off d pos x → n = blen x →
  on_seg seg (Segment_ReadAt n pos) w = (r, w') →
  quiet w w' ∧ w_files w' = w_files w ∧ (r = Ok x ∨ (r = Err ErrIO ∧ w_faults w ≠ [])).
Proof.
  intros Hd Ha Hn H. unfold on_seg in H.
  destruct (Segment_ReadAt n pos (seg, w)) as [r1 [seg1 w1]] eqn:E. injection H as <- <-.
  by apply (Segment_ReadAt_spec _ _ _ _ _ _ _ _ _ Hd Ha Hn) in E as (_ & ? & ? & ?).
Qed.

(** The outcome of a computation that only reads: its value, or an I/O error
    when the schedule has a failure. *)
Definition reads {A} (w w' : World) (r : res A) (x : A) : Prop :=
  quiet w w' ∧ w_files w' = w_files w ∧ (r = Ok x ∨ (r = Err ErrIO ∧ w_faults w ≠ [])).

Lemma reads_bind {A B} (m : M World A) (k : A → M World B) w r w' x y :
  (∀ r1 w1, m w = (r1, w1) → reads w w1 r1 x) →
  (∀ r2 w1 w2, quiet w w1 → w_files w1 = w_files w → k x w1 = (r2, w2) → reads w1 w2 r2 y) →
  bind m k w = (r, w') → reads w w' r y.
Proof.
  intros Hm Hk H. binv H a w1 H1; apply Hm in H1 as (HQ & HF & [Hr|(Hr & Hn)]); simplify_eq.
  - apply Hk in H as (HQ' & HF' & Hr'); [|done..].
    split; [eauto with fs|]. split; [congruence|].
    destruct Hr' as [?|(? & ?)]; [by left|right; split; [done|eauto with fs]].
  - split; [done|]. split; [done|]. by right.
Qed.

Lemma reads_ret {A} (x : A) w r w' : ret x w = (r, w') → reads w w' r x.
Proof. intros [= <- <-]. split; [auto with fs|]. auto. Qed.

Lemma reads_lift {A} (x : A) w r w' v : v = Ok x → lift_res v w = (r, w') → reads w w' r x.
Proof. intros -> [= <- <-]. split; [auto with fs|]. auto. Qed.

Lemma reads_at n pos x d seg w r w' :
  data_at (w_files w) (seg_path seg) = Some d → at_off d pos x → n = blen x →
  on_seg seg (Segment_ReadAt n pos) w = (r, w') → reads w w' r x.
Proof. intros. by eapply on_seg_ReadAt_spec. Qed.

Lemma scan_segment_spec F dir maxB seg maxBytes b2 b1 c fuel w r w' :
  seg_ok F dir maxB seg (b1 ++ b2) → w_files w = F →
  (length b2 <= fuel)%nat →
  scan_segment fuel seg maxBytes (blen (seg_content b1)) c w = (r, w') →
  reads w w' r (collect maxBytes (concat b2) c).
Proof.
  revert b1 c fuel w r w'. induction b2 as [|b b2 IH]; intros b1 c fuel w r w' Hok HF Hfuel H.
  - rewrite app_nil_r in Hok. destruct Hok as [_ _ _ _ Hsz _ _ _ _ _ _ _ _ _].
    destruct fuel; cbn [scan_segment] in H; rewrite Hsz, Z.leb_refl in H; by apply reads_ret.
  - destruct fuel as [|fuel]; [simpl in Hfuel; lia|]. pose proof Hok as
      [_ _ Hf _ Hsz _ He _ _ _ _ _ _ _]. cbn [scan_segment] in H.
    pose proof (batch_bytes_lower b) as Hlow.
    assert (seg_size seg = blen (seg_content b1) + blen (batch_bytes b) + blen (seg_content b2))
      as Hsize by (rewrite Hsz, seg_content_app, seg_content_cons; blen_lia).
    pose proof (blen_nonneg (seg_content b2)).
    assert (encodable b) as Hb. { rewrite Forall_app, Forall_cons in He. tauto. }
    destruct (batch_prefix9 b Hb) as (h & rest & Hh & Hlen & _ & _ & Hu).
    pose proof (batch_at b1 b b2 []) as Hat. rewrite app_nil_r in Hat.
    destruct (Z.leb_spec (seg_size seg) (blen (seg_content b1))); [lia|].
    destruct (Z.ltb_spec (seg_size seg) (blen (seg_content b1) + 9)); [lia|].
    revert H. apply reads_bind with (x := h).
    { intros r1 w1. rewrite <- HF in Hf. apply (reads_at _ _ _ _ _ _ _ _ Hf); [|done].
      rewrite Hh in Hat. by apply at_off_app in Hat as [? _]. }
    intros r1 w1 w2 HQ1 HF1. rewrite Hu. unfold bind at 1, lift_res at 1.
    replace (9 + (blen (batch_bytes b) - 9)) with (blen (batch_bytes b)) by lia.
    destruct (Z.ltb_spec (seg_size seg) (blen (seg_content b1) + blen (batch_bytes b))); [lia|].
    apply reads_bind with (x := batch_bytes b).
    { intros r3 w3. apply reads_at with (d := seg_content (b1 ++ b :: b2)); [congruence|done..]. }
    intros r3 w3 w4 HQ3 HF3.
    pose proof (DecodeBatch_batch_bytes b [] Hb) as Hdec. rewrite app_nil_r in Hdec.
    rewrite Hdec. unfold bind at 1, lift_res at 1. simpl concat. rewrite collect_app.
    destruct (collect maxBytes b c) as [c'|l]; [|apply reads_ret].
    replace (blen (seg_content b1) + blen (batch_bytes b)) with (blen (seg_content (b1 ++ [b])))
      by (rewrite seg_content_app, seg_content_one; blen_lia).
    apply IH; [by rewrite <- app_assoc|congruence|simpl in Hfuel; lia].
Qed.

(** The scan starts at a batch, and the batches before it lie below the offset. *)
Lemma index_start_spec F dir maxB seg bs off :
  seg_ok F dir maxB seg bs →
  ∃ b1 b2, bs = b1 ++ b2 ∧ index_start seg off = blen (seg_content b1)
    ∧ Forall (fun r => Offset r < off) (concat b1).
Proof.
  intros Hok. unfold index_start.
  set (f := fun j => match seg_indexEntries seg !! j with
                     | Some e => off <? u64 (seg_baseOffset seg + RelativeOffset e)
                     | None => false end).
  destruct (sort_Search_spec (length (seg_indexEntries seg)) f) as (Hk & Hlow & _).
  set (k := sort_Search _ f) in *.
  destruct (Nat.ltb_spec 0 k) as [Hpos|]; [|by exists [], bs].
  destruct (lookup_lt_is_Some_2 (seg_indexEntries seg) (k - 1)) as [e He]; [lia|].
  destruct Hlow as [?|Hlow]; [lia|]. unfold f in Hlow. rewrite He in *.
  destruct Hok as [_ _ _ _ Hsz Hsm _ _ Hc Hn H0 Hend Hidx _].
  rewrite Forall_forall in Hidx. destruct (Hidx e) as (b1 & b & b2 & -> & Hp & Hr).
  { by apply list_elem_of_lookup_2 in He. }
  exists b1, (b :: b2). rewrite seg_content_app, concat_app in *. split; [done|].
  rewrite Hp, i64_small by blen_lia. split; [done|].
  apply contiguous_app in Hc as [Hc _]. rewrite Forall_forall. intros r Hin.
  apply (contiguous_offsets _ _ _ Hc) in Hin.
  rewrite u64_small in Hlow by blen_lia. apply Z.ltb_ge in Hlow. lia.
Qed.

Lemma batches_bytes bs : Z.of_nat (length bs) <= blen (seg_content bs).
Proof.
  induction bs as [|b bs IH]; [done|]. rewrite seg_content_cons, blen_app.
  pose proof (batch_bytes_lower b). simpl length. lia.
Qed.

Lemma read_segments_spec dir maxB segs pcs maxBytes c w r w' :
  Forall2 (seg_ok (w_files w) dir maxB) segs pcs →
  read_segments segs maxBytes c w = (r, w') →
  reads w w' r (scan_result (collect maxBytes (concat (concat pcs)) c)).
Proof.
  intros H. revert c r w'. remember (w_files w) as F eqn:HF. revert w HF.
  induction H as [|seg bs segs pcs Hs H IH]; intros w HF c r w' Hr; [by apply reads_ret|].
  cbn [read_segments] in Hr.
  destruct (index_start_spec _ _ _ _ _ (c_offset c) Hs) as (b1 & b2 & -> & Hi & Hskip).
  rewrite Hi in Hr. revert Hr. apply reads_bind with (x := collect maxBytes (concat b2) c).
  { intros r1 w1. apply (scan_segment_spec F dir maxB _ _ _ _ _ _ _ _ _ Hs); [done|].
    rewrite (so_size _ _ _ _ _ Hs), seg_content_app, blen_app.
    pose proof (batches_bytes b2). lia. }
  intros r1 w1 w2 HQ HF1. simpl concat. rewrite !concat_app, !collect_app.
  rewrite (collect_skip _ _ _ Hskip). destruct (collect maxBytes (concat b2) c) as [c'|l].
  - apply IH. congruence.
  - apply reads_ret.
Qed.

(** ** Read *)

(** The records from offset [off] on, of a log that starts at [earliest]. *)
Definition from_offset (earliest off : Z) (recs : list StoredRecord) : list StoredRecord :=
  drop (Z.to_nat (off - earliest)) recs.

Lemma chain_contiguous F dir maxB segs pcs e l :
  Forall2 (seg_ok F dir maxB) segs pcs → chain e segs l →
  contiguous e (concat (concat pcs)) ∧ l = e + blen (concat (concat pcs)).
Proof.
  intros H. revert e. induction H as [|seg bs segs pcs Hs H IH]; intros e Hch.
  { simpl in *. split; [apply contiguous_nil|]. rewrite blen_nil. lia. }
  destruct Hch as [<- Hch]. apply IH in Hch as [Hc ->]. simpl concat. rewrite concat_app.
  rewrite (so_next _ _ _ _ _ Hs) in *. rewrite blen_app. split; [|lia].
  apply contiguous_app. split; [by destruct Hs|done].
Qed.

Lemma chain_next_le F dir maxB segs pcs e l k seg :
  Forall2 (seg_ok F dir maxB) segs pcs → chain e segs l → segs !! k = Some seg →
  e <= seg_nextOffset seg.
Proof.
  intros H. revert e k. induction H as [|y bs segs pcs Hy H IH]; intros e k Hch Hk; [done|].
  destruct Hch as [<- Hch]. pose proof (so_next _ _ _ _ _ Hy).
  pose proof (blen_nonneg (concat bs)).
  destruct k as [|k]; simpl in Hk; [simplify_eq; lia|].
  apply IH with (k := k) in Hch; [lia|done].
Qed.

(** Every segment before one that ends at or below [off] ends there too. *)
Lemma chain_prefix_below F dir maxB segs pcs e l off k :
  Forall2 (seg_ok F dir maxB) segs pcs → chain e segs l →
  (k = 0%nat ∨ ∃ seg, segs !! (k - 1)%nat = Some seg ∧ seg_nextOffset seg <= off) →
  Forall (fun r => Offset r < off) (concat (concat (take k pcs))).
Proof.
  intros H. revert e k. induction H as [|seg bs segs pcs Hs H IH]; intros e k Hch Hk.
  { rewrite take_nil. constructor. }
  destruct k as [|k]; [constructor|]. destruct Hk as [?|(x & Hx & Hle)]; [done|].
  destruct Hch as [Hb Hch]. simpl. rewrite concat_app, Forall_app.
  replace (S k - 1)%nat with k in Hx by lia.
  assert (k = 0%nat ∨ ∃ seg, segs !! (k - 1)%nat = Some seg ∧ seg_nextOffset seg <= off) as Hk.
  { destruct k as [|k]; [by left|]. right. exists x. simpl in *. by rewrite Nat.sub_0_r. }
  split; [|by eapply IH].
  assert (seg_nextOffset seg <= off) as Hle'.
  { destruct k as [|k]; [simpl in Hx; congruence|]. simpl in Hx.
    pose proof (chain_next_le _ _ _ _ _ _ _ _ _ H Hch Hx). lia. }
  rewrite Forall_forall. intros r Hr.
  apply (contiguous_offsets _ _ _ (so_contiguous _ _ _ _ _ Hs)) in Hr.
  pose proof (so_next _ _ _ _ _ Hs). lia.
Qed.

Lemma store_ok_all F s pc pa :
  store_ok F s pc pa →
  Forall2 (seg_ok F (st_dir s) (st_maxBatchBytes s)) (st_segments s) (pc ++ [pa])
  ∧ chain (st_earliestOffset s) (st_segments s) (st_logEndOffset s)
  ∧ concat (concat (pc ++ [pa])) = store_records pc pa
  ∧ 0 <= st_earliestOffset s ∧ st_logEndOffset s < two64.
Proof.
  intros [_ _ (closed & a & Hs & Hc & Ha & Hch & _) _ _ _]. rewrite Hs. split_and!; [|done|..].
  - apply Forall2_app; [done|]. constructor; [done|constructor].
  - unfold store_records. rewrite concat_app. simpl. by rewrite app_nil_r.
  - destruct Hc as [|c bs closed' pc' Hc0 _]; destruct Hch as [<- _]; [by destruct Ha|by destruct Hc0].
  - apply chain_last in Hch as [_ ->]. by destruct Ha.
Qed.

Lemma store_records_contiguous F s pc pa :
  store_ok F s pc pa →
  contiguous (st_earliestOffset s) (store_records pc pa)
  ∧ st_logEndOffset s = st_earliestOffset s + blen (store_records pc pa).
Proof.
  intros Hok. destruct (store_ok_all _ _ _ _ Hok) as (Hf & Hch & <- & _).
  by eapply chain_contiguous.
Qed.

(** Collecting from the start of the log and from the offset agree. *)
Lemma collect_from_offset earliest off maxBytes recs :
  contiguous earliest recs → 0 <= earliest → earliest <= off →
  earliest + blen recs < two64 → off <= earliest + blen recs →
  scan_result (collect maxBytes recs (mkCursor [] 0 off))
  = fill maxBytes 0 false (from_offset earliest off recs).
Proof.
  intros Hc H0 Hle Hend Hoff. unfold from_offset.
  set (n := Z.to_nat (off - earliest)).
  assert (blen (take n recs) = off - earliest) as Hn
    by (unfold blen in *; rewrite length_take; lia).
  rewrite <- (take_drop n recs) in Hc, Hend |- * at 1.
  apply contiguous_app in Hc as [Hc1 Hc2]. rewrite collect_app, collect_skip.
  - rewrite collect_fill; [done|..]; simpl; rewrite ?blen_app, ?Hn in *; try lia.
    by replace off with (earliest + (off - earliest)) by lia.
  - rewrite Forall_forall. intros r Hr. apply (contiguous_offsets _ _ _ Hc1) in Hr.
    simpl. lia.
Qed.

(** The segment that Read starts at: it exists, and the segments before it hold
    only smaller offsets. *)
Definition find_segment (segs : list Segment) (off : Z) : nat :=
  sort_Search (length segs) (fun i =>
    match segs !! i with Some seg => off <? seg_nextOffset seg | None => false end).

Lemma find_segment_spec F s pc pa off :
  store_ok F s pc pa → off < st_logEndOffset s →
  (find_segment (st_segments s) off < length (st_segments s))%nat
  ∧ Forall (fun r => Offset r < off)
      (concat (concat (take (find_segment (st_segments s) off) (pc ++ [pa])))).
Proof.
  intros Hok Hoff. destruct (store_ok_all _ _ _ _ Hok) as (Hf & Hch & _).
  unfold find_segment. set (f := fun i => _).
  destruct (sort_Search_spec (length (st_segments s)) f) as (Hk & Hlow & _).
  set (k := sort_Search _ f) in *.
  assert (k = 0%nat ∨ ∃ seg, st_segments s !! (k - 1)%nat = Some seg ∧ seg_nextOffset seg <= off)
    as Hbelow.
  { destruct k as [|k']; [by left|]. right. destruct Hlow as [?|Hlow]; [done|].
    destruct (lookup_lt_is_Some_2 (st_segments s) (S k' - 1)) as [seg Hseg]; [lia|].
    exists seg. split; [done|]. unfold f in Hlow. rewrite Hseg in Hlow. by apply Z.ltb_ge in Hlow. }
  split; [|by eapply chain_prefix_below].
  destruct (Nat.lt_ge_cases k (length (st_segments s))) as [|Hge]; [done|]. exfalso.
  destruct (ok_segments _ _ _ _ Hok) as (cl & a & Hs & _).
  destruct (active_next _ _ _ _ _ _ Hok Hs) as (Hnext & _).
  replace k with (length (st_segments s)) in Hbelow by lia. rewrite Hs, length_app in Hbelow.
  simpl in Hbelow. destruct Hbelow as [?|(x & Hx & Hle)]; [lia|].
  rewrite lookup_app_r in Hx by lia.
  replace (length cl + 1 - 1 - length cl)%nat with 0%nat in Hx by lia.
  simpl in Hx. simplify_eq. lia.
Qed.

Lemma Store_Read_spec off maxBytes s w r s' w' pc pa :
  store_ok (w_files w) s pc pa → 0 < maxBytes →
  Store_Read off maxBytes (s, w) = (r, (s', w')) →
  s' = s ∧ quiet w w' ∧ w_files w' = w_files w
  ∧ (((off < st_earliestOffset s ∨ st_logEndOffset s < off) ∧ r = Err ErrOffsetOutOfRange)
     ∨ (st_earliestOffset s <= off <= st_logEndOffset s
        ∧ (r = Ok (fill maxBytes 0 false
                     (from_offset (st_earliestOffset s) off (store_records pc pa)))
           ∨ (r = Err ErrIO ∧ w_faults w ≠ [])))).
Proof.
  intros Hok Hmax H. unfold Store_Read, observed_read in H.
  destruct (Z.leb_spec maxBytes 0); [lia|]. unfold bind, get_obj in H.
  pose proof Hok as [Hcl Hwf _ _ _ _]. rewrite Hcl, Hwf in H.
  destruct (store_ok_all _ _ _ _ Hok) as (Hf & Hch & Hrecs & He0 & Hl64).
  destruct (store_records_contiguous _ _ _ _ Hok) as (Hcon & Hlog).
  destruct (Z.ltb_spec off (st_earliestOffset s)) as [Hlo|Hlo]; cbn [orb] in H.
  { injection H as <- <- <-. split_and!; auto with fs. }
  destruct (Z.ltb_spec (st_logEndOffset s) off) as [Hhi|Hhi].
  { injection H as <- <- <-. split_and!; auto with fs. }
  destruct (Z.eqb_spec off (st_logEndOffset s)) as [->|Hne].
  { injection H as <- <- <-. split_and!; auto with fs. right. split; [lia|]. left. f_equal.
    unfold from_offset. rewrite drop_ge; [done|]. unfold blen in *. lia. }
  change (sort_Search _ _) with (find_segment (st_segments s) off) in H.
  destruct (find_segment_spec _ _ _ _ off Hok) as (Hlt & Hskip); [lia|].
  set (k := find_segment _ off) in *.
  destruct (Nat.leb_spec (length (st_segments s)) k); [lia|].
  destruct (io _ (s, w)) as [r1 [s1 w1]] eqn:E. injection H as <- <- <-.
  apply io_inv in E as [-> E].
  apply (read_segments_spec (st_dir s) (st_maxBatchBytes s) _ (drop k (pc ++ [pa]))) in E
    as (HQ & HF & Hr); [|by apply Forall2_drop].
  split_and!; [done|eauto with fs|done|]. right. split; [lia|].
  destruct Hr as [-> |?]; [left|by right]. f_equal.
  rewrite <- (collect_from_offset (st_earliestOffset s)) by (done || lia).
  rewrite <- Hrecs. rewrite <- (take_drop k (pc ++ [pa])) at 2.
  rewrite !concat_app, collect_app, (collect_skip _ (concat (concat (take k _)))); done.
Qed.

(** ** What the byte budget means *)

Definition total_size (l : list StoredRecord) : Z := fold_right (fun r t => recordSize r + t) 0 l.

Lemma fill_prefix maxBytes used started l :
  ∃ rest, l = fill maxBytes used started l ++ rest
  ∧ match rest with
    | [] => True
    | r :: _ => (started = true ∨ fill maxBytes used started l ≠ [])
        ∧ maxBytes < used + total_size (fill maxBytes used started l) + recordSize r
    end.
Proof.
  revert used started. induction l as [|r l IH]; intros used started; simpl; [by exists []|].
  destruct (started && (maxBytes <? used + recordSize r)) eqn:E.
  - exists (r :: l). split; [done|]. apply andb_true_iff in E as [-> E%Z.ltb_lt].
    simpl. split; [by left|]. lia.
  - destruct (IH (used + recordSize r) true) as (rest & Heq & Hrest).
    exists rest. simpl. split; [by f_equal|]. destruct rest as [|x rest]; [done|].
    destruct Hrest as [_ Hlt]. split; [by right|]. lia.
Qed.

Lemma fill_budget maxBytes used l :
  used <= maxBytes → used + total_size (fill maxBytes used true l) <= maxBytes.
Proof.
  revert used. induction l as [|r l IH]; intros used Hu; simpl; [lia|].
  destruct (Z.ltb_spec maxBytes (used + recordSize r)); simpl; [lia|].
  specialize (IH (used + recordSize r)). lia.
Qed.

Lemma fill_full maxBytes used l :
  maxBytes < used → (∀ r, r ∈ l → 0 <= recordSize r) → fill maxBytes used true l = [].
Proof.
  intros Hu Hpos. destruct l as [|r l]; [done|]. simpl.
  assert (0 <= recordSize r) by (apply Hpos; by constructor).
  destruct (Z.ltb_spec maxBytes (used + recordSize r)); [done|lia].
Qed.

Lemma recordSize_pos r : 16 <= recordSize r.
Proof.
  unfold recordSize. assert (∀ hs n, 0 <= n →
    0 <= fold_left (fun size h => size + (blen (h_Key h) + blen (h_Value h))) hs n) as H.
  { induction hs as [|h hs IH]; intros n Hn; simpl; [done|]. apply IH. blen_lia. }
  specialize (H (Headers r) (olen (Key r) + olen (Value r))).
  pose proof (olen_nonneg (Key r)). pose proof (olen_nonneg (Value r)). lia.
Qed.

Lemma total_size_nonneg l : 0 <= total_size l.
Proof. induction l as [|r l IH]; simpl; [lia|]. pose proof (recordSize_pos r). lia. Qed.

Lemma total_size_app l k : total_size (l ++ k) = total_size l + total_size k.
Proof. induction l as [|r l IH]; simpl; [done|]. rewrite IH. lia. Qed.

(** A budget for all records takes them all. *)
Lemma fill_all maxBytes l : total_size l <= maxBytes → fill maxBytes 0 false l = l.
Proof.
  intros Hsize. destruct (fill_prefix maxBytes 0 false l) as (rest & Heq & Hrest).
  destruct rest as [|x rest]; [by rewrite app_nil_r in Heq|]. exfalso.
  destruct Hrest as [_ Hlt]. rewrite Heq, total_size_app in Hsize. simpl in Hsize.
  pose proof (total_size_nonneg rest). lia.
Qed.

Lemma stamp_nonempty base ts rs : rs ≠ [] → stamp base ts rs ≠ [].
Proof. destruct rs; [done|]. by rewrite stamp_cons. Qed.

Lemma total_size_pos l : l ≠ [] → 0 < total_size l.
Proof.
  destruct l as [|r l]; [done|]. simpl. pose proof (recordSize_pos r).
  pose proof (total_size_nonneg l). lia.
Qed.

(** Reading the batch that an append added. *)
Lemma read_appended now records s w first last s1 w1 maxBytes r s2 w2 pc pa :
  store_ok (w_files w) s pc pa → records ≠ [] → w_faults w = [] →
  st_logEndOffset s + blen records < two64 → - two63 < now < two63 →
  Store_Append now records (s, w) = (Ok (first, last), (s1, w1)) →
  total_size (stamp first now records) <= maxBytes →
  Store_Read first maxBytes (s1, w1) = (r, (s2, w2)) →
  r = Ok (stamp first now records) ∧ s2 = s1.
Proof.
  intros Hok Hne Hnf Hend Hnow HA Hsize HR.
  destruct (Store_Append_spec _ _ _ _ _ _ _ _ _ Hok Hne Hend Hnow HA)
    as (HQ & [_ _ _ _ _ _ He] & [(_ & ? & _)|(_ & [(Hr & Hlog & pc' & pa' & Hok1 & Hrecs & _)|(e & ? & _)] & _)]);
    [done| |done]. injection Hr as -> ->.
  pose proof (total_size_pos _ (stamp_nonempty (st_logEndOffset s) now _ Hne)) as Hpos.
  assert (0 < maxBytes) as Hm by lia.
  destruct (store_records_contiguous _ _ _ _ Hok) as (_ & Hl0).
  rewrite blen_next_batch in *. pose proof (blen_nonneg records).
  pose proof (blen_nonneg (store_records pc pa)).
  apply (Store_Read_spec _ _ _ _ _ _ _ pc' pa' Hok1 Hm) in HR
    as (-> & _ & _ & [(? & _)|(_ & [->|(_ & Hf)])]); [lia| |by destruct Hf; apply HQ].
  split; [|done]. f_equal. rewrite Hrecs, He. unfold from_offset. rewrite Hl0 at 1.
  replace (Z.to_nat _) with (length (store_records pc pa)) by (unfold blen in *; lia).
  rewrite drop_app_length. by apply fill_all.
Qed.

(** ** Properties *)

(** C9: Read on a well-formed store, under any schedule of I/O failures. An
    offset outside [earliest, logEnd] is refused with ErrOffsetOutOfRange; for
    any other offset the binary searches, the scan from the closest index entry
    and the batch decoding together return exactly the records from that offset
    on that fit the byte budget (none at the log end), unless a system call
    failed. Neither the store nor a file changes. *)
Theorem Read_returns_log off maxBytes s w r s' w' pc pa :
  store_ok (w_files w) s pc pa → 0 < maxBytes →
  Store_Read off maxBytes (s, w) = (r, (s', w')) →
  s' = s ∧ w_files w' = w_files w
  ∧ (((off < st_earliestOffset s ∨ st_logEndOffset s < off) ∧ r = Err ErrOffsetOutOfRange)
     ∨ (st_earliestOffset s <= off <= st_logEndOffset s
        ∧ (r = Ok (fill maxBytes 0 false
                     (from_offset (st_earliestOffset s) off (store_records pc pa)))
           ∨ (r = Err ErrIO ∧ w_faults w ≠ [])))).
Proof.
  intros Hok Hm H. by destruct (Store_Read_spec _ _ _ _ _ _ _ _ _ Hok Hm H) as (? & _ & ? & ?).
Qed.

(** C21: progress and budget of Read. Below the log end a successful read
    returns at least one record; the records are consecutive from the requested
    offset; more than one record only within maxBytes; and the read stops early
    only when the next record would exceed maxBytes. *)
Theorem Read_progress_and_budget off maxBytes s w l s' w' pc pa :
  store_ok (w_files w) s pc pa → 0 < maxBytes →
  st_earliestOffset s <= off < st_logEndOffset s →
  Store_Read off maxBytes (s, w) = (Ok l, (s', w')) →
  l ≠ [] ∧ contiguous off l ∧ (blen l = 1 ∨ total_size l <= maxBytes)
  ∧ ∃ rest, from_offset (st_earliestOffset s) off (store_records pc pa) = l ++ rest
    ∧ match rest with [] => True | x :: _ => maxBytes < total_size l + recordSize x end.
Proof.
  intros Hok Hm Hoff H.
  destruct (Store_Read_spec _ _ _ _ _ _ _ _ _ Hok Hm H) as (_ & _ & _ & [(? & _)|(_ & Hr)]);
    [lia|]. destruct Hr as [Hl|[? _]]; [injection Hl as ->|done].
  destruct (store_records_contiguous _ _ _ _ Hok) as (Hcon & Hlog).
  set (recs := store_records pc pa) in *. set (e := st_earliestOffset s) in *.
  assert (contiguous off (from_offset e off recs) ∧ from_offset e off recs ≠ []) as [Hc Hne].
  { unfold from_offset. rewrite <- (take_drop (Z.to_nat (off - e)) recs) in Hcon.
    apply contiguous_app in Hcon as [_ Hcon].
    replace (e + blen (take (Z.to_nat (off - e)) recs)) with off in Hcon
      by (unfold blen in *; rewrite length_take; lia). split; [done|].
    intros Hd%(f_equal length). rewrite length_drop in Hd. unfold blen in *. simpl in Hd. lia. }
  destruct (from_offset e off recs) as [|x xs] eqn:E; [done|]. rewrite <- E in *.
  destruct (fill_prefix maxBytes 0 false (from_offset e off recs)) as (rest & Heq & Hrest).
  split_and!.
  - by rewrite E.
  - rewrite Heq in Hc. by apply contiguous_app in Hc as [? _].
  - rewrite E. simpl. destruct (Z.le_gt_cases (recordSize x) maxBytes) as [Hle|Hgt].
    + right. pose proof (fill_budget maxBytes (0 + recordSize x) xs). lia.
    + left. rewrite fill_full; [done|lia|]. intros y _. pose proof (recordSize_pos y). lia.
  - exists rest. split; [done|]. destruct rest; [done|]. destruct Hrest as [_ Hrest]. lia.
Qed.

(** The guards of Read: a budget that is not positive, a closed store and a
    store whose last write failed are refused with their own errors; nothing
    changes, and the observer sees one failed read of nothing. *)
Theorem Read_guards off maxBytes s w :
  let refused e := Store_Read off maxBytes (s, w)
    = (Err e, (s, add_event (ObserveRead 0 0 false) w)) in
  (maxBytes <= 0 → refused (Errorf "maxBytes must be greater than zero"))
  ∧ (0 < maxBytes → st_closed s = true → refused ErrStoreClosed)
  ∧ (0 < maxBytes → st_closed s = false → st_writeFailed s = true → refused ErrStoreCorrupt).
Proof.
  unfold Store_Read, observed_read. split_and!.
  - intros Hm. by rewrite (proj2 (Z.leb_le _ _) Hm).
  - intros Hm Hcl. rewrite (proj2 (Z.leb_gt _ _) Hm). unfold bind, get_obj. by rewrite Hcl.
  - intros Hm Hcl Hwf. rewrite (proj2 (Z.leb_gt _ _) Hm). unfold bind, get_obj.
    by rewrite Hcl, Hwf.
Qed.

(** A consumer reads what the producer wrote. When Append succeeds with
    first offset [first], a read at [first] with a budget for the whole batch
    returns exactly the records of the batch, with the offsets and the timestamp
    they were given. *)
Theorem read_after_append now records s w first last s1 w1 maxBytes r s2 w2 pc pa :
  store_ok (w_files w) s pc pa → records ≠ [] → w_faults w = [] →
  st_logEndOffset s + blen records < two64 → - two63 < now < two63 →
  Store_Append now records (s, w) = (Ok (first, last), (s1, w1)) →
  total_size (stamp first now records) <= maxBytes →
  Store_Read first maxBytes (s1, w1) = (r, (s2, w2)) →
  r = Ok (stamp first now records).
Proof.
  intros Hok Hne Hnf Hend Hnow HA Hsize HR. by eapply (read_appended now records s w).
Qed.

(** *** Witnesses: a store with one batch of two records. *)

Definition demo_appended : (Store * World) :=
  snd (Store_Append 1700000000000 demo_records (demo_store "async", demo_world [])).

Lemma demo_append_run :
  Store_Append 1700000000000 demo_records (demo_store "async", demo_world [])
  = (Ok (0, 1), (fst demo_appended, snd demo_appended)).
Proof. vm_compute. reflexivity. Qed.

Lemma demo_appended_ok :
  ∃ pc pa, store_ok (w_files (snd demo_appended)) (fst demo_appended) pc pa.
Proof.
  destruct (Store_Append_spec 1700000000000 demo_records (demo_store "async") (demo_world [])
    _ _ _ [] [] (demo_store_ok "async") ltac:(discriminate) ltac:(vm_compute; reflexivity)
    ltac:(lia) demo_append_run)
    as (_ & _ & [(_ & Hr & _)|(_ & [(_ & _ & pc & pa & Hok & _)|(e & Hr & _)] & _)]);
    [discriminate Hr|eauto|discriminate Hr].
Qed.

Lemma Read_returns_log_witness :
  ∃ r s' w', Store_Read 7 100 (demo_store "sync", demo_world []) = (r, (s', w'))
    ∧ r = Err ErrOffsetOutOfRange ∧ s' = demo_store "sync".
Proof.
  destruct (Store_Read 7 100 (demo_store "sync", demo_world [])) as [r [s' w']] eqn:E.
  exists r, s', w'. split; [done|].
  destruct (Read_returns_log 7 100 (demo_store "sync") (demo_world []) r s' w' [] []
    (demo_store_ok "sync") ltac:(lia) E) as (Hs & _ & [(_ & Hr)|(Hoff & _)]); [done|].
  simpl in Hoff. lia.
Defined.

Lemma Read_progress_and_budget_witness :
  ∃ l, fst (Store_Read 1 1 demo_appended) = Ok l ∧ l ≠ [] ∧ contiguous 1 l.
Proof.
  destruct demo_appended_ok as (pc & pa & Hok).
  assert (is_ok (fst (Store_Read 1 1 demo_appended)) = true) as Hr by (vm_compute; reflexivity).
  assert (st_earliestOffset (fst demo_appended) = 0 ∧ st_logEndOffset (fst demo_appended) = 2)
    as [He Hl] by (vm_compute; split; reflexivity).
  destruct demo_appended as [s w]. destruct (Store_Read 1 1 (s, w)) as [[l|e|] [s' w']] eqn:E;
    [|discriminate Hr..].
  exists l. split; [reflexivity|]. cbn [fst snd] in *.
  destruct (Read_progress_and_budget 1 1 s w l s' w' pc pa Hok ltac:(lia) ltac:(lia) E)
    as (Hne & Hc & _). split; assumption.
Defined.

Lemma read_after_append_witness :
  fst (Store_Read 0 65536 demo_appended) = Ok (stamp 0 1700000000000 demo_records).
Proof.
  rewrite (surjective_pairing demo_appended).
  destruct (Store_Read 0 65536 (fst demo_appended, snd demo_appended)) as [r [s2 w2]] eqn:ER.
  apply (read_after_append 1700000000000 demo_records (demo_store "async") (demo_world [])
    0 1 (fst demo_appended) (snd demo_appended) 65536 r s2 w2 [] []); try exact ER;
    [apply demo_store_ok|discriminate|reflexivity|vm_compute; done|lia
    |apply demo_append_run|vm_compute; done].
Defined.
