(* ===== verification/StoreRetention.v ===== *)
(** * Retention drops whole segments from the old end of the log

    The two loops of [Store_ApplyRetention] keep the invariant and remove a prefix of the
    closed segments, under any schedule of failures. *)

From S2P Require Import Prelude FileSystem Names Crc32 Model Format Segment Store Retention.
From S2P Require Import StoreInv StoreAppend StoreRead.
From Stdlib Require Import Init.Byte.

(** ** The calls *)

Lemma fs_remove_spec p w r w' f :
  w_files w !! p = Some f → fs_remove p w = (r, w') →
  quiet w w' ∧ ((r = Ok tt ∧ w_files w' = delete p (w_files w))
                ∨ (r = Err ErrIO ∧ w_faults w ≠ [] ∧ w_files w' = w_files w)).
Proof.
  intros Hp H. unfold fs_remove in H. pop_outcome H o w1 HF HQ HS.
  rewrite HF, Hp in H. destruct o as [|n]; injection H as <- <-.
  - split; [auto with fs|]. by left.
  - split; [auto with fs|]. right. split; [done|]. split; [by intros ?%HS|done].
Qed.

Lemma fs_sync_dir_spec d w r w' :
  fs_sync_dir d w = (r, w') →
  quiet w w' ∧ w_files w' = w_files w ∧ (r = Ok tt ∨ (r = Err ErrIO ∧ w_faults w ≠ [])).
Proof.
  unfold fs_sync_dir. intros H. pop_outcome H o w1 HF HQ HS.
  destruct o as [|n]; injection H as <- <-; [by auto|].
  split; [done|]. split; [done|]. right. split; [done|]. by intros ?%HS.
Qed.

(** A call that changes no file: it succeeds or, with faults scheduled, fails. *)
Definition harmless (w w' : World) (r : res unit) : Prop :=
  quiet w w' ∧ w_files w' = w_files w ∧ (r = Ok tt ∨ (r = Err ErrIO ∧ w_faults w ≠ [])).

Lemma Segment_Close_spec seg w r seg' w' :
  Segment_Close (seg, w) = (r, (seg', w')) →
  harmless w w' r ∧ ∃ b, seg' = seg_with_handlesClosed b seg.
Proof.
  unfold Segment_Close, bind at 1, get_obj. destruct (seg_handlesClosed seg) eqn:Eh.
  { intros [= <- <- <-]. split; [split_and!; auto with fs|].
    exists true. rewrite <- Eh. by destruct seg. }
  unfold bind at 1, modify, attempt, io.
  unfold bind. destruct (fs_close (seg_path seg) w) as [r1 w1] eqn:E1.
  apply fs_close_spec in E1 as (HQ1 & HF1 & Hr1).
  assert (∃ v1, match r1 with Panic => (Panic, (seg_with_handlesClosed true seg, w1))
    | _ => (Ok r1, (seg_with_handlesClosed true seg, w1)) end = (Ok v1, (seg_with_handlesClosed true seg, w1))
    ∧ v1 = r1) as (v1 & -> & ->) by (destruct Hr1 as [->|[-> _]]; eauto).
  destruct (fs_close (seg_indexPath seg) w1) as [r2 w2] eqn:E2.
  apply fs_close_spec in E2 as (HQ2 & HF2 & Hr2).
  assert (∀ x : Segment * World, match r2 with Panic => (Panic, x) | _ => (Ok r2, x) end = (Ok r2, x))
    as -> by (intros; by destruct Hr2 as [->|[-> _]]).
  intros [= <- <- <-]. split; [|eauto]. split; [eauto with fs|]. split; [congruence|].
  destruct Hr1 as [->|[-> ?]], Hr2 as [->|[-> ?]]; simpl; eauto with fs.
Qed.

(** ** Deleting the oldest segment *)

(** The log file of base [b] is gone, nothing else but its index file changed. *)
Definition dropped_files (F F' : gmap path file) (dir : path) (b : Z) : Prop :=
  F' !! (dir ++ [log_name b]) = None
  ∧ (F' !! (dir ++ [index_name b]) = None
     ∨ F' !! (dir ++ [index_name b]) = F !! (dir ++ [index_name b]))
  ∧ ∀ p, p ≠ dir ++ [log_name b] → p ≠ dir ++ [index_name b] → F' !! p = F !! p.

Lemma chain_above F dir maxB segs pcs e l :
  Forall2 (seg_ok F dir maxB) segs pcs → chain e segs l →
  Forall (fun c => e <= seg_baseOffset c) segs.
Proof.
  intros H. revert e. induction H as [|c bs segs pcs Hc H IH]; intros e Hch; [constructor|].
  destruct Hch as [<- Hch]. constructor; [lia|]. apply IH in Hch.
  eapply Forall_impl; [exact Hch|]. intros x Hx. simpl in Hx.
  pose proof (so_next _ _ _ _ _ Hc). blen_pos. lia.
Qed.

Lemma store_ok_drop F F' s bs pc pa seg rest :
  store_ok F s (bs :: pc) pa → st_segments s = seg :: rest →
  dropped_files F F' (st_dir s) (seg_baseOffset seg) →
  let s' := match rest with
            | [] => s
            | first :: _ => st_with_earliestOffset (seg_baseOffset first)
                              (st_with_segments rest s)
            end in
  store_ok F' s' pc pa ∧ st_segments s' = rest
  ∧ st_earliestOffset s' = st_earliestOffset s + blen (concat bs)
  ∧ Forall (fun c => seg_baseOffset c ≠ seg_baseOffset seg) rest.
Proof.
  intros Hok Hs (Hl & Hi & HF) s'.
  pose proof Hok as [Hcl Hwf (closed & a & Hs' & Hc & Ha & Hch & Hn & Hidx) Hne Hm1 Hm2].
  rewrite Hs in Hs'. destruct closed as [|seg0 closed]; [by inversion Hc|].
  simpl in Hs'. injection Hs' as <- ->.
  inversion Hc as [|? ? ? ? Hseg Hc']; subst. inversion Hne as [|? ? Hbs Hne']; subst.
  pose proof (seg_ok_range _ _ _ _ _ Hseg) as Hrange. destruct Hch as [He Hch].
  assert (Forall2 (seg_ok F (st_dir s) (st_maxBatchBytes s)) (closed ++ [a]) (pc ++ [pa]))
    as Hall by (apply Forall2_app; [done|]; constructor; [done|constructor]).
  pose proof (so_next _ _ _ _ _ Hseg) as Hnext.
  pose proof (concat_nonempty _ (so_encodable _ _ _ _ _ Hseg) Hbs) as Hpos.
  assert (Forall (fun c => seg_baseOffset c ≠ seg_baseOffset seg) (closed ++ [a])) as Hdiff.
  { eapply Forall_impl; [by eapply chain_above|]. simpl. lia. }
  apply (Forall2_closed_frame F F' _ _ _ _ (seg_baseOffset seg)) in Hall; [|done..|].
  2:{ intros p Hp1 Hp2. unfold data_at. by rewrite HF. }
  assert (∀ p, is_Some (F' !! p) → is_Some (F !! p)) as Hdom.
  { intros p. destruct (decide (p = st_dir s ++ [log_name (seg_baseOffset seg)])) as [->|Hp1].
    { rewrite Hl. by intros []. }
    destruct (decide (p = st_dir s ++ [index_name (seg_baseOffset seg)])) as [->|Hp2];
      [|by rewrite HF]. destruct Hi as [-> | ->]; [by intros []|done]. }
  assert (∃ first rest, closed ++ [a] = first :: rest) as (first & rest & Hrest)
    by (destruct closed; simpl; eauto).
  unfold s'. rewrite Hrest. rewrite <- Hrest. simpl.
  rewrite Hrest in Hch. destruct Hch as [Hfirst Hch].
  split; [|split; [done|split; [lia|done]]].
  split; try done. exists closed, a. apply Forall2_app_inv in Hall as [Hc2 Ha2];
    [|by apply Forall2_length in Hc']. inversion Ha2; subst.
  split; [done|]. split; [done|]. split; [done|]. split; [|split].
  - rewrite Hrest. simpl. by rewrite Hfirst.
  - intros name b Hsome Hb. cbn [st_dir st_with_earliestOffset st_with_segments] in Hsome.
    pose proof (Hn name b (Hdom _ Hsome) Hb) as Hin.
    simpl in Hin. apply elem_of_cons in Hin as [->|Hin]; [|done].
    apply base_of_name_inv in Hb as [-> _]. rewrite Hl in Hsome. by destruct Hsome.
  - intros b Hb. specialize (Hidx b Hb). apply eq_None_not_Some. intros Hx%Hdom.
    simpl in Hx. rewrite Hidx in Hx. by destruct Hx.
Qed.

(** What deleting the oldest of several segments does. *)
Lemma deleteOldestSegment_spec s w r s' w' bs pc pa seg rest :
  store_ok (w_files w) s (bs :: pc) pa → st_segments s = seg :: rest →
  deleteOldestSegment (s, w) = (r, (s', w')) →
  quiet w w'
  ∧ ((r = Err ErrIO ∧ w_faults w ≠ [] ∧ s' = s ∧ w_files w' = w_files w)
     ∨ (store_ok (w_files w') s' pc pa ∧ st_segments s' = rest
        ∧ st_earliestOffset s' = st_earliestOffset s + blen (concat bs)
        ∧ st_logEndOffset s' = st_logEndOffset s ∧ same_conf s s'
        ∧ dropped_files (w_files w) (w_files w') (st_dir s) (seg_baseOffset seg)
        ∧ (r = Ok tt ∨ (r = Err ErrIO ∧ w_faults w ≠ [])))).
Proof.
  intros Hok Hs H. destruct (store_ok_all _ _ _ _ Hok) as (Hall & _). rewrite Hs in Hall.
  inversion Hall as [|? ? ? ? Hseg Hrest]; subst. unfold deleteOldestSegment in H.
  destruct (seg_ok_files _ _ _ _ _ Hseg) as (f & g & Hf & _ & Hg & _ & Hne).
  pose proof (so_path _ _ _ _ _ Hseg) as Hp. pose proof (so_indexPath _ _ _ _ _ Hseg) as Hip.
  rewrite Hs in H. destruct (fs_remove (seg_path seg) w) as [r0 w0] eqn:E0.
  apply (fs_remove_spec _ _ _ _ _ Hf) in E0 as (HQ0 & [(-> & HF0)|(-> & Hn & HF0)]).
  2:{ injection H as <- <- <-. split; [done|]. by left. }
  destruct rest as [|first rest]; [by apply Forall2_length in Hrest; rewrite length_app in Hrest; simpl in Hrest; lia|].
  set (w1 := add_event SegmentDeleted w0) in H.
  assert (w_files w1 !! seg_indexPath seg = Some g) as Hg1
    by (unfold w1; simpl; rewrite HF0; by rewrite lookup_delete_ne).
  destruct (fs_remove (seg_indexPath seg) w1) as [r1 w2] eqn:E1.
  apply (fs_remove_spec _ _ _ _ _ Hg1) in E1 as (HQ1 & Hr1).
  destruct (Segment_Close (seg, w2)) as [r2 [seg2 w3]] eqn:E2.
  apply Segment_Close_spec in E2 as [(HQ2 & HF2 & Hr2) _].
  destruct (fs_sync_dir _ w3) as [r3 w4] eqn:E3.
  apply fs_sync_dir_spec in E3 as (HQ3 & HF3 & Hr3). injection H as <- <- <-.
  assert (quiet w w1) as HQw1 by (unfold w1; eauto with fs).
  assert (dropped_files (w_files w) (w_files w4) (st_dir s) (seg_baseOffset seg)) as Hdrop.
  { rewrite HF3, HF2. unfold dropped_files. rewrite <- Hp, <- Hip.
    destruct Hr1 as [(_ & ->)|(_ & _ & ->)]; unfold w1; simpl; rewrite HF0; split_and!.
    - rewrite lookup_delete_ne by congruence. apply lookup_delete_eq.
    - left. apply lookup_delete_eq.
    - intros p ? ?. by rewrite !lookup_delete_ne by congruence.
    - apply lookup_delete_eq.
    - right. by rewrite lookup_delete_ne.
    - intros p ? ?. by rewrite lookup_delete_ne by congruence. }
  split; [eauto with fs|]. right.
  destruct (store_ok_drop _ _ _ _ _ _ _ _ Hok Hs Hdrop) as (Hok' & Hs' & He' & _).
  split; [done|]. split; [done|]. split; [done|]. split; [done|]. split; [done|].
  split; [done|]. unfold join_errs. simpl.
  destruct Hr1 as [(-> & _)|(-> & ? & _)], Hr2 as [->|[-> ?]], Hr3 as [->|[-> ?]]; simpl;
    eauto 8 with fs.
Qed.

(** ** Dropping a number of oldest segments *)

(** [s'] is [s] without its [k] oldest segments. *)
Record retained (F F' : gmap path file) (s s' : Store) (pc : list (list batch))
    (pa : list batch) (k : nat) : Prop := mkRetained {
  rt_ok : store_ok F' s' (drop k pc) pa;
  rt_le : (k <= length pc)%nat;
  rt_segments : st_segments s' = drop k (st_segments s);
  rt_logEnd : st_logEndOffset s' = st_logEndOffset s;
  rt_earliest : st_earliestOffset s'
                = st_earliestOffset s + blen (concat (concat (take k pc)));
  rt_files : ∀ seg, seg ∈ st_segments s' →
    F' !! seg_path seg = F !! seg_path seg
    ∧ F' !! seg_indexPath seg = F !! seg_indexPath seg;
  rt_conf : same_conf s s';
}.

Lemma retained_refl F F' s pc pa : store_ok F s pc pa → F' = F → retained F F' s s pc pa 0.
Proof.
  intros Hok ->. split; simpl; rewrite ?blen_nil; try done; [lia|lia].
Qed.

Lemma retained_trans F F1 F2 s s1 s2 pc pa j k :
  retained F F1 s s1 pc pa j → retained F1 F2 s1 s2 (drop j pc) pa k →
  retained F F2 s s2 pc pa (j + k).
Proof.
  intros [Hok1 Hle1 Hs1 Hl1 He1 Hd1 Hc1] [Hok2 Hle2 Hs2 Hl2 He2 Hd2 Hc2].
  rewrite drop_drop in *. rewrite length_drop in Hle2. split; try done.
  - lia.
  - by rewrite Hs2, Hs1, drop_drop.
  - congruence.
  - rewrite He2, He1, <- take_take_drop, !concat_app, blen_app. lia.
  - intros seg Hseg. assert (seg ∈ st_segments s1) as Hseg1.
    { rewrite Hs2 in Hseg. rewrite <- (take_drop k (st_segments s1)), elem_of_app. by right. }
    destruct (Hd2 seg Hseg) as [-> ->]. by apply Hd1.
  - by eapply same_conf_trans.
Qed.

Lemma retained_one s w w' s' bs pc pa seg rest :
  store_ok (w_files w) s (bs :: pc) pa → st_segments s = seg :: rest →
  store_ok (w_files w') s' pc pa → st_segments s' = rest →
  st_earliestOffset s' = st_earliestOffset s + blen (concat bs) →
  st_logEndOffset s' = st_logEndOffset s → same_conf s s' →
  dropped_files (w_files w) (w_files w') (st_dir s) (seg_baseOffset seg) →
  retained (w_files w) (w_files w') s s' (bs :: pc) pa 1.
Proof.
  intros Hok Hs Hok' Hs' He Hl Hd Hdrop.
  destruct (store_ok_drop _ _ _ _ _ _ _ _ Hok Hs Hdrop) as (_ & _ & _ & Hdiff).
  destruct (store_ok_all _ _ _ _ Hok) as (Hall & _). rewrite Hs in Hall.
  inversion Hall as [|? ? ? ? Hseg Hrest]; subst.
  split; try done.
  - simpl. lia.
  - by rewrite Hs.
  - simpl. by rewrite app_nil_r.
  - intros x Hx. destruct Hdrop as (_ & _ & HF).
    rewrite Forall_forall in Hdiff. specialize (Hdiff x Hx).
    apply list_elem_of_lookup in Hx as [i Hi].
    destruct (Forall2_lookup_l _ _ _ _ _ Hrest Hi) as (xb & _ & Hxok).
    pose proof (seg_ok_range _ _ _ _ _ Hxok). pose proof (seg_ok_range _ _ _ _ _ Hseg).
    rewrite (so_path _ _ _ _ _ Hxok), (so_indexPath _ _ _ _ _ Hxok).
    rewrite !HF; [done|..].
    + intros Heq. symmetry in Heq. by apply log_index_path_ne in Heq.
    + intros Heq. by apply index_path_inj in Heq.
    + intros Heq. by apply log_path_inj in Heq.
    + apply log_index_path_ne.
Qed.

Lemma segments_length F s pc pa : store_ok F s pc pa → length (st_segments s) = S (length pc).
Proof.
  intros Hok. destruct (store_ok_all _ _ _ _ Hok) as (Hall & _).
  apply Forall2_length in Hall. rewrite length_app in Hall. simpl in Hall. lia.
Qed.

(** One deletion on a store with a closed segment. *)
Lemma delete_step s w r s' w' pc pa seg rest :
  store_ok (w_files w) s pc pa → st_segments s = seg :: rest →
  (1 < length (st_segments s))%nat →
  attempt deleteOldestSegment (s, w) = (r, (s', w')) →
  quiet w w' ∧ ∃ k, retained (w_files w) (w_files w') s s' pc pa k
  ∧ ((k = 1%nat ∧ r = Ok (Ok tt)) ∨ ((k <= 1)%nat ∧ r = Ok (Err ErrIO) ∧ w_faults w ≠ [])).
Proof.
  intros Hok Hs Hlen H. rewrite (segments_length _ _ _ _ Hok) in Hlen.
  destruct pc as [|bs pc]; [simpl in Hlen; lia|].
  unfold attempt in H. destruct (deleteOldestSegment (s, w)) as [r0 [s0 w0]] eqn:E.
  destruct (deleteOldestSegment_spec _ _ _ _ _ _ _ _ _ _ Hok Hs E)
    as (HQ & [(-> & Hn & -> & HF)|(Hok' & Hs' & He & Hl & Hd & Hdrop & Hr)]).
  - injection H as <- <- <-. split; [done|]. exists 0%nat. split; [by apply retained_refl|].
    right. auto with lia.
  - assert (retained (w_files w) (w_files w0) s s0 (bs :: pc) pa 1) as Hret
      by (by eapply retained_one).
    destruct Hr as [-> |[-> Hn]]; injection H as <- <- <-; (split; [done|]); exists 1%nat;
      (split; [done|]); auto with lia.
Qed.

(** ** Retention by age *)

(** The oldest segment is the active one or has a record after the cutoff. *)
Definition oldest_is_fresh (cutoff : Z) (s : Store) : Prop :=
  match st_segments s with
  | seg :: _ :: _ => cutoff < seg_maxTimestamp seg
  | _ => True
  end.

Lemma retain_by_age_spec fuel cutoff s w r s' w' pc pa :
  store_ok (w_files w) s pc pa → (length (st_segments s) <= fuel)%nat →
  retain_by_age fuel cutoff (s, w) = (r, (s', w')) →
  quiet w w' ∧ ∃ k errs, r = Ok errs ∧ retained (w_files w) (w_files w') s s' pc pa k
  ∧ Forall (fun seg => seg_maxTimestamp seg <= cutoff) (take k (st_segments s))
  ∧ ((errs = [] ∧ oldest_is_fresh cutoff s') ∨ (errs = [ErrIO] ∧ w_faults w ≠ [])).
Proof.
  revert s w r s' w' pc. induction fuel as [|fuel IH]; intros s w r s' w' pc Hok Hfuel H.
  { rewrite (segments_length _ _ _ _ Hok) in Hfuel. lia. }
  cbn [retain_by_age] in H. unfold bind at 1, get_obj in H.
  destruct (st_segments s) as [|seg rest] eqn:Hs.
  { pose proof (segments_length _ _ _ _ Hok) as Hl. by rewrite Hs in Hl. }
  assert (∀ errs, ret (errs : list error) (s, w) = (r, (s', w')) → errs = [] →
    oldest_is_fresh cutoff s → quiet w w' ∧ ∃ k errs, r = Ok errs
    ∧ retained (w_files w) (w_files w') s s' pc pa k
    ∧ Forall (fun seg => seg_maxTimestamp seg <= cutoff) (take k (seg :: rest))
    ∧ ((errs = [] ∧ oldest_is_fresh cutoff s') ∨ (errs = [ErrIO] ∧ w_faults w ≠ []))) as Hstop.
  { intros errs [= <- <- <-] -> Hf. split; [auto with fs|]. exists 0%nat, [].
    split; [done|]. split; [by apply retained_refl|]. split; [constructor|]. by left. }
  destruct (Nat.leb_spec (length (seg :: rest)) 1) as [Hone|Hmore].
  { apply (Hstop _ H); [done|]. unfold oldest_is_fresh. rewrite Hs. destruct rest; [done|].
    simpl in Hone. lia. }
  unfold oldest_is_active in H. rewrite Hs in H.
  destruct (Nat.eqb_spec (length (seg :: rest) - 1) 0); [lia|].
  destruct (Z.leb_spec (seg_maxTimestamp seg) cutoff) as [Hexp|Hfresh].
  2:{ apply (Hstop _ H); [done|]. unfold oldest_is_fresh. rewrite Hs. by destruct rest. }
  clear Hstop. unfold bind in H. destruct (attempt _ _) as [r0 [s0 w0]] eqn:E.
  rewrite <- Hs in Hmore.
  destruct (delete_step _ _ _ _ _ _ _ _ _ Hok Hs Hmore E)
    as (HQ & k & Hret & [(-> & ->)|(Hk & -> & Hn)]).
  - destruct (IH s0 w0 r s' w' (drop 1 pc)) as (HQ' & k & errs & -> & Hret' & Hexp' & Hres).
    + by destruct Hret.
    + rewrite (rt_segments _ _ _ _ _ _ _ Hret), Hs, length_drop. simpl in *. lia.
    + exact H.
    + split; [eauto with fs|]. exists (S k), errs. split; [done|].
      split; [by eapply (retained_trans _ _ _ _ _ _ _ _ 1)|]. split.
      * simpl. constructor; [done|]. rewrite (rt_segments _ _ _ _ _ _ _ Hret), Hs in Hexp'. exact Hexp'.
      * destruct Hres as [?|[? ?]]; [by left|right]. split; [done|eauto with fs].
  - injection H as <- <- <-. split; [done|]. exists k, [ErrIO]. split; [done|].
    split; [done|]. split; [|by right].
    destruct k as [|[|k]]; [constructor|by repeat constructor|lia].
Qed.

(** ** Retention by size *)

Definition data_size (F : gmap path file) (p : path) : Z :=
  match data_at F p with Some d => blen d | None => 0 end.

(** The bytes that the log and index files of the segments occupy. *)
Definition disk_bytes (F : gmap path file) (segs : list Segment) : Z :=
  fold_right (fun seg t => data_size F (seg_path seg) + data_size F (seg_indexPath seg) + t)
    0 segs.

Lemma data_size_nonneg F p : 0 <= data_size F p.
Proof. unfold data_size. destruct (data_at F p); [blen_lia|lia]. Qed.

Lemma disk_bytes_nonneg F segs : 0 <= disk_bytes F segs.
Proof.
  induction segs as [|seg segs IH]; simpl; [lia|].
  pose proof (data_size_nonneg F (seg_path seg)).
  pose proof (data_size_nonneg F (seg_indexPath seg)). lia.
Qed.

Lemma disk_bytes_drop F k segs : disk_bytes F (drop k segs) <= disk_bytes F segs.
Proof.
  revert k. induction segs as [|seg segs IH]; intros [|k]; simpl; try lia.
  pose proof (data_size_nonneg F (seg_path seg)).
  pose proof (data_size_nonneg F (seg_indexPath seg)). specialize (IH k). lia.
Qed.

Lemma disk_bytes_frame F F' segs :
  (∀ seg, seg ∈ segs → F' !! seg_path seg = F !! seg_path seg
    ∧ F' !! seg_indexPath seg = F !! seg_indexPath seg) →
  disk_bytes F' segs = disk_bytes F segs.
Proof.
  induction segs as [|seg segs IH]; intros H; simpl; [done|].
  destruct (H seg) as [H1 H2]; [by constructor|]. unfold data_size, data_at. rewrite H1, H2, IH; [done|].
  intros x Hx. apply H. by constructor.
Qed.

Lemma calculateTotalBytes_spec dir maxB segs pcs total w r w' :
  Forall2 (seg_ok (w_files w) dir maxB) segs pcs → 0 <= total →
  total + disk_bytes (w_files w) segs < two63 →
  calculateTotalBytes segs total w = (r, w') →
  reads w w' r (total + disk_bytes (w_files w) segs).
Proof.
  intros H. remember (w_files w) as F eqn:HF. revert w HF total r w'.
  induction H as [|seg bs segs pcs Hs H IH]; intros w HF total r w' H0 Hmax HR; simpl in *.
  { rewrite Z.add_0_r. by apply reads_ret. }
  destruct (seg_ok_files _ _ _ _ _ Hs) as (f & g & Hf & _ & Hg & _).
  assert (data_size F (seg_path seg) = blen (fdata f)) as H1
    by (unfold data_size, data_at; by rewrite Hf).
  assert (data_size F (seg_indexPath seg) = blen (fdata g)) as H2
    by (unfold data_size, data_at; by rewrite Hg).
  rewrite H1, H2 in *. pose proof (disk_bytes_nonneg F segs).
  revert HR. apply reads_bind with (x := blen (fdata f)).
  { intros r1 w1. subst F. by apply fs_stat_spec. }
  intros r1 w1 w2 HQ1 HF1. apply reads_bind with (x := blen (fdata g)).
  { intros r3 w3. apply fs_stat_spec. congruence. }
  intros r3 w3 w4 HQ3 HF3. rewrite (i64_small (blen (fdata f) + blen (fdata g))) by (blen_pos; lia).
  rewrite (u64_small (blen (fdata f) + blen (fdata g))), u64_small by (blen_pos; lia).
  replace (total + (blen (fdata f) + blen (fdata g) + disk_bytes F segs))
    with (total + (blen (fdata f) + blen (fdata g)) + disk_bytes F segs) by lia.
  apply IH; [congruence|blen_pos; lia|lia].
Qed.

Lemma reads_attempt {A} (m : M World A) (s : Store) w r s' w' x :
  (∀ r1 w1, m w = (r1, w1) → reads w w1 r1 x) →
  attempt (io m) (s, w) = (r, (s', w')) →
  s' = s ∧ quiet w w' ∧ w_files w' = w_files w
  ∧ (r = Ok (Ok x) ∨ (r = Ok (Err ErrIO) ∧ w_faults w ≠ [])).
Proof.
  intros Hm H. unfold attempt, io in H. destruct (m w) as [r1 w1] eqn:E.
  destruct (Hm _ _ eq_refl) as (HQ & HF & [->|[-> Hn]]); injection H as <- <- <-;
    split_and!; auto.
Qed.

(** Only the active segment is left, or the files are within the limit. *)
Definition within_limit (F : gmap path file) (maxPartitionBytes : Z) (s : Store) : Prop :=
  length (st_segments s) = 1%nat ∨ disk_bytes F (st_segments s) <= maxPartitionBytes.

Lemma retain_by_size_spec fuel maxP s w r s' w' pc pa :
  store_ok (w_files w) s pc pa → (length (st_segments s) <= fuel)%nat →
  disk_bytes (w_files w) (st_segments s) < two63 →
  retain_by_size fuel maxP (s, w) = (r, (s', w')) →
  quiet w w' ∧ ∃ k errs, r = Ok errs ∧ retained (w_files w) (w_files w') s s' pc pa k
  ∧ (∀ j, (j < k)%nat → maxP < disk_bytes (w_files w) (drop j (st_segments s)))
  ∧ ((errs = [] ∧ within_limit (w_files w') maxP s') ∨ (errs = [ErrIO] ∧ w_faults w ≠ [])).
Proof.
  revert s w r s' w' pc. induction fuel as [|fuel IH]; intros s w r s' w' pc Hok Hfuel Hsz H.
  { rewrite (segments_length _ _ _ _ Hok) in Hfuel. lia. }
  pose proof (segments_length _ _ _ _ Hok) as Hlen.
  cbn [retain_by_size] in H. unfold bind at 1, get_obj in H.
  destruct (Nat.leb_spec (length (st_segments s)) 1) as [Hone|Hmore].
  { injection H as <- <- <-. split; [auto with fs|]. exists 0%nat, []. split; [done|].
    split; [by apply retained_refl|]. split; [lia|]. left. split; [done|]. left. lia. }
  unfold bind in H. destruct (attempt (io _) _) as [r0 [s0 w0]] eqn:E.
  destruct (store_ok_all _ _ _ _ Hok) as (Hall & _).
  apply (reads_attempt _ _ _ _ _ _ (0 + disk_bytes (w_files w) (st_segments s))) in E
    as (-> & HQ0 & HF0 & [->|[-> Hn]]).
  3:{ intros r1 w1. by eapply calculateTotalBytes_spec. }
  2:{ injection H as <- <- <-. split; [done|]. exists 0%nat, [ErrIO]. split; [done|].
      split; [by apply retained_refl|]. split; [lia|]. by right. }
  rewrite Z.add_0_l in H.
  destruct (Z.leb_spec (disk_bytes (w_files w) (st_segments s)) maxP) as [Hin|Hout].
  { injection H as <- <- <-. split; [done|]. exists 0%nat, []. split; [done|].
    split; [by apply retained_refl|]. split; [lia|]. left. split; [done|]. right.
    by rewrite HF0. }
  unfold oldest_is_active in H. destruct (Nat.eqb_spec (length (st_segments s) - 1) 0); [lia|].
  destruct (st_segments s) as [|seg rest] eqn:Hs; [done|]. rewrite <- Hs in *.
  destruct (attempt deleteOldestSegment _) as [r1 [s1 w1]] eqn:E1.
  rewrite <- HF0 in Hok.
  destruct (delete_step _ _ _ _ _ _ _ _ _ Hok Hs Hmore E1)
    as (HQ1 & k & Hret & Hk). rewrite HF0 in Hret.
  destruct Hk as [(-> & ->)|(Hk & -> & Hn)].
  - assert (disk_bytes (w_files w1) (st_segments s1) = disk_bytes (w_files w) rest) as Hdb.
    { rewrite (disk_bytes_frame (w_files w)) by by destruct Hret.
      by rewrite (rt_segments _ _ _ _ _ _ _ Hret), Hs. }
    rewrite Hs in Hsz. simpl in Hsz. pose proof (data_size_nonneg (w_files w) (seg_path seg)).
    pose proof (data_size_nonneg (w_files w) (seg_indexPath seg)).
    destruct (IH s1 w1 r s' w' (drop 1 pc)) as (HQ' & k & errs & -> & Hret' & Hj & Hres).
    + by destruct Hret.
    + rewrite (rt_segments _ _ _ _ _ _ _ Hret), length_drop. lia.
    + rewrite Hdb. lia.
    + exact H.
    + split; [eauto with fs|]. exists (S k), errs. split; [done|].
      split; [by eapply (retained_trans _ _ _ _ _ _ _ _ 1)|]. split.
      * intros [|j] Hlt; [done|]. specialize (Hj j ltac:(lia)).
        rewrite Hs. simpl.
        rewrite (disk_bytes_frame (w_files w)), (rt_segments _ _ _ _ _ _ _ Hret), Hs in Hj; [done|].
        intros x Hx. apply (rt_files _ _ _ _ _ _ _ Hret).
        rewrite <- (take_drop j (st_segments s1)), elem_of_app. by right.
      * destruct Hres as [?|[? ?]]; [by left|right]. split; [done|eauto with fs].
  - injection H as <- <- <-. split; [eauto with fs|]. exists k, [ErrIO]. split; [done|].
    split; [done|]. split; [|right; eauto with fs].
    intros j Hjk. by replace j with 0%nat by lia.
Qed.

(** ** ApplyRetention *)

Definition retention_cutoff (now maxAge : Z) : Z := (now + i64 (- maxAge)) / 1000000.

Lemma ApplyRetention_spec now maxAge maxP s w r s' w' pc pa :
  store_ok (w_files w) s pc pa → disk_bytes (w_files w) (st_segments s) < two63 →
  Store_ApplyRetention now maxAge maxP (s, w) = (r, (s', w')) →
  let cutoff := retention_cutoff now maxAge in
  quiet w w' ∧ ∃ k1 k2, retained (w_files w) (w_files w') s s' pc pa (k1 + k2)
  ∧ Forall (fun seg => seg_maxTimestamp seg <= cutoff) (take k1 (st_segments s))
  ∧ (∀ j, (k1 <= j < k1 + k2)%nat →
       maxP < disk_bytes (w_files w) (drop j (st_segments s)))
  ∧ ((r = Ok tt ∧ within_limit (w_files w') maxP s' ∧ (k2 = 0%nat → oldest_is_fresh cutoff s'))
     ∨ (r = Err (Errorf "errors during retention cleanup") ∧ w_faults w ≠ [])).
Proof.
  intros Hok Hsz H cutoff. unfold Store_ApplyRetention in H. unfold bind at 1, get_obj in H.
  pose proof Hok as [Hcl Hwf _ _ _ _]. rewrite Hcl, Hwf in H. cbn [orb] in H.
  change ((now + i64 (- maxAge)) / 1000000) with cutoff in H.
  unfold bind at 1 in H. destruct (retain_by_age _ _ _) as [r1 [s1 w1]] eqn:E1.
  destruct (retain_by_age_spec _ _ _ _ _ _ _ _ _ Hok (le_n _) E1)
    as (HQ1 & k1 & errs1 & -> & Hret1 & Hexp & Hres1).
  unfold bind at 1, get_obj in H. unfold bind at 1 in H.
  destruct (retain_by_size _ _ _) as [r2 [s2 w2]] eqn:E2.
  assert (disk_bytes (w_files w1) (st_segments s1)
          = disk_bytes (w_files w) (drop k1 (st_segments s))) as Hdb.
  { rewrite (disk_bytes_frame (w_files w)) by by destruct Hret1.
    by rewrite (rt_segments _ _ _ _ _ _ _ Hret1). }
  pose proof (disk_bytes_drop (w_files w) k1 (st_segments s)) as Hmono.
  destruct (retain_by_size_spec _ _ _ _ _ _ _ _ _ (rt_ok _ _ _ _ _ _ _ Hret1) (le_n _)
    ltac:(lia) E2) as (HQ2 & k2 & errs2 & -> & Hret2 & Hsize & Hres2).
  destruct (updateGaugesLocked_run s2 w2) as (w3 & Hg & HQ3 & HF3).
  unfold bind in H. rewrite Hg in H. assert (quiet w w2) as HQ by eauto with fs.
  assert (retained (w_files w) (w_files w3) s s2 pc pa (k1 + k2)) as Hret
    by (rewrite HF3; by eapply retained_trans).
  assert (∀ j, (k1 <= j < k1 + k2)%nat →
    maxP < disk_bytes (w_files w) (drop j (st_segments s))) as Hjs.
  { intros j Hj. specialize (Hsize (j - k1)%nat ltac:(lia)).
    rewrite (disk_bytes_frame (w_files w)), (rt_segments _ _ _ _ _ _ _ Hret1), drop_drop in Hsize.
    - by replace (k1 + (j - k1))%nat with j in Hsize by lia.
    - intros x Hx. apply (rt_files _ _ _ _ _ _ _ Hret1).
      rewrite <- (take_drop (j - k1) (st_segments s1)), elem_of_app. by right. }
  destruct Hres1 as [[-> Hfresh]|[-> Hn1]]; [destruct Hres2 as [[-> Hlim]|[-> Hn2]]|];
    injection H as <- <- <-; (split; [eauto with fs|]); exists k1, k2;
    (split; [done|]); (split; [done|]); (split; [done|]);
    [left|right; split; [done|eauto with fs]..].
  split; [done|]. split; [by rewrite HF3|]. intros ->.
  pose proof (rt_segments _ _ _ _ _ _ _ Hret2) as Hseg2. unfold oldest_is_fresh in *.
  by rewrite Hseg2.
Qed.

Lemma store_records_drop k pc pa :
  store_records (drop k pc) pa
  = drop (length (concat (concat (take k pc)))) (store_records pc pa).
Proof.
  assert (concat pc = concat (take k pc) ++ concat (drop k pc)) as Hpc
    by (by rewrite <- concat_app, take_drop).
  unfold store_records. rewrite Hpc, <- app_assoc, (concat_app (concat (take k pc))).
  by rewrite drop_app_length.
Qed.

Lemma retained_records F F' s s' pc pa k :
  retained F F' s s' pc pa k →
  store_records (drop k pc) pa
  = from_offset (st_earliestOffset s) (st_earliestOffset s') (store_records pc pa).
Proof.
  intros [_ _ _ _ He _]. rewrite store_records_drop. unfold from_offset. rewrite He.
  f_equal. unfold blen. lia.
Qed.

(** ** Properties *)

(** C15: ApplyRetention on a well-formed store, under any schedule of I/O
    failures, leaves a well-formed store that has lost only whole segments from
    its old end and never the active one: the log end is unchanged and the
    records are the old ones from the new earliest offset on. The segments lost
    first had no record after the cutoff; each later one was deleted while the
    files still exceeded the size limit. On success the files are within the
    limit or only the active segment is left, and, unless the size rule deleted
    more, the oldest closed segment has a record after the cutoff. *)
Theorem ApplyRetention_drops_oldest now maxAge maxP s w r s' w' pc pa :
  store_ok (w_files w) s pc pa → disk_bytes (w_files w) (st_segments s) < two63 →
  Store_ApplyRetention now maxAge maxP (s, w) = (r, (s', w')) →
  let cutoff := (now + i64 (- maxAge)) / 1000000 in
  ∃ k1 k2, (k1 + k2 <= length pc)%nat
  ∧ store_ok (w_files w') s' (drop (k1 + k2) pc) pa
  ∧ st_logEndOffset s' = st_logEndOffset s
  ∧ st_earliestOffset s <= st_earliestOffset s'
  ∧ store_records (drop (k1 + k2) pc) pa
    = from_offset (st_earliestOffset s) (st_earliestOffset s') (store_records pc pa)
  ∧ Forall (fun r => Timestamp r <= cutoff) (concat (concat (take k1 pc)))
  ∧ (∀ j, (k1 <= j < k1 + k2)%nat →
       maxP < disk_bytes (w_files w) (drop j (st_segments s)))
  ∧ ((r = Ok tt ∧ within_limit (w_files w') maxP s' ∧ (k2 = 0%nat → oldest_is_fresh cutoff s'))
     ∨ (r = Err (Errorf "errors during retention cleanup") ∧ w_faults w ≠ [])).
Proof.
  intros Hok Hsz H cutoff.
  destruct (ApplyRetention_spec _ _ _ _ _ _ _ _ _ _ Hok Hsz H)
    as (_ & k1 & k2 & Hret & Hexp & Hsize & Hres). exists k1, k2.
  pose proof (retained_records _ _ _ _ _ _ _ Hret) as Hrecs.
  destruct Hret as [Hok' Hle _ Hl He _]. split; [done|]. split; [done|]. split; [done|].
  split; [blen_pos; lia|]. split; [done|]. split; [|done].
  destruct (store_ok_all _ _ _ _ Hok) as (Hall & _).
  apply Forall2_take with (n := k1) in Hall. rewrite take_app_le in Hall by lia.
  clear -Hall Hexp. revert Hexp. induction Hall as [|seg bs segs pcs Hs Hall IH]; intros Hexp;
    simpl; [constructor|]. inversion Hexp; subst. rewrite concat_app, Forall_app.
  split; [|auto]. eapply Forall_impl; [exact (so_timestamps _ _ _ _ _ Hs)|].
  simpl. unfold retention_cutoff in *. lia.
Qed.


(** *** Witnesses: segments of at most 64 bytes, so that every batch has its own. *)

Definition demo_rolled : Store * World :=
  snd (Store_Append 1700000005000 demo_records
         (snd (Store_Append 1700000000000 demo_records
                 (demo_store_sized 64 "async", demo_world [])))).

Lemma demo_rolled_ok :
  ∃ pc pa, store_ok (w_files (snd demo_rolled)) (fst demo_rolled) pc pa.
Proof.
  set (sw := snd (Store_Append 1700000000000 demo_records
                   (demo_store_sized 64 "async", demo_world []))).
  assert (Store_Append 1700000000000 demo_records (demo_store_sized 64 "async", demo_world [])
    = (Ok (0, 1), (fst sw, snd sw))) as H1 by (vm_compute; reflexivity).
  assert (Store_Append 1700000005000 demo_records (fst sw, snd sw)
    = (Ok (2, 3), (fst demo_rolled, snd demo_rolled))) as H2 by (vm_compute; reflexivity).
  assert (st_logEndOffset (fst sw) = 2) as Hlog by (vm_compute; reflexivity).
  destruct (Store_Append_spec 1700000000000 demo_records (demo_store_sized 64 "async")
    (demo_world []) _ _ _ [] [] (demo_store_sized_ok 64 "async" ltac:(lia)) ltac:(discriminate)
    ltac:(vm_compute; reflexivity) ltac:(lia) H1)
    as (_ & _ & [(_ & Hr & _)|(_ & [(_ & _ & pc & pa & Hok & _)|(e & Hr & _)] & _)]);
    [discriminate Hr| |discriminate Hr].
  destruct (Store_Append_spec 1700000005000 demo_records (fst sw) (snd sw) _ _ _ pc pa Hok
    ltac:(discriminate) ltac:(rewrite Hlog; vm_compute; reflexivity) ltac:(lia) H2)
    as (_ & _ & [(_ & Hr & _)|(_ & [(_ & _ & pc' & pa' & Hok' & _)|(e & Hr & _)] & _)]);
    [discriminate Hr|eauto|discriminate Hr].
Qed.

Lemma ApplyRetention_drops_oldest_witness :
  ∃ s' w', Store_ApplyRetention 1700000006000000000 3000000000 1000000
      (fst demo_rolled, snd demo_rolled) = (Ok tt, (s', w'))
    ∧ st_earliestOffset s' = 2 ∧ st_logEndOffset s' = 4
    ∧ ∃ pc pa, store_ok (w_files w') s' pc pa.
Proof.
  destruct demo_rolled_ok as (pc & pa & Hok).
  assert (let x := Store_ApplyRetention 1700000006000000000 3000000000 1000000
    (fst demo_rolled, snd demo_rolled) in
    fst x = Ok tt ∧ st_earliestOffset (fst (snd x)) = 2 ∧ st_logEndOffset (fst (snd x)) = 4
    ∧ disk_bytes (w_files (snd demo_rolled)) (st_segments (fst demo_rolled)) < two63)
    as (Hr & He & Hl & Hsz) by (vm_compute; split; [|split; [|split]]; reflexivity).
  destruct demo_rolled as [s w]. cbn [fst snd] in *.
  destruct (Store_ApplyRetention _ _ _ (s, w)) as [r [s' w']] eqn:E. cbn [fst snd] in *.
  subst r. exists s', w'. split; [reflexivity|]. split; [exact He|]. split; [exact Hl|].
  destruct (ApplyRetention_drops_oldest _ _ _ s w (Ok tt) s' w' pc pa Hok Hsz E)
    as (k1 & k2 & _ & Hok' & _). exists (drop (k1 + k2) pc), pa. exact Hok'.
Defined.

