(* ===== verification/SegmentRecovery.v ===== *)
(** * Recovery of one segment

    The scan of a log file that holds batches and possibly a torn tail, the check of the
    index file and its rebuild, as [runs] specifications. *)

From S2P Require Import Prelude FileSystem Runs Names Model Format Segment Store Recovery.
From S2P Require Import StoreInv StoreAppend.
From Stdlib Require Import Init.Byte.

(** ** The scan of the log file *)

Lemma runs_ReadAt n pos x d seg w (Q : bytes → Segment * World → Prop)
    (E : Segment * World → Prop) :
  data_at (w_files w) (seg_path seg) = Some d → at_off d pos x → n = blen x →
  (∀ w', w_files w' = w_files w → Q x (seg, w')) →
  (∀ w', w_files w' = w_files w → E (seg, w')) →
  runs (Segment_ReadAt n pos) (seg, w) Q E.
Proof.
  intros Hd Hat Hn HQ HE r [seg' w'] H.
  destruct (Segment_ReadAt_spec _ _ _ _ _ _ _ _ _ Hd Hat Hn H)
    as (-> & Hq & HF & [->|[-> Hf]]); (split; [done|]); [left|right]; eauto.
Qed.

Lemma truncateLog_runs seg w keep tail (Q : unit → Segment * World → Prop) E :
  data_at (w_files w) (seg_path seg) = Some (keep ++ tail) →
  (∀ w', trimmed (w_files w) (w_files w') (seg_path seg) keep →
     Q tt (seg_with_size (blen keep) seg, w')) →
  (∀ w', w_files w' = w_files w → E (seg, w')) →
  runs (truncateLog (blen keep)) (seg, w) Q E.
Proof.
  intros Hd HQ HE. apply data_at_Some in Hd as [k Hf]. unfold truncateLog.
  apply runs_bind, runs_get_obj, runs_bind, runs_io. eapply runs_truncate; [exact Hf| |auto].
  intros w1 HF1. simpl in HF1. rewrite blen_eq, Nat2Z.id in HF1.
  replace (length keep - length (keep ++ tail))%nat with 0%nat in HF1
    by (rewrite length_app; lia).
  rewrite app_nil_r, take_app_length in HF1.
  apply runs_modify, HQ. rewrite HF1. split; [by apply file_becomes_insert|].
  intros f Hf'. rewrite Hf in Hf'. injection Hf' as <-. eexists _, (length keep).
  rewrite lookup_insert_eq. simpl. split; [done|]. split; [by rewrite take_app_length|simpl; lia].
Qed.

(** The segment after the scan of [recs]: its size is [v] and its maximum
    timestamp covers the records. *)
Definition scanned (seg seg' : Segment) (v : Z) (recs : list StoredRecord) : Prop :=
  ∃ m, seg' = seg_with_size v (SetMaxTimestamp m seg) ∧ seg_maxTimestamp seg <= m
    ∧ Forall (fun r => Timestamp r <= m) recs.

Lemma scanned_nil seg v : v = seg_size seg → scanned seg seg v [].
Proof. intros ->. exists (seg_maxTimestamp seg). split; [by destruct seg|]. split; [lia|constructor]. Qed.

Lemma check_batch_offsets_runs recs o j seg w (Q : unit → Segment * World → Prop) E :
  0 <= o + j → contiguous (o + j) recs → o + j + blen recs < two64 →
  (∀ m, seg_maxTimestamp seg <= m → Forall (fun r => Timestamp r <= m) recs →
     Q tt (SetMaxTimestamp m seg, w)) →
  runs (check_batch_offsets o j recs) (seg, w) Q E.
Proof.
  revert j seg. induction recs as [|r recs IH]; intros j seg H0 Hc Hend HQ; simpl.
  - apply runs_ret. specialize (HQ (seg_maxTimestamp seg)).
    replace (SetMaxTimestamp _ _) with seg in HQ by by destruct seg. by apply HQ; [lia|].
  - rewrite blen_cons in Hend. pose proof (blen_nonneg recs).
    pose proof (Hc 0%nat r eq_refl) as Hr. rewrite u64_small by lia.
    destruct (Z.eqb_spec (Offset r) (o + j)); [|lia]. cbn [negb].
    apply runs_bind, runs_modify.
    destruct (raise_maxTimestamp_cases (Timestamp r) seg) as (m & -> & Hm1 & Hm2 & _).
    apply IH; [lia| |lia|].
    + intros i x Hi. specialize (Hc (S i) x Hi). lia.
    + intros m' Hm' Hall. simpl in Hm'. apply (HQ m'); [lia|]. constructor; [lia|done].
Qed.

(** The nine bytes in front of a batch pass the checks of the scan. *)
Lemma scan_prefix_runs b fuel maxB (active : bool) seg w d pos o
    (Q : Z * Z → Segment * World → Prop) (E : Segment * World → Prop) :
  encodable b → blen (batch_bytes b) <= maxB →
  data_at (w_files w) (seg_path seg) = Some d → seg_size seg = blen d →
  (∃ h rest : bytes, batch_bytes b = h ++ rest ∧ blen h = 9 ∧ at_off d pos h) →
  (∀ w', w_files w' = w_files w → E (seg, w')) →
  (∀ w', w_files w' = w_files w →
   let n := blen (batch_bytes b) in
   runs (if blen d <? pos + n then
           if active then bind (truncateLog pos) (fun _ => ret (o, pos))
           else fail (Errorf "incomplete batch payload inside closed segment")
         else
           bind (Segment_ReadAt n pos) (fun batchBuf =>
             bind (lift_res (DecodeBatch batchBuf)) (fun recs =>
               match recs with
               | [] => fail (Errorf "segment contains empty record batch")
               | r0 :: _ =>
                 if negb (Offset r0 =? o) then fail (Errorf "offset discontinuity") else
                 bind (check_batch_offsets o 0 recs) (fun _ =>
                   recover_loop fuel maxB active (pos + n) (u64 (o + blen recs)) (pos + n))
               end))) (seg, w') Q E) →
  runs (recover_loop (S fuel) maxB active pos o pos) (seg, w) Q E.
Proof.
  intros He Hfit Hd Hsz (h & rest & Hb & Hh & Hat) HE Hk.
  destruct (batch_prefix9 b He) as (h' & rest' & Hb' & Hh' & H1 & H2 & H3).
  assert (h' = h) as ->.
  { rewrite Hb in Hb'. apply app_inj_1 in Hb' as [-> _]; [done|]. unfold blen in *. lia. }
  pose proof (at_off_bound _ _ _ Hat) as [H0 Hbd]. pose proof (batch_bytes_lower b) as Hlow.
  cbn [recover_loop]. apply runs_bind, runs_get_obj. rewrite Hsz.
  destruct (Z.leb_spec (blen d) pos); [lia|]. destruct (Z.ltb_spec (blen d) (pos + 9)); [lia|].
  apply runs_bind. eapply runs_ReadAt; [exact Hd|exact Hat|done| |done].
  intros w1 HF1. apply runs_bind. eapply runs_lift; [exact H1|].
  rewrite bool_decide_eq_false_2 by (intros Hx; by apply Hx).
  apply runs_bind. eapply runs_lift; [exact H2|].
  rewrite bool_decide_eq_false_2 by (intros Hx; by apply Hx).
  apply runs_bind. eapply runs_lift; [exact H3|].
  unfold MinimumBatchRemainder, BatchHeaderSize, MagicSize, VersionSize, BatchLengthSize.
  destruct (Z.ltb_spec (blen (batch_bytes b) - 9) (33 - 4 - 1 - 4)); [lia|].
  replace (4 + 1 + 4 + (blen (batch_bytes b) - 9)) with (blen (batch_bytes b)) by lia.
  destruct (Z.ltb_spec maxB (blen (batch_bytes b))); [lia|]. by apply Hk.
Qed.

(** A torn batch at the end of the active log file is cut off. *)
Lemma scan_torn_runs fuel maxB seg w keep tail o
    (Q : Z * Z → Segment * World → Prop) (E : Segment * World → Prop) :
  data_at (w_files w) (seg_path seg) = Some (keep ++ tail) →
  seg_size seg = blen (keep ++ tail) → torn maxB tail → tail ≠ [] →
  (∀ w', trimmed (w_files w) (w_files w') (seg_path seg) keep →
     Q (o, blen keep) (seg_with_size (blen keep) seg, w')) →
  (∀ w', w_files w' = w_files w → E (seg, w')) →
  runs (recover_loop (S fuel) maxB true (blen keep) o (blen keep)) (seg, w) Q E.
Proof.
  intros Hd Hsz (b & n & He & Hfit & Hn & Ht) Hne HQ HE.
  assert (∀ w', w_files w' = w_files w → runs (bind (truncateLog (blen keep))
    (fun _ => ret (o, blen keep))) (seg, w') Q E) as Htrunc.
  { intros w' HF. apply runs_bind. eapply truncateLog_runs; [by rewrite HF|..].
    - intros w2 H2. apply runs_ret, HQ. by rewrite <- HF.
    - intros w2 H2. apply HE. congruence. }
  pose proof (blen_app keep tail) as Hlen.
  assert (0 < blen tail) as Hpos by (destruct tail; [done|rewrite blen_cons; blen_lia]).
  destruct (Z.lt_ge_cases (blen tail) 9) as [Hshort|Hlong].
  - cbn [recover_loop]. apply runs_bind, runs_get_obj. rewrite Hsz.
    destruct (Z.leb_spec (blen (keep ++ tail)) (blen keep)); [lia|].
    destruct (Z.ltb_spec (blen (keep ++ tail)) (blen keep + 9)); [by apply Htrunc|lia].
  - destruct (batch_prefix9 b He) as (h & rest & Hb & Hh & _).
    eapply (scan_prefix_runs b); [done|done|exact Hd|done| |done|].
    + exists h, rest. split; [done|]. split; [done|].
      rewrite Ht, Hb, take_app_ge; [apply at_off_intro|].
      rewrite Ht in Hlong. unfold blen in *. rewrite length_take in Hlong. lia.
    + intros w' HF. cbv zeta.
      destruct (Z.ltb_spec (blen (keep ++ tail)) (blen keep + blen (batch_bytes b)));
        [by apply Htrunc|]. exfalso.
      assert (blen tail < blen (batch_bytes b)); [|lia].
      rewrite Ht. unfold blen. rewrite length_take. lia.
Qed.

(** What the scan relies on: the log file holds the batches and, in the active
    segment, possibly part of one more. *)
Definition scan_tail (maxB : Z) (active : bool) (tail : bytes) : Prop :=
  tail = [] ∨ (active = true ∧ torn maxB tail).

Lemma scan_step b1 b b2 base fuel maxB active seg w tail
    (Q : Z * Z → Segment * World → Prop) (E : Segment * World → Prop) :
  let bs := b1 ++ b :: b2 in
  data_at (w_files w) (seg_path seg) = Some (seg_content bs ++ tail) →
  seg_size seg = blen (seg_content bs ++ tail) →
  encodable b → blen (batch_bytes b) <= maxB →
  0 <= base → contiguous (base + blen (concat b1)) b →
  base + blen (concat (b1 ++ [b])) < two64 →
  (∀ w', w_files w' = w_files w → E (seg, w')) →
  (∀ m w', w_files w' = w_files w → seg_maxTimestamp seg <= m →
     Forall (fun r => Timestamp r <= m) b →
     runs (recover_loop fuel maxB active (blen (seg_content (b1 ++ [b])))
             (base + blen (concat (b1 ++ [b]))) (blen (seg_content (b1 ++ [b]))))
       (SetMaxTimestamp m seg, w') Q E) →
  runs (recover_loop (S fuel) maxB active (blen (seg_content b1)) (base + blen (concat b1))
          (blen (seg_content b1))) (seg, w) Q E.
Proof.
  intros bs Hd Hsz He Hfit H0 Hc Hend HE Hk.
  pose proof (batch_at b1 b b2 tail) as Hat. fold bs in Hat.
  pose proof (at_off_bound _ _ _ Hat) as [_ Hbd].
  assert (blen (concat (b1 ++ [b])) = blen (concat b1) + blen b) as Hlen
    by (rewrite concat_app, blen_app; simpl; by rewrite app_nil_r).
  assert (blen (seg_content (b1 ++ [b])) = blen (seg_content b1) + blen (batch_bytes b)) as Hpos
    by (by rewrite seg_content_app, seg_content_one, blen_app).
  pose proof (blen_nonneg (concat b1)). pose proof (blen_nonneg b).
  eapply (scan_prefix_runs b); [done|done|exact Hd|done| |done|].
  { destruct (batch_prefix9 b He) as (h & rest & Hb & Hh & _). exists h, rest.
    split; [done|]. split; [done|]. rewrite Hb in Hat. by apply at_off_app in Hat as [? _]. }
  intros w1 HF1. cbv zeta. rewrite <- Hpos.
  destruct (Z.ltb_spec (blen (seg_content bs ++ tail)) (blen (seg_content (b1 ++ [b])))); [lia|].
  apply runs_bind. eapply runs_ReadAt; [by rewrite HF1|exact Hat|done| |].
  2:{ intros w2 HF2. apply HE. congruence. }
  intros w2 HF2. apply runs_bind. eapply runs_lift.
  { rewrite <- (app_nil_r (batch_bytes b)). by apply DecodeBatch_batch_bytes. }
  destruct b as [|r0 b']; [by destruct (enc_nonempty _ He)|].
  pose proof (Hc 0%nat r0 eq_refl) as Hr0. rewrite Z.add_0_r in Hr0. rewrite Hr0, Z.eqb_refl.
  cbn [negb]. apply runs_bind, check_batch_offsets_runs; rewrite ?Z.add_0_r; [lia|done|lia|].
  intros m Hm Hall. rewrite u64_small, <- Z.add_assoc, <- Hlen by lia. apply Hk; [congruence|done..].
Qed.

Lemma recover_loop_runs b2 b1 base fuel maxB active seg w tail :
  let bs := b1 ++ b2 in
  data_at (w_files w) (seg_path seg) = Some (seg_content bs ++ tail) →
  seg_size seg = blen (seg_content bs ++ tail) → scan_tail maxB active tail →
  Forall encodable b2 → Forall (fun b => blen (batch_bytes b) <= maxB) b2 →
  0 <= base → contiguous (base + blen (concat b1)) (concat b2) →
  base + blen (concat bs) < two64 → blen (seg_content b2 ++ tail) <= Z.of_nat fuel →
  runs (recover_loop fuel maxB active (blen (seg_content b1)) (base + blen (concat b1))
          (blen (seg_content b1))) (seg, w)
    (fun ov '(seg', w') => ov = (base + blen (concat bs), blen (seg_content bs))
       ∧ scanned seg seg' (blen (seg_content bs)) (concat b2)
       ∧ trimmed (w_files w) (w_files w') (seg_path seg) (seg_content bs))
    (fun '(_, w') => w_files w' = w_files w).
Proof.
  revert b1 fuel seg w. induction b2 as [|b b2 IH];
    intros b1 fuel seg w bs Hd Hsz Ht He Hfit H0 Hc Hend Hfuel.
  - unfold bs in *. rewrite app_nil_r in *. simpl in Hfuel.
    destruct (decide (tail = [])) as [->|Hne].
    + rewrite app_nil_r in *. destruct fuel; cbn [recover_loop]; apply runs_bind, runs_get_obj;
        rewrite Hsz, Z.leb_refl; apply runs_ret; (split; [done|]);
        (split; [by apply scanned_nil|]); by apply trimmed_refl.
    + destruct Ht as [->|[-> Ht]]; [done|].
      destruct fuel as [|fuel]; [destruct tail; [done|rewrite blen_cons in Hfuel; blen_lia]|].
      eapply scan_torn_runs; try done. intros w' Htr. split; [done|]. split; [|done].
      exists (seg_maxTimestamp seg). split; [by destruct seg|]. split; [lia|constructor].
  - apply Forall_cons in He as [Heb He]. apply Forall_cons in Hfit as [Hfb Hfit].
    simpl in Hc. apply contiguous_app in Hc as [Hcb Hc].
    pose proof (batch_bytes_lower b). rewrite seg_content_cons in Hfuel.
    rewrite !blen_app in Hfuel.
    destruct fuel as [|fuel]; [blen_lia|].
    assert (bs = (b1 ++ [b]) ++ b2) as Hbs by (unfold bs; by rewrite <- app_assoc).
    assert (concat (b1 ++ [b]) = concat b1 ++ b) as Hcc
      by (rewrite concat_app; simpl; by rewrite app_nil_r).
    assert (blen (concat bs) = blen (concat (b1 ++ [b])) + blen (concat b2)) as Hlen
      by (by rewrite Hbs, concat_app, blen_app).
    pose proof (blen_nonneg (concat b2)).
    eapply (scan_step b1 b b2 base fuel maxB active seg w tail); try done; [lia|].
    intros m w' HF Hm Hall. eapply runs_weaken; [apply IH; simpl|..].
    + by rewrite HF, <- Hbs.
    + by rewrite <- Hbs.
    + done.
    + done.
    + done.
    + done.
    + by rewrite Hcc, blen_app, Z.add_assoc.
    + by rewrite <- Hbs.
    + rewrite blen_app. lia.
    + intros ov [seg' w2] (-> & (m' & -> & Hm' & Hall') & Htr). simpl in *.
      rewrite <- Hbs, HF in *. split; [done|]. split; [|done].
      exists m'. split; [by destruct seg|]. split; [lia|]. apply Forall_app. split; [|done].
      eapply Forall_impl; [exact Hall|]. simpl. lia.
    + intros [? w2] HE. congruence.
Qed.

(** ** The index file *)

Definition entry_small (e : IndexEntry) : Prop :=
  0 <= RelativeOffset e < two32 ∧ 0 <= Position e < two63.

Lemma entry_ok_small bs e :
  rel_ok bs → blen (seg_content bs) < two63 → entry_ok bs e → entry_small e.
Proof.
  intros Hrel Hsz (b1 & b & b2 & Hbs & HP & HR). specialize (Hrel _ _ _ Hbs).
  rewrite Hbs, seg_content_app, blen_app in Hsz. unfold MaxUint32 in Hrel.
  pose proof (blen_nonneg (concat b1)). pose proof (blen_nonneg (seg_content b1)).
  pose proof (blen_nonneg (seg_content (b :: b2))). unfold entry_small. lia.
Qed.

Lemma entry_fields es1 e es2 :
  entry_small e → let buf := concat (entry_bytes <$> (es1 ++ e :: es2)) in
  Uint32_at buf (blen es1 * 12) = Ok (RelativeOffset e)
  ∧ Uint64_at buf (blen es1 * 12 + 4) = Ok (Position e).
Proof.
  intros [HR HP] buf.
  assert (at_off buf (blen es1 * 12) (entry_bytes e)) as Hat.
  { unfold buf. rewrite fmap_app, concat_app, fmap_cons. cbn [concat].
    replace (blen es1 * 12) with (blen (concat (entry_bytes <$> es1)))
      by (rewrite blen_entries; lia). apply at_off_intro. }
  unfold entry_bytes in Hat. apply at_off_app in Hat as [H1 H2]. rewrite blen_be_put in H2.
  change (Z.of_nat 4) with 4 in H2. split.
  - rewrite (at_off_Uint32 _ _ _ H1), u32_small by lia. done.
  - rewrite (at_off_Uint64 _ _ _ H2), u64_small by lia. done.
Qed.

(** Reading back encoded entries gives the entries or an ordering error. *)
Lemma read_entries_encoded es2 es1 lastRel lastPos :
  Forall entry_small es2 →
  let r := read_entries (concat (entry_bytes <$> (es1 ++ es2))) (length es2) (blen es1)
             lastRel lastPos in
  r = Ok es2 ∨ ∃ e, r = Err e.
Proof.
  revert es1 lastRel lastPos. induction es2 as [|e es2 IH]; intros es1 lr lp Hs; [by left|].
  apply Forall_cons in Hs as [He Hs]. destruct (entry_fields es1 e es2 He) as [H1 H2].
  cbn [read_entries length]. rewrite H1. cbn [rbind]. rewrite H2. cbn [rbind].
  specialize (IH (es1 ++ [e]) (RelativeOffset e) (Position e) Hs).
  rewrite <- app_assoc, blen_app, blen_cons, blen_nil, Z.add_0_r in IH. cbn [app] in IH.
  cbv zeta in IH |- *. destruct e as [rel pos]. cbn [RelativeOffset Position] in *.
  destruct (0 <? blen es1); [destruct (rel <=? lr); [eauto|]; destruct (pos <=? lp); [eauto|]
    |destruct (negb _ || negb _); [eauto|]];
    (destruct (MaxInt64 <? pos); [eauto|]); destruct IH as [-> |[x ->]]; eauto.
Qed.

(** ReadIndexEntries on an index file of whole entries and possibly part of one:
    its entries are entries of the file. *)
Lemma ReadIndexEntries_spec bs d seg w r seg' w' :
  data_at (w_files w) (seg_indexPath seg) = Some d → seg_indexSize seg = blen d →
  index_disk_ok bs d → rel_ok bs → blen (seg_content bs) < two63 →
  ReadIndexEntries (seg, w) = (r, (seg', w')) →
  seg' = seg ∧ quiet w w' ∧ w_files w' = w_files w ∧ r ≠ Panic
  ∧ ∀ es, r = Ok es → Forall (entry_ok bs) es
      ∧ d = concat (entry_bytes <$> es).
Proof.
  intros Hd Hsz (es & junk & -> & Hj & Hes) Hrel Hsmall H.
  apply data_at_Some in Hd as [k Hf]. unfold ReadIndexEntries, bind at 1, get_obj in H.
  rewrite Hsz, blen_app, blen_entries in H. pose proof (blen_nonneg junk) as Hjn.
  pose proof (blen_nonneg es) as Hen.
  destruct (Z.eqb_spec (12 * blen es + blen junk) 0) as [Hz|_].
  { injection H as <- <- <-. split; [done|]. split; [apply quiet_refl|]. split; [done|].
    split; [done|]. intros ? [= <-]. assert (blen es = 0 ∧ blen junk = 0) as [He0 Hj0] by lia.
    split; [constructor|]. destruct es; [|rewrite blen_cons in He0; blen_lia].
    destruct junk; [done|rewrite blen_cons in Hj0; blen_lia]. }
  destruct (Z.eqb_spec ((12 * blen es + blen junk) mod 12) 0) as [Hm|_]; cbn [negb] in H.
  2:{ injection H as <- <- <-. by split_and!; auto using quiet_refl. }
  assert (junk = []) as ->.
  { rewrite Z.add_comm, Z.mul_comm, Z.mod_add, Z.mod_small in Hm by lia.
    destruct junk; [done|]. rewrite blen_cons in Hm. blen_lia. }
  rewrite blen_nil, Z.add_0_r, app_nil_r in *. destruct (_ <? _).
  { injection H as <- <- <-. by split_and!; auto using quiet_refl. }
  binv H got s1 H1; [destruct s1 as [seg1 w1]|..]; apply io_inv in H1 as [-> H1];
    apply (fs_read_at_spec _ _ _ _ _ _ _ Hf) in H1 as (HQ & HF & [Hr|[Hr Hn]]);
    simplify_eq; [|by split_and!].
  cbn [fdata] in H. rewrite <- blen_entries in H. change (Z.to_nat 0) with 0%nat in H.
  rewrite drop_0 in H.
  rewrite (take_ge (concat (entry_bytes <$> es))), Z.sub_diag, app_nil_r in H
    by (rewrite blen_eq; lia).
  rewrite blen_entries, (Z.mul_comm 12), Z.div_mul, blen_eq, Nat2Z.id in H by lia.
  destruct (read_entries_encoded es [] 0 0) as [Hr|[e Hr]].
  { eapply Forall_impl; [exact Hes|]. intros e. by apply entry_ok_small. }
  - change (blen []) with 0 in Hr. cbn [app] in Hr. rewrite Hr in H. injection H as <- <- <-.
    split_and!; try done. by intros ? [= <-].
  - change (blen []) with 0 in Hr. cbn [app] in Hr. rewrite Hr in H. injection H as <- <- <-.
    by split_and!.
Qed.

(** A read at any position returns as many bytes as asked for, or an error. *)
Lemma Segment_ReadAt_any n pos seg w r w' :
  0 <= n → on_seg seg (Segment_ReadAt n pos) w = (r, w') →
  quiet w w' ∧ w_files w' = w_files w
  ∧ ((∃ x, r = Ok x ∧ blen x = n) ∨ ∃ e, r = Err e).
Proof.
  intros Hn H. unfold on_seg, Segment_ReadAt, bind, get_obj, io, fs_read_at in H.
  destruct (next_outcome w) as [o w1] eqn:E. apply next_outcome_spec in E as (HF & HQ & _).
  destruct o as [|k]; [|injection H as <- <-; by eauto].
  destruct (w_files w1 !! seg_path seg) as [f|]; [|injection H as <- <-; by eauto].
  destruct (Z.ltb_spec (blen (take (Z.to_nat n) (drop (Z.to_nat pos) (fdata f)))) n) as [|Hl];
    injection H as <- <-; split; [done| |done|]; (split; [done|]); [by eauto|].
  left. eexists. split; [done|]. unfold blen in *. rewrite length_take in *. lia.
Qed.

Lemma entry_ok_below bs lost e :
  entry_ok (bs ++ lost) e → Position e < blen (seg_content bs) → entry_ok bs e.
Proof.
  intros (b1 & b & b2 & Heq & HP & HR) Hlt.
  apply app_eq_inv in Heq as [(k & -> & Hk)|(k & -> & Hk)].
  - destruct k as [|x k].
    + rewrite app_nil_r in Hlt. lia.
    + injection Hk as -> Hk. by exists b1, x, k.
  - rewrite HP, seg_content_app, blen_app in Hlt. pose proof (blen_nonneg (seg_content k)). lia.
Qed.

(** A validated entry points at a batch of the log file. *)
Lemma validate_entries_spec bs lost entries seg i lastRel lastPos w r w' :
  Forall (entry_ok (bs ++ lost)) entries → Forall entry_small entries →
  validate_entries seg (blen (seg_content bs)) i lastRel lastPos entries w = (r, w') →
  quiet w w' ∧ w_files w' = w_files w
  ∧ ∃ b, r = Ok b ∧ (b = true → Forall (entry_ok bs) entries).
Proof.
  revert i lastRel lastPos w. induction entries as [|e es IH]; intros i lr lp w Hok Hsm H.
  { injection H as <- <-. split; [apply quiet_refl|]. split; [done|]. by eexists. }
  apply Forall_cons in Hok as [He Hok]. apply Forall_cons in Hsm as [[_ Hp] Hsm].
  assert (∀ w1, quiet w w1 → w_files w1 = w_files w → quiet w w1 ∧ w_files w1 = w_files w
    ∧ ∃ b, @Ok bool false = Ok b ∧ (b = true → Forall (entry_ok bs) (e :: es))) as Hno.
  { intros w1 HQ HF. split; [done|]. split; [done|]. by exists false. }
  cbn [validate_entries] in H. rewrite i64_small in H by lia.
  destruct (_ && _); [injection H as <- <-; apply Hno; [apply quiet_refl|done]|].
  destruct (Z.leb_spec (blen (seg_content bs)) (Position e)) as [|Hlt];
    [injection H as <- <-; apply Hno; [apply quiet_refl|done]|].
  unfold bind at 1, attempt in H. destruct (on_seg seg _ w) as [r1 w1] eqn:E1.
  destruct (Segment_ReadAt_any 9 _ _ _ _ _ ltac:(lia) E1) as (HQ1 & HF1 & [(x & -> & Hx)|[e1 ->]]);
    [|injection H as <- <-; by apply Hno].
  destruct (slice_no_panic x 0 4) as (m & Hm & _); [lia..|].
  unfold bind at 1 in H. rewrite Hm in H. cbn [lift_res] in H.
  case_bool_decide; [injection H as <- <-; by apply Hno|].
  destruct (_ <? _); [injection H as <- <-; by apply Hno|].
  unfold bind at 1, attempt in H. destruct (on_seg seg _ w1) as [r2 w2] eqn:E2.
  destruct (Segment_ReadAt_any 33 _ _ _ _ _ ltac:(lia) E2) as (HQ2 & HF2 & [(y & -> & Hy)|[e2 ->]]);
    [|injection H as <- <-; apply Hno; [eauto with fs|congruence]].
  destruct (Uint64_at_no_panic y 13) as (v & Hv & _); [lia..|].
  unfold bind at 1 in H. rewrite Hv in H. cbn [lift_res] in H.
  assert (quiet w w2 ∧ w_files w2 = w_files w) as [HQ HF] by (split; [eauto with fs|congruence]).
  destruct (negb _); [injection H as <- <-; by apply Hno|].
  apply IH in H as (HQ3 & HF3 & b & -> & Hb); [|done..].
  split; [eauto with fs|]. split; [congruence|]. exists b. split; [done|].
  intros Ht. constructor; [by eapply entry_ok_below|auto].
Qed.

Lemma validateIndexEntries_spec bs lost entries seg w r w' :
  Forall (entry_ok (bs ++ lost)) entries → Forall entry_small entries →
  validateIndexEntries seg entries (blen (seg_content bs)) w = (r, w') →
  quiet w w' ∧ w_files w' = w_files w
  ∧ ∃ b, r = Ok b ∧ (b = true → Forall (entry_ok bs) entries).
Proof.
  intros Hok Hsm H. unfold validateIndexEntries in H. destruct entries as [|e es].
  - injection H as <- <-. split; [apply quiet_refl|]. split; [done|]. by eexists.
  - destruct (_ || _).
    { injection H as <- <-. split; [apply quiet_refl|]. split; [done|]. by exists false. }
    by eapply validate_entries_spec.
Qed.

(** ** The rebuild of the index *)

Lemma batch_base_contiguous base b :
  b ≠ [] → contiguous base b → batch_base b = base.
Proof.
  intros Hne Hc. destruct b as [|r b]; [done|]. specialize (Hc 0%nat r eq_refl). simpl. lia.
Qed.

(** One write at the end of the temporary file. *)
Lemma runs_append_entry p es e w (Q : unit → World → Prop) (E : World → Prop) :
  data_at (w_files w) p = Some (concat (entry_bytes <$> es)) →
  (∀ w', file_becomes (w_files w) (w_files w') p (concat (entry_bytes <$> (es ++ [e]))) →
     Q tt w') →
  (∀ w' d, file_becomes (w_files w) (w_files w') p d → E w') →
  runs (fs_write_at p (entry_bytes e) (12 * blen es)) w Q E.
Proof.
  intros Hd HQ HE. apply data_at_Some in Hd as [k Hf].
  assert (Z.to_nat (12 * blen es) = length (concat (entry_bytes <$> es))) as Hpos
    by (rewrite <- blen_entries, blen_eq; lia).
  eapply runs_write_at; [exact Hf|..].
  - intros w' HF. apply HQ. rewrite HF. apply file_becomes_insert. cbn [fdata].
    by rewrite Hpos, overwrite_end, fmap_app, concat_app, concat_fmap_cons, concat_fmap_nil, app_nil_r.
  - intros w' n _ HF. eapply HE. rewrite HF. by apply file_becomes_insert.
Qed.

Lemma rebuild_step b1 b b2 fuel interval tmp es lip seg w
    (Q : list IndexEntry * Z → Segment * World → Prop) (E : Segment * World → Prop) :
  let bs := b1 ++ b :: b2 in
  data_at (w_files w) (seg_path seg) = Some (seg_content bs) → tmp ≠ seg_path seg →
  data_at (w_files w) tmp = Some (concat (entry_bytes <$> es)) →
  encodable b → rel_ok bs → blen (seg_content bs) < two63 →
  0 <= seg_baseOffset seg → contiguous (seg_baseOffset seg + blen (concat b1)) b →
  seg_baseOffset seg + blen (concat b1) < two64 →
  (∀ m w' es' lip', seg_maxTimestamp seg <= m → (es' = es ∨ ∃ e, es' = es ++ [e] ∧ entry_ok bs e) →
     file_becomes (w_files w) (w_files w') tmp (concat (entry_bytes <$> es')) →
     runs (rebuild_loop fuel interval (blen (seg_content bs)) tmp es' lip'
             (blen (seg_content (b1 ++ [b])))) (SetMaxTimestamp m seg, w') Q E) →
  (∀ seg' w' d, file_becomes (w_files w) (w_files w') tmp d → E (seg', w')) →
  runs (rebuild_loop (S fuel) interval (blen (seg_content bs)) tmp es lip
          (blen (seg_content b1))) (seg, w) Q E.
Proof.
  intros bs Hd Hne Htmp He Hrel Hsz H0 Hc Hend Hk HE.
  pose proof (batch_at b1 b b2 []) as Hat. fold bs in Hat. rewrite app_nil_r in Hat.
  destruct (at_off_bound _ _ _ Hat) as [Hp0 Hbd]. pose proof (batch_bytes_lower b) as Hlow.
  assert (blen (seg_content (b1 ++ [b])) = blen (seg_content b1) + blen (batch_bytes b)) as Hpos
    by (by rewrite seg_content_app, seg_content_one, blen_app).
  destruct (batch_prefix33 b He) as (h & rest & Hb & Hh & H1 & H2 & H3).
  assert (at_off (seg_content bs) (blen (seg_content b1)) h) as Hath
    by (rewrite Hb in Hat; by apply at_off_app in Hat as [? _]).
  pose proof (Hrel b1 b b2 eq_refl) as Hr. unfold MaxUint32 in Hr.
  pose proof (blen_nonneg (concat b1)) as Hn.
  rewrite (batch_base_contiguous _ _ (enc_nonempty _ He) Hc), u64_small in H2 by lia.
  cbn [rebuild_loop]. destruct (Z.leb_spec (blen (seg_content bs)) (blen (seg_content b1))); [lia|].
  apply runs_bind. eapply runs_ReadAt; [exact Hd|exact Hath|done| |].
  2:{ intros w' HF. eapply HE, file_becomes_refl; [exact Htmp|done]. }
  intros w1 HF1. apply runs_bind. eapply runs_lift; [exact H2|].
  apply runs_bind. eapply runs_lift; [exact H1|]. apply runs_bind. eapply runs_lift; [exact H3|].
  apply runs_bind, runs_modify. apply runs_bind, runs_get_obj.
  destruct (raise_maxTimestamp_cases (i64 (u64 (batch_max_timestamp b))) seg)
    as (m & -> & Hm & _). cbn [SetMaxTimestamp seg_baseOffset].
  replace (seg_baseOffset seg + blen (concat b1) - seg_baseOffset seg) with (blen (concat b1)) by lia.
  rewrite (u64_small (blen (concat b1))), (u32_small (blen (concat b1))), (u64_small (blen (seg_content b1))) by lia.
  unfold MaxUint32. destruct (Z.ltb_spec 4294967295 (blen (concat b1))); [lia|].
  replace (blen (seg_content b1) + (9 + (blen (batch_bytes b) - 9)))
    with (blen (seg_content (b1 ++ [b]))) by lia.
  destruct (_ || _).
  - apply runs_bind, runs_io. apply runs_append_entry; [by rewrite HF1|..].
    + intros w2 Hf2. apply Hk; [done| |by rewrite <- HF1]. right. eexists. split; [done|].
      by exists b1, b, b2.
    + intros w2 d Hf2. rewrite HF1 in Hf2. by eapply HE.
  - apply Hk; [done|by left|]. by apply file_becomes_refl.
Qed.

Lemma rebuild_loop_runs b2 b1 fuel interval tmp es lip seg w :
  let bs := b1 ++ b2 in
  data_at (w_files w) (seg_path seg) = Some (seg_content bs) → tmp ≠ seg_path seg →
  data_at (w_files w) tmp = Some (concat (entry_bytes <$> es)) → Forall (entry_ok bs) es →
  Forall encodable b2 → rel_ok bs → blen (seg_content bs) < two63 →
  0 <= seg_baseOffset seg → contiguous (seg_baseOffset seg) (concat bs) →
  seg_baseOffset seg + blen (concat bs) < two64 →
  blen (seg_content b2) <= Z.of_nat fuel →
  runs (rebuild_loop fuel interval (blen (seg_content bs)) tmp es lip (blen (seg_content b1)))
    (seg, w)
    (fun '(es', _) '(seg', w') =>
       (∃ m, seg' = SetMaxTimestamp m seg ∧ seg_maxTimestamp seg <= m)
       ∧ Forall (entry_ok bs) es'
       ∧ file_becomes (w_files w) (w_files w') tmp (concat (entry_bytes <$> es')))
    (fun '(_, w') => ∃ d, file_becomes (w_files w) (w_files w') tmp d).
Proof.
  revert b1 fuel es lip seg w. induction b2 as [|b b2 IH];
    intros b1 fuel es lip seg w bs Hd Hne Htmp Hes He Hrel Hsz H0 Hc Hend Hfuel.
  - unfold bs in *. rewrite app_nil_r in *. destruct fuel; cbn [rebuild_loop]; rewrite Z.leb_refl;
      apply runs_ret; (split; [exists (seg_maxTimestamp seg); split; [by destruct seg|lia]|]);
      (split; [done|]); by apply file_becomes_refl.
  - apply Forall_cons in He as [Heb He]. pose proof (batch_bytes_lower b) as Hlow.
    rewrite seg_content_cons, blen_app in Hfuel. destruct fuel as [|fuel]; [blen_lia|].
    assert (bs = (b1 ++ [b]) ++ b2) as Hbs by (unfold bs; by rewrite <- app_assoc).
    pose proof Hc as Hc'. unfold bs in Hc'. rewrite concat_app in Hc'.
    apply contiguous_app in Hc' as [_ Hc']. simpl in Hc'. apply contiguous_app in Hc' as [Hcb _].
    assert (blen (concat b1) <= blen (concat bs)) as Hle.
    { unfold bs. rewrite concat_app, blen_app. pose proof (blen_nonneg (concat (b :: b2))). lia. }
    eapply (rebuild_step b1 b b2 fuel interval tmp es lip seg w); try done; [lia| |by eauto].
    intros m w' es' lip' Hm Hes' Hf. fold bs. rewrite Hbs.
    eapply runs_weaken; [apply IH; rewrite <- ?Hbs; simpl|..]; try done.
    + unfold data_at. rewrite (proj2 Hf) by done. done.
    + by destruct Hf.
    + destruct Hes' as [->|(e & -> & Hok)]; [done|]. apply Forall_app. auto.
    + lia.
    + intros [es2 l2] [seg' w2] ((m' & -> & Hm') & Hes2 & Hf2). simpl in *. rewrite <- Hbs in *.
      split; [exists m'; split; [by destruct seg|lia]|]. split; [done|].
      by eapply file_becomes_trans.
    + intros [? w2] [d Hf2]. exists d. by eapply file_becomes_trans.
Qed.

(** Only the index file and the temporary file may differ, and the index file is
    the old one or a complete new one. *)
Record index_only (F F' : gmap path file) (ip tmp : path) (bs : list batch) : Prop := mkIndexOnly {
  io_rest : ∀ p, p ≠ ip → p ≠ tmp → F' !! p = F !! p;
  io_index : F' !! ip = F !! ip
    ∨ ∃ es, Forall (entry_ok bs) es ∧ data_at F' ip = Some (concat (entry_bytes <$> es));
}.

Lemma index_only_tmp F F' ip tmp bs :
  ip ≠ tmp → (∀ p, p ≠ tmp → F' !! p = F !! p) → index_only F F' ip tmp bs.
Proof. intros Hne HF. split; [auto|left; auto]. Qed.

Lemma discard_tmp (seg : Segment) (w : World) tmp (h : M (Segment * World) unit) :
  h = ignore (io (fs_remove tmp))
  ∨ h = (do* ignore (io (fs_close tmp)) in ignore (io (fs_remove tmp))) →
  quiet w (snd (snd (h (seg, w))))
  ∧ ∀ p, p ≠ tmp → w_files (snd (snd (h (seg, w)))) !! p = w_files w !! p.
Proof.
  assert (∀ w, quiet w (snd (snd (ignore (io (fs_remove tmp)) (seg, w))))
    ∧ ∀ p, p ≠ tmp → w_files (snd (snd (ignore (io (fs_remove tmp)) (seg, w)))) !! p
                     = w_files w !! p) as Hrm.
  { intros w1. unfold ignore, io. pose proof (remove_keeps tmp w1) as Hk.
    destruct (fs_remove tmp w1) as [r w2]. simpl in *. split; [|intros p Hp; by apply Hk].
    apply (Hk (tmp ++ ["x"%string])). intros Heq%(f_equal length). rewrite length_app in Heq.
    simpl in Heq. lia. }
  intros [-> | ->]; [apply Hrm|].
  assert ((do* ignore (io (fs_close tmp)) in ignore (io (fs_remove tmp))) (seg, w)
    = ignore (io (fs_remove tmp)) (seg, snd (fs_close tmp w))) as Hrun.
  { unfold bind, ignore, io. by destruct (fs_close tmp w). }
  rewrite Hrun. destruct (Hrm (snd (fs_close tmp w))) as [HQ2 HF2].
  destruct (fs_close tmp w) as [r w1] eqn:E. apply fs_close_spec in E as (HQ & HF & _).
  cbn [snd] in *. split; [eauto with fs|]. intros p Hp. by rewrite HF2, HF.
Qed.

Lemma tmp_path_snoc dir name : tmp_path (dir ++ [name]) = dir ++ [name +:+ ".tmp"].
Proof.
  unfold tmp_path. rewrite last_snoc, length_app. simpl. by rewrite Nat.add_sub, take_app_length.
Qed.

(** The temporary file of a rebuild. *)
Definition index_tmp (dir : path) (base : Z) : path := dir ++ [index_name base +:+ ".tmp"].

Lemma index_tmp_ne dir a b :
  index_tmp dir a ≠ dir ++ [log_name b] ∧ index_tmp dir a ≠ dir ++ [index_name b].
Proof.
  unfold index_tmp. split; intros Heq%(f_equal list.last); rewrite !last_snoc in Heq;
    apply (inj Some), (f_equal String.length) in Heq;
    by rewrite length_append, length_index_name, ?length_log_name, ?length_index_name in Heq.
Qed.

(** The segment with the index that a rebuild installs. *)
Definition reindexed (seg seg' : Segment) (es : list IndexEntry) : Prop :=
  ∃ m lip, seg' = seg_with_indexSize (12 * blen es) (seg_with_indexDirty false
                    (seg_with_index es lip (SetMaxTimestamp m seg)))
    ∧ seg_maxTimestamp seg <= m.

(** A step of the rebuild whose failure discards the temporary file. *)
Lemma runs_discard {A} (m : M (Segment * World) A) (h : M (Segment * World) unit)
    (seg : Segment) (w : World) (F : gmap path file) (tmp : path)
    (Q : A → Segment * World → Prop) (E : Segment * World → Prop) :
  h = ignore (io (fs_remove tmp))
  ∨ h = (do* ignore (io (fs_close tmp)) in ignore (io (fs_remove tmp))) →
  runs m (seg, w) Q (fun '(_, w') => ∀ p, p ≠ tmp → w_files w' !! p = F !! p) →
  (∀ seg' w', (∀ p, p ≠ tmp → w_files w' !! p = F !! p) → E (seg', w')) →
  runs (on_err m h) (seg, w) Q E.
Proof.
  intros Hh Hm HE. eapply runs_on_err; [exact Hm|]. intros [seg1 w1] H1.
  destruct (discard_tmp seg1 w1 tmp h Hh) as [HQ HF].
  destruct (h (seg1, w1)) as [r [seg2 w2]]. simpl in *. split; [exact HQ|].
  apply HE. intros p Hp. by rewrite HF, H1.
Qed.

(** The end of the rebuild: sync, close and rename the complete temporary file,
    then install the entries. *)
Lemma install_index_runs (dir : path) (es : list IndexEntry) (lip : Z) (seg : Segment)
    (w : World) (F : gmap path file) (tmp ip : path) (bs : list batch) :
  (∀ p, p ≠ tmp → w_files w !! p = F !! p) → ip ≠ tmp →
  data_at (w_files w) tmp = Some (concat (entry_bytes <$> es)) → Forall (entry_ok bs) es →
  runs
    (do* on_err (io (fs_sync tmp))
           (do* ignore (io (fs_close tmp)) in ignore (io (fs_remove tmp))) in
     do* on_err (io (fs_close tmp)) (ignore (io (fs_remove tmp))) in
     do* ignore (io (fs_close ip)) in
     do* on_err (io (fs_rename tmp ip)) (ignore (io (fs_remove tmp))) in
     do* io (fs_open_existing ip) in
     do* modify (fun seg =>
           seg_with_indexSize (12 * blen es)
             (seg_with_indexDirty false (seg_with_index es lip seg))) in
     do* emit IndexRebuilt in
     io (fs_sync_dir dir)) (seg, w)
    (fun _ '(seg', w') =>
       seg' = seg_with_indexSize (12 * blen es)
                (seg_with_indexDirty false (seg_with_index es lip seg))
       ∧ data_at (w_files w') ip = Some (concat (entry_bytes <$> es))
       ∧ ∀ p, p ≠ ip → p ≠ tmp → w_files w' !! p = F !! p)
    (fun '(_, w') => index_only F (w_files w') ip tmp bs).
Proof.
  intros HF Hne Hd Hes. apply data_at_Some in Hd as [k Hf].
  assert (∀ w', (∀ p, p ≠ tmp → w_files w' !! p = F !! p) → index_only F (w_files w') ip tmp bs)
    as Hold by (intros; by apply index_only_tmp).
  apply runs_bind. eapply runs_discard with (F := F); [by right| |intros ? w' Hx; exact (Hold w' Hx)].
  apply runs_io. eapply runs_sync; [exact Hf| |intros w1 HF1 p Hp; by rewrite HF1, HF].
  intros w1 HF1. cbn [fdata] in HF1. apply runs_bind.
  eapply runs_discard with (F := F); [by left| |intros ? w' Hx; exact (Hold w' Hx)].
  assert (∀ p, p ≠ tmp → w_files w1 !! p = F !! p) as HFa
    by (intros p Hp; by rewrite HF1, lookup_insert_ne, HF).
  apply runs_io, runs_close; [|intros w2 HF2 p Hp; by rewrite HF2, HFa].
  intros w2 HF2. apply runs_bind, runs_ignore_close. intros w3 HF3. apply runs_bind.
  eapply runs_discard with (F := F); [by left| |intros ? w' Hx; exact (Hold w' Hx)].
  assert (∀ p, p ≠ tmp → w_files w3 !! p = F !! p) as HFb by (intros; by rewrite HF3, HF2, HFa).
  assert (w_files w3 !! tmp = Some (mkFile (concat (entry_bytes <$> es))
    (length (concat (entry_bytes <$> es))))) as Ht by (by rewrite HF3, HF2, HF1, lookup_insert_eq).
  apply runs_io. eapply runs_rename; [exact Ht| |intros w4 HF4 p Hp; by rewrite HF4, HFb].
  intros w4 HF4.
  assert (∀ w', w_files w' = w_files w4 →
    data_at (w_files w') ip = Some (concat (entry_bytes <$> es))
    ∧ ∀ p, p ≠ ip → p ≠ tmp → w_files w' !! p = F !! p) as Hnew.
  { intros w' ->. rewrite HF4. split; [apply data_at_insert_eq|]. intros p Hp1 Hp2.
    by rewrite lookup_insert_ne, lookup_delete_ne, HFb. }
  assert (∀ w', w_files w' = w_files w4 → index_only F (w_files w') ip tmp bs) as Hnew'
    by (intros w' Hw; destruct (Hnew w' Hw); split; eauto).
  apply runs_bind, runs_io. eapply runs_open_existing; [by rewrite HF4, lookup_insert_eq| |auto].
  intros w5 HF5. apply runs_bind, runs_modify, runs_bind, runs_emit, runs_io.
  apply runs_sync_dir; intros w6 HF6; simpl in HF6; rewrite HF5 in HF6; [|auto].
  split; [done|]. by apply Hnew.
Qed.

Lemma rebuildIndex_runs dir interval bs seg w :
  let base := seg_baseOffset seg in
  let ip := dir ++ [index_name base] in
  seg_path seg = dir ++ [log_name base] → seg_indexPath seg = ip →
  data_at (w_files w) (seg_path seg) = Some (seg_content bs) → is_Some (w_files w !! ip) →
  Forall encodable bs → rel_ok bs → blen (seg_content bs) < two63 →
  0 <= base → contiguous base (concat bs) → base + blen (concat bs) < two64 →
  runs (rebuildIndex dir interval (blen (seg_content bs))) (seg, w)
    (fun _ '(seg', w') => ∃ es, reindexed seg seg' es ∧ Forall (entry_ok bs) es
       ∧ data_at (w_files w') ip = Some (concat (entry_bytes <$> es))
       ∧ ∀ p, p ≠ ip → p ≠ index_tmp dir base → w_files w' !! p = w_files w !! p)
    (fun '(_, w') => index_only (w_files w) (w_files w') ip (index_tmp dir base) bs).
Proof.
  intros base ip Hp Hip Hd [g Hg] He Hrel Hsz H0 Hc Hend.
  destruct (index_tmp_ne dir base base) as [Htl Hti]. unfold rebuildIndex.
  set (tmp := index_tmp dir base) in *.
  assert (tmp_path ip = tmp) as Htmp by apply tmp_path_snoc.
  apply runs_bind, runs_get_obj. rewrite Hip, Htmp. cbv zeta.
  assert (∀ w', (∀ p, p ≠ tmp → w_files w' !! p = w_files w !! p) →
    index_only (w_files w) (w_files w') ip tmp bs) as Hold by (intros; by apply index_only_tmp).
  apply runs_bind, runs_io, runs_open_trunc; [|intros w1 HF1; apply Hold; intros; by rewrite HF1].
  intros w1 HF1. apply runs_bind.
  eapply runs_discard with (F := w_files w); [by right| |intros ? w' Hx; exact (Hold w' Hx)].
  eapply runs_weaken; [apply (rebuild_loop_runs bs []); simpl|..]; try done.
  { by rewrite HF1, data_at_insert_ne by by rewrite Hp. }
  { by rewrite Hp. }
  { by rewrite HF1, data_at_insert_eq. }
  { unfold blen. lia. }
  2:{ intros [seg2 w2] [d Hf2] p Hpt. by rewrite (proj2 Hf2), HF1, lookup_insert_ne. }
  intros [es lip] [seg2 w2] ((m & -> & Hm) & Hes & [Hf2 Hr2]).
  eapply runs_weaken; [apply (install_index_runs dir es lip _ w2 (w_files w) tmp ip bs)|..]; try done.
  - intros p Hpt. by rewrite Hr2, HF1, lookup_insert_ne.
  - intros _ [seg' w'] (-> & Hix & Hrest). exists es. split; [by exists m, lip|]. done.
Qed.

(** ** recoverSegment *)

Lemma attempt_ReadIndexEntries_runs bs d seg w (Q : res (list IndexEntry) → Segment * World → Prop) E :
  data_at (w_files w) (seg_indexPath seg) = Some d → seg_indexSize seg = blen d →
  index_disk_ok bs d → rel_ok bs → blen (seg_content bs) < two63 →
  (∀ r w', w_files w' = w_files w →
     (∀ es, r = Ok es → Forall (entry_ok bs) es ∧ d = concat (entry_bytes <$> es)) →
     Q r (seg, w')) →
  runs (attempt ReadIndexEntries) (seg, w) Q E.
Proof.
  intros Hd Hsz Hok Hrel Hs HQ r [seg' w'] H. unfold attempt in H.
  destruct (ReadIndexEntries (seg, w)) as [r1 [seg1 w1]] eqn:E1.
  destruct (ReadIndexEntries_spec bs d _ _ _ _ _ Hd Hsz Hok Hrel Hs E1) as (-> & HQt & HF & Hnp & Hes).
  destruct r1 as [es|e|]; [..|done]; injection H as <- <- <-; (split; [done|]); left;
    eexists; (split; [done|]); by apply HQ.
Qed.

Lemma validate_runs {X} bs lost entries seg (x : X) w (Q : bool → X * World → Prop) E :
  Forall (entry_ok (bs ++ lost)) entries → Forall entry_small entries →
  (∀ b w', w_files w' = w_files w → (b = true → Forall (entry_ok bs) entries) → Q b (x, w')) →
  runs (io (validateIndexEntries seg entries (blen (seg_content bs)))) (x, w) Q E.
Proof.
  intros Hok Hsm HQ. apply runs_io. intros r w' H.
  apply (validateIndexEntries_spec bs lost) in H as (HQt & HF & b & -> & Hb); [|done..].
  split; [done|]. left. eauto.
Qed.

(** The segment that NewSegment makes of the files of a log on disk. *)
Record seg_opened (F : gmap path file) (dir : path) (base : Z) (seg : Segment) : Prop := mkSegOpened {
  op_base : seg_baseOffset seg = base;
  op_path : seg_path seg = dir ++ [log_name base];
  op_indexPath : seg_indexPath seg = dir ++ [index_name base];
  op_size : ∃ d, data_at F (dir ++ [log_name base]) = Some d ∧ seg_size seg = blen d;
  op_indexSize : ∃ d, data_at F (dir ++ [index_name base]) = Some d ∧ seg_indexSize seg = blen d;
}.

(** Only the files of base offset [base] may differ, and its log file is at most cut
    back. *)
Record base_only (F F' : gmap path file) (dir : path) (base : Z) : Prop := mkBaseOnly {
  bo_rest : ∀ p, p ≠ dir ++ [log_name base] → p ≠ dir ++ [index_name base] →
              p ≠ index_tmp dir base → F' !! p = F !! p;
  bo_log : cut_back F F' (dir ++ [log_name base]);
}.

Lemma base_only_refl F F' dir base : F' = F → base_only F F' dir base.
Proof. intros ->. split; [done|by apply cut_back_same]. Qed.
Lemma base_only_trans F F1 F2 dir base :
  base_only F F1 dir base → base_only F1 F2 dir base → base_only F F2 dir base.
Proof.
  intros [H1 S1] [H2 S2]. split; [|by eapply cut_back_trans]. intros p ???. by rewrite H2, H1.
Qed.

Lemma index_only_base F F' dir base bs :
  index_only F F' (dir ++ [index_name base]) (index_tmp dir base) bs →
  base_only F F' dir base ∧ F' !! (dir ++ [log_name base]) = F !! (dir ++ [log_name base]).
Proof.
  intros [Hr _]. pose proof (log_index_path_ne dir base base) as H1.
  destruct (index_tmp_ne dir base base) as [H2 H3].
  assert (F' !! (dir ++ [log_name base]) = F !! (dir ++ [log_name base])) as Hl
    by (apply Hr; [done|congruence]).
  split; [|done]. split; [auto|]. by apply cut_back_same.
Qed.

(** The scan of a whole log file. *)
Lemma recover_log_runs F dir maxB active base bs lost tail seg w :
  w_files w = F → disk_seg F dir maxB base bs lost tail → scan_tail maxB active tail →
  seg_opened F dir base seg →
  runs (recover_loop (Z.to_nat (seg_size seg)) maxB active 0 (seg_baseOffset seg) 0) (seg, w)
    (fun ov '(seg', w') => ov = (base + blen (concat bs), blen (seg_content bs))
       ∧ scanned seg seg' (blen (seg_content bs)) (concat bs)
       ∧ trimmed F (w_files w') (dir ++ [log_name base]) (seg_content bs))
    (fun '(_, w') => w_files w' = F).
Proof.
  intros <- [Hf Hi Hsm He Hfit Hc H0 Hend Hrel Hls] Ht [Hb Hp Hip (d & Hd & Hsz) _].
  rewrite Hd in Hf. injection Hf as ->. rewrite Hb.
  pose proof (recover_loop_runs bs [] base (Z.to_nat (seg_size seg)) maxB active seg w tail) as H.
  cbv zeta in H. rewrite Hp in H. cbn [app concat] in H.
  change (blen (seg_content [])) with 0 in H. change (blen (@nil StoredRecord)) with 0 in H.
  rewrite Z.add_0_r in H. apply H; try done. rewrite Hsz. lia.
Qed.

Lemma disk_seg_change F F' dir maxB base bs lost tail tail' :
  disk_seg F dir maxB base bs lost tail → tail' = [] ∨ tail' = tail →
  data_at F' (dir ++ [log_name base]) = Some (seg_content bs ++ tail') →
  (∀ d, data_at F' (dir ++ [index_name base]) = Some d → index_disk_ok (bs ++ lost) d) →
  disk_seg F' dir maxB base bs lost tail'.
Proof.
  intros [Hf Hi Hsm He Hfit Hc H0 Hend Hrel Hls] Ht Hf' Hi'. split; try done.
  rewrite !blen_app in *. destruct Ht as [-> | ->]; [|done]. pose proof (blen_nonneg tail).
  change (blen []) with 0. lia.
Qed.

Lemma index_disk_ok_entries bs lost es :
  Forall (entry_ok bs) es → index_disk_ok (bs ++ lost) (concat (entry_bytes <$> es)).
Proof.
  intros Hes. exists es, []. rewrite app_nil_r. split; [done|]. split; [done|].
  eapply Forall_impl; [exact Hes|]. intros e. apply entry_ok_app.
Qed.

Lemma recovered_seg_ok F F0 dir maxB base bs lost tail seg es :
  disk_seg F0 dir maxB base bs lost tail → seg_baseOffset seg = base →
  seg_path seg = dir ++ [log_name base] → seg_indexPath seg = dir ++ [index_name base] →
  data_at F (dir ++ [log_name base]) = Some (seg_content bs) →
  seg_size seg = blen (seg_content bs) → Forall (entry_ok bs) es →
  data_at F (dir ++ [index_name base]) = Some (concat (entry_bytes <$> es)) →
  seg_indexEntries seg = es → seg_indexSize seg = 12 * blen es →
  Forall (fun r => Timestamp r <= seg_maxTimestamp seg) (concat bs) →
  seg_ok F dir maxB (seg_with_nextOffset (base + blen (concat bs)) seg) bs.
Proof.
  intros [Hf Hi Hsm He Hfit Hc H0 Hend Hrel Hls] <- Hp Hip Hl Hsz Hes Hx <- Hxs Hts.
  rewrite blen_app in Hsm. pose proof (blen_nonneg tail).
  split; simpl; rewrite ?Hp, ?Hip; try done; try lia.
  - eexists. split; [exact Hx|]. exists (seg_indexEntries seg), []. by rewrite app_nil_r.
  - by apply rel_ok_prefix in Hrel.
Qed.

(** What recoverSegment establishes, and what it leaves behind when a call fails. *)
Definition recovered F F' dir maxB base bs (o : Z) (seg' : Segment) : Prop :=
  o = base + blen (concat bs) ∧ seg_baseOffset seg' = base
  ∧ seg_ok F' dir maxB (seg_with_nextOffset o seg') bs ∧ base_only F F' dir base.
Definition interrupted F F' dir maxB base bs lost tail : Prop :=
  ∃ tail', (tail' = [] ∨ tail' = tail) ∧ disk_seg F' dir maxB base bs lost tail'
    ∧ base_only F F' dir base.

Lemma trimmed_base F F' dir base d :
  trimmed F F' (dir ++ [log_name base]) d →
  base_only F F' dir base
  ∧ F' !! (dir ++ [index_name base]) = F !! (dir ++ [index_name base]).
Proof.
  intros [[_ Hr] Hs]. split; [split; [auto|done]|]. apply Hr. intros Heq.
  symmetry in Heq. by apply log_index_path_ne in Heq.
Qed.

Lemma rebuild_phase_runs F dir maxB interval base bs lost tail seg seg1 w1 :
  disk_seg F dir maxB base bs lost tail → seg_opened F dir base seg →
  scanned seg seg1 (blen (seg_content bs)) (concat bs) →
  trimmed F (w_files w1) (dir ++ [log_name base]) (seg_content bs) →
  runs (rebuildIndex dir interval (blen (seg_content bs))) (seg1, w1)
    (fun _ '(seg', w') => recovered F (w_files w') dir maxB base bs (base + blen (concat bs)) seg')
    (fun '(_, w') => interrupted F (w_files w') dir maxB base bs lost tail).
Proof.
  intros Hdisk [Hb Hp Hip _ (d & Hd & Hds)] (m & -> & Hm & Hts) Htr.
  destruct (trimmed_base _ _ _ _ _ Htr) as [Hbo Hix]. destruct Htr as [[Hl _] _].
  pose proof Hdisk as [Hf Hi Hsm He Hfit Hc H0 Hend Hrel Hls]. rewrite blen_app in Hsm.
  pose proof (blen_nonneg tail). apply data_at_Some in Hd as [k Hg].
  eapply runs_weaken; [apply (rebuildIndex_runs dir interval bs)|..]; simpl; rewrite ?Hb, ?Hp; try done.
  - rewrite Hix, Hg. eauto.
  - by apply rel_ok_prefix in Hrel.
  - lia.
  - intros _ [seg' w'] (es & (m' & lip & -> & Hm') & Hes & Hx & Hr). simpl in Hm'.
    destruct (index_only_base (w_files w1) (w_files w') dir base bs) as [Hbo' Hl'].
    { split; [done|]. right. by eauto. }
    split; [done|]. split; [done|]. split; [|by eapply base_only_trans].
    apply (recovered_seg_ok _ F _ _ _ _ lost tail _ es); simpl; try done.
    + unfold data_at. by rewrite Hl'.
    + eapply Forall_impl; [exact Hts|]. simpl. lia.
  - intros [? w'] Hio. destruct (index_only_base _ _ _ _ _ Hio) as [Hbo' Hl'].
    exists []. split; [by left|]. split; [|by eapply base_only_trans].
    apply (disk_seg_change F _ _ _ _ _ _ tail); [done|by left|unfold data_at; by rewrite Hl', app_nil_r|].
    intros d' Hd'. destruct (io_index _ _ _ _ _ Hio) as [Heq|(es & Hes & Hx)].
    + apply Hi. unfold data_at in *. by rewrite <- Hix, <- Heq.
    + rewrite Hx in Hd'. injection Hd' as <-. by apply index_disk_ok_entries.
Qed.

Lemma recoverSegment_runs s active seg w base bs lost tail :
  let dir := st_dir s in
  let maxB := st_maxBatchBytes s in
  disk_seg (w_files w) dir maxB base bs lost tail → scan_tail maxB active tail →
  seg_opened (w_files w) dir base seg →
  runs (recoverSegment s active) (seg, w)
    (fun o '(seg', w') => recovered (w_files w) (w_files w') dir maxB base bs o seg')
    (fun '(_, w') => interrupted (w_files w) (w_files w') dir maxB base bs lost tail).
Proof.
  intros dir maxB Hdisk Ht Hop. unfold recoverSegment. apply runs_bind, runs_get_obj, runs_bind.
  eapply runs_weaken; [by eapply (recover_log_runs _ dir maxB)|..].
  2:{ intros [? w1] ->. exists tail. split; [by right|]. split; [done|]. by apply base_only_refl. }
  intros ov [seg1 w1] (-> & Hscan & Htr). destruct (trimmed_base _ _ _ _ _ Htr) as [Hbo Hix].
  pose proof Hdisk as [_ Hi _ _ _ _ _ _ Hrel Hls].
  pose proof Hop as [Hb Hp Hip _ (d & Hd & Hds)]. pose proof Hscan as (m & Hs1 & _ & Hts).
  apply runs_bind. eapply (attempt_ReadIndexEntries_runs (bs ++ lost) d);
    [rewrite Hs1; simpl; unfold data_at in *; by rewrite Hip, Hix|by rewrite Hs1|by apply Hi|done..|].
  intros loaded w2 HF2 Hload. apply runs_bind, runs_get_obj, runs_bind.
  assert (∀ w3, w_files w3 = w_files w1 →
    runs (bind (rebuildIndex dir (st_indexIntervalBytes s) (blen (seg_content bs)))
            (fun _ => ret (base + blen (concat bs)))) (seg1, w3)
    (fun o '(seg', w') => recovered (w_files w) (w_files w') dir maxB base bs o seg')
    (fun '(_, w') => interrupted (w_files w) (w_files w') dir maxB base bs lost tail)) as Hrebuild.
  { intros w3 HF3. apply runs_bind. rewrite <- HF3 in Htr.
    eapply runs_weaken; [by eapply rebuild_phase_runs|..]; [|done].
    intros _ [seg' w'] Hrec. by apply runs_ret. }
  destruct loaded as [es|e|]; [|apply runs_ret; by apply Hrebuild..].
  destruct (Hload es eq_refl) as [Hes Hdes].
  eapply (validate_runs bs lost); [done| |].
  { eapply Forall_impl; [exact Hes|]. intros e. by apply entry_ok_small. }
  intros [] w3 HF3 Hvalid; [|apply Hrebuild; congruence]. apply runs_bind, runs_modify, runs_ret.
  assert (w_files w3 = w_files w1) as HF by congruence.
  split; [done|]. split; [rewrite Hs1; by destruct (list.last es)|].
  split; [|by rewrite HF]. destruct Htr as [[Hl _] _].
  eapply (recovered_seg_ok _ (w_files w) _ _ _ _ lost tail _ es); rewrite ?HF, ?Hs1;
    try done; try (by destruct (list.last es)); [by apply Hvalid|..].
  - unfold data_at in *. by rewrite Hix, Hd, Hdes.
  - rewrite Hdes, blen_entries in Hds. by destruct (list.last es).
Qed.
