(* ===== verification/StoreRecovery.v ===== *)
(** * Recovery of a partition

    [OpenStore] on the files that [disk_ok] describes rebuilds a store that satisfies the
    invariant, segment by segment. *)

From S2P Require Import Prelude FileSystem Runs Names Model Format Segment Store Recovery.
From S2P Require Import StoreInv StoreAppend StoreRead StoreRetention SegmentRecovery.
From Stdlib Require Import Init.Byte.

(** ** Opening the files of one segment *)

(** The index file is created when it is missing; nothing else changes. *)
Definition ensured (F F' : gmap path file) (ip : path) : Prop :=
  F' = F ∨ (F !! ip = None ∧ F' = <[ip := mkFile [] 0]> F).

Lemma runs_on_err_tidy {A} (m : M World A) (h : M World unit) (w : World)
    (Q : A → World → Prop) (P : gmap path file → Prop) :
  tidy h → runs m w Q (fun w' => P (w_files w')) →
  runs (on_err m h) w Q (fun w' => P (w_files w')).
Proof.
  intros Hh Hm. eapply runs_on_err; [exact Hm|]. intros w1 H1.
  destruct (Hh w1) as [HQ HF]. split; [exact HQ|]. by rewrite HF.
Qed.

Lemma NewSegment_runs dir base active w d :
  let ip := dir ++ [index_name base] in
  data_at (w_files w) (dir ++ [log_name base]) = Some d →
  runs (NewSegment dir base active) w
    (fun seg w' => seg_opened (w_files w') dir base seg ∧ ensured (w_files w) (w_files w') ip)
    (fun w' => ensured (w_files w) (w_files w') ip).
Proof.
  intros ip Hd. pose proof (log_index_path_ne dir base base) as Hne.
  pose proof (data_at_Some _ _ _ Hd) as [k Hf]. unfold NewSegment. fold ip in Hne |- *.
  apply runs_bind, runs_open_create; [|congruence|by left].
  intros w1 _ _ HF1. apply runs_bind, (runs_on_err_tidy _ _ _ _ (fun F => ensured (w_files w) F ip));
    [auto with fs|].
  eapply runs_stat; [by rewrite HF1| |intros; left; congruence].
  intros w2 HF2. apply runs_bind, (runs_on_err_tidy _ _ _ _ (fun F => ensured (w_files w) F ip));
    [auto with fs|].
  assert (w_files w2 = w_files w) as HF by congruence.
  assert (∀ w3 g, ensured (w_files w) (w_files w3) ip → w_files w3 !! ip = Some g →
    runs (bind (on_err (fs_stat ip) (do* ignore (fs_close (dir ++ [log_name base])) in ignore (fs_close ip)))
      (fun indexSize => ret (mkSegment base base (blen d) (dir ++ [log_name base]) ip [] (-1)
                               indexSize false active 0 false))) w3
    (fun seg w' => seg_opened (w_files w') dir base seg ∧ ensured (w_files w) (w_files w') ip)
    (fun w' => ensured (w_files w) (w_files w') ip)) as Hlast.
  { intros w3 g He Hg. apply runs_bind, (runs_on_err_tidy _ _ _ _ (fun F => ensured (w_files w) F ip));
      [auto with fs|].
    eapply runs_stat; [exact Hg| |intros w4 HF4; by rewrite HF4].
    intros w4 HF4. apply runs_ret. rewrite HF4. split; [|done]. split; try done.
    - exists d. split; [|done]. destruct He as [-> |[_ ->]]; [done|]. by rewrite data_at_insert_ne.
    - exists (fdata g). unfold data_at. fold ip. by rewrite Hg. }
  apply runs_open_create.
  - intros w3 g Hg HF3. rewrite HF in Hg, HF3. apply (Hlast w3 g); [by left|congruence].
  - intros w3 Hn HF3. rewrite HF in Hn, HF3. apply (Hlast w3 (mkFile [] 0)); [by right|].
    by rewrite HF3, lookup_insert_eq.
  - intros w3 HF3. left. congruence.
Qed.

(** ** Frames: the files of one base offset do not disturb the others *)

Lemma ensured_base F F' dir base :
  ensured F F' (dir ++ [index_name base]) → base_only F F' dir base.
Proof.
  intros [-> |[_ ->]]; [by apply base_only_refl|].
  pose proof (log_index_path_ne dir base base) as Hne.
  split; [intros p _ Hp _; by rewrite lookup_insert_ne|].
  apply cut_back_same. by rewrite lookup_insert_ne.
Qed.

Lemma ensured_disk_seg F F' dir maxB base bs lost tail :
  ensured F F' (dir ++ [index_name base]) → disk_seg F dir maxB base bs lost tail →
  disk_seg F' dir maxB base bs lost tail.
Proof.
  intros [-> |[_ ->]] Hd; [done|].
  eapply disk_seg_change; [exact Hd|by right|..].
  - rewrite data_at_insert_ne; [by destruct Hd|].
    intros Heq. symmetry in Heq. by apply log_index_path_ne in Heq.
  - intros d. rewrite data_at_insert_eq. intros [= <-]. by exists [], [].
Qed.

Lemma base_only_path F F' dir base b :
  base_only F F' dir base → 0 <= base < two64 → 0 <= b < two64 → b ≠ base →
  F' !! (dir ++ [log_name b]) = F !! (dir ++ [log_name b])
  ∧ F' !! (dir ++ [index_name b]) = F !! (dir ++ [index_name b]).
Proof.
  intros [Hr _] Hb Hb' Hne. split; apply Hr.
  - intros Heq. by apply log_path_inj in Heq.
  - apply log_index_path_ne.
  - intros Heq. symmetry in Heq. by apply index_tmp_ne in Heq.
  - intros Heq. symmetry in Heq. by apply log_index_path_ne in Heq.
  - intros Heq. by apply index_path_inj in Heq.
  - intros Heq. symmetry in Heq. by apply index_tmp_ne in Heq.
Qed.

Lemma disk_seg_range F dir maxB base bs lost tail :
  disk_seg F dir maxB base bs lost tail → 0 <= base < two64.
Proof. intros []. pose proof (blen_nonneg (concat bs)). lia. Qed.

Lemma disk_seg_frame F F' dir maxB base b bs lost tail :
  disk_seg F dir maxB b bs lost tail → base_only F F' dir base → 0 <= base < two64 →
  b ≠ base → disk_seg F' dir maxB b bs lost tail.
Proof.
  intros Hd Hbo Hb Hne. pose proof (disk_seg_range _ _ _ _ _ _ _ Hd) as Hr.
  destruct (base_only_path _ _ _ _ _ Hbo Hb Hr Hne) as [Hl Hi].
  eapply disk_seg_change; [exact Hd|by right|unfold data_at; rewrite Hl; by destruct Hd|].
  unfold data_at. rewrite Hi. by destruct Hd.
Qed.

Lemma segs_frame F F' dir maxB base segs bss :
  Forall2 (seg_ok F dir maxB) segs bss → base_only F F' dir base → 0 <= base < two64 →
  Forall (fun s => seg_baseOffset s ≠ base) segs → Forall2 (seg_ok F' dir maxB) segs bss.
Proof.
  intros Hs Hbo Hb. induction Hs as [|s bs segs bss Hok Hs IH]; intros Hne; [constructor|].
  apply Forall_cons in Hne as [Hsb Hne]. constructor; [|auto].
  destruct (base_only_path _ _ _ _ _ Hbo Hb (seg_ok_range _ _ _ _ _ Hok) Hsb) as [Hl Hi].
  apply (seg_ok_frame F); [done|..]; unfold data_at;
    rewrite ?(so_path _ _ _ _ _ Hok), ?(so_indexPath _ _ _ _ _ Hok), ?Hl, ?Hi; done.
Qed.

Lemma disk_chain_le F dir maxB e pc m : disk_chain F dir maxB e pc m → e <= m.
Proof.
  revert e. induction pc as [|bs pc IH]; intros e; simpl; [lia|].
  intros (_ & _ & Hc%IH). pose proof (blen_nonneg (concat bs)). lia.
Qed.

Lemma disk_chain_frame F F' dir maxB base e pc m :
  disk_chain F dir maxB e pc m → base_only F F' dir base → 0 <= base < e → base < two64 →
  disk_chain F' dir maxB e pc m.
Proof.
  revert e. induction pc as [|bs pc IH]; intros e; simpl; [done|].
  intros (Hd & Hne & Hc) Hbo Hb Hb'. pose proof (blen_nonneg (concat bs)).
  split; [eapply disk_seg_frame; [exact Hd|exact Hbo|lia|lia]|]. split; [done|].
  apply IH; [done|done|lia|done].
Qed.

Lemma files_ok_frame F F' dir base bases m :
  files_ok F dir bases m → base_only F F' dir base → 0 <= base < two64 → base <= m →
  is_Some (F !! (dir ++ [log_name base])) → files_ok F' dir bases m.
Proof.
  intros [H1 H2] Hbo Hb Hm Hex. split.
  - intros name c Hs Hc. pose proof (base_of_name_inv _ _ Hc) as [-> Hr].
    destruct (decide (c = base)) as [->|Hne]; [by eapply H1|].
    eapply H1; [|exact Hc]. by rewrite (proj1 (base_only_path _ _ _ _ _ Hbo Hb Hr Hne)) in Hs.
  - intros c Hc. assert (0 <= c < two64) as Hr by lia. assert (c ≠ base) as Hne by lia.
    rewrite (proj2 (base_only_path _ _ _ _ _ Hbo Hb Hr Hne)). by apply H2.
Qed.

(** Log files lose at most their last bytes, and what they keep stays durable. *)
Definition logs_kept (F F' : gmap path file) (dir : path) : Prop :=
  ∀ b, 0 <= b < two64 → cut_back F F' (dir ++ [log_name b]).

Lemma logs_kept_refl F dir : logs_kept F F dir.
Proof. intros b _. by apply cut_back_same. Qed.
Lemma logs_kept_trans F F1 F2 dir : logs_kept F F1 dir → logs_kept F1 F2 dir → logs_kept F F2 dir.
Proof. intros H1 H2 b Hb. eapply cut_back_trans; eauto. Qed.

Lemma base_only_kept F F' dir base :
  base_only F F' dir base → 0 <= base < two64 → logs_kept F F' dir.
Proof.
  intros Hbo Hb b Hr. destruct (decide (b = base)) as [->|Hne]; [by apply Hbo|].
  apply cut_back_same. by apply (base_only_path _ _ _ _ _ Hbo).
Qed.

(** ** Opening the segments one after the other *)

(** The segments [segs] with batches [opc] are open, the files of [pc] and of the
    active segment are still to be opened. *)
Record opening (F : gmap path file) (dir : path) (maxB e0 : Z) (segs : list Segment)
    (opc : list (list batch)) (e : Z) (pc : list (list batch)) (m : Z)
    (pa lost : list batch) (tail : bytes) : Prop := mkOpening {
  og_segs : Forall2 (seg_ok F dir maxB) segs opc;
  og_nonempty : Forall (fun bs => bs ≠ []) opc;
  og_chain : chain e0 segs e;
  og_rest : disk_chain F dir maxB e pc m;
  og_active : disk_seg F dir maxB m pa lost tail;
  og_files : files_ok F dir ((seg_baseOffset <$> segs) ++ disk_bases e pc) m;
  og_torn : tail = [] ∨ torn maxB tail;
}.

Lemma disk_chain_app F dir maxB e pc1 pc2 k m :
  disk_chain F dir maxB e pc1 k → disk_chain F dir maxB k pc2 m →
  disk_chain F dir maxB e (pc1 ++ pc2) m.
Proof.
  revert e. induction pc1 as [|bs pc1 IH]; intros e; simpl; [by intros ->|].
  intros (? & ? & ?) ?. auto.
Qed.

Lemma disk_bases_app F dir maxB e pc1 pc2 k :
  disk_chain F dir maxB e pc1 k →
  disk_bases e (pc1 ++ pc2) = take (length pc1) (disk_bases e pc1) ++ disk_bases k pc2.
Proof.
  revert e. induction pc1 as [|bs pc1 IH]; intros e; simpl; [by intros ->|].
  intros (? & ? & ?). f_equal. auto.
Qed.

(** Whatever has been opened so far, the files hold the whole log. *)
Lemma opening_disk F dir maxB e0 segs opc e pc m pa lost tail :
  opening F dir maxB e0 segs opc e pc m pa lost tail →
  disk_ok F dir maxB e0 (opc ++ pc) pa lost tail.
Proof.
  intros [Hs Hne Hch Hr Ha Hf Ht].
  destruct (segs_disk_chain _ _ _ _ _ _ _ Hs Hne Hch) as [Hdc Hb].
  split; [|done]. exists m. split; [by eapply disk_chain_app|]. split; [done|].
  rewrite (disk_bases_app _ _ _ _ _ _ _ Hdc), Hb.
  replace (length opc) with (length (seg_baseOffset <$> segs)); [by rewrite take_app_length|].
  rewrite length_fmap. by apply Forall2_length in Hs.
Qed.

Lemma opening_below F dir maxB e0 segs opc e pc m pa lost tail :
  opening F dir maxB e0 segs opc e pc m pa lost tail →
  Forall (fun s => seg_baseOffset s ≠ e) segs ∧ 0 <= e < two64 ∧ e <= m
  ∧ is_Some (F !! (dir ++ [log_name e])).
Proof.
  intros [Hs Hne Hch Hr Ha Hf Ht].
  destruct (chain_bases_lt _ _ _ _ _ _ _ Hs Hne Hch) as [_ Hlt].
  split; [eapply Forall_impl; [exact Hlt|]; simpl; lia|].
  pose proof (disk_chain_le _ _ _ _ _ _ Hr) as Hle.
  assert (∃ bs ls t, disk_seg F dir maxB e bs ls t) as (bs & ls & t & Hd).
  { destruct pc as [|bs pc]; simpl in Hr; [subst; eauto|]. destruct Hr as [Hr _]. eauto. }
  split; [by eapply disk_seg_range|]. split; [done|].
  apply data_at_is_Some. rewrite (ds_file _ _ _ _ _ _ _ Hd). eauto.
Qed.

Lemma opening_change_active F F' dir maxB e0 segs opc e m pa lost tail tail' :
  opening F dir maxB e0 segs opc e [] m pa lost tail → base_only F F' dir e →
  disk_seg F' dir maxB e pa lost tail' → tail' = [] ∨ tail' = tail →
  opening F' dir maxB e0 segs opc e [] m pa lost tail'.
Proof.
  intros Ho Hbo Hd Ht. destruct (opening_below _ _ _ _ _ _ _ _ _ _ _ _ Ho) as (Hb & Hr & Hm & Hex).
  destruct Ho as [Hs Hne Hch Hrest Ha Hf Htorn]. simpl in Hrest. subst m.
  split; try done; [by eapply segs_frame|by eapply files_ok_frame|].
  destruct Ht as [-> | ->]; auto.
Qed.

Lemma opening_change_closed F F' dir maxB e0 segs opc e bs pc m pa lost tail :
  opening F dir maxB e0 segs opc e (bs :: pc) m pa lost tail → base_only F F' dir e →
  disk_seg F' dir maxB e bs [] [] →
  opening F' dir maxB e0 segs opc e (bs :: pc) m pa lost tail.
Proof.
  intros Ho Hbo Hd. destruct (opening_below _ _ _ _ _ _ _ _ _ _ _ _ Ho) as (Hb & Hr & Hm & Hex).
  destruct Ho as [Hs Hne Hch (Hd0 & Hbs & Hrest) Ha Hf Htorn].
  pose proof (concat_nonempty bs (ds_encodable _ _ _ _ _ _ _ Hd0) Hbs) as Hpos.
  pose proof (disk_chain_le _ _ _ _ _ _ Hrest) as Hle.
  split; try done; [by eapply segs_frame| | |by eapply files_ok_frame].
  - split; [done|]. split; [done|]. eapply disk_chain_frame; [done|done|lia|lia].
  - eapply disk_seg_frame; [done|done|done|lia].
Qed.

Lemma opening_push F F' dir maxB e0 segs opc e bs pc m pa lost tail seg :
  opening F dir maxB e0 segs opc e (bs :: pc) m pa lost tail → base_only F F' dir e →
  seg_ok F' dir maxB seg bs → seg_baseOffset seg = e →
  opening F' dir maxB e0 (segs ++ [seg]) (opc ++ [bs]) (e + blen (concat bs)) pc m pa lost tail.
Proof.
  intros Ho Hbo Hseg Hb.
  assert (disk_seg F' dir maxB e bs [] []) as Hd by (rewrite <- Hb; by apply seg_ok_disk).
  destruct (opening_change_closed _ _ _ _ _ _ _ _ _ _ _ _ _ _ Ho Hbo Hd)
    as [Hs Hne Hch (_ & Hbs & Hrest) Ha Hf Htorn].
  split; try done.
  - by apply Forall2_app; [|constructor].
  - apply Forall_app. split; [done|]. by repeat constructor.
  - apply chain_app. exists e. split; [done|]. split; [done|]. simpl.
    rewrite (so_next _ _ _ _ _ Hseg). by rewrite Hb.
  - rewrite fmap_app, <- app_assoc. simpl. by rewrite Hb.
Qed.

(** ** Running the loop *)

Lemma runs_on_active {A} (m : M (Segment * World) A) (s : Store) (w : World) closed a
    (Q : A → Store * World → Prop) (E : Store * World → Prop) :
  st_segments s = closed ++ [a] →
  runs m (a, w) (fun x '(a', w') => Q x (st_with_segments (closed ++ [a']) s, w'))
    (fun '(a', w') => E (st_with_segments (closed ++ [a']) s, w')) →
  runs (on_active m) (s, w) Q E.
Proof.
  intros Hs Hm r [s' w'] H. apply (on_active_inv _ _ _ _ _ _ _ _ Hs) in H as (a' & H & ->).
  by apply Hm in H.
Qed.

Lemma close_segments_files segs w :
  let '(_, _, w') := close_segments segs w in quiet w w' ∧ w_files w' = w_files w.
Proof.
  revert w. induction segs as [|seg segs IH]; intros w; simpl; [by split; [apply quiet_refl|]|].
  destruct (Segment_Close (seg, w)) as [r [seg' w1]] eqn:E.
  apply Segment_Close_spec in E as [(HQ & HF & _) _].
  specialize (IH w1). destruct (close_segments segs w1) as [[segs' err] w2].
  destruct IH. split; [eauto with fs|congruence].
Qed.

(** A step whose failure closes all open segments. *)
Lemma runs_close_all {A} (m : M (Store * World) A) (s : Store) (w : World)
    (Q : A → Store * World → Prop) (P : gmap path file → Prop) :
  runs m (s, w) Q (fun '(_, w') => P (w_files w')) →
  runs (on_err m closeAllOpenSegments) (s, w) Q (fun '(_, w') => P (w_files w')).
Proof.
  intros Hm. eapply runs_on_err; [exact Hm|]. intros [s1 w1] H1. unfold closeAllOpenSegments.
  pose proof (close_segments_files (st_segments s1) w1) as Hc.
  destruct (close_segments (st_segments s1) w1) as [[segs err] w2]. destruct Hc as [HQ HF].
  simpl. split; [exact HQ|]. by rewrite HF.
Qed.

(** The body of the loop for one base offset. *)
Lemma open_one_runs (s : Store) (w : World) (e : Z) (active : bool) (bs lost : list batch)
    (tail : bytes) (k : Z → M (Store * World) Z)
    (Q : Z → Store * World → Prop) (P : gmap path file → Prop) :
  let dir := st_dir s in
  let maxB := st_maxBatchBytes s in
  disk_seg (w_files w) dir maxB e bs lost tail → scan_tail maxB active tail →
  (∀ F' tail', tail' = [] ∨ tail' = tail → disk_seg F' dir maxB e bs lost tail' →
     base_only (w_files w) F' dir e → P F') →
  (∀ seg w', seg_ok (w_files w') dir maxB seg bs → seg_baseOffset seg = e →
     base_only (w_files w) (w_files w') dir e →
     runs (k (e + blen (concat bs))) (st_with_segments (st_segments s ++ [seg]) s, w') Q
       (fun '(_, w') => P (w_files w'))) →
  runs
    (let* s := get_obj in
     let* seg := on_err (io (NewSegment (st_dir s) e active)) closeAllOpenSegments in
     do* modify (fun s => st_with_segments (st_segments s ++ [seg]) s) in
     let* nextOffset := on_err (on_active (recoverSegment s active)) closeAllOpenSegments in
     do* on_active (modify (seg_with_nextOffset nextOffset)) in
     k nextOffset) (s, w) Q (fun '(_, w') => P (w_files w')).
Proof.
  intros dir maxB Hd Ht HP Hk. apply runs_bind, runs_get_obj. fold dir.
  pose proof (ds_file _ _ _ _ _ _ _ Hd) as Hf.
  apply runs_bind, runs_close_all, runs_io. eapply runs_weaken; [by eapply (NewSegment_runs dir e)|..].
  2:{ intros w1 He. apply (HP _ tail); [by right|exact (ensured_disk_seg _ _ _ _ _ _ _ _ He Hd)|by apply ensured_base]. }
  intros seg w1 [Hop He]. apply runs_bind, runs_modify, runs_bind, runs_close_all.
  eapply runs_on_active; [done|].
  apply (ensured_disk_seg _ _ _ _ _ _ _ _ He) in Hd. apply ensured_base in He.
  eapply runs_weaken; [by apply (recoverSegment_runs s active seg w1 e bs lost tail)|..].
  2:{ intros [seg2 w2] (tail' & Ht' & Hd' & Hbo). apply (HP _ tail'); [done..|].
      by eapply base_only_trans. }
  intros o [seg2 w2] (-> & Hb & Hok & Hbo). apply runs_bind. eapply runs_on_active; [done|].
  apply runs_modify. apply (Hk _ w2); [done|done|]. by eapply base_only_trans.
Qed.

(** The store that opening all segments makes. *)
Definition opened_store (F F' : gmap path file) (s s' : Store) (e0 : Z) (pc : list (list batch))
    (pa : list batch) (l : Z) : Prop :=
  ∃ closed a, s' = st_with_segments (closed ++ [a]) s
    ∧ Forall2 (seg_ok F' (st_dir s) (st_maxBatchBytes s)) closed pc
    ∧ Forall (fun bs => bs ≠ []) pc
    ∧ seg_ok F' (st_dir s) (st_maxBatchBytes s) a pa
    ∧ chain e0 (closed ++ [a]) l
    ∧ files_ok F' (st_dir s) (seg_baseOffset <$> closed ++ [a]) (seg_baseOffset a)
    ∧ logs_kept F F' (st_dir s).

Definition opened_or_disk (F : gmap path file) (s : Store) (e0 : Z) (pc : list (list batch))
    (pa lost : list batch) (m : M (Store * World) Z) (w : World) : Prop :=
  runs m (s, w)
    (fun l '(s', w') => opened_store F (w_files w') s s' e0 pc pa l)
    (fun '(_, w') => ∃ tail', disk_ok (w_files w') (st_dir s) (st_maxBatchBytes s) e0 pc pa
                       lost tail' ∧ logs_kept F (w_files w') (st_dir s)).

Lemma seg_ok_disk_lost F F0 dir maxB e seg bs lost tail :
  seg_ok F dir maxB seg bs → seg_baseOffset seg = e → disk_seg F0 dir maxB e bs lost tail →
  disk_seg F dir maxB e bs lost [].
Proof.
  intros Hok <- Hd. eapply disk_seg_change; [exact Hd|by left|..].
  - rewrite <- (so_path _ _ _ _ _ Hok), app_nil_r. by destruct Hok.
  - intros d. rewrite <- (so_indexPath _ _ _ _ _ Hok).
    destruct (so_indexFile _ _ _ _ _ Hok) as (d0 & -> & Hx). intros [= <-].
    destruct Hx as (es & junk & ? & ? & ? & Hes). exists es, junk. split_and!; try done.
    eapply Forall_impl; [exact Hes|]. intros x. apply entry_ok_app.
Qed.

(** The last, active segment. *)
Lemma open_last_runs e0 segs opc e m pa lost tail s w :
  opening (w_files w) (st_dir s) (st_maxBatchBytes s) e0 segs opc e [] m pa lost tail →
  st_segments s = segs →
  opened_or_disk (w_files w) s e0 opc pa lost (open_segments [e] e) w.
Proof.
  intros Ho Hs. destruct (opening_below _ _ _ _ _ _ _ _ _ _ _ _ Ho) as (_ & Hr & _ & _).
  pose proof (og_rest _ _ _ _ _ _ _ _ _ _ _ _ Ho) as Hm. simpl in Hm. subst m.
  pose proof (og_active _ _ _ _ _ _ _ _ _ _ _ _ Ho) as Ha.
  unfold opened_or_disk. cbn [open_segments]. rewrite Z.eqb_refl. cbn [negb].
  apply (open_one_runs s w e true pa lost tail _ _ (fun F' => ∃ tail',
    disk_ok F' (st_dir s) (st_maxBatchBytes s) e0 opc pa lost tail'
    ∧ logs_kept (w_files w) F' (st_dir s))); [done| |..].
  - destruct (og_torn _ _ _ _ _ _ _ _ _ _ _ _ Ho); [by left|by right].
  - intros F' tail' Ht' Hd Hbo. exists tail'. split; [|by eapply base_only_kept].
    rewrite <- (app_nil_r opc). eapply opening_disk. by eapply opening_change_active.
  - intros seg w' Hok Hb Hbo. apply runs_ret. rewrite Hs.
    pose proof (seg_ok_disk_lost _ _ _ _ _ _ _ _ _ Hok Hb Ha) as Hd.
    destruct (opening_change_active _ _ _ _ _ _ _ _ _ _ _ _ _ Ho Hbo Hd (or_introl eq_refl))
      as [Hsegs Hne Hch _ _ Hfiles _].
    exists segs, seg. split; [done|]. split; [done|]. split; [done|]. split; [done|].
    split; [|split; [|by eapply base_only_kept]].
    + apply chain_app. exists e. split; [done|]. simpl. split; [done|].
      rewrite (so_next _ _ _ _ _ Hok). by rewrite Hb.
    + rewrite fmap_app. simpl. by rewrite Hb.
Qed.

Lemma open_segments_runs pc e0 segs opc e m pa lost tail s w :
  opening (w_files w) (st_dir s) (st_maxBatchBytes s) e0 segs opc e pc m pa lost tail →
  st_segments s = segs →
  opened_or_disk (w_files w) s e0 (opc ++ pc) pa lost (open_segments (disk_bases e pc) e) w.
Proof.
  revert segs opc e s w. induction pc as [|bs pc IH]; intros segs opc e s w Ho Hs.
  { rewrite app_nil_r. by eapply open_last_runs. }
  destruct (opening_below _ _ _ _ _ _ _ _ _ _ _ _ Ho) as (_ & Hr & _ & _).
  pose proof (og_rest _ _ _ _ _ _ _ _ _ _ _ _ Ho) as (Hd & Hbs & _).
  unfold opened_or_disk. cbn [disk_bases open_segments]. rewrite Z.eqb_refl. cbn [negb].
  destruct (disk_bases (e + blen (concat bs)) pc) as [|b0 bases] eqn:Eb; [by destruct pc|].
  rewrite <- Eb.
  apply (open_one_runs s w e false bs [] [] _ _ (fun F' => ∃ tail',
    disk_ok F' (st_dir s) (st_maxBatchBytes s) e0 (opc ++ bs :: pc) pa lost tail'
    ∧ logs_kept (w_files w) F' (st_dir s))); [done|by left|..].
  - intros F' tail' Ht' Hd' Hbo. exists tail. split; [|by eapply base_only_kept].
    assert (tail' = []) as -> by (by destruct Ht').
    eapply opening_disk. by eapply opening_change_closed.
  - intros seg w' Hok Hb Hbo.
    pose proof (opening_push _ _ _ _ _ _ _ _ _ _ _ _ _ _ _ Ho Hbo Hok Hb) as Ho'.
    pose proof (base_only_kept _ _ _ _ Hbo Hr) as Hk. rewrite Hs.
    eapply runs_weaken; [apply (IH (segs ++ [seg]) (opc ++ [bs])); done|..]; rewrite <- app_assoc.
    + intros l [s' w2] (closed & a & -> & H). exists closed, a. split; [by destruct s|].
      destruct H as (H1 & H2 & H3 & H4 & H5 & H6). split_and!; try done.
      by eapply logs_kept_trans.
    + intros [s' w2] (tail' & Hdk & Hk2). exists tail'. split; [done|].
      by eapply logs_kept_trans.
Qed.

(** ** The directory listing *)

Lemma name_in_Some d p name : name_in d p = Some name ↔ p = d ++ [name].
Proof.
  unfold name_in. split.
  - destruct (list.last p) as [n|]; [|done]. case_bool_decide; [|done]. by intros [= <-].
  - intros ->. rewrite last_snoc. by rewrite bool_decide_eq_true_2.
Qed.

Lemma NoDup_omap_inj {A B} (f : A → option B) (l : list A) :
  (∀ x y b, f x = Some b → f y = Some b → x = y) → NoDup l → NoDup (omap f l).
Proof.
  intros Hinj Hnd. induction Hnd as [|x l Hx Hnd IH]; [constructor|]. simpl.
  destruct (f x) as [b|] eqn:E; [|done]. constructor; [|done].
  intros Hin. apply list_elem_of_omap in Hin as (y & Hy & Heq). by rewrite (Hinj _ _ _ E Heq) in Hx.
Qed.

(** The names that ReadDir returns. *)
Definition dir_names (F : gmap path file) (d : path) : list string :=
  omap (fun '(p, _) => name_in d p) (map_to_list F).

Lemma elem_of_dir_names F d name : name ∈ dir_names F d ↔ is_Some (F !! (d ++ [name])).
Proof.
  unfold dir_names. rewrite list_elem_of_omap. split.
  - intros ([p f] & Hin & Hn). apply elem_of_map_to_list in Hin. apply name_in_Some in Hn as ->. eauto.
  - intros [f Hf]. exists (d ++ [name], f). split; [by apply elem_of_map_to_list|]. by apply name_in_Some.
Qed.

Lemma NoDup_dir_names F d : NoDup (dir_names F d).
Proof.
  unfold dir_names. pose proof (NoDup_fst_map_to_list F) as Hnd.
  induction (map_to_list F) as [|[p f] l IH]; [constructor|].
  inversion Hnd as [|? ? Hp Hl]; subst. cbn [omap list_omap].
  destruct (name_in d p) as [n|] eqn:E; [|by apply IH]. constructor; [|by apply IH].
  rewrite list_elem_of_omap. intros ([q g] & Hin & Hq). apply name_in_Some in E, Hq.
  apply Hp. rewrite E, <- Hq. by apply (list_elem_of_fmap_2 fst _ (q, g)).
Qed.

(** The base offsets of the log files of a partition, in ascending order. *)
Lemma disk_bases_sorted F dir maxB e pc m :
  disk_chain F dir maxB e pc m →
  StronglySorted Z.lt (disk_bases e pc) ∧ Forall (fun b => e <= b) (disk_bases e pc).
Proof.
  revert e. induction pc as [|bs pc IH]; intros e; simpl.
  { intros _. split; repeat constructor; lia. }
  intros (Hd & Hne & Hc). destruct (IH _ Hc) as [Hs Hall].
  pose proof (concat_nonempty bs (ds_encodable _ _ _ _ _ _ _ Hd) Hne).
  split; constructor; try done; try lia; (eapply Forall_impl; [exact Hall|]); simpl; lia.
Qed.

Lemma disk_bases_exist F dir maxB e pc m pa lost tail b :
  disk_chain F dir maxB e pc m → disk_seg F dir maxB m pa lost tail →
  b ∈ disk_bases e pc → 0 <= b < two64 ∧ is_Some (F !! (dir ++ [log_name b])).
Proof.
  intros Hc Ha. assert (∀ c bs ls t, disk_seg F dir maxB c bs ls t →
    0 <= c < two64 ∧ is_Some (F !! (dir ++ [log_name c]))) as Hex.
  { intros c bs ls t Hd. split; [by eapply disk_seg_range|]. apply data_at_is_Some.
    rewrite (ds_file _ _ _ _ _ _ _ Hd). eauto. }
  revert e Hc. induction pc as [|bs pc IH]; intros e; simpl.
  - intros ->. rewrite list_elem_of_singleton. intros ->. eauto.
  - intros (Hd & _ & Hc). rewrite elem_of_cons. intros [-> |Hin]; eauto.
Qed.

Lemma listed_bases F dir maxB e pc m pa lost tail :
  disk_chain F dir maxB e pc m → disk_seg F dir maxB m pa lost tail →
  files_ok F dir (disk_bases e pc) m →
  merge_sort Z.le (omap base_of_name (dir_names F dir)) = disk_bases e pc.
Proof.
  intros Hc Ha [Hf _]. destruct (disk_bases_sorted _ _ _ _ _ _ Hc) as [Hs _].
  apply (Sorted_unique Z.le).
  - apply Sorted_merge_sort. intros x y. lia.
  - apply StronglySorted_Sorted. clear -Hs. induction Hs as [|x l Hs IH Hall]; constructor; [done|].
    eapply Forall_impl; [exact Hall|]. simpl. lia.
  - rewrite merge_sort_Permutation. apply NoDup_Permutation.
    + apply NoDup_omap_inj; [|apply NoDup_dir_names]. intros x y b Hx Hy.
      apply base_of_name_inv in Hx as [-> _], Hy as [-> _]. done.
    + clear -Hs. induction Hs as [|x l Hs IH Hall]; constructor; [|done].
      intros Hin. rewrite Forall_forall in Hall. specialize (Hall _ Hin). lia.
    + intros b. rewrite list_elem_of_omap. split.
      * intros (name & Hn & Hb). apply elem_of_dir_names in Hn. by eapply Hf.
      * intros Hb. destruct (disk_bases_exist _ _ _ _ _ _ _ _ _ _ Hc Ha Hb) as [Hr Hex].
        exists (log_name b). split; [by apply elem_of_dir_names|by apply base_of_log_name].
Qed.

(** ** Abandoned temporary files *)

(** Log and index files stay, and no file appears. *)
Record swept (F F' : gmap path file) (dir : path) : Prop := mkSwept {
  sw_log : ∀ b, F' !! (dir ++ [log_name b]) = F !! (dir ++ [log_name b]);
  sw_index : ∀ b, F' !! (dir ++ [index_name b]) = F !! (dir ++ [index_name b]);
  sw_dom : ∀ p, is_Some (F' !! p) → is_Some (F !! p);
}.

Lemma swept_refl F dir : swept F F dir.
Proof. by split. Qed.
Lemma swept_trans F F1 F2 dir : swept F F1 dir → swept F1 F2 dir → swept F F2 dir.
Proof. intros [A1 B1 C1] [A2 B2 C2]. split; intros; rewrite ?A2, ?B2; auto. Qed.

Lemma remove_swept F dir name w r w' :
  is_Some (cut_suffix ".index.tmp" name) → w_files w = F →
  fs_remove (dir ++ [name]) w = (r, w') → quiet w w' ∧ swept F (w_files w') dir.
Proof.
  intros Hs <- H. unfold fs_remove in H. pop_outcome H o w1 HF HQ HS. rewrite HF in H.
  assert (∀ b, dir ++ [name] ≠ dir ++ [log_name b] ∧ dir ++ [name] ≠ dir ++ [index_name b]) as Hne.
  { intros b. destruct (tmp_suffix_ne name b Hs) as [H1 H2].
    split; intros Heq%(f_equal list.last); rewrite !last_snoc in Heq; congruence. }
  destruct o as [|k]; [destruct (w_files w !! (dir ++ [name]))|]; injection H as <- <-; simpl;
    rewrite ?HF; (split; [auto with fs|]); try apply swept_refl.
  split; intros; try (rewrite lookup_delete_ne; [done|apply Hne]).
  match goal with Hx : is_Some _ |- _ => apply lookup_delete_is_Some in Hx as [_ ?] end. done.
Qed.

Lemma remove_tmp_runs dir names w (Q : unit → World → Prop) (E : World → Prop) :
  (∀ w', swept (w_files w) (w_files w') dir → Q tt w') →
  runs (remove_tmp_files dir names) w Q E.
Proof.
  revert w. induction names as [|name names IH]; intros w HQ; simpl.
  { apply runs_ret, HQ, swept_refl. }
  apply runs_bind. destruct (cut_suffix ".index.tmp" name) as [p|] eqn:Es.
  - intros r w1 H. unfold ignore in H. destruct (fs_remove (dir ++ [name]) w) as [r1 w2] eqn:E1.
    injection H as <- <-.
    apply (remove_swept (w_files w)) in E1 as [HQ1 Hsw]; [|by rewrite Es|done].
    split; [exact HQ1|]. left. exists tt. split; [done|]. apply IH.
    intros w' Hsw'. apply HQ. by eapply swept_trans.
  - apply runs_ret, IH, HQ.
Qed.

Lemma swept_disk_seg F F' dir maxB b bs lost tail :
  swept F F' dir → disk_seg F dir maxB b bs lost tail → disk_seg F' dir maxB b bs lost tail.
Proof.
  intros [Hl Hi _] Hd. eapply disk_seg_change; [exact Hd|by right|..]; unfold data_at.
  - rewrite Hl. by destruct Hd.
  - rewrite Hi. by destruct Hd.
Qed.

Lemma swept_disk_ok F F' dir maxB e pc pa lost tail :
  swept F F' dir → disk_ok F dir maxB e pc pa lost tail → disk_ok F' dir maxB e pc pa lost tail.
Proof.
  intros Hsw [(m & Hc & Ha & Hf) Ht]. split; [|done]. exists m.
  split; [|split; [by eapply swept_disk_seg|eapply files_ok_mono; [exact Hf|apply Hsw]]].
  clear Hf. revert e Hc. induction pc as [|bs pc IH]; intros e; simpl; [done|].
  intros (Hd & Hne & Hc). split; [by eapply swept_disk_seg|]. auto.
Qed.

Lemma swept_kept F F' dir : swept F F' dir → logs_kept F F' dir.
Proof. intros [Hl _ _] b _. by apply cut_back_same. Qed.

(** ** OpenStore *)

Lemma chain_length F dir maxB segs bss e l :
  Forall2 (seg_ok F dir maxB) segs bss → chain e segs l → l = e + blen (concat (concat bss)).
Proof.
  intros Hs. revert e. induction Hs as [|s bs segs bss Hok Hs IH]; intros e; simpl.
  { intros ->. rewrite blen_nil. lia. }
  intros [<- Hch%IH]. rewrite concat_app, blen_app, Hch, (so_next _ _ _ _ _ Hok). lia.
Qed.

(** A directory without log and index files. *)
Definition fresh_dir (F : gmap path file) (dir : path) : Prop :=
  ∀ b, 0 <= b < two64 →
    F !! (dir ++ [log_name b]) = None ∧ F !! (dir ++ [index_name b]) = None.

(** The files of the directory hold the records [recs] from offset [e] on, those
    below [d] durably. *)
Definition holds (F : gmap path file) (dir : path) (maxB e : Z) (recs : list StoredRecord)
    (d : Z) : Prop :=
  (∃ pc pa lost tail, disk_ok F dir maxB e pc pa lost tail ∧ store_records pc pa = recs
     ∧ chain_durable F dir e pc pa d)
  ∨ (fresh_dir F dir ∧ e = 0 ∧ recs = [] ∧ d <= 0).

(** Recovery keeps the durable part of the log durable. *)
Lemma chain_durable_kept F F' dir maxB e pc pa lost tail d :
  chain_durable F dir e pc pa d → logs_kept F F' dir → disk_ok F' dir maxB e pc pa lost tail →
  chain_durable F' dir e pc pa d.
Proof.
  intros Hd Hk [(m & Hc & Ha & _) _]. revert e Hd Hc. induction pc as [|bs pc IH]; intros e; simpl.
  - intros (j & Hj & Hle) ->. exists j. split; [|done].
    eapply durable_kept; [exact Hj|by apply Hk; eapply disk_seg_range|by destruct Ha|].
    rewrite <- (take_drop j pa) at 2. rewrite seg_content_app, length_app. lia.
  - intros [Hb Hd] (Hs & _ & Hc). split; [|auto].
    eapply durable_kept; [exact Hb|by apply Hk; eapply disk_seg_range|by destruct Hs|done].
Qed.

Definition init_store (dir : path) (segMax maxB interval : Z) (mode : string) : Store :=
  mkStore dir segMax maxB interval (ToLower mode) false false [] 0 0.

(** A store that holds exactly [recs], durably below [d], with the given
    configuration. *)
Definition recovered_store (F : gmap path file) (s : Store) (dir : path) (segMax maxB interval : Z)
    (mode : string) (e : Z) (recs : list StoredRecord) (d : Z) : Prop :=
  (∃ pc pa, store_ok F s pc pa ∧ store_records pc pa = recs ∧ chain_durable F dir e pc pa d)
  ∧ st_earliestOffset s = e ∧ st_logEndOffset s = e + blen recs
  ∧ st_dir s = dir ∧ st_segmentMaxBytes s = segMax ∧ st_maxBatchBytes s = maxB
  ∧ st_indexIntervalBytes s = interval ∧ st_flushMode s = ToLower mode.

Lemma runs_updateGauges (s : Store) (w : World) (Q : unit → Store * World → Prop)
    (E : Store * World → Prop) :
  (∀ w', w_files w' = w_files w → Q tt (s, w')) → runs updateGaugesLocked (s, w) Q E.
Proof.
  intros HQ. unfold updateGaugesLocked. apply runs_bind, runs_get_obj, runs_emit, HQ. done.
Qed.

Lemma load_segments_runs dir segMax maxB interval mode e pc pa lost tail d w :
  disk_ok (w_files w) dir maxB e pc pa lost tail →
  chain_durable (w_files w) dir e pc pa d → maxB < two31 → segMax < two63 →
  runs (load_segments (disk_bases e pc)) (init_store dir segMax maxB interval mode, w)
    (fun _ '(s, w') => recovered_store (w_files w') s dir segMax maxB interval mode e
                         (store_records pc pa) d)
    (fun '(_, w') => holds (w_files w') dir maxB e (store_records pc pa) d).
Proof.
  intros [(m & Hc & Ha & Hf) Ht] Hdur Hmb Hsm. unfold load_segments.
  destruct (disk_bases e pc) as [|b0 bases] eqn:Eb; [by destruct pc|].
  assert (b0 = e) as -> by (destruct pc; simpl in Eb; congruence). rewrite <- Eb in *.
  apply runs_bind, runs_modify, runs_bind.
  set (s0 := st_with_earliestOffset e _).
  assert (opening (w_files w) dir maxB e [] [] e pc m pa lost tail) as Ho by (split; try done; constructor).
  eapply runs_weaken; [by apply (open_segments_runs pc e [] [] e m pa lost tail s0 w)|..]; simpl.
  2:{ intros [s' w'] (tail' & Hd & Hk). left. exists pc, pa, lost, tail'. split; [done|].
      split; [done|]. by eapply chain_durable_kept. }
  intros l [s' w'] (closed & a & -> & Hcl & Hne & Hok & Hch & Hfiles & Hk).
  apply runs_bind, runs_modify, runs_bind, runs_get_obj. simpl.
  destruct (closed ++ [a]) as [|x xs] eqn:Ex; [by destruct closed|]. rewrite <- Ex in *.
  apply runs_bind, runs_ret, runs_updateGauges. intros w2 HF2. simpl. rewrite HF2.
  unfold recovered_store. simpl. split.
  - exists pc, pa. assert (store_ok (w_files w') (st_with_logEndOffset l
      (st_with_segments (closed ++ [a]) s0)) pc pa) as Hok'.
    { split; simpl; try done. exists closed, a. done. }
    split; [done|]. split; [done|]. eapply chain_durable_kept; [done|done|].
    by apply (store_ok_disk _ _ _ _ Hok').
  - split; [done|]. split; [|done]. assert (Forall2 (seg_ok (w_files w') dir maxB)
      (closed ++ [a]) (pc ++ [pa])) as Hall by (by apply Forall2_app; [|constructor]).
    rewrite (chain_length _ _ _ _ _ _ _ Hall Hch). unfold store_records.
    by rewrite concat_app; simpl; rewrite app_nil_r.
Qed.

(** The first segment of a fresh directory is its only log file. *)
Lemma new_files_only F F' dir :
  fresh_dir F dir → new_files F F' dir 0 → files_ok F' dir [0] 0.
Proof.
  intros Hfr (_ & _ & HF).
  assert (∀ p, F !! p = None → p ≠ dir ++ [log_name 0] → p ≠ dir ++ [index_name 0] → F' !! p = None)
    as Hnone.
  { intros p Hp H1 H2. specialize (HF p H1 H2). unfold data_at in HF. rewrite Hp in HF.
    by destruct (F' !! p). }
  split.
  - intros name b Hs Hb. apply base_of_name_inv in Hb as [-> Hb].
    destruct (decide (b = 0)) as [->|Hne]; [by constructor|].
    rewrite Hnone in Hs; [by destruct Hs|by apply Hfr| |apply log_index_path_ne].
    intros Heq. apply Hne, (log_path_inj dir); [done|lia|done].
  - intros b Hb. apply Hnone; [apply Hfr; lia|..].
    + intros Heq. symmetry in Heq. by apply log_index_path_ne in Heq.
    + intros Heq. apply index_path_inj in Heq; lia.
Qed.

(** An empty segment on two new files is a well-formed store on its own. *)
Lemma empty_store_ok F F' dir segMax maxB interval mode :
  fresh_dir F dir → new_files F F' dir 0 →
  data_at F' (dir ++ [index_name 0]) = Some [] → maxB < two31 → segMax < two63 →
  store_ok F' (st_with_segments [empty_segment dir 0 true]
                 (init_store dir segMax maxB interval mode)) [] [].
Proof.
  intros Hfr Hnf Hi Hmb Hsm. split; simpl; try done; try lia.
  exists [], (empty_segment dir 0 true). split; [done|]. split; [constructor|].
  split; [|split; [done|by eapply new_files_only]]. destruct Hnf as (Hl & _ & _).
  split; simpl; rewrite ?blen_nil; try done; try lia; try apply contiguous_nil; try apply rel_ok_nil.
  exists []. split; [exact Hi|]. by exists [], [].
Qed.

Lemma new_files_durable F F' dir d :
  new_files F F' dir 0 → d <= 0 → chain_durable F' dir 0 [] [] d.
Proof.
  intros (Hl & _ & _) Hd. apply data_at_Some in Hl as [k Hl]. exists 0%nat. simpl.
  split; [eexists; split; [exact Hl|]; simpl; lia|]. rewrite blen_nil. lia.
Qed.

Lemma new_files_holds F F' dir maxB d :
  fresh_dir F dir → new_files F F' dir 0 → maxB < two31 → d <= 0 → holds F' dir maxB 0 [] d.
Proof.
  intros Hfr Hnf Hmb Hd. left. exists [], [], [], [].
  split; [|split; [done|by eapply new_files_durable]]. split; [|by left].
  exists 0. split; [done|]. split; [|by eapply new_files_only]. destruct Hnf as (Hl & Hi & _).
  split; simpl; rewrite ?blen_nil; try done; try lia; try apply contiguous_nil; try apply rel_ok_nil.
  intros x Hx. destruct Hi as [Hi|Hi]; [congruence|]. rewrite Hx in Hi. injection Hi as ->.
  by exists [], [].
Qed.

Lemma load_fresh_runs dir segMax maxB interval mode d w :
  fresh_dir (w_files w) dir → d <= 0 → maxB < two31 → segMax < two63 →
  runs (load_segments []) (init_store dir segMax maxB interval mode, w)
    (fun _ '(s, w') => recovered_store (w_files w') s dir segMax maxB interval mode 0 [] d)
    (fun '(_, w') => holds (w_files w') dir maxB 0 [] d).
Proof.
  intros Hfr Hd0 Hmb Hsm. destruct (Hfr 0 ltac:(lia)) as [Hl Hi].
  destruct (new_files_insert _ _ _ Hl Hi) as (Hn1 & Hn2 & Hx & _).
  unfold load_segments. apply runs_bind, runs_modify, runs_bind. cbn [open_segments].
  apply runs_ret, runs_bind, runs_modify, runs_bind, runs_get_obj. simpl.
  apply runs_bind, runs_bind, runs_io. intros r w1 H.
  apply (NewSegment_new _ _ _ _ _ _ Hl Hi) in H as (HQ & Hres). split; [exact HQ|].
  destruct Hres as [(-> & HF)|(-> & Hn & HF)].
  - left. eexists. split; [done|]. apply runs_modify, runs_updateGauges. intros w2 HF2. simpl.
    rewrite HF2, HF. split; [|done]. exists [], [].
    split; [by eapply (empty_store_ok (w_files w))|]. split; [done|by eapply new_files_durable].
  - right. split; [done|]. split; [done|].
    destruct HF as [-> |[-> | ->]]; [by right|by eapply new_files_holds..].
Qed.

Lemma fresh_no_bases F dir : fresh_dir F dir → omap base_of_name (dir_names F dir) = [].
Proof.
  intros Hfr. destruct (omap _ _) as [|b l] eqn:E; [done|].
  assert (b ∈ omap base_of_name (dir_names F dir)) as Hin by (rewrite E; by constructor).
  apply list_elem_of_omap in Hin as (name & Hn & Hb). apply elem_of_dir_names in Hn as [f Hf].
  apply base_of_name_inv in Hb as [-> Hb]. destruct (Hfr b Hb). congruence.
Qed.

Lemma swept_holds F F' dir maxB e recs d :
  swept F F' dir → holds F dir maxB e recs d → holds F' dir maxB e recs d.
Proof.
  intros Hsw [(pc & pa & lost & tail & Hd & Hr & Hdur)|(Hfr & He & Hr)].
  - left. exists pc, pa, lost, tail. split; [by eapply swept_disk_ok|]. split; [done|].
    eapply chain_durable_kept; [done|by apply swept_kept|by eapply swept_disk_ok].
  - right. split; [|done]. intros b Hb. destruct Hsw as [-> -> _]. by apply Hfr.
Qed.

Lemma runs_read_dir d w (Q : list string → World → Prop) (E : World → Prop) :
  (∀ w', w_files w' = w_files w → Q (dir_names (w_files w) d) w') →
  (∀ w', w_files w' = w_files w → E w') →
  runs (fs_read_dir d) w Q E.
Proof.
  intros HQ HE r w' Hr. unfold fs_read_dir in Hr. pop_outcome Hr o w1 HF HQt HS.
  destruct o as [|k]; injection Hr as <- <-; (split; [done|]).
  - left. eexists. split; [done|]. rewrite HF. by apply HQ.
  - right. split; [done|]. split; [by intros ?%HS|auto].
Qed.

(** The loading phase, as it is called with the base offsets listed before the
    temporary files were removed. *)
Lemma load_listed_runs F dir segMax maxB interval mode e recs d w :
  holds F dir maxB e recs d → swept F (w_files w) dir → maxB < two31 → segMax < two63 →
  runs (load_segments (merge_sort Z.le (omap base_of_name (dir_names F dir))))
    (init_store dir segMax maxB interval mode, w)
    (fun _ '(s, w') => recovered_store (w_files w') s dir segMax maxB interval mode e recs d)
    (fun '(_, w') => holds (w_files w') dir maxB e recs d).
Proof.
  intros Hh Hsw Hmb Hsm. destruct Hh as [(pc & pa & lost & tail & Hd & <- & Hdur)|(Hfr & -> & -> & Hd0)].
  - pose proof (swept_disk_ok _ _ _ _ _ _ _ _ _ Hsw Hd) as Hd'.
    pose proof (chain_durable_kept _ _ _ _ _ _ _ _ _ _ Hdur (swept_kept _ _ _ Hsw) Hd') as Hdur'.
    destruct Hd as [(m & Hc & Ha & Hf) _]. rewrite (listed_bases _ _ _ _ _ _ _ _ _ Hc Ha Hf).
    by eapply load_segments_runs.
  - rewrite (fresh_no_bases _ _ Hfr). apply load_fresh_runs; [|done..].
    intros b Hb. destruct Hsw as [-> -> _]. by apply Hfr.
Qed.

(** OpenStore on files that hold [recs] from [e] on. *)
Lemma OpenStore_runs dir segMax maxB interval mode e recs d w :
  holds (w_files w) dir maxB e recs d → maxB < two31 → segMax < two63 →
  runs (OpenStore dir segMax maxB interval mode) w
    (fun s w' => recovered_store (w_files w') s dir segMax maxB interval mode e recs d)
    (fun w' => holds (w_files w') dir maxB e recs d).
Proof.
  intros Hh Hmb Hsm.
  assert (runs (open_store dir segMax maxB interval mode) w
    (fun s w' => recovered_store (w_files w') s dir segMax maxB interval mode e recs d)
    (fun w' => holds (w_files w') dir maxB e recs d)) as Hr.
  { unfold open_store. apply runs_bind, runs_mkdir_all; [|by intros w' ->]. intros w1 HF1.
    apply runs_bind, runs_read_dir; [|intros w' ->; by rewrite HF1]. intros w2 HF2.
    apply runs_bind, remove_tmp_runs. intros w3 Hsw. rewrite HF2 in Hsw. rewrite HF1 in *.
    pose proof (load_listed_runs _ _ segMax _ interval mode _ _ _ _ Hh Hsw Hmb Hsm) as Hl.
    intros r w4 H. unfold init_store in Hl.
    destruct (load_segments _ _) as [r1 [s1 w5]] eqn:E. injection H as <- <-.
    apply Hl in E as (HQ & Hres). split; [exact HQ|].
    destruct Hres as [([] & -> & Ho)|(-> & Hn & Ho)]; [left|right]; simpl; eauto 10. }
  intros r w' H. unfold OpenStore in H. destruct (open_store _ _ _ _ _ w) as [r1 w1] eqn:E.
  injection H as <- <-. apply Hr in E as [HQ Hres]. split; [|exact Hres].
  eapply quiet_trans; [exact HQ|]. apply quiet_event.
Qed.
