(* ===== verification/StoreCrash.v ===== *)
(** * Crashes: what the files of a partition still hold after one

    A crash keeps at least the synced prefix of every file.  The log that
    remains is a prefix of the log before the crash, it contains every record
    that was durable, and the torn batch and the index entries that it leaves
    behind are of the kind that recovery discards. *)

From S2P Require Import Prelude FileSystem Runs Names Model Format Segment Store Recovery.
From S2P Require Import StoreInv StoreAppend StoreRead StoreRetention SegmentRecovery StoreRecovery.
From Stdlib Require Import Init.Byte.

(** ** Files *)

Lemma crash_file F F' p d n :
  crashed F F' → data_at F p = Some d → durable F p n →
  ∃ k, (n <= k)%nat ∧ (k <= length d)%nat ∧ F' !! p = Some (mkFile (take k d) k).
Proof.
  intros Hcr Hd (f & Hf & H1 & H2). specialize (Hcr p). rewrite Hf in Hcr.
  destruct Hcr as (m & Hm & HF'). unfold data_at in Hd. rewrite Hf in Hd. injection Hd as <-.
  exists (min m (length (fdata f))). split; [lia|]. split; [lia|].
  rewrite HF', length_take. do 2 f_equal. destruct (Nat.le_ge_cases m (length (fdata f))).
  - by rewrite Nat.min_l.
  - by rewrite Nat.min_r, firstn_all, take_ge.
Qed.

(** A durable file survives as it is. *)
Lemma crash_durable F F' p d :
  crashed F F' → data_at F p = Some d → durable F p (length d) →
  F' !! p = Some (mkFile d (length d)).
Proof.
  intros Hcr Hd Hdur. destruct (crash_file _ _ _ _ _ Hcr Hd Hdur) as (k & H1 & H2 & HF').
  assert (k = length d) as -> by lia. by rewrite firstn_all in HF'.
Qed.

Lemma crash_data F F' p d :
  crashed F F' → data_at F' p = Some d → ∃ d0 k, data_at F p = Some d0 ∧ d = take k d0.
Proof.
  intros Hcr Hd. specialize (Hcr p). unfold data_at in *. destruct (F !! p) as [f|].
  - destruct Hcr as (n & _ & HF'). rewrite HF' in Hd. injection Hd as <-. by exists (fdata f), n.
  - by rewrite Hcr in Hd.
Qed.

Lemma crash_none F F' p : crashed F F' → F !! p = None → F' !! p = None.
Proof. intros Hcr Hp. specialize (Hcr p). by rewrite Hp in Hcr. Qed.

(** ** Index files *)

Lemma index_disk_ok_take bs d k : index_disk_ok bs d → index_disk_ok bs (take k d).
Proof.
  intros (es & junk & -> & Hj & Hes). revert k. induction Hes as [|e es He Hes IH]; intros k.
  - exists [], (take k junk). simpl. split; [done|]. split; [|constructor].
    unfold blen in *. rewrite length_take. lia.
  - rewrite concat_fmap_cons, <- app_assoc. pose proof (blen_entry_bytes e) as Hl.
    assert (length (entry_bytes e) = 12%nat) as Hl' by (unfold blen in Hl; lia).
    destruct (Nat.lt_ge_cases k 12) as [Hk|Hk].
    + exists [], (take k (entry_bytes e)). rewrite take_app_le by lia. simpl.
      split; [done|]. split; [|constructor]. unfold blen. rewrite length_take. lia.
    + destruct (IH (k - 12)%nat) as (es' & junk' & Heq & Hj' & Hes').
      exists (e :: es'), junk'. rewrite take_app_ge, Hl', Heq by lia.
      rewrite concat_fmap_cons, app_assoc. split; [done|]. split; [done|]. by constructor.
Qed.

(** ** Log files *)

(** Cutting the encoding of a list of batches: whole batches, then a proper part of
    the next one. *)
Lemma content_take pa k :
  (k <= length (seg_content pa))%nat →
  ∃ p1 rest tail, pa = p1 ++ rest ∧ take k (seg_content pa) = seg_content p1 ++ tail
  ∧ (tail = [] ∨ ∃ b n, b ∈ rest ∧ (n < length (batch_bytes b))%nat ∧ tail = take n (batch_bytes b))
  ∧ ∀ j, (length (seg_content (take j pa)) <= k)%nat →
      blen (concat (take j pa)) <= blen (concat p1).
Proof.
  revert k. induction pa as [|b pa IH]; intros k Hk.
  - exists [], [], []. split; [done|]. split; [apply take_nil|]. split; [by left|].
    intros j _. by destruct j.
  - rewrite seg_content_cons, length_app in Hk.
    destruct (Nat.lt_ge_cases k (length (batch_bytes b))) as [Hlt|Hge].
    + exists [], (b :: pa), (take k (batch_bytes b)). rewrite seg_content_cons.
      split; [done|]. split; [by rewrite take_app_le by lia|]. split.
      { right. exists b, k. split; [by constructor|done]. }
      intros [|j]; [done|]. cbn [firstn]. rewrite seg_content_cons, length_app. lia.
    + destruct (IH (k - length (batch_bytes b))%nat) as (p1 & rest & tail & -> & Ht & Htail & Hj);
        [lia|].
      exists (b :: p1), rest, tail. rewrite !seg_content_cons. split; [done|].
      split; [by rewrite take_app_ge, Ht, app_assoc by lia|]. split; [done|].
      intros [|j]; [intros _; rewrite blen_nil; apply blen_nonneg|]. cbn [firstn concat].
      rewrite seg_content_cons, length_app. intros Hle. rewrite !blen_app.
      specialize (Hj j ltac:(lia)). lia.
Qed.

Lemma torn_take maxB tail k : tail = [] ∨ torn maxB tail → take k tail = [] ∨ torn maxB (take k tail).
Proof.
  intros [-> |(b & n & He & Hf & Hn & ->)]; [left; by rewrite take_nil|]. right.
  exists b, (min k n). rewrite take_take. split_and!; try done. lia.
Qed.

(** ** The segments of a partition *)

(** A segment of which only the batches [p1] and a torn tail remain. *)
Lemma disk_seg_cut F F' dir maxB base p1 rest lost tail tail' :
  disk_seg F dir maxB base (p1 ++ rest) lost tail →
  data_at F' (dir ++ [log_name base]) = Some (seg_content p1 ++ tail') →
  blen (seg_content p1 ++ tail') <= blen (seg_content (p1 ++ rest) ++ tail) →
  (∀ d, data_at F' (dir ++ [index_name base]) = Some d → index_disk_ok (p1 ++ rest ++ lost) d) →
  disk_seg F' dir maxB base p1 (rest ++ lost) tail'.
Proof.
  intros [Hf Hi Hsm He Hfit Hc H0 Hend Hrel Hls] Hd Hle Hi'. rewrite <- app_assoc in Hrel, Hls.
  apply Forall_app in He as [He _]. apply Forall_app in Hfit as [Hfit _].
  rewrite concat_app in Hc, Hend. apply contiguous_app in Hc as [Hc _]. rewrite blen_app in Hend.
  split; try done; [lia|]. pose proof (blen_nonneg (concat rest)). lia.
Qed.

Lemma crash_index F F' dir maxB base bs lost tail d :
  crashed F F' → disk_seg F dir maxB base bs lost tail →
  data_at F' (dir ++ [index_name base]) = Some d → index_disk_ok (bs ++ lost) d.
Proof.
  intros Hcr Hds Hd. destruct (crash_data _ _ _ _ Hcr Hd) as (d0 & k & Hd0 & ->).
  by eapply index_disk_ok_take, ds_index.
Qed.

Lemma crash_closed F F' dir maxB base bs :
  crashed F F' → disk_seg F dir maxB base bs [] [] →
  durable F (dir ++ [log_name base]) (length (seg_content bs)) →
  disk_seg F' dir maxB base bs [] []
  ∧ durable F' (dir ++ [log_name base]) (length (seg_content bs)).
Proof.
  intros Hcr Hds Hdur. pose proof (ds_file _ _ _ _ _ _ _ Hds) as Hf. rewrite app_nil_r in Hf.
  pose proof (crash_durable _ _ _ _ Hcr Hf Hdur) as HF'. split.
  - eapply disk_seg_change; [exact Hds|by left|unfold data_at; by rewrite HF', app_nil_r|].
    intros d. by eapply crash_index.
  - eexists. split; [exact HF'|]. simpl. lia.
Qed.

Lemma crash_active F F' dir maxB m pa lost tail j :
  crashed F F' → disk_seg F dir maxB m pa lost tail → tail = [] ∨ torn maxB tail →
  durable F (dir ++ [log_name m]) (length (seg_content (take j pa))) →
  ∃ p1 rest tail', pa = p1 ++ rest ∧ disk_seg F' dir maxB m p1 (rest ++ lost) tail'
  ∧ (tail' = [] ∨ torn maxB tail') ∧ blen (concat (take j pa)) <= blen (concat p1)
  ∧ durable F' (dir ++ [log_name m]) (length (seg_content p1)).
Proof.
  intros Hcr Hds Ht Hdur. pose proof (ds_file _ _ _ _ _ _ _ Hds) as Hf.
  destruct (crash_file _ _ _ _ _ Hcr Hf Hdur) as (k & Hjk & Hk & HF').
  assert (∀ d, data_at F' (dir ++ [index_name m]) = Some d → index_disk_ok (pa ++ lost) d) as Hix
    by (intros d; by eapply crash_index).
  rewrite length_app in Hk.
  assert (∃ p1 rest tail', pa = p1 ++ rest ∧ take k (seg_content pa ++ tail) = seg_content p1 ++ tail'
    ∧ (tail' = [] ∨ torn maxB tail') ∧ blen (concat (take j pa)) <= blen (concat p1))
    as (p1 & rest & tail' & -> & Hcut & Ht' & Hj).
  { destruct (Nat.le_gt_cases k (length (seg_content pa))) as [Hle|Hgt].
    - destruct (content_take pa k Hle) as (p1 & rest & tail' & Hpa & Hcut & Htl & Hj).
      exists p1, rest, tail'. rewrite take_app_le by lia. split; [done|]. split; [done|].
      split; [|auto]. destruct Htl as [-> |(b & n & Hb & Hn & ->)]; [by left|]. right.
      destruct Hds as [_ _ _ He Hfit _ _ _ _ _]. rewrite Forall_forall in He, Hfit.
      assert (b ∈ pa) as Hin by (rewrite Hpa, elem_of_app; by right).
      exists b, n. split; [by apply He|]. split; [by apply Hfit|done].
    - exists pa, [], (take (k - length (seg_content pa)) tail). rewrite app_nil_r.
      rewrite take_app_ge by lia. split; [done|]. split; [done|]. split; [by apply torn_take|].
      rewrite <- (take_drop j pa) at 2. rewrite concat_app, blen_app. blen_pos. lia. }
  exists p1, rest, tail'. split; [done|].
  assert (data_at F' (dir ++ [log_name m]) = Some (seg_content p1 ++ tail')) as Hd'
    by (unfold data_at; rewrite HF'; simpl; by rewrite Hcut).
  split; [|split; [done|split; [done|]]].
  - eapply disk_seg_cut; [exact Hds|exact Hd'| |by rewrite app_assoc].
    rewrite <- Hcut. unfold blen. rewrite length_take. lia.
  - eexists. split; [exact HF'|]. simpl. pose proof (f_equal length Hcut) as Hl.
    rewrite length_take, !length_app in Hl. rewrite length_take, length_app. lia.
Qed.

(** ** The crash theorem *)

Lemma crash_chain F F' dir maxB e pc m pa lost tail d :
  crashed F F' → disk_chain F dir maxB e pc m → disk_seg F dir maxB m pa lost tail →
  tail = [] ∨ torn maxB tail → chain_durable F dir e pc pa d →
  disk_chain F' dir maxB e pc m
  ∧ ∃ p1 rest tail', pa = p1 ++ rest ∧ disk_seg F' dir maxB m p1 (rest ++ lost) tail'
    ∧ (tail' = [] ∨ torn maxB tail') ∧ d <= m + blen (concat p1)
    ∧ chain_durable F' dir e pc p1 (m + blen (concat p1)).
Proof.
  intros Hcr Hc Ha Ht. revert e Hc. induction pc as [|bs pc IH]; intros e; simpl.
  - intros -> (j & Hj & Hle). split; [done|].
    destruct (crash_active _ _ _ _ _ _ _ _ _ Hcr Ha Ht Hj)
      as (p1 & rest & tail' & Hpa & Hds & Ht' & Hb & Hdur).
    exists p1, rest, tail'. split; [done|]. split; [done|]. split; [done|]. split; [lia|].
    exists (length p1). by rewrite firstn_all.
  - intros (Hs & Hne & Hc) [Hb Hd]. destruct (crash_closed _ _ _ _ _ _ Hcr Hs Hb) as [Hs' Hb'].
    destruct (IH _ Hc Hd) as (Hc' & p1 & rest & tail' & Hpa & Hds & Ht' & Hle & Hd').
    split; [done|]. exists p1, rest, tail'. done.
Qed.

Lemma disk_chain_end F dir maxB e pc m :
  disk_chain F dir maxB e pc m → m = active_base e pc.
Proof.
  revert e. induction pc as [|bs pc IH]; intros e; simpl.
  - intros ->. unfold active_base. simpl. rewrite blen_nil. lia.
  - intros (_ & _ & Hc%IH). by rewrite active_base_cons.
Qed.

Lemma crash_files_ok F F' dir bases m :
  crashed F F' → files_ok F dir bases m → files_ok F' dir bases m.
Proof.
  intros Hcr Hf. apply (files_ok_mono F); [done|]. intros p Hp.
  destruct (F !! p) eqn:E; [done|]. rewrite (crash_none _ _ _ Hcr E) in Hp. by destruct Hp.
Qed.

(** After a crash the files hold a prefix of the log that contains everything
    durable; all that remains is durable. *)
Lemma crash_holds F F' dir maxB e recs d :
  holds F dir maxB e recs d → crashed F F' →
  ∃ n, (n <= length recs)%nat ∧ d <= e + Z.of_nat n
    ∧ holds F' dir maxB e (take n recs) (e + Z.of_nat n).
Proof.
  intros [(pc & pa & lost & tail & [(m & Hc & Ha & Hf) Ht] & <- & Hd)|(Hfr & -> & -> & Hd)] Hcr.
  - destruct (crash_chain _ _ _ _ _ _ _ _ _ _ _ Hcr Hc Ha Ht Hd)
      as (Hc' & p1 & rest & tail' & -> & Ha' & Ht' & Hle & Hd').
    assert (store_records pc (p1 ++ rest) = store_records pc p1 ++ concat rest) as Hrec
      by (unfold store_records; by rewrite app_assoc, concat_app).
    assert (m + blen (concat p1) = e + blen (store_records pc p1)) as Hend.
    { rewrite (disk_chain_end _ _ _ _ _ _ Hc). unfold active_base, store_records.
      rewrite (concat_app (concat pc)), blen_app. lia. }
    exists (length (store_records pc p1)). fold (blen (store_records pc p1)).
    rewrite Hrec, length_app, take_app_length. split; [lia|]. split; [lia|]. left.
    exists pc, p1, (rest ++ lost), tail'. split; [|split; [done|by rewrite <- Hend]].
    split; [|done]. exists m. split; [done|]. split; [done|]. by eapply crash_files_ok.
  - exists 0%nat. split; [done|]. split; [lia|]. right. split; [|done].
    intros b Hb. destruct (Hfr b Hb). split; by eapply crash_none.
Qed.
