(* ===== verification/LogSpec.v ===== *)
(** * Specification of a partition log

    What a partition promises, without segments, files and indexes: a sequence
    of records with consecutive offsets, of which those below an offset are
    durable.  A label is a call with its result, a crash or a restart. *)

From S2P Require Import Prelude FileSystem Model Store StoreInv StoreAppend StoreRead.

(** ** State *)

Record alog := mkAlog {
  al_first : Z;                      (* offset of the first record *)
  al_records : list StoredRecord;
  al_durable : Z;                    (* the records below survive a crash *)
}.

Definition al_end (l : alog) : Z := al_first l + blen (al_records l).

Inductive phase : Type :=
  | Serving     (* open, in good order *)
  | Failed      (* open, but a write failed: refuses everything until reopened *)
  | Closed      (* after Close *)
  | Down.       (* no process has the partition open *)

#[global] Instance phase_eq_dec : EqDecision phase.
Proof. solve_decision. Defined.

Inductive call : Type :=
  | CAppend (now : Z) (records : list ClientRecord) (r : res (Z * Z))
  | CRead (offset maxBytes : Z) (r : res (list StoredRecord))
  | CRetain (now maxAge maxPartitionBytes : Z) (r : res unit)
  | CClose (r : res unit)
  | CStop
  | CCrash
  | COpen (opened : bool).

(** ** Operations *)

(** A batch is added at the end; [d] is the new durable offset. *)
Definition al_append (now : Z) (records : list ClientRecord) (d : Z) (l : alog) : alog :=
  mkAlog (al_first l) (al_records l ++ stamp (al_end l) now records) d.

(** The [k] oldest records are dropped. *)
Definition al_drop (k : nat) (l : alog) : alog :=
  mkAlog (al_first l + Z.of_nat k) (drop k (al_records l)) (al_durable l).

Lemma al_drop_0 l : al_drop 0 l = l.
Proof. destruct l. unfold al_drop. simpl. by rewrite Z.add_0_r. Qed.

(** Only the first [n] records survive. *)
Definition al_crash (n : nat) (l : alog) : alog :=
  mkAlog (al_first l) (take n (al_records l)) (al_first l + Z.of_nat n).

Definition al_flush (l : alog) : alog := mkAlog (al_first l) (al_records l) (al_end l).

(** What a read from [offset] returns: records from there on, as many as the
    budget allows but at least one. *)
Definition al_read (offset maxBytes : Z) (l : alog) : list StoredRecord :=
  fill maxBytes 0 false (from_offset (al_first l) offset (al_records l)).

Definition al_failed {A} (r : res A) : Prop := ∃ e, r = Err e.

(** ** Steps *)

Section Steps.
(** Whether an acknowledged append is durable: the flush mode of the partition. *)
Context (sync : Prop).

Inductive astep : phase * alog → call → phase * alog → Prop :=
  | a_append l now records d :
      al_durable l <= d → (sync → d = al_end l + blen records) →
      al_end l + blen records < two64 →
      astep (Serving, l)
        (CAppend now records (Ok (al_end l, al_end l + blen records - 1)))
        (Serving, al_append now records d l)
  | a_append_refused p l now records r :
      al_failed r → astep (p, l) (CAppend now records r) (p, l)
  | a_append_failed l now records r :
      al_failed r → astep (Serving, l) (CAppend now records r) (Failed, l)
  | a_append_unknown l now records r :
      al_failed r → al_end l + blen records < two64 → astep (Serving, l) (CAppend now records r)
                      (Failed, al_append now records (al_durable l) l)
  | a_read l offset maxBytes :
      0 < maxBytes → al_first l <= offset <= al_end l →
      astep (Serving, l) (CRead offset maxBytes (Ok (al_read offset maxBytes l))) (Serving, l)
  | a_read_refused p l offset maxBytes r :
      al_failed r → astep (p, l) (CRead offset maxBytes r) (p, l)
  | a_retain p l now maxAge maxP k r :
      (k <= length (al_records l))%nat → k = 0%nat ∨ p = Serving →
      astep (p, l) (CRetain now maxAge maxP r) (p, al_drop k l)
  | a_close p l :
      p = Failed ∨ p = Closed → astep (p, l) (CClose (Ok tt)) (Closed, l)
  | a_close_flushed l :
      astep (Serving, l) (CClose (Ok tt)) (Closed, al_flush l)
  | a_close_failed p l r :
      p ≠ Down → al_failed r → astep (p, l) (CClose r) (Closed, l)
  | a_stop p l : p ≠ Down → astep (p, l) CStop (Down, l)
  | a_crash p l n :
      (n <= length (al_records l))%nat → al_durable l <= al_first l + Z.of_nat n →
      astep (p, l) CCrash (Down, al_crash n l)
  | a_open l : astep (Down, l) (COpen true) (Serving, l)
  | a_open_failed l : astep (Down, l) (COpen false) (Down, l).

Inductive asteps : phase * alog → list call → phase * alog → Prop :=
  | as_nil a : asteps a [] a
  | as_cons a c b tr d : astep a c b → asteps b tr d → asteps a (c :: tr) d.

(** ** What clients may rely on

    These hold of every run of the specification, whatever implements it. *)

(** The offsets of the records follow the position. *)
Definition al_wf (l : alog) : Prop :=
  contiguous (al_first l) (al_records l) ∧ 0 <= al_first l.

Definition record_at (l : alog) (o : Z) : option StoredRecord :=
  if al_first l <=? o then al_records l !! Z.to_nat (o - al_first l) else None.

(** The record [x] at offset [o] is in the log, or retention has dropped it. *)
Definition kept (l : alog) (o : Z) (x : StoredRecord) : Prop :=
  o < al_durable l ∧ (o < al_first l ∨ record_at l o = Some x).

Lemma record_at_some l o x :
  record_at l o = Some x ↔ al_first l <= o ∧ al_records l !! Z.to_nat (o - al_first l) = Some x.
Proof.
  unfold record_at. destruct (Z.leb_spec (al_first l) o) as [Hle|Hlt].
  - split; [auto|]. by intros [_ ?].
  - split; [done|]. intros [? _]. lia.
Qed.

Lemma kept_append now records d l o x :
  kept l o x → al_durable l <= d → kept (al_append now records d l) o x.
Proof.
  intros [Hd [Hlt|Hr]] Hle; (split; [simpl; lia|]); [by left|right].
  apply record_at_some in Hr as [Hf Hr]. apply record_at_some. simpl. split; [done|].
  by apply lookup_app_l_Some.
Qed.

Lemma kept_drop k l o x :
  kept l o x → kept (al_drop k l) o x.
Proof.
  intros [Hd Hr]. split; [done|]. simpl.
  destruct (Z.lt_ge_cases o (al_first l + Z.of_nat k)) as [Hlt|Hge]; [by left|right].
  destruct Hr as [Hlt|Hr]; [lia|]. apply record_at_some in Hr as [Hf Hr].
  apply record_at_some. simpl. split; [done|]. rewrite lookup_drop.
  rewrite <- Hr. f_equal. lia.
Qed.

Lemma kept_crash n l o x :
  kept l o x → al_durable l <= al_first l + Z.of_nat n → kept (al_crash n l) o x.
Proof.
  intros [Hd [Hlt|Hr]] Hle; (split; [simpl; lia|]); [by left|right].
  apply record_at_some in Hr as [Hf Hr]. apply record_at_some. simpl. split; [done|].
  rewrite lookup_take_lt; [done|lia].
Qed.

Lemma kept_flush l o x : kept l o x → kept (al_flush l) o x.
Proof.
  intros [Hd [Hlt|Hr]]; (split; [|auto]).
  - simpl. unfold al_end. pose proof (blen_nonneg (al_records l)). lia.
  - apply record_at_some in Hr as [Hf Hr]. apply lookup_lt_Some in Hr. simpl. unfold al_end, blen. lia.
Qed.

(** A durable record is never lost or changed, except by retention. *)
Lemma kept_step p l c p' l' o x :
  astep (p, l) c (p', l') → kept l o x → kept l' o x.
Proof.
  inversion 1; subst; intros Hk; auto using kept_append, kept_drop, kept_crash, kept_flush.
  apply kept_append; [done|lia].
Qed.

Lemma kept_steps a tr b o x : asteps a tr b → kept (snd a) o x → kept (snd b) o x.
Proof.
  induction 1 as [|[p l] c [p' l'] tr d Hst Hs IH]; intros Hk; [done|].
  apply IH. by eapply kept_step.
Qed.

Lemma asteps_app_inv a tr1 tr2 b :
  asteps a (tr1 ++ tr2) b → ∃ m, asteps a tr1 m ∧ asteps m tr2 b.
Proof.
  revert a. induction tr1 as [|c tr1 IH]; intros a H; simpl in H.
  - exists a. split; [constructor|done].
  - inversion H as [|? ? a1 ? ? Hst Hs]; subst. apply IH in Hs as (m & H1 & H2).
    exists m. split; [by econstructor|done].
Qed.

(** ** Contiguous offsets *)

Lemma contiguous_take base l n : contiguous base l → contiguous base (take n l).
Proof. intros Hc i r Hi. apply lookup_take_Some in Hi as [Hi _]. auto. Qed.

Lemma contiguous_drop base l n :
  contiguous base l → contiguous (base + Z.of_nat n) (drop n l).
Proof. intros Hc i r Hi. rewrite lookup_drop in Hi. apply Hc in Hi. lia. Qed.

Lemma al_wf_append now records d l :
  al_wf l → al_end l + blen records < two64 → al_wf (al_append now records d l).
Proof.
  intros [Hc H0] Hend. split; [|done]. simpl. apply contiguous_app. split; [done|].
  apply contiguous_stamp; [|done]. unfold al_end. pose proof (blen_nonneg (al_records l)). lia.
Qed.

Lemma al_wf_step p l c p' l' : astep (p, l) c (p', l') → al_wf l → al_wf l'.
Proof.
  inversion 1; subst; intros Hwf; auto using al_wf_append; destruct Hwf as [Hc H0]; try done.
  - split; [by apply contiguous_drop|simpl; lia].
  - split; [by apply contiguous_take|done].
Qed.

Lemma al_wf_steps a tr b : asteps a tr b → al_wf (snd a) → al_wf (snd b).
Proof.
  induction 1 as [|[p l] c [p' l'] tr d Hst Hs IH]; intros Hwf; [done|].
  apply IH. by eapply al_wf_step.
Qed.

(** ** Reads of the specification *)

Lemma al_read_lookup offset maxBytes l i r :
  al_first l <= offset → al_read offset maxBytes l !! i = Some r →
  record_at l (offset + Z.of_nat i) = Some r.
Proof.
  intros Hle Hi. unfold al_read in Hi.
  destruct (fill_prefix maxBytes 0 false (from_offset (al_first l) offset (al_records l)))
    as (k & Hk & _). apply record_at_some. split; [lia|].
  assert (from_offset (al_first l) offset (al_records l) !! i = Some r) as Hr.
  { rewrite Hk. by apply lookup_app_l_Some. }
  unfold from_offset in Hr. rewrite lookup_drop in Hr. rewrite <- Hr. f_equal. lia.
Qed.

Lemma al_read_nonempty offset maxBytes l x :
  record_at l offset = Some x → al_read offset maxBytes l ≠ [].
Proof.
  intros [Hle Hx]%record_at_some. unfold al_read, from_offset.
  destruct (drop _ (al_records l)) as [|y rest] eqn:E; [|done].
  rewrite <- (Nat.add_0_r (Z.to_nat _)), <- lookup_drop, E in Hx. done.
Qed.

Lemma append_ok_inv now records base last a b :
  astep a (CAppend now records (Ok (base, last))) b →
  ∃ l d, a = (Serving, l) ∧ b = (Serving, al_append now records d l) ∧ base = al_end l
    ∧ last = al_end l + blen records - 1 ∧ (sync → d = al_end l + blen records).
Proof.
  inversion 1; subst; try match goal with Hf : al_failed (Ok _) |- _ => by destruct Hf end. eauto 10.
Qed.

Lemma read_ok_inv offset maxBytes out a b :
  astep a (CRead offset maxBytes (Ok out)) b →
  ∃ l, a = (Serving, l) ∧ al_first l <= offset <= al_end l ∧ out = al_read offset maxBytes l.
Proof.
  inversion 1; subst; try match goal with Hf : al_failed (Ok _) |- _ => by destruct Hf end. eauto 10.
Qed.

(** What an acknowledged append wrote is kept in every later state. *)
Lemma append_kept now records base last a b o x :
  sync → astep a (CAppend now records (Ok (base, last))) b → al_wf (snd a) →
  base <= o → stamp base now records !! Z.to_nat (o - base) = Some x → kept (snd b) o x.
Proof.
  intros Hsync Hst [_ H0] Ho Hx. pose proof (lookup_lt_Some _ _ _ Hx) as Hl. rewrite length_stamp in Hl.
  apply append_ok_inv in Hst as (l & d & -> & -> & -> & -> & Hds). simpl in *. rewrite (Hds Hsync). split; [simpl; unfold blen; lia|]. right.
  apply record_at_some. simpl. unfold al_end in *. pose proof (blen_nonneg (al_records l)).
  split; [lia|]. rewrite lookup_app_r by (unfold blen in *; lia). rewrite <- Hx. f_equal.
  unfold blen in *. lia.
Qed.

(** A read after an acknowledged append, whatever happened in between: the records
    it returns at the offsets of the append are the ones that were appended. *)
Lemma acknowledged_read a b now records base last tr offset maxBytes out :
  sync → al_wf (snd a) →
  asteps a (CAppend now records (Ok (base, last)) :: tr ++ [CRead offset maxBytes (Ok out)]) b →
  (∀ i r, out !! i = Some r → base <= offset + Z.of_nat i <= last →
     stamp base now records !! Z.to_nat (offset + Z.of_nat i - base) = Some r)
  ∧ (base <= offset <= last → out ≠ []).
Proof.
  intros Hsync Hwf H. inversion H as [|? ? m ? ? Hap Hs]; subst.
  apply asteps_app_inv in Hs as (m' & Hs & Hrd).
  assert (last = base + blen records - 1) as ->
    by (by apply append_ok_inv in Hap as (l & d & -> & -> & -> & -> & _)).
  assert (∀ o, base <= o <= base + blen records - 1 → ∃ x,
    stamp base now records !! Z.to_nat (o - base) = Some x ∧ kept (snd m') o x) as Hk.
  { intros o Ho. destruct (lookup_lt_is_Some_2 (stamp base now records) (Z.to_nat (o - base)))
      as [x Hx]; [rewrite length_stamp; unfold blen in *; lia|].
    exists x. split; [done|]. eapply kept_steps; [exact Hs|]. eapply append_kept; eauto; lia. }
  inversion Hrd as [|? ? m2 ? ? Hst _]; subst.
  apply read_ok_inv in Hst as (l & -> & Hle & ->). simpl in Hk. split.
  - intros i r Hi Ho. destruct (Hk _ Ho) as (x & Hx & _ & [Hlt|Hr]); [lia|].
    apply al_read_lookup in Hi; [|lia]. congruence.
  - intros Ho. destruct (Hk _ Ho) as (x & Hx & _ & [Hlt|Hr]); [lia|]. by eapply al_read_nonempty.
Qed.

(** ** Types of the results *)

(** The offset is a uint64 and the timestamp an int64. *)
Definition typed_record (r : StoredRecord) : Prop :=
  0 <= Offset r < two64 ∧ - two63 <= Timestamp r < two63.

(** The results of a call are values of their Go types: a read returns records with
    uint64 offsets that follow one another from the requested one, and an append the
    uint64 offsets of its first and last record. *)
Definition typed_call (c : call) : Prop :=
  match c with
  | CAppend _ records (Ok (base, last)) =>
      0 <= base < two64 ∧ last < two64 ∧ last = base + blen records - 1
  | CRead offset _ (Ok out) => contiguous offset out ∧ Forall typed_record out
  | _ => True
  end.

Definition typed_clock (c : call) : Prop :=
  match c with CAppend now _ _ => - two63 <= now < two63 | _ => True end.

Lemma stamp_typed base now records :
  - two63 <= now < two63 → Forall typed_record (stamp base now records).
Proof.
  intros Hn. apply Forall_lookup. intros i r Hi. unfold stamp in Hi.
  rewrite list_lookup_imap in Hi. destruct (records !! i) as [c|]; [|done]. simpl in Hi.
  injection Hi as <-. split; simpl; [|done]. unfold u64. apply Z.mod_pos_bound. lia.
Qed.

Lemma al_read_typed offset maxBytes l :
  al_wf l → al_first l <= offset → Forall typed_record (al_records l) →
  contiguous offset (al_read offset maxBytes l) ∧ Forall typed_record (al_read offset maxBytes l).
Proof.
  intros [Hc _] Hle Ht.
  assert (∀ i r, al_read offset maxBytes l !! i = Some r →
            al_records l !! Z.to_nat (offset + Z.of_nat i - al_first l) = Some r) as Hin.
  { intros i r Hi. apply al_read_lookup in Hi; [|done]. by apply record_at_some in Hi as [_ Hi]. }
  split.
  - intros i r Hi. apply Hin, Hc in Hi. lia.
  - apply Forall_lookup. intros i r Hi. rewrite Forall_lookup in Ht. eauto.
Qed.

Lemma typed_step p l c p' l' :
  astep (p, l) c (p', l') → al_wf l → typed_clock c → Forall typed_record (al_records l) →
  typed_call c ∧ Forall typed_record (al_records l').
Proof.
  inversion 1; subst; intros Hwf Hn Ht;
    try match goal with Hf : al_failed ?r |- _ => destruct Hf as [? ->] end;
    simpl in *; try (split; [by repeat case_match|]);
    try (by first [assumption | apply Forall_app; split; [done|by apply stamp_typed]
                  | apply Forall_drop | apply Forall_take]).
  - destruct Hwf as [_ H0]. assert (0 <= al_end l) by (unfold al_end; pose proof (blen_nonneg (al_records l)); lia).
    pose proof (blen_nonneg records).
    split; [lia|]. apply Forall_app. split; [done|by apply stamp_typed].
  - split; [|done]. by apply al_read_typed; [..|lia|].
Qed.

Lemma typed_steps a tr b :
  asteps a tr b → al_wf (snd a) → Forall typed_clock tr → Forall typed_record (al_records (snd a)) →
  Forall typed_call tr.
Proof.
  induction 1 as [|[p l] c [p' l'] tr d Hst Hs IH]; intros Hwf Hn Ht; [constructor|].
  apply Forall_cons in Hn as [Hc Hn]. destruct (typed_step _ _ _ _ _ Hst Hwf Hc Ht) as [H1 H2].
  constructor; [done|]. apply IH; [by eapply al_wf_step|done|done].
Qed.
End Steps.
