(* ===== verification/StoreRefinement.v ===== *)
(** * The store implements the partition log

    A node is a partition directory with at most one open store on it.  Its
    steps are the calls of the store under any schedule of I/O failures, the end
    of the process, a crash of the machine and OpenStore.  Every run of a node
    is a run of the specification in LogSpec. *)

From S2P Require Import Prelude FileSystem Runs Names Model Format Segment Store Recovery Retention.
From S2P Require Import StoreInv StoreAppend StoreRead StoreRetention StoreRecovery StoreCrash LogSpec.
From Stdlib Require Import Init.Byte.

(** ** Close *)

Lemma fs_sync_any p w r w' :
  fs_sync p w = (r, w') →
  quiet w w' ∧ (∀ q, data_at (w_files w') q = data_at (w_files w) q)
  ∧ (∀ P, grows P (w_files w) (w_files w')) ∧ r ≠ Panic.
Proof.
  destruct (w_files w !! p) as [f|] eqn:Hf; intros H.
  - apply (fs_sync_spec _ _ _ _ _ Hf) in H as (HQ & [(-> & HF)|(-> & _ & HF)]); rewrite HF.
    + split; [done|]. split; [intros q; by apply (data_at_insert_same _ _ f)|].
      split; [|done]. intros P. apply (grows_insert _ _ _ _ _ Hf); simpl; lia.
    + split; [done|]. split; [done|]. split; [|done]. intros P. apply grows_refl.
  - unfold fs_sync in H. pop_outcome H o w1 HF HQ HS. rewrite HF, Hf in H.
    assert (w' = w1 ∧ r ≠ Panic) as [-> ?] by (destruct o; by injection H as <- <-).
    rewrite HF. split; [done|]. split; [done|]. split; [|done]. intros P. apply grows_refl.
Qed.

(** Flushing changes no data, whatever the files are. *)
Lemma Segment_Flush_any seg w r seg' w' :
  Segment_Flush (seg, w) = (r, (seg', w')) →
  (∀ q, data_at (w_files w') q = data_at (w_files w) q)
  ∧ (∀ P, grows P (w_files w) (w_files w')) ∧ r ≠ Panic.
Proof.
  intros H. unfold Segment_Flush in H. unfold bind at 1, get_obj in H.
  binv H u s1 H1; [destruct s1 as [seg1 w1]|..]; apply io_inv in H1 as [-> H1];
    apply fs_sync_any in H1 as (_ & HD & HG & HP); try done.
  unfold FlushIndex in H. unfold bind at 1, get_obj in H. destruct (seg_indexDirty seg).
  - binv H v s2 H2; [destruct s2 as [seg2 w2]|..]; apply io_inv in H2 as [-> H2];
      apply fs_sync_any in H2 as (_ & HD2 & HG2 & HP2); try done.
    + injection H as <- <- <-. split; [intros q; by rewrite HD2, HD|]. split; [|done].
      intros P. by eapply grows_trans.
    + split; [intros q; by rewrite HD2, HD|]. split; [|done]. intros P. by eapply grows_trans.
  - by injection H as <- <- <-.
Qed.

Lemma Store_Close_spec s w r s' w' :
  Store_Close (s, w) = (r, (s', w')) →
  st_closed s' = true
  ∧ (∀ q, data_at (w_files w') q = data_at (w_files w) q)
  ∧ (∀ P, grows P (w_files w) (w_files w')) ∧ (r = Ok tt ∨ al_failed r).
Proof.
  unfold Store_Close. destruct (st_closed s) eqn:Ec.
  { intros [= <- <- <-]. split; [done|]. split; [done|]. split; [intros P; apply grows_refl|by left]. }
  set (s1 := st_with_closed true s).
  destruct (match st_segments s1 with [] => _ | _ => _ end) as [r1 [s2 w1]] eqn:E1.
  assert (st_closed s2 = true ∧ (∀ q, data_at (w_files w1) q = data_at (w_files w) q)
    ∧ (∀ P, grows P (w_files w) (w_files w1)) ∧ r1 ≠ Panic) as (Hc2 & HD & HG & HP).
  { destruct (st_segments s1) as [|x xs] eqn:Es.
    - injection E1 as <- <- <-. split; [done|]. split; [done|]. split; [intros P; apply grows_refl|done].
    - destruct (exists_last (l := x :: xs)) as (closed & a & Hl); [done|]. rewrite Hl in Es.
      apply (on_active_inv _ _ _ _ _ _ _ _ Es) in E1 as (a' & E1 & ->).
      by apply Segment_Flush_any in E1 as (? & ? & ?). }
  pose proof (close_segments_files (st_segments s2) w1) as Hcl.
  destruct (close_segments (st_segments s2) w1) as [[segs err] w2]. destruct Hcl as [_ HF].
  destruct (negb (is_ok r1) || err); intros [= <- <- <-]; rewrite HF;
    (split; [done|]; split; [done|]; split; [done|]); [right; by eexists|by left].
Qed.

(** A clean Close of a well-formed store makes the whole log durable. *)
Lemma Store_Close_durable s w s' w' pc pa d :
  store_ok (w_files w) s pc pa → Store_Close (s, w) = (Ok tt, (s', w')) →
  chain_durable (w_files w) (st_dir s) (st_earliestOffset s) pc pa d →
  chain_durable (w_files w') (st_dir s) (st_earliestOffset s) pc pa
    (st_earliestOffset s + blen (store_records pc pa)).
Proof.
  intros Hok H Hd. pose proof (ok_segments _ _ _ _ Hok) as (closed & a & Hs & _).
  destruct (store_ok_segments _ _ _ _ _ _ Hok Hs) as (_ & Ha & _).
  destruct (seg_ok_files _ _ _ _ _ Ha) as (f & g & Hf & Hfd & Hg & _ & Hne).
  unfold Store_Close in H. rewrite (ok_open _ _ _ _ Hok) in H.
  set (s1 := st_with_closed true s) in H.
  assert (st_segments s1 = closed ++ [a]) as Hs1 by done.
  destruct (match st_segments s1 with [] => _ | _ => _ end) as [r1 [s2 w1]] eqn:E1.
  assert (on_active Segment_Flush (s1, w) = (r1, (s2, w1))) as E2.
  { rewrite Hs1 in E1. by destruct closed. }
  apply (on_active_inv _ _ _ _ _ _ _ _ Hs1) in E2 as (a' & E2 & ->).
  destruct (Segment_Flush_spec _ _ _ _ _ _ _ Hf Hg Hne E2) as (_ & _ & _ & _ & Hgr & Hr).
  pose proof (close_segments_files (closed ++ [a']) w1) as Hcl. cbn [st_segments st_with_segments] in H.
  destruct (close_segments (closed ++ [a']) w1) as [[segs err] w2]. destruct Hcl as [_ HF].
  destruct Hr as [(-> & Hsy)|(-> & _)]; [|done]. cbn [is_ok negb orb] in H.
  destruct err; [done|]. injection H as <- <-. rewrite HF.
  eapply chain_durable_all; [by eapply chain_durable_grows|].
  rewrite (proj1 (active_base_of _ _ _ _ _ _ Hok Hs)), <- (so_path _ _ _ _ _ Ha).
  eexists. split; [exact Hsy|]. simpl. by rewrite Hfd.
Qed.

(** ** Refused calls *)

Lemma Append_refused now records s w :
  records = [] ∨ st_closed s = true ∨ st_writeFailed s = true →
  ∃ e w', Store_Append now records (s, w) = (Err e, (s, w')) ∧ w_files w' = w_files w.
Proof.
  intros H. unfold Store_Append. destruct (Z.eqb_spec (blen records) 0); [by eexists _, _|].
  unfold bind at 1, get_obj. destruct (st_closed s); [by eexists _, _|].
  destruct (st_writeFailed s); [by eexists _, _|].
  destruct H as [-> |[? | ?]]; [by rewrite blen_nil in *|done..].
Qed.

Lemma Read_refused offset maxBytes s w :
  maxBytes <= 0 ∨ st_closed s = true ∨ st_writeFailed s = true →
  ∃ e w', Store_Read offset maxBytes (s, w) = (Err e, (s, w')) ∧ w_files w' = w_files w.
Proof.
  intros H. unfold Store_Read, observed_read.
  destruct (Z.leb_spec maxBytes 0); [by eexists _, _|].
  unfold bind at 1, get_obj. destruct (st_closed s); [by eexists _, _|].
  destruct (st_writeFailed s); [by eexists _, _|].
  destruct H as [?|[? | ?]]; [lia|done..].
Qed.

Lemma Retention_refused now maxAge maxP s w :
  st_closed s = true ∨ st_writeFailed s = true →
  Store_ApplyRetention now maxAge maxP (s, w) = (Ok tt, (s, w)).
Proof.
  intros H. unfold Store_ApplyRetention, bind at 1, get_obj.
  destruct H as [-> | ->]; [done|]. by rewrite orb_true_r.
Qed.

(** ** Durability under retention and flushes *)

Lemma chain_durable_files F F' dir maxB e segs pc pa l d :
  Forall2 (seg_ok F dir maxB) segs (pc ++ [pa]) → chain e segs l →
  (∀ seg, seg ∈ segs → F' !! seg_path seg = F !! seg_path seg) →
  chain_durable F dir e pc pa d → chain_durable F' dir e pc pa d.
Proof.
  revert e segs. induction pc as [|bs pc IH]; intros e segs Hs Hch HF; simpl in *.
  - inversion Hs as [|seg ? segs' ? Hok _]; subst. destruct Hch as [<- _].
    intros (j & Hj & Hle). exists j. split; [|done]. eapply durable_same; [|exact Hj].
    rewrite <- (so_path _ _ _ _ _ Hok). apply HF. by constructor.
  - inversion Hs as [|seg ? segs' ? Hok Hs']; subst. destruct Hch as [<- Hch].
    intros [Hb Hd]. split.
    + eapply durable_same; [|exact Hb]. rewrite <- (so_path _ _ _ _ _ Hok). apply HF. by constructor.
    + rewrite <- (so_next _ _ _ _ _ Hok) in *. eapply IH; [exact Hs'|done| |done].
      intros x Hx. apply HF. by constructor.
Qed.

Lemma chain_durable_drop F dir e k pc pa d :
  (k <= length pc)%nat → chain_durable F dir e pc pa d →
  chain_durable F dir (e + blen (concat (concat (take k pc)))) (drop k pc) pa d.
Proof.
  revert e k. induction pc as [|bs pc IH]; intros e [|k] Hk; simpl in *;
    rewrite ?blen_nil, ?Z.add_0_r; try done.
  intros [_ Hd]. rewrite concat_app, blen_app, Z.add_assoc. apply IH; [lia|done].
Qed.

(** After retention the rest of the log is as durable as before. *)
Lemma retained_durable F F' s s' pc pa k d :
  store_ok F s pc pa → retained F F' s s' pc pa k →
  chain_durable F (st_dir s) (st_earliestOffset s) pc pa d →
  chain_durable F' (st_dir s) (st_earliestOffset s') (drop k pc) pa d.
Proof.
  intros Hok [Hok' Hle Hs' Hl He HF Hc] Hd.
  destruct (store_ok_all _ _ _ _ Hok) as (Hall & _).
  apply (Forall2_drop _ _ _ k) in Hall. rewrite drop_app_le in Hall by lia.
  destruct (store_ok_all _ _ _ _ Hok') as (_ & Hch & _). rewrite Hs' in Hch.
  eapply (chain_durable_files F); [exact Hall|exact Hch| |].
  - intros seg Hseg. rewrite <- Hs' in Hseg. by apply HF.
  - rewrite He. by apply chain_durable_drop.
Qed.

Lemma holds_data F F' dir maxB e recs d :
  holds F dir maxB e recs d → same_data F F' dir → grows (log_path dir) F F' →
  holds F' dir maxB e recs d.
Proof.
  intros [(pc & pa & lost & tail & Hd & Hr & Hdur)|(Hfr & He & Hr & Hd)] HF Hg.
  - left. exists pc, pa, lost, tail. split; [by eapply disk_ok_data|]. split; [done|].
    by eapply chain_durable_grows.
  - right. split; [|done]. intros b Hb. destruct (Hfr b Hb) as [H1 H2].
    split; apply eq_None_not_Some; rewrite data_at_is_Some, HF, <- data_at_is_Some, ?H1, ?H2;
      by intros [].
Qed.

Lemma store_holds F s pc pa d :
  store_ok F s pc pa → chain_durable F (st_dir s) (st_earliestOffset s) pc pa d →
  holds F (st_dir s) (st_maxBatchBytes s) (st_earliestOffset s) (store_records pc pa) d.
Proof. intros Hok Hd. left. exists pc, pa, [], []. split; [by apply store_ok_disk|done]. Qed.

(** ** Nodes *)

Definition with_faults (fl : list outcome) (w : World) : World :=
  mkWorld (w_files w) (w_dirs w) fl (w_events w).

(** At most one store is open on the directory. *)
Abbreviation node := (option Store * World)%type.

Section Node.
Context (dir : path) (segMax maxB interval : Z) (mode : string).
Context (maxB_small : maxB < two31) (segMax_small : segMax < two63).

(** The steps of a node. The bounds on the clock, on the log end and on the bytes
    on disk are those of the machine integers that hold them. *)
Inductive pstep : node → call → node → Prop :=
  | p_append s w fl now records r s' w' :
      - two63 < now < two63 → st_logEndOffset s + blen records < two64 →
      Store_Append now records (s, with_faults fl w) = (r, (s', w')) →
      pstep (Some s, w) (CAppend now records r) (Some s', w')
  | p_read s w fl offset maxBytes r s' w' :
      Store_Read offset maxBytes (s, with_faults fl w) = (r, (s', w')) →
      pstep (Some s, w) (CRead offset maxBytes r) (Some s', w')
  | p_retain s w fl now maxAge maxP r s' w' :
      disk_bytes (w_files w) (st_segments s) < two63 →
      Store_ApplyRetention now maxAge maxP (s, with_faults fl w) = (r, (s', w')) →
      pstep (Some s, w) (CRetain now maxAge maxP r) (Some s', w')
  | p_close s w fl r s' w' :
      Store_Close (s, with_faults fl w) = (r, (s', w')) →
      pstep (Some s, w) (CClose r) (Some s', w')
  | p_stop s w : pstep (Some s, w) CStop (None, w)
  | p_crash o w F' :
      crashed (w_files w) F' → pstep (o, w) CCrash (None, set_files F' w)
  | p_open w fl r w' :
      OpenStore dir segMax maxB interval mode (with_faults fl w) = (r, w') →
      pstep (None, w) (COpen (is_ok r)) (match r with Ok s => Some s | _ => None end, w').

Inductive psteps : node → list call → node → Prop :=
  | ps_nil n : psteps n [] n
  | ps_cons n c m tr k : pstep n c m → psteps m tr k → psteps n (c :: tr) k.

(** ** The simulation relation *)

Record conf_ok (s : Store) : Prop := mkConfOk {
  co_dir : st_dir s = dir;
  co_maxBatch : st_maxBatchBytes s = maxB;
  co_flush : st_flushMode s = ToLower mode;
}.

Definition stored (F : gmap path file) (l : alog) : Prop :=
  holds F dir maxB (al_first l) (al_records l) (al_durable l).

Definition serves (F : gmap path file) (s : Store) (l : alog) : Prop :=
  conf_ok s ∧ st_earliestOffset s = al_first l
  ∧ ∃ pc pa, store_ok F s pc pa ∧ store_records pc pa = al_records l
      ∧ chain_durable F dir (al_first l) pc pa (al_durable l).

Definition refines (n : node) (a : phase * alog) : Prop :=
  let F := w_files (snd n) in
  match fst n, fst a with
  | Some s, Serving => serves F s (snd a)
  | Some s, Failed => st_writeFailed s = true ∧ stored F (snd a)
  | Some s, Closed => st_closed s = true ∧ stored F (snd a)
  | None, Down => stored F (snd a)
  | _, _ => False
  end.

#[local] Arguments refines _ _ /.

Abbreviation sync := (ToLower mode = "sync"%string).

Lemma serves_stored F s l : serves F s l → stored F l.
Proof.
  intros ([Hd Hm _] & He & pc & pa & Hok & Hr & Hdur). unfold stored. rewrite <- Hr, <- He.
  rewrite <- He in Hdur. rewrite <- Hd, <- Hm. apply store_holds; [done|]. by rewrite Hd.
Qed.

Lemma refines_stored n a : refines n a → stored (w_files (snd n)) (snd a).
Proof.
  destruct n as [[s|] w], a as [[] l]; simpl; try done; [apply serves_stored|by intros [_ ?]..].
Qed.

(** Only the files of the directory matter. *)
Lemma refines_frame o w w' a :
  (∀ name, w_files w' !! (dir ++ [name]) = w_files w !! (dir ++ [name])) →
  refines (o, w) a → refines (o, w') a.
Proof.
  intros HF.
  assert (same_data (w_files w) (w_files w') dir) as HD
    by (intros name; unfold data_at; by rewrite HF).
  assert (grows (log_path dir) (w_files w) (w_files w')) as HG
    by (intros q n [b ->]; apply durable_same, HF).
  assert (∀ l, stored (w_files w) l → stored (w_files w') l) as Hst
    by (intros l Hs; by eapply holds_data).
  destruct o as [s|], a as [[] l]; simpl; try done; [|intros []; auto..|apply Hst].
  intros (Hc & He & pc & pa & Hok & Hr & Hd). split; [done|]. split; [done|]. exists pc, pa.
  split; [|split; [done|by eapply chain_durable_grows]].
  eapply store_ok_data; [done|]. by destruct Hc as [-> _ _].
Qed.

Lemma serves_end F s l : serves F s l → st_logEndOffset s = al_end l.
Proof.
  intros (_ & He & pc & pa & Hok & Hr & _). destruct (store_records_contiguous _ _ _ _ Hok) as [_ Hl].
  unfold al_end. by rewrite Hl, He, Hr.
Qed.

(** *** Append *)

Lemma append_serving s w fl now records r s' w' l :
  - two63 < now < two63 → st_logEndOffset s + blen records < two64 →
  Store_Append now records (s, with_faults fl w) = (r, (s', w')) → serves (w_files w) s l →
  ∃ a', astep sync (Serving, l) (CAppend now records r) a' ∧ refines (Some s', w') a'.
Proof.
  intros Hnow Hend H Hs. pose proof (serves_end _ _ _ Hs) as Hl. pose proof Hs as
    ([Hd Hm Hfm] & He & pc & pa & Hok & Hr & Hdur).
  destruct (decide (records = [])) as [->|Hne].
  { destruct (Append_refused now [] s (with_faults fl w)) as (e & w1 & Heq & HF); [by left|].
    rewrite Heq in H. injection H as <- <- <-. exists (Serving, l).
    split; [apply a_append_refused; by exists e|]. simpl. by rewrite HF. }
  assert (chain_durable (w_files w) (st_dir s) (st_earliestOffset s) pc pa (al_durable l)) as Hdur'
    by (by rewrite Hd, He).
  destruct (Store_Append_spec _ _ _ (with_faults fl w) _ _ _ pc pa Hok Hne Hend Hnow H) as (_ & Hcfg & Hres).
  assert (stamp (st_logEndOffset s) now records = stamp (al_end l) now records) as Hst by (by rewrite Hl).
  destruct Hcfg as [Hd1 _ Hm1 _ Hf1 _ He1].
  destruct Hres as [(_ & -> & -> & HF)|(_ & [(-> & Hl' & pc' & pa' & Hok' & Hr' & Hc1 & Hc2)|
    (e & -> & Hwf & _ & Hk)] & _)].
  - exists (Serving, l). split; [apply a_append_refused; by eexists|]. simpl. by rewrite HF.
  - rewrite blen_next_batch in *. rewrite Hr in Hr'. cbn [w_files with_faults] in *.
    set (d := if decide sync then al_end l + blen records else al_durable l).
    exists (Serving, al_append now records d l). rewrite Hl. split.
    + constructor; [|by unfold d; destruct (decide sync)|lia]. unfold d.
      destruct (decide sync); [|lia]. apply chain_durable_le in Hdur. rewrite Hr in Hdur.
      fold (al_end l) in Hdur. pose proof (blen_nonneg records). lia.
    + simpl. split; [by split; congruence|]. split; [simpl; congruence|]. exists pc', pa'.
      split; [done|]. split; [rewrite Hr'; unfold next_batch; by rewrite Hst|]. simpl. rewrite <- He, <- Hd.
      unfold d. destruct (decide sync) as [Hsy|Hsy]; [|by apply Hc1].
      rewrite <- Hfm in Hsy. specialize (Hc2 Hsy _ Hdur'). rewrite Hr', blen_app, He in Hc2.
      rewrite blen_next_batch, Z.add_assoc in Hc2. by rewrite He.
  - cbn [w_files with_faults] in *. destruct Hk as [Hk|Hk];
      destruct Hk as (pc' & pa' & lost & tail & Hdk & Hr' & Hc); rewrite Hr in Hr';
      apply Hc in Hdur'; rewrite Hd, Hm, He in Hdk; rewrite Hd, He in Hdur'.
    + exists (Failed, l). split; [apply a_append_failed; by eexists|]. split; [done|].
      left. by exists pc', pa', lost, tail.
    + exists (Failed, al_append now records (al_durable l) l). split.
      { apply a_append_unknown; [by eexists|lia]. }
      split; [done|]. left. exists pc', pa', lost, tail. split; [done|].
      split; [rewrite Hr'; unfold next_batch; by rewrite Hst|done].
Qed.

(** *** Read *)

Lemma read_serving s w fl offset maxBytes r s' w' l :
  Store_Read offset maxBytes (s, with_faults fl w) = (r, (s', w')) → serves (w_files w) s l →
  ∃ a', astep sync (Serving, l) (CRead offset maxBytes r) a' ∧ refines (Some s', w') a'.
Proof.
  intros H Hs. pose proof (serves_end _ _ _ Hs) as Hl.
  pose proof Hs as (_ & He & pc & pa & Hok & Hr & _). exists (Serving, l).
  destruct (Z.le_gt_cases maxBytes 0) as [Hle|Hpos].
  { destruct (Read_refused offset maxBytes s (with_faults fl w)) as (e & w1 & Heq & HF); [by left|].
    rewrite Heq in H. injection H as <- <- <-.
    split; [apply a_read_refused; by exists e|]. simpl. by rewrite HF. }
  destruct (Store_Read_spec _ _ _ (with_faults fl w) _ _ _ pc pa Hok Hpos H)
    as (-> & _ & HF & Hres). simpl. rewrite HF. split; [|done].
  destruct Hres as [(_ & ->)|(Hrange & [-> |[-> _]])]; [apply a_read_refused; by eexists| |
    apply a_read_refused; by eexists].
  rewrite Hr, He. apply a_read; [done|]. lia.
Qed.

(** *** Retention *)

Lemma retain_serving s w fl now maxAge maxP r s' w' l :
  disk_bytes (w_files w) (st_segments s) < two63 →
  Store_ApplyRetention now maxAge maxP (s, with_faults fl w) = (r, (s', w')) →
  serves (w_files w) s l →
  ∃ a', astep sync (Serving, l) (CRetain now maxAge maxP r) a' ∧ refines (Some s', w') a'.
Proof.
  intros Hsz H ([Hd Hm Hf] & He & pc & pa & Hok & Hr & Hdur).
  destruct (ApplyRetention_spec _ _ _ _ (with_faults fl w) _ _ _ _ _ Hok Hsz H)
    as (_ & k1 & k2 & Hret & _). set (k := (k1 + k2)%nat) in Hret.
  cbn [w_files with_faults] in *.
  assert (chain_durable (w_files w) (st_dir s) (st_earliestOffset s) pc pa (al_durable l)) as Hdur'
    by (by rewrite Hd, He).
  pose proof (retained_durable _ _ _ _ _ _ _ _ Hok Hret Hdur') as Hdur2.
  destruct Hret as [Hok' Hle _ _ He' _ Hc].
  set (n := length (concat (concat (take k pc)))).
  assert (n <= length (al_records l))%nat as Hn.
  { rewrite <- Hr. unfold store_records, n. rewrite <- (take_drop k pc) at 2.
    rewrite !concat_app, !length_app. lia. }
  assert (al_first l + Z.of_nat n = st_earliestOffset s') as Hfirst.
  { rewrite He', He. unfold n, blen. lia. }
  exists (Serving, al_drop n l). split; [apply a_retain; [done|by right]|].
  destruct Hc as [Hcd _ Hcm _ Hcf]. simpl. split; [split; congruence|]. split; [simpl; lia|].
  exists (drop k pc), pa. split; [done|]. simpl. rewrite Hfirst.
  split; [by rewrite <- Hr, store_records_drop|]. by rewrite <- Hd.
Qed.

(** *** Close *)

Lemma close_step n s w fl r s' w' p l :
  n = (Some s, w) → refines n (p, l) → Store_Close (s, with_faults fl w) = (r, (s', w')) →
  ∃ a', astep sync (p, l) (CClose r) a' ∧ refines (Some s', w') a'.
Proof.
  intros -> Href H. destruct (Store_Close_spec _ _ _ _ _ H) as (Hc & HD & HG & Hr).
  pose proof (refines_stored _ _ Href) as Hst. cbn [fst snd] in Hst.
  assert (stored (w_files w') l) as Hst' by (eapply holds_data; [done|by intros ?|done]).
  assert (p ≠ Down) as Hp by (intros ->; done).
  destruct Hr as [-> |Hf].
  2:{ exists (Closed, l). split; [by apply a_close_failed|done]. }
  destruct p; try done; try (exists (Closed, l); split; [apply a_close; by auto|done]).
  exists (Closed, al_flush l). split; [apply a_close_flushed|]. split; [done|].
  destruct Href as ([Hd Hm Hfm] & He & pc & pa & Hok & Hrec & Hdur). cbn [snd] in *.
  rewrite <- Hd, <- He in Hdur.
  pose proof (Store_Close_durable s (with_faults fl w) _ _ _ _ _ Hok H Hdur) as Hd'.
  left. exists pc, pa, [], []. simpl. rewrite <- Hd, <- He, <- Hm, <- Hrec.
  split; [|split; [done|]].
  - eapply disk_ok_data; [by apply store_ok_disk|by intros ?].
  - unfold al_end. by rewrite <- He, <- Hrec.
Qed.

(** *** Crash and OpenStore *)

Lemma crash_step n w F' a :
  w = snd n → refines n a → crashed (w_files w) F' →
  ∃ a', astep sync a CCrash a' ∧ refines (None, set_files F' w) a'.
Proof.
  intros -> Href Hcr. destruct a as [p l]. pose proof (refines_stored _ _ Href) as Hst.
  destruct (crash_holds _ _ _ _ _ _ _ Hst Hcr) as (k & Hk & Hd & Hh).
  exists (Down, al_crash k l). split; [by apply a_crash|done].
Qed.

Lemma open_step w fl r w' l :
  stored (w_files w) l → OpenStore dir segMax maxB interval mode (with_faults fl w) = (r, w') →
  ∃ a', astep sync (Down, l) (COpen (is_ok r)) a'
    ∧ refines (match r with Ok s => Some s | _ => None end, w') a'.
Proof.
  intros Hst H.
  destruct (OpenStore_runs _ _ _ interval mode _ _ _ (with_faults fl w) Hst maxB_small segMax_small
    _ _ H) as (_ & [(s & -> & Hrec)|(-> & _ & Hh)]).
  - destruct Hrec as ((pc & pa & Hok & Hr & Hdur) & He & _ & Hd & _ & Hm & _ & Hf).
    exists (Serving, l). split; [constructor|]. simpl. split; [by split|]. split; [done|].
    exists pc, pa. done.
  - exists (Down, l). split; [constructor|done].
Qed.

(** ** Refinement *)

(** A store that refuses everything. *)
Lemma refused_step s w c n' p l :
  pstep (Some s, w) c n' → p = Failed ∨ p = Closed → refines (Some s, w) (p, l) →
  ∃ a', astep sync (p, l) c a' ∧ refines n' a'.
Proof.
  intros Hst Hp Href.
  assert (st_closed s = true ∨ st_writeFailed s = true) as Hre
    by (destruct Hp as [-> | ->], Href as [? _]; auto).
  assert (∀ w', w_files w' = w_files w → refines (Some s, w') (p, l)) as Hsame
    by (intros w' HF; destruct Hp as [-> | ->]; simpl in *; by rewrite HF).
  inversion Hst as [? ? fl now records r s' w' _ _ H|? ? fl offset maxBytes r s' w' H
    |? ? fl now maxAge maxP r s' w' _ H|? ? fl r s' w' H| |? ? F' Hcr|]; subst.
  - exists (p, l). destruct (Append_refused now records s (with_faults fl w)) as (e & w1 & Heq & HF); [tauto|].
    rewrite Heq in H. injection H as <- <- <-.
    split; [apply a_append_refused; by exists e|by apply Hsame].
  - exists (p, l). destruct (Read_refused offset maxBytes s (with_faults fl w)) as (e & w1 & Heq & HF); [tauto|].
    rewrite Heq in H. injection H as <- <- <-.
    split; [apply a_read_refused; by exists e|by apply Hsame].
  - exists (p, l). rewrite Retention_refused in H by done. injection H as <- <- <-.
    split; [|by apply Hsame]. rewrite <- (al_drop_0 l) at 2. apply a_retain; [lia|by left].
  - exact (close_step _ _ _ _ _ _ _ _ _ eq_refl Href H).
  - exists (Down, l). split; [apply a_stop; by destruct Hp as [-> | ->]|].
    by apply refines_stored in Href.
  - exact (crash_step _ _ _ _ eq_refl Href Hcr).
Qed.

Lemma simulation n c n' a :
  pstep n c n' → refines n a → ∃ a', astep sync a c a' ∧ refines n' a'.
Proof.
  intros Hst Href. destruct a as [p l].
  destruct n as [[s|] w]; destruct p; try done.
  - inversion Hst as [| | |? ? fl r s' w' H| |? ? F' Hcr|]; subst.
    + by eapply append_serving.
    + by eapply read_serving.
    + by eapply retain_serving.
    + exact (close_step _ _ _ _ _ _ _ _ _ eq_refl Href H).
    + exists (Down, l). split; [by apply a_stop|]. by apply serves_stored in Href.
    + exact (crash_step _ _ _ _ eq_refl Href Hcr).
  - eapply refused_step; [exact Hst|by left|exact Href].
  - eapply refused_step; [exact Hst|by right|exact Href].
  - inversion Hst as [| | | | |? ? F' Hcr|? fl r w' H]; subst.
    + exact (crash_step _ _ _ _ eq_refl Href Hcr).
    + exact (open_step _ _ _ _ _ Href H).
Qed.

Lemma simulation_steps n tr n' a :
  psteps n tr n' → refines n a → ∃ a', asteps sync a tr a' ∧ refines n' a'.
Proof.
  intros Hs. revert a. induction Hs as [|n c m tr k Hst Hs IH]; intros a Href.
  - exists a. split; [constructor|done].
  - destruct (simulation _ _ _ _ Hst Href) as (b & Hb & Href').
    destruct (IH _ Href') as (d & Hd & Href''). exists d. split; [by econstructor|done].
Qed.
End Node.

Lemma disk_chain_contiguous F dir maxB e pc m :
  disk_chain F dir maxB e pc m → contiguous e (concat (concat pc)).
Proof.
  revert e. induction pc as [|bs pc IH]; intros e; simpl; [intros _; apply contiguous_nil|].
  intros (Hs & _ & Hc%IH). rewrite concat_app. apply contiguous_app. split; [by destruct Hs|done].
Qed.

Lemma holds_wf F dir maxB e recs d : holds F dir maxB e recs d → al_wf (mkAlog e recs d).
Proof.
  intros [(pc & pa & lost & tail & [(m & Hc & Ha & _) _] & <- & _)|(_ & -> & -> & _)].
  2:{ split; [apply contiguous_nil|done]. }
  pose proof (disk_chain_end _ _ _ _ _ _ Hc) as Hm. split; simpl.
  - unfold store_records. rewrite concat_app. apply contiguous_app.
    split; [by eapply disk_chain_contiguous|]. unfold active_base in Hm. rewrite <- Hm.
    by destruct Ha.
  - destruct pc as [|bs pc]; [simpl in Hc; subst; by destruct Ha|]. destruct Hc as [Hs _]. by destruct Hs.
Qed.

(** ** Properties *)


(** An acknowledged append survives. In sync mode, once Append has returned the
    offsets [base, last], every later successful read returns, at these offsets,
    exactly the records that were appended - whatever appends, failures, crashes,
    restarts and retention runs came before, in between or after; and a read that
    starts at one of these offsets does not come back empty. *)
Theorem acknowledged_append_survives dir segMax maxB interval mode e recs d w tr1 now records
    base last tr2 offset maxBytes out n :
  maxB < two31 → segMax < two63 → ToLower mode = "sync"%string →
  holds (w_files w) dir maxB e recs d →
  psteps dir segMax maxB interval mode (None, w)
    (tr1 ++ CAppend now records (Ok (base, last)) :: tr2 ++ [CRead offset maxBytes (Ok out)]) n →
  (∀ i r, out !! i = Some r → base <= offset + Z.of_nat i <= last →
     stamp base now records !! Z.to_nat (offset + Z.of_nat i - base) = Some r)
  ∧ (base <= offset <= last → out ≠ []).
Proof.
  intros Hmb Hsm Hsync Hh Hs. pose proof (holds_wf _ _ _ _ _ _ Hh) as Hwf.
  destruct (simulation_steps _ _ _ interval mode Hmb Hsm _ _ _ (Down, mkAlog e recs d) Hs Hh)
    as (a & Ha & _).
  apply asteps_app_inv in Ha as (m & H1 & H2). apply al_wf_steps in H1; [|done].
  exact (acknowledged_read _ _ _ _ _ _ _ _ _ _ _ Hsync H1 H2).
Qed.

(** C10: OpenStore recovers. On files that hold the records [recs] from offset [e] on
    - closed segments, an active segment that may end in part of a batch, index files
    that may be missing, torn, or ahead of the log - it returns a well-formed store
    with exactly these records, or an injected failure makes it return an I/O error
    and the files still hold them; it never panics and never reports corruption.
    Without failures it succeeds. *)
Theorem OpenStore_recovers dir segMax maxB interval mode e recs d w :
  holds (w_files w) dir maxB e recs d → maxB < two31 → segMax < two63 →
  ∃ r w', OpenStore dir segMax maxB interval mode w = (r, w')
  ∧ ((∃ s, r = Ok s ∧ recovered_store (w_files w') s dir segMax maxB interval mode e recs d)
     ∨ (r = Err ErrIO ∧ w_faults w ≠ [] ∧ holds (w_files w') dir maxB e recs d)).
Proof.
  intros Hh Hmb Hsm. destruct (OpenStore dir segMax maxB interval mode w) as [r w'] eqn:E.
  exists r, w'. split; [done|].
  by destruct (OpenStore_runs _ _ _ interval mode _ _ _ _ Hh Hmb Hsm _ _ E) as (_ & ?).
Qed.

Lemma clock_of_step dir segMax maxB interval mode n c m :
  pstep dir segMax maxB interval mode n c m → typed_clock c.
Proof. destruct 1; simpl; try done. lia. Qed.

Lemma clock_of_steps dir segMax maxB interval mode n tr m :
  psteps dir segMax maxB interval mode n tr m → Forall typed_clock tr.
Proof. induction 1; constructor; eauto using clock_of_step. Qed.


(** *** A concrete run: open an empty directory, append, crash, reopen, read. *)

Definition run_world : World := mkWorld ∅ ∅ [] [].
Definition run_open : res Store * World := OpenStore demo_dir 1048576 65536 4096 "Sync" run_world.
Definition run_store (r : res Store) : Store :=
  match r with Ok s => s | _ => demo_store "sync" end.
Definition run_append : res (Z * Z) * (Store * World) :=
  Store_Append 1700000000000 demo_records (run_store (fst run_open), snd run_open).
Definition run_crashed : World := snd (snd run_append).
Definition run_reopen : res Store * World := OpenStore demo_dir 1048576 65536 4096 "Sync" run_crashed.
Definition run_read : res (list StoredRecord) * (Store * World) :=
  Store_Read 0 65536 (run_store (fst run_reopen), snd run_reopen).

Lemma run_world_holds : holds (w_files run_world) demo_dir 65536 0 [] 0.
Proof. right. split; [|done]. intros b _. split; apply lookup_empty. Qed.

Lemma with_no_faults w : w_faults w = [] → with_faults [] w = w.
Proof. intros H. destruct w. simpl in *. by subst. Qed.

Lemma pairs_eta {A B C} (x : A * (B * C)) : x = (fst x, (fst (snd x), snd (snd x))).
Proof. by destruct x as [? [? ?]]. Qed.

Lemma run_trace :
  psteps demo_dir 1048576 65536 4096 "Sync" (None, run_world)
    ([COpen true] ++ CAppend 1700000000000 demo_records (Ok (0, 1))
       :: [CCrash; COpen true] ++ [CRead 0 65536 (fst run_read)])
    (Some (fst (snd run_read)), snd (snd run_read)).
Proof.
  assert (fst run_open = Ok (run_store (fst run_open))) as H1 by (vm_compute; reflexivity).
  assert (fst run_append = Ok (0, 1)) as H2 by (vm_compute; reflexivity).
  assert (fst run_reopen = Ok (run_store (fst run_reopen))) as H3 by (vm_compute; reflexivity).
  assert (w_faults (snd run_open) = []) as F1 by (vm_compute; reflexivity).
  assert (w_faults run_crashed = []) as F2 by (vm_compute; reflexivity).
  assert (w_faults (snd run_reopen) = []) as F3 by (vm_compute; reflexivity).
  assert (map_Forall (fun _ f => fsynced f = length (fdata f)) (w_files run_crashed)) as Hsy.
  { apply (bool_decide_unpack (map_Forall (fun (_ : path) f => fsynced f = length (fdata f))
      (w_files run_crashed))). vm_compute. exact I. }
  cbn [app].
  econstructor; [apply (p_open _ _ _ _ _ run_world [] (Ok (run_store (fst run_open))) (snd run_open))|].
  { rewrite <- H1, (with_no_faults run_world eq_refl). exact (surjective_pairing run_open). }
  econstructor; [eapply (p_append _ _ _ _ _ _ _ [] _ _ _ (fst (snd run_append)) run_crashed)|].
  { lia. }
  { vm_compute. done. }
  { rewrite (with_no_faults _ F1), <- H2. exact (pairs_eta run_append). }
  econstructor; [apply (p_crash _ _ _ _ _ _ _ (w_files run_crashed)); by apply crashed_nothing|].
  replace (set_files (w_files run_crashed) run_crashed) with run_crashed by (by destruct run_crashed).
  econstructor; [apply (p_open _ _ _ _ _ run_crashed [] (Ok (run_store (fst run_reopen))) (snd run_reopen))|].
  { rewrite <- H3, (with_no_faults _ F2). exact (surjective_pairing run_reopen). }
  econstructor; [eapply (p_read _ _ _ _ _ _ _ [])|constructor].
  rewrite (with_no_faults _ F3). exact (pairs_eta run_read).
Qed.


Lemma acknowledged_append_survives_witness :
  ∃ out, fst run_read = Ok out ∧ out ≠ []
  ∧ ∀ i r, out !! i = Some r → 0 <= 0 + Z.of_nat i <= 1 →
      stamp 0 1700000000000 demo_records !! Z.to_nat (0 + Z.of_nat i - 0) = Some r.
Proof.
  assert (is_ok (fst run_read) = true) as Hok by (vm_compute; reflexivity).
  pose proof run_trace as Htr. destruct (fst run_read) as [out|e|]; [|discriminate Hok..].
  destruct (acknowledged_append_survives demo_dir 1048576 65536 4096 "Sync" 0 [] 0 run_world
    [COpen true] 1700000000000 demo_records 0 1 [CCrash; COpen true] 0 65536 out _
    ltac:(lia) ltac:(lia) eq_refl run_world_holds Htr) as [H1 H2].
  exists out. split; [done|]. split; [apply H2; lia|done].
Defined.

Lemma OpenStore_recovers_witness :
  ∃ s w', OpenStore demo_dir 1048576 65536 4096 "Sync" run_world = (Ok s, w')
    ∧ st_logEndOffset s = 0.
Proof.
  destruct (OpenStore_recovers demo_dir 1048576 65536 4096 "Sync" 0 [] 0 run_world
    run_world_holds ltac:(lia) ltac:(lia)) as (r & w' & E & [(s & -> & Hrec)|(_ & Hf & _)]); [|done].
  exists s, w'. split; [exact E|]. destruct Hrec as (_ & _ & Hl & _). exact Hl.
Defined.

