(* ===== verification/Utf8.v ===== *)
(** * unicode/utf8.ValidString

    The check the offset store makes on group and topic names. *)

From S2P Require Import Prelude.
From Stdlib Require Import Init.Byte.

Definition in_range (lo hi : Z) (b : byte) : bool :=
  (lo <=? Z_of_byte b) && (Z_of_byte b <=? hi).

(** A continuation byte. *)
Definition cont (b : byte) : bool := in_range 128 191 b.

(** The accepted range of the second byte of a three-byte sequence. *)
Definition second3 (b0 b1 : byte) : bool :=
  if Z_of_byte b0 =? 224 then in_range 160 191 b1
  else if Z_of_byte b0 =? 237 then in_range 128 159 b1 else cont b1.

(** The same for a four-byte sequence. *)
Definition second4 (b0 b1 : byte) : bool :=
  if Z_of_byte b0 =? 240 then in_range 144 191 b1
  else if Z_of_byte b0 =? 244 then in_range 128 143 b1 else cont b1.

(** [utf8.ValidString]: no overlong forms, no surrogates, nothing above U+10FFFF. *)
Fixpoint ValidString (s : bytes) : bool :=
  match s with
  | [] => true
  | b0 :: s =>
    if Z_of_byte b0 <? 128 then ValidString s
    else if in_range 194 223 b0 then
      match s with
      | b1 :: s => cont b1 && ValidString s
      | _ => false
      end
    else if in_range 224 239 b0 then
      match s with
      | b1 :: b2 :: s => second3 b0 b1 && cont b2 && ValidString s
      | _ => false
      end
    else if in_range 240 244 b0 then
      match s with
      | b1 :: b2 :: b3 :: s => second4 b0 b1 && cont b2 && cont b3 && ValidString s
      | _ => false
      end
    else false
  end.

(** ASCII text is valid. *)
Lemma ValidString_ascii s : Forall (fun b => Z_of_byte b < 128) s → ValidString s = true.
Proof.
  induction 1 as [|b s Hb H IH]; [done|]. cbn [ValidString].
  by rewrite (proj2 (Z.ltb_lt _ _) Hb).
Qed.
