(* ===== verification/Offsets.v ===== *)
(** * The consumer-offset store (internal/offsets/store.go)

    An append-only log of framed entries and a map from (group, topic,
    partition) to the next offset. Go strings are byte sequences. *)

From S2P Require Import Prelude Crc32 Utf8 FileSystem.
From Stdlib Require Import Init.Byte.

(** ** Data *)

Definition OffsetPrefixSize : Z := 9.
Definition OffsetMinRemainder : Z := 32.
Definition MaxConsumerGroupBytes : Z := 255.
Definition MaxTopicNameBytes : Z := 255.
Definition MaxOffsetEntryBytes : Z := 1024.

(** "OFFS" *)
Definition OffsetMagic : bytes := [x4f; x46; x46; x53].

Record Key := mkKey {
  Group : bytes;
  Topic : bytes;
  Partition : Z;
}.

#[global] Instance Key_eq_dec : EqDecision Key.
Proof. solve_decision. Defined.

#[global] Instance byte_countable : Countable byte.
Proof.
  refine (inj_countable' Byte.to_N (fun n => match Byte.of_N n with Some b => b | None => x00 end) _).
  intros b. by rewrite Byte.of_to_N.
Defined.

#[global] Instance Key_countable : Countable Key.
Proof.
  refine (inj_countable' (fun k => (Group k, Topic k, Partition k))
            (fun '(g, t, p) => mkKey g t p) _).
  by intros [].
Defined.

Record OffsetStore := mkOffsetStore {
  os_filePath : path;
  os_offsets : gmap Key Z;
  os_size : Z;
  os_closed : bool;
  os_writeFailed : bool;
}.

Definition os_with_offsets (m : gmap Key Z) (s : OffsetStore) : OffsetStore :=
  mkOffsetStore (os_filePath s) m (os_size s) (os_closed s) (os_writeFailed s).
Definition os_with_size (n : Z) (s : OffsetStore) : OffsetStore :=
  mkOffsetStore (os_filePath s) (os_offsets s) n (os_closed s) (os_writeFailed s).
Definition os_with_closed (b : bool) (s : OffsetStore) : OffsetStore :=
  mkOffsetStore (os_filePath s) (os_offsets s) (os_size s) b (os_writeFailed s).
Definition os_with_writeFailed (b : bool) (s : OffsetStore) : OffsetStore :=
  mkOffsetStore (os_filePath s) (os_offsets s) (os_size s) (os_closed s) b.

(** ** Recovery *)

(** Lines 150-211: checksum and fields of one complete entry; [frame] is what
    follows the prefix. *)
Definition decode_entry (entryLength : Z) (frame : bytes) : res (Key * Z) :=
  let corrupt := Err ErrCorruptOffsetLog in
  let! expectedCRC := Uint32_at frame 0 in
  let! payload := slice frame 4 (blen frame) in
  let actualCRC := ChecksumIEEE payload in
  if negb (expectedCRC =? actualCRC) then corrupt else
  let cursor := 0 in
  if u32 (u32 (blen payload) - cursor) <? 4 then corrupt else
  let! groupLen := Uint32_at payload cursor in
  let cursor := cursor + 4 in
  if (groupLen =? 0) || (MaxConsumerGroupBytes <? groupLen) then corrupt else
  if u32 (u32 (blen payload) - cursor) <? groupLen then corrupt else
  let! group := slice payload cursor (u32 (cursor + groupLen)) in
  let cursor := u32 (cursor + groupLen) in
  if negb (ValidString group) then corrupt else
  if u32 (u32 (blen payload) - cursor) <? 4 then corrupt else
  let! topicLen := Uint32_at payload cursor in
  let cursor := u32 (cursor + 4) in
  if (topicLen =? 0) || (MaxTopicNameBytes <? topicLen) then corrupt else
  if u32 (u32 (blen payload) - cursor) <? topicLen then corrupt else
  let! topic := slice payload cursor (u32 (cursor + topicLen)) in
  let cursor := u32 (cursor + topicLen) in
  if negb (ValidString topic) then corrupt else
  let expectedEntryLen := u32 (OffsetMinRemainder + groupLen + topicLen) in
  if negb (entryLength =? expectedEntryLen) then corrupt else
  if negb (u32 (u32 (blen payload) - cursor) =? 20) then corrupt else
  let! partition := Uint32_at payload cursor in
  let! nextOffset := Uint64_at payload (cursor + 4) in
  Ok (mkKey group topic partition, nextOffset).

Definition truncateAndSync (size : Z) : M (OffsetStore * World) unit :=
  let* s := get_obj in
  do* io (fs_truncate (os_filePath s) size) in
  io (fs_sync (os_filePath s)).

(** A full [ReadAt]: io.EOF is an error of the caller. *)
Definition read_full (p : path) (n pos : Z) : M World bytes :=
  let* got := fs_read_at p n pos in
  if blen got <? n then fail ErrEOF else ret got.

(** Lines 103-215: the loop of [recover]; the result is [validSize]. An
    iteration consumes an entry of more than 32 bytes, so the size of the file
    is enough fuel. *)
Fixpoint recover_offsets (fuel : nat) (fileSize pos validSize : Z)
    : M (OffsetStore * World) Z :=
  if fileSize <=? pos then ret validSize else
  match fuel with
  | O => fail (Errorf "out of fuel")
  | S fuel =>
    let* s := get_obj in
    if fileSize - pos <? OffsetPrefixSize then
      do* truncateAndSync pos in ret validSize
    else
    let* prefixBuf := io (read_full (os_filePath s) OffsetPrefixSize pos) in
    let* magic := lift_res (slice prefixBuf 0 4) in
    let* version := lift_res (slice prefixBuf 4 5) in
    let* entryLength := lift_res (Uint32_at prefixBuf 5) in
    if bool_decide (magic ≠ OffsetMagic) || bool_decide (version ≠ [x01])
    then fail ErrCorruptOffsetLog else
    if entryLength <? OffsetMinRemainder then fail ErrCorruptOffsetLog else
    if MaxOffsetEntryBytes <? entryLength then fail ErrCorruptOffsetLog else
    let entryEnd := pos + OffsetPrefixSize + entryLength in
    if fileSize <? entryEnd then
      do* truncateAndSync pos in ret validSize
    else
    let* frame := io (read_full (os_filePath s) entryLength (pos + OffsetPrefixSize)) in
    let* (key, nextOffset) := lift_res (decode_entry entryLength frame) in
    do* modify (fun s => os_with_offsets (<[key := nextOffset]> (os_offsets s)) s) in
    recover_offsets fuel fileSize entryEnd entryEnd
  end.

Definition offsets_recover : M (OffsetStore * World) unit :=
  let* s := get_obj in
  let* fileSize := io (fs_stat (os_filePath s)) in
  let* validSize := recover_offsets (Z.to_nat fileSize) fileSize 0 0 in
  modify (os_with_size validSize).

(** [OpenStore(dir/name)]. *)
Definition Offsets_OpenStore (dir : path) (name : string) : M World OffsetStore :=
  let p := dir ++ [name] in
  do* fs_mkdir_all dir in
  do* fs_open_create p in
  fun w =>
    let '(r, (s, w)) := on_err offsets_recover (ignore (io (fs_close p)))
                          (mkOffsetStore p ∅ 0 false false, w) in
    (let! _ := r in Ok s, w).

(** ** Commit *)

(** Lines 252-283. *)
Definition encode_payload (group topic : bytes) (partition nextOffset now : Z) : res bytes :=
  let gl := blen group in
  let tl := blen topic in
  let payload := zeros (28 + gl + tl) in
  let! payload := PutUint32_at payload 0 (u32 gl) in
  let! payload := go_copy payload 4 (4 + gl) group in
  let off := 4 + gl in
  let! payload := PutUint32_at payload off (u32 tl) in
  let! payload := go_copy payload (off + 4) (off + 4 + tl) topic in
  let off := off + 4 + tl in
  let! payload := PutUint32_at payload off partition in
  let! payload := PutUint64_at payload (off + 4) nextOffset in
  PutUint64_at payload (off + 12) (u64 now).

Definition encode_entry (group topic : bytes) (partition nextOffset now : Z) : res bytes :=
  let entryLength := u32 (OffsetMinRemainder + blen group + blen topic) in
  let totalSize := u32 (OffsetPrefixSize + entryLength) in
  let encoded := zeros totalSize in
  let! encoded := go_copy encoded 0 4 OffsetMagic in
  let! encoded := go_copy encoded 4 5 [x01] in
  let! encoded := PutUint32_at encoded 5 entryLength in
  let! payload := encode_payload group topic partition nextOffset now in
  let! encoded := PutUint32_at encoded 9 (ChecksumIEEE payload) in
  go_copy encoded 13 totalSize payload.

(** The argument checks of lines 234-239. *)
Definition invalid_name (max : Z) (name : bytes) : bool :=
  (blen name =? 0) || (max <? blen name) || negb (ValidString name).

Definition os_mark_failed : M (OffsetStore * World) unit := modify (os_with_writeFailed true).

Definition Commit (now : Z) (group topic : bytes) (partition nextOffset : Z)
    : M (OffsetStore * World) unit :=
  if invalid_name MaxConsumerGroupBytes group then fail ErrInvalidArgument else
  if invalid_name MaxTopicNameBytes topic then fail ErrInvalidArgument else
  let* s := get_obj in
  if os_closed s then fail ErrOffsetStoreClosed else
  if os_writeFailed s then fail ErrOffsetStoreUnavailable else
  let* encoded := lift_res (encode_entry group topic partition nextOffset now) in
  do* on_err (io (fs_write_at (os_filePath s) encoded (os_size s))) os_mark_failed in
  do* on_err (io (fs_sync (os_filePath s))) os_mark_failed in
  modify (fun s => os_with_offsets (<[mkKey group topic partition := nextOffset]> (os_offsets s))
                     (os_with_size (os_size s + blen encoded) s)).

(** ** Get and Close *)

Definition Offsets_Get (s : OffsetStore) (group topic : bytes) (partition : Z)
    : res (option Z) :=
  if os_closed s then Err ErrOffsetStoreClosed else
  if os_writeFailed s then Err ErrOffsetStoreUnavailable else
  Ok (os_offsets s !! mkKey group topic partition).

Definition Offsets_Close : M (OffsetStore * World) unit :=
  let* s := get_obj in
  if os_closed s then ret tt else
  do* modify (os_with_closed true) in
  let* syncErr := if os_writeFailed s then ret (Ok tt)
                  else attempt (io (fs_sync (os_filePath s))) in
  let* closeErr := attempt (io (fs_close (os_filePath s))) in
  lift_res (match syncErr with Ok _ => closeErr | _ => syncErr end).
