(* ===== verification/OffsetsSpec.v ===== *)
(** * The consumer-offset store keeps every acknowledged commit

    The log file is the concatenation of the entries of the commits, and the map holds the
    last offset of every key; commits, recovery and crashes keep this. *)

From S2P Require Import Prelude Crc32 Utf8 FileSystem Runs Segment Offsets.
From Stdlib Require Import Init.Byte.

(** ** Reference encoding *)

(** A commit: the key, the next offset and the time of the call. *)
Record commit := mkCommit {
  c_key : Key;
  c_next : Z;
  c_now : Z;
}.

Record valid_name (max : Z) (n : bytes) : Prop := mkValidName {
  vn_nonempty : 0 < blen n;
  vn_max : blen n <= max;
  vn_utf8 : ValidString n = true;
}.

Record valid_commit (c : commit) : Prop := mkValidCommit {
  vc_group : valid_name MaxConsumerGroupBytes (Group (c_key c));
  vc_topic : valid_name MaxTopicNameBytes (Topic (c_key c));
  vc_partition : 0 <= Partition (c_key c) < two32;
  vc_next : 0 <= c_next c < two64;
}.

Definition names_size (c : commit) : Z := blen (Group (c_key c)) + blen (Topic (c_key c)).

Definition payload_bytes (c : commit) : bytes :=
  be_put 4 (blen (Group (c_key c))) ++ Group (c_key c)
  ++ be_put 4 (blen (Topic (c_key c))) ++ Topic (c_key c)
  ++ be_put 4 (Partition (c_key c)) ++ be_put 8 (c_next c) ++ be_put 8 (u64 (c_now c)).

Definition prefix_bytes (c : commit) : bytes :=
  OffsetMagic ++ [x01] ++ be_put 4 (OffsetMinRemainder + names_size c).
Definition frame_bytes (c : commit) : bytes :=
  be_put 4 (ChecksumIEEE (payload_bytes c)) ++ payload_bytes c.
Definition commit_bytes (c : commit) : bytes := prefix_bytes c ++ frame_bytes c.

Lemma valid_sizes c :
  valid_commit c → 0 < blen (Group (c_key c)) <= 255 ∧ 0 < blen (Topic (c_key c)) <= 255.
Proof. by intros [[] [] _ _]. Qed.

Lemma blen_payload c : blen (payload_bytes c) = 28 + names_size c.
Proof. unfold payload_bytes, names_size. blen_lia. Qed.
Lemma blen_prefix_bytes c : blen (prefix_bytes c) = 9.
Proof. unfold prefix_bytes. rewrite !blen_app, blen_be_put. done. Qed.
Lemma blen_frame c : blen (frame_bytes c) = 32 + names_size c.
Proof. unfold frame_bytes. rewrite blen_app, blen_payload, blen_be_put. lia. Qed.
Lemma blen_commit_bytes c : blen (commit_bytes c) = 41 + names_size c.
Proof. unfold commit_bytes. rewrite blen_app, blen_prefix_bytes, blen_frame. lia. Qed.
Lemma names_size_nonneg c : 0 <= names_size c.
Proof. unfold names_size. blen_lia. Qed.

(** One write into the zeroed rest of a buffer. *)
Lemma put_zeros w s k lo hi b :
  b = w ++ zeros k → lo = blen w → hi = lo + blen s → blen s <= k →
  go_copy b lo hi s = Ok ((w ++ s) ++ zeros (k - blen s)).
Proof. intros ->. apply go_copy_zeros. Qed.

Ltac put_step :=
  erewrite put_zeros; [cbn [rbind]|reflexivity|..];
  [|rewrite ?blen_app, ?blen_be_put, ?blen_cons, ?blen_nil; try lia..].

(** The buffer is full. *)
Ltac put_done :=
  match goal with
  | |- context [zeros ?k] =>
      replace k with 0 by (rewrite ?blen_be_put, ?blen_cons, ?blen_nil; lia);
      change (zeros 0) with (@nil byte); rewrite app_nil_r
  end.

Lemma encode_payload_bytes c :
  valid_commit c →
  encode_payload (Group (c_key c)) (Topic (c_key c)) (Partition (c_key c)) (c_next c) (c_now c)
  = Ok (payload_bytes c).
Proof.
  intros Hv. destruct (valid_sizes c Hv) as [Hg Ht]. unfold encode_payload.
  rewrite (u32_small (blen (Group _))), (u32_small (blen (Topic _))) by lia.
  unfold PutUint32_at, PutUint64_at.
  change (zeros (28 + blen (Group (c_key c)) + blen (Topic (c_key c))))
    with ([] ++ zeros (28 + blen (Group (c_key c)) + blen (Topic (c_key c)))).
  do 7 put_step. f_equal. put_done. unfold payload_bytes. by rewrite <- !app_assoc.
Qed.

Lemma encode_entry_bytes c :
  valid_commit c →
  encode_entry (Group (c_key c)) (Topic (c_key c)) (Partition (c_key c)) (c_next c) (c_now c)
  = Ok (commit_bytes c).
Proof.
  intros Hv. destruct (valid_sizes c Hv) as [Hg Ht]. unfold encode_entry.
  pose proof (encode_payload_bytes c Hv) as Hp. pose proof (blen_payload c) as Hpl.
  unfold OffsetMinRemainder, OffsetPrefixSize, names_size in *.
  rewrite (u32_small (32 + _ + _)) by lia. rewrite (u32_small (9 + _)) by lia.
  change (zeros (9 + (32 + blen (Group (c_key c)) + blen (Topic (c_key c)))))
    with ([] ++ zeros (9 + (32 + blen (Group (c_key c)) + blen (Topic (c_key c))))).
  assert (blen OffsetMagic = 4) as Hm by done. unfold PutUint32_at.
  do 3 put_step. rewrite Hp. cbn [rbind]. put_step.
  put_step; rewrite ?Hm, ?Hpl; try lia. f_equal. put_done.
  unfold commit_bytes, prefix_bytes, frame_bytes, OffsetMinRemainder, names_size.
  rewrite Z.add_assoc. by rewrite <- !app_assoc.
Qed.

(** ** Decoding an entry *)

Lemma slice_suffix p q : slice (p ++ q) (blen p) (blen (p ++ q)) = Ok q.
Proof.
  pose proof (slice_app_r p q [] (blen p) (blen (p ++ q)) eq_refl) as H.
  rewrite app_nil_r in H. apply H. blen_lia.
Qed.

(** Removes the wrap-around of small values, innermost first. *)
Ltac u32_simpl :=
  repeat match goal with
  | |- context [u32 ?z] =>
      lazymatch z with context [u32 _] => fail | _ => rewrite (u32_small z) by lia end
  end.
(** Decides the comparison on which the program branches next. *)
Ltac branch :=
  match goal with
  | |- context [if ?x <? ?y then _ else _] => destruct (Z.ltb_spec x y); [lia|]
  | |- context [if (?x =? 0) || (?y <? ?z) then _ else _] =>
      destruct (Z.eqb_spec x 0); [lia|]; destruct (Z.ltb_spec y z); [lia|]; cbn [orb]
  | |- context [if negb (?x =? ?y) then _ else _] =>
      destruct (Z.eqb_spec x y); [cbn [negb]|lia]
  end.

Lemma decode_entry_frame c :
  valid_commit c →
  decode_entry (OffsetMinRemainder + names_size c) (frame_bytes c) = Ok (c_key c, c_next c).
Proof.
  intros Hv. pose proof (valid_sizes c Hv) as [Hg Ht].
  destruct c as [[g t p] n now]. destruct Hv as [[_ _ Hug] [_ _ Hut] Hpart Hnext].
  pose proof (blen_payload (mkCommit (mkKey g t p) n now)) as Hpl.
  unfold decode_entry, frame_bytes. set (pl := payload_bytes _) in *.
  unfold OffsetMinRemainder, MaxConsumerGroupBytes, MaxTopicNameBytes, names_size in *.
  cbn [Group Topic Partition c_key c_next c_now] in *.
  pose proof (ChecksumIEEE_range pl) as Hcrc.
  change (Uint32_at (be_put 4 (ChecksumIEEE pl) ++ pl) 0)
    with (Uint32_at ([] ++ be_put 4 (ChecksumIEEE pl) ++ pl) 0).
  rewrite (Uint32_at_app [] pl), (u32_small (ChecksumIEEE pl)) by done. cbn [rbind].
  pose proof (slice_suffix (be_put 4 (ChecksumIEEE pl)) pl) as Hsl.
  rewrite blen_be_put in Hsl. change (Z.of_nat 4) with 4 in Hsl. rewrite Hsl. cbn [rbind].
  rewrite Z.eqb_refl. cbn [negb].
  assert (at_off pl 0 (be_put 4 (blen g) ++ g ++ be_put 4 (blen t) ++ t
    ++ be_put 4 p ++ be_put 8 n ++ be_put 8 (u64 now))) as Ha
    by (exists [], []; by rewrite app_nil_r).
  rewrite !at_off_app, !blen_be_put in Ha. change (Z.of_nat 4) with 4 in Ha.
  change (Z.of_nat 8) with 8 in Ha. destruct Ha as (H1 & H2 & H3 & H4 & H5 & H6 & _).
  rewrite Hpl. u32_simpl. branch.
  rewrite (at_off_Uint32 _ _ _ H1). cbn [rbind]. u32_simpl. do 2 branch.
  rewrite (at_off_slice _ _ _ _ H2) by lia. cbn [rbind]. rewrite Hug. cbn [negb]. u32_simpl.
  branch. rewrite (at_off_Uint32 _ _ _ H3). cbn [rbind]. u32_simpl. do 2 branch.
  rewrite (at_off_slice _ _ t) by (lia || at_off). cbn [rbind]. rewrite Hut. cbn [negb].
  u32_simpl. do 2 branch.
  rewrite (at_off_Uint32 _ _ p) by at_off. cbn [rbind].
  rewrite (at_off_Uint64 _ _ n) by at_off. cbn [rbind].
  by rewrite u32_small, u64_small by lia.
Qed.

(** ** Recovery *)

Definition log_bytes (cs : list commit) : bytes := concat (commit_bytes <$> cs).

(** The map after a sequence of commits: the last one of a key counts. *)
Definition apply_commits (m : gmap Key Z) (cs : list commit) : gmap Key Z :=
  fold_left (fun m c => <[c_key c := c_next c]> m) cs m.

(** Part of an entry that was being appended. *)
Definition torn_entry (tail : bytes) : Prop :=
  tail = [] ∨ ∃ c n, valid_commit c ∧ (n < length (commit_bytes c))%nat
                 ∧ tail = take n (commit_bytes c).

Lemma log_bytes_app cs1 cs2 : log_bytes (cs1 ++ cs2) = log_bytes cs1 ++ log_bytes cs2.
Proof. apply concat_fmap_app. Qed.
Lemma log_bytes_cons c cs : log_bytes (c :: cs) = commit_bytes c ++ log_bytes cs.
Proof. done. Qed.
Lemma log_bytes_one c : log_bytes [c] = commit_bytes c.
Proof. unfold log_bytes. simpl. by rewrite app_nil_r. Qed.

Lemma runs_read_full p n pos w (Q : bytes → World → Prop) (E : World → Prop) d x :
  data_at (w_files w) p = Some d → at_off d pos x → n = blen x →
  (∀ w', w_files w' = w_files w → Q x w') → (∀ w', w_files w' = w_files w → E w') →
  runs (read_full p n pos) w Q E.
Proof.
  intros Hd (y & z & -> & ->) -> HQ HE. apply data_at_Some in Hd as [k Hf].
  apply runs_bind. eapply runs_read_at; [exact Hf| |done]. intros w' HF. simpl.
  rewrite !blen_eq, !Nat2Z.id, drop_app_length, take_app_length.
  rewrite Z.ltb_irrefl. apply runs_ret. auto.
Qed.

Lemma truncateAndSync_runs s w keep tail Q E :
  data_at (w_files w) (os_filePath s) = Some (keep ++ tail) →
  (∀ w', trimmed (w_files w) (w_files w') (os_filePath s) keep → Q tt (s, w')) →
  (∀ w', trimmed (w_files w) (w_files w') (os_filePath s) keep
       ∨ trimmed (w_files w) (w_files w') (os_filePath s) (keep ++ tail) → E (s, w')) →
  runs (truncateAndSync (blen keep)) (s, w) Q E.
Proof.
  intros Hd HQ HE. apply data_at_Some in Hd as [k Hf]. unfold truncateAndSync.
  apply runs_bind, runs_get_obj, runs_bind, runs_io. eapply runs_truncate; [exact Hf|..].
  2:{ intros w' HF. apply HE. right. apply trimmed_refl; [|done].
      unfold data_at. by rewrite Hf. }
  intros w1 HF1. simpl in HF1. rewrite blen_eq, Nat2Z.id in HF1.
  replace (length keep - length (keep ++ tail))%nat with 0%nat in HF1
    by (rewrite length_app; lia).
  rewrite app_nil_r, take_app_length in HF1.
  assert (trimmed (w_files w) (w_files w1) (os_filePath s) keep) as Hb.
  { rewrite HF1. split; [by apply file_becomes_insert|]. intros f Hf'. rewrite Hf in Hf'.
    injection Hf' as <-. eexists _, (length keep). rewrite lookup_insert_eq.
    split; [done|]. simpl. split; [by rewrite take_app_length|lia]. }
  apply runs_io. eapply runs_sync.
  - by rewrite HF1, lookup_insert_eq.
  - intros w2 HF2. apply HQ. eapply trimmed_trans; [exact Hb|]. rewrite HF2.
    eapply trimmed_synced. by rewrite HF1, lookup_insert_eq.
  - intros w2 HF2. apply HE. left. by rewrite HF2.
Qed.

Lemma prefix_fields c :
  valid_commit c →
  slice (prefix_bytes c) 0 4 = Ok OffsetMagic ∧ slice (prefix_bytes c) 4 5 = Ok [x01]
  ∧ Uint32_at (prefix_bytes c) 5 = Ok (OffsetMinRemainder + names_size c).
Proof.
  intros Hv. destruct (valid_sizes c Hv) as [Hg Ht]. unfold prefix_bytes. split_and!.
  - by apply (slice_app_r []).
  - by apply (slice_app_r OffsetMagic).
  - pose proof (Uint32_at_app (OffsetMagic ++ [x01]) [] 5 (OffsetMinRemainder + names_size c)
      eq_refl) as Hu. rewrite app_nil_r, <- app_assoc in Hu. rewrite Hu. f_equal.
    unfold OffsetMinRemainder, names_size. rewrite u32_small; lia.
Qed.

(** The part of an iteration up to the check of the entry's end. *)
Lemma recover_prefix_runs c fuel s w d pos fileSize Q E :
  valid_commit c → data_at (w_files w) (os_filePath s) = Some d →
  at_off d pos (prefix_bytes c) → fileSize = blen d →
  (∀ w', w_files w' = w_files w → E (s, w')) →
  (∀ w', w_files w' = w_files w →
   let entryLength := OffsetMinRemainder + names_size c in
   let entryEnd := pos + OffsetPrefixSize + entryLength in
   runs (if fileSize <? entryEnd then
           bind (truncateAndSync pos) (fun _ => ret pos)
         else
           bind (io (read_full (os_filePath s) entryLength (pos + OffsetPrefixSize)))
             (fun frame => bind (lift_res (decode_entry entryLength frame))
               (fun '(key, nextOffset) =>
                 bind (modify (fun s => os_with_offsets (<[key := nextOffset]> (os_offsets s)) s))
                   (fun _ => recover_offsets fuel fileSize entryEnd entryEnd)))) (s, w') Q E) →
  runs (recover_offsets (S fuel) fileSize pos pos) (s, w) Q E.
Proof.
  intros Hv Hd Hat -> HE Hk. pose proof (at_off_bound _ _ _ Hat) as [H0 Hb].
  rewrite blen_prefix_bytes in Hb. destruct (valid_sizes c Hv) as [Hg Ht].
  destruct (prefix_fields c Hv) as (H1 & H2 & H3).
  cbn [recover_offsets]. destruct (Z.leb_spec (blen d) pos); [lia|].
  apply runs_bind, runs_get_obj. unfold OffsetPrefixSize at 1.
  destruct (Z.ltb_spec (blen d - pos) 9); [lia|].
  apply runs_bind, runs_io. eapply runs_read_full; [exact Hd|exact Hat|by rewrite blen_prefix_bytes| |done].
  intros w1 HF1. apply runs_bind. eapply runs_lift; [exact H1|].
  apply runs_bind. eapply runs_lift; [exact H2|]. apply runs_bind. eapply runs_lift; [exact H3|].
  rewrite !bool_decide_eq_false_2 by (intros Hx; by apply Hx). cbn [orb].
  unfold OffsetMinRemainder, MaxOffsetEntryBytes at 1, names_size at 1 2.
  destruct (Z.ltb_spec (32 + (blen (Group (c_key c)) + blen (Topic (c_key c)))) 32); [lia|].
  destruct (Z.ltb_spec 1024 (32 + (blen (Group (c_key c)) + blen (Topic (c_key c))))); [lia|].
  by apply Hk.
Qed.

Lemma recover_torn_runs fuel s w keep tail Q E :
  data_at (w_files w) (os_filePath s) = Some (keep ++ tail) → torn_entry tail →
  tail ≠ [] →
  (∀ w', trimmed (w_files w) (w_files w') (os_filePath s) keep → Q (blen keep) (s, w')) →
  (∀ w', trimmed (w_files w) (w_files w') (os_filePath s) keep
       ∨ trimmed (w_files w) (w_files w') (os_filePath s) (keep ++ tail) → E (s, w')) →
  runs (recover_offsets (S fuel) (blen (keep ++ tail)) (blen keep) (blen keep)) (s, w) Q E.
Proof.
  intros Hd [->|(c & n & Hc & Hn & Ht)] Hne HQ HE; [done|].
  assert (∀ w', w_files w' = w_files w → runs (bind (truncateAndSync (blen keep))
    (fun _ => ret (blen keep))) (s, w') Q E) as Htrunc.
  { intros w' HF. apply runs_bind. eapply truncateAndSync_runs; [by rewrite HF|..];
      rewrite HF; [|done]. intros w2 H2. apply runs_ret. auto. }
  pose proof (blen_app keep tail) as Hlen.
  assert (0 < blen tail) as Hpos by (destruct tail; [done|rewrite blen_cons; blen_lia]).
  destruct (Z.lt_ge_cases (blen tail) 9) as [Hshort|Hlong].
  - cbn [recover_offsets]. destruct (Z.leb_spec (blen (keep ++ tail)) (blen keep)); [lia|].
    apply runs_bind, runs_get_obj. unfold OffsetPrefixSize at 1.
    destruct (Z.ltb_spec (blen (keep ++ tail) - blen keep) 9); [by apply Htrunc|lia].
  - pose proof (blen_prefix_bytes c) as Hp. pose proof (blen_commit_bytes c) as Hcb.
    assert (∃ rest, tail = prefix_bytes c ++ rest) as [rest Hrest].
    { rewrite Ht. unfold commit_bytes. rewrite take_app_ge; [eauto|].
      rewrite Ht in Hlong. unfold blen in *. rewrite length_take in Hlong. lia. }
    eapply (recover_prefix_runs c); [done|exact Hd| |done| |].
    + rewrite Hrest. apply at_off_intro.
    + intros w' HF. apply HE. right. by apply trimmed_refl.
    + intros w' HF. unfold OffsetPrefixSize, OffsetMinRemainder. simpl.
      destruct (Z.ltb_spec (blen (keep ++ tail)) (blen keep + 9 + (32 + names_size c)));
        [by apply Htrunc|]. exfalso. rewrite Hlen in *.
      assert (blen tail < blen (commit_bytes c)); [|lia].
      rewrite Ht. unfold blen. rewrite length_take. lia.
Qed.

Lemma recover_offsets_runs cs2 cs1 fuel s w tail :
  data_at (w_files w) (os_filePath s) = Some (log_bytes (cs1 ++ cs2) ++ tail) →
  Forall valid_commit cs2 → torn_entry tail →
  blen (log_bytes cs2 ++ tail) <= Z.of_nat fuel →
  runs (recover_offsets fuel (blen (log_bytes (cs1 ++ cs2) ++ tail))
          (blen (log_bytes cs1)) (blen (log_bytes cs1))) (s, w)
    (fun v '(s', w') => v = blen (log_bytes (cs1 ++ cs2))
       ∧ s' = os_with_offsets (apply_commits (os_offsets s) cs2) s
       ∧ trimmed (w_files w) (w_files w') (os_filePath s) (log_bytes (cs1 ++ cs2)))
    (fun '(_, w') => ∃ tail', (tail' = [] ∨ tail' = tail)
       ∧ trimmed (w_files w) (w_files w') (os_filePath s) (log_bytes (cs1 ++ cs2) ++ tail')).
Proof.
  revert cs1 fuel s w. induction cs2 as [|c cs2 IH]; intros cs1 fuel s w Hd Hv Ht Hfuel.
  - rewrite app_nil_r in *. simpl in Hfuel.
    assert (os_with_offsets (apply_commits (os_offsets s) []) s = s) as Hid by by destruct s.
    destruct (decide (tail = [])) as [->|Hne].
    + rewrite app_nil_r in *. destruct fuel; cbn [recover_offsets]; rewrite Z.leb_refl;
        apply runs_ret; (split; [done|]); (split; [done|]); by apply trimmed_refl.
    + destruct fuel as [|fuel]; [destruct tail; [done|rewrite blen_cons in Hfuel; blen_lia]|].
      apply recover_torn_runs; try done.
      * intros w' [Hb|Hb]; [exists []|exists tail]; (split; [auto|]); by rewrite ?app_nil_r.
  - inversion Hv as [|? ? Hc Hv']; subst.
    pose proof (blen_commit_bytes c) as Hcb. pose proof (names_size_nonneg c) as Hn0.
    pose proof (blen_prefix_bytes c) as Hpb. pose proof (blen_frame c) as Hfb.
    rewrite log_bytes_cons, <- app_assoc in Hfuel. rewrite blen_app in Hfuel.
    destruct fuel as [|fuel]; [blen_lia|].
    assert (log_bytes (cs1 ++ c :: cs2) ++ tail
      = log_bytes cs1 ++ prefix_bytes c ++ frame_bytes c ++ log_bytes cs2 ++ tail) as Heq.
    { rewrite log_bytes_app, log_bytes_cons. unfold commit_bytes. by rewrite <- !app_assoc. }
    assert (cs1 ++ c :: cs2 = (cs1 ++ [c]) ++ cs2) as Hcs by by rewrite <- app_assoc.
    assert (blen (log_bytes cs1) + OffsetPrefixSize + (OffsetMinRemainder + names_size c)
      = blen (log_bytes (cs1 ++ [c]))) as Hend.
    { rewrite log_bytes_app, log_bytes_one, blen_app. unfold OffsetPrefixSize, OffsetMinRemainder. lia. }
    eapply (recover_prefix_runs c); [done|exact Hd|rewrite Heq; apply at_off_intro|done|..].
    { intros w' HF. exists tail. split; [auto|]. by apply trimmed_refl. }
    intros w1 HF1. cbv zeta. rewrite Hend.
    destruct (Z.ltb_spec (blen (log_bytes (cs1 ++ c :: cs2) ++ tail))
      (blen (log_bytes (cs1 ++ [c])))) as [Hlt|_].
    { rewrite Hcs, log_bytes_app in Hlt. blen_lia. }
    apply runs_bind, runs_io. rewrite <- HF1 in Hd.
    eapply runs_read_full with (x := frame_bytes c); [exact Hd| |..].
    { rewrite Heq. exists (log_bytes cs1 ++ prefix_bytes c), (log_bytes cs2 ++ tail).
      rewrite <- !app_assoc. split; [done|]. rewrite blen_app, Hpb. done. }
    { rewrite Hfb. done. }
    2:{ intros w2 HF2. exists tail. split; [auto|]. apply trimmed_refl; congruence. }
    intros w2 HF2. apply runs_bind. eapply runs_lift; [by apply decode_entry_frame|].
    apply runs_bind, runs_modify. rewrite Hcs.
    assert (w_files w2 = w_files w) as HF by congruence.
    eapply runs_weaken; [apply IH; simpl|..].
    + rewrite HF, <- HF1, <- Hcs. done.
    + done.
    + done.
    + blen_lia.
    + intros v [s' w'] (-> & -> & Hb). rewrite HF in Hb. by split_and!.
    + intros [s' w'] (tail' & Ht' & Hb). rewrite HF in Hb. eauto.
Qed.

(** ** The invariant *)

(** The open store holds the commits [cs]: they are the entries of the log file,
    and the map is their effect. *)
Record offsets_ok (F : gmap path file) (s : OffsetStore) (cs : list commit) : Prop :=
  mkOffsetsOk {
  oo_file : data_at F (os_filePath s) = Some (log_bytes cs);
  oo_size : os_size s = blen (log_bytes cs);
  oo_map : os_offsets s = apply_commits ∅ cs;
  oo_valid : Forall valid_commit cs;
  oo_open : os_closed s = false;
  oo_healthy : os_writeFailed s = false;
}.

(** The log file holds the commits [cs], up to a torn entry at its end. *)
Definition offsets_disk (F : gmap path file) (p : path) (cs : list commit) : Prop :=
  ∃ tail, torn_entry tail ∧ Forall valid_commit cs
    ∧ data_at F p = Some (log_bytes cs ++ tail).

(** Only the log file changes, and what was durable of these commits still is. *)
Definition log_kept (F F' : gmap path file) (p : path) (cs : list commit) : Prop :=
  (∀ q, q ≠ p → F' !! q = F !! q)
  ∧ ∀ n, (n <= length (log_bytes cs))%nat → durable F p n → durable F' p n.

Lemma log_kept_refl F F' p cs : F' = F → log_kept F F' p cs.
Proof. by intros ->. Qed.

Lemma log_kept_trans F F1 F2 p cs : log_kept F F1 p cs → log_kept F1 F2 p cs → log_kept F F2 p cs.
Proof. intros [H1 D1] [H2 D2]. split; [intros q Hq; by rewrite H2, H1|auto]. Qed.

Lemma trimmed_log_kept F F' p cs tail :
  trimmed F F' p (log_bytes cs ++ tail) → log_kept F F' p cs.
Proof.
  intros Ht. split; [apply Ht|]. intros n Hn Hd. by eapply trimmed_durable.
Qed.

Lemma offsets_recover_runs s w cs tail :
  data_at (w_files w) (os_filePath s) = Some (log_bytes cs ++ tail) → torn_entry tail →
  Forall valid_commit cs → os_offsets s = ∅ → os_closed s = false → os_writeFailed s = false →
  runs offsets_recover (s, w)
    (fun _ '(s', w') => offsets_ok (w_files w') s' cs ∧ os_filePath s' = os_filePath s
       ∧ log_kept (w_files w) (w_files w') (os_filePath s) cs)
    (fun '(_, w') => offsets_disk (w_files w') (os_filePath s) cs
       ∧ log_kept (w_files w) (w_files w') (os_filePath s) cs).
Proof.
  intros Hd Ht Hv Hm Hcl Hwf. unfold offsets_recover.
  apply runs_bind, runs_get_obj, runs_bind, runs_io.
  pose proof (data_at_Some _ _ _ Hd) as [k Hf]. eapply runs_stat; [exact Hf|..].
  2:{ intros w' HF. split; [exists tail; by rewrite HF|by apply log_kept_refl]. }
  intros w1 HF1. simpl fdata. apply runs_bind. rewrite <- HF1 in Hd.
  eapply runs_weaken; [apply (recover_offsets_runs cs []); [exact Hd|done|done|]|..].
  - simpl. lia.
  - intros v [s2 w2] (-> & -> & Htr). rewrite HF1 in Htr. apply runs_modify.
    split; [split; simpl in *; rewrite ?Hm; try done; apply Htr|]. split; [done|].
    apply (trimmed_log_kept _ _ _ _ []). by rewrite app_nil_r.
  - intros [s2 w2] (tail' & Ht' & Htr). rewrite HF1 in Htr.
    split; [exists tail'; split; [|by split; [|apply Htr]]|by eapply trimmed_log_kept].
    destruct Ht' as [->| ->]; [by left|done].
Qed.

(** What the file holds while no process has it open: a log that does not exist yet is
    an empty one. *)
Definition offsets_held (F : gmap path file) (p : path) (cs : list commit) : Prop :=
  offsets_disk F p cs ∨ (cs = [] ∧ F !! p = None).

(** [OpenStore] as a run. *)
Lemma Offsets_OpenStore_runs dir name w cs :
  offsets_held (w_files w) (dir ++ [name]) cs →
  runs (Offsets_OpenStore dir name) w
    (fun s w' => offsets_ok (w_files w') s cs ∧ os_filePath s = dir ++ [name]
       ∧ log_kept (w_files w) (w_files w') (dir ++ [name]) cs)
    (fun w' => offsets_held (w_files w') (dir ++ [name]) cs
       ∧ log_kept (w_files w) (w_files w') (dir ++ [name]) cs).
Proof.
  intros Hdisk. unfold Offsets_OpenStore. apply runs_bind, runs_mkdir_all.
  2:{ intros w' HF. split; [by rewrite HF|by apply log_kept_refl]. }
  intros w1 HF1. rewrite <- HF1 in Hdisk. apply runs_bind.
  assert (∀ w2, offsets_disk (w_files w2) (dir ++ [name]) cs →
    log_kept (w_files w) (w_files w2) (dir ++ [name]) cs →
    runs (fun w => let '(r, (s, w)) := on_err offsets_recover (ignore (io (fs_close (dir ++ [name]))))
                     (mkOffsetStore (dir ++ [name]) ∅ 0 false false, w) in
                   (let! _ := r in Ok s, w)) w2
      (fun s w' => offsets_ok (w_files w') s cs ∧ os_filePath s = dir ++ [name]
         ∧ log_kept (w_files w) (w_files w') (dir ++ [name]) cs)
      (fun w' => offsets_held (w_files w') (dir ++ [name]) cs
         ∧ log_kept (w_files w) (w_files w') (dir ++ [name]) cs)) as Hrec.
  { intros w2 (tail & Ht & Hv & Hd) Hk r w' Hr.
    destruct (on_err _ _ _) as [r1 [s1 w3]] eqn:E1. injection Hr as <- <-.
    set (s0 := mkOffsetStore (dir ++ [name]) ∅ 0 false false) in E1.
    pose proof (offsets_recover_runs s0 w2 cs tail Hd Ht Hv eq_refl eq_refl eq_refl) as Hrun.
    apply (runs_on_err _ _ _ _ (fun '(_, w') => offsets_disk (w_files w') (dir ++ [name]) cs
      ∧ log_kept (w_files w2) (w_files w') (dir ++ [name]) cs) _)
      with (1 := Hrun) in E1 as (HQ & Hres).
    - split; [exact HQ|]. destruct Hres as [([] & -> & H1 & H2 & H3)|(-> & Hf & H1 & H2)];
        [left; exists s1|right]; (split; [done|]).
      + split; [done|]. split; [done|]. by eapply log_kept_trans.
      + split; [exact Hf|]. split; [by left|by eapply log_kept_trans].
    - intros [s3 w4] HE. unfold ignore, io. simpl.
      destruct (fs_close _ w4) as [r5 w5] eqn:E5. apply fs_close_spec in E5 as (HQ5 & HF5 & _).
      simpl. split; [done|]. by rewrite HF5. }
  apply runs_open_create.
  - intros w2 f Hf HF2. apply Hrec; rewrite HF2; [|by apply log_kept_refl].
    destruct Hdisk as [?|[_ Hn]]; [done|congruence].
  - intros w2 Hn HF2. apply Hrec; rewrite HF2.
    + destruct Hdisk as [(tail & _ & _ & Hd)|[-> _]]; [unfold data_at in Hd; by rewrite Hn in Hd|].
      exists []. split; [by left|]. split; [constructor|]. by rewrite data_at_insert_eq.
    + rewrite <- HF1. split; [intros q Hq; by rewrite lookup_insert_ne|].
      intros n _ (f & Hf & _). congruence.
  - intros w2 HF2. rewrite HF2. split; [done|]. by apply log_kept_refl.
Qed.

(** ** Commit *)

Lemma invalid_name_spec max n : valid_name max n ↔ invalid_name max n = false.
Proof.
  unfold invalid_name. pose proof (blen_nonneg n).
  destruct (Z.eqb_spec (blen n) 0), (Z.ltb_spec max (blen n)), (ValidString n) eqn:E; simpl;
    (split; [intros [H1 H2 H3]; first [lia|congruence]
            |intros Hx; first [discriminate Hx|split; [lia|lia|done]]]).
Qed.

Lemma invalid_name_false max n : valid_name max n → invalid_name max n = false.
Proof. apply invalid_name_spec. Qed.

#[global] Instance valid_name_dec max n : Decision (valid_name max n).
Proof. refine (cast_if (decide (invalid_name max n = false))); by rewrite invalid_name_spec. Defined.

#[global] Instance valid_commit_dec c : Decision (valid_commit c).
Proof.
  refine (cast_if (decide (valid_name MaxConsumerGroupBytes (Group (c_key c))
    ∧ valid_name MaxTopicNameBytes (Topic (c_key c))
    ∧ 0 <= Partition (c_key c) < two32 ∧ 0 <= c_next c < two64)));
    [by destruct_and!; split|by intros []; tauto].
Defined.

Lemma Commit_refuses_names now g t p n sw :
  ¬ valid_name MaxConsumerGroupBytes g ∨ ¬ valid_name MaxTopicNameBytes t →
  Commit now g t p n sw = (Err ErrInvalidArgument, sw).
Proof.
  rewrite !invalid_name_spec, !not_false_iff_true. unfold Commit.
  intros [-> | ->]; [done|by destruct (invalid_name _ g)].
Qed.

Lemma apply_commits_snoc m cs c :
  apply_commits m (cs ++ [c]) = <[c_key c := c_next c]> (apply_commits m cs).
Proof. unfold apply_commits. by rewrite fold_left_app. Qed.

(** Commit as a run: the entry is appended and synced, and the map updated; or
    the store is marked as failed and at most the entry was added to the file. *)
Lemma Commit_runs c s w cs :
  offsets_ok (w_files w) s cs → valid_commit c →
  runs (Commit (c_now c) (Group (c_key c)) (Topic (c_key c)) (Partition (c_key c)) (c_next c))
    (s, w)
    (fun _ '(s', w') => offsets_ok (w_files w') s' (cs ++ [c])
       ∧ os_filePath s' = os_filePath s
       ∧ (∃ d, w_files w' !! os_filePath s = Some (mkFile d (length d)))
       ∧ ∀ q, q ≠ os_filePath s → w_files w' !! q = w_files w !! q)
    (fun '(s', w') => os_writeFailed s' = true ∧ os_filePath s' = os_filePath s
       ∧ grows (fun _ => True) (w_files w) (w_files w')
       ∧ ∃ n, file_becomes (w_files w) (w_files w') (os_filePath s)
                (log_bytes cs ++ take n (commit_bytes c))).
Proof.
  intros [Hd Hsz Hm Hv Hcl Hwf] Hc. unfold Commit.
  rewrite !invalid_name_false by apply Hc. apply runs_bind, runs_get_obj. rewrite Hcl, Hwf.
  apply runs_bind. eapply runs_lift; [by apply encode_entry_bytes|].
  pose proof (data_at_Some _ _ _ Hd) as [k Hf].
  assert (Z.to_nat (os_size s) = length (log_bytes cs)) as Hpos
    by (rewrite Hsz, blen_eq; lia).
  assert (∀ w' x, w_files w' = <[os_filePath s := mkFile (log_bytes cs ++ x)
                                 (min k (length (log_bytes cs)))]> (w_files w) →
    grows (fun _ => True) (w_files w) (w_files w')
    ∧ file_becomes (w_files w) (w_files w') (os_filePath s) (log_bytes cs ++ x)) as Hw.
  { intros w' x ->. split; [|by apply file_becomes_insert].
    apply (grows_insert _ _ _ _ _ Hf); simpl; [rewrite length_app; lia|lia]. }
  apply runs_bind. eapply runs_on_err with (E' := fun '(s', w') => s' = s
    ∧ grows (fun _ => True) (w_files w) (w_files w')
    ∧ ∃ n, file_becomes (w_files w) (w_files w') (os_filePath s)
             (log_bytes cs ++ take n (commit_bytes c))).
  2:{ intros [s1 w1] [-> ?]. split; [apply quiet_refl|]. simpl. auto. }
  apply runs_io. eapply runs_write_at; [exact Hf|..]; simpl fdata; rewrite Hpos;
    setoid_rewrite overwrite_end.
  2:{ intros w' n _ [HG HB]%Hw. eauto. }
  intros w1 HF1. destruct (Hw _ _ HF1) as [HG1 Hb1].
  apply runs_bind. eapply runs_on_err with (E' := fun '(s', w') => s' = s
    ∧ w_files w' = w_files w1).
  2:{ intros [s2 w2] [-> HF2]. split; [apply quiet_refl|]. simpl. rewrite HF2.
      split_and!; [done..|]. exists (length (commit_bytes c)). by rewrite firstn_all. }
  apply runs_io. eapply runs_sync; [by rewrite HF1, lookup_insert_eq|..]; [|done].
  intros w2 HF2. simpl in HF2. apply runs_modify. split_and!; try done.
  - split; simpl.
    + by rewrite HF2, data_at_insert_eq, log_bytes_app, log_bytes_one.
    + rewrite Hsz, log_bytes_app, log_bytes_one. blen_lia.
    + rewrite apply_commits_snoc, Hm. by destruct (c_key c).
    + apply Forall_app. auto.
    + done.
    + done.
  - eexists. by rewrite HF2, lookup_insert_eq.
  - intros q Hq. rewrite HF2, lookup_insert_ne by done. by apply Hb1.
Qed.

(** ** Crashes *)

Lemma offsets_disk_full F p cs :
  Forall valid_commit cs → data_at F p = Some (log_bytes cs) → offsets_disk F p cs.
Proof. intros Hv Hd. exists []. rewrite app_nil_r. split; [by left|done]. Qed.

(** The file after part of an entry was written. *)
Lemma attempted_disk F p cs c n :
  Forall valid_commit cs → valid_commit c →
  data_at F p = Some (log_bytes cs ++ take n (commit_bytes c)) →
  offsets_disk F p cs ∨ offsets_disk F p (cs ++ [c]).
Proof.
  intros Hv Hc Hb. destruct (decide (n < length (commit_bytes c))%nat) as [Hlt|Hge].
  - left. exists (take n (commit_bytes c)). split; [right; eauto|]. auto.
  - right. apply offsets_disk_full; [apply Forall_app; auto|].
    rewrite log_bytes_app, log_bytes_one. rewrite take_ge in Hb by lia. done.
Qed.

(** What Get returns on a store that holds [cs]. *)
Lemma Get_ok F s cs g t p :
  offsets_ok F s cs → Offsets_Get s g t p = Ok (apply_commits ∅ cs !! mkKey g t p).
Proof. intros [_ _ Hm _ Hcl Hwf]. unfold Offsets_Get. by rewrite Hcl, Hwf, Hm. Qed.

(** ** Properties *)

(** An entry that Commit encodes, field by field into its buffers, is decoded
    by the recovery loop's checks to the same key and offset. *)
Theorem offset_entry_roundtrip c :
  valid_commit c →
  ∃ frame, encode_entry (Group (c_key c)) (Topic (c_key c)) (Partition (c_key c))
             (c_next c) (c_now c) = Ok (prefix_bytes c ++ frame)
    ∧ Uint32_at (prefix_bytes c) 5 = Ok (blen frame)
    ∧ decode_entry (blen frame) frame = Ok (c_key c, c_next c).
Proof.
  intros Hv. exists (frame_bytes c). split; [by apply encode_entry_bytes|].
  destruct (prefix_fields c Hv) as (_ & _ & Hu).
  rewrite blen_frame. split; [exact Hu|]. by apply decode_entry_frame.
Qed.

(** A change of any single byte of a complete entry's checksum or payload is
    detected: the entry is rejected with ErrCorruptOffsetLog. *)
Theorem decode_entry_detects_changed_byte c i b :
  (i < length (frame_bytes c))%nat → frame_bytes c !! i ≠ Some b →
  decode_entry (blen (frame_bytes c)) (<[i := b]> (frame_bytes c)) = Err ErrCorruptOffsetLog.
Proof.
  intros Hi Hb. set (pl := payload_bytes c).
  assert (∃ crc body, blen crc = 4 ∧ <[i := b]> (frame_bytes c) = crc ++ body
    ∧ be_get crc ≠ ChecksumIEEE body) as (crc & body & Hc & -> & Hne).
  { pose proof (ChecksumIEEE_range pl). unfold frame_bytes in *. fold pl in Hi, Hb |- *.
    assert (length (be_put 4 (ChecksumIEEE pl)) = 4%nat) as Hl by done.
    destruct (decide (i < 4)%nat) as [H4|H4].
    - rewrite lookup_app_l in Hb by lia. rewrite insert_app_l by lia.
      exists (<[i := b]> (be_put 4 (ChecksumIEEE pl))), pl.
      split; [by rewrite blen_insert, blen_be_put|]. split; [done|].
      intros Heq. apply (insert_changes (be_put 4 (ChecksumIEEE pl)) i b); [lia|done|].
      apply be_get_inj; [by rewrite length_insert|].
      by rewrite Heq, be_get_put4, u32_small.
    - rewrite lookup_app_r in Hb by lia. rewrite insert_app_r_alt by lia. rewrite Hl in *.
      rewrite length_app, Hl in Hi.
      exists (be_put 4 (ChecksumIEEE pl)), (<[(i - 4)%nat := b]> pl).
      split; [done|]. split; [done|]. rewrite be_get_put4, u32_small by done.
      intros Heq. symmetry in Heq. revert Heq. apply ChecksumIEEE_insert; [lia|done]. }
  unfold decode_entry, Uint32_at.
  pose proof (slice_app_r [] crc body 0 (0 + 4)) as H0. rewrite app_nil_l in H0.
  rewrite H0 by (rewrite ?blen_nil; lia). cbn [rbind].
  pose proof (slice_suffix crc body) as Hs. rewrite Hc in Hs. rewrite Hs. cbn [rbind].
  by destruct (Z.eqb_spec (be_get crc) (ChecksumIEEE body)).
Qed.

(** Commit with valid arguments on a well-formed store, under any schedule of
    I/O failures. Success: the log holds one more entry, the file is completely
    synced, and Get returns the new offset for this key and what it returned
    before for every other key. Failure: the store refuses further work, and the
    log file still holds all previous commits, followed by at most this entry. *)
Theorem Commit_updates_store c s w cs r s' w' :
  offsets_ok (w_files w) s cs → valid_commit c →
  Commit (c_now c) (Group (c_key c)) (Topic (c_key c)) (Partition (c_key c)) (c_next c) (s, w)
    = (r, (s', w')) →
  (r = Ok tt ∧ offsets_ok (w_files w') s' (cs ++ [c])
   ∧ (∃ d, w_files w' !! os_filePath s = Some (mkFile d (length d)))
   ∧ ∀ g t p, Offsets_Get s' g t p
       = if decide (mkKey g t p = c_key c) then Ok (Some (c_next c)) else Offsets_Get s g t p)
  ∨ (∃ e, r = Err e ∧ w_faults w ≠ []
     ∧ (∀ g t p, os_closed s' = false → Offsets_Get s' g t p = Err ErrOffsetStoreUnavailable)
     ∧ (offsets_disk (w_files w') (os_filePath s) cs
        ∨ offsets_disk (w_files w') (os_filePath s) (cs ++ [c]))).
Proof.
  intros Hok Hc H. apply (Commit_runs c s w cs Hok Hc) in H
    as (_ & [([] & -> & Hok' & _ & Hsync & _)|(-> & Hf & Hwf & Hp & _ & n & [Hb _])]).
  - left. split; [done|]. split; [done|]. split; [done|]. intros g t p.
    rewrite (Get_ok _ _ _ _ _ _ Hok'), (Get_ok _ _ _ _ _ _ Hok), apply_commits_snoc.
    destruct (decide (mkKey g t p = c_key c)) as [-> |Hne].
    + by rewrite lookup_insert_eq.
    + by rewrite lookup_insert_ne.
  - right. exists ErrIO. split; [done|]. split; [exact Hf|]. split.
    { intros g t p Hcl. unfold Offsets_Get. by rewrite Hcl, Hwf. }
    eapply attempted_disk; [by eapply oo_valid|done|exact Hb].
Qed.

(** C19: opening the offset log. When the file holds the commits [cs] and then at
    most a torn entry (or does not exist, with no commits), OpenStore truncates
    the torn entry and returns a store that holds exactly [cs], so that Get
    returns the last committed offset of every key. An injected failure makes it
    return an error, with all commits still in the file. *)
Theorem offsets_recovery dir name w cs r w' :
  offsets_disk (w_files w) (dir ++ [name]) cs
  ∨ (cs = [] ∧ w_files w !! (dir ++ [name]) = None) →
  Offsets_OpenStore dir name w = (r, w') →
  (∃ s, r = Ok s ∧ offsets_ok (w_files w') s cs
     ∧ ∀ g t p, Offsets_Get s g t p = Ok (apply_commits ∅ cs !! mkKey g t p))
  ∨ (∃ e, r = Err e ∧ w_faults w ≠ []
     ∧ (offsets_disk (w_files w') (dir ++ [name]) cs
        ∨ (cs = [] ∧ w_files w' !! (dir ++ [name]) = None))).
Proof.
  intros Hd H. apply (Offsets_OpenStore_runs dir name w cs Hd) in H
    as (_ & [(s & -> & Hok & _)|(-> & Hf & HE & _)]).
  - left. exists s. split; [done|]. split; [done|]. intros. by eapply Get_ok.
  - right. exists ErrIO. done.
Qed.

(** Durability. When Commit has returned without an error, then after a crash
    that loses everything that was not synced, reopening the log gives back this
    commit and all earlier ones. *)
Theorem acknowledged_commit_survives_crash c s w cs s1 w1 F2 :
  offsets_ok (w_files w) s cs → valid_commit c →
  Commit (c_now c) (Group (c_key c)) (Topic (c_key c)) (Partition (c_key c)) (c_next c) (s, w)
    = (Ok tt, (s1, w1)) →
  crashed (w_files w1) F2 →
  ∀ dir name, os_filePath s = dir ++ [name] →
  ∃ s2 w2, Offsets_OpenStore dir name (mkWorld F2 ∅ [] []) = (Ok s2, w2)
    ∧ offsets_ok (w_files w2) s2 (cs ++ [c])
    ∧ Offsets_Get s2 (Group (c_key c)) (Topic (c_key c)) (Partition (c_key c))
      = Ok (Some (c_next c)).
Proof.
  intros Hok Hc H Hcrash dir name Hp. apply (Commit_runs c s w cs Hok Hc) in H
    as (_ & [([] & _ & Hok' & Hp' & (d & Hsync) & _)|(? & _)]); [|done].
  assert (data_at F2 (dir ++ [name]) = Some (log_bytes (cs ++ [c]))) as Hd.
  { rewrite <- Hp. rewrite (crashed_synced _ _ _ _ Hcrash Hsync).
    pose proof (oo_file _ _ _ Hok') as Hf. rewrite Hp' in Hf. unfold data_at in Hf.
    by rewrite Hsync in Hf. }
  pose proof (oo_valid _ _ _ Hok') as Hv.
  destruct (runs_no_faults _ _ _ _ (Offsets_OpenStore_runs dir name (mkWorld F2 ∅ [] [])
    (cs ++ [c]) (or_introl (offsets_disk_full _ _ _ Hv Hd))) eq_refl) as (s2 & w2 & Hrun & Hok2 & _).
  exists s2, w2. split; [done|]. split; [done|].
  rewrite (Get_ok _ _ _ _ _ _ Hok2), apply_commits_snoc. by destruct (c_key c); rewrite lookup_insert_eq.
Qed.

(** The refusals of Commit, in the order of the code: empty, overlong or
    non-UTF-8 group or topic names first, then a closed store, then a store
    whose last write failed; the store and the files stay as they are. *)
Theorem Commit_refusals now g t p n s w :
  let refused e := Commit now g t p n (s, w) = (Err e, (s, w)) in
  (¬ valid_name MaxConsumerGroupBytes g ∨ ¬ valid_name MaxTopicNameBytes t →
     refused ErrInvalidArgument)
  ∧ (valid_name MaxConsumerGroupBytes g → valid_name MaxTopicNameBytes t →
     os_closed s = true → refused ErrOffsetStoreClosed)
  ∧ (valid_name MaxConsumerGroupBytes g → valid_name MaxTopicNameBytes t →
     os_closed s = false → os_writeFailed s = true → refused ErrOffsetStoreUnavailable).
Proof.
  split_and!; [apply Commit_refuses_names|unfold Commit..].
  - intros Hg Ht Hcl. rewrite (invalid_name_false _ _ Hg), (invalid_name_false _ _ Ht).
    unfold bind, get_obj. by rewrite Hcl.
  - intros Hg Ht Hcl Hwf. rewrite (invalid_name_false _ _ Hg), (invalid_name_false _ _ Ht).
    unfold bind, get_obj. by rewrite Hcl, Hwf.
Qed.

(** *** Witnesses *)

Definition demo_commit : commit := mkCommit (mkKey [x67] [x74; x31] 3) 42 1700000000000.
Definition demo_offsets : OffsetStore :=
  mkOffsetStore ["offsets"; "consumer-offsets.log"]%string ∅ 0 false false.
Definition demo_offsets_world (faults : list outcome) : World :=
  mkWorld {[ ["offsets"; "consumer-offsets.log"]%string := mkFile [] 0 ]} ∅ faults [].

Lemma demo_commit_valid : valid_commit demo_commit.
Proof. split; [split; vm_compute; done..|vm_compute; done|vm_compute; done]. Qed.

Lemma demo_offsets_ok faults : offsets_ok (w_files (demo_offsets_world faults)) demo_offsets [].
Proof. by split. Qed.

Lemma offset_entry_roundtrip_witness :
  ∃ frame, encode_entry [x67] [x74; x31] 3 42 1700000000000
             = Ok (prefix_bytes demo_commit ++ frame)
    ∧ decode_entry (blen frame) frame = Ok (mkKey [x67] [x74; x31] 3, 42).
Proof.
  destruct (offset_entry_roundtrip demo_commit demo_commit_valid) as (frame & H1 & _ & H3).
  exists frame. split; [exact H1|exact H3].
Defined.

Lemma decode_entry_detects_changed_byte_witness :
  decode_entry (blen (frame_bytes demo_commit)) (<[7%nat := x58]> (frame_bytes demo_commit))
  = Err ErrCorruptOffsetLog.
Proof.
  apply (decode_entry_detects_changed_byte demo_commit 7 x58);
    [vm_compute; lia|vm_compute; discriminate].
Defined.

Lemma Commit_updates_store_witness :
  ∃ s' w', Commit 1700000000000 [x67] [x74; x31] 3 42 (demo_offsets, demo_offsets_world [])
           = (Ok tt, (s', w'))
    ∧ Offsets_Get s' [x67] [x74; x31] 3 = Ok (Some 42).
Proof.
  destruct (Commit 1700000000000 [x67] [x74; x31] 3 42 (demo_offsets, demo_offsets_world []))
    as [r [s' w']] eqn:E.
  destruct (Commit_updates_store demo_commit demo_offsets (demo_offsets_world []) [] r s' w'
    (demo_offsets_ok []) demo_commit_valid E) as [(Hr & _ & _ & Hget)|(e & _ & Hf & _)].
  - exists s', w'. split; [by rewrite Hr|]. apply (Hget [x67] [x74; x31] 3).
  - by destruct Hf.
Defined.

Definition demo_torn_world : World :=
  mkWorld {[ ["offsets"; "consumer-offsets.log"]%string :=
     mkFile (commit_bytes demo_commit ++ take 20 (commit_bytes demo_commit)) 0 ]} ∅ [] [].

Lemma demo_torn_disk :
  offsets_disk (w_files demo_torn_world) ["offsets"; "consumer-offsets.log"]%string [demo_commit].
Proof.
  exists (take 20 (commit_bytes demo_commit)). split; [|split; [|vm_compute; reflexivity]].
  - right. exists demo_commit, 20%nat. split; [exact demo_commit_valid|].
    split; [vm_compute; lia|reflexivity].
  - apply Forall_singleton, demo_commit_valid.
Qed.

Lemma offsets_recovery_witness :
  ∃ s w', Offsets_OpenStore ["offsets"%string] "consumer-offsets.log" demo_torn_world
          = (Ok s, w')
    ∧ Offsets_Get s [x67] [x74; x31] 3 = Ok (Some 42).
Proof.
  destruct (Offsets_OpenStore ["offsets"%string] "consumer-offsets.log" demo_torn_world)
    as [r w'] eqn:E.
  destruct (offsets_recovery ["offsets"%string] "consumer-offsets.log" demo_torn_world
    [demo_commit] r w' (or_introl demo_torn_disk) E) as [(s & Hr & _ & Hget)|(e & _ & Hf & _)].
  - exists s, w'. split; [by rewrite Hr|]. rewrite Hget. vm_compute. reflexivity.
  - by destruct Hf.
Defined.

Lemma acknowledged_commit_survives_crash_witness :
  ∃ s1 w1, Commit 1700000000000 [x67] [x74; x31] 3 42 (demo_offsets, demo_offsets_world [])
           = (Ok tt, (s1, w1))
    ∧ ∃ s2 w2, Offsets_OpenStore ["offsets"%string] "consumer-offsets.log"
                 (mkWorld (w_files w1) ∅ [] []) = (Ok s2, w2)
      ∧ Offsets_Get s2 [x67] [x74; x31] 3 = Ok (Some 42).
Proof.
  assert (let x := Commit 1700000000000 [x67] [x74; x31] 3 42
                     (demo_offsets, demo_offsets_world []) in
    fst x = Ok tt ∧ bool_decide (map_Forall (fun _ f => fsynced f = length (fdata f))
                                   (w_files (snd (snd x)))) = true)
    as [Hr Hs] by (vm_compute; split; reflexivity).
  destruct (Commit _ _ _ _ _ _) as [r [s1 w1]] eqn:E in *. cbn [fst snd] in *. subst r.
  exists s1, w1. split; [reflexivity|]. apply bool_decide_eq_true in Hs.
  destruct (acknowledged_commit_survives_crash demo_commit demo_offsets (demo_offsets_world [])
    [] s1 w1 (w_files w1) (demo_offsets_ok []) demo_commit_valid E (crashed_nothing _ Hs)
    ["offsets"%string] "consumer-offsets.log"%string eq_refl) as (s2 & w2 & H1 & _ & H3).
  exists s2, w2. split; [exact H1|exact H3].
Defined.
