(* ===== verification/OffsetsLog.v ===== *)
(** * Specification of the consumer-offset store, and its refinement

    What the offset store promises, without a file: the sequence of the commits it has
    taken, of which the first ones are durable.  The steps are the calls under any
    schedule of I/O failures, the end of the process, a crash of the machine and
    OpenStore; every run of the store is a run of the specification. *)

From S2P Require Import Prelude FileSystem Runs StoreAppend StoreCrash LogSpec StoreRefinement.
From S2P Require Import Offsets OffsetsSpec.
From Stdlib Require Import Init.Byte.
Open Scope Z_scope.

(** ** Specification *)

Record aoffsets := mkAoffsets {
  ao_commits : list commit;
  ao_durable : nat;                  (* so many of them survive a crash *)
}.

(** The committed offset of a group, topic and partition. *)
Definition committed (l : aoffsets) (k : Key) : option Z :=
  apply_commits ∅ (ao_commits l) !! k.

Inductive ocall : Type :=
  | OCommit (c : commit) (r : res unit)
  | OGet (k : Key) (r : res (option Z))
  | OClose (r : res unit)
  | OStop
  | OCrash
  | OOpen (opened : bool).

Inductive ostep : phase * aoffsets → ocall → phase * aoffsets → Prop :=
  | o_commit cs d c :
      ostep (Serving, mkAoffsets cs d) (OCommit c (Ok tt))
        (Serving, mkAoffsets (cs ++ [c]) (S (length cs)))
  | o_commit_refused p l c r : al_failed r → ostep (p, l) (OCommit c r) (p, l)
  | o_commit_failed l c r : al_failed r → ostep (Serving, l) (OCommit c r) (Failed, l)
  | o_commit_unknown cs d c r :
      al_failed r →
      ostep (Serving, mkAoffsets cs d) (OCommit c r) (Failed, mkAoffsets (cs ++ [c]) d)
  | o_get l k : ostep (Serving, l) (OGet k (Ok (committed l k))) (Serving, l)
  | o_get_refused p l k r : p ≠ Serving → al_failed r → ostep (p, l) (OGet k r) (p, l)
  | o_close p l r : p ≠ Down → ostep (p, l) (OClose r) (Closed, l)
  | o_stop p l : p ≠ Down → ostep (p, l) OStop (Down, l)
  | o_crash p cs d n :
      (d <= n <= length cs)%nat →
      ostep (p, mkAoffsets cs d) OCrash (Down, mkAoffsets (take n cs) n)
  | o_open l : ostep (Down, l) (OOpen true) (Serving, l)
  | o_open_failed l : ostep (Down, l) (OOpen false) (Down, l).

(** ** Cutting the log file *)

Lemma log_bytes_take cs k :
  (k <= length (log_bytes cs))%nat →
  ∃ n tail, (n <= length cs)%nat ∧ take k (log_bytes cs) = log_bytes (take n cs) ++ tail
  ∧ (tail = [] ∨ ∃ c m, cs !! n = Some c ∧ (m < length (commit_bytes c))%nat
                   ∧ tail = take m (commit_bytes c))
  ∧ ∀ j, (j <= length cs)%nat → (length (log_bytes (take j cs)) <= k)%nat → (j <= n)%nat.
Proof.
  revert k. induction cs as [|c cs IH]; intros k Hk.
  - exists 0%nat, []. split; [done|]. split; [apply take_nil|]. split; [by left|done].
  - rewrite log_bytes_cons, length_app in Hk.
    destruct (Nat.lt_ge_cases k (length (commit_bytes c))) as [Hlt|Hge].
    + exists 0%nat, (take k (commit_bytes c)). rewrite log_bytes_cons.
      split; [lia|]. split; [by rewrite take_app_le by lia|]. split; [right; eauto|].
      intros [|j]; [lia|]. cbn [firstn]. rewrite log_bytes_cons, length_app. lia.
    + destruct (IH (k - length (commit_bytes c))%nat) as (n & tail & Hn & Ht & Htail & Hj); [lia|].
      exists (S n), tail. cbn [firstn]. rewrite !log_bytes_cons. split; [simpl; lia|].
      split; [by rewrite take_app_ge, Ht, app_assoc by lia|]. split; [done|].
      intros [|j] Hl; [lia|]. cbn [firstn]. rewrite log_bytes_cons, length_app. intros Hle.
      simpl in Hl. specialize (Hj j ltac:(lia) ltac:(lia)). lia.
Qed.

Lemma torn_entry_take tail k : torn_entry tail → torn_entry (take k tail).
Proof.
  intros [->|(c & n & Hc & Hn & ->)]; [left; by rewrite take_nil|]. right.
  exists c, (min k n). rewrite take_take. split_and!; [done|lia|done].
Qed.

Lemma log_bytes_take_le cs n : (length (log_bytes (take n cs)) <= length (log_bytes cs))%nat.
Proof. rewrite <- (take_drop n cs) at 2. rewrite log_bytes_app, length_app. lia. Qed.

(** ** Refinement *)

Section Node.
Context (dir : path) (name : string).
Abbreviation file_path := (dir ++ [name]).

(** At most one store is open on the file. *)
Abbreviation onode := (option OffsetStore * World)%type.

(** The steps of a node; the bounds are those of the machine integers. *)
Inductive nstep : onode → ocall → onode → Prop :=
  | n_commit s w fl c r s' w' :
      0 <= Partition (c_key c) < two32 → 0 <= c_next c < two64 →
      Commit (c_now c) (Group (c_key c)) (Topic (c_key c)) (Partition (c_key c)) (c_next c)
        (s, with_faults fl w) = (r, (s', w')) →
      nstep (Some s, w) (OCommit c r) (Some s', w')
  | n_get s w k :
      nstep (Some s, w) (OGet k (Offsets_Get s (Group k) (Topic k) (Partition k))) (Some s, w)
  | n_close s w fl r s' w' :
      Offsets_Close (s, with_faults fl w) = (r, (s', w')) →
      nstep (Some s, w) (OClose r) (Some s', w')
  | n_stop s w : nstep (Some s, w) OStop (None, w)
  | n_crash o w F' : crashed (w_files w) F' → nstep (o, w) OCrash (None, set_files F' w)
  | n_open w fl r w' :
      Offsets_OpenStore dir name (with_faults fl w) = (r, w') →
      nstep (None, w) (OOpen (is_ok r)) (match r with Ok s => Some s | _ => None end, w').

(** The first commits are durable. *)
Definition commits_durable (F : gmap path file) (l : aoffsets) : Prop :=
  (ao_durable l <= length (ao_commits l))%nat
  ∧ (ao_durable l = 0%nat
     ∨ durable F file_path (length (log_bytes (take (ao_durable l) (ao_commits l))))).

Definition oheld (F : gmap path file) (l : aoffsets) : Prop :=
  offsets_held F file_path (ao_commits l) ∧ commits_durable F l.

Definition orefines (n : onode) (a : phase * aoffsets) : Prop :=
  let F := w_files (snd n) in
  match fst n, fst a with
  | Some s, Serving => os_filePath s = file_path ∧ offsets_ok F s (ao_commits (snd a))
      ∧ commits_durable F (snd a)
  | Some s, Failed => os_filePath s = file_path ∧ os_writeFailed s = true ∧ oheld F (snd a)
  | Some s, Closed => os_filePath s = file_path ∧ os_closed s = true ∧ oheld F (snd a)
  | None, Down => oheld F (snd a)
  | _, _ => False
  end.

#[local] Arguments orefines _ _ /.

Lemma ok_held F s l :
  os_filePath s = file_path → offsets_ok F s (ao_commits l) → commits_durable F l → oheld F l.
Proof.
  intros Hp Hok Hd. split; [|done]. left. rewrite <- Hp.
  apply offsets_disk_full; [by eapply oo_valid|by eapply oo_file].
Qed.

Lemma orefines_held n a : orefines n a → oheld (w_files (snd n)) (snd a).
Proof.
  destruct n as [[s|] w], a as [[] l]; simpl; try done; [|by intros (_ & _ & ?)..].
  intros (Hp & Hok & Hd). by eapply ok_held.
Qed.

(** The file after the durable part of the commits has been kept. *)
Lemma durable_kept_commits F F' l :
  commits_durable F l → log_kept F F' file_path (ao_commits l) → commits_durable F' l.
Proof.
  intros [Hle Hd] [_ Hk]. split; [done|]. destruct Hd as [?|Hd]; [by left|right].
  apply Hk; [apply log_bytes_take_le|done].
Qed.

Lemma durable_grown_commits F F' l :
  commits_durable F l → grows (fun _ => True) F F' → commits_durable F' l.
Proof.
  intros [Hle Hd] Hg. split; [done|]. destruct Hd as [?|Hd]; [by left|right; by apply Hg].
Qed.

Lemma durable_snoc F l c :
  commits_durable F l → commits_durable F (mkAoffsets (ao_commits l ++ [c]) (ao_durable l)).
Proof.
  intros [Hle Hd]. split; simpl; [rewrite length_app; simpl; lia|]. by rewrite take_app_le.
Qed.

(** Only the log file matters. *)
Lemma orefines_frame o w w' a :
  w_files w' !! file_path = w_files w !! file_path → orefines (o, w) a → orefines (o, w') a.
Proof.
  intros Heq.
  assert (data_at (w_files w') file_path = data_at (w_files w) file_path) as Hd
    by (unfold data_at; by rewrite Heq).
  assert (∀ l, commits_durable (w_files w) l → commits_durable (w_files w') l) as Hc.
  { intros l [Hle [H0|Hdur]]; split; [done|by left|done|right; by eapply durable_same]. }
  assert (∀ l, oheld (w_files w) l → oheld (w_files w') l) as Hh.
  { intros l [Hh Hdur]. split; [|auto]. destruct Hh as [(tail & ?)|Hn]; [left; exists tail|right];
      by rewrite ?Hd, ?Heq. }
  destruct o as [s|], a as [[] l]; simpl; try done; try (intros (? & ? & ?); by auto); [|auto].
  intros (Hp & [] & ?). split; [done|]. split; [|auto]. split; try done. by rewrite Hp, Hd, <- Hp.
Qed.

(** *** Commit and Get *)

Lemma commit_invalid c s w :
  0 <= Partition (c_key c) < two32 → 0 <= c_next c < two64 → ¬ valid_commit c →
  Commit (c_now c) (Group (c_key c)) (Topic (c_key c)) (Partition (c_key c)) (c_next c) (s, w)
  = (Err ErrInvalidArgument, (s, w)).
Proof.
  intros Hp Hn Hv. apply Commit_refuses_names.
  destruct (decide (valid_name MaxConsumerGroupBytes (Group (c_key c)))) as [Hg|]; [|by left].
  right. intros Ht. by apply Hv.
Qed.

Lemma commit_serving s w fl c r s' w' l :
  0 <= Partition (c_key c) < two32 → 0 <= c_next c < two64 →
  Commit (c_now c) (Group (c_key c)) (Topic (c_key c)) (Partition (c_key c)) (c_next c)
    (s, with_faults fl w) = (r, (s', w')) →
  orefines (Some s, w) (Serving, l) →
  ∃ a', ostep (Serving, l) (OCommit c r) a' ∧ orefines (Some s', w') a'.
Proof.
  intros Hpart Hnext H (Hp & Hok & Hdur). destruct l as [cs d].
  destruct (decide (valid_commit c)) as [Hc|Hc].
  2:{ rewrite commit_invalid in H by done. injection H as <- <- <-.
      exists (Serving, mkAoffsets cs d). split; [apply o_commit_refused; by eexists|done]. }
  apply (Commit_runs c s (with_faults fl w) cs Hok Hc) in H
    as (_ & [([] & -> & Hok' & Hp' & (x & Hx) & _)|(-> & _ & Hwf & Hp' & Hg & n & [Hb _])]).
  - exists (Serving, mkAoffsets (cs ++ [c]) (S (length cs))). split; [constructor|].
    simpl. split; [congruence|]. split; [done|]. split; simpl; [rewrite length_app; simpl; lia|].
    right. rewrite Hp in Hx. exists (mkFile x (length x)). split; [done|]. simpl.
    pose proof (oo_file _ _ _ Hok') as Hf. rewrite Hp', Hp in Hf. unfold data_at in Hf.
    rewrite Hx in Hf. injection Hf as ->. rewrite take_ge by (rewrite length_app; simpl; lia). done.
  - cbn [w_files with_faults wld] in *.
    pose proof (durable_grown_commits _ _ _ Hdur Hg) as Hdur'. rewrite Hp in Hb.
    destruct (attempted_disk _ _ _ _ _ (oo_valid _ _ _ Hok) Hc Hb) as [Hd|Hd].
    + exists (Failed, mkAoffsets cs d). split; [apply o_commit_failed; by eexists|].
      split; [congruence|]. split; [done|]. split; [by left|done].
    + exists (Failed, mkAoffsets (cs ++ [c]) d). split; [apply o_commit_unknown; by eexists|].
      split; [congruence|]. split; [done|]. split; [by left|]. by apply (durable_snoc _ (mkAoffsets cs d)).
Qed.

Lemma commit_refusing s w c :
  0 <= Partition (c_key c) < two32 → 0 <= c_next c < two64 →
  os_closed s = true ∨ os_writeFailed s = true →
  ∃ e, Commit (c_now c) (Group (c_key c)) (Topic (c_key c)) (Partition (c_key c)) (c_next c) (s, w)
       = (Err e, (s, w)).
Proof.
  intros Hp Hn Hs. destruct (decide (valid_commit c)) as [Hc|Hc]; [|eexists; by apply commit_invalid].
  unfold Commit. rewrite !invalid_name_false by apply Hc. unfold bind, get_obj.
  destruct (os_closed s); [by eexists|]. destruct (os_writeFailed s); [by eexists|].
  by destruct Hs.
Qed.

(** *** Close, crash and OpenStore *)

Lemma Offsets_Close_spec s w r s' w' :
  Offsets_Close (s, w) = (r, (s', w')) →
  os_filePath s' = os_filePath s ∧ os_closed s' = true
  ∧ (∀ q, data_at (w_files w') q = data_at (w_files w) q)
  ∧ grows (fun _ => True) (w_files w) (w_files w').
Proof.
  unfold Offsets_Close, bind, attempt, io, lift_res, modify, get_obj, ret.
  destruct (os_closed s) eqn:Hs; [intros [= <- <- <-]; auto using grows_refl|].
  destruct (os_writeFailed s); simpl.
  - destruct (fs_close _ _) as [rc wc] eqn:Ec. apply fs_close_spec in Ec as (_ & HF & _).
    destruct rc; intros [= <- <- <-]; simpl; rewrite HF; auto using grows_refl.
  - destruct (fs_sync _ _) as [ry wy] eqn:Ey. apply fs_sync_any in Ey as (_ & HD & HG & _).
    destruct (fs_close (os_filePath s) wy) as [rc wc] eqn:Ec.
    pose proof (fs_close_spec _ _ _ _ Ec) as (_ & HF & _).
    destruct ry; simpl; rewrite ?Ec; [destruct rc|destruct rc|]; intros [= <- <- <-]; simpl;
      rewrite ?HF; auto.
Qed.

Lemma close_held s w fl r s' w' l :
  os_filePath s = file_path → oheld (w_files w) l →
  Offsets_Close (s, with_faults fl w) = (r, (s', w')) →
  os_filePath s' = file_path ∧ os_closed s' = true ∧ oheld (w_files w') l.
Proof.
  intros Hp Hh H. destruct (Offsets_Close_spec _ _ _ _ _ H) as (Hp' & Hcl & HD & HG).
  split; [congruence|]. split; [done|]. destruct Hh as [Hh Hd]. split.
  - destruct Hh as [(tail & ?)|[? Hn]]; [left; exists tail; by rewrite HD|right].
    split; [done|]. apply eq_None_not_Some. rewrite data_at_is_Some, HD, <- data_at_is_Some. simpl.
    by rewrite Hn; intros [].
  - by eapply durable_grown_commits.
Qed.

Lemma crash_held F F' cs d :
  oheld F (mkAoffsets cs d) → crashed F F' →
  ∃ n, (d <= n <= length cs)%nat ∧ oheld F' (mkAoffsets (take n cs) n).
Proof.
  intros [[(tail & Ht & Hv & Hd)|[Hcs Hn]] [Hle Hdur]] Hcr; simpl in *.
  2:{ exists 0%nat. subst cs. simpl in *. split; [lia|].
      split; [right; split; [done|by eapply crash_none]|]. split; [done|by left]. }
  assert (∃ n, (n <= length (log_bytes cs ++ tail))%nat
    ∧ (length (log_bytes (take d cs)) <= n)%nat
    ∧ F' !! file_path = Some (mkFile (take n (log_bytes cs ++ tail)) n)) as (k & Hk & Hdk & HF').
  { destruct Hdur as [->|Hdur].
    - destruct (crash_file _ _ _ _ 0 Hcr Hd) as (k & _ & Hk & HF');
        [|exists k; split; [done|]; simpl; split; [lia|done]].
      apply data_at_Some in Hd as [m Hf]. exists (mkFile (log_bytes cs ++ tail) m). split; [done|lia].
    - destruct (crash_file _ _ _ _ _ Hcr Hd Hdur) as (k & H1 & H2 & HF'). by exists k. }
  assert (∃ n tail', (d <= n <= length cs)%nat ∧ torn_entry tail'
    ∧ take k (log_bytes cs ++ tail) = log_bytes (take n cs) ++ tail')
    as (n & tail' & Hdn & Ht' & Hcut).
  { destruct (Nat.le_gt_cases k (length (log_bytes cs))) as [Hlt|Hgt].
    - destruct (log_bytes_take cs k Hlt) as (n & tail' & Hn & Hcut & Htl & Hj).
      exists n, tail'. rewrite take_app_le by done. split; [by auto|]. split; [|done].
      destruct Htl as [->|(c & m & Hc & Hm & ->)]; [by left|]. right. exists c, m.
      split; [|done]. rewrite Forall_lookup in Hv. by eapply Hv.
    - exists (length cs), (take (k - length (log_bytes cs)) tail). rewrite firstn_all.
      rewrite take_app_ge by lia. split; [lia|]. split; [by apply torn_entry_take|done]. }
  exists n. split; [done|].
  assert (data_at F' file_path = Some (log_bytes (take n cs) ++ tail')) as Hd'
    by (unfold data_at; rewrite HF'; simpl; by rewrite Hcut).
  split; [left; exists tail'; split; [done|]; split; [by apply Forall_take|done]|].
  split; simpl; [rewrite length_take; lia|]. right. eexists. split; [exact HF'|]. simpl.
  pose proof (f_equal length Hcut) as Hl. rewrite take_take, Nat.min_id. rewrite length_app in Hl.
  rewrite length_take in *. lia.
Qed.

Lemma open_held w fl r w' l :
  oheld (w_files w) l → Offsets_OpenStore dir name (with_faults fl w) = (r, w') →
  (∀ q, q ≠ file_path → w_files w' !! q = w_files w !! q)
  ∧ ((∃ s, r = Ok s ∧ orefines (Some s, w') (Serving, l))
     ∨ (r = Err ErrIO ∧ orefines (None, w') (Down, l))).
Proof.
  intros [Hh Hd] H.
  apply (Offsets_OpenStore_runs dir name (with_faults fl w) _ Hh) in H
    as (_ & [(s & -> & Hok & Hp & Hk)|(-> & _ & Hh' & Hk)]); cbn [wld w_files with_faults] in *;
    (split; [apply Hk|]).
  - left. exists s. split; [done|]. split; [done|]. split; [done|]. by eapply durable_kept_commits.
  - right. split; [done|]. split; [done|]. by eapply durable_kept_commits.
Qed.

(** *** The simulation *)

Lemma osimulation n c n' a :
  nstep n c n' → orefines n a → ∃ a', ostep a c a' ∧ orefines n' a'.
Proof.
  intros Hst Href. destruct a as [p l].
  destruct Hst as [s w fl c r s' w' Hp Hn H|s w k|s w fl r s' w' H|s w|o w F' Hcr|w fl r w' H].
  - destruct p; try done; [by eapply commit_serving|..];
      (destruct (commit_refusing s (with_faults fl w) c Hp Hn) as [e He];
        [destruct Href as (_ & ? & _); auto|]; rewrite He in H; injection H as <- <- <-;
       eexists; split; [apply o_commit_refused; by eexists|done]).
  - destruct p; try done; destruct Href as (Hp & Hok & Hd).
    + exists (Serving, l). split; [|done]. rewrite (Get_ok _ _ _ _ _ _ Hok). destruct k. apply o_get.
    + exists (Failed, l). split; [|done]. apply o_get_refused; [done|]. unfold Offsets_Get.
      rewrite Hok. destruct (os_closed s); by eexists.
    + exists (Closed, l). split; [|done]. apply o_get_refused; [done|]. unfold Offsets_Get.
      rewrite Hok. by eexists.
  - assert (os_filePath s = file_path) as Hp by (destruct p; try done; apply Href).
    destruct (close_held _ _ _ _ _ _ _ Hp (orefines_held _ _ Href) H) as (H1 & H2 & H3).
    exists (Closed, l). split; [apply o_close; by intros ->|done].
  - exists (Down, l). split; [apply o_stop; by intros ->|]. exact (orefines_held _ _ Href).
  - destruct l as [cs d]. destruct (crash_held _ F' cs d (orefines_held _ _ Href) Hcr) as (n & Hn & Hh).
    eexists. split; [by apply (o_crash _ _ _ n)|done].
  - destruct p; try done. destruct (open_held _ _ _ _ _ Href H) as (_ & [(s & -> & Hs)|(-> & Hs)]);
      eexists; (split; [|exact Hs]); constructor.
Qed.

End Node.
