(* ===== verification/Topics.v ===== *)
(** * Partition logs and the topic manager
    (internal/partition/log.go and internal/topic/manager.go)

    A partition log is a pointer to a storage.Store that only the topic's slice
    [partitions] holds, so the stores live in the manager's state and an
    operation on a partition updates it in place.  encoding/json is a library:
    [Marshal] and [Unmarshal] are arguments. *)

From S2P Require Import Prelude FileSystem Names Model Format Segment Store Recovery Retention.
From stdpp Require Import pretty.
From Stdlib Require Import Init.Byte Strings.Ascii.
Open Scope Z_scope.

(** ** Partition logs *)

Module partition.

(** [filepath.Join(dataDir, "topics", topic, fmt.Sprintf("partition-%d", id))]. *)
Definition dir (dataDir : path) (topic : string) (id : N) : path :=
  dataDir ++ ["topics"%string; topic; "partition-" +:+ pretty id].

Definition NewLog (topic : string) (partitionID : N) (dataDir : path)
    (segmentMaxBytes maxBatchBytes indexIntervalBytes : Z) (flushMode : string)
    : M World Store :=
  OpenStore (dir dataDir topic partitionID) segmentMaxBytes maxBatchBytes
    indexIntervalBytes flushMode.

Definition Append (now : Z) (records : list ClientRecord) : M (Store * World) (Z * Z) :=
  Store_Append now records.

Definition Read (offset maxBytes : Z) : M (Store * World) (list StoredRecord) :=
  let* r := attempt (Store_Read offset maxBytes) in
  match r with
  | Ok recs => ret recs
  | Err e => if bool_decide (e = ErrOffsetOutOfRange) then fail ErrOffsetOutOfRange else fail e
  | Panic => panic
  end.

Definition Close : M (Store * World) unit := Store_Close.

Definition ApplyRetention (now maxAge maxPartitionBytes : Z) : M (Store * World) unit :=
  Store_ApplyRetention now maxAge maxPartitionBytes.

End partition.

(** ** Topics *)

Definition MaxPartitionsPerTopic : Z := 1024.

Record RetentionPolicy := mkRetentionPolicy {
  MaxAgeSeconds : Z;
  MaxBytes : Z;
}.

Record Topic := mkTopic {
  t_name : string;
  t_partitions : list Store;
  t_retention : RetentionPolicy;
}.

Record DiskTopic := mkDiskTopic {
  dt_Name : string;
  dt_PartitionCount : Z;
  dt_Retention : RetentionPolicy;
}.

(** [topicNameRegex]: a letter or digit, then at most 254 letters, digits, dots,
    underscores and dashes. *)
Definition alnum (c : ascii) : bool :=
  let n := nat_of_ascii c in
  ((97 <=? n) && (n <=? 122) || (65 <=? n) && (n <=? 90) || (48 <=? n) && (n <=? 57))%nat.
Definition name_char (c : ascii) : bool :=
  alnum c || bool_decide (c = "."%char) || bool_decide (c = "_"%char)
  || bool_decide (c = "-"%char).
Fixpoint all_chars (f : ascii → bool) (s : string) : bool :=
  match s with
  | EmptyString => true
  | String c s => f c && all_chars f s
  end.
Definition topicNameRegex (s : string) : bool :=
  match s with
  | EmptyString => false
  | String c s => alnum c && all_chars name_char s && (String.length s <=? 254)%nat
  end.

(** [Topic.Partition]: the position of the partition in the topic. *)
Definition Topic_Partition (t : Topic) (id : Z) : res Store :=
  if u32 (blen (t_partitions t)) <=? id then Err ErrPartitionNotFound else
  match t_partitions t !! Z.to_nat id with
  | Some p => Ok p
  | None => Panic
  end.

Record Manager := mkManager {
  m_topics : gmap string Topic;
  m_dataDir : path;
  m_segmentMaxBytes : Z;
  m_maxBatchBytes : Z;
  m_indexIntervalBytes : Z;
  m_flushMode : string;
  m_defaultMaxAgeSeconds : Z;
  m_defaultMaxBytes : Z;
}.

Definition m_with_topics (ts : gmap string Topic) (m : Manager) : Manager :=
  mkManager ts (m_dataDir m) (m_segmentMaxBytes m) (m_maxBatchBytes m)
    (m_indexIntervalBytes m) (m_flushMode m) (m_defaultMaxAgeSeconds m) (m_defaultMaxBytes m).

Definition SetRetentionDefaults (maxAgeSeconds maxBytes : Z) (m : Manager) : Manager :=
  mkManager (m_topics m) (m_dataDir m) (m_segmentMaxBytes m) (m_maxBatchBytes m)
    (m_indexIntervalBytes m) (m_flushMode m) maxAgeSeconds maxBytes.

(** ** Lookups *)

Definition GetTopic (m : Manager) (name : string) : res Topic :=
  match m_topics m !! name with
  | Some t => Ok t
  | None => Err ErrTopicNotFound
  end.

Definition GetPartition (m : Manager) (topicName : string) (partitionID : Z) : res Store :=
  match m_topics m !! topicName with
  | None => Err ErrTopicNotFound
  | Some t => Topic_Partition t partitionID
  end.

(** [sort.Slice] by name, ascending bytewise. *)
Definition name_le (a b : Topic) : Prop := String.leb (t_name a) (t_name b) = true.
#[global] Instance name_le_dec : RelDecision name_le.
Proof. intros a b. unfold name_le. solve_decision. Defined.

Definition ListTopics (m : Manager) : list Topic :=
  merge_sort name_le (snd <$> map_to_list (m_topics m)).

(** ** Closing *)

Fixpoint close_logs (logs : list Store) (w : World) : list Store * bool * World :=
  match logs with
  | [] => ([], false, w)
  | p :: logs =>
    let '(r, (p, w)) := partition.Close (p, w) in
    let '(logs, err, w) := close_logs logs w in
    (p :: logs, negb (is_ok r) || err, w)
  end.

Fixpoint close_topics (ts : list (string * Topic)) (w : World)
    : list (string * Topic) * bool * World :=
  match ts with
  | [] => ([], false, w)
  | (name, t) :: ts =>
    let '(ps, err1, w) := close_logs (t_partitions t) w in
    let '(ts, err2, w) := close_topics ts w in
    ((name, mkTopic (t_name t) ps (t_retention t)) :: ts, err1 || err2, w)
  end.

Definition Manager_Close : M (Manager * World) unit := fun '(m, w) =>
  let '(ts, err, w) := close_topics (map_to_list (m_topics m)) w in
  (if err then Err (Errorf "errors closing partitions") else Ok tt,
   (m_with_topics (list_to_map ts) m, w)).

(** ** Operations on the files *)

Section Metadata.
Context (Marshal : gmap string DiskTopic → bytes).
(** [json.Unmarshal(data, &meta)] with the map that [meta.Topics] holds before;
    [None] is a nil map. *)
Context (Unmarshal : bytes → option (gmap string DiskTopic) →
           res (option (gmap string DiskTopic))).

Definition metadata_dir (dataDir : path) : path := dataDir ++ ["metadata"%string].
Definition metadata_path (dataDir : path) : path :=
  metadata_dir dataDir ++ ["topics.json"%string].
Definition metadata_tmp (dataDir : path) : path :=
  metadata_dir dataDir ++ ["topics.json.tmp"%string].

(** Lines 351-361: the metadata on disk, or the empty map. *)
Definition read_metadata (dataDir : path) : M World (option (gmap string DiskTopic)) :=
  let* st := attempt (fs_stat (metadata_path dataDir)) in
  match st with
  | Ok _ =>
    let* data := fs_read_file (metadata_path dataDir) in
    lift_res (Unmarshal data (Some ∅))
  | Err ErrNotExist => ret (Some ∅)
  | Err e => fail e
  | Panic => panic
  end.

(** Lines 371-403: write the temporary file and rename it. *)
Definition replace_metadata (dataDir : path) (data : bytes) : M World unit :=
  let tmp := metadata_tmp dataDir in
  let discard := do* ignore (fs_close tmp) in ignore (fs_remove tmp) in
  do* fs_open_trunc tmp in
  do* on_err (fs_write_at tmp data 0) discard in
  do* on_err (fs_sync tmp) discard in
  do* on_err (fs_close tmp) (ignore (fs_remove tmp)) in
  on_err (fs_rename tmp (metadata_path dataDir)) (ignore (fs_remove tmp)).

(** [saveMetadata]: an error of the monad is [(false, err)]; a value is
    [(true, err)]. *)
Definition saveMetadata (dataDir : path) (newName : string) (newTopic : DiskTopic)
    : M World (res unit) :=
  do* fs_mkdir_all (metadata_dir dataDir) in
  let* topics := read_metadata dataDir in
  match topics with
  | None => panic
  | Some topics =>
    do* replace_metadata dataDir (Marshal (<[newName := newTopic]> topics)) in
    attempt (fs_sync_dir (metadata_dir dataDir))
  end.

(** Lines 230-240 and 260-267: close the logs, remove their directories and the
    topic's directory; errors are dropped. *)
Fixpoint remove_dirs (ds : list path) : M World unit :=
  match ds with
  | [] => ret tt
  | d :: ds => do* ignore (fs_remove_all d) in remove_dirs ds
  end.

Definition rollback (dataDir : path) (name : string) (logs : list Store) (dirs : list path)
    : M World unit :=
  do* (fun w => (Ok tt, snd (close_logs logs w))) in
  do* remove_dirs dirs in
  ignore (fs_remove_dir (dataDir ++ ["topics"%string; name])).

(** Lines 223-243: open the logs of partitions [i], [i + 1], ... *)
Fixpoint open_partitions (m : Manager) (name : string) (n : nat) (i : N)
    (partitions : list Store) (createdDirs : list path) : M World (list Store) :=
  match n with
  | O => ret partitions
  | S n =>
    let createdDirs := createdDirs ++ [partition.dir (m_dataDir m) name i] in
    let* p := on_err (partition.NewLog name i (m_dataDir m) (m_segmentMaxBytes m)
                        (m_maxBatchBytes m) (m_indexIntervalBytes m) (m_flushMode m))
                (rollback (m_dataDir m) name partitions createdDirs) in
    open_partitions m name n (i + 1) (partitions ++ [p]) createdDirs
  end.

Definition partition_dirs (dataDir : path) (name : string) (n : nat) : list path :=
  (fun i => partition.dir dataDir name (N.of_nat i)) <$> seq 0 n.

(** The retention policy with the defaults filled in. *)
Definition with_defaults (m : Manager) (r : RetentionPolicy) : RetentionPolicy :=
  mkRetentionPolicy
    (if MaxAgeSeconds r =? 0 then m_defaultMaxAgeSeconds m else MaxAgeSeconds r)
    (if MaxBytes r =? 0 then m_defaultMaxBytes m else MaxBytes r).

Definition CreateTopic (name : string) (partitionCount : Z) (retention : RetentionPolicy)
    : M (Manager * World) Topic :=
  if negb (topicNameRegex name) then fail ErrInvalidTopicName else
  if partitionCount <=? 0 then fail (Errorf "partition count must be greater than zero") else
  if MaxPartitionsPerTopic <? partitionCount then fail ErrTooManyPartitions else
  let* m := get_obj in
  match m_topics m !! name with
  | Some _ => fail ErrTopicExists
  | None =>
    let retention := with_defaults m retention in
    let n := Z.to_nat partitionCount in
    let* partitions := io (open_partitions m name n 0 [] []) in
    let topic := mkTopic name partitions retention in
    let* _ := on_err
      (io (saveMetadata (m_dataDir m) name (mkDiskTopic name partitionCount retention)))
      (io (rollback (m_dataDir m) name partitions (partition_dirs (m_dataDir m) name n))) in
    do* modify (fun m => m_with_topics (<[name := topic]> (m_topics m)) m) in
    ret topic
  end.

(** ** Start-up *)

(** Lines 151-177: open the partitions of a topic; on an error those already
    open are closed. *)
Fixpoint load_partitions (m : Manager) (name : string) (n : nat) (i : N)
    (partitions : list Store) : M World (list Store) :=
  match n with
  | O => ret partitions
  | S n =>
    let pDir := partition.dir (m_dataDir m) name i in
    let abandon e : M World (list Store) := fun w =>
      (Err e, snd (close_logs partitions w)) in
    let* st := attempt (fs_stat_dir pDir) in
    match st with
    | Err ErrNotExist => abandon (Errorf "metadata references missing partition directory")
    | _ =>
      let* r := attempt (partition.NewLog name i (m_dataDir m) (m_segmentMaxBytes m)
                           (m_maxBatchBytes m) (m_indexIntervalBytes m) (m_flushMode m)) in
      match r with
      | Ok p => load_partitions m name n (i + 1) (partitions ++ [p])
      | Err e => abandon e
      | Panic => panic
      end
    end
  end.

(** Lines 137-184: the topics of the metadata, in the order of the map's
    iteration; an error closes everything that is open. *)
Fixpoint load_topics (ts : list (string * DiskTopic)) : M (Manager * World) unit :=
  match ts with
  | [] => ret tt
  | (name, dt) :: ts =>
    let corrupt := do* ignore Manager_Close in fail (Errorf "metadata corruption") in
    if bool_decide (name ≠ dt_Name dt) then corrupt else
    if negb (topicNameRegex (dt_Name dt)) then corrupt else
    if (dt_PartitionCount dt <? 1) || (MaxPartitionsPerTopic <? dt_PartitionCount dt)
    then corrupt else
    let* m := get_obj in
    let* partitions := on_err
      (io (load_partitions m name (Z.to_nat (dt_PartitionCount dt)) 0 []))
      Manager_Close in
    do* modify (fun m => m_with_topics
          (<[name := mkTopic (dt_Name dt) partitions (dt_Retention dt)]> (m_topics m)) m) in
    load_topics ts
  end.

Definition NewManager (dataDir : path) (segmentMaxBytes maxBatchBytes indexIntervalBytes : Z)
    (flushMode : string) : M World Manager := fun w =>
  let mgr := mkManager ∅ dataDir segmentMaxBytes maxBatchBytes indexIntervalBytes
               flushMode 0 0 in
  let load : M (Manager * World) unit :=
    let* st := attempt (io (fs_stat (metadata_path dataDir))) in
    match st with
    | Ok _ =>
      let* data := io (fs_read_file (metadata_path dataDir)) in
      let* meta := lift_res (Unmarshal data None) in
      match meta with
      | None => ret tt
      | Some topics => load_topics (map_to_list topics)
      end
    | _ => ret tt
    end in
  let '(r, (mgr, w)) := load (mgr, w) in
  (let! _ := r in Ok mgr, w).

End Metadata.

(** ** Retention over all topics *)

(** [time.Duration(seconds) * time.Second]. *)
Definition retention_age (seconds : Z) : Z := i64 (i64 seconds * 1000000000).

(** The partitions of one topic; [ctx k] tells whether the [k]-th check of the
    context finds it cancelled, and [clock k] is the time that the partition reads
    after it. The flag tells that the sweep goes on. *)
Fixpoint retain_logs (ctx : nat → bool) (clock : nat → Z) (k : nat) (maxAge maxBytes : Z)
    (logs : list Store) (w : World) : list Store * nat * bool * World :=
  match logs with
  | [] => ([], k, true, w)
  | p :: logs =>
    if ctx k then (p :: logs, S k, false, w) else
    let '(_, (p, w)) := partition.ApplyRetention (clock k) maxAge maxBytes (p, w) in
    if ctx (S k) then (p :: logs, S (S k), false, w) else
    let '(logs, k, go, w) := retain_logs ctx clock (S (S k)) maxAge maxBytes logs w in
    (p :: logs, k, go, w)
  end.

Fixpoint retain_topics (ctx : nat → bool) (clock : nat → Z) (k : nat) (ts : list (string * Topic))
    (w : World) : list (string * Topic) * World :=
  match ts with
  | [] => ([], w)
  | (name, t) :: ts =>
    let maxAge := retention_age (MaxAgeSeconds (t_retention t)) in
    let maxBytes := MaxBytes (t_retention t) in
    let '(ps, k, go, w) := retain_logs ctx clock k maxAge maxBytes (t_partitions t) w in
    let t := mkTopic (t_name t) ps (t_retention t) in
    if (go : bool) then
      let '(ts, w) := retain_topics ctx clock k ts w in ((name, t) :: ts, w)
    else ((name, t) :: ts, w)
  end.

Definition Manager_ApplyRetention (ctx : nat → bool) (clock : nat → Z) : M (Manager * World) unit :=
  fun '(m, w) =>
    let '(ts, w) := retain_topics ctx clock 0 (map_to_list (m_topics m)) w in
    (Ok tt, (m_with_topics (list_to_map ts) m, w)).
