(* ===== verification/TopicsSpec.v ===== *)
(** * Properties of the topic manager

    Names, the registry, the metadata file and its atomic replacement, start-up, and the
    retention sweep. *)

From S2P Require Import Prelude FileSystem Runs Names Utf8 Model Format Segment Store.
From S2P Require Import Recovery Retention StoreInv StoreAppend StoreRetention Offsets OffsetsSpec.
From S2P Require Import Topics.
From stdpp Require Import pretty.
From Stdlib Require Import Init.Byte Strings.Ascii.
Open Scope Z_scope.

(** ** Topic names *)

Lemma all_chars_elem f s : all_chars f s = true → Forall (fun c => f c = true) (String.list_ascii_of_string s).
Proof.
  induction s as [|c s IH]; [constructor|]. simpl. intros [? ?]%andb_true_iff. constructor; auto.
Qed.

Lemma length_list_ascii s : length (String.list_ascii_of_string s) = String.length s.
Proof. induction s as [|c s IH]; [done|]. simpl. by rewrite IH. Qed.

Lemma list_byte_ascii s :
  String.list_byte_of_string s = Ascii.byte_of_ascii <$> String.list_ascii_of_string s.
Proof. unfold String.list_byte_of_string. induction (String.list_ascii_of_string s); [done|]. simpl. by f_equal. Qed.

Lemma name_char_ascii c : name_char c = true → Z_of_byte (Ascii.byte_of_ascii c) < 128.
Proof.
  destruct c as [[] [] [] [] [] [] [] []]; vm_compute; congruence || reflexivity.
Qed.

Lemma alnum_name_char c : alnum c = true → name_char c = true.
Proof. unfold name_char. by intros ->. Qed.

Lemma topicNameRegex_chars s :
  topicNameRegex s = true →
  Forall (fun c => name_char c = true) (String.list_ascii_of_string s)
  ∧ (1 <= String.length s <= 255)%nat.
Proof.
  destruct s as [|c s]; [done|]. cbn [topicNameRegex]. rewrite !andb_true_iff, Nat.leb_le.
  intros [[Hc Hs] Hl]. simpl. split; [|lia]. constructor; [by apply alnum_name_char|].
  by apply all_chars_elem.
Qed.

(** The bytes of a topic name, as the offset store sees them. *)
Definition name_bytes (s : string) : bytes := String.list_byte_of_string s.

Lemma topic_name_valid s :
  topicNameRegex s = true → valid_name MaxTopicNameBytes (name_bytes s).
Proof.
  intros H. apply topicNameRegex_chars in H as [Hc Hl].
  assert (blen (name_bytes s) = Z.of_nat (String.length s)) as Hb.
  { unfold name_bytes. by rewrite list_byte_ascii, blen_fmap, blen_eq, length_list_ascii. }
  split; rewrite ?Hb; unfold MaxTopicNameBytes; try lia.
  apply ValidString_ascii. unfold name_bytes. rewrite list_byte_ascii, Forall_fmap.
  eapply Forall_impl; [exact Hc|]. intros c. apply name_char_ascii.
Qed.

(** ** The registry *)

Record topic_ok (name : string) (t : Topic) : Prop := mkTopicOk {
  to_name : t_name t = name;
  to_valid : topicNameRegex name = true;
  to_count : 1 <= blen (t_partitions t) <= MaxPartitionsPerTopic;
}.

Definition manager_ok (m : Manager) : Prop :=
  ∀ name t, m_topics m !! name = Some t → topic_ok name t.

Lemma manager_ok_insert m name t :
  manager_ok m → topic_ok name t → manager_ok (m_with_topics (<[name := t]> (m_topics m)) m).
Proof.
  intros Hm Ht n t' H. simpl in H. apply lookup_insert_Some in H as [[<- <-]|[_ H]]; auto.
Qed.

Lemma open_partitions_length m name n i ps ds w l w' :
  open_partitions m name n i ps ds w = (Ok l, w') → length l = (length ps + n)%nat.
Proof.
  revert i ps ds w. induction n as [|n IH]; intros i ps ds w H; cbn [open_partitions] in H.
  - unfold ret in H. simplify_eq. lia.
  - apply bind_ok in H as (p & w1 & _ & H). apply IH in H. rewrite length_app in H. simpl in H. lia.
Qed.

Lemma load_partitions_length m name n i ps w l w' :
  load_partitions m name n i ps w = (Ok l, w') → length l = (length ps + n)%nat.
Proof.
  revert i ps w. induction n as [|n IH]; intros i ps w H; cbn [load_partitions] in H.
  - unfold ret in H. simplify_eq. lia.
  - apply bind_ok in H as (st & w1 & _ & H).
    assert (∀ w2, bind (attempt (partition.NewLog name i (m_dataDir m) (m_segmentMaxBytes m)
      (m_maxBatchBytes m) (m_indexIntervalBytes m) (m_flushMode m))) (fun r => match r with
      | Ok p => load_partitions m name n (i + 1) (ps ++ [p])
      | Err e => fun w => (Err e, snd (close_logs ps w)) | Panic => panic end) w2 = (Ok l, w') →
      length l = (length ps + S n)%nat) as Hgo.
    { intros w2 H2. apply bind_ok in H2 as (r & w3 & _ & H2). destruct r as [p|e|]; [|done..].
      apply IH in H2. rewrite length_app in H2. simpl in H2. lia. }
    destruct st as [[]|e|]; [exact (Hgo _ H)| |exact (Hgo _ H)].
    destruct e; first [exact (Hgo _ H)|discriminate H].
Qed.

(** ** The metadata file *)

Section Metadata.
Context (Marshal : gmap string DiskTopic → bytes).
Context (Unmarshal : bytes → option (gmap string DiskTopic) →
           res (option (gmap string DiskTopic))).

Lemma metadata_paths_ne dataDir : metadata_path dataDir ≠ metadata_tmp dataDir.
Proof. unfold metadata_path, metadata_tmp. intros [_ Heq]%app_inj_tail. done. Qed.

(** Every file but [p] is as in [F]. *)
Definition only (p : path) (F : gmap path file) (w : World) : Prop :=
  ∀ q, q ≠ p → w_files w !! q = F !! q.

Lemma only_remove p F w : only p F w → only p F (snd (fs_remove p w)).
Proof. intros H q Hq. destruct (remove_keeps p w q Hq) as [-> _]. auto. Qed.

Lemma discard_only p F w :
  only p F w →
  quiet w (snd (ignore (fs_remove p) w)) ∧ only p F (snd (ignore (fs_remove p) w)).
Proof.
  intros H. unfold ignore. simpl. split; [|by apply only_remove].
  apply (remove_keeps p w (p ++ [""%string])). intros Heq%(f_equal length).
  rewrite length_app in Heq. simpl in Heq. lia.
Qed.

Lemma close_discard_only p F w :
  only p F w →
  let h := bind (ignore (fs_close p)) (fun _ => ignore (fs_remove p)) in
  quiet w (snd (h w)) ∧ only p F (snd (h w)).
Proof.
  intros H h. unfold h, bind, ignore at 1 3. simpl.
  destruct (fs_close p w) as [r w1] eqn:E. apply fs_close_spec in E as (HQ & HF & _). simpl.
  destruct (discard_only p F w1) as [HQ' H']; [intros q Hq; rewrite HF; auto|].
  split; [eauto with fs|done].
Qed.

(** Writing the new metadata: the file is replaced as a whole, by data that is
    already synced, or it stays as it was. *)
Lemma replace_metadata_runs dataDir data w :
  runs (replace_metadata dataDir data) w
    (fun _ w' => w_files w' !! metadata_path dataDir = Some (mkFile data (length data)))
    (only (metadata_tmp dataDir) (w_files w)).
Proof.
  pose proof (metadata_paths_ne dataDir) as Hne. unfold replace_metadata.
  set (tmp := metadata_tmp dataDir) in *. set (mp := metadata_path dataDir) in *.
  assert (∀ w' f, w_files w' = <[tmp := f]> (w_files w) → only tmp (w_files w) w') as Honly
    by (intros w' f HF q Hq; by rewrite HF, lookup_insert_ne).
  apply runs_bind, runs_open_trunc; [|intros w' HF q _; by rewrite HF].
  intros w1 HF1. apply runs_bind.
  eapply runs_on_err; [|exact (close_discard_only tmp (w_files w))].
  eapply runs_write_at; [by rewrite HF1, lookup_insert_eq|..]; simpl; rewrite HF1;
    setoid_rewrite insert_insert_eq; [|intros w' n _ HF; by eapply Honly].
  intros w2 HF2. change (Z.to_nat 0) with (length (@nil byte)) in HF2. rewrite overwrite_end in HF2.
  cbn [app] in HF2. apply runs_bind.
  eapply runs_on_err; [|exact (close_discard_only tmp (w_files w))].
  eapply runs_sync; [by rewrite HF2, lookup_insert_eq|..]; simpl; rewrite HF2;
    rewrite ?insert_insert_eq; [|intros w' HF; by eapply Honly].
  intros w3 HF3. apply runs_bind.
  eapply runs_on_err; [|exact (discard_only tmp (w_files w))].
  apply runs_close; [|intros w' HF; rewrite HF3 in HF; by eapply Honly].
  intros w4 HF4. rewrite HF3 in HF4.
  eapply runs_on_err; [|exact (discard_only tmp (w_files w))].
  eapply runs_rename; [by rewrite HF4, lookup_insert_eq|..].
  - intros w5 HF5. by rewrite HF5, lookup_insert_eq.
  - intros w5 HF5. rewrite HF4 in HF5. by eapply Honly.
Qed.

Lemma fs_stat_files p w r w' :
  fs_stat p w = (r, w') →
  w_files w' = w_files w ∧ (r = Err ErrNotExist → w_files w !! p = None).
Proof.
  intros H. unfold fs_stat in H. pop_outcome H o w1 HF HQ HS.
  rewrite HF in H. destruct o; destruct (w_files w !! p); by injection H as <- <-.
Qed.

Lemma fs_read_file_files p w r w' :
  fs_read_file p w = (r, w') →
  w_files w' = w_files w ∧ (∀ d, r = Ok d → data_at (w_files w) p = Some d).
Proof.
  intros H. unfold fs_read_file in H. pop_outcome H o w1 HF HQ HS. unfold data_at.
  rewrite HF in H. destruct o; destruct (w_files w !! p) as [f|]; injection H as <- <-;
    (split; [done|]); intros d Hd; by simplify_eq.
Qed.

(** The topics that the metadata file lists. *)
Definition listed (F : gmap path file) (dataDir : path) (v : option (gmap string DiskTopic))
    : Prop :=
  (F !! metadata_path dataDir = None ∧ v = Some ∅)
  ∨ (∃ d, data_at F (metadata_path dataDir) = Some d ∧ Unmarshal d (Some ∅) = Ok v).

Lemma read_metadata_spec dataDir w r w' :
  read_metadata Unmarshal dataDir w = (r, w') →
  w_files w' = w_files w ∧ (∀ v, r = Ok v → listed (w_files w) dataDir v).
Proof.
  intros H. unfold read_metadata in H. unfold bind at 1, attempt in H.
  destruct (fs_stat _ w) as [st w1] eqn:E1. apply fs_stat_files in E1 as [HF1 Hn].
  destruct st as [n|e|]; [| |by injection H as <- <-].
  - unfold bind in H. destruct (fs_read_file _ w1) as [rd w2] eqn:E2.
    apply fs_read_file_files in E2 as [HF2 Hd]. rewrite HF1 in Hd.
    destruct rd as [d|e|]; injection H as <- <-; (split; [congruence|]); try done.
    intros v Hv. right. exists d. auto.
  - destruct e; injection H as <- <-; (split; [done|]); intros v Hv; try done.
    injection Hv as <-. left. auto.
Qed.

Lemma saveMetadata_spec dataDir name dt w r w' :
  saveMetadata Marshal Unmarshal dataDir name dt w = (r, w') →
  (∃ topics x, r = Ok x ∧ listed (w_files w) dataDir (Some topics)
     ∧ let data := Marshal (<[name := dt]> topics) in
       w_files w' !! metadata_path dataDir = Some (mkFile data (length data)))
  ∨ ((∀ x, r ≠ Ok x) ∧ w_files w' !! metadata_path dataDir = w_files w !! metadata_path dataDir).
Proof.
  intros H. unfold saveMetadata in H.
  assert (∀ r1 w1, fs_mkdir_all (metadata_dir dataDir) w = (r1, w1) → w_files w1 = w_files w)
    as Hmk.
  { intros r1 w1 H1. unfold fs_mkdir_all in H1. pop_outcome H1 o w2 HF HQ HS.
    destruct o; injection H1 as _ <-; done. }
  binv H u w1 H1; apply Hmk in H1; [|right; by rewrite H1..].
  binv H v w2 H2; apply read_metadata_spec in H2 as [HF2 Hv];
    [|right; (split; [done|]); congruence..].
  rewrite H1 in Hv, HF2. specialize (Hv v eq_refl).
  destruct v as [topics|]; [|injection H as <- <-; right; (split; [done|]); congruence].
  binv H x w3 H3; apply replace_metadata_runs in H3 as (_ & [(y & Hy & Hf)|(Hy & _ & Ho)]);
    simplify_eq.
  - left. exists topics. unfold attempt in H.
    destruct (fs_sync_dir _ w3) as [r4 w4] eqn:E4. apply fs_sync_dir_spec in E4 as (_ & HF4 & Hr4).
    destruct Hr4 as [->|[-> _]]; injection H as <- <-; eexists; (split; [done|]);
      (split; [done|]); by rewrite HF4.
  - right. split; [done|]. rewrite Ho, HF2; [done|]. apply metadata_paths_ne.
Qed.

(** ** Properties *)

(** C25: the metadata file changes atomically. Whatever system calls fail,
    saveMetadata either commits, and then topics.json holds the topics it listed
    before plus the new one, completely written and synced before the rename; or
    it does not commit, and topics.json is exactly what it was. *)
Theorem saveMetadata_atomic dataDir name dt w r w' :
  saveMetadata Marshal Unmarshal dataDir name dt w = (r, w') →
  (∃ topics x, r = Ok x ∧ listed (w_files w) dataDir (Some topics)
     ∧ let data := Marshal (<[name := dt]> topics) in
       w_files w' !! metadata_path dataDir = Some (mkFile data (length data)))
  ∨ ((∀ x, r ≠ Ok x) ∧ w_files w' !! metadata_path dataDir = w_files w !! metadata_path dataDir).
Proof. apply saveMetadata_spec. Qed.

(** C26: CreateTopic is all or nothing for the registry. Under any schedule of
    failures it either returns the new topic, which was not registered before,
    has the requested number of partitions and the defaulted retention policy,
    and is the only change of a registry that stays well-formed; or it does not
    return a topic and the registry is unchanged. *)
Theorem CreateTopic_registers name count retention m w r m' w' :
  manager_ok m →
  CreateTopic Marshal Unmarshal name count retention (m, w) = (r, (m', w')) →
  (∃ t, r = Ok t ∧ m_topics m !! name = None
     ∧ m' = m_with_topics (<[name := t]> (m_topics m)) m ∧ manager_ok m'
     ∧ t_name t = name ∧ blen (t_partitions t) = count
     ∧ t_retention t = with_defaults m retention)
  ∨ ((∀ t, r ≠ Ok t) ∧ m' = m).
Proof.
  intros Hm H. unfold CreateTopic in H.
  destruct (topicNameRegex name) eqn:Hn; [|injection H as <- <- <-; by right].
  destruct (Z.leb_spec count 0) as [|Hpos]; [injection H as <- <- <-; by right|].
  destruct (Z.ltb_spec MaxPartitionsPerTopic count) as [|Hmax]; [injection H as <- <- <-; by right|].
  cbn [negb] in H. unfold bind at 1, get_obj in H.
  destruct (m_topics m !! name) as [t0|] eqn:Et; [injection H as <- <- <-; by right|].
  binv H ps s1 H1; [destruct s1 as [m1 w1]|..]; apply io_inv in H1 as [-> H1];
    [|by right..].
  apply open_partitions_length in H1. simpl in H1.
  unfold bind at 1, on_err in H.
  destruct (io _ (m, w1)) as [r2 [m2 w2]] eqn:E2. apply io_inv in E2 as [-> E2].
  destruct r2 as [x|e|].
  - injection H as <- <- <-. left. eexists. split; [done|]. split; [done|]. split; [done|].
    assert (blen ps = count) as Hc by (unfold blen; rewrite H1; lia).
    split; [|done]. apply manager_ok_insert; [done|]. split; [done|done|simpl; lia].
  - unfold io in H. destruct (rollback _ _ _ _ w2) as [r3 w3]. injection H as <- <- <-. by right.
  - injection H as <- <- <-. by right.
Qed.

(** The refusals of CreateTopic, in the order of the code: an invalid name, a
    partition count that is not positive, one above 1024, a name that is already
    registered. Nothing changes, not even on disk. *)
Theorem CreateTopic_refusals name count retention m w :
  let refused e :=
    CreateTopic Marshal Unmarshal name count retention (m, w) = (Err e, (m, w)) in
  (topicNameRegex name = false → refused ErrInvalidTopicName)
  ∧ (topicNameRegex name = true → count <= 0 →
       refused (Errorf "partition count must be greater than zero"))
  ∧ (topicNameRegex name = true → 1024 < count → refused ErrTooManyPartitions)
  ∧ (topicNameRegex name = true → 0 < count <= 1024 → is_Some (m_topics m !! name) →
       refused ErrTopicExists).
Proof.
  unfold CreateTopic, MaxPartitionsPerTopic. split_and!.
  - by intros ->.
  - intros -> Hc. by rewrite (proj2 (Z.leb_le _ _) Hc).
  - intros -> Hc. cbn [negb]. destruct (Z.leb_spec count 0); [lia|].
    by rewrite (proj2 (Z.ltb_lt _ _) Hc).
  - intros -> Hc [t Ht]. cbn [negb]. destruct (Z.leb_spec count 0); [lia|].
    destruct (Z.ltb_spec 1024 count); [lia|]. unfold bind at 1, get_obj. by rewrite Ht.
Qed.

End Metadata.

(** A name that CreateTopic accepts is a safe path component and a valid topic
    of the offset store: it has 1 to 255 characters, is neither "." nor "..",
    contains no separator, and Commit accepts it as a topic. *)
Theorem topic_names_are_safe s :
  topicNameRegex s = true →
  (1 <= String.length s <= 255)%nat ∧ s ≠ "."%string ∧ s ≠ ".."%string
  ∧ Forall (fun c => c ≠ "/"%char ∧ c ≠ "\"%char ∧ c ≠ "000"%char)
      (String.list_ascii_of_string s)
  ∧ invalid_name MaxTopicNameBytes (String.list_byte_of_string s) = false.
Proof.
  intros H. pose proof (topicNameRegex_chars s H) as [Hc Hl]. split; [done|].
  split; [by intros ->|]. split; [by intros ->|]. split.
  - eapply Forall_impl; [exact Hc|]. intros c Hch. split_and!; by intros ->.
  - apply invalid_name_false. by apply (topic_name_valid s).
Qed.

(** GetPartition on a well-formed registry: ErrTopicNotFound for an unknown
    topic, ErrPartitionNotFound exactly for ids at or above the number of
    partitions, and otherwise the partition at that position; it never indexes
    out of range. *)
Theorem GetPartition_total m name id :
  manager_ok m → 0 <= id < two32 →
  (m_topics m !! name = None ∧ GetPartition m name id = Err ErrTopicNotFound)
  ∨ (∃ t, m_topics m !! name = Some t
     ∧ ((blen (t_partitions t) <= id ∧ GetPartition m name id = Err ErrPartitionNotFound)
        ∨ (∃ p, t_partitions t !! Z.to_nat id = Some p ∧ GetPartition m name id = Ok p))).
Proof.
  intros Hm Hid. unfold GetPartition. destruct (m_topics m !! name) as [t|] eqn:E; [right|by left].
  exists t. split; [done|]. unfold Topic_Partition. destruct (Hm _ _ E) as [_ _ Hc].
  unfold MaxPartitionsPerTopic in Hc. rewrite u32_small by lia.
  destruct (Z.leb_spec (blen (t_partitions t)) id) as [Hle|Hlt]; [by left|right].
  destruct (lookup_lt_is_Some_2 (t_partitions t) (Z.to_nat id)) as [p Hp].
  { unfold blen in Hlt. lia. }
  exists p. by rewrite Hp.
Qed.

(** ListTopics returns every registered topic exactly once, in ascending
    order of the names. *)
Theorem ListTopics_sorted m :
  Sorted name_le (ListTopics m) ∧ ListTopics m ≡ₚ snd <$> map_to_list (m_topics m).
Proof.
  assert (Total name_le) as Htotal.
  { intros a b. unfold name_le. destruct (String.leb_total (t_name a) (t_name b)); auto. }
  split; [apply Sorted_merge_sort, _|apply merge_sort_Permutation].
Qed.

(** ** The age of a retention policy *)

Lemma retention_age_exact s : 0 <= s <= 9223372036 → retention_age s = s * 1000000000.
Proof. intros Hs. unfold retention_age. rewrite (i64_small s), i64_small; lia. Qed.

(** The conversion of a topic's maximum age to a time.Duration is exact up to
    9223372036 seconds, and wraps for the next value: a topic that asks to keep
    its records for 9223372037 seconds (292 years) gets a negative age. *)
Theorem retention_age_overflow :
  (∀ s, 0 <= s <= 9223372036 → retention_age s = s * 1000000000)
  ∧ retention_age 9223372037 = -9223372036709551616.
Proof. split; [exact retention_age_exact|]. vm_compute. reflexivity. Qed.


(** ** Start-up *)

(** The registered topic that the metadata entry describes. *)
Definition describes (name : string) (dt : DiskTopic) (t : Topic) : Prop :=
  topic_ok name t ∧ t_retention t = dt_Retention dt
  ∧ blen (t_partitions t) = dt_PartitionCount dt.

Lemma load_topics_spec ts m w m' w' :
  NoDup ts.*1 → load_topics ts (m, w) = (Ok tt, (m', w')) →
  (∀ name dt, (name, dt) ∈ ts → ∃ t, m_topics m' !! name = Some t ∧ describes name dt t)
  ∧ (∀ name, name ∉ ts.*1 → m_topics m' !! name = m_topics m !! name).
Proof.
  revert m w. induction ts as [|[name dt] ts IH]; intros m w Hnd H; cbn [load_topics] in H.
  { injection H as <- <-. split; [|done]. intros ? ? Hin. by apply not_elem_of_nil in Hin. }
  assert (∀ x, bind (ignore Manager_Close) (fun _ => fail (Errorf "metadata corruption")) (m, w)
    ≠ (Ok tt, x)) as Hcorrupt.
  { intros x. unfold bind, ignore. by destruct (Manager_Close (m, w)). }
  case_bool_decide as Hname; [by apply Hcorrupt in H|].
  destruct (topicNameRegex (dt_Name dt)) eqn:Hre; cbn [negb] in H; [|by apply Hcorrupt in H].
  destruct (Z.ltb_spec (dt_PartitionCount dt) 1); cbn [orb] in H; [by apply Hcorrupt in H|].
  destruct (Z.ltb_spec MaxPartitionsPerTopic (dt_PartitionCount dt));
    [by apply Hcorrupt in H|]. clear Hcorrupt.
  unfold bind at 1, get_obj in H. apply bind_ok in H as (ps & [m1 w1] & Hl & H).
  apply on_err_inv in Hl as [(a & Hl & Ha)|[(e & s1 & _ & He & _)|(_ & He)]]; [|done..].
  injection Ha as <-. apply io_inv in Hl as [-> Hl]. apply load_partitions_length in Hl.
  unfold bind at 1, modify in H. simpl in Hnd. apply NoDup_cons in Hnd as [Hnot Hnd].
  apply IH in H as [Hin Hout]; [|done]. split.
  - intros n d [[= -> ->]|Hts]%elem_of_cons; [|auto]. rewrite Hout by done. simpl.
    rewrite lookup_insert_eq. eexists. split; [done|]. simpl in Hl.
    assert (blen ps = dt_PartitionCount dt) as Hc by (unfold blen; rewrite Hl; lia).
    split; [|done]. rewrite Hname in *. split; simpl; [done|done|lia].
  - intros n Hn. simpl in Hn. apply not_elem_of_cons in Hn as [Hne Hn].
    rewrite Hout by done. simpl. by rewrite lookup_insert_ne.
Qed.

Section Startup.
Context (Unmarshal : bytes → option (gmap string DiskTopic) →
           res (option (gmap string DiskTopic))).

(** C27: when start-up succeeds without I/O failures, the registry is exactly what
    topics.json lists: every listed topic is registered under its name with its
    partition count and retention policy, and nothing else is. *)
Theorem NewManager_loads dataDir segMax maxBatch interval flushMode w m w' d topics :
  w_faults w = [] → data_at (w_files w) (metadata_path dataDir) = Some d →
  Unmarshal d None = Ok (Some topics) →
  NewManager Unmarshal dataDir segMax maxBatch interval flushMode w = (Ok m, w') →
  manager_ok m
  ∧ ∀ name, match topics !! name with
            | Some dt => ∃ t, m_topics m !! name = Some t ∧ describes name dt t
            | None => m_topics m !! name = None
            end.
Proof.
  intros Hnf Hd Hu H. pose proof (data_at_Some _ _ _ Hd) as [k Hf]. unfold NewManager in H.
  set (m0 := mkManager _ _ _ _ _ _ _ _) in H.
  destruct (bind _ _ (m0, w)) as [r [m1 w1]] eqn:E. destruct r as [[]|e|]; [|done..].
  injection H as -> <-. apply bind_ok in E as (st & [m2 w2] & Hst & E).
  unfold attempt, io in Hst. destruct (fs_stat _ w) as [rs ws] eqn:Es.
  apply (fs_stat_spec _ _ _ _ _ Hf) in Es as (HQ & HF & [->|[_ ?]]); [|done].
  injection Hst as <- <- <-. apply bind_ok in E as (data & [m3 w3] & Hrd & E).
  apply io_inv in Hrd as [-> Hrd]. apply fs_read_file_files in Hrd as [HF3 Hdat].
  specialize (Hdat data eq_refl). rewrite HF, Hd in Hdat. injection Hdat as <-.
  rewrite Hu in E. unfold bind, lift_res in E.
  apply load_topics_spec in E as [Hin Hout]; [|apply NoDup_fst_map_to_list].
  assert (∀ name, match topics !! name with
    | Some dt => ∃ t, m_topics m !! name = Some t ∧ describes name dt t
    | None => m_topics m !! name = None end) as Hall.
  { intros name. destruct (topics !! name) as [dt|] eqn:Et.
    - apply Hin. by apply elem_of_map_to_list.
    - rewrite Hout; [done|]. intros Hx. apply list_elem_of_fmap in Hx as ([n x] & -> & Hx).
      apply elem_of_map_to_list in Hx. simpl in Et. congruence. }
  split; [|done]. intros name t Ht. specialize (Hall name).
  destruct (topics !! name) as [dt|]; [|congruence].
  destruct Hall as (t' & Ht' & [Hok _]). congruence.
Qed.

(** Start-up treats every failure of os.Stat on topics.json as "no metadata":
    with the file present and readable, a single failing Stat makes NewManager
    succeed with an empty registry. *)
Theorem NewManager_hides_stat_failure dataDir segMax maxBatch interval flushMode F k n :
  is_Some (F !! metadata_path dataDir) →
  ∃ m w', NewManager Unmarshal dataDir segMax maxBatch interval flushMode
            (mkWorld F ∅ [Fails n] k) = (Ok m, w') ∧ m_topics m = ∅.
Proof.
  intros [f Hf]. unfold NewManager, bind, attempt, io, fs_stat, next_outcome. simpl.
  eexists _, _. split; reflexivity.
Qed.

End Startup.

(** ** Concrete registries *)

(** A codec for the one topic "orders" with two partitions. *)
Definition demo_disk_topic : DiskTopic := mkDiskTopic "orders" 2 (mkRetentionPolicy 3600 4096).
Definition demo_topics : gmap string DiskTopic := {[ "orders"%string := demo_disk_topic ]}.
Definition demo_Marshal (ts : gmap string DiskTopic) : bytes := [Byte.x7b; Byte.x7d].
Definition demo_Unmarshal (d : bytes) (old : option (gmap string DiskTopic))
    : res (option (gmap string DiskTopic)) :=
  if bool_decide (d = []) then Err (Errorf "unexpected end of JSON input")
  else Ok (Some demo_topics).

Definition demo_meta_world (faults : list outcome) : World :=
  mkWorld {[ metadata_path ["data"%string] := mkFile [Byte.x7b; Byte.x7d] 2 ]} ∅ faults [].
Definition demo_manager : Manager := mkManager ∅ ["data"%string] 1048576 65536 4096 "sync" 3600 4096.

Lemma demo_manager_ok : manager_ok demo_manager.
Proof. intros name t Ht. simpl in Ht. by rewrite lookup_empty in Ht. Qed.

(** The write of topics.json.tmp fails after one byte. *)
Lemma saveMetadata_atomic_witness :
  ∃ w', saveMetadata demo_Marshal demo_Unmarshal ["data"%string] "audit" demo_disk_topic
          (demo_meta_world [Succeeds; Succeeds; Succeeds; Succeeds; Fails 1]) = (Err ErrIO, w')
    ∧ w_files w' !! metadata_path ["data"%string] = Some (mkFile [Byte.x7b; Byte.x7d] 2).
Proof.
  assert (fst (saveMetadata demo_Marshal demo_Unmarshal ["data"%string] "audit" demo_disk_topic
    (demo_meta_world [Succeeds; Succeeds; Succeeds; Succeeds; Fails 1])) = Err ErrIO) as Hr
    by (vm_compute; reflexivity).
  destruct (saveMetadata _ _ _ _ _ _) as [r w'] eqn:E in *. simpl in Hr. subst r.
  exists w'. split; [reflexivity|].
  destruct (saveMetadata_atomic demo_Marshal demo_Unmarshal _ _ _ _ _ _ E)
    as [(ts & x & Hx & _)|[_ HF]]; [discriminate Hx|].
  rewrite HF. vm_compute. reflexivity.
Defined.

Lemma CreateTopic_registers_witness :
  ∃ t m' w', CreateTopic demo_Marshal demo_Unmarshal "audit" 2 (mkRetentionPolicy 0 0)
      (demo_manager, demo_meta_world []) = (Ok t, (m', w'))
    ∧ manager_ok m' ∧ blen (t_partitions t) = 2 ∧ t_retention t = mkRetentionPolicy 3600 4096.
Proof.
  assert (is_ok (fst (CreateTopic demo_Marshal demo_Unmarshal "audit" 2 (mkRetentionPolicy 0 0)
    (demo_manager, demo_meta_world []))) = true) as Hr by (vm_compute; reflexivity).
  destruct (CreateTopic _ _ _ _ _ _) as [[t|e|] [m' w']] eqn:E in *; [|discriminate Hr..].
  exists t, m', w'. split; [reflexivity|].
  destruct (CreateTopic_registers demo_Marshal demo_Unmarshal _ _ _ _ _ _ _ _ demo_manager_ok E)
    as [(t0 & [= <-] & _ & _ & Hok & _ & Hc & Hret)|[Hno _]].
  - split; [exact Hok|]. split; [exact Hc|exact Hret].
  - by destruct (Hno t).
Defined.

Lemma topic_names_are_safe_witness :
  invalid_name MaxTopicNameBytes (String.list_byte_of_string "orders.v1") = false.
Proof. apply (topic_names_are_safe "orders.v1"). vm_compute. reflexivity. Defined.

Lemma GetPartition_total_witness :
  GetPartition demo_manager "orders" 0 = Err ErrTopicNotFound.
Proof.
  destruct (GetPartition_total demo_manager "orders" 0 demo_manager_ok ltac:(lia))
    as [[_ H]|(t & Ht & _)]; [exact H|]. simpl in Ht. by rewrite lookup_empty in Ht.
Defined.

Definition demo_restart_world : World :=
  mkWorld (w_files (demo_meta_world []))
    {[ partition.dir ["data"%string] "orders" 0; partition.dir ["data"%string] "orders" 1 ]} [] [].

Lemma NewManager_loads_witness :
  ∃ m w', NewManager demo_Unmarshal ["data"%string] 1048576 65536 4096 "sync"
            demo_restart_world = (Ok m, w')
    ∧ ∃ t, m_topics m !! "orders"%string = Some t ∧ describes "orders" demo_disk_topic t.
Proof.
  assert (is_ok (fst (NewManager demo_Unmarshal ["data"%string] 1048576 65536 4096 "sync"
    demo_restart_world)) = true) as Hr by (vm_compute; reflexivity).
  destruct (NewManager _ _ _ _ _ _ _) as [[m|e|] w'] eqn:E in *; [|discriminate Hr..].
  exists m, w'. split; [reflexivity|].
  destruct (NewManager_loads demo_Unmarshal ["data"%string] 1048576 65536 4096 "sync"
    demo_restart_world m w' [Byte.x7b; Byte.x7d] demo_topics eq_refl
    ltac:(vm_compute; reflexivity) eq_refl E) as [_ Hall].
  exact (Hall "orders"%string).
Defined.

Lemma NewManager_hides_stat_failure_witness :
  ∃ m w', NewManager demo_Unmarshal ["data"%string] 1048576 65536 4096 "sync"
            (demo_meta_world [Fails 0]) = (Ok m, w') ∧ m_topics m = ∅.
Proof.
  apply (NewManager_hides_stat_failure demo_Unmarshal ["data"%string] 1048576 65536 4096 "sync"
    {[ metadata_path ["data"%string] := mkFile [Byte.x7b; Byte.x7d] 2 ]} [] 0).
  vm_compute. eexists. reflexivity.
Defined.
