(* ===== verification/Grpc.v ===== *)
(** * The gRPC handlers (internal/grpcserver/broker_handler.go and admin.go)

    A handler returns a response or a status code.  The topic manager, the
    offset store and the metrics counters are shared by all handlers and form
    the server's state; each handler runs to its end here, since every component
    serialises its own operations with a mutex. *)

From S2P Require Import Prelude FileSystem Model Store Offsets Topics.
From Stdlib Require Import Init.Byte.
Open Scope Z_scope.

(** google.golang.org/grpc/codes, as far as the handlers use it. *)
Inductive code : Type :=
  | InvalidArgument
  | NotFound
  | OutOfRange
  | ResourceExhausted
  | AlreadyExists
  | Unavailable
  | Internal.

#[global] Instance code_eq_dec : EqDecision code.
Proof. solve_decision. Defined.

(** [inl]: the call returns this status; [inr]: it returns a response. *)
Abbreviation rpc A := (code + A)%type.

(** ** Messages *)

Record PbRecord := mkPbRecord {
  pb_Key : option bytes;
  pb_Value : option bytes;
  pb_Headers : list Header;
  pb_Timestamp : Z;
}.

Record ProduceRequest := mkProduceRequest {
  pr_Topic : string;
  pr_Partition : Z;
  pr_Records : list PbRecord;
}.
Record ProduceResponse := mkProduceResponse {
  BaseOffset : Z;
  LastOffset : Z;
  RecordCount : Z;
}.
Record FetchRequest := mkFetchRequest {
  fr_Topic : string;
  fr_Partition : Z;
  fr_Offset : Z;
  fr_MaxBytes : Z;
}.
Record FetchResponse := mkFetchResponse {
  Records : list StoredRecord;
  EarliestOffset : Z;
  LogEndOffset : Z;
}.
Record CommitOffsetRequest := mkCommitOffsetRequest {
  co_ConsumerGroup : bytes;
  co_Topic : string;
  co_Partition : Z;
  co_NextOffset : Z;
}.
Record FetchCommittedOffsetRequest := mkFetchCommittedOffsetRequest {
  fc_ConsumerGroup : bytes;
  fc_Topic : string;
  fc_Partition : Z;
}.
Record FetchCommittedOffsetResponse := mkFetchCommittedOffsetResponse {
  Found : bool;
  NextOffset : Z;
}.

(** ** State *)

Record Server := mkServer {
  sv_topics : Manager;
  sv_offsets : OffsetStore;
  sv_MaxRecordBytes : Z;
  (** requests counted by method and status label *)
  sv_requests : gmap (string * string) Z;
}.

Definition sv_with_topics (m : Manager) (s : Server) : Server :=
  mkServer m (sv_offsets s) (sv_MaxRecordBytes s) (sv_requests s).
Definition sv_with_offsets (o : OffsetStore) (s : Server) : Server :=
  mkServer (sv_topics s) o (sv_MaxRecordBytes s) (sv_requests s).
Definition sv_with_requests (r : gmap (string * string) Z) (s : Server) : Server :=
  mkServer (sv_topics s) (sv_offsets s) (sv_MaxRecordBytes s) r.

(** Replace partition [id] of topic [name]. *)
Definition set_partition (name : string) (id : Z) (p : Store) (m : Manager) : Manager :=
  match m_topics m !! name with
  | Some t =>
    m_with_topics (<[name := mkTopic (t_name t) (<[Z.to_nat id := p]> (t_partitions t))
                               (t_retention t)]> (m_topics m)) m
  | None => m
  end.

(** Run a method of the partition log [p], which [GetPartition] resolved. *)
Definition on_log {A} (name : string) (id : Z) (p : Store) (op : M (Store * World) A)
    : M (Server * World) A := fun '(s, w) =>
  let '(r, (p, w)) := op (p, w) in
  (r, (sv_with_topics (set_partition name id p (sv_topics s)) s, w)).

Definition on_offsets {A} (op : M (OffsetStore * World) A) : M (Server * World) A :=
  fun '(s, w) =>
    let '(r, (o, w)) := op (sv_offsets s, w) in
    (r, (sv_with_offsets o s, w)).

(** ** Status labels *)

Definition grpcStatusLabel (st : option code) : string :=
  match st with
  | None => "ok"
  | Some InvalidArgument => "invalid_argument"
  | Some NotFound => "not_found"
  | Some OutOfRange => "out_of_range"
  | Some ResourceExhausted => "resource_exhausted"
  | Some Unavailable => "unavailable"
  | Some _ => "internal"
  end.

(** The deferred metrics update of a handler. *)
Definition counted {A} (method : string) (h : M (Server * World) (rpc A))
    : M (Server * World) (rpc A) :=
  let* r := h in
  let label := grpcStatusLabel (match r with inl c => Some c | inr _ => None end) in
  do* modify (fun s => sv_with_requests
        (partial_alter (fun n => Some (default 0 n + 1)) (method, label) (sv_requests s)) s) in
  ret r.

(** The status of a failed [GetPartition]. *)
Definition partition_status (e : error) : code :=
  match e with
  | ErrTopicNotFound | ErrPartitionNotFound => NotFound
  | _ => Internal
  end.

(** Resolve the partition, or return the status. *)
Definition with_partition {A} (name : string) (id : Z)
    (k : Store → M (Server * World) (rpc A)) : M (Server * World) (rpc A) :=
  let* s := get_obj in
  match GetPartition (sv_topics s) name id with
  | Ok p => k p
  | Err e => ret (inl (partition_status e))
  | Panic => panic
  end.

(** ** BrokerService *)

Definition recordPayloadSize (r : PbRecord) : Z :=
  fold_left (fun size h => size + (blen (h_Key h) + blen (h_Value h))) (pb_Headers r)
    (olen (pb_Key r) + olen (pb_Value r)).

(** Lines 66-87: the size check and the conversion of the records; [None] when a
    record is too large. *)
Fixpoint convert_records (maxRecordBytes : Z) (rs : list PbRecord)
    : option (list ClientRecord) :=
  match rs with
  | [] => Some []
  | r :: rs =>
    if maxRecordBytes <? recordPayloadSize r then None else
    match convert_records maxRecordBytes rs with
    | Some cs => Some (mkClientRecord (pb_Key r) (pb_Value r) (pb_Headers r) (pb_Timestamp r) :: cs)
    | None => None
    end
  end.

Definition append_status (e : error) : code :=
  match e with ErrBatchTooLarge => ResourceExhausted | _ => Internal end.

Definition Produce (now : Z) (req : ProduceRequest)
    : M (Server * World) (rpc ProduceResponse) :=
  counted "produce" (
    if blen (pr_Records req) =? 0 then ret (inl InvalidArgument) else
    with_partition (pr_Topic req) (pr_Partition req) (fun log =>
      let* s := get_obj in
      match convert_records (sv_MaxRecordBytes s) (pr_Records req) with
      | None => ret (inl ResourceExhausted)
      | Some internalRecs =>
        let* r := attempt (on_log (pr_Topic req) (pr_Partition req) log
                             (partition.Append now internalRecs)) in
        match r with
        | Ok (baseOffset, lastOffset) =>
          ret (inr (mkProduceResponse baseOffset lastOffset (u32 (blen (pr_Records req)))))
        | Err e => ret (inl (append_status e))
        | Panic => panic
        end
      end)).

Definition read_status (e : error) : code :=
  match e with ErrOffsetOutOfRange => OutOfRange | _ => Internal end.

Definition Fetch (req : FetchRequest) : M (Server * World) (rpc FetchResponse) :=
  counted "fetch" (
    if fr_MaxBytes req =? 0 then ret (inl InvalidArgument) else
    with_partition (fr_Topic req) (fr_Partition req) (fun log =>
      let* r := attempt (on_log (fr_Topic req) (fr_Partition req) log
                           (partition.Read (fr_Offset req) (fr_MaxBytes req))) in
      match r with
      | Ok stored =>
        ret (inr (mkFetchResponse stored (st_earliestOffset log) (st_logEndOffset log)))
      | Err e => ret (inl (read_status e))
      | Panic => panic
      end)).

Definition commit_status (e : error) : code :=
  match e with
  | ErrOffsetStoreUnavailable | ErrOffsetStoreClosed => Unavailable
  | ErrInvalidArgument => InvalidArgument
  | _ => Internal
  end.

(** [None] is a nil request. *)
Definition CommitOffset (now : Z) (req : option CommitOffsetRequest)
    : M (Server * World) (rpc unit) :=
  counted "commit_offset" (
    match req with
    | None => ret (inl InvalidArgument)
    | Some req =>
      if blen (co_ConsumerGroup req) =? 0 then ret (inl InvalidArgument) else
      with_partition (co_Topic req) (co_Partition req) (fun partition =>
        let earliest := st_earliestOffset partition in
        let e := st_logEndOffset partition in
        let nextOffset := co_NextOffset req in
        if (nextOffset <? earliest) || (e <? nextOffset) then ret (inl OutOfRange) else
        let* r := attempt (on_offsets
          (Commit now (co_ConsumerGroup req) (String.list_byte_of_string (co_Topic req))
             (co_Partition req) nextOffset)) in
        match r with
        | Ok _ => ret (inr tt)
        | Err e => ret (inl (commit_status e))
        | Panic => panic
        end)
    end).

Definition committed_status (e : error) : code :=
  match e with
  | ErrOffsetStoreUnavailable | ErrOffsetStoreClosed => Unavailable
  | _ => Internal
  end.

Definition FetchCommittedOffset (req : option FetchCommittedOffsetRequest)
    : M (Server * World) (rpc FetchCommittedOffsetResponse) :=
  match req with
  | None => ret (inl InvalidArgument)
  | Some req =>
    if blen (fc_ConsumerGroup req) =? 0 then ret (inl InvalidArgument) else
    with_partition (fc_Topic req) (fc_Partition req) (fun _ =>
      let* s := get_obj in
      match Offsets_Get (sv_offsets s) (fc_ConsumerGroup req)
              (String.list_byte_of_string (fc_Topic req)) (fc_Partition req) with
      | Ok (Some v) => ret (inr (mkFetchCommittedOffsetResponse true v))
      | Ok None => ret (inr (mkFetchCommittedOffsetResponse false 0))
      | Err e => ret (inl (committed_status e))
      | Panic => panic
      end)
  end.

(** ** AdminService *)

Record PartitionMetadata := mkPartitionMetadata {
  pm_PartitionId : Z;
  pm_EarliestOffset : Z;
  pm_LogEndOffset : Z;
}.
Record TopicMetadata := mkTopicMetadata {
  tm_Name : string;
  tm_PartitionCount : Z;
  tm_Partitions : list PartitionMetadata;
  tm_Retention : RetentionPolicy;
}.
Record CreateTopicRequest := mkCreateTopicRequest {
  ct_Name : string;
  ct_PartitionCount : Z;
  ct_Retention : option RetentionPolicy;
}.

(** Lines 94-101, from partition [i]: [Partition] of an id out of range gives a
    nil log, whose use would panic. *)
Fixpoint convert_partitions (t : Topic) (n : nat) (i : Z) : res (list PartitionMetadata) :=
  match n with
  | O => Ok []
  | S n =>
    match Topic_Partition t (u32 i) with
    | Ok p =>
      let! rest := convert_partitions t n (i + 1) in
      Ok (mkPartitionMetadata (u32 i) (st_earliestOffset p) (st_logEndOffset p) :: rest)
    | _ => Panic
    end
  end.

Definition convertToProtoMetadata (t : Topic) : res TopicMetadata :=
  let! parts := convert_partitions t (length (t_partitions t)) 0 in
  Ok (mkTopicMetadata (t_name t) (u32 (blen (t_partitions t))) parts (t_retention t)).

Fixpoint convert_topics (ts : list Topic) : res (list TopicMetadata) :=
  match ts with
  | [] => Ok []
  | t :: ts =>
    let! m := convertToProtoMetadata t in
    let! ms := convert_topics ts in
    Ok (m :: ms)
  end.

Definition create_status (e : error) : code :=
  match e with
  | ErrTopicExists => AlreadyExists
  | ErrInvalidTopicName | ErrTooManyPartitions => InvalidArgument
  | _ => Internal
  end.

Definition on_manager {A} (op : M (Manager * World) A) : M (Server * World) A :=
  fun '(s, w) =>
    let '(r, (m, w)) := op (sv_topics s, w) in
    (r, (sv_with_topics m s, w)).

Section Admin.
Context (Marshal : gmap string DiskTopic → bytes).
Context (Unmarshal : bytes → option (gmap string DiskTopic) →
           res (option (gmap string DiskTopic))).

Definition Admin_CreateTopic (req : CreateTopicRequest)
    : M (Server * World) (rpc TopicMetadata) :=
  if bool_decide (ct_Name req = ""%string) then ret (inl InvalidArgument) else
  if ct_PartitionCount req =? 0 then ret (inl InvalidArgument) else
  let retention := default (mkRetentionPolicy 0 0) (ct_Retention req) in
  let* r := attempt (on_manager
    (CreateTopic Marshal Unmarshal (ct_Name req) (ct_PartitionCount req) retention)) in
  match r with
  | Ok t => let* m := lift_res (convertToProtoMetadata t) in ret (inr m)
  | Err e => ret (inl (create_status e))
  | Panic => panic
  end.

End Admin.

Definition Admin_ListTopics : M (Server * World) (rpc (list TopicMetadata)) :=
  let* s := get_obj in
  let* ms := lift_res (convert_topics (ListTopics (sv_topics s))) in
  ret (inr ms).

Definition Admin_DescribeTopic (name : string) : M (Server * World) (rpc TopicMetadata) :=
  if bool_decide (name = ""%string) then ret (inl InvalidArgument) else
  let* s := get_obj in
  match GetTopic (sv_topics s) name with
  | Ok t => let* m := lift_res (convertToProtoMetadata t) in ret (inr m)
  | Err e => ret (inl (match e with ErrTopicNotFound => NotFound | _ => Internal end))
  | Panic => panic
  end.
