(* ===== verification/GrpcSpec.v ===== *)
(** * Properties of the handlers

    Status codes on every branch, and what a client can rely on across calls. *)

From S2P Require Import Prelude FileSystem Runs Model Format Segment Store StoreInv StoreAppend.
From S2P Require Import StoreRead Offsets OffsetsSpec Topics TopicsSpec Grpc.
From Stdlib Require Import Init.Byte.
Open Scope Z_scope.

(** ** Running a handler *)

(** The counter that a call with this outcome increments. *)
Definition request_key {A} (method : string) (r : rpc A) : string * string :=
  (method, grpcStatusLabel (match r with inl c => Some c | inr _ => None end)).

Definition count_request {A} (method : string) (r : rpc A) (s : Server) : Server :=
  sv_with_requests (partial_alter (fun n => Some (default 0 n + 1)) (request_key method r)
                      (sv_requests s)) s.

Lemma counted_run {A} method (h : M (Server * World) (rpc A)) s w r s' w' :
  counted method h (s, w) = (Ok r, (s', w')) →
  ∃ s0, h (s, w) = (Ok r, (s0, w')) ∧ s' = count_request method r s0.
Proof.
  unfold counted. intros H. apply bind_ok in H as (r0 & [s0 w0] & H1 & H).
  unfold bind, modify, ret in H. injection H as -> <- <-. eauto.
Qed.

Lemma counted_intro {A} method (h : M (Server * World) (rpc A)) s w r s0 w' :
  h (s, w) = (Ok r, (s0, w')) →
  counted method h (s, w) = (Ok r, (count_request method r s0, w')).
Proof. intros H. unfold counted, bind, modify, ret. by rewrite H. Qed.

Lemma with_partition_ok {A} name id (k : Store → M (Server * World) (rpc A)) s w p :
  GetPartition (sv_topics s) name id = Ok p →
  with_partition name id k (s, w) = k p (s, w).
Proof. intros H. unfold with_partition, bind, get_obj. by rewrite H. Qed.

(** ** The registry after an operation on a partition *)

Lemma GetPartition_inv m name id p :
  GetPartition m name id = Ok p →
  ∃ t, m_topics m !! name = Some t ∧ t_partitions t !! Z.to_nat id = Some p
    ∧ (u32 (blen (t_partitions t)) <=? id) = false.
Proof.
  unfold GetPartition, Topic_Partition. destruct (m_topics m !! name) as [t|]; [|done].
  destruct (_ <=? id) eqn:E; [done|]. destruct (t_partitions t !! Z.to_nat id) eqn:Ep; [|done].
  intros [= <-]. eauto.
Qed.

Lemma GetPartition_set m name id p p' :
  GetPartition m name id = Ok p → GetPartition (set_partition name id p' m) name id = Ok p'.
Proof.
  intros H. apply GetPartition_inv in H as (t & Ht & Hp & Hid).
  unfold GetPartition, set_partition. rewrite Ht. simpl. rewrite lookup_insert_eq.
  unfold Topic_Partition. simpl. rewrite blen_insert, Hid.
  rewrite list_lookup_insert_eq; [done|]. by apply lookup_lt_Some in Hp.
Qed.

Lemma GetPartition_set_other m name id p' name' id' :
  0 <= id → 0 <= id' → name ≠ name' ∨ id ≠ id' →
  GetPartition (set_partition name id p' m) name' id' = GetPartition m name' id'.
Proof.
  intros H0 H0' Hne. unfold GetPartition, set_partition.
  destruct (m_topics m !! name) as [t|] eqn:Ht; [|done]. simpl.
  destruct (decide (name = name')) as [<-|Hn].
  - rewrite lookup_insert_eq, Ht. unfold Topic_Partition. simpl. rewrite blen_insert.
    destruct Hne as [?|Hid]; [done|]. rewrite list_lookup_insert_ne by lia. done.
  - by rewrite lookup_insert_ne.
Qed.

Lemma set_partition_same m name id p :
  GetPartition m name id = Ok p → set_partition name id p m = m.
Proof.
  intros H. apply GetPartition_inv in H as (t & Ht & Hp & _).
  unfold set_partition. rewrite Ht. rewrite list_insert_id by done.
  rewrite insert_id; [by destruct m|]. by destruct t.
Qed.

(** A read leaves the store as it is. *)
Lemma Store_Read_store off maxBytes p w r p1 w1 :
  Store_Read off maxBytes (p, w) = (r, (p1, w1)) → p1 = p.
Proof.
  unfold Store_Read, observed_read, bind, get_obj, fail, ret, io.
  repeat (match goal with |- context [if ?c then _ else _] => destruct c end);
    try (by intros [= _ <- _]).
  destruct (read_segments _ _ _ w). by intros [= _ <- _].
Qed.

(** ** Produce *)

(** The records that the handler hands to the log. *)
Definition client_records (rs : list PbRecord) : list ClientRecord :=
  (fun r => mkClientRecord (pb_Key r) (pb_Value r) (pb_Headers r) (pb_Timestamp r)) <$> rs.

Lemma convert_records_Some max rs cs :
  convert_records max rs = Some cs → cs = client_records rs.
Proof.
  revert cs. induction rs as [|r rs IH]; intros cs H; simpl in H; [by injection H as <-|].
  destruct (_ <? _); [done|]. destruct (convert_records max rs) as [cs'|]; [|done].
  injection H as <-. by rewrite (IH _ eq_refl).
Qed.

Lemma convert_records_ok max rs :
  Forall (fun r => recordPayloadSize r <= max) rs →
  convert_records max rs = Some (client_records rs).
Proof.
  induction 1 as [|r rs Hr H IH]; [done|]. simpl.
  destruct (Z.ltb_spec max (recordPayloadSize r)); [lia|]. by rewrite IH.
Qed.

Lemma convert_records_None max rs :
  Exists (fun r => max < recordPayloadSize r) rs → convert_records max rs = None.
Proof.
  induction 1 as [r rs Hr|r rs Hr IH]; simpl.
  - by rewrite (proj2 (Z.ltb_lt _ _) Hr).
  - rewrite IH. by destruct (_ <? _).
Qed.

(** What Produce does once the partition and the record sizes are accepted. *)
Lemma Produce_run now req s w p :
  pr_Records req ≠ [] →
  GetPartition (sv_topics s) (pr_Topic req) (pr_Partition req) = Ok p →
  Forall (fun r => recordPayloadSize r <= sv_MaxRecordBytes s) (pr_Records req) →
  ∀ r0 p1 w1, Store_Append now (client_records (pr_Records req)) (p, w) = (r0, (p1, w1)) →
  r0 ≠ Panic →
  let s0 := sv_with_topics (set_partition (pr_Topic req) (pr_Partition req) p1 (sv_topics s)) s in
  let r := match r0 with
           | Ok (b, l) => inr (mkProduceResponse b l (u32 (blen (pr_Records req))))
           | Err e => inl (append_status e)
           | Panic => inl Internal
           end in
  Produce now req (s, w) = (Ok r, (count_request "produce" r s0, w1)).
Proof.
  intros Hne Hp Hsz r0 p1 w1 HA Hr0 s0 r. unfold Produce. apply counted_intro.
  destruct (Z.eqb_spec (blen (pr_Records req)) 0) as [H0|_].
  { destruct (pr_Records req); [done|]. rewrite blen_cons in H0. blen_lia. }
  rewrite (with_partition_ok _ _ _ _ _ _ Hp). unfold bind at 1, get_obj.
  rewrite (convert_records_ok _ _ Hsz). unfold bind, attempt, on_log.
  change (partition.Append now (client_records (pr_Records req)))
    with (Store_Append now (client_records (pr_Records req))). rewrite HA.
  unfold r. destruct r0 as [[b l]|e|]; done.
Qed.

(** ** Fetch *)

Lemma partition_Read_run off maxBytes p w :
  partition.Read off maxBytes (p, w) = Store_Read off maxBytes (p, w).
Proof.
  unfold partition.Read, bind, attempt.
  destruct (Store_Read off maxBytes (p, w)) as [[recs|e|] [p1 w1]]; [done| |done].
  case_bool_decide as He; [by rewrite He|done].
Qed.

Lemma Fetch_run req s w p r0 w1 :
  fr_MaxBytes req ≠ 0 →
  GetPartition (sv_topics s) (fr_Topic req) (fr_Partition req) = Ok p →
  Store_Read (fr_Offset req) (fr_MaxBytes req) (p, w) = (r0, (p, w1)) → r0 ≠ Panic →
  let r := match r0 with
           | Ok l => inr (mkFetchResponse l (st_earliestOffset p) (st_logEndOffset p))
           | Err e => inl (read_status e)
           | Panic => inl Internal
           end in
  Fetch req (s, w) = (Ok r, (count_request "fetch" r s, w1)).
Proof.
  intros Hm Hp HR Hr0 r. unfold Fetch. apply counted_intro.
  destruct (Z.eqb_spec (fr_MaxBytes req) 0); [done|].
  rewrite (with_partition_ok _ _ _ _ _ _ Hp). unfold bind, attempt, on_log.
  rewrite partition_Read_run, HR, (set_partition_same _ _ _ _ Hp).
  assert (sv_with_topics (sv_topics s) s = s) as -> by by destruct s.
  unfold r. destruct r0 as [l|e|]; done.
Qed.

(** Produce followed by Fetch on a well-formed partition without failures. *)
Lemma Produce_Fetch_run now req s w resp s1 w1 maxBytes p pc pa :
  GetPartition (sv_topics s) (pr_Topic req) (pr_Partition req) = Ok p →
  store_ok (w_files w) p pc pa → w_faults w = [] →
  st_logEndOffset p + blen (pr_Records req) < two64 → - two63 < now < two63 →
  Produce now req (s, w) = (Ok (inr resp), (s1, w1)) →
  let batch := stamp (BaseOffset resp) now (client_records (pr_Records req)) in
  total_size batch <= maxBytes →
  ∃ fr s2 w2, Fetch (mkFetchRequest (pr_Topic req) (pr_Partition req) (BaseOffset resp) maxBytes)
                (s1, w1) = (Ok (inr fr), (s2, w2))
    ∧ Records fr = batch ∧ BaseOffset resp = st_logEndOffset p
    ∧ LastOffset resp = BaseOffset resp + blen (pr_Records req) - 1
    ∧ Grpc.LogEndOffset fr = LastOffset resp + 1.
Proof.
  intros Hp Hok Hnf Hend Hnow HP batch Hsize.
  apply counted_run in HP as (s0 & HP & ->).
  destruct (Z.eqb_spec (blen (pr_Records req)) 0) as [|Hn0]; [done|].
  rewrite (with_partition_ok _ _ _ _ _ _ Hp) in HP. unfold bind at 1, get_obj in HP.
  destruct (convert_records _ _) as [cs|] eqn:Ecs; [|done].
  apply convert_records_Some in Ecs as ->.
  unfold bind, attempt, on_log in HP. change (partition.Append now) with (Store_Append now) in HP.
  destruct (Store_Append now _ (p, w)) as [r0 [p1 w2]] eqn:EA.
  destruct r0 as [[b l]|e|]; [|done..]. injection HP as <- <- <-.
  assert (client_records (pr_Records req) ≠ []) as Hne.
  { destruct (pr_Records req); [done|]. done. }
  assert (blen (client_records (pr_Records req)) = blen (pr_Records req)) as Hlen
    by apply blen_fmap.
  rewrite <- Hlen in Hend.
  destruct (Store_Append_spec _ _ _ _ _ _ _ _ _ Hok Hne Hend Hnow EA)
    as (HQ & Hcfg & [(_ & ? & _)|(_ & [(Hr & Hlog & pc' & pa' & Hok1 & _)|(e & ? & _)] & _)]);
    [done| |done]. injection Hr as -> ->.
  rewrite blen_next_batch, Hlen in EA, Hlog. cbn [BaseOffset LastOffset] in *.
  rewrite blen_next_batch, Hlen.
  pose proof (total_size_pos _ (stamp_nonempty (st_logEndOffset p) now _ Hne)) as Hpos.
  destruct (Store_Read (st_logEndOffset p) maxBytes (p1, w2)) as [r2 [p2 w3]] eqn:ER.
  destruct (read_appended _ _ _ _ _ _ _ _ _ _ _ _ _ _ Hok Hne Hnf Hend Hnow EA Hsize ER)
    as [-> ->].
  eexists _, _, _. split.
  - eapply (Fetch_run (mkFetchRequest (pr_Topic req) (pr_Partition req) (st_logEndOffset p) maxBytes)
      _ _ p1 (Ok batch)); [simpl; unfold batch in Hsize; lia| |exact ER|done].
    simpl. by eapply GetPartition_set.
  - simpl. split; [done|]. split; [done|]. split; [done|]. rewrite Hlog. lia.
Qed.

(** ** Properties *)

(** The refusals of Produce, in the order of the code: an empty batch is
    InvalidArgument, an unknown topic or partition NotFound, a record above
    max_record_bytes ResourceExhausted. The log, the offsets and all files stay as
    they are; only the request counter of that status is incremented. *)
Theorem Produce_refusals now req s w :
  let refused c := Produce now req (s, w)
    = (Ok (inl c), (count_request "produce" (A := ProduceResponse) (inl c) s, w)) in
  (pr_Records req = [] → refused InvalidArgument)
  ∧ (pr_Records req ≠ [] →
     (GetPartition (sv_topics s) (pr_Topic req) (pr_Partition req) = Err ErrTopicNotFound
      ∨ GetPartition (sv_topics s) (pr_Topic req) (pr_Partition req) = Err ErrPartitionNotFound) →
     refused NotFound)
  ∧ (∀ p, GetPartition (sv_topics s) (pr_Topic req) (pr_Partition req) = Ok p →
     Exists (fun r => sv_MaxRecordBytes s < recordPayloadSize r) (pr_Records req) →
     refused ResourceExhausted).
Proof.
  unfold Produce. split_and!.
  - intros ->. by apply counted_intro.
  - intros Hne Hp. apply counted_intro.
    destruct (Z.eqb_spec (blen (pr_Records req)) 0) as [H0|_].
    { destruct (pr_Records req); [done|]. rewrite blen_cons in H0. blen_lia. }
    unfold with_partition, bind, get_obj. by destruct Hp as [-> | ->].
  - intros p Hp Hbig. apply counted_intro.
    destruct (Z.eqb_spec (blen (pr_Records req)) 0) as [H0|_].
    { destruct Hbig; rewrite blen_cons in H0; blen_lia. }
    rewrite (with_partition_ok _ _ _ _ _ _ Hp). unfold bind, get_obj.
    by rewrite (convert_records_None _ _ Hbig).
Qed.


(** Fetch on a well-formed partition log, under any schedule of failures. It
    answers OutOfRange exactly for offsets outside [earliest, logEnd]; otherwise
    it returns the records from that offset on within max_bytes, with the bounds
    of the log, or Internal when a system call failed. The registry, the offsets
    and the files are unchanged. *)
Theorem Fetch_returns_log req s w r s' w' p pc pa :
  GetPartition (sv_topics s) (fr_Topic req) (fr_Partition req) = Ok p →
  store_ok (w_files w) p pc pa → 0 < fr_MaxBytes req →
  Fetch req (s, w) = (r, (s', w')) →
  w_files w' = w_files w ∧ sv_topics s' = sv_topics s ∧ sv_offsets s' = sv_offsets s
  ∧ let e := st_earliestOffset p in
    let l := st_logEndOffset p in
    ((fr_Offset req < e ∨ l < fr_Offset req) ∧ r = Ok (inl OutOfRange))
    ∨ (e <= fr_Offset req <= l
       ∧ (r = Ok (inr (mkFetchResponse
                (fill (fr_MaxBytes req) 0 false
                   (from_offset e (fr_Offset req) (store_records pc pa))) e l))
          ∨ (r = Ok (inl Internal) ∧ w_faults w ≠ []))).
Proof.
  intros Hp Hok Hm H.
  destruct (Store_Read (fr_Offset req) (fr_MaxBytes req) (p, w)) as [r0 [p1 w1]] eqn:ER.
  destruct (Store_Read_spec _ _ _ _ _ _ _ _ _ Hok Hm ER) as (-> & _ & HF & Hres).
  assert (r0 ≠ Panic) as Hnp by (destruct Hres as [[_ ->]|[_ [->|[-> _]]]]; done).
  assert (fr_MaxBytes req ≠ 0) as Hm0 by lia.
  rewrite (Fetch_run _ _ _ _ _ _ Hm0 Hp ER Hnp) in H. injection H as <- <- <-.
  split; [done|]. split; [done|]. split; [done|].
  destruct Hres as [[? ->]|[? [->|[-> ?]]]]; simpl; auto.
Qed.

(** ** Committed offsets *)

Lemma CommitOffset_run now req s w p r0 o1 w1 :
  blen (co_ConsumerGroup req) ≠ 0 →
  GetPartition (sv_topics s) (co_Topic req) (co_Partition req) = Ok p →
  st_earliestOffset p <= co_NextOffset req <= st_logEndOffset p →
  Commit now (co_ConsumerGroup req) (String.list_byte_of_string (co_Topic req))
    (co_Partition req) (co_NextOffset req) (sv_offsets s, w) = (r0, (o1, w1)) → r0 ≠ Panic →
  let r := match r0 with Ok _ => inr tt | Err e => inl (commit_status e) | Panic => inl Internal end in
  CommitOffset now (Some req) (s, w)
  = (Ok r, (count_request "commit_offset" r (sv_with_offsets o1 s), w1)).
Proof.
  intros Hg Hp Hrange HC Hr0 r. unfold CommitOffset. apply counted_intro.
  destruct (Z.eqb_spec (blen (co_ConsumerGroup req)) 0); [done|].
  rewrite (with_partition_ok _ _ _ _ _ _ Hp).
  destruct (Z.ltb_spec (co_NextOffset req) (st_earliestOffset p)); [lia|].
  destruct (Z.ltb_spec (st_logEndOffset p) (co_NextOffset req)); [lia|]. cbn [orb].
  unfold bind, attempt, on_offsets. rewrite HC. unfold r. by destruct r0 as [[]|e|].
Qed.

(** CommitOffset validates against the log: an offset below the earliest or
    above the end of the partition is refused with OutOfRange, an empty consumer
    group or a nil request with InvalidArgument, an unknown partition with
    NotFound; in these cases no offset changes and nothing is written. *)
Theorem CommitOffset_refusals now s w :
  let refused req c := CommitOffset now req (s, w)
    = (Ok (inl c), (count_request "commit_offset" (A := unit) (inl c) s, w)) in
  refused None InvalidArgument
  ∧ ∀ req,
    (co_ConsumerGroup req = [] → refused (Some req) InvalidArgument)
    ∧ (co_ConsumerGroup req ≠ [] →
       (GetPartition (sv_topics s) (co_Topic req) (co_Partition req) = Err ErrTopicNotFound
        ∨ GetPartition (sv_topics s) (co_Topic req) (co_Partition req)
          = Err ErrPartitionNotFound) → refused (Some req) NotFound)
    ∧ (∀ p, co_ConsumerGroup req ≠ [] →
       GetPartition (sv_topics s) (co_Topic req) (co_Partition req) = Ok p →
       co_NextOffset req < st_earliestOffset p ∨ st_logEndOffset p < co_NextOffset req →
       refused (Some req) OutOfRange).
Proof.
  unfold CommitOffset. split; [by apply counted_intro|]. intros req.
  assert (∀ g : bytes, g ≠ [] → (blen g =? 0) = false) as Hg.
  { intros g Hg. destruct g; [done|]. rewrite blen_cons. destruct (Z.eqb_spec (1 + blen g) 0);
      [blen_lia|done]. }
  split_and!.
  - intros ->. by apply counted_intro.
  - intros Hne Hp. apply counted_intro. rewrite (Hg _ Hne).
    unfold with_partition, bind, get_obj. by destruct Hp as [-> | ->].
  - intros p Hne Hp Hout. apply counted_intro. rewrite (Hg _ Hne).
    rewrite (with_partition_ok _ _ _ _ _ _ Hp).
    destruct Hout as [Hlt|Hlt].
    + by rewrite (proj2 (Z.ltb_lt _ _) Hlt).
    + rewrite (proj2 (Z.ltb_lt _ _) Hlt), orb_true_r. done.
Qed.

(** A committed offset can be fetched back. For a group with a valid name and
    a registered topic, a CommitOffset that succeeds makes FetchCommittedOffset
    of the same group, topic and partition return found = true with that offset;
    when it does not succeed the status is Internal and the offset store refuses
    further requests. *)
Theorem commit_then_fetch_committed now req s w cs r s' w' p :
  manager_ok (sv_topics s) → offsets_ok (w_files w) (sv_offsets s) cs →
  valid_name MaxConsumerGroupBytes (co_ConsumerGroup req) →
  0 <= co_Partition req < two32 → 0 <= co_NextOffset req < two64 →
  GetPartition (sv_topics s) (co_Topic req) (co_Partition req) = Ok p →
  st_earliestOffset p <= co_NextOffset req <= st_logEndOffset p →
  CommitOffset now (Some req) (s, w) = (r, (s', w')) →
  let fetched := FetchCommittedOffset (Some (mkFetchCommittedOffsetRequest
    (co_ConsumerGroup req) (co_Topic req) (co_Partition req))) (s', w') in
  (r = Ok (inr tt)
   ∧ fetched = (Ok (inr (mkFetchCommittedOffsetResponse true (co_NextOffset req))), (s', w')))
  ∨ (r = Ok (inl Internal) ∧ w_faults w ≠ [] ∧ os_writeFailed (sv_offsets s') = true).
Proof.
  intros Hm Hok Hg Hpart Hnext Hp Hrange H fetched.
  pose proof Hp as Hp'. apply GetPartition_inv in Hp' as (t & Ht & _).
  destruct (Hm _ _ Ht) as [_ Hvalid _].
  set (c := mkCommit (mkKey (co_ConsumerGroup req) (String.list_byte_of_string (co_Topic req))
              (co_Partition req)) (co_NextOffset req) now).
  assert (valid_commit c) as Hc by (split; [done|by apply (topic_name_valid (co_Topic req))|done|done]).
  destruct (Commit now (co_ConsumerGroup req) (String.list_byte_of_string (co_Topic req))
    (co_Partition req) (co_NextOffset req) (sv_offsets s, w)) as [r0 [o1 w1]] eqn:EC.
  pose proof EC as HC. apply (Commit_runs c _ _ _ Hok Hc) in HC as (_ & HC).
  assert (blen (co_ConsumerGroup req) ≠ 0) as Hg0 by (destruct Hg; lia).
  assert (r0 ≠ Panic) as Hnp by (destruct HC as [(? & -> & _)|(-> & _)]; done).
  rewrite (CommitOffset_run _ _ _ _ _ _ _ _ Hg0 Hp Hrange EC Hnp) in H. injection H as <- <- <-.
  destruct HC as [([] & -> & Hok1 & _)|(-> & Hf & Hwf & _)].
  - left. split; [done|]. unfold fetched, FetchCommittedOffset. simpl.
    destruct (Z.eqb_spec (blen (co_ConsumerGroup req)) 0); [done|].
    rewrite (with_partition_ok _ _ _ _ _ p) by exact Hp. unfold bind, get_obj. simpl.
    rewrite (Get_ok _ _ _ _ _ _ Hok1), apply_commits_snoc. simpl. by rewrite lookup_insert_eq.
  - right. split; [done|]. split; [exact Hf|]. exact Hwf.
Qed.

(** ** A concrete server *)

Definition demo_orders (p : Store) : Manager :=
  mkManager {[ "orders"%string := mkTopic "orders" [p] (mkRetentionPolicy 3600 4096) ]}
    ["data"%string] 1048576 65536 4096 "sync" 3600 4096.
Definition demo_server (p : Store) : Server := mkServer (demo_orders p) demo_offsets 1024 ∅.
Definition demo_produce : ProduceRequest :=
  mkProduceRequest "orders" 0 [mkPbRecord (Some [x6b]) (Some [x76]) [] 0].

Lemma demo_orders_ok p : manager_ok (demo_orders p).
Proof.
  intros name t Ht. simpl in Ht. apply lookup_singleton_Some in Ht as [<- <-].
  split; [done|vm_compute; reflexivity|vm_compute; split; congruence].
Qed.


Lemma Fetch_returns_log_witness :
  ∃ s' w', Fetch (mkFetchRequest "orders" 0 7 4096) (demo_server (demo_store "sync"), demo_world [])
           = (Ok (inl OutOfRange), (s', w')).
Proof.
  destruct (Fetch (mkFetchRequest "orders" 0 7 4096)
    (demo_server (demo_store "sync"), demo_world [])) as [r [s' w']] eqn:E.
  exists s', w'.
  destruct (Fetch_returns_log (mkFetchRequest "orders" 0 7 4096) (demo_server (demo_store "sync"))
    (demo_world []) r s' w' (demo_store "sync") [] [] ltac:(vm_compute; reflexivity)
    (demo_store_ok "sync") ltac:(simpl; lia) E) as (_ & _ & _ & [[_ ->]|[[_ H] _]]); [done|].
  vm_compute in H. by destruct H.
Defined.

Lemma commit_then_fetch_committed_witness :
  ∃ s' w', CommitOffset 1700000000000
      (Some (mkCommitOffsetRequest [x67] "orders" 0 0))
      (demo_server (demo_store "sync"), demo_offsets_world []) = (Ok (inr tt), (s', w'))
    ∧ fst (FetchCommittedOffset (Some (mkFetchCommittedOffsetRequest [x67] "orders" 0)) (s', w'))
      = Ok (inr (mkFetchCommittedOffsetResponse true 0)).
Proof.
  destruct (CommitOffset 1700000000000 (Some (mkCommitOffsetRequest [x67] "orders" 0 0))
    (demo_server (demo_store "sync"), demo_offsets_world [])) as [r [s' w']] eqn:E.
  exists s', w'.
  destruct (commit_then_fetch_committed 1700000000000 (mkCommitOffsetRequest [x67] "orders" 0 0)
    (demo_server (demo_store "sync")) (demo_offsets_world []) [] r s' w' (demo_store "sync")
    (demo_orders_ok _) (demo_offsets_ok []) ltac:(split; vm_compute; congruence || (split; congruence))
    ltac:(vm_compute; split; congruence) ltac:(vm_compute; split; congruence)
    ltac:(vm_compute; reflexivity) ltac:(vm_compute; split; congruence) E)
    as [[-> H]|(_ & Hf & _)].
  - split; [reflexivity|]. unfold FetchCommittedOffset in *. simpl in *. by rewrite H.
  - by destruct Hf.
Defined.
