(* ===== verification/ServiceSpec.v ===== *)
(** * Specification of the broker as a service

    What a broker promises to its clients, without processes and files: a set of topics,
    one log per partition (LogSpec.v) and one sequence of committed offsets
    (OffsetsLog.v).  A label is a request with its response, a run of retention, or an
    event of the process: a start, a shutdown, the end of the process, a crash of the
    machine.  The lemmas of this file hold of every run of the specification. *)

From S2P Require Import Prelude FileSystem Model Store StoreInv LogSpec Offsets OffsetsSpec OffsetsLog.
From S2P Require Import Topics Grpc GrpcSpec.
Open Scope Z_scope.

(** ** State *)

(** A partition: topic and number. *)
Abbreviation part := (string * Z)%type.

(** A log in the phase [Down] has no open store: the process is not running, or it runs
    without having loaded the topic. *)
Record abroker := mkAbroker {
  ab_topics : gmap string DiskTopic;
  ab_logs : gmap part (phase * alog);
  ab_offsets : phase * aoffsets;
}.

Definition ab_with_log (k : part) (a : phase * alog) (b : abroker) : abroker :=
  mkAbroker (ab_topics b) (<[k := a]> (ab_logs b)) (ab_offsets b).
Definition ab_with_offsets (o : phase * aoffsets) (b : abroker) : abroker :=
  mkAbroker (ab_topics b) (ab_logs b) o.
Definition ab_with_logs (logs : gmap part (phase * alog)) (b : abroker) : abroker :=
  mkAbroker (ab_topics b) logs (ab_offsets b).

Definition empty_log : alog := mkAlog 0 [] 0.

(** The partitions of a new topic. *)
Definition topic_logs (p : phase) (name : string) (count : Z) : gmap part (phase * alog) :=
  list_to_map ((fun i => ((name, i), (p, empty_log))) <$> seqZ 0 count).

Definition ab_with_topic (dt : DiskTopic) (b : abroker) : abroker :=
  mkAbroker (<[dt_Name dt := dt]> (ab_topics b))
    (topic_logs Serving (dt_Name dt) (dt_PartitionCount dt) ∪ ab_logs b) (ab_offsets b).

(** The log of a partition that the process serves. *)
Definition open_log (b : abroker) (k : part) (a : phase * alog) : Prop :=
  ab_logs b !! k = Some a ∧ fst a ≠ Down.
Definition unknown (b : abroker) (k : part) : Prop := ∀ a, ¬ open_log b k a.

Inductive bcall : Type :=
  | BProduce (now : Z) (req : ProduceRequest) (r : rpc ProduceResponse)
  | BFetch (req : FetchRequest) (r : rpc FetchResponse)
  | BCommitOffset (now : Z) (req : option CommitOffsetRequest) (r : rpc unit)
  | BFetchCommittedOffset (req : option FetchCommittedOffsetRequest)
      (r : rpc FetchCommittedOffsetResponse)
  | BCreateTopic (req : CreateTopicRequest) (r : rpc TopicMetadata)
  | BRetain (k : part) (now maxAge maxBytes : Z)
  | BShutdown
  | BStop
  | BCrash
  | BStart (started : bool).

(** ** Responses *)

Definition produce_key (req : ProduceRequest) : part := (pr_Topic req, pr_Partition req).
Definition fetch_key (req : FetchRequest) : part := (fr_Topic req, fr_Partition req).
Definition commit_part (req : CommitOffsetRequest) : part := (co_Topic req, co_Partition req).
Definition committed_part (req : FetchCommittedOffsetRequest) : part :=
  (fc_Topic req, fc_Partition req).
Definition committed_key (req : FetchCommittedOffsetRequest) : Key :=
  mkKey (fc_ConsumerGroup req) (String.list_byte_of_string (fc_Topic req)) (fc_Partition req).
Definition commit_of (now : Z) (req : CommitOffsetRequest) : commit :=
  mkCommit (mkKey (co_ConsumerGroup req) (String.list_byte_of_string (co_Topic req))
              (co_Partition req)) (co_NextOffset req) now.

Definition produce_response (req : ProduceRequest) (r : res (Z * Z)) : rpc ProduceResponse :=
  match r with
  | Ok (base, last) => inr (mkProduceResponse base last (u32 (blen (pr_Records req))))
  | Err e => inl (append_status e)
  | Panic => inl Internal
  end.
Definition fetch_response (l : alog) (r : res (list StoredRecord)) : rpc FetchResponse :=
  match r with
  | Ok out => inr (mkFetchResponse out (al_first l) (al_end l))
  | Err e => inl (read_status e)
  | Panic => inl Internal
  end.
Definition commit_response (r : res unit) : rpc unit :=
  match r with
  | Ok _ => inr tt
  | Err e => inl (commit_status e)
  | Panic => inl Internal
  end.
Definition committed_response (r : res (option Z)) : rpc FetchCommittedOffsetResponse :=
  match r with
  | Ok (Some v) => inr (mkFetchCommittedOffsetResponse true v)
  | Ok None => inr (mkFetchCommittedOffsetResponse false 0)
  | Err e => inl (committed_status e)
  | Panic => inl Internal
  end.

(** A new topic: its partitions are empty. *)
Definition created_response (dt : DiskTopic) : TopicMetadata :=
  mkTopicMetadata (dt_Name dt) (dt_PartitionCount dt)
    ((fun i => mkPartitionMetadata i 0 0) <$> seqZ 0 (dt_PartitionCount dt)) (dt_Retention dt).

(** The topic that a request asks for, with the defaults of the retention policy. *)
Definition requested_topic (defaults : RetentionPolicy → RetentionPolicy) (req : CreateTopicRequest)
    : DiskTopic :=
  mkDiskTopic (ct_Name req) (ct_PartitionCount req)
    (defaults (default (mkRetentionPolicy 0 0) (ct_Retention req))).

(** Why a topic is not created; [Internal] is an I/O error. *)
Definition create_refused (b : abroker) (req : CreateTopicRequest) (c : code) : Prop :=
  match c with
  | InvalidArgument => topicNameRegex (ct_Name req) = false
      ∨ ct_PartitionCount req < 1 ∨ MaxPartitionsPerTopic < ct_PartitionCount req
  | AlreadyExists => is_Some (ab_topics b !! ct_Name req)
  | Internal => ab_topics b !! ct_Name req = None
  | _ => False
  end.

(** ** Steps *)

Section Steps.
Context (sync : Prop) (maxRecordBytes : Z) (defaults : RetentionPolicy → RetentionPolicy).

(** Steps of one log with labels of a kind. *)
Definition reaches (T : call → Prop) (a a' : phase * alog) : Prop :=
  ∃ tr, Forall T tr ∧ asteps sync a tr a'.

(** Every log takes such steps. *)
Definition all_reach (T : call → Prop) (logs logs' : gmap part (phase * alog)) : Prop :=
  ∀ k, option_Forall2 (reaches T) (logs !! k) (logs' !! k).

Definition is_open (c : call) : Prop := c = COpen true.
Definition is_close (c : call) : Prop := match c with CClose _ => True | _ => False end.
Definition is_crash (c : call) : Prop := c = CCrash.
(** What a start that fails may do to a log: open it, close it again, give it up. *)
Definition is_startup (c : call) : Prop :=
  match c with COpen _ | CClose _ | CStop => True | _ => False end.

Definition all_down (logs : gmap part (phase * alog)) : Prop :=
  map_Forall (fun _ a => fst a = Down) logs.
Definition with_phase (p : phase) (logs : gmap part (phase * alog)) : gmap part (phase * alog) :=
  (fun a => (p, snd a)) <$> logs.

Inductive bstep : abroker → bcall → abroker → Prop :=
  | b_produce_empty b now req :
      pr_Records req = [] → bstep b (BProduce now req (inl InvalidArgument)) b
  | b_produce_unknown b now req :
      unknown b (produce_key req) → bstep b (BProduce now req (inl NotFound)) b
  | b_produce_large b now req :
      Exists (fun r => maxRecordBytes < recordPayloadSize r) (pr_Records req) →
      bstep b (BProduce now req (inl ResourceExhausted)) b
  | b_produce b now req a r a' :
      open_log b (produce_key req) a →
      astep sync a (CAppend now (client_records (pr_Records req)) r) a' →
      bstep b (BProduce now req (produce_response req r)) (ab_with_log (produce_key req) a' b)
  | b_fetch_empty b req :
      fr_MaxBytes req = 0 → bstep b (BFetch req (inl InvalidArgument)) b
  | b_fetch_unknown b req :
      unknown b (fetch_key req) → bstep b (BFetch req (inl NotFound)) b
  | b_fetch b req a r :
      open_log b (fetch_key req) a → astep sync a (CRead (fr_Offset req) (fr_MaxBytes req) r) a →
      bstep b (BFetch req (fetch_response (snd a) r)) b
  | b_commit_nil b now : bstep b (BCommitOffset now None (inl InvalidArgument)) b
  | b_commit_no_group b now req :
      co_ConsumerGroup req = [] → bstep b (BCommitOffset now (Some req) (inl InvalidArgument)) b
  | b_commit_unknown b now req :
      unknown b (commit_part req) → bstep b (BCommitOffset now (Some req) (inl NotFound)) b
  | b_commit_range b now req a :
      open_log b (commit_part req) a →
      (fst a = Serving → co_NextOffset req < al_first (snd a) ∨ al_end (snd a) < co_NextOffset req) →
      bstep b (BCommitOffset now (Some req) (inl OutOfRange)) b
  | b_commit b now req a r o :
      open_log b (commit_part req) a →
      (fst a = Serving → al_first (snd a) <= co_NextOffset req <= al_end (snd a)) →
      ostep (ab_offsets b) (OCommit (commit_of now req) r) o →
      bstep b (BCommitOffset now (Some req) (commit_response r)) (ab_with_offsets o b)
  | b_committed_nil b : bstep b (BFetchCommittedOffset None (inl InvalidArgument)) b
  | b_committed_no_group b req :
      fc_ConsumerGroup req = [] →
      bstep b (BFetchCommittedOffset (Some req) (inl InvalidArgument)) b
  | b_committed_unknown b req :
      unknown b (committed_part req) → bstep b (BFetchCommittedOffset (Some req) (inl NotFound)) b
  | b_committed b req a r :
      open_log b (committed_part req) a →
      ostep (ab_offsets b) (OGet (committed_key req) r) (ab_offsets b) →
      bstep b (BFetchCommittedOffset (Some req) (committed_response r)) b
  | b_create b req :
      topicNameRegex (ct_Name req) = true → 1 <= ct_PartitionCount req <= MaxPartitionsPerTopic →
      ab_topics b !! ct_Name req = None →
      bstep b (BCreateTopic req (inr (created_response (requested_topic defaults req))))
        (ab_with_topic (requested_topic defaults req) b)
  | b_create_refused b req c :
      create_refused b req c → bstep b (BCreateTopic req (inl c)) b
  | b_retain b k now maxAge maxBytes a r a' :
      open_log b k a → astep sync a (CRetain now maxAge maxBytes r) a' →
      bstep b (BRetain k now maxAge maxBytes) (ab_with_log k a' b)
  | b_retain_unknown b k now maxAge maxBytes :
      unknown b k → bstep b (BRetain k now maxAge maxBytes) b
  | b_shutdown b logs' r o :
      all_reach is_close (ab_logs b) logs' →
      map_Forall (fun _ a => fst a = Closed ∨ fst a = Down) logs' →
      ostep (ab_offsets b) (OClose r) o → bstep b BShutdown (mkAbroker (ab_topics b) logs' o)
  | b_stop b o :
      ostep (ab_offsets b) OStop o →
      bstep b BStop (mkAbroker (ab_topics b) (with_phase Down (ab_logs b)) o)
  | b_crash b logs' o :
      all_reach is_crash (ab_logs b) logs' → all_down logs' →
      ostep (ab_offsets b) OCrash o → bstep b BCrash (mkAbroker (ab_topics b) logs' o)
  | b_start b o :
      all_down (ab_logs b) → ostep (ab_offsets b) (OOpen true) o →
      bstep b (BStart true) (mkAbroker (ab_topics b) (with_phase Serving (ab_logs b)) o)
  (** the metadata could not be read: the broker runs without its topics *)
  | b_start_empty b o :
      all_down (ab_logs b) → ostep (ab_offsets b) (OOpen true) o →
      bstep b (BStart true) (ab_with_offsets o b)
  | b_start_failed b logs' :
      all_down (ab_logs b) → all_reach is_startup (ab_logs b) logs' → all_down logs' →
      fst (ab_offsets b) = Down → bstep b (BStart false) (ab_with_logs logs' b).

Inductive bsteps : abroker → list bcall → abroker → Prop :=
  | bs_nil b : bsteps b [] b
  | bs_cons b c m tr d : bstep b c m → bsteps m tr d → bsteps b (c :: tr) d.

(** ** Runs of the service seen from one partition *)

Lemma asteps_one a c a' : astep sync a c a' → asteps sync a [c] a'.
Proof. intros H. econstructor; [exact H|constructor]. Qed.

Lemma asteps_app a tr1 b tr2 d : asteps sync a tr1 b → asteps sync b tr2 d → asteps sync a (tr1 ++ tr2) d.
Proof. induction 1 as [|a c b tr d' Hst Hs IH]; intros H; [done|]. econstructor; eauto. Qed.

Lemma bsteps_app_inv b tr1 tr2 d :
  bsteps b (tr1 ++ tr2) d → ∃ m, bsteps b tr1 m ∧ bsteps m tr2 d.
Proof.
  revert b. induction tr1 as [|c tr1 IH]; intros b H; simpl in H; [exists b; split; [constructor|done]|].
  inversion H as [|? ? m ? ? Hst Hs]; subst. apply IH in Hs as (x & H1 & H2).
  exists x. split; [by econstructor|done].
Qed.

Lemma all_reach_lookup T logs logs' k a :
  all_reach T logs logs' → logs !! k = Some a →
  ∃ a', logs' !! k = Some a' ∧ ∃ tr, asteps sync a tr a'.
Proof.
  intros H Hk. specialize (H k). rewrite Hk in H. inversion H as [x a' (tr & _ & Htr) Hx|]; subst. eauto.
Qed.

Lemma reaches_refl T a : reaches T a a.
Proof. exists []. split; constructor. Qed.

Lemma all_reach_refl T logs : all_reach T logs logs.
Proof. intros k. destruct (logs !! k); constructor. apply reaches_refl. Qed.

Lemma all_reach_trans T l1 l2 l3 : all_reach T l1 l2 → all_reach T l2 l3 → all_reach T l1 l3.
Proof.
  intros H1 H2 k. specialize (H1 k). specialize (H2 k).
  destruct H1 as [a b (t1 & F1 & S1)|]; inversion H2 as [? c (t2 & F2 & S2)|]; subst; constructor.
  exists (t1 ++ t2). split; [by apply Forall_app|by eapply asteps_app].
Qed.

Lemma all_reach_weaken (T T' : call → Prop) l1 l2 :
  (∀ c, T c → T' c) → all_reach T l1 l2 → all_reach T' l1 l2.
Proof.
  intros HT H k. destruct (H k) as [a b (tr & F & S)|]; constructor. exists tr.
  split; [by eapply Forall_impl|done].
Qed.

Lemma all_reach_insert (T : call → Prop) logs k a c a' :
  logs !! k = Some a → T c → astep sync a c a' → all_reach T logs (<[k := a']> logs).
Proof.
  intros Hk Hc Hst k'. destruct (decide (k = k')) as [<-|Hne].
  - rewrite lookup_insert_eq, Hk. constructor. exists [c].
    split; [by apply Forall_singleton|by apply asteps_one].
  - rewrite lookup_insert_ne by done. destruct (logs !! k'); constructor. apply reaches_refl.
Qed.

Lemma all_reach_is_Some T l1 l2 k : all_reach T l1 l2 → is_Some (l1 !! k) ↔ is_Some (l2 !! k).
Proof. intros H. destruct (H k); [split; eauto|done]. Qed.

(** Every log belongs to a topic. *)
Definition logs_listed (b : abroker) : Prop :=
  ∀ k, is_Some (ab_logs b !! k) → is_Some (ab_topics b !! fst k).

Lemma topic_logs_lookup p name count k a :
  topic_logs p name count !! k = Some a → fst k = name ∧ 0 <= snd k < count ∧ a = (p, empty_log).
Proof.
  unfold topic_logs. intros H%elem_of_list_to_map_2. apply list_elem_of_fmap in H as (i & [= -> ->] & Hi).
  apply elem_of_seqZ in Hi. split; [done|]. simpl. split; [lia|done].
Qed.

Lemma topic_logs_is_Some p name count i :
  0 <= i < count → topic_logs p name count !! (name, i) = Some (p, empty_log).
Proof.
  intros Hi. destruct (topic_logs p name count !! (name, i)) as [a|] eqn:Ha.
  - by apply topic_logs_lookup in Ha as (_ & _ & ->).
  - apply not_elem_of_list_to_map_2 in Ha. exfalso. apply Ha. rewrite <- list_fmap_compose.
    apply list_elem_of_fmap. exists i. split; [done|]. apply elem_of_seqZ. lia.
Qed.

(** A step of the service is a run of each of its logs. *)
Lemma bstep_log b c b' k a :
  bstep b c b' → logs_listed b → ab_logs b !! k = Some a →
  ∃ a', ab_logs b' !! k = Some a' ∧ ∃ tr, asteps sync a tr a'.
Proof.
  assert (∀ k0 a0 c0 a0' b0, open_log b0 k0 a0 → astep sync a0 c0 a0' → ab_logs b0 !! k = Some a →
    ∃ a', ab_logs (ab_with_log k0 a0' b0) !! k = Some a' ∧ ∃ tr, asteps sync a tr a') as Hlog.
  { intros k0 a0 c0 a0' b0 [H0 _] Hst Hk. simpl. destruct (decide (k0 = k)) as [->|Hne].
    - rewrite H0 in Hk. injection Hk as ->. rewrite lookup_insert_eq. eauto using asteps_one.
    - rewrite lookup_insert_ne by done. eauto using as_nil. }
  intros Hst Hl Hk. destruct Hst; eauto using as_nil, all_reach_lookup.
  - simpl. rewrite lookup_union_r; [eauto using as_nil|].
    destruct (topic_logs _ _ _ !! k) eqn:Ht; [|done]. apply topic_logs_lookup in Ht as [Hn _].
    simpl in Hn. destruct (Hl k) as [dt Hdt]; [by rewrite Hk|]. congruence.
  - simpl. unfold with_phase. rewrite lookup_fmap, Hk. simpl. eexists. split; [done|].
    destruct (decide (fst a = Down)) as [Hd|Hd]; destruct a as [p l]; simpl in *.
    + subst p. eauto using as_nil.
    + exists [CStop]. apply asteps_one. by constructor.
  - simpl. unfold with_phase. rewrite lookup_fmap, Hk. simpl. eexists. split; [done|].
    match goal with H : all_down _ |- _ => apply H in Hk end. destruct a as [p l]; simpl in *. subst p.
    exists [COpen true]. apply asteps_one. constructor.
Qed.

(** A log that a step adds is empty. *)
Lemma bstep_new b c b' k a :
  bstep b c b' → ab_logs b !! k = None → ab_logs b' !! k = Some a →
  a = (Serving, empty_log) ∧ is_Some (ab_topics b' !! fst k).
Proof.
  intros Hst Hk Hk'.
  assert (∀ T logs', all_reach T (ab_logs b) logs' → logs' !! k = None) as Hreach.
  { intros T logs' H. specialize (H k). rewrite Hk in H. by inversion H. }
  destruct Hst; simpl in Hk'; try congruence; try (by erewrite Hreach in Hk'; [|eassumption]).
  - match goal with H : open_log _ _ _ |- _ => destruct H as [H _] end.
    rewrite lookup_insert_ne in Hk'; [congruence|]. intros Heq. subst. congruence.
  - apply lookup_union_Some_raw in Hk' as [Ht|[_ Hk']]; [|congruence].
    apply topic_logs_lookup in Ht as (-> & _ & ->). split; [done|]. simpl. by rewrite lookup_insert_eq.
  - match goal with H : open_log _ _ _ |- _ => destruct H as [H _] end.
    rewrite lookup_insert_ne in Hk'; [congruence|]. intros Heq. subst. congruence.
  - unfold with_phase in Hk'. by rewrite lookup_fmap, Hk in Hk'.
  - unfold with_phase in Hk'. by rewrite lookup_fmap, Hk in Hk'.
Qed.

Lemma bstep_topics b c b' name :
  bstep b c b' → is_Some (ab_topics b !! name) → is_Some (ab_topics b' !! name).
Proof.
  intros Hst H. destruct Hst; try done. simpl. apply lookup_insert_is_Some'. by right.
Qed.

Lemma bstep_listed b c b' : bstep b c b' → logs_listed b → logs_listed b'.
Proof.
  intros Hst Hl k [a' Ha']. destruct (ab_logs b !! k) as [a|] eqn:Hk.
  - eapply bstep_topics; [exact Hst|]. apply Hl. by rewrite Hk.
  - by eapply bstep_new.
Qed.

Lemma bsteps_log b tr b' k a :
  bsteps b tr b' → logs_listed b → ab_logs b !! k = Some a →
  ∃ a', ab_logs b' !! k = Some a' ∧ ∃ tr', asteps sync a tr' a'.
Proof.
  intros Hs. revert a. induction Hs as [b|b c m tr d Hst Hs IH]; intros a Hl Hk; [eauto using as_nil|].
  destruct (bstep_log _ _ _ _ _ Hst Hl Hk) as (a1 & H1 & t1 & Ht1).
  destruct (IH _ (bstep_listed _ _ _ Hst Hl) H1) as (a2 & H2 & t2 & Ht2). eauto using asteps_app.
Qed.

(** ** An acknowledged Produce *)

(** Every log is well formed and belongs to a topic. *)
Definition logs_wf (b : abroker) : Prop :=
  map_Forall (fun _ a => al_wf (snd a)) (ab_logs b) ∧ logs_listed b.

Lemma bsteps_wf b tr b' : bsteps b tr b' → logs_wf b → logs_wf b'.
Proof.
  induction 1 as [b|b c m tr d Hst Hs IH]; [done|]. intros [Hwf Hl]. apply IH.
  split; [|by eapply bstep_listed]. intros k a Hk. destruct (ab_logs b !! k) as [a0|] eqn:Hk0.
  - destruct (bstep_log _ _ _ _ _ Hst Hl Hk0) as (a1 & H1 & t & Ht).
    assert (a1 = a) as -> by congruence. eapply al_wf_steps; [exact Ht|]. by eapply Hwf.
  - destruct (bstep_new _ _ _ _ _ Hst Hk0 Hk) as [-> _]. split; [apply contiguous_nil|done].
Qed.

Lemma produce_ok_inv b now req resp b' :
  bstep b (BProduce now req (inr resp)) b' →
  ∃ a a', open_log b (produce_key req) a
    ∧ astep sync a (CAppend now (client_records (pr_Records req))
                      (Ok (BaseOffset resp, LastOffset resp))) a'
    ∧ b' = ab_with_log (produce_key req) a' b.
Proof.
  inversion 1 as [| | |? ? ? a r a' Ho Ha| | | | | | | | | | | | | | | | | | | | | |]; subst.
  destruct r as [[base last]|e|]; try done.
  match goal with H : produce_response _ _ = inr _ |- _ => injection H as <- end. eauto.
Qed.

Lemma fetch_ok_inv b req resp b' :
  bstep b (BFetch req (inr resp)) b' →
  ∃ a, open_log b (fetch_key req) a
    ∧ astep sync a (CRead (fr_Offset req) (fr_MaxBytes req) (Ok (Records resp))) a
    ∧ Grpc.EarliestOffset resp = al_first (snd a) ∧ Grpc.LogEndOffset resp = al_end (snd a).
Proof.
  inversion 1 as [| | | | | |? ? a r Ho Ha| | | | | | | | | | | | | | | | | | |]; subst.
  destruct r as [out|e|]; try done.
  match goal with H : fetch_response _ _ = inr _ |- _ => injection H as <- end. eauto.
Qed.

(** Whatever happens in between, a later successful Fetch of the partition returns at
    the offsets of an acknowledged Produce exactly the records that were produced. *)
Lemma acknowledged_produce b b' tr1 now req resp tr2 freq fresp :
  sync → logs_wf b → fetch_key freq = produce_key req →
  bsteps b (tr1 ++ BProduce now req (inr resp) :: tr2 ++ [BFetch freq (inr fresp)]) b' →
  (∀ i r, Records fresp !! i = Some r →
     BaseOffset resp <= fr_Offset freq + Z.of_nat i <= LastOffset resp →
     stamp (BaseOffset resp) now (client_records (pr_Records req))
       !! Z.to_nat (fr_Offset freq + Z.of_nat i - BaseOffset resp) = Some r)
  ∧ (BaseOffset resp <= fr_Offset freq <= LastOffset resp → Records fresp ≠ []).
Proof.
  intros Hsync Hwf Hkey Hs. apply bsteps_app_inv in Hs as (m & H1 & H2).
  inversion H2 as [|? ? m2 ? ? Hp H3]; subst.
  apply produce_ok_inv in Hp as (a & a' & [Ha _] & Hst & ->).
  pose proof (bsteps_wf _ _ _ H1 Hwf) as [Hwfm Hl]. pose proof (Hwfm _ _ Ha) as Hwfa.
  apply bsteps_app_inv in H3 as (n & H3 & H4). inversion H4 as [|? ? n2 ? ? Hf _]; subst.
  apply fetch_ok_inv in Hf as (a2 & [Ha2 _] & Hrd & _). rewrite Hkey in Ha2.
  destruct (bsteps_log _ _ _ (produce_key req) a' H3) as (a3 & Ha3 & t & Ht).
  { intros k. simpl. rewrite lookup_insert_is_Some'. intros [<-|Hk]; apply Hl; [by rewrite Ha|done]. }
  { simpl. by rewrite lookup_insert_eq. }
  rewrite Ha2 in Ha3. injection Ha3 as <-.
  eapply (acknowledged_read sync a a2); [done|done|]. econstructor; [exact Hst|].
  eapply asteps_app; [exact Ht|by apply asteps_one].
Qed.

(** ** An acknowledged CommitOffset *)

(** The commit that a request asks for. *)
Definition commit_attempt (c : bcall) : option commit :=
  match c with BCommitOffset now (Some req) _ => Some (commit_of now req) | _ => None end.

(** The commit [c] is durable, and the commits taken after it are among [later]. *)
Definition holds_commit (c : commit) (later : list commit) (l : aoffsets) : Prop :=
  ∃ pre post, ao_commits l = pre ++ c :: post ∧ (length pre < ao_durable l)%nat
    ∧ Forall (fun x => x ∈ later) post.

Lemma holds_commit_step p l oc p' l' c later att :
  ostep (p, l) oc (p', l') → (∀ x r, oc = OCommit x r → x ∈ att) →
  holds_commit c later l → holds_commit c (later ++ att) l'.
Proof.
  intros Hst Hatt (pre & post & Hl & Hd & Hp).
  assert (Forall (fun x => x ∈ later ++ att) post) as Hp'
    by (eapply Forall_impl; [exact Hp|]; intros x Hx; apply elem_of_app; by left).
  assert (∀ x r, oc = OCommit x r → Forall (fun y => y ∈ later ++ att) (post ++ [x])) as Hsnoc.
  { intros x r Ho. apply Forall_app. split; [done|]. apply Forall_singleton, elem_of_app. right.
    by eapply Hatt. }
  inversion Hst; subst; simpl in *; try (by exists pre, post).
  - exists pre, (post ++ [c0]). simpl. rewrite Hl, <- app_assoc, length_app. simpl.
    split; [done|]. split; [lia|by eapply Hsnoc].
  - exists pre, (post ++ [c0]). simpl. rewrite Hl, <- app_assoc. simpl.
    split; [done|]. split; [lia|by eapply Hsnoc].
  - exists pre, (take (n - length pre - 1) post). simpl. rewrite Hl, take_app_ge by lia.
    destruct (n - length pre)%nat as [|m] eqn:Hn; [lia|]. simpl. rewrite Nat.sub_0_r.
    split; [done|]. split; [lia|by apply Forall_take].
Qed.

(** A step of the service is at most one step of the offset store. *)
Lemma bstep_offsets b c b' :
  bstep b c b' → ab_offsets b' = ab_offsets b
    ∨ ∃ oc, ostep (ab_offsets b) oc (ab_offsets b')
        ∧ ∀ x r, oc = OCommit x r → x ∈ option_list (commit_attempt c).
Proof.
  destruct 1; try (by left); right; (eexists; split; [simpl; eassumption|]); try done.
  intros x y [= <- _]. simpl. by constructor.
Qed.

Lemma holds_commit_steps b tr b' c later :
  bsteps b tr b' → holds_commit c later (snd (ab_offsets b)) →
  holds_commit c (later ++ omap commit_attempt tr) (snd (ab_offsets b')).
Proof.
  intros Hs. revert later. induction Hs as [b|b x m tr d Hst Hs IH]; intros later Hc.
  - by rewrite app_nil_r.
  - assert (holds_commit c (later ++ option_list (commit_attempt x)) (snd (ab_offsets m))) as Hm.
    { destruct (bstep_offsets _ _ _ Hst) as [->|(oc & Ho & Ha)].
      - destruct Hc as (pre & post & ? & ? & Hp). exists pre, post. split_and!; [done..|].
        eapply Forall_impl; [exact Hp|]. intros y Hy. apply elem_of_app. by left.
      - destruct (ab_offsets b), (ab_offsets m). by eapply holds_commit_step. }
    apply IH in Hm. rewrite <- app_assoc in Hm. simpl. by destruct (commit_attempt x).
Qed.

Lemma apply_commits_lookup m cs c k :
  c_key c = k →
  ∃ x, x ∈ c :: cs ∧ c_key x = k ∧ apply_commits m (c :: cs) !! k = Some (c_next x).
Proof.
  intros Hk. induction cs as [|y cs IH] using rev_ind.
  - exists c. split; [by constructor|]. split; [done|]. unfold apply_commits. simpl. rewrite Hk.
    apply lookup_insert_eq.
  - change (c :: cs ++ [y]) with ((c :: cs) ++ [y]). rewrite apply_commits_snoc.
    destruct (decide (c_key y = k)) as [Hy|Hy].
    + exists y. split; [apply elem_of_app; right; by constructor|]. split; [done|].
      by rewrite Hy, lookup_insert_eq.
    + destruct IH as (x & Hx & Hxk & Hl). exists x. split; [apply elem_of_app; by left|].
      split; [done|]. by rewrite lookup_insert_ne.
Qed.

Lemma commit_ok_inv b now req b' :
  bstep b (BCommitOffset now (Some req) (inr tt)) b' →
  ∃ cs, snd (ab_offsets b') = mkAoffsets (cs ++ [commit_of now req]) (S (length cs)).
Proof.
  inversion 1 as [| | | | | | | | | | |? ? ? a r o Ho _ Hst| | | | | | | | | | | | | |]; subst.
  destruct r as [[]|e|]; try done. simpl.
  inversion Hst; subst; try match goal with Hf : al_failed (Ok _) |- _ => by destruct Hf end.
  simpl. eauto.
Qed.

Lemma committed_ok_inv b req resp b' :
  bstep b (BFetchCommittedOffset (Some req) (inr resp)) b' →
  resp = match committed (snd (ab_offsets b)) (committed_key req) with
         | Some v => mkFetchCommittedOffsetResponse true v
         | None => mkFetchCommittedOffsetResponse false 0
         end.
Proof.
  inversion 1 as [| | | | | | | | | | | | | | |? ? a r Ho Hst| | | | | | | | | |]; subst.
  destruct r as [v|e|]; try done. inversion Hst; subst; simpl;
    try match goal with Hf : al_failed (Ok _) |- _ => by destruct Hf end.
  destruct (committed l (committed_key req)); simpl in *; congruence.
Qed.

(** The committed offset is that of the commit, or of a later one. *)
Lemma holds_committed c later l k :
  holds_commit c later l → c_key c = k →
  ∃ x, (x = c ∨ x ∈ later) ∧ c_key x = k ∧ committed l k = Some (c_next x).
Proof.
  intros (pre & post & Hl & _ & Hp) Hk. unfold committed. rewrite Hl. unfold apply_commits.
  rewrite fold_left_app. fold (apply_commits ∅ pre).
  destruct (apply_commits_lookup (apply_commits ∅ pre) post c k Hk) as (x & Hx & Hxk & Hlk).
  unfold apply_commits in Hlk at 1. exists x. split; [|done].
  apply elem_of_cons in Hx as [->|Hx]; [by left|right]. rewrite Forall_forall in Hp. by apply Hp.
Qed.

(** After an acknowledged commit, a successful FetchCommittedOffset of the same group,
    topic and partition returns that offset, or one of a commit attempted since. *)
Lemma acknowledged_commit b b' tr1 now req tr2 freq resp :
  committed_key freq = c_key (commit_of now req) →
  bsteps b (tr1 ++ BCommitOffset now (Some req) (inr tt)
              :: tr2 ++ [BFetchCommittedOffset (Some freq) (inr resp)]) b' →
  Found resp = true
  ∧ ∃ c, (c = commit_of now req ∨ c ∈ omap commit_attempt tr2)
      ∧ c_key c = committed_key freq ∧ NextOffset resp = c_next c.
Proof.
  intros Hkey Hs. apply bsteps_app_inv in Hs as (m & _ & H2).
  inversion H2 as [|? ? m2 ? ? Hc H3]; subst. apply commit_ok_inv in Hc as (cs & Hm2).
  apply bsteps_app_inv in H3 as (n & H3 & H4). inversion H4 as [|? ? n2 ? ? Hf _]; subst.
  apply committed_ok_inv in Hf.
  assert (holds_commit (commit_of now req) [] (snd (ab_offsets m2))) as Hh.
  { rewrite Hm2. exists cs, []. simpl. split; [done|]. split; [lia|constructor]. }
  apply (holds_commit_steps _ _ _ _ _ H3) in Hh.
  destruct (holds_committed _ _ _ (committed_key freq) Hh) as (x & Hx & Hxk & Hlk); [done|].
  rewrite Hlk in Hf. subst resp. split; [done|]. by exists x.
Qed.

End Steps.
