(* ===== verification/Threads.v ===== *)
(** * Request handlers as threads

    The handlers of internal/grpcserver/broker_handler.go run concurrently.  A thread is a
    handler between two of its critical sections: each section is one call on the topic
    manager, on a partition or on the offset store, which takes that object's mutex
    (topic/manager.go, storage/store.go, offsets/store.go), and the thread holds nothing
    from one section to the next.  Run without interruption, the sections of a thread are
    the handler of Grpc.v.  [Manager.Close] is likewise a sequence of sections, one per
    partition. *)

From S2P Require Import Prelude FileSystem Model Store Offsets Topics TopicsSpec Grpc GrpcSpec ServiceSpec.
Open Scope Z_scope.

(** ** Requests and responses *)

Inductive request : Type :=
  | QProduce (now : Z) (req : ProduceRequest)
  | QFetch (req : FetchRequest)
  | QCommitOffset (now : Z) (req : option CommitOffsetRequest)
  | QFetchCommittedOffset (req : option FetchCommittedOffsetRequest).

Inductive response : Type :=
  | AProduce (r : rpc ProduceResponse)
  | AFetch (r : rpc FetchResponse)
  | ACommitOffset (r : rpc unit)
  | AFetchCommittedOffset (r : rpc FetchCommittedOffsetResponse).

(** The handler of a request. *)
Definition handle (q : request) : M (Server * World) response :=
  match q with
  | QProduce now req => let* r := Produce now req in ret (AProduce r)
  | QFetch req => let* r := Fetch req in ret (AFetch r)
  | QCommitOffset now req => let* r := CommitOffset now req in ret (ACommitOffset r)
  | QFetchCommittedOffset req =>
    let* r := FetchCommittedOffset req in ret (AFetchCommittedOffset r)
  end.

(** ** Threads *)

Inductive thread : Type :=
  | TStart (q : request)
  | TAppend (now : Z) (req : ProduceRequest) (internalRecs : list ClientRecord)
  | TRead (req : FetchRequest)
  | TEarliest (req : FetchRequest) (stored : list StoredRecord)
  | TLogEnd (req : FetchRequest) (stored : list StoredRecord) (earliest : Z)
  | TCheckFirst (now : Z) (req : CommitOffsetRequest)
  | TCheckEnd (now : Z) (req : CommitOffsetRequest) (earliest : Z)
  | TCommit (now : Z) (req : CommitOffsetRequest)
  | TGet (req : FetchCommittedOffsetRequest)
  | TDone (q : request) (r : response).

(** The first section: [GetPartition], which leaves a pointer to the partition.  Topics are
    never removed, so the pointer is the partition of that topic and number. *)
Definition resolve (t : string) (i : Z) (found : thread) (failed : code → thread)
    : M (Server * World) thread :=
  let* s := get_obj in
  match GetPartition (sv_topics s) t i with
  | Ok _ => ret found
  | Err e => ret (failed (partition_status e))
  | Panic => panic
  end.

(** A section on the partition. *)
Definition on_resolved (t : string) (i : Z) (f : Store → M (Server * World) thread)
    : M (Server * World) thread :=
  let* s := get_obj in
  match GetPartition (sv_topics s) t i with
  | Ok p => f p
  | _ => panic
  end.

Definition start_thread (q : request) : M (Server * World) thread :=
  match q with
  | QProduce now req =>
    let refuse c := TDone q (AProduce (inl c)) in
    if blen (pr_Records req) =? 0 then ret (refuse InvalidArgument) else
    let* s := get_obj in
    resolve (pr_Topic req) (pr_Partition req)
      (match convert_records (sv_MaxRecordBytes s) (pr_Records req) with
       | None => refuse ResourceExhausted
       | Some internalRecs => TAppend now req internalRecs
       end) refuse
  | QFetch req =>
    let refuse c := TDone q (AFetch (inl c)) in
    if fr_MaxBytes req =? 0 then ret (refuse InvalidArgument) else
    resolve (fr_Topic req) (fr_Partition req) (TRead req) refuse
  | QCommitOffset now None => ret (TDone q (ACommitOffset (inl InvalidArgument)))
  | QCommitOffset now (Some req) =>
    let refuse c := TDone q (ACommitOffset (inl c)) in
    if blen (co_ConsumerGroup req) =? 0 then ret (refuse InvalidArgument) else
    resolve (co_Topic req) (co_Partition req) (TCheckFirst now req) refuse
  | QFetchCommittedOffset None => ret (TDone q (AFetchCommittedOffset (inl InvalidArgument)))
  | QFetchCommittedOffset (Some req) =>
    let refuse c := TDone q (AFetchCommittedOffset (inl c)) in
    if blen (fc_ConsumerGroup req) =? 0 then ret (refuse InvalidArgument) else
    resolve (fc_Topic req) (fc_Partition req) (TGet req) refuse
  end.

(** One section of a thread. *)
Definition thread_step (th : thread) : M (Server * World) thread :=
  match th with
  | TStart q => start_thread q
  | TAppend now req internalRecs =>
    on_resolved (pr_Topic req) (pr_Partition req) (fun log =>
      let* r := attempt (on_log (pr_Topic req) (pr_Partition req) log
                           (partition.Append now internalRecs)) in
      match r with
      | Panic => panic
      | r => ret (TDone (QProduce now req) (AProduce (produce_response req r)))
      end)
  | TRead req =>
    on_resolved (fr_Topic req) (fr_Partition req) (fun log =>
      let* r := attempt (on_log (fr_Topic req) (fr_Partition req) log
                           (partition.Read (fr_Offset req) (fr_MaxBytes req))) in
      match r with
      | Ok stored => ret (TEarliest req stored)
      | Err e => ret (TDone (QFetch req) (AFetch (inl (read_status e))))
      | Panic => panic
      end)
  | TEarliest req stored =>
    on_resolved (fr_Topic req) (fr_Partition req) (fun log =>
      ret (TLogEnd req stored (st_earliestOffset log)))
  | TLogEnd req stored earliest =>
    on_resolved (fr_Topic req) (fr_Partition req) (fun log =>
      ret (TDone (QFetch req) (AFetch (inr (mkFetchResponse stored earliest (st_logEndOffset log))))))
  | TCheckFirst now req =>
    on_resolved (co_Topic req) (co_Partition req) (fun log =>
      ret (TCheckEnd now req (st_earliestOffset log)))
  | TCheckEnd now req earliest =>
    on_resolved (co_Topic req) (co_Partition req) (fun log =>
      if (co_NextOffset req <? earliest) || (st_logEndOffset log <? co_NextOffset req)
      then ret (TDone (QCommitOffset now (Some req)) (ACommitOffset (inl OutOfRange)))
      else ret (TCommit now req))
  | TCommit now req =>
    let* r := attempt (on_offsets
      (Commit now (co_ConsumerGroup req) (String.list_byte_of_string (co_Topic req))
         (co_Partition req) (co_NextOffset req))) in
    match r with
    | Panic => panic
    | r => ret (TDone (QCommitOffset now (Some req)) (ACommitOffset (commit_response r)))
    end
  | TGet req =>
    let* s := get_obj in
    match Offsets_Get (sv_offsets s) (fc_ConsumerGroup req)
            (String.list_byte_of_string (fc_Topic req)) (fc_Partition req) with
    | Panic => panic
    | r => ret (TDone (QFetchCommittedOffset (Some req)) (AFetchCommittedOffset (committed_response r)))
    end
  | TDone q r => ret (TDone q r)
  end.

(** The deferred count of a request when its handler returns. *)
Definition count_response (r : response) (s : Server) : Server :=
  match r with
  | AProduce r => count_request "produce" r s
  | AFetch r => count_request "fetch" r s
  | ACommitOffset r => count_request "commit_offset" r s
  | AFetchCommittedOffset _ => s
  end.

(** ** Closing storage *)

(** One iteration of [Manager.Close]: the section of one partition, whose error is kept for
    the report. *)
Definition close_partition (t : string) (i : Z) : M (Server * World) unit :=
  let* s := get_obj in
  match GetPartition (sv_topics s) t i with
  | Ok p => ignore (on_log t i p partition.Close)
  | _ => panic
  end.

Fixpoint close_each (ks : list (string * Z)) : M (Server * World) unit :=
  match ks with
  | [] => ret tt
  | (t, i) :: ks => do* close_partition t i in close_each ks
  end.

(** The partitions of the topics of a list, in the order of their closing. *)
Fixpoint partition_keys (ts : list (string * Topic)) : list (string * Z) :=
  match ts with
  | [] => []
  | (name, t) :: ts => ((name,.) <$> seqZ 0 (blen (t_partitions t))) ++ partition_keys ts
  end.

(** ** A thread that is not interrupted *)

Fixpoint run_from (n : nat) (th : thread) : M (Server * World) response :=
  match th with
  | TDone _ r => do* modify (count_response r) in ret r
  | _ =>
    match n with
    | O => panic
    | S n => let* th := thread_step th in run_from n th
    end
  end.

(** At most four sections, then the response. *)
Definition run_alone (q : request) : M (Server * World) response := run_from 4 (TStart q).

Definition unfinished (th : thread) : Prop := match th with TDone _ _ => False | _ => True end.

Lemma run_from_done n q r s w : run_from n (TDone q r) (s, w) = (Ok r, (count_response r s, w)).
Proof. by destruct n. Qed.

Lemma run_from_step n th st th' st' :
  unfinished th → thread_step th st = (Ok th', st') → run_from (S n) th st = run_from n th' st'.
Proof. intros Hd H. destruct th; try done; cbn [run_from]; unfold bind; by rewrite H. Qed.

Lemma run_from_panic n th st st' :
  unfinished th → thread_step th st = (Panic, st') → run_from (S n) th st = (Panic, st').
Proof. intros Hd H. destruct th; try done; cbn [run_from]; unfold bind; by rewrite H. Qed.

(** The sections of a partition that the registry has, or has not. *)
Lemma resolve_eq t i found failed s w :
  resolve t i found failed (s, w)
  = match GetPartition (sv_topics s) t i with
    | Ok _ => (Ok found, (s, w))
    | Err e => (Ok (failed (partition_status e)), (s, w))
    | Panic => (Panic, (s, w))
    end.
Proof. unfold resolve, bind, get_obj. by destruct (GetPartition _ _ _). Qed.

Lemma on_resolved_ok t i f s w p :
  GetPartition (sv_topics s) t i = Ok p → on_resolved t i f (s, w) = f p (s, w).
Proof. intros H. unfold on_resolved, bind, get_obj. by rewrite H. Qed.

Lemma with_partition_eq {A} t i (k : Store → M (Server * World) (rpc A)) s w :
  with_partition t i k (s, w)
  = match GetPartition (sv_topics s) t i with
    | Ok p => k p (s, w)
    | Err e => (Ok (inl (partition_status e)), (s, w))
    | Panic => (Panic, (s, w))
    end.
Proof. unfold with_partition, bind, get_obj. by destruct (GetPartition _ _ _). Qed.

(** The result of a counted handler. *)
Lemma counted_eq {A} method (h : M (Server * World) (rpc A)) (f : rpc A → response) st :
  (∀ r s, count_response (f r) s = count_request method r s) →
  bind (counted method h) (fun r => ret (f r)) st
  = match h st with
    | (Ok r, (s, w)) => (Ok (f r), (count_response (f r) s, w))
    | (Err e, st) => (Err e, st)
    | (Panic, st) => (Panic, st)
    end.
Proof.
  intros Hf. unfold counted, bind. destruct (h st) as [[r|e|] [s w]]; [|done..]. cbn. by rewrite Hf.
Qed.

(** The result of one section of a thread that runs alone. *)
Lemma run_from_eq n th st :
  unfinished th →
  run_from (S n) th st
  = match thread_step th st with
    | (Ok th', st') => run_from n th' st'
    | (Err e, st') => (Err e, st')
    | (Panic, st') => (Panic, st')
    end.
Proof. intros Hd. destruct th; try done; cbn [run_from]; unfold bind; by destruct (thread_step _ st) as [[]]. Qed.

Lemma produce_alone now req s w : run_alone (QProduce now req) (s, w) = handle (QProduce now req) (s, w).
Proof.
  unfold run_alone, handle, Produce. rewrite run_from_eq, counted_eq by done.
  cbn [thread_step start_thread]. destruct (blen (pr_Records req) =? 0); [done|].
  unfold bind at 1, get_obj. rewrite resolve_eq, with_partition_eq.
  destruct (GetPartition (sv_topics s) (pr_Topic req) (pr_Partition req)) as [p|e|] eqn:Hp; [|done..].
  unfold bind at 1, get_obj. destruct (convert_records _ _) as [recs|]; [|done].
  rewrite run_from_eq by done. cbn [thread_step]. rewrite (on_resolved_ok _ _ _ _ _ _ Hp).
  unfold bind, attempt. destruct (on_log _ _ _ _ (s, w)) as [[[base last]|e|] [s1 w1]]; done.
Qed.

Lemma commit_alone now req s w :
  run_alone (QCommitOffset now req) (s, w) = handle (QCommitOffset now req) (s, w).
Proof.
  unfold run_alone, handle, CommitOffset. rewrite run_from_eq, counted_eq by done.
  cbn [thread_step start_thread]. destruct req as [req|]; [|done].
  destruct (blen (co_ConsumerGroup req) =? 0); [done|]. rewrite resolve_eq, with_partition_eq.
  destruct (GetPartition (sv_topics s) (co_Topic req) (co_Partition req)) as [p|e|] eqn:Hp; [|done..].
  do 2 (rewrite run_from_eq by done; cbn [thread_step]; rewrite (on_resolved_ok _ _ _ _ _ _ Hp); cbn [ret]).
  destruct (_ || _); [done|]. cbn [ret]. rewrite run_from_eq by done. cbn [thread_step].
  unfold bind, attempt. destruct (on_offsets _ (s, w)) as [[[]|e|] [s1 w1]]; done.
Qed.

Lemma committed_alone req s w :
  run_alone (QFetchCommittedOffset req) (s, w) = handle (QFetchCommittedOffset req) (s, w).
Proof.
  unfold run_alone, handle, FetchCommittedOffset. rewrite run_from_eq by done.
  cbn [thread_step start_thread]. destruct req as [req|]; [|done].
  destruct (blen (fc_ConsumerGroup req) =? 0); [done|]. unfold bind at 1.
  rewrite resolve_eq, with_partition_eq.
  destruct (GetPartition (sv_topics s) (fc_Topic req) (fc_Partition req)) as [p|e|] eqn:Hp; [|done..].
  rewrite run_from_eq by done. cbn [thread_step]. unfold bind, get_obj.
  by destruct (Offsets_Get _ _ _ _) as [[v|]|e|].
Qed.

Lemma fetch_alone req s w : run_alone (QFetch req) (s, w) = handle (QFetch req) (s, w).
Proof.
  unfold run_alone, handle, Fetch. rewrite run_from_eq, counted_eq by done.
  cbn [thread_step start_thread]. destruct (fr_MaxBytes req =? 0); [done|].
  rewrite resolve_eq, with_partition_eq.
  destruct (GetPartition (sv_topics s) (fr_Topic req) (fr_Partition req)) as [p|e|] eqn:Hp; [|done..].
  rewrite run_from_eq by done. cbn [thread_step]. rewrite (on_resolved_ok _ _ _ _ _ _ Hp).
  unfold bind, attempt, on_log.
  rewrite partition_Read_run.
  destruct (Store_Read (fr_Offset req) (fr_MaxBytes req) (p, w)) as [r [p1 w1]] eqn:Er.
  apply Store_Read_store in Er as ->. rewrite (set_partition_same _ _ _ _ Hp).
  assert (sv_with_topics (sv_topics s) s = s) as Hs by (by destruct s). rewrite Hs.
  destruct r as [out|e|]; [|done..]. cbn [ret].
  do 2 (rewrite run_from_eq by done; cbn [thread_step]; rewrite (on_resolved_ok _ _ _ _ _ _ Hp); cbn [ret]).
  done.
Qed.


(** ** [Manager.Close] partition by partition *)

Lemma close_each_app ks ks' st st' :
  close_each ks st = (Ok tt, st') → close_each (ks ++ ks') st = close_each ks' st'.
Proof.
  revert st. induction ks as [|[t i] ks IH]; intros st H; [by injection H as <-|].
  cbn [close_each app] in *. unfold bind in *. destruct (close_partition t i st) as [[[]|e|] s1]; [|done..].
  by apply IH.
Qed.

Lemma close_partition_run t i p s w r p1 w1 :
  GetPartition (sv_topics s) t i = Ok p → partition.Close (p, w) = (r, (p1, w1)) →
  close_partition t i (s, w) = (Ok tt, (sv_with_topics (set_partition t i p1 (sv_topics s)) s, w1)).
Proof. intros Hp E. unfold close_partition, bind, get_obj, ignore, on_log. by rewrite Hp, E. Qed.

(** The server with the registry [ts]. *)
Definition with_registry (ts : gmap string Topic) (s : Server) : Server :=
  sv_with_topics (m_with_topics ts (sv_topics s)) s.
Definition with_logs (ps : list Store) (t : Topic) : Topic := mkTopic (t_name t) ps (t_retention t).

Lemma close_logs_each name t ts pre todo s w todo' err w' :
  blen (pre ++ todo) < two32 → close_logs todo w = (todo', err, w') →
  close_each ((name,.) <$> seqZ (blen pre) (blen todo))
    (with_registry (<[name := with_logs (pre ++ todo) t]> ts) s, w)
  = (Ok tt, (with_registry (<[name := with_logs (pre ++ todo') t]> ts) s, w')).
Proof.
  revert pre w todo' err w'. induction todo as [|p todo IH]; intros pre w todo' err w' Hlt E.
  { by injection E as <- <- <-. }
  cbn [close_logs] in E. destruct (partition.Close (p, w)) as [r [p1 w1]] eqn:E1.
  destruct (close_logs todo w1) as [[todo1 err1] w2] eqn:E2. injection E as <- <- <-.
  rewrite blen_cons, seqZ_cons by blen_lia. rewrite fmap_cons. cbn [close_each]. unfold bind.
  set (s0 := with_registry _ s).
  assert (GetPartition (sv_topics s0) name (blen pre) = Ok p) as Hp.
  { unfold GetPartition, s0. cbn. rewrite lookup_insert_eq. unfold Topic_Partition. cbn.
    rewrite u32_small by blen_lia. rewrite blen_app, blen_cons.
    destruct (Z.leb_spec (blen pre + (1 + blen todo)) (blen pre)); [blen_lia|]. unfold blen at 1. by rewrite Nat2Z.id, list_lookup_middle. }
  rewrite (close_partition_run _ _ _ _ _ _ _ _ Hp E1).
  assert (sv_with_topics (set_partition name (blen pre) p1 (sv_topics s0)) s0
    = with_registry (<[name := with_logs ((pre ++ [p1]) ++ todo) t]> ts) s) as ->.
  { unfold set_partition, s0, with_registry. cbn. rewrite lookup_insert_eq. cbn.
    rewrite insert_insert_eq. unfold blen. rewrite Nat2Z.id, insert_app_r_alt, Nat.sub_diag by done.
    by rewrite <- app_assoc. }
  replace (Z.succ (blen pre)) with (blen (pre ++ [p1])) by (rewrite blen_app; done).
  replace (Z.pred (1 + blen todo)) with (blen todo) by lia.
  rewrite (IH (pre ++ [p1]) _ _ _ _ ltac:(blen_lia) E2). by rewrite <- app_assoc.
Qed.

Lemma close_topics_names l w l' err w' : close_topics l w = (l', err, w') → l'.*1 = l.*1.
Proof.
  revert w l' err w'. induction l as [|[name t] l IH]; intros w l' err w' E; cbn [close_topics] in E.
  - by injection E as <- <- <-.
  - destruct (close_logs _ w) as [[ps err1] w1]. destruct (close_topics l w1) as [[l1 err2] w2] eqn:E2.
    injection E as <- <- <-. csimpl. f_equal. by eapply IH.
Qed.

Lemma close_topics_each l ts s w l' err w' :
  NoDup l.*1 → (∀ name t, (name, t) ∈ l → ts !! name = Some t ∧ blen (t_partitions t) < two32) →
  close_topics l w = (l', err, w') →
  close_each (partition_keys l) (with_registry ts s, w)
  = (Ok tt, (with_registry (list_to_map l' ∪ ts) s, w')).
Proof.
  revert ts w l' err w'. induction l as [|[name t] l IH]; intros ts w l' err w' Hnd Hl E.
  { injection E as <- <- <-. simpl. by rewrite map_empty_union. }
  apply NoDup_cons in Hnd as [Hnin Hnd]. cbn [close_topics] in E.
  destruct (close_logs (t_partitions t) w) as [[ps err1] w1] eqn:E1.
  destruct (close_topics l w1) as [[l1 err2] w2] eqn:E2. injection E as <- <- <-.
  destruct (Hl name t) as [Hts Hlt]; [by constructor|]. cbn [partition_keys].
  pose proof (close_logs_each name t ts [] (t_partitions t) s w ps err1 w1 Hlt E1) as H1.
  simpl app in H1. rewrite (insert_id ts) in H1 by (by destruct t).
  change (blen []) with 0 in H1. rewrite (close_each_app _ _ _ _ H1).
  erewrite IH; [|done| |exact E2].
  - assert (list_to_map ((name, with_logs ps t) :: l1) ∪ ts
      = list_to_map l1 ∪ <[name := with_logs ps t]> ts) as Hu; [|by rewrite <- Hu].
    simpl. rewrite <- insert_union_l, insert_union_r; [done|].
    apply not_elem_of_list_to_map_1. by rewrite (close_topics_names _ _ _ _ _ E2).
  - intros nm tp Hin. destruct (Hl nm tp) as [Ht Hb]; [by constructor|]. split; [|done].
    rewrite lookup_insert_ne; [done|]. intros <-. apply Hnin. apply list_elem_of_fmap. by exists (name, tp).
Qed.

(** [Manager.Close] is the sequence of the sections of its partitions: closing the
    partitions one after another, each under its own mutex, leaves the same registry and
    the same files, whatever closing fails. *)
Lemma manager_close_is_sections s w :
  map_Forall (fun _ t => blen (t_partitions t) < two32) (m_topics (sv_topics s)) →
  close_each (partition_keys (map_to_list (m_topics (sv_topics s)))) (s, w)
  = (Ok tt, snd (on_manager Manager_Close (s, w))).
Proof.
  intros Hlt. unfold on_manager, Manager_Close.
  destruct (close_topics (map_to_list (m_topics (sv_topics s))) w) as [[l err] w'] eqn:E.
  pose proof (close_topics_each _ (m_topics (sv_topics s)) s w l err w'
    (NoDup_fst_map_to_list (m_topics (sv_topics s)))) as H.
  assert (with_registry (m_topics (sv_topics s)) s = s) as Hs by (by destruct s as [[]]).
  rewrite Hs in H. rewrite H; [|intros nm t Hin%elem_of_map_to_list; split; [done|by eapply Hlt]|done].
  assert (list_to_map l ∪ m_topics (sv_topics s) = list_to_map l) as Hu; [|by rewrite Hu].
  apply map_eq. intros nm. rewrite lookup_union.
  destruct (m_topics (sv_topics s) !! nm) as [t|] eqn:Ht; [|by destruct (list_to_map l !! nm)].
  assert (nm ∈ l.*1) as Hin.
  { rewrite (close_topics_names _ _ _ _ _ E). apply list_elem_of_fmap. exists (nm, t).
    split; [done|by apply elem_of_map_to_list]. }
  destruct (list_to_map l !! nm) as [x|] eqn:Hx; [done|]. by apply not_elem_of_list_to_map in Hx.
Qed.

Lemma partition_keys_bounds l k :
  (∀ name t, (name, t) ∈ l → blen (t_partitions t) < two32) → k ∈ partition_keys l → 0 <= snd k < two32.
Proof.
  induction l as [|[name t] l IH]; intros Hl Hk; [by apply elem_of_nil in Hk|].
  apply elem_of_app in Hk as [Hk|Hk].
  - apply list_elem_of_fmap in Hk as (i & -> & Hi). apply elem_of_seqZ in Hi.
    specialize (Hl name t ltac:(by constructor)). simpl. lia.
  - apply IH; [|done]. intros nm tp Hin. apply (Hl nm). by constructor.
Qed.
