(* ===== verification/Config.v ===== *)
(** * Configuration (internal/config/config.go)

    [Load] starts from the defaults, decodes the YAML file over them, applies the
    environment and validates.  The YAML decoder is a library and an argument;
    so is time.ParseDuration, which computes fractions in floating point. *)

From S2P Require Import Prelude Names Recovery.
From Stdlib Require Import Strings.Ascii.
Open Scope Z_scope.

Record Config := mkConfig {
  GRPCAddress : string;
  HTTPAddress : string;
  ShutdownTimeoutStr : string;
  GracefulShutdownTimeout : Z;
  DataDirectory : string;
  MaxRecordBytes : Z;
  MaxBatchBytes : Z;
  SegmentMaxBytes : Z;
  IndexIntervalBytes : Z;
  FlushMode : string;
  DefaultMaxAgeStr : string;
  DefaultMaxPartitionBytes : Z;
  CheckIntervalStr : string;
  DefaultMaxAge : Z;
  CheckInterval : Z;
  LogLevel : string;
  LogFormat : string;
  MetricsEnabled : bool;
  PprofEnabled : bool;
  MutexProfileFraction : Z;
  BlockProfileRate : Z;
}.

(** Durations are in nanoseconds. *)
Definition Second : Z := 1000000000.

Definition DefaultConfig : Config := {|
  GRPCAddress := "localhost:50051";
  HTTPAddress := "localhost:9093";
  ShutdownTimeoutStr := "15s";
  GracefulShutdownTimeout := 0;
  DataDirectory := "./data";
  MaxRecordBytes := 1048576;
  MaxBatchBytes := 5242880;
  SegmentMaxBytes := 134217728;
  IndexIntervalBytes := 4096;
  FlushMode := "sync";
  DefaultMaxAgeStr := "168h";
  DefaultMaxPartitionBytes := 10737418240;
  CheckIntervalStr := "5m";
  DefaultMaxAge := 168 * 3600 * Second;
  CheckInterval := 5 * 60 * Second;
  LogLevel := "info";
  LogFormat := "json";
  MetricsEnabled := true;
  PprofEnabled := false;
  MutexProfileFraction := 0;
  BlockProfileRate := 0;
|}.

(** ** Standard library parsers *)

Definition is_digit (c : ascii) : bool :=
  let n := nat_of_ascii c in ((48 <=? n) && (n <=? 57))%nat.

(** The number that a run of digits at the start of [s] denotes, if there is one. *)
Fixpoint scan_digits (s : string) (acc : option Z) : option Z :=
  match s with
  | String c s =>
    if is_digit c
    then scan_digits s (Some (default 0 acc * 10 + (Z.of_nat (nat_of_ascii c) - 48)))
    else acc
  | EmptyString => acc
  end.

(** fmt's SkipSpace on ASCII input; a newline is refused, as is any other character
    that starts no number. *)
Fixpoint skip_space (s : string) : string :=
  match s with
  | String c s' =>
    let n := nat_of_ascii c in
    if ((n =? 32) || (n =? 9) || (n =? 11) || (n =? 12) || (n =? 13))%nat
    then skip_space s' else s
  | EmptyString => s
  end.

(** [fmt.Sscanf(val, "%d", &x)] into an int (or int64) and into a uint64; what
    follows the digits is not looked at. *)
Definition Sscanf_int (val : string) : option Z :=
  let s := skip_space val in
  let '(sign, s) := match s with
                    | String "-" s' => (-1, s')
                    | String "+" s' => (1, s')
                    | _ => (1, s)
                    end in
  match scan_digits s None with
  | Some n => let z := sign * n in
              if (- two63 <=? z) && (z <? two63) then Some z else None
  | None => None
  end.
Definition Sscanf_uint (val : string) : option Z :=
  match scan_digits (skip_space val) None with
  | Some n => if n <? two64 then Some n else None
  | None => None
  end.

(** [strconv.ParseBool]. *)
Definition ParseBool (s : string) : option bool :=
  if bool_decide (s ∈ ["1"; "t"; "T"; "true"; "TRUE"; "True"]%string) then Some true
  else if bool_decide (s ∈ ["0"; "f"; "F"; "false"; "FALSE"; "False"]%string) then Some false
  else None.

(** [strconv.Atoi]: an optional sign and digits, nothing else. *)
Fixpoint all_digits (s : string) : bool :=
  match s with
  | EmptyString => true
  | String c s => is_digit c && all_digits s
  end.
Definition Atoi (s : string) : option Z :=
  let '(sign, d) := match s with
                    | String "-" s' => (-1, s')
                    | String "+" s' => (1, s')
                    | _ => (1, s)
                    end in
  if negb (all_digits d) then None else
  match scan_digits d None with
  | Some n => let z := sign * n in
              if (- two63 <=? z) && (z <? two63) then Some z else None
  | None => None
  end.

(** [net.SplitHostPort], of which the port is used; on a list of characters. *)
Fixpoint index_char (c : ascii) (l : list ascii) : option nat :=
  match l with
  | [] => None
  | x :: l => if bool_decide (x = c) then Some 0%nat else S <$> index_char c l
  end.
Fixpoint last_index_char (c : ascii) (l : list ascii) : option nat :=
  match l with
  | [] => None
  | x :: l =>
    match last_index_char c l with
    | Some i => Some (S i)
    | None => if bool_decide (x = c) then Some 0%nat else None
    end
  end.

Definition split_port (l : list ascii) : option (list ascii) :=
  match last_index_char ":" l with
  | None => None
  | Some i =>
    let brackets :=
      match l with
      | "["%char :: _ =>
        match index_char "]" l with
        | None => None
        | Some e => if (e + 1 =? i)%nat then Some (1%nat, (e + 1)%nat) else None
        end
      | _ => if index_char ":" (take i l) is Some _ then None else Some (0%nat, 0%nat)
      end in
    match brackets with
    | None => None
    | Some (j, k) =>
      if index_char "[" (drop j l) is Some _ then None else
      if index_char "]" (drop k l) is Some _ then None else
      Some (drop (i + 1) l)
    end
  end.

Definition validateAddr (address : string) : res unit :=
  if bool_decide (address = ""%string) then Err (Errorf "cannot be empty") else
  match split_port (String.list_ascii_of_string address) with
  | None => Err (Errorf "invalid address")
  | Some portStr =>
    match Atoi (String.string_of_list_ascii portStr) with
    | Some port =>
      if (port <? 0) || (65535 <? port) then Err (Errorf "invalid port") else Ok tt
    | None => Err (Errorf "invalid port")
    end
  end.

(** ** The environment (lines 110-193) *)

Definition override {A} (env : string → string) (name : string) (parse : string → option A)
    (old : A) : A :=
  let val := env name in
  if bool_decide (val = ""%string) then old else default old (parse val).

(** A variable that must parse. *)
Definition override_bool (env : string → string) (name : string) (old : bool) : res bool :=
  let val := env name in
  if bool_decide (val = ""%string) then Ok old else
  match ParseBool val with
  | Some b => Ok b
  | None => Err (Errorf "invalid boolean")
  end.

Definition apply_env (env : string → string) (c : Config) : res Config :=
  let! metrics := override_bool env "BROKER_METRICS_ENABLED" (MetricsEnabled c) in
  let! pprof := override_bool env "BROKER_PPROF_ENABLED" (PprofEnabled c) in
  Ok {|
    GRPCAddress := override env "BROKER_GRPC_ADDRESS" Some (GRPCAddress c);
    HTTPAddress := override env "BROKER_HTTP_ADDRESS" Some (HTTPAddress c);
    ShutdownTimeoutStr := override env "BROKER_SHUTDOWN_TIMEOUT" Some (ShutdownTimeoutStr c);
    GracefulShutdownTimeout := GracefulShutdownTimeout c;
    DataDirectory := override env "BROKER_DATA_DIRECTORY" Some (DataDirectory c);
    MaxRecordBytes := override env "BROKER_MAX_RECORD_BYTES" Sscanf_int (MaxRecordBytes c);
    MaxBatchBytes := override env "BROKER_MAX_BATCH_BYTES" Sscanf_int (MaxBatchBytes c);
    SegmentMaxBytes := override env "BROKER_SEGMENT_MAX_BYTES" Sscanf_int (SegmentMaxBytes c);
    IndexIntervalBytes :=
      override env "BROKER_INDEX_INTERVAL_BYTES" Sscanf_int (IndexIntervalBytes c);
    FlushMode := override env "BROKER_FLUSH_MODE" Some (FlushMode c);
    DefaultMaxAgeStr := override env "BROKER_RETENTION_MAX_AGE" Some (DefaultMaxAgeStr c);
    DefaultMaxPartitionBytes := override env "BROKER_RETENTION_MAX_PARTITION_BYTES" Sscanf_uint
                                  (DefaultMaxPartitionBytes c);
    CheckIntervalStr := override env "BROKER_RETENTION_CHECK_INTERVAL" Some (CheckIntervalStr c);
    DefaultMaxAge := DefaultMaxAge c;
    CheckInterval := CheckInterval c;
    LogLevel := override env "BROKER_LOG_LEVEL" Some (LogLevel c);
    LogFormat := override env "BROKER_LOG_FORMAT" Some (LogFormat c);
    MetricsEnabled := metrics;
    PprofEnabled := pprof;
    MutexProfileFraction :=
      override env "BROKER_MUTEX_PROFILE_FRACTION" Sscanf_int (MutexProfileFraction c);
    BlockProfileRate := override env "BROKER_BLOCK_PROFILE_RATE" Sscanf_int (BlockProfileRate c);
  |}.

(** ** Validation (lines 196-287) *)

Section Load.
Context (ParseDuration : string → option Z).
Context (Decode : string → Config → res Config).

Definition one_of (s : string) (allowed : list string) (what : string) : res string :=
  let s := ToLower s in
  if bool_decide (s ∈ allowed) then Ok s else Err (Errorf what).

Definition require (b : bool) (what : string) : res unit :=
  if b then Ok tt else Err (Errorf what).

Definition parse_duration (s what : string) : res Z :=
  match ParseDuration s with
  | Some d => Ok d
  | None => Err (Errorf what)
  end.

Definition validate (c : Config) : res Config :=
  let! _ := validateAddr (GRPCAddress c) in
  let! _ := validateAddr (HTTPAddress c) in
  let! timeout := parse_duration (ShutdownTimeoutStr c) "graceful_shutdown_timeout" in
  let! _ := require (0 <? timeout) "graceful_shutdown_timeout must be positive" in
  let! _ := require (bool_decide (DataDirectory c ≠ ""%string)) "data_directory" in
  let! _ := require (0 <? MaxRecordBytes c) "max_record_bytes must be positive" in
  let! _ := require (MaxRecordBytes c <=? MaxBatchBytes c) "max_batch_bytes" in
  let! _ := require (0 <? SegmentMaxBytes c) "segment_max_bytes must be positive" in
  let! _ := require (MaxBatchBytes c <=? SegmentMaxBytes c) "segment_max_bytes" in
  let! _ := require (0 <? IndexIntervalBytes c) "index_interval_bytes must be positive" in
  let! _ := require (IndexIntervalBytes c <=? SegmentMaxBytes c) "index_interval_bytes" in
  let! flushMode := one_of (FlushMode c) ["sync"; "async"]%string "flush_mode" in
  let! logLevel := one_of (LogLevel c) ["debug"; "info"; "warn"; "error"]%string "log_level" in
  let! logFormat := one_of (LogFormat c) ["json"; "text"]%string "log_format" in
  let! maxAge := parse_duration (DefaultMaxAgeStr c) "max_age" in
  let! _ := require (Second <=? maxAge) "max_age must be at least 1s" in
  let! _ := require (Z.rem maxAge Second =? 0) "max_age must be a whole number of seconds" in
  let! checkInterval := parse_duration (CheckIntervalStr c) "check_interval" in
  let! _ := require (Second <=? checkInterval) "check_interval must be at least 1s" in
  let! _ := require (0 <? DefaultMaxPartitionBytes c) "max_partition_bytes" in
  Ok {|
    GRPCAddress := GRPCAddress c; HTTPAddress := HTTPAddress c;
    ShutdownTimeoutStr := ShutdownTimeoutStr c; GracefulShutdownTimeout := timeout;
    DataDirectory := DataDirectory c; MaxRecordBytes := MaxRecordBytes c;
    MaxBatchBytes := MaxBatchBytes c; SegmentMaxBytes := SegmentMaxBytes c;
    IndexIntervalBytes := IndexIntervalBytes c; FlushMode := flushMode;
    DefaultMaxAgeStr := DefaultMaxAgeStr c;
    DefaultMaxPartitionBytes := DefaultMaxPartitionBytes c;
    CheckIntervalStr := CheckIntervalStr c; DefaultMaxAge := maxAge;
    CheckInterval := checkInterval; LogLevel := logLevel; LogFormat := logFormat;
    MetricsEnabled := MetricsEnabled c; PprofEnabled := PprofEnabled c;
    MutexProfileFraction := MutexProfileFraction c; BlockProfileRate := BlockProfileRate c;
  |}.

(** What opening the configuration file gives. *)
Inductive opened : Type :=
  | Opened (contents : string)
  | Missing
  | Unreadable.

Definition Load (path : string) (file : opened) (env : string → string) : res Config :=
  let cfg := DefaultConfig in
  let! cfg :=
    if bool_decide (path = ""%string) then Ok cfg else
    match file with
    | Opened contents => Decode contents cfg
    | Missing => if bool_decide (path = "./config/config.yaml"%string) then Ok cfg
                 else Err (Errorf "failed to open config file")
    | Unreadable => Err (Errorf "failed to open config file")
    end in
  let! cfg := apply_env env cfg in
  validate cfg.

(** ** Properties *)

(** What the rest of the broker relies on. *)
Record config_ok (c : Config) : Prop := mkConfigOk {
  cf_record : 0 < MaxRecordBytes c;
  cf_batch : MaxRecordBytes c <= MaxBatchBytes c;
  cf_segment : MaxBatchBytes c <= SegmentMaxBytes c;
  cf_interval : 0 < IndexIntervalBytes c <= SegmentMaxBytes c;
  cf_flush : FlushMode c = "sync"%string ∨ FlushMode c = "async"%string;
  cf_age : Second <= DefaultMaxAge c ∧ DefaultMaxAge c mod Second = 0;
  cf_bytes : 0 < DefaultMaxPartitionBytes c;
  cf_dir : DataDirectory c ≠ ""%string;
  cf_timeout : 0 < GracefulShutdownTimeout c;
  cf_check : Second <= CheckInterval c;
  cf_level : LogLevel c ∈ ["debug"; "info"; "warn"; "error"]%string;
  cf_format : LogFormat c ∈ ["json"; "text"]%string;
}.

Lemma rbind_ok {A B} (m : res A) (k : A → res B) b :
  rbind m k = Ok b → ∃ a, m = Ok a ∧ k a = Ok b.
Proof. destruct m as [a|e|]; [eauto|done..]. Qed.

Lemma require_ok b what u : require b what = Ok u → b = true.
Proof. unfold require. by destruct b. Qed.

Lemma one_of_ok s allowed what v : one_of s allowed what = Ok v → v ∈ allowed.
Proof. unfold one_of. case_bool_decide; [|done]. by intros [= <-]. Qed.

Ltac peel H :=
  let a := fresh "v" in let Ha := fresh "Hv" in apply rbind_ok in H as (a & Ha & H).

Lemma validate_ok c c' : validate c = Ok c' → config_ok c'.
Proof.
  unfold validate. intros H. do 20 peel H. injection H as <-.
  repeat match goal with Hr : require _ _ = Ok _ |- _ => apply require_ok in Hr end.
  repeat match goal with
  | Hb : (_ <? _) = true |- _ => apply Z.ltb_lt in Hb
  | Hb : (_ <=? _) = true |- _ => apply Z.leb_le in Hb
  | Hb : (_ =? _) = true |- _ => apply Z.eqb_eq in Hb
  | Hb : bool_decide _ = true |- _ => apply bool_decide_eq_true in Hb
  end.
  repeat match goal with Hf : one_of _ _ _ = Ok _ |- _ => apply one_of_ok in Hf end.
  split; simpl; try done; try lia.
  - match goal with Hin : _ ∈ ["sync"; "async"]%string |- _ =>
      apply elem_of_cons in Hin as [Hin | Hin]; [by left|];
      apply list_elem_of_singleton in Hin; by right end.
  - split; [done|]. unfold Second in *. rewrite <- Z.rem_mod_nonneg by lia. done.
Qed.

(** The retention age is what ParseDuration read. *)
Lemma validate_age lo hi c c' :
  (∀ s d, ParseDuration s = Some d → lo <= d < hi) → validate c = Ok c' → DefaultMaxAge c' < hi.
Proof.
  unfold validate. intros HP H. do 20 peel H. injection H as <-. simpl.
  match goal with Hd : parse_duration (DefaultMaxAgeStr c) _ = Ok _ |- _ =>
    unfold parse_duration in Hd; destruct (ParseDuration (DefaultMaxAgeStr c)) eqn:E; [|done];
    injection Hd as <-; apply HP in E; lia end.
Qed.

Lemma Load_inv path file env c : Load path file env = Ok c → ∃ c0, validate c0 = Ok c.
Proof. unfold Load. intros H. do 2 peel H. eauto. Qed.

(** Every configuration that Load returns satisfies the relations the storage
    layer depends on: positive limits with max_record_bytes <= max_batch_bytes <=
    segment_max_bytes and index_interval_bytes <= segment_max_bytes, a flush mode
    that is exactly "sync" or "async" in lower case, a retention age of a whole
    number of at least one second, positive timeouts and a data directory. *)
Theorem Load_validates path file env c : Load path file env = Ok c → config_ok c.
Proof. intros [c0 H]%Load_inv. by eapply validate_ok. Qed.

End Load.

Definition with_timeout (c : Config) (d : Z) : Config := {|
  GRPCAddress := GRPCAddress c; HTTPAddress := HTTPAddress c;
  ShutdownTimeoutStr := ShutdownTimeoutStr c; GracefulShutdownTimeout := d;
  DataDirectory := DataDirectory c; MaxRecordBytes := MaxRecordBytes c;
  MaxBatchBytes := MaxBatchBytes c; SegmentMaxBytes := SegmentMaxBytes c;
  IndexIntervalBytes := IndexIntervalBytes c; FlushMode := FlushMode c;
  DefaultMaxAgeStr := DefaultMaxAgeStr c;
  DefaultMaxPartitionBytes := DefaultMaxPartitionBytes c;
  CheckIntervalStr := CheckIntervalStr c; DefaultMaxAge := DefaultMaxAge c;
  CheckInterval := CheckInterval c; LogLevel := LogLevel c; LogFormat := LogFormat c;
  MetricsEnabled := MetricsEnabled c; PprofEnabled := PprofEnabled c;
  MutexProfileFraction := MutexProfileFraction c; BlockProfileRate := BlockProfileRate c;
|}.

(** Without a file and without environment variables, Load returns the
    defaults, given that ParseDuration reads "15s", "168h" and "5m" as documented. *)
Theorem Load_defaults ParseDuration Decode :
  ParseDuration "15s"%string = Some (15 * Second) →
  ParseDuration "168h"%string = Some (168 * 3600 * Second) →
  ParseDuration "5m"%string = Some (5 * 60 * Second) →
  ∃ c, Load ParseDuration Decode "" Missing (fun _ => ""%string) = Ok c
    ∧ GracefulShutdownTimeout c = 15 * Second
    ∧ c = with_timeout DefaultConfig (15 * Second).
Proof.
  intros H1 H2 H3. eexists. split; [|split; [|reflexivity]]; [|reflexivity].
  vm_compute in H1, H2, H3 |- *.
  rewrite H1. vm_compute. rewrite H2. vm_compute. rewrite H3. reflexivity.
Qed.

(** A ParseDuration that knows the durations of the default configuration. *)
Definition demo_ParseDuration (s : string) : option Z :=
  if bool_decide (s = "15s"%string) then Some (15 * Second)
  else if bool_decide (s = "168h"%string) then Some (168 * 3600 * Second)
  else if bool_decide (s = "5m"%string) then Some (5 * 60 * Second)
  else None.

Lemma Load_validates_witness :
  ∃ c, Load demo_ParseDuration (fun _ c => Ok c) "" Missing
         (fun name => if bool_decide (name = "BROKER_FLUSH_MODE"%string)
                      then "Async"%string else ""%string) = Ok c ∧ config_ok c.
Proof.
  eexists. split; [vm_compute; reflexivity|].
  eapply (Load_validates demo_ParseDuration (fun _ c => Ok c) "" Missing
    (fun name => if bool_decide (name = "BROKER_FLUSH_MODE"%string)
                 then "Async"%string else ""%string)).
  vm_compute. reflexivity.
Defined.

Lemma Load_defaults_witness :
  ∃ c, Load demo_ParseDuration (fun _ c => Ok c) "" Missing (fun _ => ""%string) = Ok c
    ∧ GracefulShutdownTimeout c = 15 * Second
    ∧ c = with_timeout DefaultConfig (15 * Second).
Proof. apply Load_defaults; reflexivity. Defined.
