(* ===== verification/Termination.v ===== *)
(** * Termination of the loops over files

    The loops that walk a file - the recovery scan, the index rebuild, the scan
    of a read and the recovery of the offset log - are written with fuel and
    end in the error "out of fuel" when it does not suffice.  Here the error is
    shown to be unreachable for arbitrary file contents: every iteration
    advances by at least the nine bytes of a batch or entry prefix, so the size
    of the file is enough. *)

From S2P Require Import Prelude FileSystem Names Model Format Segment Store Recovery Offsets.
From Stdlib Require Import Init.Byte.

Abbreviation out_of_fuel := (Errorf "out of fuel").

(** [ends m s Q]: run in [s], [m] does not run out of fuel, and when it returns a
    value, the value and the state satisfy [Q]. *)
Definition ends {S A} (m : M S A) (s : S) (Q : A → S → Prop) : Prop :=
  ∀ r s', m s = (r, s') → r ≠ Err out_of_fuel ∧ ∀ a, r = Ok a → Q a s'.

(** A result that is not the fuel error. *)
Definition plain {A} (r : res A) : Prop := r ≠ Err out_of_fuel.

(** ** Rules *)

Section Rules.
Context {S : Type}.

Lemma ends_weaken {A} (m : M S A) s (Q Q' : A → S → Prop) :
  ends m s Q → (∀ a s', Q a s' → Q' a s') → ends m s Q'.
Proof. intros Hm HQ r s' H. destruct (Hm _ _ H) as [Hp Ha]. eauto. Qed.

Lemma ends_ret {A} (a : A) s (Q : A → S → Prop) : Q a s → ends (ret a) s Q.
Proof. intros HQ r s' [= <- <-]. split; [done|]. by intros b [= <-]. Qed.

Lemma ends_fail {A} (e : error) s (Q : A → S → Prop) : e ≠ out_of_fuel → ends (fail e) s Q.
Proof. intros He r s' [= <- <-]. split; [congruence|done]. Qed.

Lemma ends_panic {A} s (Q : A → S → Prop) : ends panic s Q.
Proof. intros r s' [= <- <-]. done. Qed.

Lemma ends_lift {A} (v : res A) s (Q : A → S → Prop) :
  plain v → (∀ a, v = Ok a → Q a s) → ends (lift_res v) s Q.
Proof. intros Hp HQ r s' [= <- <-]. done. Qed.

Lemma ends_bind {A B} (m : M S A) (k : A → M S B) s (Q : B → S → Prop) :
  ends m s (fun a s1 => ends (k a) s1 Q) → ends (bind m k) s Q.
Proof.
  intros Hm r s' H. binv H a s1 H1; apply Hm in H1 as [Hp Ha].
  - by apply (Ha a eq_refl) in H.
  - split; [congruence|done].
  - done.
Qed.

Lemma ends_on_err {A} (m : M S A) h s (Q : A → S → Prop) : ends m s Q → ends (on_err m h) s Q.
Proof.
  intros Hm r s' H.
  apply on_err_inv in H as [(a & H & ->)|[(e & s1 & H & -> & ->)|(H & ->)]];
    apply Hm in H as [Hp Ha]; [done|split; congruence|done].
Qed.

Lemma ends_attempt {A} (m : M S A) s (Q : res A → S → Prop) :
  (∀ r s', m s = (r, s') → Q r s') → ends (attempt m) s Q.
Proof.
  intros HQ r s' H. unfold attempt in H. destruct (m s) as [r1 s1] eqn:E.
  specialize (HQ r1 s1 eq_refl). destruct r1; injection H as <- <-; (split; [done|]);
    by intros b [= <-].
Qed.

Lemma ends_ignore {A} (m : M S A) s (Q : unit → S → Prop) :
  (∀ s', snd (m s) = s' → Q tt s') → ends (ignore m) s Q.
Proof. intros HQ r s' [= <- <-]. split; [done|]. intros [] _. by apply HQ. Qed.

Lemma ends_if {A} (b : bool) (m1 m2 : M S A) s (Q : A → S → Prop) :
  (b = true → ends m1 s Q) → (b = false → ends m2 s Q) → ends (if b then m1 else m2) s Q.
Proof. destruct b; auto. Qed.
End Rules.

Lemma ends_get_obj {X} (x : X) w (Q : X → X * World → Prop) : Q x (x, w) → ends get_obj (x, w) Q.
Proof. intros HQ r s' [= <- <-]. split; [done|]. by intros a [= <-]. Qed.

Lemma ends_modify {X} f (x : X) w (Q : unit → X * World → Prop) :
  Q tt (f x, w) → ends (modify f) (x, w) Q.
Proof. intros HQ r s' [= <- <-]. split; [done|]. by intros [] _. Qed.

Lemma ends_emit {X} e (x : X) w (Q : unit → X * World → Prop) :
  (∀ w', Q tt (x, w')) → ends (emit e) (x, w) Q.
Proof. intros HQ r s' [= <- <-]. split; [done|]. by intros [] _. Qed.

(** A call of package os that never returns the fuel error. *)
Definition plain_io {A} (p : M World A) : Prop := ∀ w, plain (fst (p w)).

Lemma ends_plain {A} (p : M World A) w (Q : A → World → Prop) :
  plain_io p → (∀ a w', Q a w') → ends p w Q.
Proof.
  intros Hp HQ r w' H. specialize (Hp w). rewrite H in Hp. split; [done|]. intros a _. apply HQ.
Qed.

Lemma ends_io {X A} (p : M World A) (x : X) w (Q : A → X * World → Prop) :
  ends p w (fun a w' => Q a (x, w')) → ends (io p) (x, w) Q.
Proof.
  intros Hp r [x' w'] H. apply io_inv in H as [-> H]. by apply Hp in H.
Qed.

Ltac plain_call :=
  intros w; unfold plain; cbv delta [fs_write_at fs_read_at fs_sync fs_close fs_truncate
    fs_open_create fs_open_trunc fs_open_existing fs_stat fs_remove fs_rename fs_mkdir_all
    fs_read_dir fs_sync_dir] beta;
  destruct (next_outcome w) as [[|] w1];
  repeat (match goal with |- context [match ?x with _ => _ end] => destruct x end); simpl; congruence.

Lemma plain_write_at p d n : plain_io (fs_write_at p d n). Proof. plain_call. Qed.
Lemma plain_read_at p n pos : plain_io (fs_read_at p n pos). Proof. plain_call. Qed.
Lemma plain_sync p : plain_io (fs_sync p). Proof. plain_call. Qed.
Lemma plain_close p : plain_io (fs_close p). Proof. plain_call. Qed.
Lemma plain_truncate p n : plain_io (fs_truncate p n). Proof. plain_call. Qed.
Lemma plain_open_create p : plain_io (fs_open_create p). Proof. plain_call. Qed.
Lemma plain_open_trunc p : plain_io (fs_open_trunc p). Proof. plain_call. Qed.
Lemma plain_open_existing p : plain_io (fs_open_existing p). Proof. plain_call. Qed.
Lemma plain_stat p : plain_io (fs_stat p). Proof. plain_call. Qed.
Lemma plain_rename p q : plain_io (fs_rename p q). Proof. plain_call. Qed.
Lemma plain_mkdir_all d : plain_io (fs_mkdir_all d). Proof. plain_call. Qed.
Lemma plain_read_dir d : plain_io (fs_read_dir d). Proof. plain_call. Qed.
Lemma plain_sync_dir d : plain_io (fs_sync_dir d). Proof. plain_call. Qed.

Create HintDb term.
#[export] Hint Resolve plain_write_at plain_read_at plain_sync plain_close plain_truncate
  plain_open_create plain_open_trunc plain_open_existing plain_stat plain_rename
  plain_mkdir_all plain_read_dir plain_sync_dir : term.

(** ** Decoding *)

Lemma plain_ok {A} (a : A) : plain (Ok a).
Proof. done. Qed.
Lemma plain_err {A} e : e ≠ out_of_fuel → plain (@Err A e).
Proof. intros He [= ->]. done. Qed.
Lemma plain_bind {A B} (m : res A) (k : A → res B) : plain m → (∀ a, plain (k a)) → plain (rbind m k).
Proof. destruct m; simpl; [auto|intros Hm _ [= ->]; done|done]. Qed.
Lemma plain_slice b lo hi : plain (slice b lo hi).
Proof. unfold slice. by destruct (_ && _). Qed.
Lemma plain_Uint32 b lo : plain (Uint32_at b lo).
Proof. apply plain_bind; [apply plain_slice|done]. Qed.
Lemma plain_Uint64 b lo : plain (Uint64_at b lo).
Proof. apply plain_bind; [apply plain_slice|done]. Qed.
#[export] Hint Resolve plain_ok plain_slice plain_Uint32 plain_Uint64 : term.

Ltac plain_walk :=
  repeat first
    [ progress intros
    | progress cbv zeta
    | apply plain_err; discriminate
    | solve [eauto with term]
    | apply plain_bind
    | match goal with |- plain (if ?b then _ else _) => destruct b end
    | match goal with |- plain (let '(_, _) := ?x in _) => destruct x end
    | match goal with |- plain (match ?x with _ => _ end) => destruct x end ].

Lemma plain_nullable data t off : plain (get_nullable data t off).
Proof. unfold get_nullable. plain_walk. Qed.
#[export] Hint Resolve plain_nullable : term.
Lemma plain_header data t off : plain (get_header data t off).
Proof. unfold get_header. plain_walk. Qed.
#[export] Hint Resolve plain_header : term.
Lemma plain_headers data t n off : plain (get_headers data t n off).
Proof. revert off. induction n as [|n IH]; intros off; simpl; plain_walk. Qed.
#[export] Hint Resolve plain_headers : term.
Lemma plain_record data t base ts off : plain (get_record data t base ts off).
Proof. unfold get_record. plain_walk. Qed.
#[export] Hint Resolve plain_record : term.
Lemma plain_records data t base ts n off : plain (get_records data t base ts n off).
Proof. revert off. induction n as [|n IH]; intros off; simpl; plain_walk. Qed.
#[export] Hint Resolve plain_records : term.
Lemma plain_DecodeBatch data : plain (DecodeBatch data).
Proof. unfold DecodeBatch, decode_body. plain_walk. Qed.
Lemma plain_decode_entry n frame : plain (decode_entry n frame).
Proof. unfold decode_entry. plain_walk. Qed.
#[export] Hint Resolve plain_DecodeBatch plain_decode_entry : term.

Lemma Uint32_nonneg b lo v : Uint32_at b lo = Ok v → 0 <= v.
Proof.
  unfold Uint32_at. destruct (slice b lo (lo + 4)) as [s|e|]; simpl; try done.
  intros [= <-]. pose proof (be_get_range s). lia.
Qed.

(** ** Walking a program *)

Lemma ends_lift_plain {S A} (v : res A) (s : S) (Q : A → S → Prop) :
  plain v → (∀ a, Q a s) → ends (lift_res v) s Q.
Proof. intros Hp HQ. apply ends_lift; auto. Qed.

(** One step of a program whose value does not matter for termination. *)
Ltac ends_step :=
  first
    [ apply ends_bind
    | apply ends_get_obj
    | apply ends_modify
    | apply ends_emit; intros ?
    | apply ends_ret; done
    | apply ends_fail; discriminate
    | apply ends_panic
    | apply ends_io, ends_plain; [solve [auto with term]|intros ? ?]
    | apply ends_plain; [solve [auto with term]|intros ? ?]
    | apply ends_on_err
    | apply ends_ignore; intros ? ?
    | apply ends_attempt; intros ? ? ?
    | apply ends_if; intros ? ].
Ltac ends_walk := repeat (ends_step; cbv beta iota zeta in * ).

Abbreviation anything := (fun _ _ => True).

(** Reading never changes the segment. *)
Lemma ends_ReadAt n pos (seg : Segment) w (Q : bytes → Segment * World → Prop) :
  (∀ b w', Q b (seg, w')) → ends (Segment_ReadAt n pos) (seg, w) Q.
Proof.
  intros HQ. unfold Segment_ReadAt. apply ends_bind, ends_get_obj, ends_bind, ends_io, ends_plain;
    [auto with term|]. intros b w'. apply ends_if; intros _; [by apply ends_fail|]. by apply ends_ret.
Qed.

Lemma ends_check_batch_offsets o j recs (seg : Segment) w (Q : unit → Segment * World → Prop) :
  (∀ seg' w', seg_size seg' = seg_size seg → Q tt (seg', w')) →
  ends (check_batch_offsets o j recs) (seg, w) Q.
Proof.
  revert j seg w. induction recs as [|r recs IH]; intros j seg w HQ; simpl.
  { by apply ends_ret, HQ. }
  apply ends_if; intros _; [by apply ends_fail|]. apply ends_bind, ends_modify, IH.
  intros seg' w' Hs. apply HQ. rewrite Hs. unfold raise_maxTimestamp. by destruct (_ <? _).
Qed.

Lemma ends_truncateLog v (seg : Segment) w : ends (truncateLog v) (seg, w) anything.
Proof. unfold truncateLog. ends_walk. done. Qed.

(** ** The recovery scan *)

Lemma recover_loop_ends fuel maxB active pos o v (seg : Segment) w :
  (Z.to_nat (seg_size seg - pos) <= fuel)%nat →
  ends (recover_loop fuel maxB active pos o v) (seg, w) anything.
Proof.
  revert pos o v seg w. induction fuel as [|fuel IH]; intros pos o v seg w Hf; cbn [recover_loop];
    apply ends_bind, ends_get_obj; destruct (Z.leb_spec (seg_size seg) pos); try (by apply ends_ret);
    [lia|].
  destruct (_ <? pos + 9).
  { apply ends_if; intros _; [|by apply ends_fail]. apply ends_bind.
    eapply ends_weaken; [apply ends_truncateLog|]. intros; by apply ends_ret. }
  apply ends_bind, ends_ReadAt. intros b1 w1. apply ends_bind, ends_lift_plain; [auto with term|].
  intros magic. apply ends_if; intros _; [by apply ends_fail|].
  apply ends_bind, ends_lift_plain; [auto with term|]. intros version.
  apply ends_if; intros _; [by apply ends_fail|].
  apply ends_bind, ends_lift; [auto with term|]. intros n Hn%Uint32_nonneg.
  apply ends_if; intros _; [by apply ends_fail|]. apply ends_if; intros _; [by apply ends_fail|].
  apply ends_if; intros _.
  { apply ends_if; intros _; [|by apply ends_fail]. apply ends_bind.
    eapply ends_weaken; [apply ends_truncateLog|]. intros; by apply ends_ret. }
  apply ends_bind, ends_ReadAt. intros b2 w2. apply ends_bind, ends_lift_plain; [auto with term|].
  intros [|r0 recs]; [by apply ends_fail|]. apply ends_if; intros _; [by apply ends_fail|].
  apply ends_bind, ends_check_batch_offsets. intros seg' w' Hs. apply IH.
  rewrite Hs. unfold MagicSize, VersionSize, BatchLengthSize. lia.
Qed.

Lemma rebuild_loop_ends fuel interval valid tmp es last pos (seg : Segment) w :
  (Z.to_nat (valid - pos) <= fuel)%nat →
  ends (rebuild_loop fuel interval valid tmp es last pos) (seg, w) anything.
Proof.
  revert es last pos seg w. induction fuel as [|fuel IH]; intros es last pos seg w Hf;
    cbn [rebuild_loop]; destruct (Z.leb_spec valid pos); try (by apply ends_ret); [lia|].
  apply ends_bind, ends_ReadAt. intros b1 w1. apply ends_bind, ends_lift_plain; [auto with term|].
  intros bo. apply ends_bind, ends_lift; [auto with term|]. intros n Hn%Uint32_nonneg.
  apply ends_bind, ends_lift_plain; [auto with term|]. intros ts.
  apply ends_bind, ends_modify, ends_bind, ends_get_obj.
  apply ends_if; intros _; [by apply ends_fail|]. apply ends_if; intros _; [|apply IH; lia].
  apply ends_bind, ends_io, ends_plain; [auto with term|]. intros ? ?. apply IH. lia.
Qed.

Lemma rebuildIndex_ends dir interval valid (seg : Segment) w :
  ends (rebuildIndex dir interval valid) (seg, w) anything.
Proof.
  unfold rebuildIndex. apply ends_bind, ends_get_obj, ends_bind, ends_io, ends_plain; [auto with term|].
  intros ? ?. apply ends_bind, ends_on_err. eapply ends_weaken; [apply rebuild_loop_ends; lia|].
  intros [es last] [seg1 w1] _. repeat (ends_step; try (match goal with |- ends _ ?s _ => is_var s; destruct s end)).
  all: try done.
Qed.

Lemma ends_any_state {S A} (m : M S A) (s : S) (Q : A → S → Prop) :
  ends m s anything → (∀ a s', Q a s') → ends m s Q.
Proof. intros Hm HQ. eapply ends_weaken; [exact Hm|]. auto. Qed.

(** Reads of a fixed segment. *)
Lemma on_seg_ends {A} (seg : Segment) (m : M (Segment * World) A) w (Q : A → World → Prop) :
  ends m (seg, w) (fun a '(_, w') => Q a w') → ends (on_seg seg m) w Q.
Proof.
  intros Hm r w' H. unfold on_seg in H. destruct (m (seg, w)) as [r1 [seg' w1]] eqn:E.
  injection H as <- <-. by apply Hm in E.
Qed.

Lemma validate_entries_ends seg valid i lr lp es w :
  ends (validate_entries seg valid i lr lp es) w anything.
Proof.
  revert i lr lp w. induction es as [|e es IH]; intros i lr lp w; cbn [validate_entries].
  { by apply ends_ret. }
  do 2 (apply ends_if; intros _; [by apply ends_ret|]).
  apply ends_bind, ends_attempt. intros [b1|e1|] w1 _; [|by apply ends_ret..].
  apply ends_bind, ends_lift_plain; [auto with term|]. intros magic.
  do 2 (apply ends_if; intros _; [by apply ends_ret|]).
  apply ends_bind, ends_attempt. intros [b2|e2|] w2 _; [|by apply ends_ret..].
  apply ends_bind, ends_lift_plain; [auto with term|]. intros bo.
  apply ends_if; intros _; [by apply ends_ret|]. apply IH.
Qed.

Lemma recoverSegment_ends s active (seg : Segment) w :
  ends (recoverSegment s active) (seg, w) anything.
Proof.
  unfold recoverSegment. apply ends_bind, ends_get_obj, ends_bind.
  eapply ends_any_state; [apply recover_loop_ends; lia|].
  intros [o v] [seg1 w1]. apply ends_bind, ends_attempt. intros loaded [seg2 w2] _.
  apply ends_bind, ends_get_obj, ends_bind.
  assert (∀ (b : bool) s2, ends (do* match loaded, b with
      | Ok entries, true => modify (fun seg => match list.last entries with
          | Some e => seg_with_index entries (i64 (Position e)) seg
          | None => seg_with_index entries (seg_lastIndexedPosition seg) seg end)
      | _, _ => rebuildIndex (st_dir s) (st_indexIntervalBytes s) v end in ret o) s2 anything) as Hk.
  { intros b [seg3 w3]. apply ends_bind.
    destruct loaded as [es|e|], b; try (apply ends_modify; by apply ends_ret);
      (eapply ends_any_state; [apply rebuildIndex_ends|]; intros; by apply ends_ret). }
  destruct loaded as [es|e|]; [|apply ends_ret; exact (Hk false _)..].
  apply ends_io. unfold validateIndexEntries. destruct es as [|e es]; [apply ends_ret, Hk|].
  apply ends_if; intros _; [apply ends_ret; apply (Hk false)|].
  eapply ends_any_state; [apply validate_entries_ends|]. intros b w3; apply Hk.
Qed.

(** ** OpenStore *)

Lemma NewSegment_ends dir base active w : ends (NewSegment dir base active) w anything.
Proof. unfold NewSegment. ends_walk. Qed.

Lemma on_active_ends {A} (m : M (Segment * World) A) (s : Store) w (Q : A → Store * World → Prop) :
  (∀ seg w, ends m (seg, w) anything) → (∀ a s', Q a s') → ends (on_active m) (s, w) Q.
Proof.
  intros Hm HQ r s' H. unfold on_active in H. destruct (list.last (st_segments s)) as [seg|].
  - destruct (m (seg, w)) as [r1 [seg' w1]] eqn:E. injection H as <- <-.
    apply Hm in E as [Hp _]. split; [done|]. intros a _. apply HQ.
  - injection H as <- <-. done.
Qed.

Lemma open_segments_ends bases e (s : Store) w : ends (open_segments bases e) (s, w) anything.
Proof.
  revert e s w. induction bases as [|b bases IH]; intros e s w; cbn [open_segments].
  { by apply ends_ret. }
  apply ends_if; intros _.
  { apply ends_bind. intros r s' H. unfold closeAllOpenSegments in H.
    destruct (close_segments _ _) as [[? ?] ?]. injection H as <- <-. split; [done|].
    intros ? _. by apply ends_fail. }
  apply ends_bind, ends_get_obj, ends_bind, ends_on_err, ends_io.
  eapply ends_any_state; [apply NewSegment_ends|]. intros seg w1.
  apply ends_bind, ends_modify, ends_bind, ends_on_err, on_active_ends.
  { intros. apply recoverSegment_ends. }
  intros o [s2 w2]. apply ends_bind, on_active_ends; [intros; by apply ends_modify|].
  intros _ [s3 w3]. apply IH.
Qed.

Lemma load_segments_ends bases (s : Store) w : ends (load_segments bases) (s, w) anything.
Proof.
  unfold load_segments. apply ends_bind, ends_modify, ends_bind.
  eapply ends_any_state; [apply open_segments_ends|]. intros l [s1 w1].
  apply ends_bind, ends_modify, ends_bind, ends_get_obj, ends_bind.
  assert (∀ s2, ends updateGaugesLocked s2 anything) as Hg.
  { intros [s2 w2]. unfold updateGaugesLocked. ends_walk. done. }
  destruct (st_segments _); [|by apply ends_ret].
  apply ends_bind, ends_io. eapply ends_any_state; [apply NewSegment_ends|].
  intros seg w2. apply ends_modify, Hg.
Qed.

Lemma remove_tmp_files_ends dir names w : ends (remove_tmp_files dir names) w anything.
Proof.
  revert w. induction names as [|name names IH]; intros w; simpl; [by apply ends_ret|].
  apply ends_bind. destruct (cut_suffix _ _); [apply ends_ignore; intros; apply IH|apply ends_ret, IH].
Qed.

Lemma OpenStore_ends dir segMax maxB interval mode w :
  ends (OpenStore dir segMax maxB interval mode) w anything.
Proof.
  assert (ends (open_store dir segMax maxB interval mode) w anything) as Ho.
  { unfold open_store. apply ends_bind, ends_plain; [auto with term|]. intros _ w1.
    apply ends_bind, ends_plain; [auto with term|]. intros files w2. apply ends_bind.
    eapply ends_any_state; [apply remove_tmp_files_ends|]. intros _ w3 r w' H.
    destruct (load_segments _ _) as [r1 [s1 w4]] eqn:E. injection H as <- <-.
    apply load_segments_ends in E as [Hp _]. split; [|done].
    destruct r1; simpl; [done|congruence|done]. }
  intros r w' H. unfold OpenStore in H. destruct (open_store _ _ _ _ _ _) as [r1 w1] eqn:E.
  injection H as <- <-. by apply Ho in E as [Hp _].
Qed.

(** ** Read *)

Lemma scan_segment_ends fuel seg maxBytes pos c w :
  (Z.to_nat (seg_size seg - pos) <= fuel)%nat →
  ends (scan_segment fuel seg maxBytes pos c) w anything.
Proof.
  revert pos c w. induction fuel as [|fuel IH]; intros pos c w Hf; cbn [scan_segment];
    destruct (Z.leb_spec (seg_size seg) pos); try (by apply ends_ret); [lia|].
  apply ends_if; intros _; [by apply ends_fail|].
  apply ends_bind, on_seg_ends, ends_ReadAt. intros b1 w1.
  apply ends_bind, ends_lift; [auto with term|]. intros n Hn%Uint32_nonneg.
  apply ends_if; intros _; [by apply ends_fail|].
  apply ends_bind, on_seg_ends, ends_ReadAt. intros b2 w2.
  apply ends_bind, ends_lift_plain; [auto with term|]. intros recs.
  destruct (collect maxBytes recs c); [apply IH; lia|by apply ends_ret].
Qed.

Lemma read_segments_ends segs maxBytes c w : ends (read_segments segs maxBytes c) w anything.
Proof.
  revert c w. induction segs as [|seg segs IH]; intros c w; cbn [read_segments]; [by apply ends_ret|].
  apply ends_bind. eapply ends_any_state; [apply scan_segment_ends; lia|].
  intros [c'|l] w1; [apply IH|by apply ends_ret].
Qed.

Lemma Store_Read_ends offset maxBytes (s : Store) w :
  ends (Store_Read offset maxBytes) (s, w) anything.
Proof.
  intros r s' H. unfold Store_Read, observed_read in H.
  match type of H with context [let '(_, _) := ?m (s, w) in _] =>
    assert (ends m (s, w) anything) as Hm end.
  { apply ends_if; intros _; [by apply ends_fail|]. apply ends_bind, ends_get_obj.
    do 3 (apply ends_if; intros _; [by apply ends_fail|]). apply ends_if; intros _; [by apply ends_ret|].
    apply ends_if; intros _; [by apply ends_fail|]. apply ends_io, read_segments_ends. }
  destruct (_ (s, w)) as [r1 [s1 w1]] eqn:E in H. injection H as <- <-. by apply Hm in E as [Hp _].
Qed.

(** ** The offset log *)

Lemma recover_offsets_ends fuel size pos v (s : OffsetStore) w :
  (Z.to_nat (size - pos) <= fuel)%nat → ends (recover_offsets fuel size pos v) (s, w) anything.
Proof.
  assert (∀ n s w, ends (do* truncateAndSync n in ret v) (s, w) anything) as Ht.
  { intros n s1 w1. unfold truncateAndSync. ends_walk. }
  assert (∀ (s1 : OffsetStore) w1 p n k (Q : bytes → OffsetStore * World → Prop), (∀ b w', Q b (s1, w')) →
    ends (io (read_full p n k)) (s1, w1) Q) as Hr.
  { intros s1 w1 p n k Q HQ. apply ends_io. unfold read_full. apply ends_bind, ends_plain; [auto with term|].
    intros b w2. apply ends_if; intros _; [by apply ends_fail|]. by apply ends_ret. }
  revert pos v s w Ht. induction fuel as [|fuel IH]; intros pos v s w Ht Hf; cbn [recover_offsets];
    destruct (Z.leb_spec size pos); try (by apply ends_ret); [lia|].
  apply ends_bind, ends_get_obj. apply ends_if; intros _; [apply Ht|].
  apply ends_bind, Hr. intros b1 w1.
  do 2 (apply ends_bind, ends_lift_plain; [auto with term|]; intros ?).
  apply ends_bind, ends_lift; [auto with term|]. intros n Hn%Uint32_nonneg.
  do 3 (apply ends_if; intros _; [by apply ends_fail|]). apply ends_if; intros _; [apply Ht|].
  apply ends_bind, Hr. intros b2 w2. apply ends_bind, ends_lift_plain; [auto with term|].
  intros [key next]. apply ends_bind, ends_modify. apply IH; [|unfold OffsetPrefixSize; lia].
  intros k s1 w3. unfold truncateAndSync. ends_walk.
Qed.

Lemma Offsets_OpenStore_ends dir name w : ends (Offsets_OpenStore dir name) w anything.
Proof.
  unfold Offsets_OpenStore. apply ends_bind, ends_plain; [auto with term|]. intros _ w1.
  apply ends_bind, ends_plain; [auto with term|]. intros _ w2 r w' H.
  destruct (on_err _ _ _) as [r1 [s1 w3]] eqn:E. injection H as <- <-.
  assert (∀ s w, ends offsets_recover (s, w) anything) as Hm.
  { intros s0 w0. unfold offsets_recover. apply ends_bind, ends_get_obj, ends_bind, ends_io, ends_plain;
      [auto with term|]. intros size w4. apply ends_bind.
    eapply ends_any_state; [apply recover_offsets_ends; lia|]. intros v [s5 w5]. by apply ends_modify. }
  apply (ends_on_err _ _ _ _ (Hm _ _)) in E as [Hp _]. split; [|done].
  destruct r1; simpl; [done|congruence|done].
Qed.

(** ** Property *)

(** C23: the loops over files end. For arbitrary bytes in the files - not only for
    files the broker wrote - and any schedule of I/O failures, opening a partition
    (the scan of every segment and the index rebuilds), reading from a store in any
    state and opening the offset log never exhaust the fuel that the size of the
    file gives them. *)
Theorem file_loops_terminate dir segMax maxB interval mode (s : Store) offset maxBytes odir name w :
  fst (OpenStore dir segMax maxB interval mode w) ≠ Err out_of_fuel
  ∧ fst (Store_Read offset maxBytes (s, w)) ≠ Err out_of_fuel
  ∧ fst (Offsets_OpenStore odir name w) ≠ Err out_of_fuel.
Proof.
  split; [|split].
  - exact (proj1 (OpenStore_ends dir segMax maxB interval mode w _ _ (surjective_pairing _))).
  - exact (proj1 (Store_Read_ends offset maxBytes s w _ _ (surjective_pairing _))).
  - exact (proj1 (Offsets_OpenStore_ends odir name w _ _ (surjective_pairing _))).
Qed.
