(* ===== verification/Float64.v ===== *)
(** * float64 arithmetic

    Go's float64 is IEEE 754 binary64 with round to nearest, ties to even; the
    operations are those of [SpecFloat] at precision 53 and exponent bound 1024.
    The code uses them for durations ([time.Duration.Seconds]), for latency reports
    and for throughput figures. *)

From S2P Require Import Prelude.
From Stdlib Require Import Floats.SpecFloat.
Open Scope Z_scope.

Abbreviation float64 := spec_float.

Definition f64_prec : Z := 53.
Definition f64_emax : Z := 1024.

Definition f64_add : float64 → float64 → float64 := SFadd f64_prec f64_emax.
Definition f64_mul : float64 → float64 → float64 := SFmul f64_prec f64_emax.
Definition f64_div : float64 → float64 → float64 := SFdiv f64_prec f64_emax.

(** [float64(n)] of an integer. *)
Definition float64_of (n : Z) : float64 := binary_normalize f64_prec f64_emax n 0 false.

(** [math.Ceil] followed by a conversion to an integer, and the conversion alone,
    which drops the fraction; both for finite values in range, the only ones that
    occur here. *)
Definition int_ceil (x : float64) : Z :=
  match x with
  | S754_finite s m e =>
    let n := if s then Z.neg m else Z.pos m in
    if 0 <=? e then n * 2 ^ e else - ((- n) / 2 ^ (- e))
  | _ => 0
  end.
Definition int_trunc (x : float64) : Z :=
  match x with
  | S754_finite s m e =>
    let n := if 0 <=? e then Z.pos m * 2 ^ e else Z.pos m / 2 ^ (- e) in
    if s then - n else n
  | _ => 0
  end.

(** [time.Duration.Seconds]: whole seconds plus the fraction. *)
Definition Seconds (d : Z) : float64 :=
  f64_add (float64_of (Z.quot d 1000000000))
    (f64_div (float64_of (Z.rem d 1000000000)) (float64_of 1000000000)).

(** [0.50], [0.95] and [0.99] as float64 literals. *)
Definition f64_ratio (num den : Z) : float64 := f64_div (float64_of num) (float64_of den).

(** ** Integers below 2^53 are exact *)

Lemma digits2_shift p n :
  digits2_pos (Pos.iter xO p n) = (digits2_pos p + n)%positive.
Proof.
  induction n as [|n IH] using Pos.peano_ind; [simpl; lia|].
  rewrite Pos.iter_succ. simpl. rewrite IH. lia.
Qed.

Lemma shift_value p n : Z.pos (Pos.iter xO p n) = Z.pos p * 2 ^ Z.pos n.
Proof.
  induction n as [|n IH] using Pos.peano_ind; [simpl; lia|].
  rewrite Pos.iter_succ, Pos2Z.inj_xO, IH, Pos2Z.inj_succ, Z.pow_succ_r by lia. lia.
Qed.

Lemma digits2_bound p k : Z.pos p < 2 ^ k → 0 ≤ k → Z.pos (digits2_pos p) ≤ k.
Proof.
  revert k. induction p as [p IH|p IH|]; intros k Hp Hk.
  - assert (0 < k) by (destruct (decide (k = 0)) as [->|]; simpl in Hp; lia).
    replace k with (Z.succ (k - 1)) in Hp by lia. rewrite Z.pow_succ_r in Hp by lia.
    specialize (IH (k - 1)). simpl. lia.
  - assert (0 < k) by (destruct (decide (k = 0)) as [->|]; simpl in Hp; lia).
    replace k with (Z.succ (k - 1)) in Hp by lia. rewrite Z.pow_succ_r in Hp by lia.
    specialize (IH (k - 1)). simpl. lia.
  - simpl. destruct (decide (k = 0)) as [->|]; simpl in Hp; lia.
Qed.

(** Rounding a mantissa that already fits leaves it alone. *)
Lemma round_fits s m e :
  fexp f64_prec f64_emax (Z.pos (digits2_pos m) + e) = e → e ≤ f64_emax - f64_prec →
  binary_round_aux f64_prec f64_emax s (Z.pos m) e loc_Exact = S754_finite s m e.
Proof.
  intros Hf He. unfold binary_round_aux, shr_fexp.
  change (Zdigits2 (Z.pos m)) with (Z.pos (digits2_pos m)). rewrite Hf, Z.sub_diag.
  cbn [shr shr_record_of_loc loc_of_shr_record shr_m round_nearest_even].
  change (Zdigits2 (Z.pos m)) with (Z.pos (digits2_pos m)). rewrite Hf, Z.sub_diag.
  cbn [shr shr_record_of_loc shr_m]. by rewrite (proj2 (Z.leb_le _ _) He).
Qed.

Lemma float64_of_pos p :
  Z.pos p < 2 ^ 53 →
  ∃ m e, float64_of (Z.pos p) = S754_finite false m e ∧ e ≤ 0 ∧ Z.pos m = Z.pos p * 2 ^ (- e).
Proof.
  intros Hp. pose proof (digits2_bound p 53 Hp ltac:(lia)) as Hd.
  set (d := Z.pos (digits2_pos p)) in *. assert (1 ≤ d) by (unfold d; lia).
  assert (fexp f64_prec f64_emax (d + 0) = d - 53) as Hf.
  { unfold fexp, emin, f64_prec, f64_emax. lia. }
  unfold float64_of, binary_normalize, binary_round, shl_align. fold d. rewrite Hf.
  destruct (d - 53 - 0) as [|n|n] eqn:Hn; [|lia|].
  - exists p, 0. rewrite round_fits; fold d; [|rewrite Hf; lia|unfold f64_emax, f64_prec; lia].
    split; [done|]. split; [lia|]. simpl. lia.
  - exists (Pos.iter xO p n), (d - 53).
    rewrite round_fits; [|rewrite digits2_shift, Pos2Z.inj_add; fold d|unfold f64_emax, f64_prec; lia].
    + split; [done|]. split; [lia|]. rewrite shift_value. do 2 f_equal. lia.
    + unfold fexp, emin, f64_prec, f64_emax. lia.
Qed.

Lemma int_trunc_float64_of n : 0 ≤ n < 2 ^ 53 → int_trunc (float64_of n) = n.
Proof.
  intros [H0 H1]. destruct n as [|p|p]; [done| |lia].
  destruct (float64_of_pos p H1) as (m & e & -> & He & Hm). simpl.
  destruct (Z.leb_spec 0 e) as [H|H].
  - assert (e = 0) as -> by lia. rewrite Hm. simpl. lia.
  - rewrite Hm. apply Z.div_mul. apply Z.pow_nonzero; lia.
Qed.

(** The number of seconds of a duration of whole seconds. *)
Lemma whole_Seconds d :
  0 ≤ d < 2 ^ 63 → Z.rem d 1000000000 = 0 → int_trunc (Seconds d) = d / 1000000000.
Proof.
  intros Hd Hr. unfold Seconds. rewrite Hr.
  change (f64_div (float64_of 0) (float64_of 1000000000)) with (S754_zero false).
  rewrite Z.quot_div_nonneg by lia.
  assert (0 ≤ d / 1000000000 < 2 ^ 53) as Hq.
  { split; [apply Z.div_pos; lia|]. apply Z.div_lt_upper_bound; lia. }
  rewrite <- (int_trunc_float64_of _ Hq) at 2. f_equal.
  destruct (d / 1000000000) as [|p|p]; [done| |lia].
  by destruct (float64_of_pos p) as (m & e & -> & _ & _); [lia|].
Qed.
