(* ===== verification/Metrics.v ===== *)
(** * Metrics (internal/observability/metrics.go)

    The prometheus collectors are a library: an operation of an observer is the
    list of calls it makes on them.  The values of the histograms (durations) are
    left out, as they are in the events of the storage layer. *)

From S2P Require Import Prelude FileSystem Float64.
From stdpp Require Import pretty.
Open Scope Z_scope.

(** The fields of [Metrics] that hold a collector. *)
Inductive collector : Type :=
  | ProduceRequests | FetchRequests | OffsetCommits
  | ProduceDuration | FetchDuration
  | RecordsAppended | RecordsFetched | BytesWritten | BytesRead
  | StorageErrors | IndexRebuilds | RetentionSegmentsDel
  | AppendDuration | StorageReadDuration | RecoveryDuration | FsyncDuration
  | PartitionLogSize | PartitionSegmentCount | OpenConnections.

#[global] Instance collector_eq_dec : EqDecision collector.
Proof. solve_decision. Defined.

(** The name and the labels a collector is created with. *)
Definition collector_name (c : collector) : string :=
  match c with
  | ProduceRequests => "broker_produce_requests_total"
  | FetchRequests => "broker_fetch_requests_total"
  | OffsetCommits => "broker_offset_commits_total"
  | ProduceDuration => "broker_produce_duration_seconds"
  | FetchDuration => "broker_fetch_duration_seconds"
  | RecordsAppended => "broker_records_appended_total"
  | RecordsFetched => "broker_records_fetched_total"
  | BytesWritten => "broker_bytes_written_total"
  | BytesRead => "broker_bytes_read_total"
  | StorageErrors => "broker_storage_errors_total"
  | IndexRebuilds => "broker_index_rebuilds_total"
  | RetentionSegmentsDel => "broker_retention_segments_deleted_total"
  | AppendDuration => "broker_append_duration_seconds"
  | StorageReadDuration => "broker_storage_read_duration_seconds"
  | RecoveryDuration => "broker_recovery_duration_seconds"
  | FsyncDuration => "broker_fsync_duration_seconds"
  | PartitionLogSize => "broker_partition_log_size_bytes"
  | PartitionSegmentCount => "broker_partition_segment_count"
  | OpenConnections => "broker_open_connections"
  end.

Definition collector_labels (c : collector) : list string :=
  match c with
  | ProduceRequests | FetchRequests | OffsetCommits | ProduceDuration | FetchDuration =>
    ["operation"; "status"]
  | StorageErrors => ["operation"]
  | PartitionLogSize | PartitionSegmentCount => ["topic"; "partition"]
  | _ => []
  end%string.

Definition collector_help (c : collector) : string :=
  match c with
  | ProduceRequests => "Total number of gRPC produce requests received."
  | FetchRequests => "Total number of gRPC fetch requests received."
  | OffsetCommits => "Total number of gRPC offset commit requests received."
  | ProduceDuration => "Latency of produce requests."
  | FetchDuration => "Latency of fetch requests."
  | RecordsAppended => "Total number of records acknowledged as successfully appended (post-fsync)."
  | RecordsFetched => "Total number of records successfully fetched by clients."
  | BytesWritten => "Total number of bytes acknowledged as successfully appended (post-fsync)."
  | BytesRead => "Total number of bytes read from segment log files."
  | StorageErrors => "Total number of storage-related operation errors."
  | IndexRebuilds => "Total number of sparse index rebuild operations."
  | RetentionSegmentsDel => "Total number of segments deleted by background retention cleanup."
  | AppendDuration => "Latency of partition log append operations."
  | StorageReadDuration => "Latency of storage read operations."
  | RecoveryDuration => "Latency of partition store recovery scan on startup."
  | FsyncDuration => "Latency of segment log fsync operations."
  | PartitionLogSize => "Current size of the partition log in bytes."
  | PartitionSegmentCount => "Current segment count of the partition."
  | OpenConnections => "Current number of open gRPC client connections."
  end.

(** Bucket bounds of a histogram are in units of 0.1 ms. *)
Inductive collector_kind := Counter | Gauge | Histogram (buckets : list Z).

Definition request_buckets : list Z :=
  [5; 10; 25; 50; 100; 250; 500; 1000; 2500; 5000; 10000; 25000; 50000; 100000].
Definition recovery_buckets : list Z :=
  [100; 500; 1000; 5000; 10000; 25000; 50000; 100000; 300000; 600000].

Definition kind_of (c : collector) : collector_kind :=
  match c with
  | ProduceDuration | FetchDuration | AppendDuration | StorageReadDuration | FsyncDuration =>
    Histogram request_buckets
  | RecoveryDuration => Histogram recovery_buckets
  | PartitionLogSize | PartitionSegmentCount | OpenConnections => Gauge
  | _ => Counter
  end.

(** The collectors [NewMetrics] registers, in the order of its second
    [MustRegister]; [runtime] lists the names that the Go and process collectors
    already hold.  [MustRegister] panics on a name that is taken. *)
Definition registered : list collector :=
  [ProduceRequests; FetchRequests; OffsetCommits; ProduceDuration; FetchDuration;
   RecordsAppended; RecordsFetched; BytesWritten; BytesRead; StorageErrors; IndexRebuilds;
   RetentionSegmentsDel; AppendDuration; StorageReadDuration; RecoveryDuration; FsyncDuration;
   PartitionLogSize; PartitionSegmentCount; OpenConnections].

Fixpoint MustRegister (taken : list string) (cs : list collector) : res (list string) :=
  match cs with
  | [] => Ok taken
  | c :: cs =>
    if bool_decide (collector_name c ∈ taken) then Panic
    else MustRegister (collector_name c :: taken) cs
  end.

Definition NewMetrics (runtime : list string) : res (list string) := MustRegister runtime registered.

(** Calls on a collector, with the values of its labels. *)
Inductive collector_op : Type :=
  | Inc (c : collector) (labels : list string)
  | Add (c : collector) (v : float64)
  | Observe (c : collector)
  | Set_gauge (c : collector) (labels : list string) (v : float64).

Record PartitionObserver := mkPartitionObserver {
  po_topic : string;
  po_partition : string;
}.

Definition NewPartitionObserver (topic : string) (partitionID : N) : PartitionObserver :=
  mkPartitionObserver topic (pretty partitionID).

(** What the observer does when the store reports an event. *)
Definition observe (p : PartitionObserver) (e : event) : list collector_op :=
  match e with
  | ObserveAppend records bytes ok =>
    Observe AppendDuration ::
    if ok then [Add RecordsAppended (float64_of records); Add BytesWritten (float64_of bytes)]
    else [Inc StorageErrors ["append"%string]]
  | ObserveRead records bytes ok =>
    Observe StorageReadDuration ::
    if ok then [Add RecordsFetched (float64_of records); Add BytesRead (float64_of bytes)]
    else [Inc StorageErrors ["read"%string]]
  | ObserveFsync ok =>
    Observe FsyncDuration :: if ok then [] else [Inc StorageErrors ["fsync"%string]]
  | ObserveRecovery ok =>
    Observe RecoveryDuration :: if ok then [] else [Inc StorageErrors ["recovery"%string]]
  | IndexRebuilt => [Inc IndexRebuilds []]
  | SegmentDeleted => [Inc RetentionSegmentsDel []]
  | SetPartitionState logBytes segmentCount =>
    [Set_gauge PartitionLogSize [po_topic p; po_partition p] (float64_of logBytes);
     Set_gauge PartitionSegmentCount [po_topic p; po_partition p] (float64_of segmentCount)]
  end.

Definition observe_all (p : PartitionObserver) (es : list event) : list collector_op :=
  es ≫= observe p.

(** ** What the collectors receive *)

(** The values added to a counter, and how often a labelled counter was raised. *)
Definition added (c : collector) (ops : list collector_op) : list float64 :=
  omap (fun op => match op with Add c' v => if bool_decide (c' = c) then Some v else None | _ => None end) ops.
Definition raised (c : collector) (labels : list string) (ops : list collector_op) : list unit :=
  omap (fun op => match op with
                  | Inc c' l => if bool_decide (c' = c ∧ l = labels) then Some tt else None
                  | _ => None
                  end) ops.

(** Every call passes as many label values as its collector has labels. *)
Definition labels_fit (op : collector_op) : Prop :=
  match op with
  | Inc c l | Set_gauge c l _ => length l = length (collector_labels c)
  | Add c _ | Observe c => collector_labels c = []
  end.

Lemma observe_labels_fit p e : Forall labels_fit (observe p e).
Proof. destruct e as [? ? []|? ? []|[]|[]| | |]; repeat constructor. Qed.

(** A histogram refuses bounds that do not increase, and the calls of the observer are
    those that the kind of the collector has. *)
Lemma buckets_increase c :
  match kind_of c with Histogram bs => Sorted Z.lt bs | _ => True end.
Proof. destruct c; simpl; try done; repeat constructor; lia. Qed.

Definition kind_fits (op : collector_op) : Prop :=
  match op with
  | Inc c _ | Add c _ => kind_of c = Counter
  | Observe c => ∃ bs, kind_of c = Histogram bs
  | Set_gauge c _ _ => kind_of c = Gauge
  end.

Lemma observe_kind_fits p e : Forall kind_fits (observe p e).
Proof.
  destruct e as [? ? []|? ? []|[]|[]| | |]; repeat constructor; simpl; try done; by eexists.
Qed.

Lemma collector_name_inj c c' : collector_name c = collector_name c' → c = c'.
Proof. destruct c, c'; intros H; try reflexivity; discriminate H. Qed.

Lemma MustRegister_ok cs taken :
  NoDup cs → (∀ c, c ∈ cs → collector_name c ∉ taken) → is_ok (MustRegister taken cs) = true.
Proof.
  intros Hnd. revert taken. induction Hnd as [|c cs Hc Hnd IH]; intros taken Ht; [done|]. simpl.
  rewrite bool_decide_eq_false_2 by (apply Ht; left). apply IH.
  intros c' Hc' [Heq|Hin]%elem_of_cons; [|by eapply (Ht c'); [right|]].
  apply collector_name_inj in Heq as ->. done.
Qed.

(** The broker's names do not collide, and collide with none of the runtime's
    unless one of those starts like the broker's. *)
Lemma NewMetrics_registers runtime :
  Forall (fun n => String.prefix "broker_" n = false) runtime → is_ok (NewMetrics runtime) = true.
Proof.
  intros Hr. apply MustRegister_ok.
  - by apply (bool_decide_unpack (NoDup registered)); vm_compute.
  - intros c _ Hin. rewrite Forall_forall in Hr. specialize (Hr _ Hin). by destruct c.
Qed.
