(* ===== verification/Confine.v ===== *)
(** * Confinement: which files an operation can touch and which events it reports

    [confined J P m Q]: started in a state that satisfies [J], [m] keeps [J], changes
    only files in [P], reports only events of background work (no append and no
    read), and a value it returns satisfies [Q].  The rules follow the monad; the
    operations of a partition are then confined to its directory, whatever the contents
    of its files and the schedule of faults. *)

From S2P Require Import Prelude FileSystem Runs Names Model Format Segment Store Recovery Retention.
From Stdlib Require Import Init.Byte.
Open Scope Z_scope.

(** Events other than the report of an append or of a read. *)
Definition background_event (e : event) : Prop :=
  match e with ObserveAppend _ _ _ | ObserveRead _ _ _ => False | _ => True end.

Record effect (P : path → Prop) (w w' : World) : Prop := mkEffect {
  ef_files : ∀ q, ¬ P q → w_files w' !! q = w_files w !! q;
  ef_events : ∃ evs, w_events w' = w_events w ++ evs ∧ Forall background_event evs;
}.

Lemma effect_refl P w : effect P w w.
Proof. split; [done|]. exists []. by rewrite app_nil_r. Qed.

Lemma effect_trans P w1 w2 w3 : effect P w1 w2 → effect P w2 w3 → effect P w1 w3.
Proof.
  intros [F1 (e1 & E1 & H1)] [F2 (e2 & E2 & H2)]. split.
  - intros q Hq. by rewrite F2, F1.
  - exists (e1 ++ e2). rewrite E2, E1, app_assoc. split; [done|]. by apply Forall_app.
Qed.

Lemma effect_weaken (P P' : path → Prop) w w' : (∀ q, P q → P' q) → effect P w w' → effect P' w w'.
Proof. intros HP [F E]. split; [|done]. intros q Hq. apply F. auto. Qed.

Lemma effect_event P w e : background_event e → effect P w (add_event e w).
Proof. intros He. split; [done|]. exists [e]. split; [done|]. by constructor. Qed.

Definition confined {S} `{HasWorld S} {A} (J : S → Prop) (P : path → Prop) (m : M S A) (Q : A → Prop)
    : Prop :=
  ∀ s r s', J s → m s = (r, s') →
    J s' ∧ effect P (wld s) (wld s') ∧ ∀ a, r = Ok a → Q a.

Create HintDb confine.

(** ** Rules of the monad *)

Section Rules.
Context {S : Type} `{HasWorld S}.
Implicit Types (J : S → Prop) (P : path → Prop).

Lemma confined_weaken {A} J P (m : M S A) (Q Q' : A → Prop) :
  confined J P m Q → (∀ a, Q a → Q' a) → confined J P m Q'.
Proof. intros Hm HQ s r s' HJ E. destruct (Hm s r s' HJ E) as (? & ? & ?). eauto 10. Qed.

Lemma confined_any {A} J P (m : M S A) (Q : A → Prop) :
  confined J P m Q → confined J P m (fun _ => True).
Proof. intros Hm. by eapply confined_weaken. Qed.

Lemma confined_ret {A} J P (a : A) (Q : A → Prop) : Q a → confined J P (ret a) Q.
Proof. intros HQ s r s' HJ [= <- <-]. split; [done|]. split; [apply effect_refl|]. by intros b [= <-]. Qed.

Lemma confined_fail {A} J P e (Q : A → Prop) : confined J P (fail e) Q.
Proof. intros s r s' HJ [= <- <-]. split; [done|]. split; [apply effect_refl|done]. Qed.

Lemma confined_panic {A} J P (Q : A → Prop) : confined J P panic Q.
Proof. intros s r s' HJ [= <- <-]. split; [done|]. split; [apply effect_refl|done]. Qed.

Lemma confined_lift {A} J P (v : res A) (Q : A → Prop) :
  (∀ a, v = Ok a → Q a) → confined J P (lift_res v) Q.
Proof. intros HQ s r s' HJ [= <- <-]. split; [done|]. split; [apply effect_refl|done]. Qed.

Lemma confined_bind {A B} J P (m : M S A) (k : A → M S B) (Q : A → Prop) (R : B → Prop) :
  confined J P m Q → (∀ a, Q a → confined J P (k a) R) → confined J P (bind m k) R.
Proof.
  intros Hm Hk s r s' HJ E. binv E a s1 E1; destruct (Hm _ _ _ HJ E1) as (HJ1 & HE1 & HQ).
  - destruct (Hk a (HQ a eq_refl) _ _ _ HJ1 E) as (HJ2 & HE2 & HR).
    split; [done|]. split; [by eapply effect_trans|done].
  - done.
  - done.
Qed.

Lemma confined_attempt {A} J P (m : M S A) (Q : A → Prop) :
  confined J P m Q → confined J P (attempt m) (fun r => ∀ a, r = Ok a → Q a).
Proof.
  intros Hm s r s' HJ E. unfold attempt in E. destruct (m s) as [[a|e|] s1] eqn:Em;
    injection E as <- <-; destruct (Hm _ _ _ HJ Em) as (HJ1 & HE1 & HQ);
    (split; [done|]; split; [done|]); naive_solver.
Qed.

Lemma confined_ignore {A} J P (m : M S A) (Q : A → Prop) :
  confined J P m Q → confined J P (ignore m) (fun _ => True).
Proof.
  intros Hm s r s' HJ [= <- <-]. destruct (m s) as [r1 s1] eqn:Em.
  destruct (Hm _ _ _ HJ Em) as (? & ? & ?). done.
Qed.

Lemma confined_on_err {A} J P (m : M S A) h (Q : A → Prop) (R : unit → Prop) :
  confined J P m Q → confined J P h R → confined J P (on_err m h) Q.
Proof.
  intros Hm Hh s r s' HJ E.
  apply on_err_inv in E as [(a & E & ->)|[(e & s1 & E & -> & ->)|(E & ->)]];
    destruct (Hm _ _ _ HJ E) as (HJ1 & HE1 & HQ); [done| |done].
  destruct (h s1) as [r2 s2] eqn:Eh. destruct (Hh _ _ _ HJ1 Eh) as (HJ2 & HE2 & _).
  split; [done|]. split; [by eapply effect_trans|done].
Qed.

End Rules.

(** ** Objects *)

Abbreviation on_obj K := (fun s => K (fst s)).

Section Objects.
Context {X : Type}.
Implicit Types (K : X → Prop) (P : path → Prop).

Lemma confined_io {A} K P (p : M World A) (Q : A → Prop) :
  confined (fun _ => True) P p Q → confined (on_obj K) P (io p) Q.
Proof.
  intros Hp [x w] r [x' w'] HJ E. apply io_inv in E as [-> E].
  destruct (Hp _ _ _ I E) as (_ & ? & ?). done.
Qed.

Lemma confined_get_obj K P : confined (on_obj K) P get_obj K.
Proof.
  intros [x w] r s' HJ [= <- <-]. split; [done|]. split; [apply effect_refl|]. by intros ? [= <-].
Qed.

Lemma confined_modify K P (f : X → X) :
  (∀ x, K x → K (f x)) → confined (on_obj K) P (modify f) (fun _ => True).
Proof.
  intros Hf [x w] r s' HJ [= <- <-]. split; [by apply Hf|]. split; [apply effect_refl|done].
Qed.

Lemma confined_emit K P e : background_event e → confined (on_obj K) P (emit e) (fun _ => True).
Proof.
  intros He [x w] r s' HJ [= <- <-]. split; [done|]. split; [by apply effect_event|done].
Qed.

End Objects.

(** ** Calls of package os *)

Section Calls.
Context (P : path → Prop).
Abbreviation any := (fun _ : World => True).

Lemma popped w o w1 : next_outcome w = (o, w1) → effect P w w1.
Proof.
  unfold next_outcome. destruct (w_faults w); intros [= <- <-]; [apply effect_refl|].
  split; [done|]. exists []. by rewrite app_nil_r.
Qed.

Lemma effect_set_files w w1 F :
  effect P w w1 → (∀ q, ¬ P q → F !! q = w_files w1 !! q) → effect P w (set_files F w1).
Proof. intros [HF HE] H. split; [|done]. intros q Hq. simpl. by rewrite H, HF. Qed.

(** A call on the path [p] of [P]. *)
Ltac call_confined :=
  repeat (match goal with |- P _ → _ => intro end); intros w r w' _ E;
  destruct (next_outcome w) as [o w1] eqn:Ho; apply popped in Ho;
  repeat (case_match; simplify_eq/=);
  (split; [done|]; split; [unfold wld, World_HasWorld|done]);
  first [done | (apply effect_set_files; [done|]; intros x Hx;
                 rewrite ?lookup_insert_ne, ?lookup_delete_ne by congruence; done)].

Lemma confined_write_at p d pos : P p → confined any P (fs_write_at p d pos) (fun _ => True).
Proof. unfold fs_write_at. call_confined. Qed.
Lemma confined_read_at p n pos : confined any P (fs_read_at p n pos) (fun _ => True).
Proof. unfold fs_read_at. call_confined. Qed.
Lemma confined_sync p : P p → confined any P (fs_sync p) (fun _ => True).
Proof. unfold fs_sync. call_confined. Qed.
Lemma confined_close p : confined any P (fs_close p) (fun _ => True).
Proof. unfold fs_close. call_confined. Qed.
Lemma confined_truncate p n : P p → confined any P (fs_truncate p n) (fun _ => True).
Proof. unfold fs_truncate. call_confined. Qed.
Lemma confined_open_create p : P p → confined any P (fs_open_create p) (fun _ => True).
Proof. unfold fs_open_create. call_confined. Qed.
Lemma confined_open_trunc p : P p → confined any P (fs_open_trunc p) (fun _ => True).
Proof. unfold fs_open_trunc. call_confined. Qed.
Lemma confined_open_existing p : confined any P (fs_open_existing p) (fun _ => True).
Proof. unfold fs_open_existing. call_confined. Qed.
Lemma confined_stat p : confined any P (fs_stat p) (fun _ => True).
Proof. unfold fs_stat. call_confined. Qed.
Lemma confined_remove p : P p → confined any P (fs_remove p) (fun _ => True).
Proof. unfold fs_remove. call_confined. Qed.
Lemma confined_rename p q : P p → P q → confined any P (fs_rename p q) (fun _ => True).
Proof. unfold fs_rename. call_confined. Qed.
Lemma confined_mkdir_all d : confined any P (fs_mkdir_all d) (fun _ => True).
Proof.
  intros w r w' ? E. unfold fs_mkdir_all in E. destruct (next_outcome w) as [o w1] eqn:Ho.
  apply popped in Ho. destruct o; simplify_eq/=; (split; [done|]; split; [|done]); [|done].
  by destruct Ho.
Qed.
Lemma confined_read_dir d : confined any P (fs_read_dir d) (fun _ => True).
Proof. unfold fs_read_dir. call_confined. Qed.
Lemma confined_sync_dir d : confined any P (fs_sync_dir d) (fun _ => True).
Proof. unfold fs_sync_dir. call_confined. Qed.
Lemma confined_read_file p : confined any P (fs_read_file p) (fun _ => True).
Proof. unfold fs_read_file. call_confined. Qed.
Lemma confined_stat_dir d : confined any P (fs_stat_dir d) (fun _ => True).
Proof. unfold fs_stat_dir. call_confined. Qed.

End Calls.

#[export] Hint Resolve confined_ret confined_fail confined_panic confined_write_at confined_read_at
  confined_sync confined_close confined_truncate confined_open_create confined_open_trunc
  confined_open_existing confined_stat confined_remove confined_rename confined_mkdir_all
  confined_read_dir confined_sync_dir confined_read_file confined_stat_dir : confine.

(** ** Segments and stores in a directory *)

Definition in_dir (d q : path) : Prop := ∃ name, q = d ++ [name].

Record seg_in (d : path) (seg : Segment) : Prop := mkSegIn {
  si_log : in_dir d (seg_path seg);
  si_index : in_dir d (seg_indexPath seg);
}.

Record store_in (d : path) (s : Store) : Prop := mkStoreIn {
  sti_dir : st_dir s = d;
  sti_segments : Forall (seg_in d) (st_segments s);
}.

Lemma in_dir_child d name : in_dir d (d ++ [name]).
Proof. by exists name. Qed.

Lemma in_dir_tmp d q : in_dir d q → in_dir d (tmp_path q).
Proof.
  intros [name ->]. unfold tmp_path. rewrite last_snoc, length_app. simpl.
  rewrite Nat.add_sub, take_app_length. apply in_dir_child.
Qed.

#[export] Hint Resolve in_dir_child in_dir_tmp si_log si_index : confine.

Lemma raise_maxTimestamp_in d ts seg : seg_in d seg → seg_in d (raise_maxTimestamp ts seg).
Proof. unfold raise_maxTimestamp. case_match; [|done]. by intros []. Qed.

Lemma set_last_in d l seg : Forall (seg_in d) l → seg_in d seg → Forall (seg_in d) (set_last l seg).
Proof. intros Hl Hs. unfold set_last. apply Forall_app. split; [by apply Forall_take|by constructor]. Qed.

Lemma with_segments_in d s l : store_in d s → Forall (seg_in d) l → store_in d (st_with_segments l s).
Proof. by intros [] ?; split. Qed.

Lemma snoc_segment_in d s seg :
  store_in d s → seg_in d seg → store_in d (st_with_segments (st_segments s ++ [seg]) s).
Proof. intros [] ?. apply with_segments_in; [by split|]. apply Forall_app. split; [done|by constructor]. Qed.

#[export] Hint Resolve raise_maxTimestamp_in snoc_segment_in : confine.
#[export] Hint Extern 2 (seg_in _ _) =>
  match goal with H : seg_in _ _ |- _ => destruct H; split; assumption end : confine.
#[export] Hint Extern 2 (store_in _ _) =>
  match goal with H : store_in _ _ |- _ => destruct H; split; assumption end : confine.

(** Walk through a computation with the rules of the monad. *)
Ltac confine1 :=
  lazymatch goal with
  | |- confined _ _ (bind get_obj _) _ =>
      eapply confined_bind; [apply confined_get_obj|intros ? ?]
  | |- confined (on_obj (store_in ?d)) _ (bind (on_err (io (NewSegment _ _ _)) _) _) _ =>
      apply (confined_bind _ _ _ _ (seg_in d)); [|intros ? ?]
  | |- confined (on_obj (store_in ?d)) _ (bind (io (NewSegment _ _ _)) _) _ =>
      apply (confined_bind _ _ _ _ (seg_in d)); [|intros ? ?]
  | |- confined _ _ (bind _ _) _ => eapply (confined_bind _ _ _ _ (fun _ => True)); [|intros ? _]
  | |- confined _ _ (ret _) (fun _ => True) => by apply confined_ret
  | |- confined _ _ (fail _) _ => apply confined_fail
  | |- confined _ _ panic _ => apply confined_panic
  | |- confined _ _ (lift_res _) (fun _ => True) => by apply confined_lift
  | |- confined _ _ (on_err _ _) _ => apply (confined_on_err _ _ _ _ _ (fun _ => True))
  | |- confined _ _ (attempt _) (fun _ => True) => apply confined_any with (fun r => ∀ a, r = Ok a → True), confined_attempt
  | |- confined _ _ (ignore _) (fun _ => True) => apply confined_ignore with (fun _ => True)
  | |- confined _ _ (io _) _ => apply confined_io
  | |- confined _ _ (modify _) (fun _ => True) =>
      apply confined_modify; intros ? ?; repeat case_match; eauto with confine
  | |- confined _ _ (emit _) (fun _ => True) => by apply confined_emit
  | |- confined _ _ (if ?b then _ else _) _ => destruct b
  | |- confined _ _ (let '(_, _) := ?x in _) _ => destruct x
  | |- confined _ _ (match ?x with _ => _ end) _ => destruct x eqn:?
  end.
Ltac confine := repeat first [solve [eauto with confine] | confine1].

Section Places.
Context (d : path).
Abbreviation P := (in_dir d).
Abbreviation IO m Q := (confined (fun _ : World => True) P m Q).
Abbreviation SEG m Q := (confined (on_obj (seg_in d)) P m Q).
Abbreviation STORE m Q := (confined (on_obj (store_in d)) P m Q).

Lemma confined_on_active {A} (m : M (Segment * World) A) Q : SEG m Q → STORE (on_active m) Q.
Proof.
  intros Hm [s w] r [s' w'] HJ E. simpl in HJ. unfold on_active in E.
  destruct (list.last (st_segments s)) as [seg|] eqn:El.
  - destruct (m (seg, w)) as [r1 [seg1 w1]] eqn:Em. injection E as <- <- <-.
    assert (Hseg : seg_in d seg).
    { destruct HJ as [_ HF]. apply last_Some in El as [l El]. rewrite El in HF.
      apply Forall_app in HF as [_ HF]. by apply Forall_singleton. }
    destruct (Hm (seg, w) _ _ Hseg Em) as (H1 & H2 & H3). split; [|by split].
    apply with_segments_in; [done|]. by apply set_last_in; [destruct HJ|].
  - injection E as <- <- <-. split; [done|]. split; [apply effect_refl|done].
Qed.

Lemma confined_on_seg {A} seg (m : M (Segment * World) A) Q :
  seg_in d seg → SEG m Q → IO (on_seg seg m) Q.
Proof.
  intros Hseg Hm w r w' _ E. unfold on_seg in E. destruct (m (seg, w)) as [r1 [seg1 w1]] eqn:Em.
  injection E as <- <-. destruct (Hm (seg, w) _ _ Hseg Em) as (H1 & H2 & H3). by split.
Qed.

Lemma NewSegment_confined base active : IO (NewSegment d base active) (seg_in d).
Proof.
  unfold NewSegment. confine. apply confined_ret. split; apply in_dir_child.
Qed.

Lemma Segment_ReadAt_confined n pos : SEG (Segment_ReadAt n pos) (fun _ => True).
Proof. unfold Segment_ReadAt. confine. Qed.

Lemma Segment_Append_confined data : SEG (Segment_Append data) (fun _ => True).
Proof. unfold Segment_Append. confine. Qed.

Lemma ReadIndexEntries_confined : SEG ReadIndexEntries (fun _ => True).
Proof. unfold ReadIndexEntries. confine. Qed.

Lemma AppendIndexEntry_confined e : SEG (AppendIndexEntry e) (fun _ => True).
Proof. unfold AppendIndexEntry. confine. Qed.

Lemma Segment_Flush_confined : SEG Segment_Flush (fun _ => True).
Proof. unfold Segment_Flush, FlushIndex. confine. Qed.

Lemma Segment_Close_confined : SEG Segment_Close (fun _ => True).
Proof. unfold Segment_Close. confine. Qed.

End Places.

#[export] Hint Resolve confined_on_active confined_on_seg NewSegment_confined Segment_ReadAt_confined
  Segment_Append_confined ReadIndexEntries_confined AppendIndexEntry_confined
  Segment_Flush_confined Segment_Close_confined : confine.

Section Stores.
Context (d : path).
Abbreviation P := (in_dir d).
Abbreviation IO m Q := (confined (fun _ : World => True) P m Q).
Abbreviation SEG m Q := (confined (on_obj (seg_in d)) P m Q).
Abbreviation STORE m Q := (confined (on_obj (store_in d)) P m Q).

(** ** Append, read and close *)

Lemma on_active_get_confined : STORE (on_active get_obj) (fun _ => True).
Proof. apply confined_on_active. eapply confined_any, confined_get_obj. Qed.

Lemma on_active_modify_confined f :
  (∀ seg, seg_in d seg → seg_in d (f seg)) → STORE (on_active (modify f)) (fun _ => True).
Proof. intros Hf. by apply confined_on_active, confined_modify. Qed.

Lemma mark_failed_confined : STORE mark_failed (fun _ => True).
Proof. unfold mark_failed. confine. Qed.

Lemma updateGauges_confined : STORE updateGaugesLocked (fun _ => True).
Proof. unfold updateGaugesLocked. confine. Qed.

Lemma new_segment_in_store_confined s base active :
  store_in d s → STORE (io (NewSegment (st_dir s) base active)) (seg_in d).
Proof. intros [-> _]. apply confined_io, NewSegment_confined. Qed.

#[local] Hint Resolve on_active_get_confined on_active_modify_confined mark_failed_confined
  updateGauges_confined new_segment_in_store_confined : confine.

Lemma roll_if_full_confined n : STORE (roll_if_full n) (fun _ => True).
Proof. unfold roll_if_full. confine. Qed.

Lemma index_batch_confined rel pos : STORE (index_batch rel pos) (fun _ => True).
Proof. unfold index_batch. confine. Qed.

Lemma apply_flush_policy_confined : STORE apply_flush_policy (fun _ => True).
Proof. unfold apply_flush_policy. confine. Qed.

#[local] Hint Resolve roll_if_full_confined index_batch_confined apply_flush_policy_confined : confine.

Lemma append_encoded_confined ts base n enc : STORE (append_encoded ts base n enc) (fun _ => True).
Proof. unfold append_encoded, write_batch. confine. Qed.

Lemma scan_segment_confined fuel seg maxBytes pos c :
  seg_in d seg → IO (scan_segment fuel seg maxBytes pos c) (fun _ => True).
Proof. intros Hseg. revert pos c. induction fuel as [|fuel IH]; intros pos c; simpl; confine. Qed.

Lemma read_segments_confined segs maxBytes c :
  Forall (seg_in d) segs → IO (read_segments segs maxBytes c) (fun _ => True).
Proof.
  intros Hs. revert c. induction Hs as [|seg segs Hseg Hs IH]; intros c; cbn [read_segments]; confine.
  by apply scan_segment_confined.
Qed.

Lemma close_segments_confined segs w segs' err w' :
  Forall (seg_in d) segs → close_segments segs w = (segs', err, w') →
  Forall (seg_in d) segs' ∧ effect P w w'.
Proof.
  intros Hs. revert w segs' err w'. induction Hs as [|seg segs Hseg Hs IH]; intros w segs' err w' E; simpl in E.
  - injection E as <- <- <-. split; [constructor|apply effect_refl].
  - destruct (Segment_Close (seg, w)) as [r [seg1 w1]] eqn:E1.
    destruct (Segment_Close_confined d (seg, w) _ _ Hseg E1) as (H1 & H2 & _).
    destruct (close_segments segs w1) as [[segs2 err2] w2] eqn:E2. injection E as <- <- <-.
    destruct (IH _ _ _ _ E2) as [H3 H4]. split; [by constructor|]. by eapply effect_trans.
Qed.

Lemma Store_Close_confined : STORE Store_Close (fun _ => True).
Proof.
  intros [s w] r [s' w'] HJ E. unfold Store_Close in E. simpl in HJ.
  destruct (st_closed s); [injection E as <- <- <-; split; [done|]; split; [apply effect_refl|done]|].
  set (s1 := st_with_closed true s) in *. assert (HJ1 : store_in d s1) by by destruct HJ.
  destruct (match st_segments s1 with [] => _ | _ => _ end) as [r2 [s2 w2]] eqn:E2.
  assert (H2 : store_in d s2 ∧ effect P w w2).
  { destruct (st_segments s1); [injection E2 as <- <- <-; split; [done|apply effect_refl]|].
    destruct (confined_on_active d _ _ (Segment_Flush_confined d) (s1, w) _ _ HJ1 E2) as (? & ? & _).
    done. }
  destruct H2 as [HJ2 HE2]. destruct (close_segments (st_segments s2) w2) as [[segs err] w3] eqn:E3.
  destruct (close_segments_confined _ _ _ _ _ (sti_segments _ _ HJ2) E3) as [H3 HE3].
  assert (store_in d (st_with_segments segs s2)) by by apply with_segments_in.
  assert (effect P w w3) by by eapply effect_trans.
  destruct (negb (is_ok r2) || err); injection E as <- <- <-; done.
Qed.

(** ** Recovery *)

Lemma check_batch_offsets_confined recs e j : SEG (check_batch_offsets e j recs) (fun _ => True).
Proof. revert j. induction recs as [|r recs IH]; intros j; cbn [check_batch_offsets]; confine. Qed.

Lemma truncateLog_confined n : SEG (truncateLog n) (fun _ => True).
Proof. unfold truncateLog. confine. Qed.

#[local] Hint Resolve check_batch_offsets_confined truncateLog_confined : confine.

Lemma recover_loop_confined fuel mb active pos e v : SEG (recover_loop fuel mb active pos e v) (fun _ => True).
Proof.
  revert pos e v. induction fuel as [|fuel IH]; intros pos e v; cbn [recover_loop]; confine.
Qed.

Lemma validate_entries_confined seg n entries i lr lp :
  seg_in d seg → IO (validate_entries seg n i lr lp entries) (fun _ => True).
Proof.
  intros Hseg. revert i lr lp. induction entries as [|e es IH]; intros i lr lp; cbn [validate_entries]; confine.
Qed.

Lemma validateIndexEntries_confined seg entries n :
  seg_in d seg → IO (validateIndexEntries seg entries n) (fun _ => True).
Proof. intros Hseg. unfold validateIndexEntries. confine. by apply validate_entries_confined. Qed.

Lemma rebuild_loop_confined fuel interval n tmp es last pos :
  in_dir d tmp → SEG (rebuild_loop fuel interval n tmp es last pos) (fun _ => True).
Proof.
  intros Ht. revert es last pos. induction fuel as [|fuel IH]; intros es last pos; cbn [rebuild_loop]; confine.
Qed.

#[local] Hint Resolve recover_loop_confined validateIndexEntries_confined rebuild_loop_confined : confine.

Lemma rebuildIndex_confined interval n : SEG (rebuildIndex d interval n) (fun _ => True).
Proof. unfold rebuildIndex. confine. Qed.

Lemma recoverSegment_confined s active : store_in d s → SEG (recoverSegment s active) (fun _ => True).
Proof.
  intros Hs. unfold recoverSegment. rewrite (sti_dir _ _ Hs).
  pose proof rebuildIndex_confined. confine.
Qed.

Lemma closeAllOpenSegments_confined : STORE closeAllOpenSegments (fun _ => True).
Proof.
  intros [s w] r [s' w'] HJ E. unfold closeAllOpenSegments in E. simpl in HJ.
  destruct (close_segments (st_segments s) w) as [[segs err] w1] eqn:E1. injection E as <- <- <-.
  destruct (close_segments_confined _ _ _ _ _ (sti_segments _ _ HJ) E1) as [_ HE].
  split; [|done]. by apply with_segments_in.
Qed.

Lemma remove_tmp_files_confined names : IO (remove_tmp_files d names) (fun _ => True).
Proof. induction names as [|n names IH]; cbn [remove_tmp_files]; confine. Qed.

#[local] Hint Resolve closeAllOpenSegments_confined recoverSegment_confined : confine.

Lemma open_segments_confined bases e : STORE (open_segments bases e) (fun _ => True).
Proof. revert e. induction bases as [|b bases IH]; intros e; cbn [open_segments]; confine. Qed.

#[local] Hint Resolve open_segments_confined : confine.

Lemma load_segments_confined bases : STORE (load_segments bases) (fun _ => True).
Proof.
  unfold load_segments. confine. split; [by destruct H1|by constructor].
Qed.

Lemma open_store_confined smb mbb iib mode : IO (open_store d smb mbb iib mode) (store_in d).
Proof.
  unfold open_store. pose proof remove_tmp_files_confined. confine.
  intros w r w' _ E. destruct (load_segments _ _) as [r1 [s1 w1]] eqn:E1. injection E as <- <-.
  eapply load_segments_confined in E1 as (H1 & H2 & _); [|by split; [|constructor]].
  split; [done|]. split; [done|]. destruct r1; intros ? [= <-]. done.
Qed.

(** ** Retention *)

Lemma effect_step {A} (m : M World A) Q w r w' : IO m Q → m w = (r, w') → effect P w w'.
Proof. intros Hm E. by destruct (Hm _ _ _ I E) as (_ & ? & _). Qed.

Lemma deleteOldestSegment_confined : STORE deleteOldestSegment (fun _ => True).
Proof.
  intros [s w] r [s' w'] HJ E. unfold deleteOldestSegment in E. simpl in HJ.
  destruct (st_segments s) as [|seg rest] eqn:Es;
    [injection E as <- <- <-; split; [done|]; split; [apply effect_refl|done]|].
  assert (HF := sti_segments _ _ HJ). rewrite Es in HF. apply Forall_cons in HF as [Hseg Hrest].
  destruct (fs_remove (seg_path seg) w) as [r0 w0] eqn:E0.
  assert (HE0 : effect P w w0) by (eapply effect_step, E0; confine).
  destruct r0; [|by injection E as <- <- <-..]. cbv zeta in E.
  destruct (fs_remove (seg_indexPath seg) _) as [r1 w1] eqn:E1.
  destruct (Segment_Close (seg, w1)) as [r2 [seg2 w2]] eqn:E2.
  destruct (fs_sync_dir _ w2) as [r3 w3] eqn:E3. injection E as <- <- <-.
  destruct (Segment_Close_confined d (seg, w1) _ _ Hseg E2) as (_ & HE2 & _).
  split; [|split; [|done]].
  - destruct rest as [|first rest]; (split; [by destruct HJ|done]).
  - eapply effect_trans; [done|]. eapply effect_trans; [by apply (effect_event P w0 SegmentDeleted)|].
    eapply effect_trans; [eapply effect_step, E1; confine|].
    eapply effect_trans; [exact HE2|]. eapply effect_step, E3. confine.
Qed.

Lemma calculateTotalBytes_confined segs t : IO (calculateTotalBytes segs t) (fun _ => True).
Proof. revert t. induction segs as [|seg segs IH]; intros t; cbn [calculateTotalBytes]; confine. Qed.

#[local] Hint Resolve deleteOldestSegment_confined calculateTotalBytes_confined
  updateGauges_confined : confine.

Lemma retain_by_age_confined fuel cutoff : STORE (retain_by_age fuel cutoff) (fun _ => True).
Proof. induction fuel as [|fuel IH]; cbn [retain_by_age]; confine. Qed.

Lemma retain_by_size_confined fuel n : STORE (retain_by_size fuel n) (fun _ => True).
Proof. induction fuel as [|fuel IH]; cbn [retain_by_size]; confine. Qed.

#[local] Hint Resolve retain_by_age_confined retain_by_size_confined : confine.

Lemma ApplyRetention_confined now age n : STORE (Store_ApplyRetention now age n) (fun _ => True).
Proof. unfold Store_ApplyRetention. confine. Qed.

End Stores.
