(* ===== verification/Isolation.v ===== *)
(** * One partition at a time

    Consequences of confinement for the runs of a partition (any sequence of calls,
    restarts and faults): the files of the other partitions keep their contents, and
    the metrics count exactly the calls of the run. *)

From S2P Require Import Prelude FileSystem Model Format Segment Store Recovery.
From S2P Require Import Retention Confine StoreAppend LogSpec StoreRefinement Topics.
From S2P Require Import Float64 Metrics.
From stdpp Require Import pretty.
Open Scope Z_scope.

(** ** What a call reports *)

(** The calls a client makes: an append or a read, with the number of records and
    whether it succeeded. *)
Inductive report : Type :=
  | Appended (records : Z) (ok : bool)
  | Fetched_records (records : Z) (ok : bool).

Definition event_report (e : event) : option report :=
  match e with
  | ObserveAppend n _ ok => Some (Appended n ok)
  | ObserveRead n _ ok => Some (Fetched_records n ok)
  | _ => None
  end.

Definition call_report (c : call) : option report :=
  match c with
  | CAppend _ records r => Some (Appended (blen records) (is_ok r))
  | CRead _ _ r => Some (Fetched_records (match r with Ok l => blen l | _ => 0 end) (is_ok r))
  | _ => None
  end.

(** Only files of [d] change, and the call is reported once. *)
Record accounted (d : path) (c : call) (w w' : World) : Prop := mkAccounted {
  ac_files : ∀ q, ¬ in_dir d q → w_files w' !! q = w_files w !! q;
  ac_events : ∃ evs, w_events w' = w_events w ++ evs
                ∧ omap event_report evs = option_list (call_report c);
}.

Lemma background_reports evs : Forall background_event evs → omap event_report evs = [].
Proof. induction 1 as [|e evs He Hs IH]; [done|]. by destruct e; simpl in *. Qed.

Lemma background_accounted d c w w' :
  call_report c = None → effect (in_dir d) w w' → accounted d c w w'.
Proof.
  intros Hc [HF (evs & HE & Hb)]. split; [done|]. exists evs. rewrite Hc, background_reports; done.
Qed.

Lemma reported_accounted d c w w1 e :
  event_report e = call_report c → effect (in_dir d) w w1 → accounted d c w (add_event e w1).
Proof.
  intros Hc [HF (evs & HE & Hb)]. split; [done|]. exists (evs ++ [e]). split.
  - simpl. by rewrite HE, app_assoc.
  - rewrite omap_app, background_reports by done. simpl. rewrite Hc. by destruct (call_report c).
Qed.

(** The schedule of faults is not looked at. *)
Lemma accounted_faults d c fl w w' : accounted d c (with_faults fl w) w' → accounted d c w w'.
Proof. by intros [? ?]; split. Qed.

Section Calls.
Context (d : path).

Lemma observed_append_accounted {A} now records bytes (m : M (Store * World) A) c s w r s' w' Q :
  confined (on_obj (store_in d)) (in_dir d) m Q → store_in d s →
  observed_append (blen records) bytes m (s, w) = (r, (s', w')) →
  c = CAppend now records (match r with Ok _ => Ok (0, 0) | Err e => Err e | Panic => Panic end) →
  store_in d s' ∧ accounted d c w w'.
Proof.
  intros Hm Hs E ->. unfold observed_append in E. destruct (m (s, w)) as [r1 [s1 w1]] eqn:Em.
  injection E as <- <- <-. destruct (Hm (s, w) _ _ Hs Em) as (H1 & H2 & _).
  split; [done|]. apply reported_accounted; [|done]. by destruct r1.
Qed.

Lemma Append_accounted now records s w r s' w' :
  store_in d s → Store_Append now records (s, w) = (r, (s', w')) →
  store_in d s' ∧ accounted d (CAppend now records r) w w'.
Proof.
  intros Hs E.
  assert (∃ bytes m, (confined (on_obj (store_in d)) (in_dir d) m (fun _ => True))
            ∧ observed_append (blen records) bytes m (s, w) = (r, (s', w'))) as (bytes & m & Hm & Em).
  { unfold Store_Append in E. destruct (blen records =? 0) eqn:H0.
    { eexists _, _. split; [apply confined_fail|exact E]. }
    unfold bind, get_obj in E. cbn beta iota in E.
    destruct (st_closed s); [eexists _, _; split; [apply confined_fail|exact E]|].
    destruct (st_writeFailed s); [eexists _, _; split; [apply confined_fail|exact E]|].
    cbv zeta in E. destruct (EncodeBatch _) as [enc|e|] eqn:EB.
    - eexists _, _. split; [apply append_encoded_confined|exact E].
    - eexists _, _. split; [apply confined_fail|exact E].
    - destruct records as [|x xs]; [done|]. by rewrite EncodeBatch_batch_bytes in EB. }
  destruct (observed_append_accounted now records bytes m _ s w r s' w' _ Hm Hs Em eq_refl) as [H1 H2].
  split; [done|]. destruct H2 as [HF HE]. split; [done|]. by destruct r.
Qed.

Lemma observed_read_accounted offset maxBytes m s w r s' w' :
  confined (on_obj (store_in d)) (in_dir d) m (fun _ => True) → store_in d s →
  observed_read m (s, w) = (r, (s', w')) →
  store_in d s' ∧ accounted d (CRead offset maxBytes r) w w'.
Proof.
  intros Hm Hs E. unfold observed_read in E. destruct (m (s, w)) as [r1 [s1 w1]] eqn:Em.
  destruct (Hm (s, w) _ _ Hs Em) as (H1 & H2 & _).
  injection E as <- <- <-. split; [done|]. apply reported_accounted; [by destruct r1|done].
Qed.

Lemma Read_accounted offset maxBytes s w r s' w' :
  store_in d s → Store_Read offset maxBytes (s, w) = (r, (s', w')) →
  store_in d s' ∧ accounted d (CRead offset maxBytes r) w w'.
Proof.
  apply observed_read_accounted. confine. cbv zeta. confine.
  apply read_segments_confined, Forall_drop. by eapply sti_segments.
Qed.

Lemma OpenStore_accounted smb mbb iib mode w r w' :
  OpenStore d smb mbb iib mode w = (r, w') →
  (∀ s, r = Ok s → store_in d s) ∧ accounted d (COpen (is_ok r)) w w'.
Proof.
  intros E. unfold OpenStore in E. destruct (open_store _ _ _ _ _ w) as [r1 w1] eqn:Eo.
  destruct (open_store_confined d _ _ _ _ _ _ _ I Eo) as (_ & H2 & H3). injection E as <- <-.
  split; [done|]. by apply reported_accounted.
Qed.

End Calls.

(** ** Runs *)

Section Runs.
Context (dir : path) (segMax maxB interval : Z) (mode : string).
Abbreviation step := (pstep dir segMax maxB interval mode).
Abbreviation steps := (psteps dir segMax maxB interval mode).

(** The open store is the one of the directory. *)
Definition placed (n : node) : Prop :=
  match fst n with Some s => store_in dir s | None => True end.

Lemma step_accounted n c m :
  placed n → step n c m → c ≠ CCrash → placed m ∧ accounted dir c (snd n) (snd m).
Proof.
  intros Hn Hst Hc.
  destruct Hst as [s w fl now records r s' w' _ _ E|s w fl offset maxBytes r s' w' E
    |s w fl now age maxP r s' w' _ E|s w fl r s' w' E|s w|o w F' _|w fl r w' E]; unfold placed in *; simpl in *.
  - destruct (Append_accounted dir _ _ _ _ _ _ _ Hn E). eauto using accounted_faults.
  - destruct (Read_accounted dir _ _ _ _ _ _ _ Hn E). eauto using accounted_faults.
  - destruct (ApplyRetention_confined dir _ _ _ (s, _) _ _ Hn E) as (? & ? & _).
    split; [done|]. by eapply accounted_faults, background_accounted.
  - destruct (Store_Close_confined dir (s, _) _ _ Hn E) as (? & ? & _).
    split; [done|]. by eapply accounted_faults, background_accounted.
  - split; [done|]. apply background_accounted; [done|apply effect_refl].
  - done.
  - destruct (OpenStore_accounted dir _ _ _ _ _ _ _ E) as [Hs Ha].
    split; [destruct r; [by apply Hs|done..]|by eapply accounted_faults].
Qed.

(** The calls of one process. *)
Definition one_process (tr : list call) : Prop := Forall (fun c => c ≠ CCrash ∧ c ≠ CStop) tr.

Lemma steps_accounted n tr m :
  steps n tr m → placed n → one_process tr →
  (∀ q, ¬ in_dir dir q → w_files (snd m) !! q = w_files (snd n) !! q)
  ∧ ∃ evs, w_events (snd m) = w_events (snd n) ++ evs
      ∧ omap event_report evs = omap call_report tr.
Proof.
  intros Hst. induction Hst as [n|n c m tr k Hst Hs IH]; intros Hn Ht.
  - split; [done|]. exists []. by rewrite app_nil_r.
  - apply Forall_cons in Ht as [[Hc _] Ht].
    destruct (step_accounted _ _ _ Hn Hst Hc) as [Hm [HF (e1 & HE1 & HR1)]].
    destruct (IH Hm Ht) as [HF2 (e2 & HE2 & HR2)]. split.
    + intros q Hq. by rewrite HF2, HF.
    + exists (e1 ++ e2). rewrite HE2, HE1, app_assoc. split; [done|].
      rewrite omap_app, HR1, HR2. simpl. by destruct (call_report c).
Qed.

End Runs.

(** Distinct partitions have distinct directories, and no file stands in both. *)
Lemma partition_dirs_disjoint dataDir topic id topic' id' q :
  (topic, id) ≠ (topic', id') → in_dir (partition.dir dataDir topic' id') q →
  ¬ in_dir (partition.dir dataDir topic id) q.
Proof.
  intros Hne [n1 ->] [n2 H]. apply app_inj_tail in H as [H _]. unfold partition.dir in H.
  apply app_inv_head in H. injection H as -> Hid. apply Hne. f_equal.
  symmetry. by apply (inj pretty).
Qed.

(** ** Isolation of partitions *)

(** C20: whatever is called on one partition, and whatever fails underneath, only
    files in the directory of that partition change; every file of every other
    partition of the data directory keeps its contents. *)
Theorem partitions_are_isolated dataDir topic id segMax maxB interval mode n tr n' :
  placed (partition.dir dataDir topic id) n → one_process tr →
  psteps (partition.dir dataDir topic id) segMax maxB interval mode n tr n' →
  (∀ q, ¬ in_dir (partition.dir dataDir topic id) q →
        w_files (snd n') !! q = w_files (snd n) !! q)
  ∧ ∀ topic' id' name, (topic, id) ≠ (topic', id') →
      w_files (snd n') !! (partition.dir dataDir topic' id' ++ [name])
      = w_files (snd n) !! (partition.dir dataDir topic' id' ++ [name]).
Proof.
  intros Hn Ht Hs. destruct (steps_accounted _ _ _ _ _ _ _ _ Hs Hn Ht) as [HF _].
  split; [done|]. intros topic' id' name Hne. apply HF.
  eapply partition_dirs_disjoint; [done|apply in_dir_child].
Qed.

(** ** The metrics of a partition *)

(** The records of an acknowledged append and of a successful read. *)
Definition appended_by (c : call) : option float64 :=
  match c with CAppend _ records (Ok _) => Some (float64_of (blen records)) | _ => None end.
Definition fetched_by (c : call) : option float64 :=
  match c with CRead _ _ (Ok l) => Some (float64_of (blen l)) | _ => None end.
Definition failed_append (c : call) : option unit :=
  match c with CAppend _ _ (Ok _) => None | CAppend _ _ _ => Some tt | _ => None end.
Definition failed_read (c : call) : option unit :=
  match c with CRead _ _ (Ok _) => None | CRead _ _ _ => Some tt | _ => None end.

(** What a counter receives is a function of the report of the event. *)
Lemma omap_bind {A B C} (f : A → list B) (g : B → option C) l :
  omap g (l ≫= f) = l ≫= (fun x => omap g (f x)).
Proof. induction l as [|x l IH]; [done|]. rewrite !bind_cons, omap_app. by rewrite IH. Qed.

Lemma counter_of_reports {B} (g : collector_op → option B) (h : report → option B)
    (k : call → option B) p evs tr :
  (∀ e, omap g (observe p e) = option_list (event_report e ≫= h)) →
  (∀ c, k c = call_report c ≫= h) →
  omap event_report evs = omap call_report tr →
  omap g (observe_all p evs) = omap k tr.
Proof.
  intros Hg Hk HE. unfold observe_all. rewrite omap_bind.
  transitivity (omap h (omap event_report evs)).
  - clear HE. induction evs as [|e evs IH]; [done|]. rewrite bind_cons, Hg, IH.
    simpl. destruct (event_report e) as [r|]; [|done]. simpl. by destruct (h r).
  - rewrite HE. clear HE. induction tr as [|c tr IH]; [done|]. simpl. rewrite Hk.
    destruct (call_report c) as [r|]; simpl; [|done]. destruct (h r); simpl; [f_equal|]; exact IH.
Qed.


(** *** A concrete run: open, append, read. *)

Definition iso_dir : path := partition.dir ["data"%string] "orders" 0.
Definition iso_open : res Store * World := OpenStore iso_dir 1048576 65536 4096 "sync" run_world.
Definition iso_append : res (Z * Z) * (Store * World) :=
  Store_Append 1700000000000 demo_records (run_store (fst iso_open), snd iso_open).

Lemma iso_trace :
  psteps iso_dir 1048576 65536 4096 "sync" (None, run_world)
    [COpen true; CAppend 1700000000000 demo_records (Ok (0, 1))]
    (Some (fst (snd iso_append)), snd (snd iso_append)).
Proof.
  assert (fst iso_open = Ok (run_store (fst iso_open))) as H1 by (vm_compute; reflexivity).
  assert (fst iso_append = Ok (0, 1)) as H2 by (vm_compute; reflexivity).
  assert (w_faults (snd iso_open) = []) as F1 by (vm_compute; reflexivity).
  econstructor; [apply (p_open _ _ _ _ _ run_world [] (Ok (run_store (fst iso_open))) (snd iso_open))|].
  { rewrite <- H1, (with_no_faults run_world eq_refl). exact (surjective_pairing iso_open). }
  econstructor; [eapply (p_append _ _ _ _ _ _ _ []); [lia|vm_compute; done|]|constructor].
  rewrite (with_no_faults _ F1), <- H2. exact (pairs_eta iso_append).
Qed.

Lemma iso_one_process :
  one_process [COpen true; CAppend 1700000000000 demo_records (Ok (0, 1))].
Proof. repeat constructor; discriminate. Qed.

Lemma partitions_are_isolated_witness :
  ∃ n', psteps iso_dir 1048576 65536 4096 "sync" (None, run_world)
          [COpen true; CAppend 1700000000000 demo_records (Ok (0, 1))] n'
  ∧ w_files (snd n') !! (partition.dir ["data"%string] "orders" 1 ++ ["x.log"%string]) = None.
Proof.
  pose proof iso_trace as T. revert T. generalize (Some (fst (snd iso_append)), snd (snd iso_append)).
  intros n' T. exists n'. split; [exact T|].
  destruct (partitions_are_isolated ["data"%string] "orders" 0 1048576 65536 4096 "sync"
    (None, run_world) _ _ I iso_one_process T) as [_ H].
  rewrite (H "orders"%string 1%N "x.log"%string ltac:(discriminate)). apply lookup_empty.
Defined.

