(* ===== verification/Family.v ===== *)
(** * The partitions of a data directory, side by side

    A family is the set of all partitions of a data directory: for each one the store
    that is open on it, if any, and its abstract log.  A call on one partition is a step
    of its log and leaves the others as they are; closing and loading the partitions of a
    topic manager are sequences of such calls. *)

From S2P Require Import Prelude FileSystem Names Store Recovery Retention Confine LogSpec.
From S2P Require Import StoreRecovery StoreRefinement Topics TopicsSpec Isolation Grpc GrpcSpec ServiceSpec.
From stdpp Require Import pretty.
Open Scope Z_scope.

Section Family.
Context (dataDir : path) (segMax maxB interval : Z) (mode : string).
Context (maxB_small : maxB < two31) (segMax_small : segMax < two63).

Abbreviation sync := (ToLower mode = "sync"%string).
Abbreviation logs_of := (gmap part (phase * alog)).

Definition part_dir (k : part) : path := partition.dir dataDir (fst k) (Z.to_N (snd k)).

(** [o k] is the store that is open on partition [k]. *)
Definition family (o : part → option Store) (w : World) (logs : logs_of) : Prop :=
  ∀ k a, logs !! k = Some a →
    0 <= snd k ∧ refines (part_dir k) maxB mode (o k, w) a ∧ placed (part_dir k) (o k, w).

(** A file of some partition, and of a partition of the family. *)
Definition part_file (q : path) : Prop := ∃ k, part_dir k `prefix_of` q.
Definition known_file (logs : logs_of) (q : path) : Prop :=
  ∃ k, is_Some (logs !! k) ∧ part_dir k `prefix_of` q.

Lemma in_dir_prefix d q : in_dir d q → d `prefix_of` q.
Proof. intros [name ->]. by exists [name]. Qed.

(** Only files of the family have changed. *)
Definition unmoved (logs : logs_of) (w w' : World) : Prop :=
  ∀ q, ¬ known_file logs q → w_files w' !! q = w_files w !! q.

Lemma unmoved_refl logs w : unmoved logs w w.
Proof. by intros q _. Qed.
Lemma unmoved_trans logs w1 w2 w3 : unmoved logs w1 w2 → unmoved logs w2 w3 → unmoved logs w1 w3.
Proof. intros H1 H2 q Hq. by rewrite H2, H1. Qed.
Lemma unmoved_next T logs logs' w1 w2 w3 :
  unmoved logs w1 w2 → all_reach sync T logs logs' → unmoved logs' w2 w3 → unmoved logs w1 w3.
Proof.
  intros H1 Hr H2 q Hq. rewrite H2, H1; [done|done|]. intros (k & Hk & Hin). apply Hq. exists k.
  split; [|done]. by apply (all_reach_is_Some sync T logs logs').
Qed.
Lemma unmoved_other logs w w' q :
  unmoved logs w w' → ¬ part_file q → w_files w' !! q = w_files w !! q.
Proof. intros H Hq. apply H. intros (k & _ & Hin). apply Hq. by exists k. Qed.

Lemma short_not_part_file names : (length names < 3)%nat → ¬ part_file (dataDir ++ names).
Proof.
  intros Hn [[t i] [x H]]. unfold part_dir, partition.dir in H. rewrite <- app_assoc in H.
  apply app_inv_head in H. subst. simpl in Hn. lia.
Qed.

Lemma part_dir_ne k k' q :
  0 <= snd k → 0 <= snd k' → k ≠ k' → in_dir (part_dir k') q → ¬ part_dir k `prefix_of` q.
Proof.
  destruct k as [t i], k' as [t' i']. simpl. intros Hi Hi' Hne [x ->] Hp.
  apply (partition_dirs_disjoint dataDir t (Z.to_N i) t' (Z.to_N i') (part_dir (t', i') ++ [x])).
  - intros [= -> Heq]. apply Hne. f_equal. lia.
  - apply in_dir_child.
  - destruct Hp as [y Hy]. unfold part_dir, partition.dir in *. simpl in *.
    rewrite <- !app_assoc in Hy. apply app_inv_head in Hy. injection Hy as Ht Hp Hx.
    change (pretty (Z.to_N i') = pretty (Z.to_N i)) in Hp. exists x. by rewrite Ht, Hp.
Qed.

Lemma family_ext o o' w logs :
  family o w logs → (∀ k, is_Some (logs !! k) → 0 <= snd k → o' k = o k) → family o' w logs.
Proof.
  intros H Ho k a Hk. destruct (H k a Hk) as (H0 & Hr & Hp). rewrite (Ho k); eauto.
Qed.

(** The worlds may differ outside the partitions. *)
Lemma family_frame o w w' logs :
  family o w logs → (∀ q, part_file q → w_files w' !! q = w_files w !! q) → family o w' logs.
Proof.
  intros H HF k a Hk. destruct (H k a Hk) as (H0 & Hr & Hp). split; [done|]. split; [|done].
  eapply refines_frame; [|exact Hr]. intros name. apply HF. exists k.
  apply in_dir_prefix, in_dir_child.
Qed.

(** A call on one partition. *)
Lemma family_step o w logs k a c o1 w1 :
  family o w logs → logs !! k = Some a → c ≠ CCrash →
  pstep (part_dir k) segMax maxB interval mode (o k, w) c (o1, w1) →
  ∃ a', astep sync a c a' ∧ unmoved logs w w1 ∧ refines (part_dir k) maxB mode (o1, w1) a'
    ∧ family (fun k' => if decide (k' = k) then o1 else o k') w1 (<[k := a']> logs).
Proof.
  intros H Hk Hc Hst. destruct (H k a Hk) as (H0 & Hr & Hp).
  destruct (simulation _ _ _ _ _ maxB_small segMax_small _ _ _ _ Hst Hr) as (a' & Ha & Hr').
  destruct (step_accounted _ _ _ _ _ _ _ _ Hp Hst Hc) as [Hp' [HF _]]. cbn [snd] in HF.
  exists a'. split; [done|]. split; [intros q Hq; apply HF; intros Hin; apply Hq; exists k; eauto using in_dir_prefix|].
  split; [done|]. intros k' b Hk'. case_decide as Hd.
  - subst k'. rewrite lookup_insert_eq in Hk'. injection Hk' as <-. done.
  - rewrite lookup_insert_ne in Hk' by done. destruct (H k' b Hk') as (H0' & Hr1 & Hp1).
    split; [done|]. split; [|done]. eapply refines_frame; [|exact Hr1]. intros name. apply HF.
    intros Hin%in_dir_prefix. revert Hin. by eapply part_dir_ne; [..|apply in_dir_child].
Qed.

(** ** Closing *)

(** The stores [ps] are open on the partitions of a topic. *)
Definition with_topic (name : string) (ps : list Store) (o : part → option Store)
    : part → option Store :=
  fun k => if decide (fst k = name) then ps !! Z.to_nat (snd k) else o k.

(** All these partitions are known. *)
Definition topic_parts (name : string) (n : nat) (logs : logs_of) : Prop :=
  ∀ i, (i < n)%nat → is_Some (logs !! (name, Z.of_nat i)).

Lemma topic_parts_reach T name n logs logs' :
  topic_parts name n logs → all_reach sync T logs logs' → topic_parts name n logs'.
Proof. intros H Hr i Hi. rewrite <- (all_reach_is_Some sync T logs); auto. Qed.

Lemma with_topic_insert name pre p post o p' k :
  0 <= snd k →
  with_topic name (pre ++ p' :: post) o k
  = if decide (k = (name, Z.of_nat (length pre))) then Some p'
    else with_topic name (pre ++ p :: post) o k.
Proof.
  destruct k as [t i]. simpl. intros Hi. unfold with_topic. simpl.
  destruct (decide (t = name)) as [->|Hne]; case_decide as Hd.
  - injection Hd as ->. by rewrite Nat2Z.id, list_lookup_middle.
  - assert (Z.to_nat i ≠ length pre) as Hne by (intros Heq; apply Hd; f_equal; lia).
    destruct (Nat.lt_ge_cases (Z.to_nat i) (length pre)).
    + by rewrite !lookup_app_l.
    + rewrite !lookup_app_r by lia. by destruct (Z.to_nat i - length pre)%nat eqn:E; [lia|].
  - congruence.
  - done.
Qed.

Lemma with_faults_id w : with_faults (w_faults w) w = w.
Proof. by destruct w. Qed.

(** One partition of a topic is closed. *)
Lemma close_one name pre p post o w logs r p' w' :
  family (with_topic name (pre ++ p :: post) o) w logs →
  topic_parts name (length (pre ++ p :: post)) logs → Store_Close (p, w) = (r, (p', w')) →
  ∃ l', let logs' := <[(name, Z.of_nat (length pre)) := (Closed, l')]> logs in
    all_reach sync is_close logs logs' ∧ unmoved logs w w'
    ∧ family (with_topic name (pre ++ p' :: post) o) w' logs'.
Proof.
  intros H Hn E. set (k := (name, Z.of_nat (length pre))).
  destruct (Hn (length pre)) as [a Ha]; [rewrite length_app; simpl; lia|]. fold k in Ha.
  assert (with_topic name (pre ++ p :: post) o k = Some p) as Hp.
  { unfold with_topic, k. simpl. by rewrite decide_True, Nat2Z.id, list_lookup_middle. }
  destruct (family_step _ _ _ k a (CClose r) (Some p') w' H Ha) as (a' & Hst & Hu & Hr & Hf); [done| |].
  { rewrite Hp. apply (p_close _ _ _ _ _ _ _ (w_faults w)). by rewrite with_faults_id. }
  assert (∃ l', a' = (Closed, l')) as [l' ->] by (inversion Hst; eauto).
  exists l'. split; [by apply (all_reach_insert _ _ _ k a (CClose r))|]. split; [done|].
  eapply family_ext; [exact Hf|]. intros k' _ Hk'. simpl. by apply with_topic_insert.
Qed.

(** These logs are closed. *)
Definition closed_parts (name : string) (from n : nat) (logs : logs_of) : Prop :=
  ∀ i, (from <= i < from + n)%nat → ∃ l, logs !! (name, Z.of_nat i) = Some (Closed, l).

Lemma closed_stays l a : reaches sync is_close (Closed, l) a → ∃ l', a = (Closed, l').
Proof.
  intros (tr & HT & Htr). remember (Closed, l) as a0 eqn:E. revert l E.
  induction Htr as [a1|a1 c a2 tr a3 Hst Htr IH]; intros l ->; [eauto|].
  apply Forall_cons in HT as [Hc HT]. destruct c; try done.
  assert (∃ l1, a2 = (Closed, l1)) as [l1 ->] by (inversion Hst; eauto). eauto.
Qed.

Lemma close_reach_closed k l logs logs' :
  all_reach sync is_close logs logs' → logs !! k = Some (Closed, l) →
  ∃ l', logs' !! k = Some (Closed, l').
Proof.
  intros H Hk. specialize (H k). rewrite Hk in H. inversion H as [x a Hr Hx|]; subst.
  apply closed_stays in Hr as [l' ->]. eauto.
Qed.

Lemma close_logs_family name todo pre o w logs todo' err w' :
  family (with_topic name (pre ++ todo) o) w logs → topic_parts name (length (pre ++ todo)) logs →
  close_logs todo w = (todo', err, w') →
  length todo' = length todo
  ∧ ∃ logs', all_reach sync is_close logs logs' ∧ unmoved logs w w'
    ∧ closed_parts name (length pre) (length todo) logs'
    ∧ family (with_topic name (pre ++ todo') o) w' logs'.
Proof.
  revert pre w logs todo' err w'. induction todo as [|p todo IH]; intros pre w logs todo' err w' H Hn E.
  - injection E as <- <- <-. split; [done|]. exists logs. split; [apply all_reach_refl|].
    split; [apply unmoved_refl|]. split; [|done]. intros i Hi. simpl in Hi. lia.
  - cbn [close_logs] in E. change (partition.Close (p, w)) with (Store_Close (p, w)) in E.
    destruct (Store_Close (p, w)) as [r [p1 w1]] eqn:E1.
    destruct (close_logs todo w1) as [[todo1 err1] w2] eqn:E2. injection E as <- <- <-.
    destruct (close_one _ _ _ _ _ _ _ _ _ _ H Hn E1) as (l1 & Hr1 & Hu1 & Hf1).
    change (p1 :: todo) with ([p1] ++ todo) in Hf1. rewrite app_assoc in Hf1.
    assert (length ((pre ++ [p1]) ++ todo) = length (pre ++ p :: todo)) as Hlen
      by (rewrite !length_app; simpl; lia).
    destruct (IH (pre ++ [p1]) _ _ todo1 err1 w2 Hf1) as (Hl & logs' & Hr2 & Hu2 & Hc & Hf2);
      [rewrite Hlen; by eapply topic_parts_reach|exact E2|].
    split; [by simpl; rewrite Hl|]. exists logs'.
    split; [by eapply all_reach_trans|]. split; [by eapply unmoved_next|].
    rewrite length_app in Hc. simpl in Hc. rewrite <- app_assoc in Hf2. split; [|done].
    intros i Hi. destruct (decide (i = length pre)) as [->|Hne]; [|apply Hc; simpl in Hi; lia].
    eapply close_reach_closed; [exact Hr2|]. apply lookup_insert_eq.
Qed.

(** The stores that a registry of topics holds. *)
Definition stores_of (ts : gmap string Topic) : part → option Store :=
  fun k => ts !! fst k ≫= fun t => t_partitions t !! Z.to_nat (snd k).

(** The topics of a list take the place of those in [o]. *)
Definition overlay (l : list (string * Topic)) (o : part → option Store) : part → option Store :=
  fun k => match (list_to_map l : gmap string Topic) !! fst k with
           | Some t => t_partitions t !! Z.to_nat (snd k)
           | None => o k
           end.

(** The topic keeps its name and its number of partitions. *)
Definition same_shape (x y : string * Topic) : Prop :=
  fst x = fst y ∧ length (t_partitions (snd x)) = length (t_partitions (snd y)).

Lemma same_shape_names l l' : Forall2 same_shape l l' → l'.*1 = l.*1.
Proof. induction 1 as [|x y l l' [H _] _ IH]; [done|]. csimpl. congruence. Qed.

Lemma overlay_cons name t l o k :
  name ∉ l.*1 → overlay ((name, t) :: l) o k = overlay l (with_topic name (t_partitions t) o) k.
Proof.
  intros Hn. unfold overlay, with_topic. simpl. destruct (decide (fst k = name)) as [->|Hne].
  - rewrite lookup_insert_eq. by rewrite not_elem_of_list_to_map_1.
  - by rewrite lookup_insert_ne.
Qed.

Lemma close_topics_family l o w logs l' err w' :
  NoDup l.*1 → family (overlay l o) w logs →
  (∀ name t, (name, t) ∈ l → topic_parts name (length (t_partitions t)) logs) →
  close_topics l w = (l', err, w') →
  Forall2 same_shape l l'
  ∧ ∃ logs', all_reach sync is_close logs logs' ∧ unmoved logs w w' ∧ family (overlay l' o) w' logs'
    ∧ ∀ name t, (name, t) ∈ l → closed_parts name 0 (length (t_partitions t)) logs'.
Proof.
  revert o w logs l' err w'. induction l as [|[name t] l IH]; intros o w logs l' err w' Hnd H Hk E.
  - injection E as <- <- <-. split; [constructor|]. exists logs. split; [apply all_reach_refl|].
    split; [apply unmoved_refl|]. split; [done|]. intros ? ? []%elem_of_nil.
  - apply NoDup_cons in Hnd as [Hnin Hnd]. cbn [close_topics] in E.
    destruct (close_logs (t_partitions t) w) as [[ps err1] w1] eqn:E1.
    destruct (close_topics l w1) as [[l1 err2] w2] eqn:E2. injection E as <- <- <-.
    assert (family (with_topic name (t_partitions t) (overlay l o)) w logs) as H1.
    { eapply family_ext; [exact H|]. intros [nm i] _ _. unfold with_topic, overlay. simpl.
      destruct (decide (nm = name)) as [->|Hne]; [by rewrite lookup_insert_eq|].
      by rewrite lookup_insert_ne. }
    destruct (close_logs_family name (t_partitions t) [] _ _ _ ps err1 w1 H1)
      as (Hlen & logs1 & Hr1 & Hu1 & Hc1 & Hf1); [apply Hk; by constructor|done|].
    simpl in Hf1, Hc1.
    assert (family (overlay l (with_topic name ps o)) w1 logs1) as H2.
    { eapply family_ext; [exact Hf1|]. intros [nm i] _ _. unfold with_topic, overlay. simpl.
      destruct (decide (nm = name)) as [->|Hne]; [|done]. by rewrite not_elem_of_list_to_map_1. }
    destruct (IH _ _ _ l1 err2 w2 Hnd H2) as (Hs & logs2 & Hr2 & Hu2 & Hf2 & Hc2); [|done|].
    { intros nm tp Hin. eapply topic_parts_reach; [|exact Hr1]. apply Hk. by constructor. }
    split; [constructor; [by split|done]|]. exists logs2.
    split; [by eapply all_reach_trans|]. split; [by eapply unmoved_next|]. split.
    + eapply family_ext; [exact Hf2|]. intros k _ _.
      rewrite overlay_cons by (by rewrite (same_shape_names _ _ Hs)). done.
    + intros nm tp [[= -> ->]|Hin]%elem_of_cons; [|by apply Hc2].
      intros i Hi. destruct (Hc1 i Hi) as [li Hli]. by eapply close_reach_closed.
Qed.

(** [Manager_Close] closes every partition of the registry. *)
Lemma Manager_Close_family m w logs r m' w' :
  family (stores_of (m_topics m)) w logs →
  (∀ name t, m_topics m !! name = Some t → topic_parts name (length (t_partitions t)) logs) →
  Manager_Close (m, w) = (r, (m', w')) →
  (∃ ts, m' = m_with_topics ts m
     ∧ map_Forall2 (fun _ t t' => length (t_partitions t) = length (t_partitions t')) (m_topics m) ts)
  ∧ ∃ logs', all_reach sync is_close logs logs' ∧ unmoved logs w w'
    ∧ family (stores_of (m_topics m')) w' logs'
    ∧ ∀ name t, m_topics m !! name = Some t → closed_parts name 0 (length (t_partitions t)) logs'.
Proof.
  intros H Hk E. unfold Manager_Close in E.
  destruct (close_topics _ w) as [[l err] w1] eqn:E1. injection E as _ <- <-.
  assert (∀ k, overlay (map_to_list (m_topics m)) (stores_of (m_topics m)) k
    = stores_of (m_topics m) k) as Hov.
  { intros k. unfold overlay, stores_of. rewrite list_to_map_to_list.
    by destruct (m_topics m !! fst k). }
  destruct (close_topics_family (map_to_list (m_topics m)) (stores_of (m_topics m)) w logs l err w1)
    as (Hs & logs' & Hr & Hu & Hf & Hc); [apply NoDup_fst_map_to_list| | |done|].
  { eapply family_ext; [exact H|]. intros k _ _. apply Hov. }
  { intros name t Hin%elem_of_map_to_list. by apply Hk. }
  assert (map_Forall2 (fun _ t t' => length (t_partitions t) = length (t_partitions t'))
    (m_topics m) (list_to_map l : gmap string Topic)) as Hshape.
  { rewrite <- (list_to_map_to_list (m_topics m)) at 1. clear -Hs. intros name.
    induction Hs as [|[n1 t1] [n2 t2] l1 l2 [Hn Hl] Hs IH]; [constructor|]. simpl in *. subst n2.
    destruct (decide (n1 = name)) as [->|Hne]; [rewrite !lookup_insert_eq; by constructor|].
    by rewrite !lookup_insert_ne. }
  split; [by eexists|]. exists logs'. split; [done|]. split; [done|]. split.
  - eapply family_ext; [exact Hf|]. intros k _ _. unfold stores_of, overlay. simpl.
    specialize (Hshape (fst k)). destruct (list_to_map l !! fst k); [done|].
    by inversion Hshape.
  - intros name t Ht. apply Hc. by apply elem_of_map_to_list.
Qed.

(** ** Giving stores up *)

(** The process no longer uses some of its stores. *)
Lemma family_stop o o' w logs :
  family o w logs → (∀ k, o' k = o k ∨ o' k = None) →
  ∃ logs', all_reach sync is_startup logs logs' ∧ family o' w logs'.
Proof.
  intros H Ho.
  exists (map_imap (fun k a => Some (match o' k with Some _ => a | None => (Down, snd a) end)) logs). split.
  - intros k. rewrite map_lookup_imap. destruct (logs !! k) as [[p l]|] eqn:Hk; [|constructor].
    simpl. constructor. destruct (H k _ Hk) as (_ & Hr & _).
    destruct (o' k); [apply reaches_refl|]. destruct (decide (p = Down)) as [->|Hp]; [apply reaches_refl|].
    exists [CStop]. split; [by apply Forall_singleton|]. apply asteps_one. by constructor.
  - intros k a Hk. rewrite map_lookup_imap in Hk. destruct (logs !! k) as [a0|] eqn:Hk0; [|done].
    simpl in Hk. injection Hk as <-. destruct (H k _ Hk0) as (H0 & Hr & Hp). split; [done|].
    destruct (Ho k) as [Heq|Heq]; destruct (o' k) as [s|] eqn:Es; try done;
      try rewrite <- Heq in Hr; try rewrite <- Heq in Hp; [done|..];
      (split; [|done]); by apply refines_stored in Hr.
Qed.

Lemma all_reach_startup (T : call → Prop) l1 l2 :
  (∀ c, T c → is_startup c) → all_reach sync T l1 l2 → all_reach sync is_startup l1 l2.
Proof. intros HT H. by eapply all_reach_weaken. Qed.
Lemma close_is_startup c : is_close c → is_startup c.
Proof. by destruct c. Qed.
Lemma open_is_startup c : is_open c → is_startup c.
Proof. by intros ->. Qed.

Lemma family_none_down w logs : family (fun _ => None) w logs → all_down logs.
Proof. intros H k [p l] Hk. destruct (H _ _ Hk) as (_ & Hr & _). by destruct p. Qed.

(** ** Crashes *)

(** Each log takes a step of its own. *)
Lemma logs_choice (R : part → phase * alog → phase * alog → Prop) (logs : logs_of) :
  (∀ k a, logs !! k = Some a → ∃ a', R k a a') →
  ∃ logs' : logs_of, ∀ k, option_Forall2 (R k) (logs !! k) (logs' !! k).
Proof.
  induction logs as [|k a logs Hk IH] using map_ind; intros H.
  { exists ∅. intros k. rewrite lookup_empty. constructor. }
  destruct (H k a) as [a' Ha']; [apply lookup_insert_eq|].
  destruct IH as [logs' Hlogs'].
  { intros k' b Hk'. apply (H k'). rewrite lookup_insert_ne; [done|]. intros ->. congruence. }
  exists (<[k := a']> logs'). intros k'. destruct (decide (k = k')) as [<-|Hne].
  - rewrite !lookup_insert_eq. by constructor.
  - rewrite !lookup_insert_ne by done. apply Hlogs'.
Qed.

Lemma family_crash o w logs F' :
  family o w logs → crashed (w_files w) F' →
  ∃ logs', all_reach sync is_crash logs logs' ∧ family (fun _ => None) (set_files F' w) logs'.
Proof.
  intros H Hcr.
  destruct (logs_choice (fun k a a' => astep sync a CCrash a'
    ∧ refines (part_dir k) maxB mode (None, set_files F' w) a') logs) as [logs' Hl].
  { intros k a Hk. destruct (H k a Hk) as (_ & Hr & _). exact (crash_step _ _ _ _ _ _ _ eq_refl Hr Hcr). }
  exists logs'. split.
  - intros k. destruct (Hl k) as [a a' [Ha _]|]; constructor. exists [CCrash].
    split; [by apply Forall_singleton|by apply asteps_one].
  - intros k a Hk. specialize (Hl k). rewrite Hk in Hl.
    inversion Hl as [a0 a1 [_ Hr] Hk0|]; subst. split; [by eapply H|by split].
Qed.

(** ** Loading *)

(** Opening does not change what a log holds. *)
Lemma open_reach l a : reaches sync is_open (Down, l) a → a = (Down, l) ∨ a = (Serving, l).
Proof.
  intros (tr & HT & Htr). inversion Htr as [|? c m tr' ? Hst Hs]; subst; [by left|]. right.
  apply Forall_cons in HT as [-> HT]. inversion Hst; subst.
  inversion Hs as [|? c m tr'' ? Hst' Hs']; subst; [done|].
  apply Forall_cons in HT as [-> HT]. inversion Hst'.
Qed.

(** All logs have been opened. *)
Lemma family_opened o w logs logs' :
  all_down logs → all_reach sync is_open logs logs' → family o w logs' →
  (∀ k, is_Some (logs !! k) → is_Some (o k)) → logs' = with_phase Serving logs.
Proof.
  intros Hd Hr Hf Ho. apply map_eq. intros k. unfold with_phase. rewrite lookup_fmap.
  specialize (Hr k). destruct (logs !! k) as [[p l]|] eqn:Hk; [|by inversion Hr].
  pose proof (Hd _ _ Hk) as Hp. simpl in Hp. subst p.
  inversion Hr as [x a' Ha Hx Hk'|]; subst. simpl. f_equal.
  apply open_reach in Ha as [->| ->]; [|done]. exfalso.
  destruct (Hf k (Down, l)) as (_ & Hrf & _); [done|].
  destruct (Ho k) as [s Hs]; [by rewrite Hk|]. by rewrite Hs in Hrf.
Qed.

Lemma with_topic_snoc name ps s o k :
  0 <= snd k →
  with_topic name (ps ++ [s]) o k
  = if decide (k = (name, Z.of_nat (length ps))) then Some s else with_topic name ps o k.
Proof.
  destruct k as [t i]. simpl. intros Hi. unfold with_topic. simpl.
  destruct (decide (t = name)) as [->|Hne]; case_decide as Hd; [|..|congruence|done].
  - injection Hd as ->. rewrite Nat2Z.id. by apply list_lookup_middle.
  - assert (Z.to_nat i ≠ length ps) as Hne by (intros Heq; apply Hd; f_equal; lia).
    destruct (Nat.lt_ge_cases (Z.to_nat i) (length ps)); [by rewrite lookup_app_l|].
    rewrite lookup_app_r, (lookup_ge_None_2 ps) by lia. apply lookup_ge_None_2. simpl. lia.
Qed.

Lemma open_one name ps o w logs r w' :
  family (with_topic name ps o) w logs → topic_parts name (S (length ps)) logs →
  OpenStore (partition.dir dataDir name (N.of_nat (length ps))) segMax maxB interval mode w
    = (r, w') →
  unmoved logs w w'
  ∧ ((∃ s logs', r = Ok s ∧ all_reach sync is_open logs logs'
        ∧ family (with_topic name (ps ++ [s]) o) w' logs')
     ∨ (r = Err ErrIO ∧ family (with_topic name ps o) w' logs)).
Proof.
  intros H Hn E. set (k := (name, Z.of_nat (length ps))).
  destruct (Hn (length ps)) as [a Ha]; [lia|]. fold k in Ha.
  assert (with_topic name ps o k = None) as Hk.
  { unfold with_topic, k. simpl. rewrite decide_True, Nat2Z.id by done. by apply lookup_ge_None_2. }
  assert (part_dir k = partition.dir dataDir name (N.of_nat (length ps))) as Hdir
    by (unfold part_dir, k; simpl; f_equal; lia).
  destruct (H k a Ha) as (_ & Hr & _). rewrite Hk in Hr. destruct a as [[] l]; try done.
  assert (r = Err ErrIO ∨ ∃ s, r = Ok s) as Hres.
  { rewrite Hdir in Hr. destruct (OpenStore_runs _ _ _ interval mode _ _ _ w Hr maxB_small
      segMax_small _ _ E) as (_ & [(s & -> & _)|(-> & _)]); eauto. }
  destruct (family_step _ _ _ k _ (COpen (is_ok r)) (match r with Ok s => Some s | _ => None end) w'
    H Ha) as (a' & Hst & Hu & Hr' & Hf); [done| |].
  { rewrite Hk, Hdir. apply (p_open _ _ _ _ _ _ (w_faults w)). by rewrite with_faults_id. }
  split; [done|]. destruct Hres as [->|[s ->]]; simpl in *.
  - right. split; [done|]. inversion Hst; subst. rewrite insert_id in Hf by done.
    eapply family_ext; [exact Hf|]. intros k' _ _. simpl. case_decide; [by subst|done].
  - left. exists s, (<[k := a']> logs). split; [done|].
    split; [by apply (all_reach_insert _ _ _ k (Down, l) (COpen true))|].
    eapply family_ext; [exact Hf|]. intros k' _ H0. simpl. by apply with_topic_snoc.
Qed.

Definition configured (m : Manager) : Prop :=
  m_dataDir m = dataDir ∧ m_segmentMaxBytes m = segMax ∧ m_maxBatchBytes m = maxB
  ∧ m_indexIntervalBytes m = interval ∧ m_flushMode m = mode.

Lemma fs_stat_dir_files d w r w' :
  fs_stat_dir d w = (r, w') → w_files w' = w_files w ∧ r ≠ Panic.
Proof.
  intros H. unfold fs_stat_dir in H. pop_outcome H x w1 HF HQ HS.
  destruct x; [case_bool_decide|]; by injection H as <- <-.
Qed.

Lemma files_unmoved logs w w' : w_files w' = w_files w → unmoved logs w w'.
Proof. intros HF q _. by rewrite HF. Qed.

(** The partitions of a topic are opened, or those that were are closed again. *)
Definition load_result (name : string) (o : part → option Store) (w : World) (logs : logs_of)
    (r : res (list Store)) (w' : World) : Prop :=
  unmoved logs w w'
  ∧ ((∃ ps logs', r = Ok ps ∧ all_reach sync is_open logs logs'
        ∧ family (with_topic name ps o) w' logs')
     ∨ (∃ e ps logs', r = Err e ∧ all_reach sync is_startup logs logs'
          ∧ family (with_topic name ps o) w' logs')).

Lemma load_result_after name o w w1 logs logs1 r w' :
  unmoved logs w w1 → all_reach sync is_open logs logs1 → load_result name o w1 logs1 r w' →
  load_result name o w logs r w'.
Proof.
  intros Hu Hr [Hu' Hres]. split; [by eapply unmoved_next|].
  destruct Hres as [(ps & logs' & -> & Hr' & Hf)|(e & ps & logs' & -> & Hr' & Hf)];
    [left; exists ps, logs'|right; exists e, ps, logs']; (split; [done|]; split; [|done]);
    (eapply all_reach_trans; [|exact Hr']); [done|].
  eapply all_reach_startup, Hr; apply open_is_startup.
Qed.

Lemma abandon_result name ps o w logs e :
  family (with_topic name ps o) w logs → topic_parts name (length ps) logs →
  load_result name o w logs (Err e) (snd (close_logs ps w)).
Proof.
  intros H Hn. destruct (close_logs ps w) as [[ps' err] w2] eqn:Ec.
  destruct (close_logs_family name ps [] o w logs ps' err w2 H) as (_ & logs' & Hr & Hu & _ & Hf);
    [done..|]. split; [done|]. right. exists e, ps', logs'. split; [done|]. split; [|done].
  eapply all_reach_startup, Hr; apply close_is_startup.
Qed.

Lemma load_partitions_family m name n ps o w logs r w' :
  configured m → family (with_topic name ps o) w logs → topic_parts name (length ps + n) logs →
  load_partitions m name n (N.of_nat (length ps)) ps w = (r, w') →
  load_result name o w logs r w'.
Proof.
  intros (Hc1 & Hc2 & Hc3 & Hc4 & Hc5). revert ps w logs r w'.
  induction n as [|n IH]; intros ps w logs r w' H Hn E; cbn [load_partitions] in E.
  { injection E as <- <-. split; [apply unmoved_refl|]. left. exists ps, logs.
    split; [done|]. split; [apply all_reach_refl|done]. }
  rewrite Hc1, Hc2, Hc3, Hc4, Hc5 in E.
  unfold bind at 1, attempt at 1 in E.
  destruct (fs_stat_dir _ w) as [st w1] eqn:Est. apply fs_stat_dir_files in Est as [HF1 Hnp].
  assert (family (with_topic name ps o) w1 logs) as H1
    by (eapply family_frame; [exact H|]; intros; by rewrite HF1).
  apply (load_result_after _ _ _ w1 _ logs); [by apply files_unmoved|apply all_reach_refl|].
  assert (topic_parts name (length ps) logs) as Hn0 by (intros i Hi; apply Hn; lia).
  assert (∀ r w', (bind (attempt (partition.NewLog name (N.of_nat (length ps)) dataDir segMax maxB
      interval mode)) (fun r => match r with
      | Ok p => load_partitions m name n (N.of_nat (length ps) + 1) (ps ++ [p])
      | Err e => fun w => (Err e, snd (close_logs ps w)) | Panic => panic end)) w1 = (r, w') →
    load_result name o w1 logs r w') as Hgo.
  { clear E r w'. intros r w' E. unfold bind, attempt, partition.NewLog in E.
    destruct (OpenStore _ _ _ _ _ w1) as [ro w2] eqn:Eo.
    destruct (open_one name ps o w1 logs ro w2 H1) as (Hu2 & [(s & logs1 & -> & Hr1 & Hf1)|(-> & Hf1)]);
      [intros i Hi; apply Hn; lia|done|..].
    - apply (load_result_after _ _ _ w2 _ logs1); [done..|].
      replace (N.of_nat (length ps) + 1)%N with (N.of_nat (length (ps ++ [s]))) in E
        by (rewrite length_app; simpl; lia).
      apply (IH (ps ++ [s])); [done| |done]. eapply topic_parts_reach; [|exact Hr1].
      rewrite length_app. simpl. by replace (length ps + 1 + n)%nat with (length ps + S n)%nat by lia.
    - injection E as <- <-. apply (load_result_after _ _ _ w2 _ logs); [done|apply all_reach_refl|].
      by apply abandon_result. }
  destruct st as [[]|e|]; [by apply Hgo| |done].
  destruct e; first [by apply Hgo|injection E as <- <-; by apply abandon_result].
Qed.

(** *** Topics *)

Definition valid_disk_topic (name : string) (dt : DiskTopic) : Prop :=
  dt_Name dt = name ∧ topicNameRegex name = true
  ∧ 1 <= dt_PartitionCount dt <= MaxPartitionsPerTopic.

(** The stores of a registry with one more topic. *)
Lemma stores_of_insert ts name t k :
  stores_of (<[name := t]> ts) k = with_topic name (t_partitions t) (stores_of ts) k.
Proof.
  unfold stores_of, with_topic. destruct (decide (fst k = name)) as [->|Hne].
  - by rewrite lookup_insert_eq.
  - by rewrite lookup_insert_ne.
Qed.

(** A start that fails: nothing stays open. *)
Definition start_failed (w : World) (logs : logs_of) (w' : World) : Prop :=
  unmoved logs w w' ∧ ∃ logs', all_reach sync is_startup logs logs' ∧ family (fun _ => None) w' logs'.

Lemma close_start_failed m w logs r m' w' :
  family (stores_of (m_topics m)) w logs →
  (∀ name t, m_topics m !! name = Some t → topic_parts name (length (t_partitions t)) logs) →
  Manager_Close (m, w) = (r, (m', w')) → start_failed w logs w'.
Proof.
  intros H Hk E. destruct (Manager_Close_family _ _ _ _ _ _ H Hk E) as (_ & logs1 & Hr1 & Hu & Hf & _).
  split; [done|]. destruct (family_stop _ (fun _ => None) _ _ Hf) as (logs2 & Hr2 & Hf2); [by right|].
  exists logs2. split; [|done]. eapply all_reach_trans; [|exact Hr2].
  eapply all_reach_startup, Hr1; apply close_is_startup.
Qed.

Lemma start_failed_after w w1 w' logs logs1 :
  unmoved logs w w1 → all_reach sync is_startup logs logs1 → start_failed w1 logs1 w' →
  start_failed w logs w'.
Proof.
  intros Hu Hr (Hu' & logs' & Hr' & Hf). split; [by eapply unmoved_next|]. exists logs'.
  split; [by eapply all_reach_trans|done].
Qed.

Lemma with_topic_new ts name k :
  ts !! name = None → with_topic name [] (stores_of ts) k = stores_of ts k.
Proof.
  intros Hn. unfold with_topic, stores_of. case_decide as Hd; [|done]. by rewrite Hd, Hn.
Qed.

(** The partitions of a topic could not be opened: what is open is closed. *)
Lemma abandon_topics m name w w1 logs logs1 ps rc m2 w2 :
  m_topics m !! name = None → unmoved logs w w1 → all_reach sync is_startup logs logs1 →
  family (with_topic name ps (stores_of (m_topics m))) w1 logs1 →
  (∀ nm t, m_topics m !! nm = Some t → topic_parts nm (length (t_partitions t)) logs) →
  Manager_Close (m, w1) = (rc, (m2, w2)) → start_failed w logs w2.
Proof.
  intros Hnew Hu Hr Hf Hk Ec.
  destruct (family_stop _ (stores_of (m_topics m)) _ _ Hf) as (logs2 & Hr2 & Hf2).
  { intros k. rewrite <- (with_topic_new _ _ k Hnew). unfold with_topic.
    case_decide; [right; done|by left]. }
  apply (start_failed_after _ w1 _ _ logs2); [done|by eapply all_reach_trans|].
  eapply close_start_failed; [exact Hf2| |exact Ec]. intros nm t Ht.
  do 2 (eapply topic_parts_reach; [|eassumption]). eauto.
Qed.

(** The topics of the metadata that are still to be loaded. *)
Definition to_load (ts : list (string * DiskTopic)) (m : Manager) (logs : logs_of) : Prop :=
  ∀ name dt, (name, dt) ∈ ts → valid_disk_topic name dt ∧ m_topics m !! name = None
    ∧ topic_parts name (Z.to_nat (dt_PartitionCount dt)) logs.
Definition parts_known (m : Manager) (logs : logs_of) : Prop :=
  ∀ name t, m_topics m !! name = Some t → topic_parts name (length (t_partitions t)) logs.

Lemma to_load_next name dt ts m logs logs' t :
  NoDup ((name, dt) :: ts).*1 → to_load ((name, dt) :: ts) m logs → all_reach sync is_open logs logs' →
  to_load ts (m_with_topics (<[name := t]> (m_topics m)) m) logs'.
Proof.
  intros [Hnin _]%NoDup_cons H Hr nm d Hin. destruct (H nm d) as (Hv & Hn & Hp); [by constructor|].
  split; [done|]. split; [|by eapply topic_parts_reach]. simpl. rewrite lookup_insert_ne; [done|].
  intros ->. apply Hnin. apply list_elem_of_fmap. by exists (nm, d).
Qed.

Lemma parts_known_next name t m logs logs' :
  parts_known m logs → topic_parts name (length (t_partitions t)) logs →
  all_reach sync is_open logs logs' →
  parts_known (m_with_topics (<[name := t]> (m_topics m)) m) logs'.
Proof.
  intros H Ht Hr nm t'. simpl. intros [[<- <-]|[_ Ht']]%lookup_insert_Some;
    (eapply topic_parts_reach; [|exact Hr]); eauto.
Qed.

(** A topic of valid metadata gets to the loading of its partitions. *)
Lemma load_topics_cons name dt ts m w :
  valid_disk_topic name dt →
  load_topics ((name, dt) :: ts) (m, w)
  = (let* partitions := on_err (io (load_partitions m name (Z.to_nat (dt_PartitionCount dt)) 0 []))
                          Manager_Close in
     do* modify (fun m => m_with_topics
           (<[name := mkTopic (dt_Name dt) partitions (dt_Retention dt)]> (m_topics m)) m) in
     load_topics ts) (m, w).
Proof.
  intros (Hname & Hre & Hcnt). cbn [load_topics].
  rewrite bool_decide_eq_false_2, Hname, Hre by (by intros Hx; apply Hx). cbn [negb].
  destruct (Z.ltb_spec (dt_PartitionCount dt) 1); [lia|].
  by destruct (Z.ltb_spec MaxPartitionsPerTopic (dt_PartitionCount dt)); [lia|].
Qed.

Lemma load_topics_family ts m w logs r m' w' :
  configured m → NoDup ts.*1 → family (stores_of (m_topics m)) w logs →
  parts_known m logs → to_load ts m logs → load_topics ts (m, w) = (r, (m', w')) →
  (r = Ok tt ∧ configured m' ∧ unmoved logs w w'
     ∧ ∃ logs', all_reach sync is_open logs logs' ∧ family (stores_of (m_topics m')) w' logs')
  ∨ (∃ e, r = Err e ∧ start_failed w logs w').
Proof.
  revert m w logs. induction ts as [|[name dt] ts IH]; intros m w logs Hc Hnd H Hk Hts E.
  { injection E as <- <- <-. left. split; [done|]. split; [done|]. split; [apply unmoved_refl|].
    exists logs. split; [apply all_reach_refl|done]. }
  destruct (Hts name dt) as (Hv & Hnew & Hparts); [by constructor|].
  rewrite load_topics_cons in E by done.
  destruct (load_partitions m name (Z.to_nat (dt_PartitionCount dt)) 0 [] w) as [rl w1] eqn:El.
  destruct (load_partitions_family m name (Z.to_nat (dt_PartitionCount dt)) []
    (stores_of (m_topics m)) w logs rl w1 Hc)
    as (Hu & [(ps & logs1 & -> & Hr1 & Hf1)|(e & ps & logs1 & -> & Hr1 & Hf1)]); [|done|done|..].
  { eapply family_ext; [exact H|]. intros k _ _. by apply with_topic_new. }
  - pose proof (load_partitions_length _ _ _ _ _ _ _ _ El) as Hlen. simpl in Hlen.
    unfold bind at 1, on_err, io in E. rewrite El in E. unfold bind at 1, modify in E.
    set (t := mkTopic _ _ _) in E. set (m1 := m_with_topics _ m) in E.
    destruct (IH m1 w1 logs1) as [(-> & Hc' & Hu' & logs2 & Hr2 & Hf2)|(e & -> & Hsf)]; try done.
    + by apply NoDup_cons in Hnd as [_ ?].
    + eapply family_ext; [exact Hf1|]. intros k _ _. apply stores_of_insert.
    + apply (parts_known_next _ _ _ logs); [done| |done]. simpl. by rewrite Hlen.
    + by eapply to_load_next.
    + left. split; [done|]. split; [done|]. split; [by eapply unmoved_next|]. exists logs2.
      split; [by eapply all_reach_trans|done].
    + right. exists e. split; [done|]. eapply start_failed_after; [done| |exact Hsf].
      eapply all_reach_startup, Hr1; apply open_is_startup.
  - unfold bind at 1, on_err, io in E. rewrite El in E.
    destruct (Manager_Close (m, w1)) as [rc [m2 w2]] eqn:Ec. injection E as <- <- <-.
    right. exists e. split; [done|]. by eapply abandon_topics.
Qed.

End Family.
