(* ===== verification/TopicCreation.v ===== *)
(** * Creating a topic beside the others

    [open_partitions] and [rollback] (internal/topic/manager.go) seen from the partitions of
    a data directory.  The directory of a partition that no topic lists holds an empty log:
    it does not exist, or a failed creation left it.  Creating a topic opens such
    partitions; when it fails, they hold an empty log again, and in either case the other
    partitions are not touched. *)

From S2P Require Import Prelude FileSystem Runs Names Store Recovery Retention Confine LogSpec.
From S2P Require Import StoreRetention StoreRecovery StoreCrash StoreRefinement Topics TopicsSpec Isolation Grpc GrpcSpec.
From S2P Require Import ServiceSpec Family.
Open Scope Z_scope.

Section Creation.
Context (dataDir : path) (segMax maxB interval : Z) (mode : string).
Context (maxB_small : maxB < two31) (segMax_small : segMax < two63).

Abbreviation sync := (ToLower mode = "sync"%string).
Abbreviation logs_of := (gmap part (phase * alog)).
Abbreviation pdir := (part_dir dataDir).
Abbreviation fam := (family dataDir maxB mode).
Abbreviation moved_only := (unmoved dataDir).
Abbreviation closed_fam := (fam (fun _ => None)).

(** ** Partitions that no topic lists *)

Definition spare (w : World) (logs : logs_of) : Prop :=
  ∀ k, 0 <= snd k → logs !! k = None → refines (pdir k) maxB mode (None, w) (Down, empty_log).

Definition nonneg (logs : logs_of) : Prop := ∀ k, is_Some (logs !! k) → 0 <= snd k.

Lemma family_nonneg o w logs : fam o w logs → nonneg logs.
Proof. intros H k [a Ha]. by eapply H. Qed.

(** The partition is not touched by changes to the partitions of [logs]. *)
Lemma refines_unmoved logs w w' k n a :
  nonneg logs → 0 <= snd k → logs !! k = None → moved_only logs w w' →
  refines (pdir k) maxB mode (n, w) a → refines (pdir k) maxB mode (n, w') a.
Proof.
  intros Hn H0 Hk Hu. apply refines_frame. intros name. apply Hu. intros (k' & Hk' & Hp).
  revert Hp. apply (part_dir_ne dataDir k' k); [by apply Hn|done| |apply in_dir_child].
  intros ->. rewrite Hk in Hk'. by destruct Hk'.
Qed.

(** Changes to partitions that are listed, or that hold an empty log again. *)
Lemma spare_unmoved news w w' logs :
  nonneg news → moved_only news w w' →
  (∀ k, is_Some (news !! k) → logs !! k = None → refines (pdir k) maxB mode (None, w') (Down, empty_log)) →
  spare w logs → spare w' logs.
Proof.
  intros Hn Hu Hnews Hs k H0 Hk. destruct (news !! k) eqn:Hk'; [apply Hnews; [eauto|done]|].
  eapply refines_unmoved; eauto.
Qed.

Lemma spare_known w w' logs : nonneg logs → moved_only logs w w' → spare w logs → spare w' logs.
Proof.
  intros Hn Hu. apply (spare_unmoved logs); [done..|]. intros k [a Ha] Hk. congruence.
Qed.

Lemma spare_frame w w' logs :
  (∀ q, part_file dataDir q → w_files w' !! q = w_files w !! q) → spare w logs → spare w' logs.
Proof.
  intros HF Hs k H0 Hk. eapply refines_frame; [|by apply Hs]. intros name. apply HF.
  exists k. apply in_dir_prefix, in_dir_child.
Qed.

Lemma spare_dom w logs logs' :
  (∀ k, is_Some (logs !! k) → is_Some (logs' !! k)) → spare w logs → spare w logs'.
Proof.
  intros Hd Hs k H0 Hk. apply Hs; [done|]. apply eq_None_not_Some. intros Hx%Hd.
  rewrite Hk in Hx. by destruct Hx.
Qed.

Lemma spare_reach T w logs logs' : all_reach sync T logs logs' → spare w logs → spare w logs'.
Proof. intros Hr. apply spare_dom. intros k. by apply (all_reach_is_Some sync T logs logs'). Qed.

(** The partitions that moved are those of a later state. *)
Lemma spare_moved T w w' logs logs' :
  all_reach sync T logs logs' → nonneg logs' → moved_only logs' w w' → spare w logs → spare w' logs.
Proof.
  intros Hr Hn Hu. apply (spare_unmoved logs'); [done..|]. intros k Hk%(all_reach_is_Some _ _ _ _ _ Hr) Hk'.
  rewrite Hk' in Hk. by destruct Hk.
Qed.

Lemma spare_crash w logs F' : spare w logs → crashed (w_files w) F' → spare (set_files F' w) logs.
Proof.
  intros Hs Hcr k H0 Hk.
  destruct (crash_step _ _ _ _ _ _ _ eq_refl (Hs k H0 Hk) Hcr) as (a' & Ha & Hr).
  inversion Ha as [| | | | | | | | | | |? ? n Hn Hd| |]; subst. simpl in Hn.
  assert (n = 0%nat) as -> by lia. exact Hr.
Qed.

(** ** Families side by side *)

Lemma family_unmoved o w w' logs news :
  nonneg news → logs ##ₘ news → moved_only news w w' → fam o w logs → fam o w' logs.
Proof.
  intros Hn Hd Hu H k a Hk. destruct (H k a Hk) as (H0 & Hr & Hp). split; [done|]. split; [|done].
  eapply refines_unmoved; [exact Hn|done| |exact Hu|done]. by eapply map_disjoint_Some_l.
Qed.

Lemma family_union o w l1 l2 : fam o w l1 → fam o w l2 → fam o w (l1 ∪ l2).
Proof. intros H1 H2 k a [Hk|[_ Hk]]%lookup_union_Some_raw; eauto. Qed.

Lemma new_family w logs name count :
  spare w logs → (∀ i, logs !! (name, i) = None) → closed_fam w (topic_logs Down name count).
Proof.
  intros Hs Hn [t i] a Ha. apply topic_logs_lookup in Ha as (Ht & Hi & ->). simpl in Ht, Hi. subst t.
  split; [simpl; lia|]. split; [|done]. apply Hs; [simpl; lia|apply Hn].
Qed.

Lemma topic_logs_nonneg p name count : nonneg (topic_logs p name count).
Proof. intros k [a Ha]. apply topic_logs_lookup in Ha as (_ & ? & _). lia. Qed.

Lemma topic_logs_parts p name count n :
  Z.of_nat n <= count → topic_parts name n (topic_logs p name count).
Proof. intros Hn i Hi. eexists. apply topic_logs_is_Some. lia. Qed.

Lemma topic_logs_phase p name count : with_phase p (topic_logs Down name count) = topic_logs p name count.
Proof.
  apply map_eq. intros [t i]. unfold with_phase. rewrite lookup_fmap.
  destruct (topic_logs Down name count !! (t, i)) as [a|] eqn:Ha; simpl.
  - apply topic_logs_lookup in Ha as (Ht & Hi & ->). simpl in Ht. subst t. symmetry.
    by apply topic_logs_is_Some.
  - symmetry. apply eq_None_not_Some. intros [a Hb]. apply topic_logs_lookup in Hb as (Ht & Hi & _).
    simpl in Ht. subst t. by rewrite topic_logs_is_Some in Ha.
Qed.

(** ** What a start-up sequence does to an empty log *)

Lemma startup_empty a a' : reaches sync is_startup a a' → snd a = empty_log → snd a' = empty_log.
Proof.
  intros (tr & HT & Htr). induction Htr as [a|a c b tr d Hst Hs IH]; intros He; [done|].
  apply Forall_cons in HT as [Hc HT]. apply IH; [done|]. destruct a as [p l]. simpl in He. subst l.
  destruct c; try done; inversion Hst; subst; done.
Qed.

Lemma startup_restores news logs :
  all_down news → (∀ k a, news !! k = Some a → snd a = empty_log) →
  all_reach sync is_startup news logs → all_down logs → logs = news.
Proof.
  intros Hd He Hr Hd'. apply map_eq. intros k. specialize (Hr k).
  destruct (news !! k) as [[p l]|] eqn:Hk; [|by inversion Hr].
  inversion Hr as [x [p' l'] Hreach Hx Hk'|]; subst. f_equal. symmetry in Hk'.
  pose proof (Hd _ _ Hk) as H1. pose proof (Hd' _ _ Hk') as H2. simpl in H1, H2. subst p p'.
  pose proof (He _ _ Hk) as He1. pose proof (startup_empty _ _ Hreach He1) as He2. simpl in *. congruence.
Qed.

(** ** Rollback *)

Section Removal.
Context (logs : logs_of) (all_empty : ∀ k a, logs !! k = Some a → snd a = empty_log).

Lemma remove_all_family k w r w' :
  closed_fam w logs → is_Some (logs !! k) → fs_remove_all (pdir k) w = (r, w') →
  moved_only logs w w' ∧ closed_fam w' logs.
Proof.
  intros H Hk E. unfold fs_remove_all in E. pop_outcome E x w1 HF HQ HS. destruct x; injection E as <- <-.
  2:{ split; [by apply files_unmoved|]. eapply family_frame; [exact H|]. intros; by rewrite HF. }
  assert (∀ q, ¬ pdir k `prefix_of` q →
    filter (fun x : path * file => ¬ pdir k `prefix_of` fst x) (w_files w1) !! q = w_files w !! q) as Hkeep.
  { intros q Hq. rewrite map_lookup_filter, HF. destruct (w_files w !! q); [|done]. simpl.
    by rewrite option_guard_True. }
  split.
  - intros q Hq. simpl. apply Hkeep. intros Hp. apply Hq. by exists k.
  - intros k' a Hk'. destruct (H _ _ Hk') as (H0 & Hr & Hp). split; [done|]. split; [|done].
    destruct (decide (k' = k)) as [->|Hne].
    + pose proof (all_empty _ _ Hk') as He. destruct a as [[] l]; simpl in Hr, He; try done. subst l.
      right. split; [|done]. intros b _. simpl. rewrite !map_lookup_filter.
      split; (destruct (w_files w1 !! _); [simpl|done]); rewrite option_guard_False; try done;
        intros Hx; apply Hx; apply prefix_app_r; done.
    + eapply refines_frame; [|exact Hr]. intros name. simpl. apply Hkeep.
      eapply part_dir_ne; [|exact H0|by symmetry|apply in_dir_child]. destruct Hk as [b Hb]. by eapply H.
Qed.

Lemma remove_dirs_family ds w :
  closed_fam w logs → Forall (fun d => ∃ k, is_Some (logs !! k) ∧ d = pdir k) ds →
  moved_only logs w (snd (remove_dirs ds w)) ∧ closed_fam (snd (remove_dirs ds w)) logs.
Proof.
  revert w. induction ds as [|d ds IH]; intros w H Hds; cbn [remove_dirs]; [split; [apply unmoved_refl|done]|].
  apply Forall_cons in Hds as [(k & Hk & ->) Hds]. unfold bind, ignore at 1 2.
  destruct (fs_remove_all (pdir k) w) as [r w1] eqn:E.
  destruct (remove_all_family _ _ _ _ H Hk E) as [Hu H1]. cbn [fst snd].
  destruct (IH w1 H1 Hds) as [Hu' H']. split; [by eapply unmoved_trans|done].
Qed.

End Removal.

Lemma partition_dirs_known name count n :
  Z.of_nat n <= count →
  Forall (fun d => ∃ k, is_Some (topic_logs Down name count !! k) ∧ d = pdir k)
    (partition_dirs dataDir name n).
Proof.
  intros Hn. apply Forall_forall. intros d Hd. apply list_elem_of_fmap in Hd as (i & -> & Hi).
  apply elem_of_seq in Hi. exists (name, Z.of_nat i). split; [apply (topic_logs_parts _ _ _ n); [done|lia]|].
  unfold part_dir. simpl. f_equal. lia.
Qed.

Lemma fs_remove_dir_files d w : w_files (snd (fs_remove_dir d w)) = w_files w.
Proof.
  unfold fs_remove_dir. destruct (next_outcome w) as [o w1] eqn:E.
  apply next_outcome_spec in E as (HF & _ & _). destruct o; [case_bool_decide|]; done.
Qed.

(** Nothing of the topic stays open, and its partitions hold empty logs. *)
Lemma rollback_family name count ps n w w0 logs :
  moved_only (topic_logs Down name count) w0 w →
  all_reach sync is_startup (topic_logs Down name count) logs →
  fam (with_topic name ps (fun _ => None)) w logs →
  Z.of_nat (length ps) <= count → Z.of_nat n <= count →
  let w' := snd (rollback dataDir name ps (partition_dirs dataDir name n) w) in
  moved_only (topic_logs Down name count) w0 w' ∧ closed_fam w' (topic_logs Down name count).
Proof.
  set (news := topic_logs Down name count). intros Hu Hr H Hps Hn w'. subst w'.
  assert (∀ k a, news !! k = Some a → snd a = empty_log) as Hempty
    by (intros k a Hk; by apply topic_logs_lookup in Hk as (_ & _ & ->)).
  assert (all_down news) as Hdown
    by (intros k a Hk; by apply topic_logs_lookup in Hk as (_ & _ & ->)).
  unfold rollback, bind. destruct (close_logs ps w) as [[ps1 err] w1] eqn:Ec.
  destruct (close_logs_family dataDir segMax maxB interval mode maxB_small segMax_small name ps []
    (fun _ => None) w logs ps1 err w1) as (_ & logs1 & Hr1 & Hu1 & _ & H1); [done| |done|].
  { eapply topic_parts_reach; [|exact Hr]. by apply topic_logs_parts. }
  destruct (family_stop _ _ _ _ (fun _ => None) _ _ H1) as (logs2 & Hr2 & H2); [by right|].
  assert (all_reach sync is_startup news logs2) as Hrs.
  { eapply all_reach_trans; [exact Hr|]. eapply all_reach_trans, Hr2.
    eapply all_reach_startup, Hr1. apply close_is_startup. }
  rewrite (startup_restores news logs2 Hdown Hempty Hrs (family_none_down _ _ _ _ _ H2)) in H2.
  assert (moved_only news w0 w1) as Hu2 by (eapply unmoved_next; [exact Hu|exact Hr|exact Hu1]).
  cbn [snd]. destruct (remove_dirs_family news Hempty (partition_dirs dataDir name n) w1 H2)
    as [Hu3 H3]; [by apply partition_dirs_known|].
  destruct (remove_dirs (partition_dirs dataDir name n) w1) as [rd w2] eqn:Ed. cbn [snd] in Hu3, H3.
  assert (rd = Ok tt) as ->.
  { clear -Ed. revert w1 Ed. induction (partition_dirs dataDir name n) as [|d ds IH]; intros w1 Ed;
      [by injection Ed as <- _|]. cbn [remove_dirs] in Ed. unfold bind, ignore in Ed. by eapply IH. }
  unfold ignore. cbn [snd]. pose proof (fs_remove_dir_files (dataDir ++ ["topics"%string; name]) w2) as HF.
  split; [eapply unmoved_trans; [exact Hu2|]; eapply unmoved_trans; [exact Hu3|by apply files_unmoved]|].
  eapply family_frame; [exact H3|]. intros. by rewrite HF.
Qed.

(** ** Opening the partitions of a new topic *)

Definition creation_result (name : string) (count : Z) (w : World) (r : res (list Store)) (w' : World)
    : Prop :=
  moved_only (topic_logs Down name count) w w'
  ∧ ((∃ ps, r = Ok ps ∧ fam (with_topic name ps (fun _ => None)) w' (topic_logs Serving name count))
     ∨ (r = Err ErrIO ∧ closed_fam w' (topic_logs Down name count))).

Lemma open_partitions_family m name count n ps w0 w logs r w' :
  configured dataDir segMax maxB interval mode m → Z.of_nat (length ps + n) = count →
  moved_only (topic_logs Down name count) w0 w →
  all_reach sync is_open (topic_logs Down name count) logs →
  fam (with_topic name ps (fun _ => None)) w logs →
  open_partitions m name n (N.of_nat (length ps)) ps (partition_dirs dataDir name (length ps)) w
    = (r, w') →
  creation_result name count w0 r w'.
Proof.
  intros (Hc1 & Hc2 & Hc3 & Hc4 & Hc5) Hn. revert ps w logs Hn.
  induction n as [|n IH]; intros ps w logs Hn Hu Hr H E; cbn [open_partitions] in E.
  { injection E as <- <-. split; [done|]. left. exists ps. split; [done|].
    rewrite <- (topic_logs_phase Serving name count).
    assert (all_down (topic_logs Down name count)) as Hd
      by (intros k a Hk; by apply topic_logs_lookup in Hk as (_ & _ & ->)).
    rewrite <- (family_opened _ _ _ _ _ _ _ Hd Hr H); [done|].
    intros [t i] [a Ha]. apply topic_logs_lookup in Ha as (Ht & Hi & _). simpl in Ht, Hi. subst t.
    unfold with_topic. simpl. rewrite decide_True by done. apply lookup_lt_is_Some. lia. }
  rewrite Hc1, Hc2, Hc3, Hc4, Hc5 in E. unfold bind at 1, on_err, partition.NewLog in E.
  assert (partition_dirs dataDir name (length ps) ++ [partition.dir dataDir name (N.of_nat (length ps))]
    = partition_dirs dataDir name (S (length ps))) as Hdirs
    by (unfold partition_dirs; by rewrite seq_S, fmap_app).
  rewrite Hdirs in E. destruct (OpenStore _ _ _ _ _ w) as [ro w1] eqn:Eo.
  destruct (open_one dataDir segMax maxB interval mode maxB_small segMax_small name ps _ w logs ro w1 H)
    as (Hu1 & [(s & logs1 & -> & Hr1 & H1)|(-> & H1)]); [|done|..].
  { eapply topic_parts_reach; [|exact Hr]. apply topic_logs_parts. lia. }
  - apply (IH (ps ++ [s]) w1 logs1); [rewrite length_app; simpl; lia|eapply unmoved_next; [exact Hu|exact Hr|exact Hu1]|
      by eapply all_reach_trans|done|].
    rewrite length_app. simpl. rewrite Nat.add_1_r, Nat2N.inj_succ, <- N.add_1_r. exact E.
  - destruct (rollback _ _ _ _ w1) as [rr w2] eqn:Er. injection E as <- <-.
    destruct (rollback_family name count ps (S (length ps)) w1 w0 logs) as [Hu2 H2];
      [eapply unmoved_next; [exact Hu|exact Hr|exact Hu1]|eapply all_reach_startup, Hr; apply open_is_startup|done|lia|lia|].
    rewrite Er in Hu2, H2. split; [done|]. by right.
Qed.

(** ** The metadata file *)

Section Metadata.
Context (Marshal : gmap string DiskTopic → bytes).
Context (Unmarshal : bytes → option (gmap string DiskTopic) →
           res (option (gmap string DiskTopic))).

Definition json_target (old : option (gmap string DiskTopic)) : Prop := old = None ∨ old = Some ∅.

(** Of encoding/json on the metadata: what Marshal wrote, Unmarshal reads back, into a nil
    or an empty map. *)
Class JsonLaws : Prop :=
  json_roundtrip : ∀ ts old, map_Forall valid_disk_topic ts → json_target old →
    Unmarshal (Marshal ts) old = Ok (Some ts).

(** The metadata file lists the topics, and is durable; without a file there are none. *)
Definition metadata_ok (F : gmap path file) (ts : gmap string DiskTopic) : Prop :=
  (F !! metadata_path dataDir = None ∧ ts = ∅)
  ∨ (∃ d, F !! metadata_path dataDir = Some (mkFile d (length d))
       ∧ ∀ old, json_target old → Unmarshal d old = Ok (Some ts)).

Lemma metadata_same F F' ts :
  F' !! metadata_path dataDir = F !! metadata_path dataDir → metadata_ok F ts → metadata_ok F' ts.
Proof. intros HF. unfold metadata_ok. by rewrite HF. Qed.

Lemma metadata_crash F F' ts : crashed F F' → metadata_ok F ts → metadata_ok F' ts.
Proof.
  intros Hcr [[Hn ->]|(d & Hd & HU)]; [left; split; [by eapply crash_none|done]|].
  right. exists d. split; [|done]. apply (crash_durable _ _ _ _ Hcr).
  - unfold data_at. by rewrite Hd.
  - eexists. split; [exact Hd|]. simpl. lia.
Qed.

Lemma metadata_unique F ts ts' : metadata_ok F ts → metadata_ok F ts' → ts = ts'.
Proof.
  intros [[Hn ->]|(d & Hd & HU)] [[Hn' ->]|(d' & Hd' & HU')]; [done|congruence..|].
  rewrite Hd in Hd'. injection Hd' as <-. 
  specialize (HU None (or_introl eq_refl)). specialize (HU' None (or_introl eq_refl)). congruence.
Qed.

Abbreviation at_metadata := (fun q => q = metadata_path dataDir ∨ q = metadata_tmp dataDir).

(** saveMetadata changes the metadata file and its temporary copy only. *)
Lemma saveMetadata_confined name dt :
  confined (fun _ : World => True) at_metadata (saveMetadata Marshal Unmarshal dataDir name dt)
    (fun _ => True).
Proof.
  assert (at_metadata (metadata_path dataDir)) as H1 by (by left).
  assert (at_metadata (metadata_tmp dataDir)) as H2 by (by right).
  unfold saveMetadata, read_metadata, replace_metadata. confine.
Qed.

Lemma read_metadata_ok ts w r w' :
  metadata_ok (w_files w) ts → read_metadata Unmarshal dataDir w = (r, w') →
  w_files w' = w_files w ∧ (r = Ok (Some ts) ∨ r = Err ErrIO).
Proof.
  intros Hm E. pose proof (read_metadata_spec _ _ _ _ _ E) as [HF _]. split; [done|]. clear HF.
  unfold read_metadata, bind at 1, attempt in E. destruct (fs_stat _ w) as [st w1] eqn:E1.
  unfold fs_stat in E1. pop_outcome E1 x w0 HF HQ HS. rewrite HF in E1.
  destruct Hm as [[Hn ->]|(d & Hd & HU)].
  { rewrite Hn in E1. destruct x; injection E1 as <- <-; injection E as <- <-; eauto. }
  rewrite Hd in E1. destruct x; injection E1 as <- <-; [|injection E as <- <-; eauto].
  unfold bind in E. destruct (fs_read_file _ w0) as [rd w2] eqn:E2. unfold fs_read_file in E2.
  pop_outcome E2 y w3 HF3 HQ3 HS3. rewrite HF3, HF, Hd in E2.
  destruct y; injection E2 as <- <-; [|injection E as <- <-; eauto]. simpl in E.
  rewrite HU in E by (by right). injection E as <- <-. eauto.
Qed.

Lemma fs_mkdir_all_files d w r w' :
  fs_mkdir_all d w = (r, w') → w_files w' = w_files w ∧ (r = Ok tt ∨ r = Err ErrIO).
Proof.
  intros H. unfold fs_mkdir_all in H. pop_outcome H o w1 HF HQ HS.
  destruct o; injection H as <- <-; auto.
Qed.

(** Saving a new topic: it is listed, or the file lists what it did. *)
Lemma saveMetadata_ok `{!JsonLaws} ts name dt w r w' :
  map_Forall valid_disk_topic ts → valid_disk_topic name dt → metadata_ok (w_files w) ts →
  saveMetadata Marshal Unmarshal dataDir name dt w = (r, w') →
  (∃ x, r = Ok x ∧ metadata_ok (w_files w') (<[name := dt]> ts))
  ∨ (r = Err ErrIO ∧ metadata_ok (w_files w') ts).
Proof.
  intros Hv Hdt Hm E. unfold saveMetadata in E. unfold bind at 1 in E.
  destruct (fs_mkdir_all _ w) as [r1 w1] eqn:E1. apply fs_mkdir_all_files in E1 as [HF1 [-> | ->]].
  2:{ injection E as <- <-. right. split; [done|]. by rewrite HF1. }
  unfold bind at 1 in E. destruct (read_metadata _ _ w1) as [r2 w2] eqn:E2. rewrite <- HF1 in Hm.
  destruct (read_metadata_ok _ _ _ _ Hm E2) as [HF2 [-> | ->]].
  2:{ injection E as <- <-. right. split; [done|]. by rewrite HF2. }
  unfold bind in E. destruct (replace_metadata _ _ w2) as [r3 w3] eqn:E3.
  apply replace_metadata_runs in E3 as (_ & [([] & -> & Hf)|(-> & _ & Ho)]).
  - unfold attempt in E. destruct (fs_sync_dir _ w3) as [r4 w4] eqn:E4.
    apply fs_sync_dir_spec in E4 as (_ & HF4 & Hr4).
    assert (metadata_ok (w_files w4) (<[name := dt]> ts)) as Hm4.
    { right. rewrite HF4. eexists. split; [exact Hf|]. intros old Hold. apply json_roundtrip; [|done].
      by apply map_Forall_insert_2. }
    left. destruct Hr4 as [->|[-> _]]; injection E as <- <-; eauto.
  - injection E as <- <-. right. split; [done|]. eapply metadata_same; [|exact Hm].
    rewrite Ho, HF2; [done|]. apply metadata_paths_ne.
Qed.

(** ** CreateTopic *)

Lemma topic_logs_opened name count :
  all_reach sync is_startup (topic_logs Down name count) (topic_logs Serving name count).
Proof.
  intros k. rewrite <- (topic_logs_phase Serving). unfold with_phase. rewrite lookup_fmap.
  destruct (topic_logs Down name count !! k) as [a|] eqn:Ha; constructor.
  apply topic_logs_lookup in Ha as (_ & _ & ->). exists [COpen true].
  split; [by apply Forall_singleton|]. apply asteps_one. constructor.
Qed.

(** The partitions of the other topics and the offset log are as before. *)
Definition creation_frame (w w' : World) : Prop :=
  ∀ q, ¬ part_file dataDir q → ¬ at_metadata q → w_files w' !! q = w_files w !! q.

Definition topic_created (m : Manager) (ts : gmap string DiskTopic) (logs : logs_of) (dt : DiskTopic)
    (t : Topic) (w' : World) : Prop :=
  t_name t = dt_Name dt ∧ blen (t_partitions t) = dt_PartitionCount dt ∧ t_retention t = dt_Retention dt
  ∧ let logs' := topic_logs Serving (dt_Name dt) (dt_PartitionCount dt) ∪ logs in
    metadata_ok (w_files w') (<[dt_Name dt := dt]> ts)
    ∧ fam (stores_of (<[dt_Name dt := t]> (m_topics m))) w' logs' ∧ spare w' logs'.

Definition not_created (m : Manager) (ts : gmap string DiskTopic) (logs : logs_of) (w' : World) : Prop :=
  metadata_ok (w_files w') ts ∧ fam (stores_of (m_topics m)) w' logs ∧ spare w' logs.

(** The new partitions join the family. *)
Lemma family_join m name ps retention w logs count :
  (∀ i, logs !! (name, i) = None) → fam (stores_of (m_topics m)) w logs →
  fam (with_topic name ps (fun _ => None)) w (topic_logs Serving name count) →
  fam (stores_of (<[name := mkTopic name ps retention]> (m_topics m))) w
    (topic_logs Serving name count ∪ logs).
Proof.
  intros Hn Hl Hnew. apply family_union.
  - eapply family_ext; [exact Hnew|]. intros k [a Ha] _. rewrite stores_of_insert. unfold with_topic.
    apply topic_logs_lookup in Ha as (-> & _ & _). by rewrite !decide_True.
  - eapply family_ext; [exact Hl|]. intros [t i] [a Ha] _. rewrite stores_of_insert. unfold with_topic.
    rewrite decide_False; [done|]. simpl. intros ->. by rewrite Hn in Ha.
Qed.

Lemma metadata_not_part : ¬ part_file dataDir (metadata_path dataDir).
Proof.
  unfold metadata_path, metadata_dir. rewrite <- app_assoc. apply short_not_part_file. simpl. lia.
Qed.
Lemma metadata_tmp_not_part : ¬ part_file dataDir (metadata_tmp dataDir).
Proof.
  unfold metadata_tmp, metadata_dir. rewrite <- app_assoc. apply short_not_part_file. simpl. lia.
Qed.

Section New.
Context (m : Manager) (ts : gmap string DiskTopic) (logs : logs_of) (name : string) (count : Z).
Context (m_conf : configured dataDir segMax maxB interval mode m).
Context (name_new : ∀ i, logs !! (name, i) = None) (count_ok : 1 <= count <= MaxPartitionsPerTopic).
Abbreviation news := (topic_logs Down name count).

Lemma logs_disjoint : logs ##ₘ news.
Proof.
  apply map_disjoint_spec. intros [t i] a b Ha Hb. apply topic_logs_lookup in Hb as (Ht & _ & _).
  simpl in Ht. subst t. by rewrite name_new in Ha.
Qed.

Lemma metadata_moved w w' ts' :
  moved_only news w w' → metadata_ok (w_files w) ts' → metadata_ok (w_files w') ts'.
Proof. intros Hu. apply metadata_same. eapply unmoved_other; [exact Hu|apply metadata_not_part]. Qed.

Lemma not_created_intro w w' :
  not_created m ts logs w → moved_only news w w' → closed_fam w' news → not_created m ts logs w'.
Proof.
  intros (Hm & Hf & Hs) Hu Hc. split; [by eapply metadata_moved|]. split.
  - eapply family_unmoved; [apply topic_logs_nonneg|apply logs_disjoint|exact Hu|done].
  - eapply spare_unmoved; [apply topic_logs_nonneg|exact Hu| |exact Hs]. intros k [a Ha] _.
    destruct (Hc _ _ Ha) as (_ & Hr & _). by apply topic_logs_lookup in Ha as (_ & _ & ->).
Qed.

(** The partitions have been opened; the files still hold what they did. *)
Lemma opened_intro w w' o :
  not_created m ts logs w → moved_only news w w' → fam o w' (topic_logs Serving name count) →
  not_created m ts logs w'.
Proof.
  intros (Hm & Hf & Hs) Hu Hc. split; [by eapply metadata_moved|]. split.
  - eapply family_unmoved; [apply topic_logs_nonneg|apply logs_disjoint|exact Hu|done].
  - eapply spare_unmoved; [apply topic_logs_nonneg|exact Hu| |exact Hs]. intros [t i] [a Ha] _.
    apply topic_logs_lookup in Ha as (Ht & Hi & _). simpl in Ht, Hi. subst t.
    destruct (Hc (name, i) (Serving, empty_log)) as (_ & Hr & _); [by apply topic_logs_is_Some|].
    exact (refines_stored _ _ _ _ _ Hr).
Qed.

Lemma save_frame dt w r w' :
  saveMetadata Marshal Unmarshal dataDir name dt w = (r, w') →
  creation_frame w w' ∧ ∀ q, part_file dataDir q → w_files w' !! q = w_files w !! q.
Proof.
  intros E. destruct (saveMetadata_confined name dt w r w' I E) as (_ & [HF _] & _).
  cbn [wld World_HasWorld] in HF. split; [intros q _ Hq; by apply HF|].
  intros q Hq. apply HF. intros [-> | ->]; [by apply metadata_not_part|by apply metadata_tmp_not_part].
Qed.

Lemma moved_frame w w' : moved_only news w w' → creation_frame w w'.
Proof. intros Hu q Hq _. by eapply unmoved_other. Qed.

Lemma creation_frame_trans w1 w2 w3 :
  creation_frame w1 w2 → creation_frame w2 w3 → creation_frame w1 w3.
Proof. intros H1 H2 q Hq Hm. by rewrite H2, H1. Qed.

Lemma CreateTopic_family `{!JsonLaws} retention w r m' w' :
  map_Forall valid_disk_topic ts → topicNameRegex name = true → m_topics m !! name = None →
  not_created m ts logs w →
  CreateTopic Marshal Unmarshal name count retention (m, w) = (r, (m', w')) →
  creation_frame w w'
  ∧ ((∃ t, r = Ok t ∧ m' = m_with_topics (<[name := t]> (m_topics m)) m
       ∧ topic_created m ts logs (mkDiskTopic name count (with_defaults m retention)) t w')
     ∨ (r = Err ErrIO ∧ m' = m ∧ not_created m ts logs w')).
Proof.
  intros Hv Hre Hnew Hnc E. unfold CreateTopic in E. rewrite Hre in E. cbn [negb] in E.
  destruct (Z.leb_spec count 0); [lia|]. destruct (Z.ltb_spec MaxPartitionsPerTopic count); [lia|].
  unfold bind at 1, get_obj in E. rewrite Hnew in E. unfold bind at 1, io in E.
  destruct (open_partitions m name (Z.to_nat count) 0 [] [] w) as [rp w1] eqn:Eo.
  pose proof Hnc as (_ & _ & Hs).
  destruct (open_partitions_family m name count (Z.to_nat count) [] w w news rp w1 m_conf)
    as (Hu & [(ps & -> & Hf)|(-> & Hc)]); [simpl; lia|apply unmoved_refl|apply all_reach_refl| |done|..].
  { eapply family_ext; [by eapply new_family|]. intros k _ _. unfold with_topic. by case_decide. }
  2:{ injection E as <- <- <-. split; [by apply moved_frame|]. right. split; [done|]. split; [done|].
      by eapply not_created_intro. }
  pose proof (open_partitions_length _ _ _ _ _ _ _ _ _ Eo) as Hlen. simpl in Hlen.
  pose proof (opened_intro _ _ _ Hnc Hu Hf) as (Hm1 & Hf1 & Hs1).
  destruct m_conf as [Hdir _]. rewrite Hdir in E. unfold bind at 1, on_err in E.
  destruct (saveMetadata _ _ _ _ _ w1) as [rs w2] eqn:Es.
  destruct (save_frame _ _ _ _ Es) as [Hfr Hsame].
  pose proof (family_frame _ _ _ _ _ w2 _ Hf1 Hsame) as Hf2.
  pose proof (family_frame _ _ _ _ _ w2 _ Hf Hsame) as Hfn2.
  pose proof (spare_frame _ w2 _ Hsame Hs1) as Hs2.
  assert (creation_frame w w2) as Hfr2 by (eapply creation_frame_trans, Hfr; by apply moved_frame).
  apply (saveMetadata_ok ts) in Es as [(x & -> & Hm2)|(-> & Hm2)]; [..|done|by split|done].
  - injection E as <- <- <-. split; [done|]. left. eexists. split; [done|]. split; [done|].
    split; [done|]. split; [simpl; unfold blen; lia|]. split; [done|]. split; [done|].
    split; [by apply family_join|]. eapply spare_dom, Hs2. intros k [a Ha]. simpl.
    apply lookup_union_is_Some. eauto.
  - destruct (rollback _ _ _ _ w2) as [rr w3] eqn:Er. injection E as <- <- <-.
    destruct (rollback_family name count ps (Z.to_nat count) w2 w2 _ (unmoved_refl _ _ _)
      (topic_logs_opened name count) Hfn2) as [Hu3 Hc3]; [lia|lia|]. rewrite Er in Hu3, Hc3.
    split; [eapply creation_frame_trans; [done|by apply moved_frame]|]. right. split; [done|].
    split; [done|]. by eapply (not_created_intro w2).
Qed.

End New.
End Metadata.
End Creation.
