(* ===== verification/HttpServer.v ===== *)
(** * HTTP operations server (internal/httpserver/server.go)

    The routes that [New] registers and the answers of their handlers, and the
    methods of [Server] that the broker calls.  The profiling and metrics handlers
    are libraries: a request for them is answered by [Delegate].  [net.Listen] is
    the operating system: its result is an argument of [Bind]. *)

From S2P Require Import Prelude.
From Stdlib Require Import Strings.Ascii Strings.String.
Open Scope Z_scope.
Local Open Scope string_scope.

Record Listener := mkListener {
  l_Addr : string;
  l_closed : bool;
}.

Record HttpServer := mkHttpServer {
  h_address : string;
  (** [server.Addr] *)
  h_Addr : string;
  h_listener : option Listener;
  h_ready : bool;
  (** [http.Server.Shutdown] was called *)
  h_inShutdown : bool;
}.

Definition New_http (address : string) : HttpServer := mkHttpServer address "" None false false.

Definition h_with_listener (l : option Listener) (s : HttpServer) : HttpServer :=
  mkHttpServer (h_address s) (h_Addr s) l (h_ready s) (h_inShutdown s).
Definition SetReady (ready : bool) (s : HttpServer) : HttpServer :=
  mkHttpServer (h_address s) (h_Addr s) (h_listener s) ready (h_inShutdown s).
Definition IsReady (s : HttpServer) : bool := h_ready s.
Definition h_begin_shutdown (s : HttpServer) : HttpServer :=
  mkHttpServer (h_address s) (h_Addr s) (h_listener s) (h_ready s) true.

Definition Http_Bind (lis : res string) (s : HttpServer) : res unit * HttpServer :=
  match lis with
  | Ok addr => (Ok tt, mkHttpServer (h_address s) addr (Some (mkListener addr false))
                         (h_ready s) (h_inShutdown s))
  | _ => (Err (Errorf "failed to bind HTTP server"), s)
  end.

(** [Serve] up to the call of [server.Serve]. *)
Definition Http_Serve (s : HttpServer) : res Listener :=
  match h_listener s with
  | None => Err (Errorf "cannot serve without a bound listener")
  | Some l => Ok l
  end.

Definition Http_CloseListener (s : HttpServer) : HttpServer :=
  h_with_listener ((fun l => mkListener (l_Addr l) true) <$> h_listener s) s.

Definition Http_Address (s : HttpServer) : string :=
  match h_listener s with
  | Some l => l_Addr l
  | None => h_address s
  end.

(** ** Routes *)

Inductive Response : Type :=
  | Respond (status : Z) (contentType body : string)
  | Redirect (location : string)
  | Delegate (handler : string).

Definition StatusOK : Z := 200.
Definition StatusServiceUnavailable : Z := 503.
Definition StatusNotFound : Z := 404.

Definition quoted (s : string) : string :=
  String (ascii_of_nat 34) (s ++ String (ascii_of_nat 34) "").
Definition status_body (s : string) : string :=
  "{" ++ quoted "status" ++ ":" ++ quoted s ++ "}".

(** [http.Error]. *)
Definition http_Error (msg : string) (status : Z) : Response :=
  Respond status "text/plain; charset=utf-8" (msg ++ String (ascii_of_nat 10) "").

(** The handlers registered by [New], in order; a handler sees the server. *)
Definition routes (hasMetrics metricsEnabled pprofEnabled : bool)
    : list (string * (HttpServer → Response)) :=
  [ ("/healthz", fun _ => Respond StatusOK "application/json" (status_body "ok"));
    ("/readyz", fun s =>
       if IsReady s
       then Respond StatusOK "application/json" (status_body "ready")
       else Respond StatusServiceUnavailable "application/json" (status_body "not_ready"));
    ("/metrics", fun _ =>
       if metricsEnabled && hasMetrics then Delegate "promhttp"
       else http_Error "Metrics endpoint disabled" StatusNotFound) ]
  ++ if pprofEnabled then
       [ ("/debug/pprof/", fun _ => Delegate "pprof.Index");
         ("/debug/pprof/cmdline", fun _ => Delegate "pprof.Cmdline");
         ("/debug/pprof/profile", fun _ => Delegate "pprof.Profile");
         ("/debug/pprof/symbol", fun _ => Delegate "pprof.Symbol");
         ("/debug/pprof/trace", fun _ => Delegate "pprof.Trace") ]
     else [ ("/debug/pprof/", fun _ => http_Error "Profiling endpoint disabled" StatusNotFound) ].

(** [http.ServeMux] for a cleaned path: a pattern that ends in a slash matches every
    path below it, another pattern only itself; the longest match wins; a path
    that lacks only the final slash of a subtree is redirected; any other path
    is answered with 404. *)
Fixpoint ends_in_slash (s : string) : bool :=
  match s with
  | "" => false
  | String c "" => bool_decide (c = "/"%char)
  | String _ s => ends_in_slash s
  end.
Definition pattern_matches (pattern path : string) : bool :=
  if ends_in_slash pattern then String.prefix pattern path else String.eqb pattern path.

Fixpoint best_match {H} (path : string) (mux : list (string * H)) (best : option (string * H))
    : option (string * H) :=
  match mux with
  | [] => best
  | (pattern, h) :: mux =>
    let better := match best with
                  | None => true
                  | Some (p, _) => (String.length p <? String.length pattern)%nat
                  end in
    best_match path mux (if pattern_matches pattern path && better then Some (pattern, h) else best)
  end.

Definition serve_mux (mux : list (string * (HttpServer → Response))) (path : string)
    (s : HttpServer) : Response :=
  match best_match path mux None with
  | Some (_, h) => h s
  | None =>
    if existsb (fun r => ends_in_slash (fst r) && String.eqb (fst r) (path ++ "/")) mux
    then Redirect (path ++ "/")
    else http_Error "404 page not found" StatusNotFound
  end.

(** The answer of the server to a request for [path]. *)
Definition handle_http (hasMetrics metricsEnabled pprofEnabled : bool) (path : string)
    (s : HttpServer) : Response :=
  serve_mux (routes hasMetrics metricsEnabled pprofEnabled) path s.

(** ** What the routes reveal *)

(** The winner of the match is one of the routes, and its pattern matches. *)
Lemma best_match_some {H} path (mux : list (string * H)) best r :
  best_match path mux best = Some r →
  best = Some r ∨ r ∈ mux ∧ pattern_matches (fst r) path = true.
Proof.
  revert best. induction mux as [|[pat h] mux IH]; intros best E; simpl in E; [by left|].
  apply IH in E as [E | [Hin Hm]]; [|right; split; [by right|done]].
  destruct (pattern_matches pat path) eqn:Hp; simpl in E; [|by left].
  destruct (match best with Some _ => _ | None => _ end); [|by left].
  injection E as <-. right. split; [left|done].
Qed.

(** Every answer is that of a route, a redirect or a 404. *)
Lemma serve_mux_cases mux path s :
  (∃ r, r ∈ mux ∧ pattern_matches (fst r) path = true ∧ serve_mux mux path s = snd r s)
  ∨ serve_mux mux path s = Redirect (path ++ "/")
  ∨ serve_mux mux path s = http_Error "404 page not found" StatusNotFound.
Proof.
  unfold serve_mux. destruct (best_match path mux None) as [[pat h]|] eqn:E.
  - left. apply best_match_some in E as [E | [Hin Hm]]; [done|]. by exists (pat, h).
  - right. case_match; auto.
Qed.

(** The operations server shows exactly what it is configured to show.  The readiness
    probe answers 200 when the server is marked ready and 503 when it is not, whatever
    else is configured; and for every path, a request reaches the metrics handler only
    when metrics are enabled and present, and a profiling handler only when profiling is
    enabled. *)
Theorem http_endpoints_follow_configuration hasMetrics metricsEnabled pprofEnabled s :
  handle_http hasMetrics metricsEnabled pprofEnabled "/readyz" s
    = (if IsReady s then Respond 200 "application/json" (status_body "ready")
       else Respond 503 "application/json" (status_body "not_ready"))
  ∧ ∀ path handler,
      handle_http hasMetrics metricsEnabled pprofEnabled path s = Delegate handler →
      if bool_decide (handler = "promhttp") then metricsEnabled = true ∧ hasMetrics = true
      else pprofEnabled = true.
Proof.
  split; [by destruct hasMetrics, metricsEnabled, pprofEnabled, s as [? ? ? [] ?]|].
  intros path handler E. unfold handle_http in E.
  destruct (serve_mux_cases (routes hasMetrics metricsEnabled pprofEnabled) path s)
    as [(r & Hin & _ & Hr) | [Hr | Hr]]; rewrite Hr in E; [|done..].
  unfold routes in Hin. destruct pprofEnabled; simpl in Hin;
    repeat (apply elem_of_cons in Hin as [-> | Hin]; [simpl in E|]);
    try (by apply not_elem_of_nil in Hin); repeat case_match; simplify_eq; try done;
    try (by rewrite bool_decide_eq_false_2); by destruct metricsEnabled, hasMetrics.
Qed.
