(* ===== verification/GrpcServer.v ===== *)
(** * gRPC server wrapper (internal/grpcserver/server.go, conn_stats.go)

    The methods of [Server] around the grpc library.  A method that blocks in
    the library is split at the blocking call: [Grpc_Serve_begin] and
    [Grpc_Serve_return] around [grpcServer.Serve], [Grpc_Shutdown_begin] and the two
    ends of its select around [GracefulStop].  The health server is the table
    of statuses it was given. *)

From S2P Require Import Prelude HttpServer.
From Stdlib Require Import Strings.String.
Open Scope Z_scope.
Local Open Scope string_scope.

Inductive ServingStatus := NOT_SERVING | SERVING.

(** What the wrapper asked of [grpc.Server]: nothing yet, [GracefulStop], or [Stop]. *)
Inductive grpc_phase := Running | Draining | Stopped.

#[global] Instance grpc_phase_eq_dec : EqDecision grpc_phase.
Proof. solve_decision. Defined.

Record GrpcServer := mkGrpcServer {
  g_address : string;
  g_listener : option Listener;
  g_health : gmap string ServingStatus;
  g_phase : grpc_phase;
}.

Definition services : list string :=
  [""; "broker.v1.AdminService"; "broker.v1.BrokerService"].
Definition set_health (st : ServingStatus) (s : GrpcServer) : GrpcServer :=
  mkGrpcServer (g_address s) (g_listener s)
    (foldl (fun m name => <[name := st]> m) (g_health s) services) (g_phase s).
Definition g_with_listener (l : option Listener) (s : GrpcServer) : GrpcServer :=
  mkGrpcServer (g_address s) l (g_health s) (g_phase s).
Definition g_with_phase (p : grpc_phase) (s : GrpcServer) : GrpcServer :=
  mkGrpcServer (g_address s) (g_listener s) (g_health s) p.

Definition New_grpc (address : string) : GrpcServer :=
  set_health NOT_SERVING (mkGrpcServer address None ∅ Running).

Definition Grpc_Bind (lis : res string) (s : GrpcServer) : res unit * GrpcServer :=
  match lis with
  | Ok addr => (Ok tt, mkGrpcServer addr (Some (mkListener addr false)) (g_health s) (g_phase s))
  | _ => (Err (Errorf "failed to bind tcp listener"), s)
  end.

Definition cleanup (s : GrpcServer) : GrpcServer := g_with_listener None s.

Definition Grpc_CloseListener (s : GrpcServer) : GrpcServer := g_with_listener None s.

Definition Grpc_Serve_begin (s : GrpcServer) : res Listener * GrpcServer :=
  match g_listener s with
  | None => (Err (Errorf "cannot serve without a bound listener"), s)
  | Some l => (Ok l, set_health SERVING s)
  end.

(** [err] is what the library returned; [None] is nil or [grpc.ErrServerStopped]. *)
Definition Grpc_Serve_return (err : option error) (s : GrpcServer) : option error * GrpcServer :=
  ((fun _ => Errorf "gRPC server Serve returned error") <$> err, cleanup s).

Definition Grpc_Shutdown_begin (s : GrpcServer) : GrpcServer :=
  g_with_phase Draining (set_health NOT_SERVING s).
(** The select: [GracefulStop] returned, or the context ended first. *)
Definition Grpc_Shutdown_done (s : GrpcServer) : GrpcServer := cleanup s.
Definition Grpc_Shutdown_timeout (s : GrpcServer) : GrpcServer := cleanup (g_with_phase Stopped s).

(** ** Connection statistics

    [HandleConn] changes the counter, resets a negative counter and sets the gauge; these
    are separate atomic operations, and connections begin and end concurrently. *)
Module conn_stats.

Record ConnStats := mkConnStats {
  connCount : Z;
  OpenConnections : Z;
}.

Inductive ConnEvent := ConnBegin | ConnEnd.

(** What a call of [HandleConn] still has to do after the first operation. *)
Inductive rest_of_call : Type :=
  | StoreZero
  | SetGauge (val : Z).

(** [atomic.AddInt64(&h.connCount, ...)]. *)
Definition add_count (e : ConnEvent) (s : ConnStats) : rest_of_call * ConnStats :=
  match e with
  | ConnBegin =>
    let val := i64 (connCount s + 1)%Z in (SetGauge val, mkConnStats val (OpenConnections s))
  | ConnEnd =>
    let val := i64 (connCount s - 1)%Z in
    ((if (val <? 0)%Z then StoreZero else SetGauge val), mkConnStats val (OpenConnections s))
  end.

(** The next operation of a call, and what is left of it. *)
Definition continue (k : rest_of_call) (s : ConnStats) : option rest_of_call * ConnStats :=
  match k with
  | StoreZero => (Some (SetGauge 0), mkConnStats 0 (OpenConnections s))
  | SetGauge val => (None, mkConnStats (connCount s) val)
  end.

(** A call that no other call overlaps. *)
Definition HandleConn (e : ConnEvent) (s : ConnStats) : ConnStats :=
  let '(k, s) := add_count e s in
  match continue k s with
  | (Some k, s) => snd (continue k s)
  | (None, s) => s
  end.

(** Concurrent calls; [opened] is the number of connections that are open, and a
    connection ends after it began. *)
Record conns := mkConns {
  cs_open : Z;
  cs_calls : list rest_of_call;
  cs_stats : ConnStats;
}.

Inductive conn_step : conns → conns → Prop :=
  | step_begin n calls s k s' :
      add_count ConnBegin s = (k, s') →
      conn_step (mkConns n calls s) (mkConns (n + 1) (k :: calls) s')
  | step_end n calls s k s' :
      (0 < n)%Z → add_count ConnEnd s = (k, s') →
      conn_step (mkConns n calls s) (mkConns (n - 1) (k :: calls) s')
  | step_continue n before k after s k' s' :
      continue k s = (k', s') →
      conn_step (mkConns n (before ++ k :: after)%list s)
                (mkConns n (before ++ option_list k' ++ after)%list s').

Definition conn_init : conns := mkConns 0 [] (mkConnStats 0 0).

Inductive conn_run : conns → Prop :=
  | run_init : conn_run conn_init
  | run_step c c' : conn_run c → conn_step c c' → (cs_open c' < two63)%Z → conn_run c'.

(** ** The counter is exact, the gauge need not be *)

(** No call is about to reset the counter. *)
Definition sets_gauge (k : rest_of_call) : Prop :=
  match k with SetGauge _ => True | StoreZero => False end.

Lemma conn_run_inv c :
  conn_run c →
  connCount (cs_stats c) = cs_open c ∧ (0 <= cs_open c < two63)%Z ∧ Forall sets_gauge (cs_calls c).
Proof.
  induction 1 as [|c c' Hr IH Hst Hb]; [by split; [|split; [simpl; lia|constructor]]|].
  destruct IH as (Hc & Hn & Hf). destruct Hst as [n calls s k s' E|n calls s k s' Hpos E|n before k after s k' s' E];
    simpl in *.
  - injection E as <- <-. simpl. rewrite Hc, i64_small by lia. split_and!; [lia..|by constructor].
  - injection E as <- <-. simpl. rewrite Hc, i64_small by lia.
    destruct (Z.ltb_spec (n - 1) 0)%Z; [lia|]. split_and!; [lia..|by constructor].
  - apply Forall_app in Hf as [Hf1 Hf2]. apply Forall_cons in Hf2 as [Hk Hf2].
    destruct k as [|val]; [done|]. injection E as <- <-. simpl.
    split_and!; [done|lia..|by apply Forall_app].
Qed.

(** Whatever the interleaving of connections that begin and end, the counter of open
    connections is their exact number and is never reset; and a call of [HandleConn] that
    no other call overlaps leaves the exact number in the gauge. *)
Theorem connection_counter_exact c :
  conn_run c →
  connCount (cs_stats c) = cs_open c
  ∧ ∀ e, (e = ConnBegin → cs_open c + 1 < two63) → (e = ConnEnd → 0 < cs_open c) →
      OpenConnections (HandleConn e (cs_stats c))
      = match e with ConnBegin => cs_open c + 1 | ConnEnd => cs_open c - 1 end.
Proof.
  intros (Hc & Hn & _)%conn_run_inv. split; [done|]. intros e Hb He.
  unfold HandleConn, add_count. rewrite Hc. destruct e; simpl.
  - specialize (Hb eq_refl). rewrite i64_small; lia.
  - specialize (He eq_refl). rewrite i64_small by lia. by destruct (Z.ltb_spec (cs_open c - 1) 0)%Z; [lia|].
Qed.

Lemma connection_counter_exact_witness :
  ∃ c, conn_run c ∧ cs_open c = 1 ∧ connCount (cs_stats c) = 1.
Proof.
  assert (conn_run (mkConns 1 [SetGauge 1] (mkConnStats 1 0))) as Hr.
  { apply (run_step conn_init); [constructor|by apply step_begin|simpl; lia]. }
  exists (mkConns 1 [SetGauge 1] (mkConnStats 1 0)). split; [done|]. split; [done|].
  exact (proj1 (connection_counter_exact _ Hr)).
Defined.

(** The gauge can stay wrong.  When two connections begin at the same time and the
    second call sets the gauge first, both calls return, two connections are open and
    the gauge says one until another connection begins or ends. *)
Theorem connection_gauge_goes_stale :
  ∃ c, conn_run c ∧ cs_calls c = [] ∧ cs_open c = 2 ∧ OpenConnections (cs_stats c) = 1.
Proof.
  exists (mkConns 2 [] (mkConnStats 2 1)). split; [|done].
  apply (run_step (mkConns 2 [SetGauge 1] (mkConnStats 2 2))); [| |simpl; lia].
  2: { by apply (step_continue 2 [] (SetGauge 1) [] _ None). }
  apply (run_step (mkConns 2 [SetGauge 2; SetGauge 1] (mkConnStats 2 0))); [| |simpl; lia].
  2: { by apply (step_continue 2 [] (SetGauge 2) [SetGauge 1] _ None). }
  apply (run_step (mkConns 1 [SetGauge 1] (mkConnStats 1 0))); [| |simpl; lia].
  2: { by apply (step_begin 1). }
  apply (run_step conn_init); [constructor|by apply step_begin|simpl; lia].
Qed.

End conn_stats.
