(* ===== verification/Broker.v ===== *)
(** * Broker (internal/broker/broker.go, cmd/broker/main.go)

    [Broker_New] composes the topic manager, the offset store and the servers.
    [Start], [Shutdown], the serving goroutines, the retention worker and the
    monitor run concurrently; each is a program counter in the state, and [act] is
    one step of one of them.  The steps are the operations that other goroutines
    can observe: a critical section of [b.mu], an atomic or channel operation,
    the return of a blocking call, a request handler, the retention of one
    partition.  Steps on storage run the operations of the components on the
    registry, the offset store and the files. *)

From S2P Require Import Prelude FileSystem Names Segment Store Retention Recovery.
From S2P Require Import Offsets Topics Grpc Config Float64 HttpServer GrpcServer.
Open Scope Z_scope.

(** ** Goroutines *)

(** A serving goroutine of [Start], from its creation to [serveWG.Done]. *)
Inductive loop : Type :=
  | LNone
  | LSpawned
  | LServing
  | LReturned (err : option error)
  | LUnready (err : error)
  | LSend (err : error)
  | LExited.

(** A partition that the retention sweep visits. *)
Record target := mkTarget {
  tg_topic : string;
  tg_id : Z;
  tg_maxAge : Z;
  tg_maxBytes : Z;
}.

(** [runRetentionWorker]: before a sweep, before and after the retention of a
    partition, in the select, returned. *)
Inductive worker : Type :=
  | WNone
  | WStart
  | WSweep (targets : list target)
  | WSwept (targets : list target)
  | WSelect
  | WExited.

Inductive start_pc : Type :=
  | SIdle
  | SBindHTTP
  | SBindGRPC
  | SRollback
  | SSpawnHTTP
  | SSpawnGRPC
  | SSpawnWorker
  | SWindow
  | SAbort
  | SWaitDown
  | SMarkReady
  | SReturned (ok : bool).

Inductive monitor_pc : Type := MNone | MWaiting | MGot | MCall | MWaitDown | MExited.

Inductive down_pc : Type :=
  | DNone
  | DUnready
  | DCancel
  | DWaitWorker
  | DStopGRPC
  | DDraining
  | DStopHTTP
  | DHttpWait
  | DWaitLoops
  | DCloseOffsets
  | DCloseStorage
  | DSignal
  | DFinished.

(** Who called the [Shutdown] that is running. *)
Inductive caller : Type := ByStart | ByMonitor | ByClient.

#[global] Instance start_pc_eq_dec : EqDecision start_pc.
Proof. solve_decision. Defined.
#[global] Instance down_pc_eq_dec : EqDecision down_pc.
Proof. solve_decision. Defined.
#[global] Instance caller_eq_dec : EqDecision caller.
Proof. solve_decision. Defined.

(** The requests that the registered services handle. *)
Inductive rpc_call : Type :=
  | CallProduce (now : Z) (req : ProduceRequest)
  | CallFetch (req : FetchRequest)
  | CallCommitOffset (now : Z) (req : option CommitOffsetRequest)
  | CallFetchCommittedOffset (req : option FetchCommittedOffsetRequest)
  | CallCreateTopic (req : CreateTopicRequest)
  | CallListTopics
  | CallDescribeTopic (name : string).

(** ** State *)

Record Broker := mkBroker {
  (** the configuration *)
  b_cfg : Config;
  b_started : bool;
  b_stopped : bool;
  (** [maintenanceCtx] is cancelled *)
  b_cancelled : bool;
  (** [doneCh] is closed *)
  b_done : bool;
  (** the process has panicked *)
  b_panicked : bool;
  b_http : HttpServer;
  b_grpc : GrpcServer;
  (** the serving goroutines *)
  b_httpLoop : loop;
  b_grpcLoop : loop;
  (** the retention worker *)
  b_worker : worker;
  (** [serveErrCh], of capacity 2 *)
  b_serveErrCh : list error;
  (** the call of [Start] in progress *)
  b_start : start_pc;
  b_monitor : monitor_pc;
  (** the [Shutdown] in progress *)
  b_down : down_pc;
  (** and its caller *)
  b_runner : caller;
  (** errors that [Shutdown] collected *)
  b_errs : list error;
  (** requests being handled *)
  b_inflight : list rpc_call;
  (** [grpcServer.Stop] was called *)
  b_forced : bool;
  (** [topicManager], [offsetStore] and request counters *)
  b_node : Server;
}.

Definition b_with_started (v : bool) (b : Broker) : Broker :=
  mkBroker (b_cfg b) v (b_stopped b) (b_cancelled b) (b_done b) (b_panicked b) (b_http b)
    (b_grpc b) (b_httpLoop b) (b_grpcLoop b) (b_worker b) (b_serveErrCh b) (b_start b)
    (b_monitor b) (b_down b) (b_runner b) (b_errs b) (b_inflight b) (b_forced b) (b_node b).
Definition b_with_stopped (v : bool) (b : Broker) : Broker :=
  mkBroker (b_cfg b) (b_started b) v (b_cancelled b) (b_done b) (b_panicked b) (b_http b)
    (b_grpc b) (b_httpLoop b) (b_grpcLoop b) (b_worker b) (b_serveErrCh b) (b_start b)
    (b_monitor b) (b_down b) (b_runner b) (b_errs b) (b_inflight b) (b_forced b) (b_node b).
Definition b_with_cancelled (v : bool) (b : Broker) : Broker :=
  mkBroker (b_cfg b) (b_started b) (b_stopped b) v (b_done b) (b_panicked b) (b_http b)
    (b_grpc b) (b_httpLoop b) (b_grpcLoop b) (b_worker b) (b_serveErrCh b) (b_start b)
    (b_monitor b) (b_down b) (b_runner b) (b_errs b) (b_inflight b) (b_forced b) (b_node b).
Definition b_with_done (v : bool) (b : Broker) : Broker :=
  mkBroker (b_cfg b) (b_started b) (b_stopped b) (b_cancelled b) v (b_panicked b) (b_http b)
    (b_grpc b) (b_httpLoop b) (b_grpcLoop b) (b_worker b) (b_serveErrCh b) (b_start b)
    (b_monitor b) (b_down b) (b_runner b) (b_errs b) (b_inflight b) (b_forced b) (b_node b).
Definition b_with_panicked (v : bool) (b : Broker) : Broker :=
  mkBroker (b_cfg b) (b_started b) (b_stopped b) (b_cancelled b) (b_done b) v (b_http b)
    (b_grpc b) (b_httpLoop b) (b_grpcLoop b) (b_worker b) (b_serveErrCh b) (b_start b)
    (b_monitor b) (b_down b) (b_runner b) (b_errs b) (b_inflight b) (b_forced b) (b_node b).
Definition b_with_http (v : HttpServer) (b : Broker) : Broker :=
  mkBroker (b_cfg b) (b_started b) (b_stopped b) (b_cancelled b) (b_done b) (b_panicked b) v
    (b_grpc b) (b_httpLoop b) (b_grpcLoop b) (b_worker b) (b_serveErrCh b) (b_start b)
    (b_monitor b) (b_down b) (b_runner b) (b_errs b) (b_inflight b) (b_forced b) (b_node b).
Definition b_with_grpc (v : GrpcServer) (b : Broker) : Broker :=
  mkBroker (b_cfg b) (b_started b) (b_stopped b) (b_cancelled b) (b_done b) (b_panicked b)
    (b_http b) v (b_httpLoop b) (b_grpcLoop b) (b_worker b) (b_serveErrCh b) (b_start b)
    (b_monitor b) (b_down b) (b_runner b) (b_errs b) (b_inflight b) (b_forced b) (b_node b).
Definition b_with_httpLoop (v : loop) (b : Broker) : Broker :=
  mkBroker (b_cfg b) (b_started b) (b_stopped b) (b_cancelled b) (b_done b) (b_panicked b)
    (b_http b) (b_grpc b) v (b_grpcLoop b) (b_worker b) (b_serveErrCh b) (b_start b)
    (b_monitor b) (b_down b) (b_runner b) (b_errs b) (b_inflight b) (b_forced b) (b_node b).
Definition b_with_grpcLoop (v : loop) (b : Broker) : Broker :=
  mkBroker (b_cfg b) (b_started b) (b_stopped b) (b_cancelled b) (b_done b) (b_panicked b)
    (b_http b) (b_grpc b) (b_httpLoop b) v (b_worker b) (b_serveErrCh b) (b_start b)
    (b_monitor b) (b_down b) (b_runner b) (b_errs b) (b_inflight b) (b_forced b) (b_node b).
Definition b_with_worker (v : worker) (b : Broker) : Broker :=
  mkBroker (b_cfg b) (b_started b) (b_stopped b) (b_cancelled b) (b_done b) (b_panicked b)
    (b_http b) (b_grpc b) (b_httpLoop b) (b_grpcLoop b) v (b_serveErrCh b) (b_start b)
    (b_monitor b) (b_down b) (b_runner b) (b_errs b) (b_inflight b) (b_forced b) (b_node b).
Definition b_with_serveErrCh (v : list error) (b : Broker) : Broker :=
  mkBroker (b_cfg b) (b_started b) (b_stopped b) (b_cancelled b) (b_done b) (b_panicked b)
    (b_http b) (b_grpc b) (b_httpLoop b) (b_grpcLoop b) (b_worker b) v (b_start b)
    (b_monitor b) (b_down b) (b_runner b) (b_errs b) (b_inflight b) (b_forced b) (b_node b).
Definition b_with_start (v : start_pc) (b : Broker) : Broker :=
  mkBroker (b_cfg b) (b_started b) (b_stopped b) (b_cancelled b) (b_done b) (b_panicked b)
    (b_http b) (b_grpc b) (b_httpLoop b) (b_grpcLoop b) (b_worker b) (b_serveErrCh b) v
    (b_monitor b) (b_down b) (b_runner b) (b_errs b) (b_inflight b) (b_forced b) (b_node b).
Definition b_with_monitor (v : monitor_pc) (b : Broker) : Broker :=
  mkBroker (b_cfg b) (b_started b) (b_stopped b) (b_cancelled b) (b_done b) (b_panicked b)
    (b_http b) (b_grpc b) (b_httpLoop b) (b_grpcLoop b) (b_worker b) (b_serveErrCh b)
    (b_start b) v (b_down b) (b_runner b) (b_errs b) (b_inflight b) (b_forced b) (b_node b).
Definition b_with_down (v : down_pc) (b : Broker) : Broker :=
  mkBroker (b_cfg b) (b_started b) (b_stopped b) (b_cancelled b) (b_done b) (b_panicked b)
    (b_http b) (b_grpc b) (b_httpLoop b) (b_grpcLoop b) (b_worker b) (b_serveErrCh b)
    (b_start b) (b_monitor b) v (b_runner b) (b_errs b) (b_inflight b) (b_forced b)
    (b_node b).
Definition b_with_runner (v : caller) (b : Broker) : Broker :=
  mkBroker (b_cfg b) (b_started b) (b_stopped b) (b_cancelled b) (b_done b) (b_panicked b)
    (b_http b) (b_grpc b) (b_httpLoop b) (b_grpcLoop b) (b_worker b) (b_serveErrCh b)
    (b_start b) (b_monitor b) (b_down b) v (b_errs b) (b_inflight b) (b_forced b) (b_node b).
Definition b_with_errs (v : list error) (b : Broker) : Broker :=
  mkBroker (b_cfg b) (b_started b) (b_stopped b) (b_cancelled b) (b_done b) (b_panicked b)
    (b_http b) (b_grpc b) (b_httpLoop b) (b_grpcLoop b) (b_worker b) (b_serveErrCh b)
    (b_start b) (b_monitor b) (b_down b) (b_runner b) v (b_inflight b) (b_forced b)
    (b_node b).
Definition b_with_inflight (v : list rpc_call) (b : Broker) : Broker :=
  mkBroker (b_cfg b) (b_started b) (b_stopped b) (b_cancelled b) (b_done b) (b_panicked b)
    (b_http b) (b_grpc b) (b_httpLoop b) (b_grpcLoop b) (b_worker b) (b_serveErrCh b)
    (b_start b) (b_monitor b) (b_down b) (b_runner b) (b_errs b) v (b_forced b) (b_node b).
Definition b_with_forced (v : bool) (b : Broker) : Broker :=
  mkBroker (b_cfg b) (b_started b) (b_stopped b) (b_cancelled b) (b_done b) (b_panicked b)
    (b_http b) (b_grpc b) (b_httpLoop b) (b_grpcLoop b) (b_worker b) (b_serveErrCh b)
    (b_start b) (b_monitor b) (b_down b) (b_runner b) (b_errs b) (b_inflight b) v (b_node b).
Definition b_with_node (v : Server) (b : Broker) : Broker :=
  mkBroker (b_cfg b) (b_started b) (b_stopped b) (b_cancelled b) (b_done b) (b_panicked b)
    (b_http b) (b_grpc b) (b_httpLoop b) (b_grpcLoop b) (b_worker b) (b_serveErrCh b)
    (b_start b) (b_monitor b) (b_down b) (b_runner b) (b_errs b) (b_inflight b) (b_forced b)
    v.

(** ** What the broker relies on in the grpc library

    [lib_accepts served phase]: the library may start a handler; [lib_drained n]:
    [GracefulStop] may return while [n] handlers run. *)
Class GrpcLibrary := {
  lib_accepts : bool → grpc_phase → bool;
  lib_drained : nat → bool;
}.

(** [GracefulStop] and [Stop] stop the server from accepting new RPCs, and
    [GracefulStop] blocks until all pending RPCs are finished. *)
Class GrpcLaws `{GrpcLibrary} := {
  accepts_running : ∀ served phase, lib_accepts served phase = true → phase = Running;
  drained_none : ∀ n, lib_drained n = true → n = 0%nat;
}.

(** [GracefulStop] returns when no RPC is pending. *)
Class GrpcReturns `{GrpcLibrary} := {
  drained_returns : lib_drained 0 = true;
}.

(** ** Construction *)

Section Broker.
Context (Marshal : gmap string DiskTopic → bytes).
Context (Unmarshal : bytes → option (gmap string DiskTopic) →
           res (option (gmap string DiskTopic))).
Context {lib : GrpcLibrary}.

(** [dataDir] is the path that [cfg.Storage.DataDirectory] denotes. *)
Definition offsets_dir (dataDir : path) : path := dataDir ++ ["offsets"%string].
Definition max_age_seconds (cfg : Config) : Z := u64 (int_trunc (Seconds (DefaultMaxAge cfg))).

Definition new_broker (cfg : Config) (topicManager : Manager) (offsetStore : OffsetStore)
    : Broker :=
  mkBroker cfg false false false false false
    (New_http (HTTPAddress cfg)) (New_grpc (GRPCAddress cfg))
    LNone LNone WNone [] SIdle MNone DNone ByClient [] [] false
    (mkServer topicManager offsetStore (MaxRecordBytes cfg) ∅).

Definition Broker_New (cfg : Config) (dataDir : path) : M World Broker :=
  let* topicManager := NewManager Unmarshal dataDir (SegmentMaxBytes cfg)
    (i64 (MaxBatchBytes cfg)) (IndexIntervalBytes cfg) (FlushMode cfg) in
  let topicManager :=
    SetRetentionDefaults (max_age_seconds cfg) (DefaultMaxPartitionBytes cfg) topicManager in
  let* r := attempt (Offsets_OpenStore (offsets_dir dataDir) "consumer-offsets.log") in
  match r with
  | Ok offsetStore => ret (new_broker cfg topicManager offsetStore)
  | Err _ => fun w =>
    let '(_, (_, w)) := Manager_Close (topicManager, w) in
    (Err (Errorf "failed to open offset store"), w)
  | Panic => panic
  end.

(** ** Steps on storage *)

Definition dropped {A} (m : M (Server * World) A) : M (Server * World) unit :=
  let* _ := m in ret tt.

(** The handler of a request. *)
Definition handle_call (c : rpc_call) : M (Server * World) unit :=
  match c with
  | CallProduce now req => dropped (Produce now req)
  | CallFetch req => dropped (Fetch req)
  | CallCommitOffset now req => dropped (CommitOffset now req)
  | CallFetchCommittedOffset req => dropped (FetchCommittedOffset req)
  | CallCreateTopic req => dropped (Admin_CreateTopic Marshal Unmarshal req)
  | CallListTopics => dropped Admin_ListTopics
  | CallDescribeTopic name => dropped (Admin_DescribeTopic name)
  end.

(** The snapshot that [Manager.ApplyRetention] takes under the manager's lock. *)
Definition topic_targets (name : string) (t : Topic) : list target :=
  imap (fun i _ => mkTarget name (Z.of_nat i)
                     (retention_age (MaxAgeSeconds (t_retention t))) (MaxBytes (t_retention t)))
    (t_partitions t).
Definition sweep_targets (m : Manager) : list target :=
  map_to_list (m_topics m) ≫= fun '(name, t) => topic_targets name t.

(** The retention of one partition; [target.log] is the partition of that topic and
    number, which the registry never replaces.  The error is only logged. *)
Definition retain (tg : target) (now : Z) : M (Server * World) unit :=
  let* s := get_obj in
  match GetPartition (sv_topics s) (tg_topic tg) (tg_id tg) with
  | Ok p => dropped (attempt (on_log (tg_topic tg) (tg_id tg) p
              (partition.ApplyRetention now (tg_maxAge tg) (tg_maxBytes tg))))
  | _ => ret tt
  end.

Definition panics {A} (r : res A) : bool := match r with Panic => true | _ => false end.

(** Run an operation on the node and record a panic; a panic of any goroutine ends
    the process. *)
Definition on_node {A} (m : M (Server * World) A) (s : Broker * World)
    : res A * (Broker * World) :=
  let '(b, w) := s in
  let '(r, (srv, w)) := m (b_node b, w) in
  (r, (b_with_panicked (panics r) (b_with_node srv b), w)).

(** An error of [Shutdown] joins the errors collected before. *)
Definition join {A} (r : res A) (b : Broker) : Broker :=
  match r with Err e => b_with_errs (b_errs b ++ [e]) b | _ => b end.

(** ** Steps *)

Inductive server : Type := HTTP | GRPC.

Inductive action : Type :=
  (* Start *)
  | CallStart
  | BindHTTP (lis : res string)
  | BindGRPC (lis : res string)
  | RollbackStart
  | SpawnHTTP
  | SpawnGRPC
  | SpawnWorker
  | WindowError
  | WindowTimeout
  | MarkReady
  (* serving goroutines *)
  | LoopServe (k : server)
  | ServeReturns (k : server) (err : option error)
  | LoopCheck (k : server)
  | LoopUnready (k : server)
  | LoopSend (k : server)
  (* retention worker *)
  | WorkerSnapshot
  | WorkerRetain (now : Z)
  | WorkerCheck
  | WorkerTick
  | WorkerStop
  (* monitor *)
  | MonitorError
  | MonitorCancelled
  | MonitorCheck
  (* Shutdown *)
  | CallShutdown (c : caller)
  | ShutdownUnready
  | ShutdownCancel
  | ShutdownWorkerExited
  | ShutdownStopGRPC
  | ShutdownDrained
  | ShutdownTimeout
  | ShutdownStopHTTP
  | ShutdownHTTPStopped (err : option error)
  | ShutdownLoopsExited
  | ShutdownCloseOffsets
  | ShutdownCloseStorage
  | ShutdownSignal
  (* requests *)
  | Accept (c : rpc_call)
  | Handle (i : nat).

Definition get_loop (k : server) (b : Broker) : loop :=
  match k with HTTP => b_httpLoop b | GRPC => b_grpcLoop b end.
Definition set_loop (k : server) (l : loop) (b : Broker) : Broker :=
  match k with HTTP => b_with_httpLoop l b | GRPC => b_with_grpcLoop l b end.

(** A goroutine that a wait group does not wait for. *)
Definition loop_idle (l : loop) : bool :=
  match l with LNone | LExited => true | _ => false end.
Definition worker_idle (w : worker) : bool :=
  match w with WNone | WExited => true | _ => false end.

(** [Start]. *)
Definition act_start (a : action) (b : Broker) : option Broker :=
  match a, b_start b with
  | CallStart, _ =>
    if b_started b then Some b
    else Some (b_with_start SBindHTTP (b_with_started true b))
  | BindHTTP lis, SBindHTTP =>
    let '(r, h) := Http_Bind lis (b_http b) in
    Some (b_with_start (if is_ok r then SBindGRPC else SRollback) (b_with_http h b))
  | BindGRPC lis, SBindGRPC =>
    let '(r, g) := Grpc_Bind lis (b_grpc b) in
    if is_ok r
    then Some (b_with_start SSpawnHTTP (b_with_serveErrCh [] (b_with_grpc g b)))
    else Some (b_with_start SRollback
                 (b_with_http (Http_CloseListener (b_http b)) (b_with_grpc g b)))
  | RollbackStart, SRollback => Some (b_with_start (SReturned false) (b_with_started false b))
  | SpawnHTTP, SSpawnHTTP => Some (b_with_start SSpawnGRPC (b_with_httpLoop LSpawned b))
  | SpawnGRPC, SSpawnGRPC => Some (b_with_start SSpawnWorker (b_with_grpcLoop LSpawned b))
  | SpawnWorker, SSpawnWorker => Some (b_with_start SWindow (b_with_worker WStart b))
  | WindowError, SWindow =>
    match b_serveErrCh b with
    | _ :: es => Some (b_with_start SAbort (b_with_serveErrCh es b))
    | [] => None
    end
  | WindowTimeout, SWindow => Some (b_with_start SMarkReady b)
  | MarkReady, SMarkReady =>
    Some (b_with_start (SReturned true)
            (b_with_monitor MWaiting (b_with_http (SetReady true (b_http b)) b)))
  | _, _ => None
  end.

(** The goroutines that serve. *)
Definition act_loop (a : action) (b : Broker) : option Broker :=
  match a with
  | LoopServe k =>
    match get_loop k b with
    | LSpawned =>
      match k with
      | HTTP => match Http_Serve (b_http b) with
                | Err e => Some (set_loop k (LReturned (Some e)) b)
                | _ => Some (set_loop k LServing b)
                end
      | GRPC => let '(r, g) := Grpc_Serve_begin (b_grpc b) in
                match r with
                | Err e => Some (set_loop k (LReturned (Some e)) (b_with_grpc g b))
                | _ => Some (set_loop k LServing (b_with_grpc g b))
                end
      end
    | _ => None
    end
  | ServeReturns k err =>
    match get_loop k b with
    | LServing =>
      match k with
      | HTTP => Some (set_loop k (LReturned err) b)
      | GRPC => let '(err, g) := Grpc_Serve_return err (b_grpc b) in
                Some (set_loop k (LReturned err) (b_with_grpc g b))
      end
    | _ => None
    end
  | LoopCheck k =>
    match get_loop k b with
    | LReturned err =>
      Some (set_loop k (if b_stopped b then LExited
                        else LUnready (default (Errorf "server exited without error") err)) b)
    | _ => None
    end
  | LoopUnready k =>
    match get_loop k b with
    | LUnready e => Some (set_loop k (LSend e) (b_with_http (SetReady false (b_http b)) b))
    | _ => None
    end
  | LoopSend k =>
    match get_loop k b with
    | LSend e =>
      let ch := b_serveErrCh b in
      Some (set_loop k LExited
              (b_with_serveErrCh (if (length ch <? 2)%nat then ch ++ [e] else ch) b))
    | _ => None
    end
  | _ => None
  end.

(** [runRetentionWorker] and [Manager.ApplyRetention]. *)
Definition act_worker (a : action) (s : Broker * World) : option (Broker * World) :=
  let '(b, w) := s in
  match a, b_worker b with
  | WorkerSnapshot, WStart =>
    Some (b_with_worker (WSweep (sweep_targets (sv_topics (b_node b)))) b, w)
  | WorkerRetain now, WSweep (tg :: tgs) =>
    if b_cancelled b then Some (b_with_worker WSelect b, w)
    else let '(_, (b, w)) := on_node (retain tg now) (b, w) in
         Some (b_with_worker (WSwept tgs) b, w)
  | WorkerCheck, WSwept tgs =>
    Some (b_with_worker (if b_cancelled b then WSelect else WSweep tgs) b, w)
  | WorkerCheck, WSweep [] => Some (b_with_worker WSelect b, w)
  | WorkerTick, WSelect => Some (b_with_worker WStart b, w)
  | WorkerStop, WSelect => if b_cancelled b then Some (b_with_worker WExited b, w) else None
  | _, _ => None
  end.

(** [monitorServe]. *)
Definition act_monitor (a : action) (b : Broker) : option Broker :=
  match a, b_monitor b with
  | MonitorError, MWaiting =>
    match b_serveErrCh b with
    | _ :: es => Some (b_with_monitor MGot (b_with_serveErrCh es b))
    | [] => None
    end
  | MonitorCancelled, MWaiting =>
    if b_cancelled b then Some (b_with_monitor MExited b) else None
  | MonitorCheck, MGot => Some (b_with_monitor (if b_stopped b then MExited else MCall) b)
  | _, _ => None
  end.

(** The caller of [Shutdown] blocks in it, and returns from it. *)
Definition caller_waits (c : caller) (b : Broker) : Broker :=
  match c with
  | ByStart => b_with_start SWaitDown b
  | ByMonitor => b_with_monitor MWaitDown b
  | ByClient => b
  end.
Definition caller_returns (c : caller) (b : Broker) : Broker :=
  match c with
  | ByStart => b_with_start (SReturned false) b
  | ByMonitor => b_with_monitor MExited b
  | ByClient => b
  end.
Definition calls_shutdown (c : caller) (b : Broker) : bool :=
  match c with
  | ByStart => match b_start b with SAbort => true | _ => false end
  | ByMonitor => match b_monitor b with MCall => true | _ => false end
  | ByClient => true
  end.

(** [Shutdown].  Only a client passes a context that can end. *)
Definition act_down (a : action) (s : Broker * World) : option (Broker * World) :=
  let '(b, w) := s in
  match a, b_down b with
  | CallShutdown c, _ =>
    if calls_shutdown c b then
      if b_stopped b then Some (caller_returns c b, w)
      else Some (caller_waits c (b_with_down DUnready (b_with_runner c (b_with_stopped true b))), w)
    else None
  | ShutdownUnready, DUnready =>
    Some (b_with_down DCancel (b_with_http (SetReady false (b_http b)) b), w)
  | ShutdownCancel, DCancel => Some (b_with_down DWaitWorker (b_with_cancelled true b), w)
  | ShutdownWorkerExited, DWaitWorker =>
    if worker_idle (b_worker b) then Some (b_with_down DStopGRPC b, w) else None
  | ShutdownStopGRPC, DStopGRPC =>
    Some (b_with_down DDraining (b_with_grpc (Grpc_Shutdown_begin (b_grpc b)) b), w)
  | ShutdownDrained, DDraining =>
    if lib_drained (length (b_inflight b))
    then Some (b_with_down DStopHTTP (b_with_grpc (Grpc_Shutdown_done (b_grpc b)) b), w)
    else None
  | ShutdownTimeout, DDraining =>
    match b_runner b with
    | ByClient =>
      Some (b_with_down DStopHTTP (b_with_forced true
              (join (Err (Errorf "context deadline exceeded") : res unit)
                 (b_with_grpc (Grpc_Shutdown_timeout (b_grpc b)) b))), w)
    | _ => None
    end
  | ShutdownStopHTTP, DStopHTTP =>
    Some (b_with_down DHttpWait (b_with_http (h_begin_shutdown (b_http b)) b), w)
  | ShutdownHTTPStopped err, DHttpWait =>
    Some (b_with_down DWaitLoops (join (match err with Some e => Err e | None => Ok tt end) b), w)
  | ShutdownLoopsExited, DWaitLoops =>
    if loop_idle (b_httpLoop b) && loop_idle (b_grpcLoop b)
    then Some (b_with_down DCloseOffsets b, w) else None
  | ShutdownCloseOffsets, DCloseOffsets =>
    let '(r, (b, w)) := on_node (on_offsets Offsets_Close) (b, w) in
    Some (b_with_down DCloseStorage (join r b), w)
  | ShutdownCloseStorage, DCloseStorage =>
    let '(r, (b, w)) := on_node (on_manager Manager_Close) (b, w) in
    Some (b_with_down DSignal (join r b), w)
  | ShutdownSignal, DSignal =>
    Some (caller_returns (b_runner b)
            (b_with_down DFinished (b_with_panicked (b_done b) (b_with_done true b))), w)
  | _, _ => None
  end.

(** Requests: the library starts a handler, and the handler runs. *)
Definition act_request (a : action) (s : Broker * World) : option (Broker * World) :=
  let '(b, w) := s in
  match a with
  | Accept c =>
    let served := match b_grpcLoop b with LNone | LSpawned => false | _ => true end in
    if lib_accepts served (g_phase (b_grpc b))
    then Some (b_with_inflight (b_inflight b ++ [c]) b, w) else None
  | Handle i =>
    match b_inflight b !! i with
    | Some c =>
      let '(_, (b, w)) := on_node (handle_call c) (b, w) in
      Some (b_with_inflight (delete i (b_inflight b)) b, w)
    | None => None
    end
  | _ => None
  end.

Definition lift_act (f : Broker → option Broker) (s : Broker * World) : option (Broker * World) :=
  let '(b, w) := s in (fun b => (b, w)) <$> f b.

(** One step of the broker; nothing runs after a panic. *)
Definition act (a : action) (s : Broker * World) : option (Broker * World) :=
  if b_panicked (fst s) then None else
  match a with
  | CallStart | BindHTTP _ | BindGRPC _ | RollbackStart | SpawnHTTP | SpawnGRPC | SpawnWorker
  | WindowError | WindowTimeout | MarkReady => lift_act (act_start a) s
  | LoopServe _ | ServeReturns _ _ | LoopCheck _ | LoopUnready _ | LoopSend _ =>
    lift_act (act_loop a) s
  | WorkerSnapshot | WorkerRetain _ | WorkerCheck | WorkerTick | WorkerStop => act_worker a s
  | MonitorError | MonitorCancelled | MonitorCheck => lift_act (act_monitor a) s
  | Accept _ | Handle _ => act_request a s
  | _ => act_down a s
  end.

Fixpoint acts (l : list action) (s : Broker * World) : option (Broker * World) :=
  match l with
  | [] => Some s
  | a :: l => act a s ≫= acts l
  end.

(** ** The process (cmd/broker/main.go, from the call of [Start] on) *)

Inductive main_pc : Type :=
  | MainInit
  | MainStarting
  | MainSelect
  | MainShutdown
  | MainExit (ok : bool).

Inductive main_action : Type :=
  | MainCallStart
  | MainStarted
  | MainDone
  | MainSignal
  | MainDown
  | Background (a : action).

(** What the goroutines of the broker do on their own. *)
Definition background (a : action) : bool :=
  match a with
  | CallStart | CallShutdown ByClient => false
  | _ => true
  end.

Definition main_act (a : main_action) (s : main_pc * (Broker * World))
    : option (main_pc * (Broker * World)) :=
  let '(pc, (b, w)) := s in
  match a, pc with
  | _, MainExit _ => None
  | MainCallStart, MainInit => pair MainStarting <$> act CallStart (b, w)
  | MainStarted, MainStarting =>
    match b_start b with
    | SReturned true => Some (MainSelect, (b, w))
    | SReturned false => Some (MainExit false, (b, w))
    | _ => None
    end
  | MainDone, MainSelect => if b_done b then Some (MainExit false, (b, w)) else None
  | MainSignal, MainSelect =>
    (* a second [Shutdown] returns nil at once *)
    pair (if b_stopped b then MainExit true else MainShutdown)
      <$> act (CallShutdown ByClient) (b, w)
  | MainDown, MainShutdown =>
    match b_down b with
    | DFinished => Some (MainExit (bool_decide (b_errs b = [])), (b, w))
    | _ => None
    end
  | Background a, _ => if background a then pair pc <$> act a (b, w) else None
  | _, _ => None
  end.

Fixpoint main_acts (l : list main_action) (s : main_pc * (Broker * World))
    : option (main_pc * (Broker * World)) :=
  match l with
  | [] => Some s
  | a :: l => main_act a s ≫= main_acts l
  end.

End Broker.
