(* ===== verification/ConcurrentSpec.v ===== *)
(** * Specification of concurrent requests

    The service of ServiceSpec.v with any number of requests in flight.  A request is a
    thread (Threads.v) that takes its critical sections one by one; each section is a step
    of one log or of the committed offsets, and sections of different threads come in any
    order, mixed with retention, the creation of topics, the closing of the offset store
    and of each partition by a shutdown, and the end and the start of the process, which
    takes the threads with it. *)

From S2P Require Import Prelude FileSystem Model Store StoreInv LogSpec Offsets OffsetsSpec OffsetsLog.
From S2P Require Import Topics Grpc GrpcSpec ServiceSpec Threads.
Open Scope Z_scope.

Abbreviation pool := (gmap nat thread).

Inductive event : Type :=
  | EInvoke (i : nat) (q : request)
  | ESection (i : nat)
  | ERespond (i : nat) (q : request) (r : response)
  | EClose (k : option part)
  | ENode (c : bcall).

(** Steps of the node that are not requests of clients to a partition; the parts of a
    shutdown are [EClose] events. *)
Definition node_call (c : bcall) : bool :=
  match c with
  | BCreateTopic _ _ | BRetain _ _ _ _ | BStop | BCrash | BStart _ => true
  | _ => false
  end.
(** Those that leave the process running. *)
Definition keeps_threads (c : bcall) : bool :=
  match c with BCreateTopic _ _ | BRetain _ _ _ _ => true | _ => false end.

Section Spec.
Context (sync : Prop) (maxRecordBytes : Z) (defaults : RetentionPolicy → RetentionPolicy).
Abbreviation step := (bstep sync maxRecordBytes defaults).

(** ** Sections *)

(** The bounds that a section reads are those of the log as long as it is served. *)
Definition reads_first (a : phase * alog) (v : Z) : Prop := fst a = Serving → v = al_first (snd a).
Definition reads_end (a : phase * alog) (v : Z) : Prop := fst a = Serving → v = al_end (snd a).

Inductive tstep : abroker → thread → thread → abroker → Prop :=
  (** refusals of a first section are those of the sequential service *)
  | t_produce_refused b now req c :
      step b (BProduce now req (inl c)) b →
      tstep b (TStart (QProduce now req)) (TDone (QProduce now req) (AProduce (inl c))) b
  | t_produce b now req a :
      open_log b (produce_key req) a →
      tstep b (TStart (QProduce now req)) (TAppend now req (client_records (pr_Records req))) b
  | t_append b now req recs a r a' :
      open_log b (produce_key req) a → astep sync a (CAppend now recs r) a' →
      tstep b (TAppend now req recs) (TDone (QProduce now req) (AProduce (produce_response req r)))
        (ab_with_log (produce_key req) a' b)
  | t_fetch_refused b req c :
      step b (BFetch req (inl c)) b →
      tstep b (TStart (QFetch req)) (TDone (QFetch req) (AFetch (inl c))) b
  | t_fetch b req a :
      open_log b (fetch_key req) a → tstep b (TStart (QFetch req)) (TRead req) b
  | t_read b req a out :
      open_log b (fetch_key req) a →
      astep sync a (CRead (fr_Offset req) (fr_MaxBytes req) (Ok out)) a →
      tstep b (TRead req) (TEarliest req out) b
  | t_read_failed b req a e :
      open_log b (fetch_key req) a →
      astep sync a (CRead (fr_Offset req) (fr_MaxBytes req) (Err e)) a →
      tstep b (TRead req) (TDone (QFetch req) (AFetch (inl (read_status e)))) b
  | t_earliest b req out a v :
      open_log b (fetch_key req) a → reads_first a v →
      tstep b (TEarliest req out) (TLogEnd req out v) b
  | t_log_end b req out earliest a v :
      open_log b (fetch_key req) a → reads_end a v →
      tstep b (TLogEnd req out earliest)
        (TDone (QFetch req) (AFetch (inr (mkFetchResponse out earliest v)))) b
  | t_commit_refused b now req c :
      step b (BCommitOffset now req (inl c)) b →
      tstep b (TStart (QCommitOffset now req))
        (TDone (QCommitOffset now req) (ACommitOffset (inl c))) b
  | t_commit_start b now req a :
      open_log b (commit_part req) a →
      tstep b (TStart (QCommitOffset now (Some req))) (TCheckFirst now req) b
  | t_check_first b now req a v :
      open_log b (commit_part req) a → reads_first a v →
      tstep b (TCheckFirst now req) (TCheckEnd now req v) b
  | t_check_end b now req earliest a v :
      open_log b (commit_part req) a → reads_end a v → earliest <= co_NextOffset req <= v →
      tstep b (TCheckEnd now req earliest) (TCommit now req) b
  | t_out_of_range b now req earliest a v :
      open_log b (commit_part req) a → reads_end a v →
      co_NextOffset req < earliest ∨ v < co_NextOffset req →
      tstep b (TCheckEnd now req earliest)
        (TDone (QCommitOffset now (Some req)) (ACommitOffset (inl OutOfRange))) b
  | t_commit b now req r o :
      ostep (ab_offsets b) (OCommit (commit_of now req) r) o →
      tstep b (TCommit now req)
        (TDone (QCommitOffset now (Some req)) (ACommitOffset (commit_response r)))
        (ab_with_offsets o b)
  | t_committed_refused b req c :
      step b (BFetchCommittedOffset req (inl c)) b →
      tstep b (TStart (QFetchCommittedOffset req))
        (TDone (QFetchCommittedOffset req) (AFetchCommittedOffset (inl c))) b
  | t_committed b req a :
      open_log b (committed_part req) a →
      tstep b (TStart (QFetchCommittedOffset (Some req))) (TGet req) b
  | t_get b req r :
      ostep (ab_offsets b) (OGet (committed_key req) r) (ab_offsets b) →
      tstep b (TGet req)
        (TDone (QFetchCommittedOffset (Some req)) (AFetchCommittedOffset (committed_response r))) b.

(** A shutdown closes the offset store, and then one partition after the other. *)
Inductive closing : abroker → option part → abroker → Prop :=
  | closing_offsets b r o :
      ostep (ab_offsets b) (OClose r) o → closing b None (ab_with_offsets o b)
  | closing_log b k a r a' :
      open_log b k a → astep sync a (CClose r) a' → closing b (Some k) (ab_with_log k a' b).

(** ** The machine *)

Inductive kstep : abroker * pool → event → abroker * pool → Prop :=
  | ks_invoke b P i q : P !! i = None → kstep (b, P) (EInvoke i q) (b, <[i := TStart q]> P)
  | ks_section b P i th th' b' :
      P !! i = Some th → tstep b th th' b' → kstep (b, P) (ESection i) (b', <[i := th']> P)
  | ks_respond b P i q r :
      P !! i = Some (TDone q r) → kstep (b, P) (ERespond i q r) (b, delete i P)
  | ks_node b P c b' :
      step b c b' → node_call c = true →
      kstep (b, P) (ENode c) (b', if keeps_threads c then P else ∅)
  | ks_close b P k b' : closing b k b' → kstep (b, P) (EClose k) (b', P).

Inductive ksteps : abroker * pool → list event → abroker * pool → Prop :=
  | kss_nil x : ksteps x [] x
  | kss_cons x e y tr z : kstep x e y → ksteps y tr z → ksteps x (e :: tr) z.

Lemma ksteps_app_inv x tr1 tr2 z :
  ksteps x (tr1 ++ tr2) z → ∃ y, ksteps x tr1 y ∧ ksteps y tr2 z.
Proof.
  revert x. induction tr1 as [|c tr1 IH]; intros x H; simpl in H; [exists x; split; [constructor|done]|].
  inversion H as [|? ? m ? ? Hst Hs]; subst. apply IH in Hs as (y & H1 & H2).
  exists y. split; [by econstructor|done].
Qed.

(** ** Logs of concurrent runs *)

(** Sections and closings change at most one log, by one call on the open log. *)
Definition on_open (c : call) : Prop :=
  match c with CAppend _ _ _ | CRead _ _ _ | CRetain _ _ _ _ | CClose _ => True | _ => False end.

Inductive one_log (b b' : abroker) : Prop :=
  | ol_none : ab_logs b' = ab_logs b → ab_topics b' = ab_topics b → one_log b b'
  | ol_call k a c a' :
      open_log b k a → astep sync a c a' → on_open c → ab_logs b' = <[k := a']> (ab_logs b) →
      ab_topics b' = ab_topics b → one_log b b'.

Lemma tstep_one_log b th th' b' : tstep b th th' b' → one_log b b'.
Proof. destruct 1; try (by apply ol_none); by eapply ol_call. Qed.

Lemma closing_one_log b k b' : closing b k b' → one_log b b'.
Proof. destruct 1; [by apply ol_none|by eapply ol_call]. Qed.

Lemma one_log_steps b b' k a :
  one_log b b' → ab_logs b !! k = Some a →
  ∃ a', ab_logs b' !! k = Some a' ∧ ∃ tr, asteps sync a tr a'.
Proof.
  intros [-> _|k0 a0 c a0' [H0 _] Hst _ -> _] Hk; [eauto using as_nil|].
  destruct (decide (k0 = k)) as [->|Hne].
  - rewrite lookup_insert_eq. assert (a0 = a) as -> by congruence. eauto using asteps_one.
  - rewrite lookup_insert_ne by done. eauto using as_nil.
Qed.

Lemma one_log_new b b' k : one_log b b' → is_Some (ab_logs b' !! k) → is_Some (ab_logs b !! k).
Proof.
  intros [-> _|k0 a0 c a0' [H0 _] _ _ -> _]; [done|].
  rewrite lookup_insert_is_Some'. intros [<-|?]; [by rewrite H0|done].
Qed.

Lemma one_log_topics b b' : one_log b b' → ab_topics b' = ab_topics b.
Proof. by destruct 1. Qed.

Lemma one_log_wf b b' : one_log b b' → logs_wf b → logs_wf b'.
Proof.
  intros Ho [Hwf Hl]. split.
  - intros k a Hk. destruct (one_log_new _ _ k Ho) as [a0 Ha0]; [eauto|].
    destruct (one_log_steps _ _ _ _ Ho Ha0) as (a1 & Ha1 & tr & Htr).
    assert (a1 = a) as -> by congruence. eapply al_wf_steps; [exact Htr|]. by eapply Hwf.
  - intros k Hk. rewrite (one_log_topics _ _ Ho). apply Hl. by eapply one_log_new.
Qed.

Lemma kstep_log x e y k a :
  kstep x e y → logs_listed (fst x) → ab_logs (fst x) !! k = Some a →
  ∃ a', ab_logs (fst y) !! k = Some a' ∧ ∃ tr, asteps sync a tr a'.
Proof.
  intros Hst Hl Hk. destruct Hst; simpl in *; eauto using as_nil, bstep_log, one_log_steps,
    tstep_one_log, closing_one_log.
Qed.

Lemma kstep_wf x e y : kstep x e y → logs_wf (fst x) → logs_wf (fst y).
Proof.
  intros Hst Hwf. destruct Hst; simpl in *; eauto using one_log_wf, tstep_one_log, closing_one_log.
  eapply bsteps_wf; [|exact Hwf]. econstructor; [eassumption|constructor].
Qed.

Lemma ksteps_wf x tr y : ksteps x tr y → logs_wf (fst x) → logs_wf (fst y).
Proof. induction 1; eauto using kstep_wf. Qed.

(** ** Partitions that stay served *)

Definition served (b : abroker) (k : part) : Prop := ∃ a, open_log b k a.

Lemma astep_open a c a' : astep sync a c a' → on_open c → fst a ≠ Down → fst a' ≠ Down.
Proof. by destruct 1. Qed.

Lemma asteps_open a tr a' : asteps sync a tr a' → Forall on_open tr → fst a ≠ Down → fst a' ≠ Down.
Proof.
  induction 1 as [a|a c m tr d Hst Hs IH]; [done|]. intros [Hc HF]%Forall_cons Ha.
  apply IH; [done|by eapply astep_open].
Qed.

Lemma served_one_log b b' k : one_log b b' → served b k → served b' k.
Proof.
  unfold served, open_log. intros [-> _|k0 a0 c a0' [H0 Hd] Hst Hc -> _] [a [Ha Hda]]; [by exists a|].
  destruct (decide (k0 = k)) as [<-|Hne].
  - exists a0'. rewrite lookup_insert_eq. split; [done|by eapply astep_open].
  - exists a. by rewrite lookup_insert_ne.
Qed.

Lemma served_node b c b' k : step b c b' → keeps_threads c = true → served b k → served b' k.
Proof.
  intros Hst Hc Hk. destruct Hst; try done.
  - destruct Hk as [a [Ha Hd]]. unfold served, open_log. simpl.
    destruct (topic_logs Serving (ct_Name req) (ct_PartitionCount req) !! k) as [x|] eqn:Hx.
    + exists x. split; [by apply lookup_union_Some_l|]. by apply topic_logs_lookup in Hx as (_ & _ & ->).
    + exists a. by rewrite lookup_union_r.
  - eapply served_one_log, Hk. by eapply ol_call.
Qed.

(** An invariant [I] of the state and [T] of one thread in it, along events of [E]. *)
Section Invariant.
Context (E : event → Prop) (I : abroker * pool → Prop) (T : abroker → thread → Prop).
Context (I_step : ∀ x e y, kstep x e y → E e → logs_wf (fst x) → I x → I y).
Context (T_step : ∀ x e y th, kstep x e y → logs_wf (fst x) → I x → T (fst x) th → T (fst y) th).
Context (T_start : ∀ b q, T b (TStart q)).
Context (T_section : ∀ b P (i : nat) th th' b', P !! i = Some th → tstep b th th' b' →
           logs_wf b → I (b, P) → T b th → T b' th').

Lemma thread_invariant x e y (i : nat) :
  kstep x e y → logs_wf (fst x) → I x →
  (∀ th, snd x !! i = Some th → T (fst x) th) → ∀ th, snd y !! i = Some th → T (fst y) th.
Proof.
  intros Hst Hwf HI HT th Hth. pose proof Hst as Hst0.
  destruct Hst as [b P j q Hj|b P j u u' b' Hj Ht|b P j q r Hj|b P c b' Hb Hc|b P k b' Hc]; simpl in *.
  - apply lookup_insert_Some in Hth as [[-> <-]|[_ Hth]]; [by apply T_start|by apply HT].
  - apply lookup_insert_Some in Hth as [[-> <-]|[_ Hth]].
    + eapply T_section; [exact Hj|exact Ht|done|done|]. by apply HT.
    + apply (T_step _ _ _ _ Hst0 Hwf HI). by apply HT.
  - apply lookup_delete_Some in Hth as [_ Hth]. by apply HT.
  - destruct (keeps_threads c); [|by rewrite lookup_empty in Hth].
    apply (T_step _ _ _ _ Hst0 Hwf HI). by apply HT.
  - apply (T_step _ _ _ _ Hst0 Hwf HI). by apply HT.
Qed.

Lemma thread_invariant_steps x tr y (i : nat) :
  ksteps x tr y → Forall E tr → logs_wf (fst x) → I x →
  (∀ th, snd x !! i = Some th → T (fst x) th) →
  I y ∧ ∀ th, snd y !! i = Some th → T (fst y) th.
Proof.
  induction 1 as [x|x e y tr z Hst Hs IH]; intros HE Hwf HI HT; [done|].
  apply Forall_cons in HE as [He HE].
  apply IH; [done|by eapply kstep_wf|by eapply I_step|by eapply thread_invariant].
Qed.

End Invariant.

(** ** An acknowledged Produce *)

(** The log has taken the batch, and possibly more since. *)
Definition acked (now : Z) (req : ProduceRequest) (resp : ProduceResponse) (b : abroker) : Prop :=
  ∃ a tr a', al_wf (snd a) ∧ ab_logs b !! produce_key req = Some a'
    ∧ asteps sync a (CAppend now (client_records (pr_Records req))
                       (Ok (BaseOffset resp, LastOffset resp)) :: tr) a'.

Lemma acked_step now req resp x e y :
  kstep x e y → logs_wf (fst x) → acked now req resp (fst x) → acked now req resp (fst y).
Proof.
  intros Hst [_ Hl] (a & tr & a' & Hwf & Ha' & Htr).
  destruct (kstep_log _ _ _ _ _ Hst Hl Ha') as (a2 & Ha2 & tr2 & Htr2).
  exists a, (tr ++ tr2), a2. split; [done|]. split; [done|].
  change (?c :: tr ++ tr2) with ((c :: tr) ++ tr2). by eapply asteps_app.
Qed.

Lemma acked_steps now req resp x tr y :
  ksteps x tr y → logs_wf (fst x) → acked now req resp (fst x) → acked now req resp (fst y).
Proof. induction 1; eauto using kstep_wf, acked_step. Qed.

(** What a thread of Produce knows. *)
Definition produce_knows (b : abroker) (th : thread) : Prop :=
  match th with
  | TAppend now req recs => recs = client_records (pr_Records req)
  | TDone (QProduce now req) (AProduce (inr resp)) => acked now req resp b
  | _ => True
  end.

Lemma produce_knows_step x e y th :
  kstep x e y → logs_wf (fst x) → produce_knows (fst x) th → produce_knows (fst y) th.
Proof.
  intros Hst Hwf. destruct th as [| | | | | | | | |[] [[]| | |]]; try done. by eapply acked_step.
Qed.

Lemma produce_knows_section b th th' b' :
  tstep b th th' b' → logs_wf b → produce_knows b th → produce_knows b' th'.
Proof.
  intros Ht [Hwf _] Hk.
  destruct Ht as [| |b now req recs a r a' [Ha _] Hap| | | | | | | | | | | | | | |]; try done.
  simpl in Hk. subst recs. destruct r as [[base last]|e|]; try done.
  exists a, [], a'. split; [by eapply Hwf|]. split; [apply lookup_insert_eq|]. by apply asteps_one.
Qed.

(** The records of a Fetch show the batch. *)
Definition shows (now : Z) (req : ProduceRequest) (resp : ProduceResponse) (freq : FetchRequest)
    (out : list StoredRecord) : Prop :=
  (∀ i r, out !! i = Some r → BaseOffset resp <= fr_Offset freq + Z.of_nat i <= LastOffset resp →
     stamp (BaseOffset resp) now (client_records (pr_Records req))
       !! Z.to_nat (fr_Offset freq + Z.of_nat i - BaseOffset resp) = Some r)
  ∧ (BaseOffset resp <= fr_Offset freq <= LastOffset resp → out ≠ []).

Definition fetch_shows (now : Z) (req : ProduceRequest) (resp : ProduceResponse) (b : abroker)
    (th : thread) : Prop :=
  match th with
  | TEarliest freq out | TLogEnd freq out _ =>
    fetch_key freq = produce_key req → shows now req resp freq out
  | TDone (QFetch freq) (AFetch (inr fresp)) =>
    fetch_key freq = produce_key req → shows now req resp freq (Records fresp)
  | _ => True
  end.

Lemma fetch_shows_section now req resp b th th' b' :
  sync → tstep b th th' b' → acked now req resp b → fetch_shows now req resp b th →
  fetch_shows now req resp b' th'.
Proof.
  intros Hsync Ht (a & tr & a' & Hwf & Ha' & Htr) Hk.
  destruct Ht as [| | | | |b freq a2 out [Ha2 _] Hrd| | | | | | | | | | | |]; try done.
  intros Heq. rewrite Heq in Ha2. assert (a2 = a') as -> by congruence.
  eapply (acknowledged_read sync a a' now _ _ _ tr); [done|done|].
  exact (asteps_app _ _ _ _ _ _ Htr (asteps_one _ _ _ _ Hrd)).
Qed.

(** A Fetch that is invoked after a Produce was answered returns its records. *)
Lemma concurrent_produce x i now req resp tr1 tr2 j freq tr3 fresp z :
  sync → logs_wf (fst x) → snd x = ∅ → fetch_key freq = produce_key req →
  ksteps x (tr1 ++ ERespond i (QProduce now req) (AProduce (inr resp))
              :: tr2 ++ EInvoke j (QFetch freq) :: tr3
              ++ [ERespond j (QFetch freq) (AFetch (inr fresp))]) z →
  shows now req resp freq (Records fresp).
Proof.
  intros Hsync Hwf HP Hkey Hs. apply ksteps_app_inv in Hs as (x1 & H1 & H2).
  destruct (thread_invariant_steps (fun _ => True) (fun _ => True) produce_knows)
    with x tr1 x1 i as [_ Hi]; try done.
  { eauto using produce_knows_step. }
  { eauto using produce_knows_section. }
  { by apply Forall_true. }
  { intros th Hth. by rewrite HP, lookup_empty in Hth. }
  pose proof (ksteps_wf _ _ _ H1 Hwf) as Hwf1.
  inversion H2 as [|? ? x2 ? ? Hr H3]; subst.
  assert (logs_wf (fst x2)) as Hwf2 by (by eapply kstep_wf).
  assert (acked now req resp (fst x2)) as Ha2.
  { eapply acked_step; [exact Hr|done|]. inversion Hr as [| |? ? ? ? ? Hth| |]; subst. exact (Hi _ Hth). }
  apply ksteps_app_inv in H3 as (x3 & H3 & H4).
  pose proof (acked_steps _ _ _ _ _ _ H3 Hwf2 Ha2) as Ha3. pose proof (ksteps_wf _ _ _ H3 Hwf2) as Hwf3.
  inversion H4 as [|? ? x4 ? ? Hinv H5]; subst. apply ksteps_app_inv in H5 as (x5 & H5 & H6).
  assert (∀ th, snd x4 !! j = Some th → fetch_shows now req resp (fst x4) th) as Hj4.
  { inversion Hinv; subst. simpl. intros th. rewrite lookup_insert_eq. by intros [= <-]. }
  destruct (thread_invariant_steps (fun _ => True) (fun x => acked now req resp (fst x))
    (fetch_shows now req resp)) with x4 tr3 x5 j as [_ Hj]; try done.
  { eauto using acked_step. }
  { eauto using fetch_shows_section. }
  { by apply Forall_true. }
  { by eapply kstep_wf. }
  { by eapply acked_step. }
  inversion H6 as [|? ? x6 ? ? Hresp _]; subst. inversion Hresp as [| |? ? ? ? ? Hth| |]; subst.
  exact (Hj _ Hth Hkey).
Qed.

(** ** An acknowledged CommitOffset *)

(** The commit that a thread may still write. *)
Definition thread_commit (th : thread) : option commit :=
  match th with
  | TStart (QCommitOffset now (Some req)) | TCheckFirst now req | TCheckEnd now req _
  | TCommit now req => Some (commit_of now req)
  | _ => None
  end.
Definition in_flight (P : pool) : list commit :=
  omap (fun '(_, th) => thread_commit th) (map_to_list P).
Definition invoked_commit (e : event) : option commit :=
  match e with EInvoke _ q => thread_commit (TStart q) | _ => None end.

(** All commits that may still be written are among [later]. *)
Definition pending_in (later : list commit) (x : abroker * pool) : Prop :=
  ∀ i th c, snd x !! i = Some th → thread_commit th = Some c → c ∈ later.

Lemma in_flight_pending x : pending_in (in_flight (snd x)) x.
Proof.
  intros i th c Hi Hc. apply list_elem_of_omap. exists (i, th).
  split; [by apply elem_of_map_to_list|done].
Qed.

Lemma tstep_commit b th th' b' c :
  tstep b th th' b' → thread_commit th' = Some c → thread_commit th = Some c.
Proof. by destruct 1. Qed.

Lemma pending_step later x e y :
  kstep x e y → (∀ c, invoked_commit e = Some c → c ∈ later) → pending_in later x → pending_in later y.
Proof.
  intros Hst He Hp i th c Hi Hc.
  destruct Hst as [b P j q Hj|b P j u u' b' Hj Ht|b P j q r Hj|b P k b' Hb Hk|b P k b' Hk]; simpl in *.
  - apply lookup_insert_Some in Hi as [[_ <-]|[_ Hi]]; [by apply He|by eapply Hp].
  - apply lookup_insert_Some in Hi as [[_ <-]|[_ Hi]]; [|by eapply Hp].
    eapply Hp; [exact Hj|]. by eapply tstep_commit.
  - apply lookup_delete_Some in Hi as [_ Hi]. by eapply Hp.
  - destruct (keeps_threads k); [by eapply Hp|by rewrite lookup_empty in Hi].
  - by eapply Hp.
Qed.

(** The offset store holds the commit and nothing newer but commits of [later]. *)
Definition commit_held (c : commit) (later : list commit) (b : abroker) : Prop :=
  holds_commit c later (snd (ab_offsets b)).

Lemma held_ostep c later o oc o' :
  ostep o oc o' → (∀ x r, oc = OCommit x r → x ∈ later) →
  holds_commit c later (snd o) → holds_commit c later (snd o').
Proof.
  intros Hst Hx Hh. destruct o as [p l], o' as [p' l'].
  destruct (holds_commit_step p l oc p' l' c later later Hst Hx Hh) as (pre & post & H1 & H2 & H3).
  exists pre, post. split; [done|]. split; [done|]. eapply Forall_impl; [exact H3|].
  intros y [?|?]%elem_of_app; done.
Qed.

Lemma held_section c later b th th' b' :
  tstep b th th' b' → (∀ x, thread_commit th = Some x → x ∈ later) →
  commit_held c later b → commit_held c later b'.
Proof.
  intros Ht Hx Hh. unfold commit_held.
  destruct Ht as [| | | | | | | | | | | | | |b now req r o Ho| | |]; try done.
  eapply held_ostep; [exact Ho| |exact Hh]. intros x r' [= <- _]. by apply Hx.
Qed.

Lemma held_step c later x e y :
  kstep x e y → pending_in later x → commit_held c later (fst x) → commit_held c later (fst y).
Proof.
  intros Hst Hp Hh.
  destruct Hst as [|b P i th th' b' Hi Ht| |b P k b' Hb Hk|b P k b' Hk]; simpl in *; try done.
  - eapply held_section; [exact Ht| |done]. intros z. by eapply Hp.
  - unfold commit_held. destruct (bstep_offsets _ _ _ _ _ _ Hb) as [->|(oc & Ho & Ha)]; [done|].
    eapply held_ostep; [exact Ho| |exact Hh]. intros z r Hz. apply Ha in Hz.
    destruct k; try done; simpl in Hz; by apply elem_of_nil in Hz.
  - destruct Hk as [b r o Ho|]; [|done]. by eapply held_ostep; [exact Ho| |exact Hh].
Qed.

Definition commit_knows (later : list commit) (b : abroker) (th : thread) : Prop :=
  match th with
  | TDone (QCommitOffset now (Some req)) (ACommitOffset (inr _)) =>
    commit_held (commit_of now req) later b
  | _ => True
  end.

Lemma commit_knows_step later x e y th :
  kstep x e y → pending_in later x → commit_knows later (fst x) th → commit_knows later (fst y) th.
Proof.
  intros Hst Hp. destruct th as [| | | | | | | | |[| |? []|] [| |[]|]]; try done. by eapply held_step.
Qed.

Lemma commit_knows_section later b th th' b' :
  tstep b th th' b' → commit_knows later b th → commit_knows later b' th'.
Proof.
  intros Ht Hk. destruct Ht as [| | | | | | | | |b now [req|] c Hc| | | | |b now req r o Ho| | |]; try done.
  destruct r as [[]|e|]; try done. simpl. unfold commit_held. simpl.
  inversion Ho as [cs d c| | | | | | | | | |]; subst; [|by match goal with H : al_failed _ |- _ => destruct H end..].
  exists cs, []. simpl. split; [done|]. split; [lia|constructor].
Qed.

(** What a FetchCommittedOffset returns: the offset of the commit, or of a later one. *)
Definition committed_shows (c : commit) (later : list commit) (b : abroker) (th : thread) : Prop :=
  match th with
  | TDone (QFetchCommittedOffset (Some freq)) (AFetchCommittedOffset (inr resp)) =>
    committed_key freq = c_key c →
    Found resp = true ∧ ∃ x, (x = c ∨ x ∈ later) ∧ c_key x = committed_key freq ∧ NextOffset resp = c_next x
  | _ => True
  end.

Lemma committed_shows_section c later b th th' b' :
  tstep b th th' b' → commit_held c later b → committed_shows c later b th →
  committed_shows c later b' th'.
Proof.
  intros Ht Hh Hk.
  destruct Ht as [| | | | | | | | | | | | | | |b [req|] r Hr| |b req r Ho]; try done.
  destruct r as [v|e|]; try done.
  assert (v = committed (snd (ab_offsets b)) (committed_key req)) as ->.
  { destruct (ab_offsets b). inversion Ho; subst; [done|].
    by match goal with H : al_failed _ |- _ => destruct H end. }
  destruct (committed _ _) as [v|] eqn:Ev; simpl; intros Hkey;
    destruct (holds_committed _ _ _ (committed_key req) Hh) as (x & Hx & Hxk & Hlk); try done;
    rewrite Hlk in Ev; [|done].
  injection Ev as <-. split; [done|]. by exists x.
Qed.

Lemma invoked_later (tr : list event) (later : list commit) :
  (∀ c, c ∈ omap invoked_commit tr → c ∈ later) →
  Forall (fun e => ∀ c, invoked_commit e = Some c → c ∈ later) tr.
Proof.
  intros H. apply Forall_forall. intros e He c Hc. apply H, list_elem_of_omap. eauto.
Qed.

Definition held_pending (c : commit) (later : list commit) (x : abroker * pool) : Prop :=
  pending_in later x ∧ commit_held c later (fst x).

Lemma held_pending_step c later x e y :
  kstep x e y → (∀ c, invoked_commit e = Some c → c ∈ later) →
  held_pending c later x → held_pending c later y.
Proof. intros Hst He [Hp Hh]. split; [by eapply pending_step|by eapply held_step]. Qed.

Lemma held_pending_steps c later x tr y :
  ksteps x tr y → Forall (fun e => ∀ c, invoked_commit e = Some c → c ∈ later) tr →
  held_pending c later x → held_pending c later y.
Proof.
  induction 1; intros HE Hh; [done|]. apply Forall_cons in HE as [He HE]. eauto using held_pending_step.
Qed.

(** From the invocation of a commit to its successful response, and after it. *)
Lemma answered_commit x i now req tr later y z :
  logs_wf (fst x) → pending_in later x → (∀ th, snd x !! i = Some th → commit_knows later (fst x) th) →
  Forall (fun e => ∀ c, invoked_commit e = Some c → c ∈ later) tr →
  ksteps x tr y → kstep y (ERespond i (QCommitOffset now (Some req)) (ACommitOffset (inr tt))) z →
  held_pending (commit_of now req) later z.
Proof.
  intros Hwf Hp HT HE Hs Hr.
  destruct (thread_invariant_steps (fun e => ∀ c, invoked_commit e = Some c → c ∈ later)
    (pending_in later) (commit_knows later)) with x tr y i as [Hpy Hi]; try done.
  { eauto using pending_step. }
  { eauto using commit_knows_step. }
  { eauto using commit_knows_section. }
  split; [by eapply pending_step|]. eapply held_step; [exact Hr|done|].
  inversion Hr as [| |? ? ? ? ? Hth| |]; subst. exact (Hi _ Hth).
Qed.

(** A FetchCommittedOffset that is invoked while the store holds the commit. *)
Lemma fetch_held c later x j freq tr resp y z w :
  logs_wf (fst x) → held_pending c later x → committed_key freq = c_key c →
  Forall (fun e => ∀ c, invoked_commit e = Some c → c ∈ later) tr →
  kstep x (EInvoke j (QFetchCommittedOffset (Some freq))) y → ksteps y tr z →
  kstep z (ERespond j (QFetchCommittedOffset (Some freq)) (AFetchCommittedOffset (inr resp))) w →
  Found resp = true
  ∧ ∃ d, (d = c ∨ d ∈ later) ∧ c_key d = committed_key freq ∧ NextOffset resp = c_next d.
Proof.
  intros Hwf Hh Hkey HE Hinv Hs Hr.
  assert (∀ th, snd y !! j = Some th → committed_shows c later (fst y) th) as Hj.
  { inversion Hinv; subst. simpl. intros th. rewrite lookup_insert_eq. by intros [= <-]. }
  destruct (thread_invariant_steps (fun e => ∀ c, invoked_commit e = Some c → c ∈ later)
    (held_pending c later) (committed_shows c later)) with y tr z j as [_ Hz]; try done.
  { eauto using held_pending_step. }
  { intros b P k th th' b' _ Ht _ [_ Hb] Hc. by eapply committed_shows_section. }
  { by eapply kstep_wf. }
  { by eapply held_pending_step. }
  inversion Hr as [| |? ? ? ? ? Hth| |]; subst. exact (Hz _ Hth Hkey).
Qed.

(** After a commit was answered, a FetchCommittedOffset that is invoked later returns its
    offset, or that of a commit that was not answered before this one was invoked. *)
Lemma concurrent_commit x i now req tr1 tr2 j freq tr3 resp z :
  logs_wf (fst x) → committed_key freq = c_key (commit_of now req) →
  ksteps x (EInvoke i (QCommitOffset now (Some req)) :: tr1
    ++ ERespond i (QCommitOffset now (Some req)) (ACommitOffset (inr tt))
    :: tr2 ++ EInvoke j (QFetchCommittedOffset (Some freq))
    :: tr3 ++ [ERespond j (QFetchCommittedOffset (Some freq)) (AFetchCommittedOffset (inr resp))]) z →
  Found resp = true
  ∧ ∃ c, (c = commit_of now req ∨ c ∈ in_flight (snd x) ∨ c ∈ omap invoked_commit (tr1 ++ tr2 ++ tr3))
      ∧ c_key c = committed_key freq ∧ NextOffset resp = c_next c.
Proof.
  intros Hwf Hkey Hs. set (c := commit_of now req).
  set (later := c :: in_flight (snd x) ++ omap invoked_commit (tr1 ++ tr2 ++ tr3)).
  assert (∀ t, (∀ d, d ∈ omap invoked_commit t → d ∈ omap invoked_commit (tr1 ++ tr2 ++ tr3)) →
    Forall (fun e => ∀ d, invoked_commit e = Some d → d ∈ later) t) as HE.
  { intros t Ht. apply invoked_later. intros d Hd. apply elem_of_cons. right. apply elem_of_app. right.
    by apply Ht. }
  assert (∀ e y, kstep x e y → (∀ d, invoked_commit e = Some d → d ∈ later) → pending_in later y) as Hpend.
  { intros e y Hst He. eapply pending_step; [exact Hst|done|]. intros k th d Hk Hd.
    apply elem_of_cons. right. apply elem_of_app. left. by eapply in_flight_pending. }
  inversion Hs as [|? ? x1 ? ? H0 H1]; subst. pose proof (kstep_wf _ _ _ H0 Hwf) as Hwf1.
  apply ksteps_app_inv in H1 as (x2 & H1 & H2). inversion H2 as [|? ? x3 ? ? Hr H3]; subst.
  assert (held_pending c later x3) as Hh.
  { eapply (answered_commit x1 i now req tr1); [done| | |apply HE|exact H1|exact Hr].
    - eapply Hpend; [exact H0|]. simpl. intros d [= <-]. by constructor.
    - inversion H0; subst. simpl. intros th. rewrite lookup_insert_eq. by intros [= <-].
    - intros d. rewrite omap_app, elem_of_app. by left. }
  assert (logs_wf (fst x3)) as Hwf3 by (eapply kstep_wf; [exact Hr|]; by eapply ksteps_wf).
  apply ksteps_app_inv in H3 as (x4 & H3 & H4). inversion H4 as [|? ? x5 ? ? Hinv H5]; subst.
  apply ksteps_app_inv in H5 as (x6 & H5 & H6). inversion H6 as [|? ? x7 ? ? Hresp _]; subst.
  destruct (fetch_held c later x4 j freq tr3 resp x5 x6 x7) as [Hf (d & Hd & Hk & Hn)]; try done.
  { by eapply ksteps_wf. }
  { eapply held_pending_steps; [exact H3|apply HE|done]. intros d. rewrite !omap_app, !elem_of_app. tauto. }
  { apply HE. intros d. rewrite !omap_app, !elem_of_app. tauto. }
  split; [done|]. exists d. split; [|done]. destruct Hd as [->|Hd]; [by left|].
  apply elem_of_cons in Hd as [->|Hd]; [by left|]. right. by apply elem_of_app.
Qed.

End Spec.
