(* ===== verification/ServiceRefinement.v ===== *)
(** * The broker implements the service

    A node is a data directory with at most one broker process on it.  Its steps are the
    requests of clients, the retention of a partition, shutdown, the end of the process, a
    crash of the machine and [New] (internal/broker/broker.go), each under any schedule of
    I/O failures.  Every run of a node is a run of the specification in ServiceSpec.v, with
    the same responses. *)

From S2P Require Import Prelude FileSystem Runs Names Store Recovery Retention Confine LogSpec.
From S2P Require Import StoreAppend StoreRetention StoreRecovery StoreCrash StoreRefinement.
From S2P Require Import Offsets OffsetsSpec OffsetsLog Topics TopicsSpec Isolation.
From S2P Require Import Grpc GrpcSpec ServiceSpec Family TopicCreation Config Broker.
Open Scope Z_scope.

Section Service.
Context (Marshal : gmap string DiskTopic → bytes).
Context (Unmarshal : bytes → option (gmap string DiskTopic) →
           res (option (gmap string DiskTopic))).
Context `{!JsonLaws Marshal Unmarshal} (cfg : Config) (dataDir : path).

Abbreviation segMax := (SegmentMaxBytes cfg).
Abbreviation maxB := (i64 (MaxBatchBytes cfg)).
Abbreviation interval := (IndexIntervalBytes cfg).
Abbreviation mode := (FlushMode cfg).
Abbreviation offsets_path := (offsets_dir dataDir ++ ["consumer-offsets.log"%string]).

Context (maxB_small : maxB < two31) (segMax_small : segMax < two63).

(** ** Steps *)

Abbreviation snode := (option Server * World)%type.

(** The bounds are those of the machine integers that hold the values. *)
Inductive sstep : snode → bcall → snode → Prop :=
  | s_produce s w fl now req r s' w' :
      0 <= pr_Partition req < two32 → - two63 < now < two63 →
      (∀ p, GetPartition (sv_topics s) (pr_Topic req) (pr_Partition req) = Ok p →
         st_logEndOffset p + blen (pr_Records req) < two64) →
      Produce now req (s, with_faults fl w) = (Ok r, (s', w')) →
      sstep (Some s, w) (BProduce now req r) (Some s', w')
  | s_fetch s w fl req r s' w' :
      0 <= fr_Partition req < two32 →
      Fetch req (s, with_faults fl w) = (Ok r, (s', w')) →
      sstep (Some s, w) (BFetch req r) (Some s', w')
  | s_commit s w fl now req r s' w' :
      (∀ q, req = Some q → 0 <= co_Partition q < two32 ∧ 0 <= co_NextOffset q < two64) →
      CommitOffset now req (s, with_faults fl w) = (Ok r, (s', w')) →
      sstep (Some s, w) (BCommitOffset now req r) (Some s', w')
  | s_committed s w fl req r s' w' :
      (∀ q, req = Some q → 0 <= fc_Partition q < two32) →
      FetchCommittedOffset req (s, with_faults fl w) = (Ok r, (s', w')) →
      sstep (Some s, w) (BFetchCommittedOffset req r) (Some s', w')
  (** a listed topic has been loaded *)
  | s_create s w fl req r s' w' :
      0 <= ct_PartitionCount req < two32 →
      (∀ ts, metadata_ok dataDir Unmarshal (w_files w) ts → is_Some (ts !! ct_Name req) →
         is_Some (m_topics (sv_topics s) !! ct_Name req)) →
      Admin_CreateTopic Marshal Unmarshal req (s, with_faults fl w) = (Ok r, (s', w')) →
      sstep (Some s, w) (BCreateTopic req r) (Some s', w')
  | s_retain s w fl tg now r s' w' :
      0 <= tg_id tg < two32 →
      (∀ p, GetPartition (sv_topics s) (tg_topic tg) (tg_id tg) = Ok p →
         disk_bytes (w_files w) (st_segments p) < two63) →
      retain tg now (s, with_faults fl w) = (r, (s', w')) →
      sstep (Some s, w) (BRetain (tg_topic tg, tg_id tg) now (tg_maxAge tg) (tg_maxBytes tg))
        (Some s', w')
  | s_shutdown s w fl r1 s1 w1 r2 s2 w2 :
      on_offsets Offsets_Close (s, with_faults fl w) = (r1, (s1, w1)) →
      on_manager Manager_Close (s1, w1) = (r2, (s2, w2)) →
      sstep (Some s, w) BShutdown (Some s2, w2)
  | s_stop s w : sstep (Some s, w) BStop (None, w)
  | s_crash o w F' : crashed (w_files w) F' → sstep (o, w) BCrash (None, set_files F' w)
  | s_start w fl r w' :
      Broker_New Unmarshal cfg dataDir (with_faults fl w) = (r, w') →
      sstep (None, w) (BStart (is_ok r))
        (match r with Ok b => Some (b_node b) | _ => None end, w').

Inductive ssteps : snode → list bcall → snode → Prop :=
  | ss_nil n : ssteps n [] n
  | ss_cons n c m tr k : sstep n c m → ssteps m tr k → ssteps n (c :: tr) k.

Lemma ssteps_snoc n tr m c k : ssteps n tr m → sstep m c k → ssteps n (tr ++ [c]) k.
Proof.
  intros Hs Hc. induction Hs as [n|n x m tr o Hst Hs IH]; simpl; econstructor; eauto using ss_nil.
Qed.

(** ** The simulation relation *)

(** There is a log for every partition of the topics, and for nothing else. *)
Definition logs_complete (topics : gmap string DiskTopic) (logs : gmap part (phase * alog)) : Prop :=
  ∀ t i, is_Some (logs !! (t, i)) ↔ ∃ dt, topics !! t = Some dt ∧ 0 <= i < dt_PartitionCount dt.

(** Every registered topic is one of the topics. *)
Definition registry_ok (topics : gmap string DiskTopic) (ts : gmap string Topic) : Prop :=
  ∀ name t, ts !! name = Some t →
    ∃ dt, topics !! name = Some dt ∧ blen (t_partitions t) = dt_PartitionCount dt.

(** The retention policy of a topic is completed with the configuration. *)
Definition retention_defaults (r : RetentionPolicy) : RetentionPolicy :=
  mkRetentionPolicy
    (if MaxAgeSeconds r =? 0 then max_age_seconds cfg else MaxAgeSeconds r)
    (if MaxBytes r =? 0 then DefaultMaxPartitionBytes cfg else MaxBytes r).

Record server_ok (topics : gmap string DiskTopic) (s : Server) : Prop := mkServerOk {
  so_registry : registry_ok topics (m_topics (sv_topics s));
  so_maxRecord : sv_MaxRecordBytes s = MaxRecordBytes cfg;
  so_manager : configured dataDir segMax maxB interval mode (sv_topics s);
  so_defaults : ∀ r, with_defaults (sv_topics s) r = retention_defaults r;
}.

Definition node_stores (o : option Server) : part → option Store :=
  match o with Some s => stores_of (m_topics (sv_topics s)) | None => fun _ => None end.

Record brefines (n : snode) (b : abroker) : Prop := mkBrefines {
  br_topics : map_Forall valid_disk_topic (ab_topics b);
  br_logs : logs_complete (ab_topics b) (ab_logs b);
  br_metadata : metadata_ok dataDir Unmarshal (w_files (snd n)) (ab_topics b);
  br_spare : spare dataDir maxB mode (snd n) (ab_logs b);
  br_family : family dataDir maxB mode (node_stores (fst n)) (snd n) (ab_logs b);
  br_offsets : orefines (offsets_dir dataDir) "consumer-offsets.log"
                 (sv_offsets <$> fst n, snd n) (ab_offsets b);
  br_server : ∀ s, fst n = Some s → server_ok (ab_topics b) s;
}.

Abbreviation step := (bstep (ToLower mode = "sync"%string) (MaxRecordBytes cfg) retention_defaults).
Abbreviation log_step := (astep (ToLower mode = "sync"%string)).

(** The counters of requests and what lies outside the files do not matter. *)
Lemma brefines_same s s' w w' b :
  brefines (Some s, w) b → sv_topics s' = sv_topics s → sv_offsets s' = sv_offsets s →
  sv_MaxRecordBytes s' = sv_MaxRecordBytes s → w_files w' = w_files w →
  brefines (Some s', w') b.
Proof.
  intros [H0 H1 H2 Hs H3 H4 H5] Ht Ho Hm HF. cbn [fst snd node_stores] in *.
  split; cbn [fst snd node_stores]; rewrite ?Ht, ?HF; try done.
  - eapply spare_frame; [|exact Hs]. intros q _. by rewrite HF.
  - eapply family_frame; [exact H3|]. intros q _. by rewrite HF.
  - simpl. rewrite Ho. eapply orefines_frame; [|exact H4]. by rewrite HF.
  - intros x [= <-]. destruct (H5 s eq_refl) as [K1 K2 K3 K4]. split; by rewrite ?Ht, ?Hm.
Qed.

(** ** Partitions of the registry *)

Lemma registry_lookup topics ts t i :
  map_Forall valid_disk_topic topics → registry_ok topics ts → 0 <= i < two32 →
  match stores_of ts (t, i) with
  | Some p => ∀ m, m_topics m = ts → GetPartition m t i = Ok p
  | None => ∀ m, m_topics m = ts →
      ∃ e, GetPartition m t i = Err e ∧ partition_status e = NotFound
  end.
Proof.
  intros Hv Hreg Hi. unfold stores_of, GetPartition. simpl.
  destruct (ts !! t) as [tp|] eqn:Ht; simpl; [|intros m ->; rewrite Ht; eauto].
  destruct (Hreg _ _ Ht) as (dt & Hdt & Hlen).
  destruct (Hv _ _ Hdt) as (_ & _ & Hc). unfold MaxPartitionsPerTopic in Hc.
  destruct (t_partitions tp !! Z.to_nat i) as [p|] eqn:Hp; intros m ->; rewrite Ht;
    unfold Topic_Partition; rewrite Hlen, u32_small by lia; unfold blen in Hlen.
  - apply lookup_lt_Some in Hp as Hl. destruct (Z.leb_spec (dt_PartitionCount dt) i); [lia|].
    by rewrite Hp.
  - apply lookup_ge_None in Hp. destruct (Z.leb_spec (dt_PartitionCount dt) i); [eauto|lia].
Qed.

(** A partition of a request: the process serves it, or its status is NotFound. *)
Lemma request_partition s w b t i :
  brefines (Some s, w) b → 0 <= i < two32 →
  (∃ p a, GetPartition (sv_topics s) t i = Ok p ∧ node_stores (Some s) (t, i) = Some p
     ∧ open_log b (t, i) a ∧ refines (part_dir dataDir (t, i)) maxB mode (Some p, w) a)
  ∨ (∃ e, GetPartition (sv_topics s) t i = Err e ∧ partition_status e = NotFound
       ∧ unknown b (t, i)).
Proof.
  intros [Hv Hlogs _ _ Hfam _ Hsrv] Hi. destruct (Hsrv s eq_refl) as [Hreg _ _ _].
  pose proof (registry_lookup _ _ t i Hv Hreg Hi) as Hg. cbn [fst snd] in *.
  change (stores_of (m_topics (sv_topics s)) (t, i)) with (node_stores (Some s) (t, i)) in Hg.
  destruct (node_stores (Some s) (t, i)) as [p|] eqn:Hp.
  - left. exists p. assert (is_Some (ab_logs b !! (t, i))) as [a Ha].
    { apply Hlogs. simpl in Hp. unfold stores_of in Hp. simpl in Hp.
      destruct (m_topics (sv_topics s) !! t) as [tp|] eqn:Ht; [|done]. simpl in Hp.
      destruct (Hreg _ _ Ht) as (dt & Hdt & Hlen). exists dt. split; [done|].
      apply lookup_lt_Some in Hp. unfold blen in Hlen. lia. }
    destruct (Hfam _ _ Ha) as (_ & Hr & _). rewrite Hp in Hr. exists a.
    split; [by apply Hg|]. split; [done|]. split; [|done]. split; [done|].
    destruct a as [[] l]; simpl in *; done.
  - right. destruct (Hg _ eq_refl) as (e & He & Hs). exists e. split; [done|]. split; [done|].
    intros a [Ha Hd]. destruct (Hfam _ _ Ha) as (_ & Hr & _). rewrite Hp in Hr.
    by destruct a as [[] l].
Qed.

(** The bounds that the process reports of a log that it serves. *)
Lemma served_bounds d p w a :
  refines d maxB mode (Some p, w) a → fst a = Serving →
  st_earliestOffset p = al_first (snd a) ∧ st_logEndOffset p = al_end (snd a).
Proof.
  destruct a as [ph l]. simpl. intros Hr ->. simpl in Hr. split; [apply Hr|].
  exact (serves_end _ _ _ _ _ _ Hr).
Qed.

(** ** A call on one partition *)

Lemma stores_set_partition m t i p p1 k :
  0 <= i → GetPartition m t i = Ok p → 0 <= snd k →
  stores_of (m_topics (set_partition t i p1 m)) k
  = if decide (k = (t, i)) then Some p1 else stores_of (m_topics m) k.
Proof.
  intros Hi Hp Hk. apply GetPartition_inv in Hp as (tp & Ht & Hl & _). destruct k as [t' i'].
  simpl in Hk. unfold set_partition, stores_of. rewrite Ht. simpl.
  destruct (decide (t = t')) as [<-|Hne].
  - rewrite lookup_insert_eq, Ht. simpl. case_decide as Hd.
    + injection Hd as ->. apply list_lookup_insert_eq. by eapply lookup_lt_Some.
    + apply list_lookup_insert_ne. intros Heq. apply Hd. f_equal. lia.
  - rewrite lookup_insert_ne by done. case_decide; [congruence|done].
Qed.

Lemma registry_ok_set topics m t i p1 :
  registry_ok topics (m_topics m) → registry_ok topics (m_topics (set_partition t i p1 m)).
Proof.
  intros H. unfold set_partition. destruct (m_topics m !! t) as [tp|] eqn:Ht; [|done].
  intros name t'. simpl. intros [[<- <-]|[_ H']]%lookup_insert_Some; [|by apply H].
  destruct (H _ _ Ht) as (dt & Hdt & Hl). exists dt. simpl. by rewrite blen_insert.
Qed.

Lemma set_partition_conf t i p1 m :
  configured dataDir segMax maxB interval mode m →
  configured dataDir segMax maxB interval mode (set_partition t i p1 m)
  ∧ ∀ r, with_defaults (set_partition t i p1 m) r = with_defaults m r.
Proof. intros H. unfold set_partition. by destruct (m_topics m !! t). Qed.

Lemma metadata_unmoved logs w w' topics :
  unmoved dataDir logs w w' → metadata_ok dataDir Unmarshal (w_files w) topics →
  metadata_ok dataDir Unmarshal (w_files w') topics.
Proof. intros Hu. apply metadata_same. eapply unmoved_other; [exact Hu|apply metadata_not_part]. Qed.

Lemma offsets_not_part : ¬ part_file dataDir offsets_path.
Proof. unfold offsets_dir. rewrite <- app_assoc. apply short_not_part_file. simpl. lia. Qed.

Lemma logs_complete_insert topics logs k a a' :
  logs_complete topics logs → logs !! k = Some a → logs_complete topics (<[k := a']> logs).
Proof.
  intros H Hk t i. rewrite lookup_insert_is_Some'. rewrite <- (H t i). split; [|auto].
  intros [<-|?]; [eauto|done].
Qed.

Lemma part_step s w b t i p a c p1 w1 :
  brefines (Some s, w) b → 0 <= i → GetPartition (sv_topics s) t i = Ok p →
  node_stores (Some s) (t, i) = Some p → ab_logs b !! (t, i) = Some a → c ≠ CCrash →
  pstep (part_dir dataDir (t, i)) segMax maxB interval mode (Some p, w) c (Some p1, w1) →
  ∃ a', log_step a c a'
    ∧ brefines (Some (sv_with_topics (set_partition t i p1 (sv_topics s)) s), w1)
        (ab_with_log (t, i) a' b).
Proof.
  intros [Hv Hlogs Hmeta Hs Hfam Hoff Hsrv] Hi Hp Hst Ha Hc Hstep. cbn [fst snd] in *.
  rewrite <- Hst in Hstep.
  destruct (family_step _ _ _ _ _ maxB_small segMax_small _ _ _ _ _ _ _ _ Hfam Ha Hc Hstep)
    as (a' & Hlog & Hu & _ & Hf).
  exists a'. split; [done|]. split; cbn [fst snd node_stores]; try done.
  - by eapply logs_complete_insert.
  - by eapply metadata_unmoved.
  - eapply spare_dom; [|eapply spare_known; [eapply family_nonneg, Hfam|exact Hu|exact Hs]].
    intros k' Hk'. apply lookup_insert_is_Some'. by right.
  - eapply family_ext; [exact Hf|]. intros k _ Hk. simpl. by eapply stores_set_partition.
  - eapply orefines_frame; [|exact Hoff]. eapply unmoved_other; [exact Hu|apply offsets_not_part].
  - intros x [= <-]. destruct (Hsrv s eq_refl) as [Hreg Hm Hconf Hdef].
    destruct (set_partition_conf t i p1 _ Hconf) as [Hconf' Hdef'].
    split; [by apply registry_ok_set|done|done|]. intros r. simpl. by rewrite Hdef'.
Qed.

(** ** Refused requests *)

(** A handler that returns a status and changes nothing. *)
Lemma refuse_sim {A} method (h : M (Server * World) (rpc A)) (label : rpc A → bcall) c s w fl R s' w' b :
  counted method h (s, with_faults fl w) = (R, (s', w')) → brefines (Some s, w) b →
  h (s, with_faults fl w) = (Ok (inl c), (s, with_faults fl w)) → step b (label (inl c)) b →
  ∃ r b', R = Ok r ∧ step b (label r) b' ∧ brefines (Some s', w') b'.
Proof.
  intros E Hb Hh Hst. rewrite (counted_intro _ _ _ _ _ _ _ Hh) in E. injection E as <- <- <-.
  exists (inl c), b. split; [done|]. split; [done|]. by apply (brefines_same s _ w).
Qed.

Lemma with_partition_missing {A} t i (k : Store → M (Server * World) (rpc A)) s w e :
  GetPartition (sv_topics s) t i = Err e → partition_status e = NotFound →
  with_partition t i k (s, w) = (Ok (inl NotFound), (s, w)).
Proof. intros Hp He. unfold with_partition, bind, get_obj. by rewrite Hp, He. Qed.

Lemma blen_nonempty {A} (l : list A) : l ≠ [] → (blen l =? 0) = false.
Proof. destruct l; [done|]. intros _. apply Z.eqb_neq. rewrite blen_cons. blen_lia. Qed.

(** ** Produce *)

Lemma produce_sim s w fl now req R s' w' b :
  brefines (Some s, w) b → 0 <= pr_Partition req < two32 → - two63 < now < two63 →
  (∀ p, GetPartition (sv_topics s) (pr_Topic req) (pr_Partition req) = Ok p →
     st_logEndOffset p + blen (pr_Records req) < two64) →
  Produce now req (s, with_faults fl w) = (R, (s', w')) →
  ∃ r b', R = Ok r ∧ step b (BProduce now req r) b' ∧ brefines (Some s', w') b'.
Proof.
  intros Hb Hi Hnow Hend E. destruct (br_server _ _ Hb s eq_refl) as [_ Hm _ _].
  pose proof (fun c => refuse_sim _ _ (BProduce now req) c _ _ _ _ _ _ b E Hb) as Hrefuse.
  destruct (decide (pr_Records req = [])) as [Hnil|Hne].
  { apply (Hrefuse InvalidArgument); [by rewrite Hnil|by constructor]. }
  rewrite (blen_nonempty _ Hne) in Hrefuse.
  destruct (request_partition _ _ _ (pr_Topic req) (pr_Partition req) Hb Hi)
    as [(p & a & Hp & Hst & Ha & _)|(e & Hp & He & Hun)].
  2:{ apply (Hrefuse NotFound); [by eapply with_partition_missing|by constructor]. }
  destruct (decide (Forall (fun r => recordPayloadSize r <= sv_MaxRecordBytes s) (pr_Records req)))
    as [Hsz|Hsz].
  2:{ apply not_Forall_Exists in Hsz; [|solve_decision].
      apply (Exists_impl _ (fun r => sv_MaxRecordBytes s < recordPayloadSize r)) in Hsz;
        [|simpl; lia]. apply (Hrefuse ResourceExhausted).
      - rewrite (with_partition_ok _ _ _ _ _ _ Hp). unfold bind, get_obj.
        by rewrite convert_records_None.
      - apply b_produce_large. by rewrite <- Hm. }
  destruct (Store_Append now (client_records (pr_Records req)) (p, with_faults fl w))
    as [r0 [p1 w1]] eqn:EA.
  destruct (part_step _ _ _ _ _ _ _ (CAppend now (client_records (pr_Records req)) r0) p1 w1 Hb
    (proj1 Hi) Hp Hst (proj1 Ha)) as (a' & Hlog & Hb'); [done| |].
  { apply (p_append _ _ _ _ _ _ _ fl); [done| |done]. unfold client_records.
    rewrite blen_fmap. by apply Hend. }
  assert (r0 ≠ Panic) as Hnp by (intros ->; inversion Hlog; subst;
    match goal with H : al_failed Panic |- _ => by destruct H end).
  rewrite (Produce_run _ _ _ _ _ Hne Hp Hsz _ _ _ EA Hnp) in E. injection E as <- <- <-.
  exists (produce_response req r0), (ab_with_log (produce_key req) a' b).
  split; [by destruct r0 as [[]| |]|]. split; [by eapply b_produce|].
  by apply (brefines_same _ _ _ _ _ Hb').
Qed.

(** ** Fetch *)

Lemma read_keeps a off maxBytes r a' : log_step a (CRead off maxBytes r) a' → a' = a ∧ r ≠ Panic.
Proof.
  inversion 1; subst; (split; [done|]); try done.
  match goal with H : al_failed _ |- _ => by destruct H as [? ->] end.
Qed.

Lemma fetch_sim s w fl req R s' w' b :
  brefines (Some s, w) b → 0 <= fr_Partition req < two32 →
  Fetch req (s, with_faults fl w) = (R, (s', w')) →
  ∃ r b', R = Ok r ∧ step b (BFetch req r) b' ∧ brefines (Some s', w') b'.
Proof.
  intros Hb Hi E. pose proof (fun c => refuse_sim _ _ (BFetch req) c _ _ _ _ _ _ b E Hb) as Hrefuse.
  destruct (Z.eqb_spec (fr_MaxBytes req) 0) as [H0|H0].
  { apply (Hrefuse InvalidArgument); [done|by constructor]. }
  destruct (request_partition _ _ _ (fr_Topic req) (fr_Partition req) Hb Hi)
    as [(p & a & Hp & Hst & Ha & Hr)|(e & Hp & He & Hun)].
  2:{ apply (Hrefuse NotFound); [by eapply with_partition_missing|by constructor]. }
  destruct (Store_Read (fr_Offset req) (fr_MaxBytes req) (p, with_faults fl w))
    as [r0 [p1 w1]] eqn:ER.
  destruct (part_step _ _ _ _ _ _ _ (CRead (fr_Offset req) (fr_MaxBytes req) r0) p1 w1 Hb
    (proj1 Hi) Hp Hst (proj1 Ha)) as (a' & Hlog & Hb'); [done|by apply (p_read _ _ _ _ _ _ _ fl)|].
  destruct (read_keeps _ _ _ _ _ Hlog) as [-> Hnp].
  assert (p1 = p) as -> by (by eapply Store_Read_store).
  rewrite (Fetch_run _ _ _ _ _ _ H0 Hp ER Hnp) in E. injection E as <- <- <-.
  exists (fetch_response (snd a) r0), b. split.
  { destruct r0 as [out|e|]; try done. simpl. destruct a as [ph l].
    apply read_ok_inv in Hlog as (l' & [= -> ->] & _). simpl in Hr. simpl.
    rewrite (serves_end _ _ _ _ _ _ Hr). destruct Hr as (_ & He & _). by rewrite He. }
  split; [by eapply b_fetch|].
  assert (ab_with_log (fr_Topic req, fr_Partition req) a b = b) as Hid.
  { unfold ab_with_log. rewrite insert_id by apply Ha. by destruct b. }
  rewrite Hid in Hb'. apply (brefines_same _ _ _ _ _ Hb'); try done. simpl.
  by rewrite (set_partition_same _ _ _ _ Hp).
Qed.

(** ** The offset store *)

(** The store works on its own file only. *)
Definition offsets_at (s : OffsetStore) : Prop := os_filePath s = offsets_path.
Abbreviation OFFSETS m := (confined (on_obj offsets_at) (eq offsets_path) m (fun _ => True)).

Lemma Commit_confined now g t p n : OFFSETS (Commit now g t p n).
Proof.
  unfold Commit, os_mark_failed. confine.
Qed.

Lemma Offsets_Close_confined : OFFSETS Offsets_Close.
Proof.
  unfold Offsets_Close. confine.
Qed.

Lemma orefines_path s w a :
  orefines (offsets_dir dataDir) "consumer-offsets.log" (Some s, w) a → os_filePath s = offsets_path.
Proof. destruct a as [[] l]; simpl; by intros []. Qed.

Lemma offsets_only s w oc n' a :
  nstep (offsets_dir dataDir) "consumer-offsets.log" (Some s, w) oc n' → oc ≠ OCrash →
  orefines (offsets_dir dataDir) "consumer-offsets.log" (Some s, w) a →
  ∀ q, q ≠ offsets_path → w_files (snd n') !! q = w_files w !! q.
Proof.
  intros Hst Hc Href q Hq. apply orefines_path in Href.
  inversion Hst as [? ? fl c r s' w' _ _ E| |? ? fl r s' w' E| | |]; subst; try done.
  - destruct (Commit_confined _ _ _ _ _ (s, with_faults fl w) _ _ Href E) as (_ & [HF _] & _).
    apply HF. congruence.
  - destruct (Offsets_Close_confined (s, with_faults fl w) _ _ Href E) as (_ & [HF _] & _).
    apply HF. congruence.
Qed.

Lemma metadata_not_offsets : metadata_path dataDir ≠ offsets_path.
Proof.
  unfold metadata_path, metadata_dir, offsets_dir. rewrite <- !app_assoc. by intros H%app_inv_head.
Qed.

Lemma offsets_step s w b oc o1 w1 :
  brefines (Some s, w) b → oc ≠ OCrash →
  nstep (offsets_dir dataDir) "consumer-offsets.log" (Some (sv_offsets s), w) oc (Some o1, w1) →
  ∃ o', ostep (ab_offsets b) oc o'
    ∧ brefines (Some (sv_with_offsets o1 s), w1) (ab_with_offsets o' b).
Proof.
  intros [Hv Hlogs Hmeta Hs Hfam Hoff Hsrv] Hc Hst. cbn [fst snd] in *.
  pose proof (offsets_only _ _ _ _ _ Hst Hc Hoff) as HF. cbn [snd] in HF.
  destruct (osimulation _ _ _ _ _ _ Hst Hoff) as (o' & Ho & Hoff'). exists o'. split; [done|].
  split; cbn [fst snd node_stores]; try done.
  - eapply metadata_same; [|exact Hmeta]. apply HF, metadata_not_offsets.
  - eapply spare_frame; [|exact Hs]. intros q Hq. apply HF. intros ->. by apply offsets_not_part.
  - eapply family_frame; [exact Hfam|]. intros q Hq. apply HF. intros ->. by apply offsets_not_part.
  - intros x [= <-]. by destruct (Hsrv s eq_refl).
Qed.

(** ** CommitOffset *)

Lemma commit_not_panic o c r o' : ostep o (OCommit c r) o' → r ≠ Panic.
Proof.
  inversion 1; subst; try done; match goal with H : al_failed _ |- _ => by destruct H as [? ->] end.
Qed.

Lemma commit_sim s w fl now req R s' w' b :
  brefines (Some s, w) b →
  (∀ q, req = Some q → 0 <= co_Partition q < two32 ∧ 0 <= co_NextOffset q < two64) →
  CommitOffset now req (s, with_faults fl w) = (R, (s', w')) →
  ∃ r b', R = Ok r ∧ step b (BCommitOffset now req r) b' ∧ brefines (Some s', w') b'.
Proof.
  intros Hb Hty E.
  pose proof (fun c => refuse_sim _ _ (BCommitOffset now req) c _ _ _ _ _ _ b E Hb) as Hrefuse.
  destruct req as [req|]; [|apply (Hrefuse InvalidArgument); [done|by constructor]].
  destruct (Hty req eq_refl) as [Hi Hnext].
  destruct (decide (co_ConsumerGroup req = [])) as [Hg|Hg].
  { apply (Hrefuse InvalidArgument); [by rewrite Hg|by constructor]. }
  apply blen_nonempty in Hg. rewrite Hg in Hrefuse. apply Z.eqb_neq in Hg.
  destruct (request_partition _ _ _ (co_Topic req) (co_Partition req) Hb Hi)
    as [(p & a & Hp & Hst & Ha & Hr)|(e & Hp & He & Hun)].
  2:{ apply (Hrefuse NotFound); [by eapply with_partition_missing|by constructor]. }
  pose proof (served_bounds _ _ _ _ Hr) as Hbounds.
  destruct (decide (st_earliestOffset p <= co_NextOffset req <= st_logEndOffset p)) as [Hin|Hout].
  2:{ apply (Hrefuse OutOfRange).
      - rewrite (with_partition_ok _ _ _ _ _ _ Hp).
        destruct (Z.ltb_spec (co_NextOffset req) (st_earliestOffset p)); [done|].
        destruct (Z.ltb_spec (st_logEndOffset p) (co_NextOffset req)); [done|lia].
      - eapply b_commit_range; [exact Ha|]. intros Hph. apply Hbounds in Hph as [H1 H2]. lia. }
  destruct (Commit now (co_ConsumerGroup req) (String.list_byte_of_string (co_Topic req))
    (co_Partition req) (co_NextOffset req) (sv_offsets s, with_faults fl w)) as [r0 [o1 w1]] eqn:EC.
  destruct (offsets_step _ _ _ (OCommit (commit_of now req) r0) o1 w1 Hb) as (o' & Ho & Hb'); [done| |].
  { by apply (n_commit _ _ _ _ fl (commit_of now req)). }
  rewrite (CommitOffset_run _ _ _ _ _ _ _ _ Hg Hp Hin EC (commit_not_panic _ _ _ _ Ho)) in E.
  injection E as <- <- <-. exists (commit_response r0), (ab_with_offsets o' b). split; [done|].
  split; [|by apply (brefines_same _ _ _ _ _ Hb')]. eapply b_commit; [exact Ha| |done].
  intros Hph. apply Hbounds in Hph as [H1 H2]. lia.
Qed.

(** ** FetchCommittedOffset *)

Lemma committed_get s w b req :
  brefines (Some s, w) b →
  let r := Offsets_Get (sv_offsets s) (fc_ConsumerGroup req) (String.list_byte_of_string (fc_Topic req))
             (fc_Partition req) in
  ostep (ab_offsets b) (OGet (committed_key req) r) (ab_offsets b) ∧ r ≠ Panic.
Proof.
  intros Hb r.
  pose proof (n_get (offsets_dir dataDir) "consumer-offsets.log" (sv_offsets s) w (committed_key req))
    as Hn. cbn [committed_key Group Offsets.Topic Partition] in Hn. fold r in Hn.
  destruct (osimulation _ _ _ _ _ _ Hn (br_offsets _ _ Hb)) as (o' & Ho & _).
  assert (o' = ab_offsets b) as -> by (inversion Ho; congruence). split; [done|].
  inversion Ho as [| | | |? ? Hx|? ? ? ? Hx Hf| | | | |]; [congruence|]. by destruct Hf as [? ->].
Qed.

Lemma committed_sim s w fl req R s' w' b :
  brefines (Some s, w) b → (∀ q, req = Some q → 0 <= fc_Partition q < two32) →
  FetchCommittedOffset req (s, with_faults fl w) = (R, (s', w')) →
  ∃ r b', R = Ok r ∧ step b (BFetchCommittedOffset req r) b' ∧ brefines (Some s', w') b'.
Proof.
  intros Hb Hty E. assert (brefines (Some s, with_faults fl w) b) as Hbf by by apply (brefines_same s _ w).
  unfold FetchCommittedOffset in E.
  destruct req as [req|]; [|injection E as <- <- <-; eexists _, b; by split; [|split; [constructor|]]].
  destruct (Z.eqb_spec (blen (fc_ConsumerGroup req)) 0) as [Hg|Hg].
  { injection E as <- <- <-. eexists _, b. split; [done|]. split; [|done]. constructor.
    destruct (fc_ConsumerGroup req); [done|]. rewrite blen_cons in Hg. blen_lia. }
  destruct (request_partition _ _ _ (fc_Topic req) (fc_Partition req) Hb (Hty _ eq_refl))
    as [(p & a & Hp & Hst & Ha & Hr)|(e & Hp & He & Hun)].
  2:{ unfold with_partition, bind, get_obj in E. rewrite Hp, He in E. injection E as <- <- <-.
      eexists _, b. by split; [|split; [constructor|]]. }
  rewrite (with_partition_ok _ _ _ _ _ _ Hp) in E. unfold bind, get_obj in E.
  destruct (committed_get _ _ _ req Hb) as [Ho Hne].
  exists (committed_response (Offsets_Get (sv_offsets s) (fc_ConsumerGroup req)
    (String.list_byte_of_string (fc_Topic req)) (fc_Partition req))), b.
  destruct (Offsets_Get _ _ _ _) as [[v|]|e|]; try done;
    injection E as <- <- <-; (split; [done|]; split; [|done]); by eapply b_committed.
Qed.

(** ** Retention *)

Lemma retain_sim s w fl tg now r s' w' b :
  brefines (Some s, w) b → 0 <= tg_id tg < two32 →
  (∀ p, GetPartition (sv_topics s) (tg_topic tg) (tg_id tg) = Ok p →
     disk_bytes (w_files w) (st_segments p) < two63) →
  retain tg now (s, with_faults fl w) = (r, (s', w')) →
  ∃ b', step b (BRetain (tg_topic tg, tg_id tg) now (tg_maxAge tg) (tg_maxBytes tg)) b'
    ∧ brefines (Some s', w') b'.
Proof.
  intros Hb Hi Hsz E. unfold retain, bind at 1, get_obj in E.
  destruct (request_partition _ _ _ (tg_topic tg) (tg_id tg) Hb Hi)
    as [(p & a & Hp & Hst & Ha & Hr)|(e & Hp & He & Hun)]; rewrite Hp in E.
  2:{ injection E as <- <- <-. exists b. split; [by constructor|]. by apply (brefines_same s _ w). }
  unfold dropped, bind, attempt, on_log in E.
  change (partition.ApplyRetention now (tg_maxAge tg) (tg_maxBytes tg))
    with (Store_ApplyRetention now (tg_maxAge tg) (tg_maxBytes tg)) in E.
  destruct (Store_ApplyRetention now (tg_maxAge tg) (tg_maxBytes tg) (p, with_faults fl w))
    as [r0 [p1 w1]] eqn:ER.
  destruct (part_step _ _ _ _ _ _ _ (CRetain now (tg_maxAge tg) (tg_maxBytes tg) r0) p1 w1 Hb
    (proj1 Hi) Hp Hst (proj1 Ha)) as (a' & Hlog & Hb'); [done|by apply (p_retain _ _ _ _ _ _ _ fl); auto|].
  exists (ab_with_log (tg_topic tg, tg_id tg) a' b). split; [by eapply b_retain|].
  assert ((s', w') = (sv_with_topics (set_partition (tg_topic tg) (tg_id tg) p1 (sv_topics s)) s, w1))
    as [= -> ->]; [|done]. by destruct r0; injection E as <- <- <-.
Qed.

(** ** Shutdown and the end of the process *)

Lemma logs_complete_reach topics T logs logs' :
  logs_complete topics logs → all_reach (ToLower mode = "sync"%string) T logs logs' →
  logs_complete topics logs'.
Proof. intros H Hr t i. rewrite <- (H t i). symmetry. by eapply all_reach_is_Some. Qed.

Lemma registry_parts topics m logs :
  logs_complete topics logs → registry_ok topics (m_topics m) → parts_known m logs.
Proof.
  intros Hl Hr name t Ht i Hi. apply Hl. destruct (Hr _ _ Ht) as (dt & Hdt & Hlen). exists dt.
  split; [done|]. unfold blen in Hlen. lia.
Qed.

Lemma registry_shape topics (ts ts' : gmap string Topic) :
  map_Forall2 (fun _ t t' => length (t_partitions t) = length (t_partitions t')) ts ts' →
  registry_ok topics ts → registry_ok topics ts'.
Proof.
  intros Hs Hr name t' Ht'. specialize (Hs name). rewrite Ht' in Hs.
  inversion Hs as [t ? Hlen Ht|]; subst. destruct (Hr name t) as (dt & Hdt & Hl); [done|].
  exists dt. split; [done|]. unfold blen in *. by rewrite <- Hlen.
Qed.

Lemma manager_close_sim s w b r s' w' :
  brefines (Some s, w) b → on_manager Manager_Close (s, w) = (r, (s', w')) →
  ∃ logs', all_reach (ToLower mode = "sync"%string) is_close (ab_logs b) logs'
    ∧ map_Forall (fun _ a => fst a = Closed ∨ fst a = Down) logs'
    ∧ brefines (Some s', w') (ab_with_logs logs' b).
Proof.
  intros [Hv Hlogs Hmeta Hs Hfam Hoff Hsrv] E. destruct (Hsrv s eq_refl) as [Hreg Hm Hconf Hdef].
  cbn [fst snd] in *.
  unfold on_manager in E. destruct (Manager_Close (sv_topics s, w)) as [r0 [m1 w1]] eqn:E0.
  injection E as <- <- <-. pose proof (registry_parts _ _ _ Hlogs Hreg) as Hparts.
  destruct (Manager_Close_family _ _ _ interval _ maxB_small segMax_small _ _ _ _ _ _ Hfam Hparts E0)
    as ((ts & -> & Hshape) & logs' & Hr & Hu & Hf & Hc).
  exists logs'. split; [done|]. split.
  - intros [t i] [p l] Ha. simpl. destruct (Hf _ _ Ha) as (H0 & Hrf & _). simpl in H0, Hrf.
    destruct (stores_of ts (t, i)) as [st|] eqn:Est; [left|right; by destruct p].
    unfold stores_of in Est. simpl in Est. specialize (Hshape t).
    destruct (ts !! t) as [tp'|]; [|done]. inversion Hshape as [tp ? Hlen Htp|]; subst.
    symmetry in Htp. simpl in Est. apply lookup_lt_Some in Est.
    destruct (Hc _ _ Htp (Z.to_nat i)) as [l' Hl']; [lia|]. rewrite Z2Nat.id in Hl' by done. congruence.
  - split; cbn [fst snd node_stores]; try done.
    + by eapply logs_complete_reach.
    + by eapply metadata_unmoved.
    + eapply spare_reach; [exact Hr|]. eapply spare_known, Hs; [eapply family_nonneg, Hfam|exact Hu].
    + eapply orefines_frame; [|exact Hoff]. eapply unmoved_other; [exact Hu|apply offsets_not_part].
    + intros x [= <-]. split; try done. by eapply registry_shape.
Qed.

Lemma shutdown_sim s w fl r1 s1 w1 r2 s2 w2 b :
  brefines (Some s, w) b → on_offsets Offsets_Close (s, with_faults fl w) = (r1, (s1, w1)) →
  on_manager Manager_Close (s1, w1) = (r2, (s2, w2)) →
  ∃ b', step b BShutdown b' ∧ brefines (Some s2, w2) b'.
Proof.
  intros Hb E1 E2. unfold on_offsets in E1.
  destruct (Offsets_Close (sv_offsets s, with_faults fl w)) as [r0 [o1 w0]] eqn:E0.
  injection E1 as -> <- ->.
  destruct (offsets_step _ _ _ (OClose r1) o1 w1 Hb) as (o' & Ho & Hb'); [done|by econstructor|].
  destruct (manager_close_sim _ _ _ _ _ _ Hb' E2) as (logs' & Hr & Hd & Hb2).
  exists (mkAbroker (ab_topics b) logs' o'). split; [by eapply b_shutdown|done].
Qed.

(** The process ends: nothing is open any more. *)
Lemma stop_sim s w b :
  brefines (Some s, w) b → ∃ b', step b BStop b' ∧ brefines (None, w) b'.
Proof.
  intros [Hv Hlogs Hmeta Hs Hfam Hoff Hsrv]. cbn [fst snd] in *.
  destruct (osimulation _ _ _ _ _ _ (n_stop _ _ (sv_offsets s) w) Hoff) as (o' & Ho & Hoff').
  exists (mkAbroker (ab_topics b) (with_phase Down (ab_logs b)) o'). split; [by apply b_stop|].
  split; cbn [fst snd node_stores ab_topics ab_logs ab_offsets]; try done.
  - intros t i. unfold with_phase. rewrite lookup_fmap, fmap_is_Some. apply Hlogs.
  - eapply spare_dom, Hs. intros k Hk. unfold with_phase. by rewrite lookup_fmap, fmap_is_Some.
  - intros k a Hk. unfold with_phase in Hk. apply lookup_fmap_Some in Hk as (a0 & <- & Hk).
    destruct (Hfam _ _ Hk) as (H0 & Hr & _). split; [done|]. split; [|done].
    exact (refines_stored _ _ _ _ _ Hr).
Qed.

(** ** Crashes *)

Lemma crash_sim o w F' b :
  brefines (o, w) b → crashed (w_files w) F' →
  ∃ b', step b BCrash b' ∧ brefines (None, set_files F' w) b'.
Proof.
  intros [Hv Hlogs Hmeta Hs Hfam Hoff Hsrv] Hcr. cbn [fst snd] in *.
  destruct (osimulation _ _ _ _ _ _ (n_crash _ _ (sv_offsets <$> o) w F' Hcr) Hoff)
    as (o' & Ho & Hoff').
  destruct (family_crash _ _ _ _ _ _ _ Hfam Hcr) as (logs' & Hr & Hf).
  exists (mkAbroker (ab_topics b) logs' o').
  split; [by eapply b_crash, Ho; [|eapply family_none_down]|].
  split; cbn [fst snd node_stores ab_topics ab_logs ab_offsets]; try done.
  - by eapply logs_complete_reach.
  - by eapply metadata_crash.
  - eapply spare_reach; [exact Hr|by apply spare_crash].
Qed.

(** ** Start *)

Abbreviation reach := (all_reach (ToLower mode = "sync"%string)).

(** What NewManager leaves: all topics loaded, or none because the metadata was not found. *)
Definition manager_loaded (topics : gmap string DiskTopic) (m : Manager) (w : World)
    (logs logs' : gmap part (phase * alog)) : Prop :=
  configured dataDir segMax maxB interval mode m ∧ registry_ok topics (m_topics m)
  ∧ reach is_open logs logs' ∧ family dataDir maxB mode (stores_of (m_topics m)) w logs'
  ∧ (logs' = logs ∨ logs' = with_phase Serving logs).

Definition empty_manager : Manager := mkManager ∅ dataDir segMax maxB interval mode 0 0.

Lemma empty_loaded topics w logs :
  family dataDir maxB mode (fun _ => None) w logs → manager_loaded topics empty_manager w logs logs.
Proof.
  intros Hf. split; [by repeat split|]. split; [done|]. split; [apply all_reach_refl|].
  split; [|by left]. eapply family_ext; [exact Hf|done].
Qed.

Lemma topics_to_load topics m logs :
  map_Forall valid_disk_topic topics → logs_complete topics logs → m_topics m = ∅ →
  to_load (map_to_list topics) m logs.
Proof.
  intros Hv Hl Hm name dt Hin%elem_of_map_to_list. split; [by apply Hv|].
  split; [by rewrite Hm|]. intros i Hi. apply Hl. exists dt. split; [done|lia].
Qed.

Lemma load_topics_registry topics m w m' w' :
  m_topics m = ∅ → load_topics (map_to_list topics) (m, w) = (Ok tt, (m', w')) →
  registry_ok topics (m_topics m')
  ∧ ∀ logs k, logs_complete topics logs → is_Some (logs !! k) → 0 <= snd k →
      is_Some (stores_of (m_topics m') k).
Proof.
  intros Hm E. apply load_topics_spec in E as [Hin Hout]; [|apply NoDup_fst_map_to_list].
  assert (∀ name dt, topics !! name = Some dt →
    ∃ t, m_topics m' !! name = Some t ∧ blen (t_partitions t) = dt_PartitionCount dt) as Hall.
  { intros name dt Hdt%elem_of_map_to_list. destruct (Hin _ _ Hdt) as (t & Ht & _ & _ & Hl). eauto. }
  split.
  - intros name t Ht. destruct (topics !! name) as [dt|] eqn:Hdt.
    + destruct (Hall _ _ Hdt) as (t' & Ht' & Hl). exists dt. split; [done|]. congruence.
    + rewrite Hout, Hm in Ht; [done|]. intros Hx. apply list_elem_of_fmap in Hx as ([n x] & -> & Hx).
      apply elem_of_map_to_list in Hx. simpl in Hdt. congruence.
  - intros logs [t i] Hl Hk H0. apply Hl in Hk as (dt & Hdt & Hi).
    destruct (Hall _ _ Hdt) as (tp & Htp & Hlen). unfold stores_of. simpl in *. rewrite Htp. simpl.
    apply lookup_lt_is_Some. unfold blen in Hlen. lia.
Qed.

Lemma topics_loaded topics m w logs r m' w' :
  m = empty_manager → map_Forall valid_disk_topic topics → logs_complete topics logs → family dataDir maxB mode (fun _ => None) w logs →
  load_topics (map_to_list topics) (m, w) = (r, (m', w')) →
  (r = Ok tt ∧ unmoved dataDir logs w w' ∧ ∃ logs', manager_loaded topics m' w' logs logs')
  ∨ (∃ e, r = Err e ∧ start_failed dataDir maxB mode w logs w').
Proof.
  intros -> Hv Hl Hf E. destruct (empty_loaded topics _ _ Hf) as (Hc & _ & _ & Hf0 & _).
  destruct (load_topics_family _ _ _ _ _ maxB_small segMax_small (map_to_list topics) empty_manager
    w logs r m' w' Hc) as [(-> & Hc' & Hu & logs' & Hr & Hf')|Hfail]; try done.
  - apply NoDup_fst_map_to_list.
  - by apply topics_to_load.
  - left. split; [done|]. split; [done|]. exists logs'.
    apply load_topics_registry in E as [Hreg Hst]; [|done]. split; [done|]. split; [done|].
    split; [done|]. split; [done|]. right.
    eapply family_opened; [by eapply family_none_down|done|exact Hf'|].
    intros k Hk. apply (Hst logs k Hl Hk). destruct Hk as [a Ha]. by eapply Hf.
  - by right.
Qed.

Lemma NewManager_family topics w logs r w' :
  map_Forall valid_disk_topic topics → metadata_ok dataDir Unmarshal (w_files w) topics →
  logs_complete topics logs → family dataDir maxB mode (fun _ => None) w logs →
  NewManager Unmarshal dataDir segMax maxB interval mode w = (r, w') →
  (∃ m logs', r = Ok m ∧ unmoved dataDir logs w w' ∧ manager_loaded topics m w' logs logs')
  ∨ (∃ e, r = Err e ∧ start_failed dataDir maxB mode w logs w').
Proof.
  intros Hv Hmeta Hl Hf E.
  assert (∀ w1, w_files w1 = w_files w → family dataDir maxB mode (fun _ => None) w1 logs) as Hsame
    by (intros w1 HF; eapply family_frame; [exact Hf|]; intros; by rewrite HF).
  unfold NewManager in E. change (mkManager _ _ _ _ _ _ _ _) with empty_manager in E.
  unfold bind, attempt, io, lift_res in E.
  destruct (fs_stat (metadata_path dataDir) w) as [rs w1] eqn:Es.
  pose proof (fs_stat_files _ _ _ _ Es) as [HF1 _].
  assert (∀ e, rs = Err e → ∃ m logs', r = Ok m ∧ unmoved dataDir logs w w'
    ∧ manager_loaded topics m w' logs logs') as Hempty.
  { intros e ->. injection E as <- <-. exists empty_manager, logs. split; [done|].
    split; [by apply files_unmoved|]. by apply empty_loaded, Hsame. }
  destruct Hmeta as [[Hnone ->]|(d & Hd & HU)].
  { left. unfold fs_stat in Es. destruct (next_outcome w) as [x w0] eqn:Ex.
    apply next_outcome_spec in Ex as (HF & _ & _). rewrite HF, Hnone in Es.
    destruct x; injection Es as <- <-; by eapply Hempty. }
  destruct (fs_stat_spec _ _ _ _ _ Hd Es) as (_ & _ & [-> |[-> _]]); [|left; by eapply Hempty].
  clear Hempty. destruct (fs_read_file (metadata_path dataDir) w1) as [rd w2] eqn:Er.
  unfold fs_read_file in Er. pop_outcome Er x w3 HF HQ HS. rewrite HF, HF1, Hd in Er.
  assert (w2 = w3) as -> by (by destruct x; injection Er as _ <-).
  assert (w_files w3 = w_files w) as HF3 by congruence.
  destruct x; injection Er as <-; simpl in E.
  - rewrite HU in E by (by left). destruct (load_topics (map_to_list topics) (empty_manager, w3))
      as [rl [m1 w4]] eqn:El.
    destruct (topics_loaded _ _ _ logs _ _ _ eq_refl Hv Hl (Hsame _ HF3) El)
      as [(-> & Hu & logs' & Hm)|(e & -> & Hu & Hfail)]; injection E as <- <-.
    + left. exists m1, logs'. split; [done|]. split; [|done].
      eapply unmoved_trans; [by apply files_unmoved|done].
    + right. exists e. split; [done|]. split; [|done].
      eapply unmoved_trans; [by apply files_unmoved|done].
  - injection E as <- <-. right. exists ErrIO. split; [done|]. split; [by apply files_unmoved|].
    exists logs. split; [apply all_reach_refl|by apply Hsame].
Qed.

(** A start that fails leaves everything closed. *)
Lemma failed_start_sim w w' b logs' :
  brefines (None, w) b → metadata_ok dataDir Unmarshal (w_files w') (ab_topics b) →
  spare dataDir maxB mode w' (ab_logs b) → reach is_startup (ab_logs b) logs' →
  family dataDir maxB mode (fun _ => None) w' logs' →
  orefines (offsets_dir dataDir) "consumer-offsets.log" (None, w') (ab_offsets b) →
  ∃ b', step b (BStart false) b' ∧ brefines (None, w') b'.
Proof.
  intros [Hv Hlogs _ _ Hfam _ _] Hmeta Hs Hr Hf Hoff. cbn [fst snd node_stores] in *.
  exists (ab_with_logs logs' b). split.
  - apply b_start_failed; [by eapply family_none_down|done|by eapply family_none_down|].
    by destruct (ab_offsets b) as [[] l].
  - split; cbn [fst snd node_stores ab_with_logs ab_topics ab_logs ab_offsets]; try done.
    + by eapply logs_complete_reach.
    + by eapply spare_reach.
Qed.

Lemma start_failed_sim w w' b :
  brefines (None, w) b → start_failed dataDir maxB mode w (ab_logs b) w' →
  ∃ b', step b (BStart false) b' ∧ brefines (None, w') b'.
Proof.
  intros Hb (Hu & logs' & Hr & Hf). pose proof Hb as [_ _ Hmeta Hs Hfam Hoff _].
  apply (failed_start_sim w w' b logs' Hb); try done.
  - by eapply metadata_unmoved.
  - eapply spare_known, Hs; [eapply family_nonneg, Hfam|exact Hu].
  - eapply orefines_frame; [|exact Hoff]. eapply unmoved_other; [exact Hu|apply offsets_not_part].
Qed.

(** The manager has been loaded: the offset store is opened, or the manager closed again. *)
Lemma open_offsets_sim w w1 b m logs' r w' :
  brefines (None, w) b → unmoved dataDir (ab_logs b) w w1 →
  manager_loaded (ab_topics b) m w1 (ab_logs b) logs' →
  Offsets_OpenStore (offsets_dir dataDir) "consumer-offsets.log" w1 = (r, w') →
  metadata_ok dataDir Unmarshal (w_files w') (ab_topics b)
  ∧ family dataDir maxB mode (stores_of (m_topics m)) w' logs'
  ∧ spare dataDir maxB mode w' (ab_logs b)
  ∧ ((∃ s o', r = Ok s ∧ ostep (ab_offsets b) (OOpen true) o'
          ∧ orefines (offsets_dir dataDir) "consumer-offsets.log" (Some s, w') o')
     ∨ (r = Err ErrIO
          ∧ orefines (offsets_dir dataDir) "consumer-offsets.log" (None, w') (ab_offsets b))).
Proof.
  intros [Hv Hlogs Hmeta Hs Hfam Hoff _] Hu (_ & _ & _ & Hf & _) E. cbn [fst snd node_stores] in *.
  assert (orefines (offsets_dir dataDir) "consumer-offsets.log" (None, w1) (ab_offsets b)) as Hoff1
    by (eapply orefines_frame, Hoff; eapply unmoved_other; [exact Hu|apply offsets_not_part]).
  destruct (ab_offsets b) as [p l] eqn:Ho. destruct p; try done.
  rewrite <- (with_faults_id w1) in E.
  destruct (open_held _ _ _ _ _ _ _ Hoff1 E) as (HF & Hres). cbn [w_files with_faults] in HF.
  assert (∀ q, part_file dataDir q → w_files w' !! q = w_files w1 !! q) as Hparts
    by (intros q Hq; apply HF; intros ->; by apply offsets_not_part).
  split; [|split; [by eapply family_frame|split]].
  - apply (metadata_unmoved _ _ _ _ Hu) in Hmeta. eapply metadata_same; [|exact Hmeta].
    apply HF, metadata_not_offsets.
  - eapply spare_frame; [exact Hparts|]. eapply spare_known, Hs; [eapply family_nonneg, Hfam|exact Hu].
  - destruct Hres as [(s & -> & Hsv)|(-> & Hsv)]; [left; exists s, (Serving, l)|by right].
    split; [done|]. split; [constructor|done].
Qed.

Lemma start_sim w fl r w' b :
  brefines (None, w) b → Broker_New Unmarshal cfg dataDir (with_faults fl w) = (r, w') →
  ∃ b', step b (BStart (is_ok r)) b'
    ∧ brefines (match r with Ok bk => Some (b_node bk) | _ => None end, w') b'.
Proof.
  intros Hb E. pose proof Hb as [Hv Hlogs Hmeta Hs Hfam Hoff _]. cbn [fst snd node_stores] in *.
  unfold Broker_New, bind at 1 in E.
  destruct (NewManager Unmarshal dataDir segMax maxB interval mode (with_faults fl w))
    as [rm w1] eqn:EM.
  assert (family dataDir maxB mode (fun _ => None) (with_faults fl w) (ab_logs b)) as Hfam0 by done.
  destruct (NewManager_family _ (with_faults fl w) _ _ _ Hv Hmeta Hlogs Hfam0 EM)
    as [(m & logs' & -> & Hu & Hm)|(e & -> & Hfail)].
  2:{ injection E as <- <-. by apply (start_failed_sim w). }
  unfold bind, attempt in E. destruct (Offsets_OpenStore _ _ w1) as [ro w2] eqn:EO.
  destruct (open_offsets_sim w w1 b m logs' ro w2 Hb Hu Hm EO)
    as (Hmeta' & Hf & Hs' & [(s & o' & -> & Ho & Hos)|(-> & Hos)]);
    pose proof Hm as (Hc & Hreg & Hr & _ & Hl).
  - injection E as <- <-. exists (mkAbroker (ab_topics b) logs' o'). split.
    + assert (all_down (ab_logs b)) as Hd by by eapply family_none_down.
      destruct Hl as [-> | ->]; [by apply b_start_empty|by apply ServiceSpec.b_start].
    + split; cbn [fst snd node_stores ab_topics ab_logs ab_offsets]; try done;
        [by eapply logs_complete_reach|by eapply spare_reach|]. by intros x [= <-].
  - destruct (Manager_Close _) as [rc [m3 w3]] eqn:EC in E. injection E as <- <-.
    pose proof (logs_complete_reach _ _ _ _ Hlogs Hr) as Hlogs'.
    destruct (close_start_failed _ _ _ interval _ maxB_small segMax_small
      (SetRetentionDefaults (max_age_seconds cfg) (DefaultMaxPartitionBytes cfg) m) _ logs' _ _ _ Hf
      (registry_parts _ _ _ Hlogs' Hreg) EC) as (Hu3 & logs2 & Hr2 & Hf2).
    apply (failed_start_sim w w3 b logs2 Hb); [by eapply metadata_unmoved|..|done|].
    + eapply spare_moved, Hs'; [exact Hr|eapply family_nonneg, Hf|exact Hu3].
    + eapply all_reach_trans, Hr2. eapply all_reach_startup, Hr. apply open_is_startup.
    + eapply orefines_frame; [|exact Hos]. eapply unmoved_other; [exact Hu3|apply offsets_not_part].
Qed.

(** ** CreateTopic *)

Lemma convert_empty t n i :
  (∀ p, p ∈ t_partitions t → st_earliestOffset p = 0 ∧ st_logEndOffset p = 0) →
  (i + n)%nat = length (t_partitions t) → blen (t_partitions t) < two32 →
  convert_partitions t n (Z.of_nat i)
  = Ok ((fun j => mkPartitionMetadata j 0 0) <$> seqZ (Z.of_nat i) (Z.of_nat n)).
Proof.
  intros Hp. revert i. induction n as [|n IH]; intros i Hn Hlen; [done|]. cbn [convert_partitions].
  unfold blen in Hlen. rewrite (u32_small (Z.of_nat i)) by lia. unfold Topic_Partition, blen.
  rewrite u32_small by lia. destruct (Z.leb_spec (Z.of_nat (length (t_partitions t))) (Z.of_nat i)); [lia|].
  rewrite Nat2Z.id. destruct (lookup_lt_is_Some_2 (t_partitions t) i) as [p Hi]; [lia|]. rewrite Hi.
  destruct (Hp p) as [-> ->]; [by eapply list_elem_of_lookup_2|].
  replace (Z.of_nat i + 1) with (Z.of_nat (S i)) by lia. rewrite IH by (unfold blen; lia). simpl rbind.
  rewrite (seqZ_cons (Z.of_nat i)) by lia. rewrite fmap_cons. unfold Z.succ, Z.pred.
  by replace (Z.of_nat i + 1) with (Z.of_nat (S i)) by lia; replace (Z.of_nat (S n) + -1) with (Z.of_nat n) by lia.
Qed.

(** The response to a topic that was created. *)
Lemma created_metadata m ts logs dt t w :
  1 <= dt_PartitionCount dt <= MaxPartitionsPerTopic →
  topic_created dataDir maxB mode Unmarshal m ts logs dt t w →
  convertToProtoMetadata t = Ok (created_response dt).
Proof.
  unfold MaxPartitionsPerTopic. intros Hc (Hname & Hlen & Hret & _ & Hf & _).
  unfold convertToProtoMetadata. rewrite (convert_empty t _ 0); [|..|lia|lia].
  - unfold created_response. simpl. rewrite Hname, Hret, Hlen, u32_small by lia. unfold blen in Hlen.
    by rewrite Hlen.
  - intros p [i Hi]%list_elem_of_lookup. apply lookup_lt_Some in Hi as Hl. unfold blen in Hlen.
    destruct (Hf (dt_Name dt, Z.of_nat i) (Serving, empty_log)) as (_ & Hr & _).
    { apply lookup_union_Some_l, topic_logs_is_Some. lia. }
    unfold stores_of in Hr. simpl fst in Hr. rewrite lookup_insert_eq in Hr. simpl snd in Hr.
    cbn [mbind option_bind] in Hr. rewrite Nat2Z.id, Hi in Hr.
    by destruct (served_bounds _ _ _ _ Hr eq_refl).
Qed.

(** The offset log is not touched. *)
Lemma offsets_created w w' :
  creation_frame dataDir w w' → w_files w' !! offsets_path = w_files w !! offsets_path.
Proof.
  intros Hfr. apply Hfr; [apply offsets_not_part|].
  intros [Hq|Hq]; [by apply metadata_not_offsets|revert Hq]. unfold metadata_tmp, metadata_dir, offsets_dir.
  rewrite <- !app_assoc. by intros Hq%app_inv_head.
Qed.

(** The topic joins the service. *)
Lemma created_refines s w w' b dt t :
  brefines (Some s, w) b → valid_disk_topic (dt_Name dt) dt → creation_frame dataDir w w' →
  ab_topics b !! dt_Name dt = None →
  topic_created dataDir maxB mode Unmarshal (sv_topics s) (ab_topics b) (ab_logs b) dt t w' →
  brefines (Some (sv_with_topics (m_with_topics (<[dt_Name dt := t]> (m_topics (sv_topics s)))
                                    (sv_topics s)) s), w') (ab_with_topic dt b).
Proof.
  intros [Hv Hlogs _ _ _ Hoff Hsrv] Hdt Hfr Hnew (_ & Hlen & _ & Hmeta & Hf & Hs). cbn [fst snd] in *.
  destruct (Hsrv s eq_refl) as [Hreg Hm Hconf Hdef].
  split; cbn [fst snd node_stores ab_with_topic ab_topics ab_logs ab_offsets]; try done.
  - by apply map_Forall_insert_2.
  - intros nm i. rewrite lookup_union_is_Some, (Hlogs nm i). split.
    + intros [[a Ha]|(d & Hd & Hi)].
      * apply topic_logs_lookup in Ha as (Hn & Hi & _). simpl in Hn, Hi. subst nm. exists dt.
        split; [apply lookup_insert_eq|done].
      * exists d. rewrite lookup_insert_ne by congruence. done.
    + intros (d & [[<- <-]|[_ Hd]]%lookup_insert_Some & Hi); [left|right; eauto].
      eexists. by apply topic_logs_is_Some.
  - eapply orefines_frame; [|exact Hoff]. by apply offsets_created.
  - intros x [= <-]. split; try done. intros nm t'. simpl.
    intros [[<- <-]|[Hne Ht']]%lookup_insert_Some; [exists dt; by rewrite lookup_insert_eq|].
    destruct (Hreg _ _ Ht') as (d & Hd & Hl). exists d. by rewrite lookup_insert_ne.
Qed.

(** What [CreateTopic] does for a request that gets to the manager. *)
Lemma create_manager_sim s w b req r m' w' :
  brefines (Some s, w) b → 1 <= ct_PartitionCount req →
  (is_Some (ab_topics b !! ct_Name req) → is_Some (m_topics (sv_topics s) !! ct_Name req)) →
  CreateTopic Marshal Unmarshal (ct_Name req) (ct_PartitionCount req)
    (default (mkRetentionPolicy 0 0) (ct_Retention req)) (sv_topics s, w) = (r, (m', w')) →
  let dt := requested_topic retention_defaults req in
  (∃ e, r = Err e ∧ m' = sv_topics s ∧ create_refused b req (create_status e)
     ∧ brefines (Some s, w') b)
  ∨ (∃ t, r = Ok t ∧ ab_topics b !! ct_Name req = None ∧ valid_disk_topic (ct_Name req) dt
       ∧ convertToProtoMetadata t = Ok (created_response dt)
       ∧ brefines (Some (sv_with_topics m' s), w') (ab_with_topic dt b)).
Proof.
  intros Hb Hc Hloaded E dt. pose proof Hb as [Hv Hlogs Hmeta Hs Hfam Hoff Hsrv]. cbn [fst snd] in *.
  destruct (Hsrv s eq_refl) as [Hreg Hm Hconf Hdef].
  destruct (CreateTopic_refusals Marshal Unmarshal (ct_Name req) (ct_PartitionCount req)
    (default (mkRetentionPolicy 0 0) (ct_Retention req)) (sv_topics s) w) as (R1 & _ & R3 & R4).
  destruct (topicNameRegex (ct_Name req)) eqn:Hre.
  2:{ rewrite R1 in E by done. injection E as <- <- <-. left. eexists. split; [done|]. split; [done|].
      split; [by left|done]. }
  destruct (decide (ct_PartitionCount req <= 1024)) as [Hmax|Hmax].
  2:{ rewrite R3 in E by (done || lia). injection E as <- <- <-. left. eexists. split; [done|].
      split; [done|]. split; [right; right; unfold MaxPartitionsPerTopic; lia|done]. }
  destruct (m_topics (sv_topics s) !! ct_Name req) as [t0|] eqn:Ht0.
  { rewrite R4 in E by (done || lia || eauto). injection E as <- <- <-. left. eexists.
    split; [done|]. split; [done|]. split; [|done]. destruct (Hreg _ _ Ht0) as (d & Hd & _). by exists d. }
  assert (ab_topics b !! ct_Name req = None) as Hnew.
  { apply eq_None_not_Some. intros Hx. by destruct (Hloaded Hx). }
  assert (∀ i, ab_logs b !! (ct_Name req, i) = None) as Hfree.
  { intros i. apply eq_None_not_Some. intros (d & Hd & _)%Hlogs. congruence. }
  assert (valid_disk_topic (ct_Name req) dt) as Hdt by (by split_and!).
  destruct (CreateTopic_family dataDir segMax maxB interval mode maxB_small segMax_small Marshal
    Unmarshal (sv_topics s) (ab_topics b) (ab_logs b) (ct_Name req) (ct_PartitionCount req) Hconf Hfree
    ltac:(unfold MaxPartitionsPerTopic; lia) _ w r m' w' Hv Hre Ht0 ltac:(by split_and!) E)
    as [Hfr [(t & -> & -> & Hct)|(-> & -> & Hmeta' & Hf' & Hs')]].
  - right. exists t. rewrite Hdef in Hct. split; [done|]. split; [done|]. split; [done|].
    split; [by eapply created_metadata; [apply Hdt|exact Hct]|].
    exact (created_refines s w w' b dt t Hb Hdt Hfr Hnew Hct).
  - left. exists ErrIO. split; [done|]. split; [done|]. split; [done|].
    split; cbn [fst snd node_stores]; try done. eapply orefines_frame; [|exact Hoff].
    by eapply offsets_created.
Qed.

Lemma create_sim s w fl req R s' w' b :
  brefines (Some s, w) b → 0 <= ct_PartitionCount req < two32 →
  (∀ ts, metadata_ok dataDir Unmarshal (w_files w) ts → is_Some (ts !! ct_Name req) →
     is_Some (m_topics (sv_topics s) !! ct_Name req)) →
  Admin_CreateTopic Marshal Unmarshal req (s, with_faults fl w) = (R, (s', w')) →
  ∃ r b', R = Ok r ∧ step b (BCreateTopic req r) b' ∧ brefines (Some s', w') b'.
Proof.
  intros Hb Hc Hloaded E. unfold Admin_CreateTopic in E.
  assert (brefines (Some s, with_faults fl w) b) as Hbf by (by apply (brefines_same s _ w)).
  case_bool_decide as Hn.
  { injection E as <- <- <-. eexists _, b. split; [done|]. split; [|done]. constructor. left. by rewrite Hn. }
  destruct (Z.eqb_spec (ct_PartitionCount req) 0) as [H0|H0].
  { injection E as <- <- <-. eexists _, b. split; [done|]. split; [|done]. constructor. right. left. lia. }
  unfold bind at 1, attempt, on_manager in E.
  destruct (CreateTopic _ _ _ _ _ _) as [rc [m1 w1]] eqn:EC.
  destruct (create_manager_sim s (with_faults fl w) b req rc m1 w1 Hbf) as
    [(e & -> & -> & Hrf & Hb')|(t & -> & Hnew & Hdt & Hconv & Hb')]; [lia| |done|..].
  { apply Hloaded, (br_metadata _ _ Hb). }
  - injection E as <- <- <-. eexists _, b. split; [done|]. split; [by constructor|].
    by apply (brefines_same _ _ _ _ _ Hb').
  - unfold bind, lift_res in E. rewrite Hconv in E. injection E as <- <- <-. eexists _, _.
    split; [done|]. split; [|exact Hb']. destruct Hdt as (_ & Hre & Hcnt). by apply b_create.
Qed.

(** ** The simulation *)

Lemma ssimulation n c n' b :
  sstep n c n' → brefines n b → ∃ b', step b c b' ∧ brefines n' b'.
Proof.
  intros Hst Hb. destruct Hst as
    [s w fl now req r s' w' Hi Hnow Hend E|s w fl req r s' w' Hi E|s w fl now req r s' w' Hty E
    |s w fl req r s' w' Hty E|s w fl req r s' w' Hc Hl E|s w fl tg now r s' w' Hi Hsz E
    |s w fl r1 s1 w1 r2 s2 w2 E1 E2|s w|o w F' Hcr|w fl r w' E].
  - destruct (produce_sim _ _ _ _ _ _ _ _ _ Hb Hi Hnow Hend E) as (x & b' & [= <-] & ?). eauto.
  - destruct (fetch_sim _ _ _ _ _ _ _ _ Hb Hi E) as (x & b' & [= <-] & ?). eauto.
  - destruct (commit_sim _ _ _ _ _ _ _ _ _ Hb Hty E) as (x & b' & [= <-] & ?). eauto.
  - destruct (committed_sim _ _ _ _ _ _ _ _ Hb Hty E) as (x & b' & [= <-] & ?). eauto.
  - destruct (create_sim _ _ _ _ _ _ _ _ Hb Hc Hl E) as (x & b' & [= <-] & ?). eauto.
  - by eapply retain_sim.
  - by eapply shutdown_sim.
  - by eapply stop_sim.
  - by eapply crash_sim.
  - by eapply start_sim.
Qed.

Abbreviation steps :=
  (bsteps (ToLower mode = "sync"%string) (MaxRecordBytes cfg) retention_defaults).

Lemma ssimulation_steps n tr n' b :
  ssteps n tr n' → brefines n b → ∃ b', steps b tr b' ∧ brefines n' b'.
Proof.
  intros Hs. revert b. induction Hs as [n|n c m tr k Hst Hs IH]; intros b Hb.
  - exists b. split; [constructor|done].
  - destruct (ssimulation _ _ _ _ Hst Hb) as (b1 & H1 & Hb1).
    destruct (IH _ Hb1) as (b2 & H2 & Hb2). exists b2. split; [by econstructor|done].
Qed.

End Service.
