(* ===== verification/Concurrent.v ===== *)
(** * Concurrent requests

    The node of ServiceRefinement.v with any number of handlers in flight.  A handler is a
    thread (Threads.v): the critical sections of different handlers come in any order,
    mixed with the retention of partitions, the creation of topics, the closing of the
    offset store and of each partition by a shutdown, and the end and the start of the
    process.  Every run of this machine is a run of ConcurrentSpec.v
    with the same responses, and no section of any handler panics. *)

From S2P Require Import Prelude FileSystem Runs Names Store Recovery Retention Confine LogSpec.
From S2P Require Import StoreAppend StoreRetention StoreRecovery StoreCrash StoreRefinement.
From S2P Require Import Offsets OffsetsSpec OffsetsLog Topics TopicsSpec Isolation Grpc GrpcSpec.
From S2P Require Import ServiceSpec Threads ConcurrentSpec Family TopicCreation Config Broker.
From S2P Require Import ServiceRefinement.
Open Scope Z_scope.

Section Concurrent.
Context (Marshal : gmap string DiskTopic → bytes).
Context (Unmarshal : bytes → option (gmap string DiskTopic) →
           res (option (gmap string DiskTopic))).
Context `{!JsonLaws Marshal Unmarshal} (cfg : Config) (dataDir : path).
Context (maxB_small : i64 (MaxBatchBytes cfg) < two31) (segMax_small : SegmentMaxBytes cfg < two63).

Abbreviation refined := (brefines Unmarshal cfg dataDir).
Abbreviation sync := (ToLower (FlushMode cfg) = "sync"%string).
Abbreviation section := (tstep sync (MaxRecordBytes cfg) (retention_defaults cfg)).

(** ** The machine *)

(** Fields at the width of the protocol and of the clock. *)
Definition typed_request (q : request) : Prop :=
  match q with
  | QProduce now req => 0 <= pr_Partition req < two32 ∧ - two63 < now < two63
  | QFetch req => 0 <= fr_Partition req < two32
  | QCommitOffset _ req =>
    ∀ c, req = Some c → 0 <= co_Partition c < two32 ∧ 0 <= co_NextOffset c < two64
  | QFetchCommittedOffset req => ∀ c, req = Some c → 0 <= fc_Partition c < two32
  end.

(** The offsets of an append stay within 64 bits. *)
Definition append_fits (s : Server) (th : thread) : Prop :=
  match th with
  | TAppend _ req recs =>
    ∀ p, GetPartition (sv_topics s) (pr_Topic req) (pr_Partition req) = Ok p →
      st_logEndOffset p + blen recs < two64
  | _ => True
  end.

Abbreviation cnode := (option Server * World * pool)%type.

Inductive cstep : cnode → event → cnode → Prop :=
  | c_invoke s w P i q :
      typed_request q → P !! i = None →
      cstep ((Some s, w), P) (EInvoke i q) ((Some s, w), <[i := TStart q]> P)
  | c_section s w fl P i th th' s' w' :
      P !! i = Some th → unfinished th → append_fits s th →
      thread_step th (s, with_faults fl w) = (Ok th', (s', w')) →
      cstep ((Some s, w), P) (ESection i) ((Some s', w'), <[i := th']> P)
  | c_respond s w P i q r :
      P !! i = Some (TDone q r) →
      cstep ((Some s, w), P) (ERespond i q r) ((Some (count_response r s), w), delete i P)
  | c_node n n' P c :
      sstep Marshal Unmarshal cfg dataDir n c n' → node_call c = true →
      cstep (n, P) (ENode c) (n', if keeps_threads c then P else ∅)
  | c_close_offsets s w fl P r s' w' :
      on_offsets Offsets_Close (s, with_faults fl w) = (r, (s', w')) →
      cstep ((Some s, w), P) (EClose None) ((Some s', w'), P)
  | c_close_partition s w fl P t i s' w' :
      0 <= i < two32 → close_partition t i (s, with_faults fl w) = (Ok tt, (s', w')) →
      cstep ((Some s, w), P) (EClose (Some (t, i))) ((Some s', w'), P).

Inductive csteps : cnode → list event → cnode → Prop :=
  | cc_nil x : csteps x [] x
  | cc_cons x e y tr z : cstep x e y → csteps y tr z → csteps x (e :: tr) z.

Lemma csteps_snoc x tr y e z : csteps x tr y → cstep y e z → csteps x (tr ++ [e]) z.
Proof. induction 1; intros Hst; simpl; econstructor; eauto using cc_nil. Qed.

Lemma csteps_app x tr1 y tr2 z : csteps x tr1 y → csteps y tr2 z → csteps x (tr1 ++ tr2) z.
Proof. induction 1; intros Hs; simpl; [done|]. econstructor; eauto. Qed.

(** ** What a thread relies on *)

Definition thread_ok (b : abroker) (th : thread) : Prop :=
  match th with
  | TStart q => typed_request q
  | TAppend now req _ => typed_request (QProduce now req) ∧ served b (produce_key req)
  | TRead req | TEarliest req _ | TLogEnd req _ _ =>
    typed_request (QFetch req) ∧ served b (fetch_key req)
  | TCheckFirst now req | TCheckEnd now req _ =>
    typed_request (QCommitOffset now (Some req)) ∧ served b (commit_part req)
  | TCommit now req => typed_request (QCommitOffset now (Some req))
  | TGet _ | TDone _ _ => True
  end.

Lemma thread_ok_served b b' th :
  (∀ k, served b k → served b' k) → thread_ok b th → thread_ok b' th.
Proof. intros H. destruct th; simpl; try done; intros [? ?]; auto. Qed.

Definition crefines (x : cnode) (y : abroker * pool) : Prop :=
  refined (fst x) (fst y) ∧ snd x = snd y ∧ map_Forall (fun _ => thread_ok (fst y)) (snd y).

(** ** First sections *)

(** A first section that changes nothing. *)
Definition started (q : request) (b : abroker) (s : Server) (w : World)
    (x : res thread * (Server * World)) : Prop :=
  ∃ th', x = (Ok th', (s, w)) ∧ section b (TStart q) th' b ∧ thread_ok b th'.

Lemma started_refused q b s w th :
  section b (TStart q) th b → thread_ok b th → started q b s w (Ok th, (s, w)).
Proof. intros H1 H2. by exists th. Qed.

Lemma start_resolved q t i found failed s w b :
  refined (Some s, w) b → 0 <= i < two32 →
  (∀ a, open_log b (t, i) a → section b (TStart q) found b ∧ thread_ok b found) →
  (unknown b (t, i) → section b (TStart q) (failed NotFound) b ∧ thread_ok b (failed NotFound)) →
  started q b s w (resolve t i found failed (s, w)).
Proof.
  intros Hb Hi Hf Hn. rewrite resolve_eq.
  destruct (request_partition _ _ _ _ _ _ t i Hb Hi) as [(p & a & Hp & _ & Ha & _)|(e & Hp & He & Hun)];
    rewrite Hp, ?He; eexists; (split; [done|]); [by eapply Hf|by apply Hn].
Qed.

Lemma start_produce now req s w b :
  refined (Some s, w) b → typed_request (QProduce now req) →
  started (QProduce now req) b s w (start_thread (QProduce now req) (s, w)).
Proof.
  intros Hb [Hi Hnow]. destruct (br_server _ _ _ _ _ Hb s eq_refl) as [_ Hm _ _].
  cbn [start_thread]. destruct (decide (pr_Records req = [])) as [Hnil|Hne].
  { rewrite Hnil. apply started_refused; [|done]. apply t_produce_refused. by constructor. }
  rewrite (blen_nonempty _ Hne). unfold bind, get_obj. apply start_resolved; [done|done| |].
  2:{ intros Hun. split; [|done]. apply t_produce_refused. by constructor. }
  intros a Ha.
  destruct (decide (Forall (fun r => recordPayloadSize r <= sv_MaxRecordBytes s) (pr_Records req)))
    as [Hsz|Hsz].
  - rewrite convert_records_ok by done. split; [by eapply t_produce|]. split; [done|]. by exists a.
  - apply not_Forall_Exists in Hsz; [|solve_decision].
    apply (Exists_impl _ (fun r => sv_MaxRecordBytes s < recordPayloadSize r)) in Hsz; [|simpl; lia].
    rewrite convert_records_None by done. split; [|done]. apply t_produce_refused, b_produce_large.
    by rewrite <- Hm.
Qed.

Lemma start_fetch req s w b :
  refined (Some s, w) b → typed_request (QFetch req) →
  started (QFetch req) b s w (start_thread (QFetch req) (s, w)).
Proof.
  intros Hb Hi. cbn [start_thread]. destruct (Z.eqb_spec (fr_MaxBytes req) 0) as [H0|H0].
  { apply started_refused; [|done]. apply t_fetch_refused. by constructor. }
  apply start_resolved; [done|done|..].
  - intros a Ha. split; [by eapply t_fetch|]. split; [done|by exists a].
  - intros Hun. split; [|done]. apply t_fetch_refused. by constructor.
Qed.

Lemma start_commit now req s w b :
  refined (Some s, w) b → typed_request (QCommitOffset now req) →
  started (QCommitOffset now req) b s w (start_thread (QCommitOffset now req) (s, w)).
Proof.
  intros Hb Hty. destruct req as [req|]; cbn [start_thread].
  2:{ apply started_refused; [|done]. apply t_commit_refused. by constructor. }
  destruct (decide (co_ConsumerGroup req = [])) as [Hg|Hg].
  { rewrite Hg. apply started_refused; [|done]. apply t_commit_refused. by constructor. }
  rewrite (blen_nonempty _ Hg). apply start_resolved; [done|by apply (Hty req)|..].
  - intros a Ha. split; [by eapply t_commit_start|]. split; [done|by exists a].
  - intros Hun. split; [|done]. apply t_commit_refused. by constructor.
Qed.

Lemma start_committed req s w b :
  refined (Some s, w) b → typed_request (QFetchCommittedOffset req) →
  started (QFetchCommittedOffset req) b s w (start_thread (QFetchCommittedOffset req) (s, w)).
Proof.
  intros Hb Hty. destruct req as [req|]; cbn [start_thread].
  2:{ apply started_refused; [|done]. apply t_committed_refused. by constructor. }
  destruct (decide (fc_ConsumerGroup req = [])) as [Hg|Hg].
  { rewrite Hg. apply started_refused; [|done]. apply t_committed_refused. by constructor. }
  rewrite (blen_nonempty _ Hg). apply start_resolved; [done|by apply (Hty req)|..].
  - intros a Ha. split; [by eapply t_committed|done].
  - intros Hun. split; [|done]. apply t_committed_refused. by constructor.
Qed.

Lemma start_section q s w b :
  refined (Some s, w) b → typed_request q → started q b s w (start_thread q (s, w)).
Proof. destruct q; [apply start_produce|apply start_fetch|apply start_commit|apply start_committed]. Qed.

(** ** Later sections *)

(** A section is one step of the specification, and the thread can go on. *)
Definition sectioned (th : thread) (b : abroker) (x : res thread * (Server * World)) : Prop :=
  ∃ th' s' w' b', x = (Ok th', (s', w')) ∧ section b th th' b' ∧ refined (Some s', w') b'
    ∧ thread_ok b' th'.

Lemma served_partition s w b t i :
  refined (Some s, w) b → 0 <= i < two32 → served b (t, i) →
  ∃ p a, GetPartition (sv_topics s) t i = Ok p ∧ node_stores (Some s) (t, i) = Some p
    ∧ open_log b (t, i) a ∧ refines (part_dir dataDir (t, i)) (i64 (MaxBatchBytes cfg)) (FlushMode cfg)
        (Some p, w) a.
Proof.
  intros Hb Hi [a Ha]. destruct (request_partition _ _ _ _ _ _ t i Hb Hi) as [H|(e & _ & _ & Hun)]; [done|].
  by destruct (Hun a).
Qed.

Lemma append_section now req recs s w fl b :
  refined (Some s, w) b → thread_ok b (TAppend now req recs) → append_fits s (TAppend now req recs) →
  sectioned (TAppend now req recs) b (thread_step (TAppend now req recs) (s, with_faults fl w)).
Proof.
  intros Hb [[Hi Hnow] Hsv] Hfit.
  destruct (served_partition _ _ _ _ _ Hb Hi Hsv) as (p & a & Hp & Hst & Ha & _).
  cbn [thread_step]. rewrite (on_resolved_ok _ _ _ _ _ _ Hp). unfold bind, attempt, on_log.
  change (partition.Append now recs) with (Store_Append now recs).
  destruct (Store_Append now recs (p, with_faults fl w)) as [r [p1 w1]] eqn:EA.
  destruct (part_step Unmarshal cfg dataDir maxB_small segMax_small _ _ _ _ _ _ _
    (CAppend now recs r) p1 w1 Hb (proj1 Hi) Hp Hst (proj1 Ha)) as (a' & Hlog & Hb'); [done| |].
  { apply (p_append _ _ _ _ _ _ _ fl); [done|by apply Hfit|done]. }
  assert (r ≠ Panic) as Hnp by (intros ->; inversion Hlog; subst;
    match goal with H : al_failed Panic |- _ => by destruct H end).
  eexists _, _, _, (ab_with_log (produce_key req) a' b).
  split; [by destruct r as [[]| |]|]. split; [by eapply t_append|]. by split.
Qed.

Lemma read_section req s w fl b :
  refined (Some s, w) b → thread_ok b (TRead req) →
  sectioned (TRead req) b (thread_step (TRead req) (s, with_faults fl w)).
Proof.
  intros Hb [Hi Hsv]. destruct (served_partition _ _ _ _ _ Hb Hi Hsv) as (p & a & Hp & Hst & Ha & _).
  cbn [thread_step]. rewrite (on_resolved_ok _ _ _ _ _ _ Hp). unfold bind, attempt, on_log.
  rewrite partition_Read_run.
  destruct (Store_Read (fr_Offset req) (fr_MaxBytes req) (p, with_faults fl w)) as [r [p1 w1]] eqn:ER.
  destruct (part_step Unmarshal cfg dataDir maxB_small segMax_small _ _ _ _ _ _ _
    (CRead (fr_Offset req) (fr_MaxBytes req) r) p1 w1 Hb (proj1 Hi) Hp Hst (proj1 Ha))
    as (a' & Hlog & Hb'); [done|by apply (p_read _ _ _ _ _ _ _ fl)|].
  destruct (read_keeps _ _ _ _ _ _ Hlog) as [-> Hnp].
  assert (ab_with_log (fr_Topic req, fr_Partition req) a b = b) as Hid.
  { unfold ab_with_log. rewrite insert_id by apply Ha. by destruct b. }
  rewrite Hid in Hb'. destruct r as [out|e|]; [| |done].
  - eexists _, _, _, b. split; [done|]. split; [by eapply t_read|]. by split.
  - eexists _, _, _, b. split; [done|]. split; [by eapply t_read_failed|]. by split.
Qed.

(** A section that reads a bound of the log. *)
Lemma bound_section t i f th s w fl b :
  refined (Some s, w) b → 0 <= i < two32 → served b (t, i) →
  (∀ p a, open_log b (t, i) a → reads_first a (st_earliestOffset p) → reads_end a (st_logEndOffset p) →
     ∃ th', f p (s, with_faults fl w) = (Ok th', (s, with_faults fl w)) ∧ section b th th' b
       ∧ thread_ok b th') →
  sectioned th b (on_resolved t i f (s, with_faults fl w)).
Proof.
  intros Hb Hi Hsv Hf. destruct (served_partition _ _ _ _ _ Hb Hi Hsv) as (p & a & Hp & _ & Ha & Hr).
  rewrite (on_resolved_ok _ _ _ _ _ _ Hp). pose proof (served_bounds _ _ _ _ _ Hr) as Hbounds.
  destruct (Hf p a Ha) as (th' & E & Hst & Hok); [intros Hph; by apply Hbounds..|].
  exists th', s, (with_faults fl w), b. split; [done|]. split; [done|]. split; [|done].
  by apply (brefines_same _ _ _ s _ w).
Qed.

Lemma bounds_sections th s w fl b :
  refined (Some s, w) b → thread_ok b th →
  match th with TEarliest _ _ | TLogEnd _ _ _ | TCheckFirst _ _ | TCheckEnd _ _ _ => True | _ => False end →
  sectioned th b (thread_step th (s, with_faults fl w)).
Proof.
  intros Hb Hok Hth. destruct th as [| | |req out|req out e|now req|now req e| | |]; try done;
    destruct Hok as [Hi Hsv]; try pose proof (proj1 (Hi req eq_refl)) as Hp;
    apply bound_section; try done; intros p a Ha Hfirst Hend.
  - eexists. split; [done|]. split; [by eapply t_earliest|done].
  - eexists. split; [done|]. split; [by eapply t_log_end|done].
  - eexists. split; [done|]. split; [by eapply t_check_first|done].
  - destruct (Z.ltb_spec (co_NextOffset req) e); [|destruct (Z.ltb_spec (st_logEndOffset p) (co_NextOffset req))];
      eexists; (split; [done|]); (split; [|done]).
    + eapply t_out_of_range; eauto.
    + eapply t_out_of_range; eauto.
    + eapply t_check_end; eauto.
Qed.

Lemma commit_section now req s w fl b :
  refined (Some s, w) b → thread_ok b (TCommit now req) →
  sectioned (TCommit now req) b (thread_step (TCommit now req) (s, with_faults fl w)).
Proof.
  intros Hb Hty. destruct (Hty req eq_refl) as [Hi Hn]. cbn [thread_step].
  unfold bind, attempt, on_offsets.
  destruct (Commit now (co_ConsumerGroup req) (String.list_byte_of_string (co_Topic req))
    (co_Partition req) (co_NextOffset req) (sv_offsets s, with_faults fl w)) as [r [o1 w1]] eqn:EC.
  destruct (offsets_step Unmarshal cfg dataDir _ _ _ (OCommit (commit_of now req) r) o1 w1 Hb)
    as (o' & Ho & Hb'); [done|by apply (n_commit _ _ _ _ fl (commit_of now req))|].
  pose proof (commit_not_panic _ _ _ _ Ho) as Hnp. eexists _, _, _, (ab_with_offsets o' b).
  split; [by destruct r|]. split; [by apply t_commit|]. by split.
Qed.

Lemma get_section req s w fl b :
  refined (Some s, w) b → sectioned (TGet req) b (thread_step (TGet req) (s, with_faults fl w)).
Proof.
  intros Hb. cbn [thread_step]. unfold bind, get_obj.
  destruct (committed_get _ _ _ _ _ _ req Hb) as [Ho Hnp]. cbn [sv_offsets] in *.
  destruct (Offsets_Get _ _ _ _) as [v|e|]; [| |done];
    (eexists _, _, _, b; split; [done|]; split; [by apply t_get|]);
    (split; [|done]); by apply (brefines_same _ _ _ s _ w).
Qed.

(** No section panics, and each is a step of the specification. *)
Lemma section_sim th s w fl b :
  refined (Some s, w) b → thread_ok b th → unfinished th → append_fits s th →
  sectioned th b (thread_step th (s, with_faults fl w)).
Proof.
  intros Hb Hok Hun Hfit. destruct th; try done; eauto using append_section, read_section, commit_section,
    get_section, bounds_sections.
  destruct (start_section q s (with_faults fl w) b) as (th' & E & Hst & Hok'); [|done|].
  { by apply (brefines_same _ _ _ s _ w). }
  exists th', s, (with_faults fl w), b. split; [done|]. split; [done|]. split; [|done].
  by apply (brefines_same _ _ _ s _ w).
Qed.

(** ** Closing storage *)

Lemma close_offsets_sim s w fl r s' w' b :
  refined (Some s, w) b → on_offsets Offsets_Close (s, with_faults fl w) = (r, (s', w')) →
  ∃ b', closing sync b None b' ∧ refined (Some s', w') b'.
Proof.
  intros Hb E. unfold on_offsets in E.
  destruct (Offsets_Close (sv_offsets s, with_faults fl w)) as [r0 [o1 w1]] eqn:E0. injection E as <- <- <-.
  destruct (offsets_step Unmarshal cfg dataDir _ _ _ (OClose r0) o1 w1 Hb) as (o' & Ho & Hb');
    [done|by econstructor|].
  exists (ab_with_offsets o' b). split; [by econstructor|done].
Qed.

Lemma close_partition_sim s w fl t i s' w' b :
  refined (Some s, w) b → 0 <= i < two32 →
  close_partition t i (s, with_faults fl w) = (Ok tt, (s', w')) →
  ∃ b', closing sync b (Some (t, i)) b' ∧ refined (Some s', w') b'.
Proof.
  intros Hb Hi E. unfold close_partition, bind at 1, get_obj in E.
  destruct (request_partition _ _ _ _ _ _ t i Hb Hi) as [(p & a & Hp & Hst & Ha & _)|(e & Hp & _)];
    rewrite Hp in E; [|done].
  unfold ignore, on_log in E. change partition.Close with Store_Close in E.
  destruct (Store_Close (p, with_faults fl w)) as [r [p1 w1]] eqn:EC. injection E as <- <-.
  destruct (part_step Unmarshal cfg dataDir maxB_small segMax_small _ _ _ _ _ _ _ (CClose r) p1 w1 Hb
    (proj1 Hi) Hp Hst (proj1 Ha)) as (a' & Hlog & Hb'); [done|by econstructor|].
  exists (ab_with_log (t, i) a' b). split; [by eapply closing_log|done].
Qed.

(** ** The simulation *)

Abbreviation spec_step := (kstep sync (MaxRecordBytes cfg) (retention_defaults cfg)).
Abbreviation spec_steps := (ksteps sync (MaxRecordBytes cfg) (retention_defaults cfg)).

Lemma respond_refines s w b r : refined (Some s, w) b → refined (Some (count_response r s), w) b.
Proof. intros Hb. apply (brefines_same _ _ _ s _ w); try done; by destruct r as [[]|[]|[]|]. Qed.

Lemma closing_refines n P b k b' :
  closing sync b k b' → refined n b' → map_Forall (fun _ => thread_ok b) P → crefines (n, P) (b', P).
Proof.
  intros Hc Hb' Hok. split; [done|]. split; [done|]. intros j u Hj.
  eapply thread_ok_served; [|by eapply Hok]. intros k'. by eapply served_one_log, closing_one_log.
Qed.

Lemma csimulation x e x' y :
  cstep x e x' → crefines x y → ∃ y', spec_step y e y' ∧ crefines x' y'.
Proof.
  intros Hst (Hb & HP & Hok). destruct y as [b Q].
  destruct Hst as [s w P i q Hq Hi|s w fl P i th th' s' w' Hi Hun Hfit E|s w P i q r Hi|n n' P c Hn Hc
    |s w fl P r s' w' E|s w fl P t i s' w' Hi E];
    cbn [fst snd] in *; subst Q.
  - exists (b, <[i := TStart q]> P). split; [by constructor|]. split; [done|]. split; [done|].
    by apply map_Forall_insert_2.
  - destruct (section_sim th s w fl b Hb (Hok _ _ Hi) Hun Hfit) as (t & s1 & w1 & b' & E' & Ht & Hb' & Hok').
    rewrite E in E'. injection E' as <- <- <-. exists (b', <[i := th']> P). split; [by eapply ks_section|].
    split; [done|]. split; [done|]. apply map_Forall_insert_2; [done|]. intros j u Hj.
    eapply thread_ok_served; [|by eapply Hok]. intros k. by eapply served_one_log, tstep_one_log.
  - exists (b, delete i P). split; [by constructor|]. split; [by apply respond_refines|]. split; [done|].
    by apply map_Forall_delete.
  - destruct (ssimulation _ _ _ _ maxB_small segMax_small _ _ _ _ Hn Hb) as (b' & Hs & Hb').
    exists (b', if keeps_threads c then P else ∅). split; [by constructor|]. split; [done|]. split; [done|].
    destruct (keeps_threads c) eqn:Hk; [|apply map_Forall_empty]. intros j u Hj.
    eapply thread_ok_served; [|by eapply Hok]. intros k. by eapply served_node.
  - destruct (close_offsets_sim _ _ _ _ _ _ _ Hb E) as (b' & Hc & Hb'). exists (b', P).
    split; [by constructor|]. by eapply closing_refines.
  - destruct (close_partition_sim _ _ _ _ _ _ _ _ Hb Hi E) as (b' & Hc & Hb'). exists (b', P).
    split; [by constructor|]. by eapply closing_refines.
Qed.

Lemma csimulation_steps x tr x' y :
  csteps x tr x' → crefines x y → ∃ y', spec_steps y tr y' ∧ crefines x' y'.
Proof.
  intros Hs. revert y. induction Hs as [x|x e m tr z Hst Hs IH]; intros y Hy.
  - exists y. split; [constructor|done].
  - destruct (csimulation _ _ _ _ Hst Hy) as (y1 & H1 & Hy1).
    destruct (IH _ Hy1) as (y2 & H2 & Hy2). exists y2. split; [by econstructor|done].
Qed.

(** No request is in flight. *)
Lemma crefines_idle n b : refined n b → crefines (n, ∅) (b, ∅).
Proof. intros Hb. split; [done|]. split; [done|apply map_Forall_empty]. Qed.

(** ** A shutdown is the closing of the offset store and of each partition *)

Lemma close_each_steps ks s w s' w' P :
  Forall (fun k => 0 <= snd k < two32) ks → close_each ks (s, w) = (Ok tt, (s', w')) →
  csteps ((Some s, w), P) ((fun k => EClose (Some k)) <$> ks) ((Some s', w'), P).
Proof.
  revert s w. induction ks as [|[t i] ks IH]; intros s w HF E.
  - injection E as <- <-. constructor.
  - apply Forall_cons in HF as [Hi HF]. cbn [close_each] in E. unfold bind in E.
    destruct (close_partition t i (s, w)) as [[[]|e|] [s1 w1]] eqn:E1; [|done..].
    econstructor; [|by apply IH]. eapply (c_close_partition s w (w_faults w)); [done|].
    by rewrite with_faults_id.
Qed.

Lemma registry_bounded b s :
  map_Forall valid_disk_topic (ab_topics b) → registry_ok (ab_topics b) (m_topics (sv_topics s)) →
  map_Forall (fun _ t => blen (t_partitions t) < two32) (m_topics (sv_topics s)).
Proof.
  intros Hv Hreg name t Ht. destruct (Hreg _ _ Ht) as (dt & Hdt & Hlen).
  destruct (Hv _ _ Hdt) as (_ & _ & Hc). unfold MaxPartitionsPerTopic in Hc. lia.
Qed.

(** The single step of ServiceRefinement.v, with any threads in flight. *)
Lemma shutdown_is_closings s w b n' P :
  refined (Some s, w) b → sstep Marshal Unmarshal cfg dataDir (Some s, w) BShutdown n' →
  csteps ((Some s, w), P)
    (EClose None :: ((fun k => EClose (Some k)) <$> partition_keys (map_to_list (m_topics (sv_topics s)))))
    (n', P).
Proof.
  intros Hb Hst. inversion Hst as [| | | | | |? ? fl r1 s1 w1 r2 s2 w2 E1 E2| | |]; subst.
  econstructor; [by eapply c_close_offsets|].
  assert (sv_topics s1 = sv_topics s) as Ht.
  { unfold on_offsets in E1. destruct (Offsets_Close _) as [r0 [o1 w0]]. by injection E1 as _ <- _. }
  destruct (br_server _ _ _ _ _ Hb s eq_refl) as [Hreg _ _ _].
  pose proof (registry_bounded b s (br_topics _ _ _ _ _ Hb) Hreg) as Hlt.
  apply close_each_steps.
  - apply Forall_forall. intros k. apply partition_keys_bounds. intros nm t Hin%elem_of_map_to_list.
    by eapply Hlt.
  - rewrite <- Ht in *. rewrite manager_close_is_sections by done. by rewrite E2.
Qed.

(** ** The sections that a handler has left *)

Definition sections_left (th : thread) : nat :=
  match th with
  | TStart (QProduce _ _) | TStart (QFetchCommittedOffset _) => 2
  | TStart _ => 4
  | TAppend _ _ _ | TGet _ | TLogEnd _ _ _ | TCommit _ _ => 1
  | TEarliest _ _ | TCheckEnd _ _ _ => 2
  | TRead _ | TCheckFirst _ _ => 3
  | TDone _ _ => 0
  end.

Lemma section_decreases b th th' b' : section b th th' b' → (sections_left th' < sections_left th)%nat.
Proof. destruct 1; simpl; lia. Qed.

End Concurrent.
