(* ===== verification/BrokerService.v ===== *)
(** * What clients can rely on

    The broker as a whole: its runs are runs of the service (ServiceSpec.v), so what has
    been acknowledged to a client is still there after failures, crashes and restarts.
    With a concrete run of a node that starts on an empty data directory, and a run that
    the specification excludes: creating a topic that the process failed to load. *)

From S2P Require Import Prelude FileSystem Model Names Store Recovery Confine LogSpec StoreRecovery.
From S2P Require Import StoreRefinement Offsets OffsetsSpec OffsetsLog Topics TopicsSpec.
From S2P Require Import Grpc GrpcSpec ServiceSpec Family TopicCreation Config Broker ServiceRefinement.
From Stdlib Require Import Init.Byte.
Open Scope Z_scope.

(** ** A node before its first start *)

(** No topics and no committed offsets. *)
Definition fresh_service : abroker := mkAbroker ∅ ∅ (Down, mkAoffsets [] 0).

(** Nothing has been written yet. *)
Lemma fresh_node Unmarshal cfg dataDir w :
  (∀ q, w_files w !! (dataDir ++ q) = None) →
  brefines Unmarshal cfg dataDir (None, w) fresh_service.
Proof.
  intros Hno.
  assert (∀ k name, w_files w !! (part_dir dataDir k ++ [name]) = None) as Hparts.
  { intros [t i] name. unfold part_dir, partition.dir. rewrite <- app_assoc. apply Hno. }
  split; cbn [fst snd node_stores fresh_service ab_topics ab_logs ab_offsets]; try done.
  - intros t i. rewrite lookup_empty. split; [by intros []|]. intros (dt & Hdt & _).
    by rewrite lookup_empty in Hdt.
  - left. split; [|done]. unfold metadata_path, metadata_dir. rewrite <- app_assoc. apply Hno.
  - intros k H0 _. right. split; [|done]. intros b _. split; apply Hparts.
  - split; [right; split; [done|]|split; [done|by left]]. unfold offsets_dir.
    rewrite <- app_assoc. apply Hno.
Qed.

(** ** Properties *)

Section Properties.
Context (Marshal : gmap string DiskTopic → bytes).
Context (Unmarshal : bytes → option (gmap string DiskTopic) →
           res (option (gmap string DiskTopic))).
Context `{!JsonLaws Marshal Unmarshal} (cfg : Config) (dataDir : path).
Context (maxB_small : i64 (MaxBatchBytes cfg) < two31) (segMax_small : SegmentMaxBytes cfg < two63).

Abbreviation refined := (brefines Unmarshal cfg dataDir).
Abbreviation runs_to := (ssteps Marshal Unmarshal cfg dataDir).

Lemma refined_wf n b : refined n b → logs_wf b.
Proof.
  intros [_ Hlogs _ _ Hfam _ _]. split.
  - intros k [p l] Hk. destruct (Hfam _ _ Hk) as (_ & Hr & _).
    apply refines_stored in Hr. destruct l as [e recs d]. by eapply holds_wf.
  - intros [t i] (dt & Hdt & _)%Hlogs. by exists dt.
Qed.


(** An acknowledged Produce survives.  In sync mode, once Produce has been answered
    with the offsets of its records, every later successful Fetch of that partition
    returns at these offsets exactly the records that were produced, stamped with their
    offsets and the time of the request - whatever requests to any partition, I/O
    failures, crashes, failed and successful restarts and retention runs lie before, in
    between and after; and a Fetch from one of these offsets does not come back empty. *)
Theorem acknowledged_produce_survives n b tr1 now req resp tr2 freq fresp n' :
  ToLower (FlushMode cfg) = "sync"%string → refined n b → fetch_key freq = produce_key req →
  runs_to n (tr1 ++ BProduce now req (inr resp) :: tr2 ++ [BFetch freq (inr fresp)]) n' →
  (∀ i r, Records fresp !! i = Some r →
     BaseOffset resp <= fr_Offset freq + Z.of_nat i <= LastOffset resp →
     stamp (BaseOffset resp) now (client_records (pr_Records req))
       !! Z.to_nat (fr_Offset freq + Z.of_nat i - BaseOffset resp) = Some r)
  ∧ (BaseOffset resp <= fr_Offset freq <= LastOffset resp → Records fresp ≠ []).
Proof.
  intros Hsync Hb Hkey Hs. pose proof (refined_wf _ _ Hb) as Hwf.
  eapply ssimulation_steps in Hs as (b' & Hs & _); [|done..].
  exact (acknowledged_produce _ _ _ _ _ _ _ _ _ _ _ _ Hsync Hwf Hkey Hs).
Qed.

(** An acknowledged CommitOffset survives.  Once a commit has been answered, every
    later successful FetchCommittedOffset of the same group, topic and partition finds an
    offset: the one committed, or one of a commit attempted since - whatever failures,
    crashes and restarts lie in between.  A commit never goes back to an older one. *)
Theorem acknowledged_commit_survives n b tr1 now req tr2 freq resp n' :
  refined n b → committed_key freq = c_key (commit_of now req) →
  runs_to n (tr1 ++ BCommitOffset now (Some req) (inr tt)
               :: tr2 ++ [BFetchCommittedOffset (Some freq) (inr resp)]) n' →
  Found resp = true
  ∧ ∃ c, (c = commit_of now req ∨ c ∈ omap commit_attempt tr2)
      ∧ c_key c = committed_key freq ∧ NextOffset resp = c_next c.
Proof.
  intros Hb Hkey Hs. eapply ssimulation_steps in Hs as (b' & Hs & _); [|done..].
  exact (acknowledged_commit _ _ _ _ _ _ _ _ _ _ _ Hkey Hs).
Qed.

End Properties.

(** ** A codec with the law of encoding/json *)

#[global] Instance RetentionPolicy_eq_dec : EqDecision RetentionPolicy.
Proof. solve_decision. Defined.
#[global] Instance RetentionPolicy_countable : Countable RetentionPolicy.
Proof.
  by apply (inj_countable' (fun r => (MaxAgeSeconds r, MaxBytes r))
    (fun '(a, b) => mkRetentionPolicy a b)); intros [].
Defined.
#[global] Instance DiskTopic_eq_dec : EqDecision DiskTopic.
Proof. solve_decision. Defined.
#[global] Instance DiskTopic_countable : Countable DiskTopic.
Proof.
  by apply (inj_countable' (fun t => (dt_Name t, dt_PartitionCount t, dt_Retention t))
    (fun '(a, b, c) => mkDiskTopic a b c)); intros [].
Defined.

Fixpoint bits (p : positive) : bytes :=
  match p with
  | xH => []
  | xO p => x30 :: bits p
  | xI p => x31 :: bits p
  end.
Fixpoint unbits (d : bytes) : option positive :=
  match d with
  | [] => Some xH
  | x30 :: d => xO <$> unbits d
  | x31 :: d => xI <$> unbits d
  | _ => None
  end.

Lemma unbits_bits p : unbits (bits p) = Some p.
Proof. induction p as [p IH|p IH|]; simpl; by rewrite ?IH. Qed.

Definition bit_Marshal (ts : gmap string DiskTopic) : bytes := bits (encode ts).
Definition bit_Unmarshal (d : bytes) (old : option (gmap string DiskTopic))
    : res (option (gmap string DiskTopic)) :=
  match unbits d ≫= decode with
  | Some ts => Ok (Some ts)
  | None => Err (Errorf "invalid character")
  end.

#[global] Instance bit_laws : JsonLaws bit_Marshal bit_Unmarshal.
Proof.
  intros ts old _ _. unfold bit_Unmarshal, bit_Marshal. rewrite unbits_bits. simpl.
  by rewrite decode_encode.
Qed.

(** ** A concrete run: start, CreateTopic, Produce, CommitOffset, crash, start, read back *)

Definition run_dir : path := ["data"%string].
Definition empty_disk : World := mkWorld ∅ ∅ [] [].
Definition run_new (w : World) : res Broker * World :=
  Broker_New bit_Unmarshal DefaultConfig run_dir w.
Definition server_of (r : res Broker) : Server :=
  match r with
  | Ok bk => b_node bk
  | _ => mkServer (empty_manager DefaultConfig run_dir) (mkOffsetStore [] ∅ 0 true false) 0 ∅
  end.

Definition create_req : CreateTopicRequest := mkCreateTopicRequest "orders" 2 None.
Definition run_topic : DiskTopic := requested_topic (retention_defaults DefaultConfig) create_req.
Definition produce_req : ProduceRequest :=
  mkProduceRequest "orders" 1
    [mkPbRecord (Some [Byte.x01]) (Some [Byte.x61]) [] 0; mkPbRecord None (Some [Byte.x62]) [] 0].
Definition commit_req : CommitOffsetRequest := mkCommitOffsetRequest [Byte.x67] "orders" 1 1.
Definition fetch_req : FetchRequest := mkFetchRequest "orders" 1 0 65536.
Definition committed_req : FetchCommittedOffsetRequest :=
  mkFetchCommittedOffsetRequest [Byte.x67] "orders" 1.
Definition run_now : Z := 1700000000000.

Definition run_started := run_new empty_disk.
Definition run_created := Admin_CreateTopic bit_Marshal bit_Unmarshal create_req
  (server_of (fst run_started), snd run_started).
Definition run_produced := Produce run_now produce_req (snd run_created).
Definition run_committed := CommitOffset run_now (Some commit_req) (snd run_produced).
Definition run_lost : World := snd (snd run_committed).
Definition run_restarted := run_new run_lost.
Definition run_fetched := Fetch fetch_req (server_of (fst run_restarted), snd run_restarted).
Definition run_offset := FetchCommittedOffset (Some committed_req)
  (server_of (fst run_restarted), snd run_restarted).

Abbreviation run_steps := (ssteps bit_Marshal bit_Unmarshal DefaultConfig run_dir).

Lemma run_start w :
  w_faults w = [] → is_ok (fst (run_new w)) = true →
  sstep bit_Marshal bit_Unmarshal DefaultConfig run_dir (None, w) (BStart true)
    (Some (server_of (fst (run_new w))), snd (run_new w)).
Proof.
  intros Hf Hok. pose proof (s_start bit_Marshal bit_Unmarshal DefaultConfig run_dir w []
    (fst (run_new w)) (snd (run_new w))) as H. rewrite (with_no_faults w Hf), Hok in H.
  specialize (H (surjective_pairing _)). by destruct (fst (run_new w)).
Qed.

Lemma run_node : brefines bit_Unmarshal DefaultConfig run_dir (None, empty_disk) fresh_service.
Proof. apply fresh_node. intros q. apply lookup_empty. Qed.

(** Up to the first topic. *)
Lemma run_trace_created :
  run_steps (None, empty_disk) [BStart true; BCreateTopic create_req (inr (created_response run_topic))]
    (Some (fst (snd run_created)), snd (snd run_created)).
Proof.
  assert (is_ok (fst run_started) = true) as H1 by (vm_compute; reflexivity).
  assert (w_faults (snd run_started) = []) as F1 by (vm_compute; reflexivity).
  assert (fst run_created = Ok (inr (created_response run_topic))) as H2 by (vm_compute; reflexivity).
  assert (w_files (snd run_started) !! metadata_path run_dir = None) as Hm by (vm_compute; reflexivity).
  econstructor; [exact (run_start empty_disk eq_refl H1)|].
  change (run_new empty_disk) with run_started.
  econstructor; [eapply (s_create _ _ _ _ _ _ [])|constructor].
  { simpl. lia. }
  { intros ts [[_ ->]|(d & Hd & _)] Hx; [|congruence]. rewrite lookup_empty in Hx. by destruct Hx. }
  { rewrite (with_no_faults _ F1), <- H2. exact (pairs_eta run_created). }
Qed.

(** Up to the restart. *)
Lemma run_trace_restart :
  run_steps (None, empty_disk)
    [BStart true; BCreateTopic create_req (inr (created_response run_topic));
     BProduce run_now produce_req (inr (mkProduceResponse 0 1 2));
     BCommitOffset run_now (Some commit_req) (inr tt); BCrash; BStart true]
    (Some (server_of (fst run_restarted)), snd run_restarted).
Proof.
  assert (fst run_produced = Ok (inr (mkProduceResponse 0 1 2))) as H2 by (vm_compute; reflexivity).
  assert (fst run_committed = Ok (inr tt)) as H3 by (vm_compute; reflexivity).
  assert (w_faults (snd (snd run_created)) = []) as F1 by (vm_compute; reflexivity).
  assert (w_faults (snd (snd run_produced)) = []) as F2 by (vm_compute; reflexivity).
  assert (w_faults run_lost = []) as F3 by (vm_compute; reflexivity).
  assert (map_Forall (fun _ f => fsynced f = length (fdata f)) (w_files run_lost)) as Hsy.
  { apply (bool_decide_unpack (map_Forall (fun (_ : path) f => fsynced f = length (fdata f))
      (w_files run_lost))). vm_compute. exact I. }
  assert (match GetPartition (sv_topics (fst (snd run_created))) "orders" 1 with
    | Ok p => st_logEndOffset p + blen (pr_Records produce_req) <? two64 | _ => false end = true)
    as Hend by (vm_compute; reflexivity).
  assert (is_ok (fst run_restarted) = true) as H4 by (vm_compute; reflexivity).
  apply (ssteps_snoc _ _ _ _ _ [_; _; _; _; _] (None, run_lost)); [|exact (run_start run_lost F3 H4)].
  apply (ssteps_snoc _ _ _ _ _ [_; _; _; _] (Some (fst (snd run_committed)), run_lost)).
  2:{ replace run_lost with (set_files (w_files run_lost) run_lost) at 2 by (by destruct run_lost).
      constructor. by apply crashed_nothing. }
  apply (ssteps_snoc _ _ _ _ _ [_; _; _] (Some (fst (snd run_produced)), snd (snd run_produced))).
  2:{ apply (s_commit _ _ _ _ _ _ []); [intros q [= <-]; simpl; lia|].
      rewrite (with_no_faults _ F2), <- H3, <- surjective_pairing. exact (pairs_eta run_committed). }
  apply (ssteps_snoc _ _ _ _ _ [_; _] (Some (fst (snd run_created)), snd (snd run_created)));
    [exact run_trace_created|].
  apply (s_produce _ _ _ _ _ _ []); [simpl; lia|unfold run_now; lia|..].
  - intros p Hp. change (GetPartition (sv_topics (fst (snd run_created))) "orders" 1 = Ok p) in Hp.
    rewrite Hp in Hend. apply Z.ltb_lt in Hend. exact Hend.
  - rewrite (with_no_faults _ F1), <- H2, <- surjective_pairing. exact (pairs_eta run_produced).
Qed.

(** ** Creating a topic that the process did not load *)

(** The process starts while the first system call, the Stat of topics.json, fails; then a
    client creates the topic again, and the write of the new topics.json fails. *)
Definition run_blind := run_new (with_faults [Fails 0] run_lost).
Definition run_recreated := Admin_CreateTopic bit_Marshal bit_Unmarshal create_req
  (server_of (fst run_blind), with_faults (replicate 21 Succeeds ++ [Fails 0]) (snd run_blind)).


Lemma run_restarted_faults : w_faults (snd run_restarted) = [].
Proof. vm_compute. reflexivity. Qed.

Lemma run_trace_fetch resp :
  fst run_fetched = Ok (inr resp) →
  run_steps (None, empty_disk)
    ([BStart true; BCreateTopic create_req (inr (created_response run_topic))]
       ++ BProduce run_now produce_req (inr (mkProduceResponse 0 1 2))
       :: [BCommitOffset run_now (Some commit_req) (inr tt); BCrash; BStart true]
       ++ [BFetch fetch_req (inr resp)])
    (Some (fst (snd run_fetched)), snd (snd run_fetched)).
Proof.
  intros Hr. apply (ssteps_snoc _ _ _ _ _ _ _ _ _ run_trace_restart).
  apply (s_fetch _ _ _ _ _ _ []); [simpl; lia|]. rewrite (with_no_faults _ run_restarted_faults), <- Hr.
  exact (pairs_eta run_fetched).
Qed.

Lemma run_trace_committed resp :
  fst run_offset = Ok (inr resp) →
  run_steps (None, empty_disk)
    ([BStart true; BCreateTopic create_req (inr (created_response run_topic));
      BProduce run_now produce_req (inr (mkProduceResponse 0 1 2))]
       ++ BCommitOffset run_now (Some commit_req) (inr tt)
       :: [BCrash; BStart true] ++ [BFetchCommittedOffset (Some committed_req) (inr resp)])
    (Some (fst (snd run_offset)), snd (snd run_offset)).
Proof.
  intros Hr. apply (ssteps_snoc _ _ _ _ _ _ _ _ _ run_trace_restart).
  apply (s_committed _ _ _ _ _ _ []); [intros q [= <-]; simpl; lia|].
  rewrite (with_no_faults _ run_restarted_faults), <- Hr. exact (pairs_eta run_offset).
Qed.


Lemma acknowledged_produce_survives_witness :
  ∃ resp, fst run_fetched = Ok (inr resp) ∧ Records resp ≠ []
  ∧ ∀ i r, Records resp !! i = Some r → 0 <= 0 + Z.of_nat i <= 1 →
      stamp 0 run_now (client_records (pr_Records produce_req))
        !! Z.to_nat (0 + Z.of_nat i - 0) = Some r.
Proof.
  assert (match fst run_fetched with Ok (inr _) => true | _ => false end = true) as Hok
    by (vm_compute; reflexivity).
  pose proof run_trace_fetch as Htr. destruct (fst run_fetched) as [[c|resp]|e|]; try discriminate Hok.
  destruct (acknowledged_produce_survives bit_Marshal bit_Unmarshal DefaultConfig run_dir
    ltac:(vm_compute; reflexivity) ltac:(vm_compute; reflexivity) _ _ _ run_now produce_req _ _
    fetch_req resp _ eq_refl run_node eq_refl (Htr resp eq_refl)) as [H1 H2].
  exists resp. split; [reflexivity|]. split; [apply H2; simpl; lia|exact H1].
Defined.

Lemma acknowledged_commit_survives_witness :
  ∃ resp, fst run_offset = Ok (inr resp) ∧ Found resp = true ∧ NextOffset resp = 1.
Proof.
  assert (match fst run_offset with Ok (inr _) => true | _ => false end = true) as Hok
    by (vm_compute; reflexivity).
  pose proof run_trace_committed as Htr. destruct (fst run_offset) as [[c|resp]|e|]; try discriminate Hok.
  destruct (acknowledged_commit_survives bit_Marshal bit_Unmarshal DefaultConfig run_dir
    ltac:(vm_compute; reflexivity) ltac:(vm_compute; reflexivity) _ _ _ run_now commit_req _
    committed_req resp _ run_node eq_refl (Htr resp eq_refl)) as (Hf & c & Hc & _ & Hn).
  exists resp. split; [reflexivity|]. split; [exact Hf|].
  destruct Hc as [->|Hc]; [exact Hn|]. by apply elem_of_nil in Hc.
Defined.
