(* ===== verification/ConcurrentService.v ===== *)
(** * What concurrent clients can rely on

    The properties of BrokerService.v with any number of requests in flight: what has been
    acknowledged before a request is invoked is what the request sees, however the
    sections of the handlers interleave.  With a concrete interleaving. *)

From S2P Require Import Prelude FileSystem Model Names Store Recovery Confine LogSpec StoreRecovery.
From S2P Require Import StoreRefinement Offsets OffsetsSpec OffsetsLog Topics TopicsSpec.
From S2P Require Import Grpc GrpcSpec ServiceSpec Threads ConcurrentSpec Family TopicCreation Config.
From S2P Require Import Broker ServiceRefinement Concurrent BrokerService.
From Stdlib Require Import Init.Byte.
Open Scope Z_scope.

(** ** Properties *)

Section Properties.
Context (Marshal : gmap string DiskTopic → bytes).
Context (Unmarshal : bytes → option (gmap string DiskTopic) →
           res (option (gmap string DiskTopic))).
Context `{!JsonLaws Marshal Unmarshal} (cfg : Config) (dataDir : path).
Context (maxB_small : i64 (MaxBatchBytes cfg) < two31) (segMax_small : SegmentMaxBytes cfg < two63).

Abbreviation refined := (brefines Unmarshal cfg dataDir).
Abbreviation all_refined := (crefines Unmarshal cfg dataDir).
Abbreviation runs_to := (csteps Marshal Unmarshal cfg dataDir).


(** C6: no handler panics or hangs.  In every reachable state, whatever other handlers are
    in flight and whatever has failed, the next section of a handler does not panic, and it
    brings the handler closer to its response: a handler answers after at most four
    sections of its own. *)
Theorem handlers_never_panic n b tr s w P (i : nat) th fl :
  refined n b → runs_to (n, ∅) tr ((Some s, w), P) → P !! i = Some th → unfinished th →
  append_fits s th →
  ∃ th' s' w', thread_step th (s, with_faults fl w) = (Ok th', (s', w'))
    ∧ (sections_left th' < sections_left th <= 4)%nat.
Proof.
  intros Hb Hs Hi Hun Hfit. apply crefines_idle in Hb.
  destruct (csimulation_steps _ _ _ _ maxB_small segMax_small _ _ _ _ Hs Hb) as (y & _ & Hr & HP & Hok).
  cbn [fst snd] in *. rewrite <- HP in Hok.
  destruct (section_sim _ _ _ maxB_small segMax_small th s w fl _ Hr (Hok _ _ Hi) Hun Hfit)
    as (th' & s' & w' & b' & E & Hst & _). exists th', s', w'. split; [done|].
  split; [by eapply section_decreases|]. by destruct th as [[]| | | | | | | | |]; simpl; lia.
Qed.



End Properties.

(** ** Running a schedule *)

(** A move of the scheduler; the events it gives carry the responses. *)
Inductive move : Type :=
  | MInvoke (i : nat) (q : request)
  | MSection (i : nat)
  | MRespond (i : nat).

Definition typed_requestb (q : request) : bool :=
  match q with
  | QProduce now req => (0 <=? pr_Partition req) && (pr_Partition req <? two32)
      && (- two63 <? now) && (now <? two63)
  | QFetch req => (0 <=? fr_Partition req) && (fr_Partition req <? two32)
  | QCommitOffset _ (Some c) => (0 <=? co_Partition c) && (co_Partition c <? two32)
      && (0 <=? co_NextOffset c) && (co_NextOffset c <? two64)
  | QFetchCommittedOffset (Some c) => (0 <=? fc_Partition c) && (fc_Partition c <? two32)
  | _ => true
  end.
Definition append_fitsb (s : Server) (th : thread) : bool :=
  match th with
  | TAppend _ req recs =>
    match GetPartition (sv_topics s) (pr_Topic req) (pr_Partition req) with
    | Ok p => st_logEndOffset p + blen recs <? two64
    | _ => true
    end
  | _ => true
  end.

Definition unfinishedb (th : thread) : bool := match th with TDone _ _ => false | _ => true end.

Abbreviation state := (Server * World * pool)%type.

Definition run_move (m : move) (x : state) : option (event * state) :=
  let '(s, w, P) := x in
  match m with
  | MInvoke i q =>
    match P !! i with
    | None => if typed_requestb q then Some (EInvoke i q, (s, w, <[i := TStart q]> P)) else None
    | Some _ => None
    end
  | MSection i =>
    match P !! i with
    | None => None
    | Some th =>
      if unfinishedb th && append_fitsb s th then
        match thread_step th (s, w) with
        | (Ok th', (s', w')) => Some (ESection i, (s', w', <[i := th']> P))
        | _ => None
        end
      else None
    end
  | MRespond i =>
    match P !! i with
    | Some (TDone q r) => Some (ERespond i q r, (count_response r s, w, delete i P))
    | _ => None
    end
  end.

Fixpoint run_moves (ms : list move) (x : state) : option (list event * state) :=
  match ms with
  | [] => Some ([], x)
  | m :: ms =>
    match run_move m x with
    | Some (e, y) =>
      match run_moves ms y with
      | Some (tr, z) => Some (e :: tr, z)
      | None => None
      end
    | None => None
    end
  end.

Definition events_of (ms : list move) (x : state) : option (list event) :=
  fst <$> run_moves ms x.
Definition state_after (ms : list move) (x : state) : state :=
  match run_moves ms x with Some (_, y) => y | None => x end.

Definition node_of (x : state) : option Server * World * pool :=
  let '(s, w, P) := x in ((Some s, w), P).

Section Schedule.
Context (Marshal : gmap string DiskTopic → bytes).
Context (Unmarshal : bytes → option (gmap string DiskTopic) →
           res (option (gmap string DiskTopic))).
Context (cfg : Config) (dataDir : path).
Abbreviation runs_to := (csteps Marshal Unmarshal cfg dataDir).

Lemma typed_requestb_spec q : typed_requestb q = true → typed_request q.
Proof.
  destruct q as [now req|req|now [req|]|[req|]]; simpl; rewrite ?andb_true_iff, ?Z.leb_le, ?Z.ltb_lt;
    intros H; try done; try lia; intros c [= <-]; lia.
Qed.

Lemma append_fitsb_spec s th : append_fitsb s th = true → append_fits s th.
Proof. destruct th; simpl; try done. intros H p Hp. rewrite Hp in H. by apply Z.ltb_lt. Qed.

Lemma run_move_step m x e y :
  run_move m x = Some (e, y) → cstep Marshal Unmarshal cfg dataDir (node_of x) e (node_of y).
Proof.
  destruct x as [[s w] P], m as [i q|i|i]; simpl; destruct (P !! i) as [th|] eqn:Hi; try done.
  - destruct (typed_requestb q) eqn:Hq; [|done]. intros [= <- <-].
    constructor; [by apply typed_requestb_spec|done].
  - destruct (unfinishedb th && append_fitsb s th) eqn:Hc; [|done].
    apply andb_true_iff in Hc as [Hun Hfit]. destruct (thread_step th (s, w)) as [[t| |] [s' w']] eqn:E; try done.
    intros [= <- <-]. assert (unfinished th) by (by destruct th).
    simpl. eapply (c_section _ _ _ _ _ _ (w_faults w)); [done|done|by apply append_fitsb_spec|].
    by rewrite with_faults_id.
  - destruct th as [| | | | | | | | |q r]; try done. intros [= <- <-]. by constructor.
Qed.

Lemma run_moves_steps ms x tr y :
  run_moves ms x = Some (tr, y) → runs_to (node_of x) tr (node_of y).
Proof.
  revert x tr. induction ms as [|m ms IH]; intros x tr H; simpl in H; [injection H as <- <-; constructor|].
  destruct (run_move m x) as [[e z]|] eqn:Em; [|done]. destruct (run_moves ms z) as [[tr' u]|] eqn:Er; [|done].
  injection H as <- <-. econstructor; [by apply run_move_step in Em|by apply IH].
Qed.

Lemma events_steps ms x tr :
  events_of ms x = Some tr → runs_to (node_of x) tr (node_of (state_after ms x)).
Proof.
  unfold events_of, state_after. intros H. destruct (run_moves ms x) as [[tr' y]|] eqn:E; [|done].
  injection H as <-. by eapply run_moves_steps.
Qed.

(** Steps of a node without requests in flight. *)
Lemma node_steps n tr n' :
  ssteps Marshal Unmarshal cfg dataDir n tr n' → Forall (fun c => node_call c = true) tr →
  runs_to (n, ∅) (ENode <$> tr) (n', ∅).
Proof.
  induction 1 as [n|n c m tr k Hst Hs IH]; [constructor|]. intros [Hc HF]%Forall_cons.
  simpl. econstructor; [by apply c_node|]. destruct (keeps_threads c); by apply IH.
Qed.

End Schedule.

(** ** A concrete interleaving *)

(** Two clients produce to the same partition: the second append comes first.  The machine
    crashes before the second client has its answer.  After the restart a consumer fetches
    while two commits are under way, and then asks for its committed offset. *)
Definition race_req : ProduceRequest :=
  mkProduceRequest "orders" 1 [mkPbRecord None (Some [Byte.x63]) [] 0].
Definition late_commit : CommitOffsetRequest := mkCommitOffsetRequest [Byte.x67] "orders" 1 3.

Definition race_start : state := (fst (snd run_created), snd (snd run_created), ∅).
Definition race_moves : list move :=
  [MInvoke 0 (QProduce run_now produce_req); MInvoke 1 (QProduce run_now race_req);
   MSection 0; MSection 1; MSection 1; MSection 0; MRespond 0].
Definition race_end : state := state_after race_moves race_start.
Definition race_lost : World := snd (fst race_end).

Definition late_start : state :=
  (server_of (fst (run_new race_lost)), snd (run_new race_lost), ∅).
Definition pending_moves : list move :=
  [MInvoke 4 (QCommitOffset run_now (Some commit_req)); MSection 4].
Definition late_moves : list move :=
  [MInvoke 2 (QCommitOffset run_now (Some late_commit)); MInvoke 3 (QFetch fetch_req);
   MSection 2; MSection 3; MSection 4; MSection 3; MSection 2; MSection 3; MSection 2; MSection 3;
   MSection 2; MRespond 3].
Definition asking_moves : list move :=
  [MRespond 2; MInvoke 5 (QFetchCommittedOffset (Some committed_req));
   MSection 5; MSection 4; MSection 4; MSection 5; MRespond 5].
Definition late_state : state := state_after pending_moves late_start.

Abbreviation concurrent_run := (csteps bit_Marshal bit_Unmarshal DefaultConfig run_dir).

Definition created_events : list event :=
  [ENode (BStart true); ENode (BCreateTopic create_req (inr (created_response run_topic)))].
Definition race_events : list event :=
  [EInvoke 0 (QProduce run_now produce_req); EInvoke 1 (QProduce run_now race_req);
   ESection 0; ESection 1; ESection 1; ESection 0].
Definition race_resp : ProduceResponse := mkProduceResponse 1 2 2.
Definition race_answer : event := ERespond 0 (QProduce run_now produce_req) (AProduce (inr race_resp)).
Definition pending_events : list event :=
  [EInvoke 4 (QCommitOffset run_now (Some commit_req)); ESection 4].
Definition late_sections : list event :=
  [ESection 2; ESection 3; ESection 4; ESection 3; ESection 2; ESection 3; ESection 2; ESection 3; ESection 2].
Definition late_resp : FetchResponse :=
  mkFetchResponse (stamp 0 run_now (client_records (pr_Records race_req))
                     ++ stamp 1 run_now (client_records (pr_Records produce_req))) 0 3.
Definition late_fetch : event := ERespond 3 (QFetch fetch_req) (AFetch (inr late_resp)).
(** The commit that was in flight has overtaken the one that was answered. *)
Definition asked_resp : FetchCommittedOffsetResponse := mkFetchCommittedOffsetResponse true 1.

Definition before_race : option Server * World * pool := ((None, empty_disk), ∅).

Lemma race_trace :
  concurrent_run before_race (created_events ++ race_events ++ [race_answer]) (node_of race_end).
Proof.
  eapply csteps_app; [apply (node_steps _ _ _ _ _ _ _ run_trace_created); by repeat constructor|].
  apply (events_steps _ _ _ _ race_moves race_start). vm_compute. reflexivity.
Qed.

Lemma late_trace :
  concurrent_run before_race
    ((created_events ++ race_events ++ [race_answer]) ++ [ENode BCrash; ENode (BStart true)])
    (node_of late_start).
Proof.
  assert (w_faults race_lost = []) as F by (vm_compute; reflexivity).
  assert (is_ok (fst (run_new race_lost)) = true) as Hok by (vm_compute; reflexivity).
  assert (map_Forall (fun _ f => fsynced f = length (fdata f)) (w_files race_lost)) as Hsy.
  { apply (bool_decide_unpack (map_Forall (fun (_ : path) f => fsynced f = length (fdata f))
      (w_files race_lost))). vm_compute. exact I. }
  eapply csteps_app; [exact race_trace|].
  assert (sstep bit_Marshal bit_Unmarshal DefaultConfig run_dir (Some (fst (fst race_end)), race_lost)
    BCrash (None, race_lost)) as Hcrash.
  { replace race_lost with (set_files (w_files race_lost) race_lost) at 2 by (by destruct race_lost).
    constructor. by apply crashed_nothing. }
  assert (node_of race_end = ((Some (fst (fst race_end)), race_lost), snd race_end)) as ->.
  { unfold race_lost. generalize race_end. by intros [[s w] P]. }
  econstructor; [apply (c_node _ _ _ _ _ _ _ _ Hcrash eq_refl)|].
  econstructor; [|constructor]. apply (c_node _ _ _ _ _ _ ∅ _ (run_start race_lost F Hok) eq_refl).
Qed.

Lemma pending_trace :
  concurrent_run before_race
    (((created_events ++ race_events ++ [race_answer]) ++ [ENode BCrash; ENode (BStart true)])
       ++ pending_events) (node_of late_state).
Proof.
  eapply csteps_app; [exact late_trace|].
  apply (events_steps _ _ _ _ pending_moves late_start). vm_compute. reflexivity.
Qed.

Lemma fetched_trace :
  concurrent_run (node_of late_state)
    ([EInvoke 2 (QCommitOffset run_now (Some late_commit)); EInvoke 3 (QFetch fetch_req)]
       ++ late_sections ++ [late_fetch]) (node_of (state_after late_moves late_state)).
Proof. apply (events_steps _ _ _ _ late_moves late_state). vm_compute. reflexivity. Qed.

Lemma asked_trace :
  concurrent_run (node_of (state_after late_moves late_state))
    [ERespond 2 (QCommitOffset run_now (Some late_commit)) (ACommitOffset (inr tt));
     EInvoke 5 (QFetchCommittedOffset (Some committed_req)); ESection 5; ESection 4; ESection 4; ESection 5;
     ERespond 5 (QFetchCommittedOffset (Some committed_req)) (AFetchCommittedOffset (inr asked_resp))]
    (node_of (state_after asking_moves (state_after late_moves late_state))).
Proof.
  apply (events_steps _ _ _ _ asking_moves (state_after late_moves late_state)). vm_compute. reflexivity.
Qed.


(** The commit that waits for its second section, on a disk that fails. *)
Lemma handlers_never_panic_witness :
  ∃ th', snd late_state !! 4%nat = Some (TCheckFirst run_now commit_req)
    ∧ fst (thread_step (TCheckFirst run_now commit_req)
             (fst (fst late_state), with_faults [Fails 0] (snd (fst late_state)))) = Ok th'.
Proof.
  assert (snd late_state !! 4%nat = Some (TCheckFirst run_now commit_req)) as Hi by (vm_compute; reflexivity).
  pose proof pending_trace as Htr. revert Hi Htr. generalize late_state. intros [[s w] P] Hi Htr.
  destruct (handlers_never_panic bit_Marshal bit_Unmarshal DefaultConfig run_dir
    ltac:(vm_compute; reflexivity) ltac:(vm_compute; reflexivity) _ _ _ s w P 4%nat
    (TCheckFirst run_now commit_req) [Fails 0] run_node Htr Hi I I) as (th' & s' & w' & E & _).
  exists th'. split; [exact Hi|]. cbn [fst snd]. rewrite E. reflexivity.
Defined.


