(* ===== verification/Startup.v ===== *)
(** * Start of the process (internal/logger/logger.go, cmd/broker/main.go)

    The construction of the logger, the check of the data directory and the part of
    [run] before [Start]: configuration, profiling rates, logger, directory, broker. *)

From S2P Require Import Prelude FileSystem Names Recovery Topics TopicsSpec Grpc.
From S2P Require Import Config Float64 HttpServer GrpcServer Broker Runs Confine.
From Stdlib Require Import Init.Byte.
Open Scope Z_scope.

(** ** logger.New *)

Module logger.

Inductive Level := LevelDebug | LevelInfo | LevelWarn | LevelError.
Inductive Handler := JSONHandler (level : Level) | TextHandler (level : Level).

(** The writer is not looked at, beyond the replacement of nil. *)
Definition New (levelStr formatStr : string) : res Handler :=
  let! level :=
    let l := ToLower levelStr in
    if bool_decide (l = "debug"%string) then Ok LevelDebug
    else if bool_decide (l = "info"%string) then Ok LevelInfo
    else if bool_decide (l = "warn"%string) then Ok LevelWarn
    else if bool_decide (l = "error"%string) then Ok LevelError
    else Err (Errorf "unsupported log level") in
  let f := ToLower formatStr in
  if bool_decide (f = "json"%string) then Ok (JSONHandler level)
  else if bool_decide (f = "text"%string) then Ok (TextHandler level)
  else Err (Errorf "unsupported log format").

End logger.

(** ** validateStorageDir *)

Definition testBytes : bytes := String.list_byte_of_string "write-check".

(** [os.CreateTemp(dir, "broker-write-check-*.tmp")]: [random] replaces the star, and
    the library draws it until the name is free. *)
Definition temp_path (dir : path) (random : string) : path :=
  dir ++ ["broker-write-check-" +:+ random +:+ ".tmp"].

(** The deferred clean-up runs whatever the body returns. *)
Definition deferring {S A} (m : M S A) (cleanup : M S unit) : M S A := fun s =>
  let '(r, s) := m s in (r, snd (cleanup s)).

(** A path that [os.MkdirAll] has accepted is a directory, so the check of [IsDir]
    cannot fail. *)
Definition validateStorageDir (dir : path) (random : string) : M World unit :=
  do* fs_mkdir_all dir in
  do* fs_stat_dir dir in
  let tmpPath := temp_path dir random in
  do* fs_open_create tmpPath in
  deferring (
    do* fs_write_at tmpPath testBytes 0 in
    do* fs_sync tmpPath in
    let* readBytes := fs_read_file tmpPath in
    if bool_decide (readBytes ≠ testBytes) then fail (Errorf "read bytes mismatch") else
    ret tt)
  (do* ignore (fs_close tmpPath) in ignore (fs_remove tmpPath)).

(** ** The profiling rates and the order of the start *)

Record rates := mkRates {
  mutexFraction : Z;
  blockRate : Z;
}.

(** Lines 35-41; a rate that is not positive is left as it is. *)
Definition apply_rates (cfg : Config) (r : rates) : rates :=
  mkRates (if 0 <? MutexProfileFraction cfg then MutexProfileFraction cfg else mutexFraction r)
          (if 0 <? BlockProfileRate cfg then BlockProfileRate cfg else blockRate r).

Section Run.
Context (ParseDuration : string → option Z).
Context (Decode : string → Config → res Config).
Context (Unmarshal : bytes → option (gmap string DiskTopic) →
           res (option (gmap string DiskTopic))).
(** The path that a directory name denotes. *)
Context (path_of : string → path).

(** [run] up to the call of [b.Start]. *)
Definition run_prepare (configPath : string) (file : opened) (env : string → string)
    (random : string) : M World (rates * logger.Handler * Broker) :=
  let* cfg := lift_res (Load ParseDuration Decode configPath file env) in
  let r := apply_rates cfg (mkRates 0 0) in
  let* log := lift_res (logger.New (LogLevel cfg) (LogFormat cfg)) in
  do* validateStorageDir (path_of (DataDirectory cfg)) random in
  let* b := Broker_New Unmarshal cfg (path_of (DataDirectory cfg)) in
  ret (r, log, b).

End Run.

(** ** What an accepted configuration gives *)

Lemma logger_accepts c : config_ok c → ∃ h, logger.New (LogLevel c) (LogFormat c) = Ok h.
Proof.
  intros Hc. assert (Hl := cf_level _ Hc). assert (Hf := cf_format _ Hc).
  repeat setoid_rewrite elem_of_cons in Hl. repeat setoid_rewrite elem_of_cons in Hf.
  destruct Hl as [-> | [-> | [-> | [-> | []%not_elem_of_nil]]]];
    destruct Hf as [-> | [-> | []%not_elem_of_nil]]; by eexists.
Qed.

Lemma max_age_exact c :
  config_ok c → DefaultMaxAge c < two63 → retention_age (max_age_seconds c) = DefaultMaxAge c.
Proof.
  intros Hc Hb. destruct (cf_age _ Hc) as [Hlo Hm]. unfold Second in *.
  unfold max_age_seconds. rewrite whole_Seconds; [|lia|rewrite Z.rem_mod_nonneg by lia; done].
  assert (0 <= DefaultMaxAge c / 1000000000 < 9223372037)
    by (split; [apply Z.div_pos; lia|apply Z.div_lt_upper_bound; lia]).
  rewrite u64_small, retention_age_exact by lia.
  rewrite (Z.div_mod (DefaultMaxAge c) 1000000000) at 2 by lia. lia.
Qed.

(** C36: a configuration that Load accepts is usable as it is: the logger can be
    built from it, and the retention age survives its way through float64 seconds,
    uint64 and back to nanoseconds exactly, so the overflow of large ages cannot come
    from the configured default.  ParseDuration gives an int64, as documented. *)
Theorem accepted_config_is_usable ParseDuration Decode configPath file env c :
  (∀ s d, ParseDuration s = Some d → - two63 <= d < two63) →
  Load ParseDuration Decode configPath file env = Ok c →
  (∃ h, logger.New (LogLevel c) (LogFormat c) = Ok h)
  ∧ retention_age (max_age_seconds c) = DefaultMaxAge c.
Proof.
  intros HP HL. assert (config_ok c ∧ DefaultMaxAge c < two63) as [Hc Hb].
  { apply Load_inv in HL as [c0 HL]. split; [by eapply validate_ok|by eapply validate_age]. }
  split; [by apply logger_accepts|by apply max_age_exact].
Qed.

Lemma demo_ParseDuration_int64 s d : demo_ParseDuration s = Some d → - two63 <= d < two63.
Proof. unfold demo_ParseDuration, Second. repeat case_bool_decide; intros [= <-]; lia. Qed.

Lemma accepted_config_is_usable_witness :
  ∃ c, Load demo_ParseDuration (fun _ c => Ok c) "" Missing (fun _ => ""%string) = Ok c
    ∧ retention_age (max_age_seconds c) = 604800 * 1000000000.
Proof.
  assert (∃ c, Load demo_ParseDuration (fun _ c => Ok c) "" Missing (fun _ => ""%string) = Ok c
    ∧ DefaultMaxAge c = 604800 * 1000000000) as (c & HL & Ha).
  { eexists. split; vm_compute; reflexivity. }
  exists c. split; [done|]. rewrite <- Ha.
  by destruct (accepted_config_is_usable demo_ParseDuration (fun _ c => Ok c) "" Missing
    (fun _ => ""%string) c demo_ParseDuration_int64 HL).
Defined.

(** ** The check of the data directory *)

Lemma confined_deferring {S A} `{HasWorld S} J P (m : M S A) h Q (R : unit → Prop) :
  confined J P m Q → confined J P h R → confined J P (deferring m h) Q.
Proof.
  intros Hm Hh s r s' HJ E. unfold deferring in E. destruct (m s) as [r1 s1] eqn:Em.
  injection E as <- <-. destruct (Hm _ _ _ HJ Em) as (HJ1 & HE1 & HQ).
  destruct (h s1) as [r2 s2] eqn:Eh. destruct (Hh _ _ _ HJ1 Eh) as (HJ2 & HE2 & _).
  split; [done|]. split; [by eapply effect_trans|done].
Qed.

Lemma validateStorageDir_confined dir random :
  confined (fun _ => True) (eq (temp_path dir random)) (validateStorageDir dir random) (fun _ => True).
Proof.
  unfold validateStorageDir. confine. apply (confined_deferring _ _ _ _ _ (fun _ => True)); confine.
Qed.

Lemma self_in_prefixes d : d ∈ prefixes d.
Proof.
  induction d as [|c d IH]; [by left|]. simpl. right. apply list_elem_of_fmap. eauto.
Qed.

(** The write check of the data directory leaves no trace: whatever fails, no file but
    the temporary one is touched; and on a file system in good order it passes, the
    temporary file is gone and every file is as before. *)
Theorem validateStorageDir_leaves_no_trace dir random w :
  w_files w !! temp_path dir random = None →
  (∀ r w', validateStorageDir dir random w = (r, w') →
     ∀ q, q ≠ temp_path dir random → w_files w' !! q = w_files w !! q)
  ∧ (w_faults w = [] → ∃ w', validateStorageDir dir random w = (Ok tt, w')
       ∧ w_files w' = w_files w).
Proof.
  intros Hfree. split.
  - intros r w' E q Hq. destruct (validateStorageDir_confined dir random w r w' I E) as (_ & [HF _] & _).
    by apply HF.
  - intros Hn. destruct w as [F D fl ev]. simpl in *. subst fl. eexists.
    unfold validateStorageDir, bind, deferring, ignore, fs_mkdir_all, fs_stat_dir, fs_open_create,
      fs_write_at, fs_sync, fs_read_file, fs_close, fs_remove, next_outcome; simpl.
    rewrite bool_decide_eq_true_2 by (apply elem_of_union; left; apply elem_of_list_to_set, self_in_prefixes).
    simpl. rewrite Hfree. simpl. repeat (rewrite lookup_insert_eq; simpl).
    split; [reflexivity|]. simpl. by rewrite !insert_insert_eq, delete_insert_id.
Qed.

Lemma validateStorageDir_leaves_no_trace_witness :
  ∃ w', validateStorageDir ["data"%string] "42" (mkWorld ∅ ∅ [] []) = (Ok tt, w')
    ∧ w_files w' = ∅.
Proof.
  apply (validateStorageDir_leaves_no_trace ["data"%string] "42" (mkWorld ∅ ∅ [] [])); reflexivity.
Defined.
