(* ===== verification/BrokerInv.v ===== *)
(** * The invariant of the broker's goroutines

    The states that the process can reach are those of [main_reachable].  The record
    [orderly] is the invariant of the goroutines: which of them can still run at
    each point of [Shutdown]. *)

From S2P Require Import Prelude FileSystem Names Segment Store Retention Recovery.
From S2P Require Import Offsets Topics Grpc Config Float64 HttpServer GrpcServer.
From S2P Require Import Broker.
Open Scope Z_scope.

(** ** Stages of Shutdown *)

Definition stage (d : down_pc) : nat :=
  match d with
  | DNone => 0 | DUnready => 1 | DCancel => 2 | DWaitWorker => 3 | DStopGRPC => 4
  | DDraining => 5 | DStopHTTP => 6 | DHttpWait => 7 | DWaitLoops => 8 | DCloseOffsets => 9
  | DCloseStorage => 10 | DSignal => 11 | DFinished => 12
  end.

(** [Shutdown] is at [d] or past it. *)
Definition reached (d now : down_pc) : bool := (stage d <=? stage now)%nat.

(** A goroutine that may still report a crash. *)
Definition may_report (l : loop) : nat := match l with LExited => 0 | _ => 1 end.

(** ** Tactics *)

Ltac destruct_broker b :=
  destruct b as [cfg started stopped cancelled dn panicked h g hl gl wk ch st mo dpc rn es infl
                 forced node].

(** Case analysis on a step that was taken. *)
Ltac step_inv E :=
  repeat (match type of E with context [match ?x with _ => _ end] => destruct x eqn:? end;
          simplify_eq/=); simplify_eq/=.

(** A field of [orderly] after a step: unchanged, excluded by the stage, or settled by
    the case analysis. *)
Ltac orderly_field :=
  simpl in *; first
    [ assumption
    | by intros; lia
    | by intuition congruence
    | by intuition (congruence || lia) ].

Section Spec.
Context (Marshal : gmap string DiskTopic → bytes).
Context (Unmarshal : bytes → option (gmap string DiskTopic) →
           res (option (gmap string DiskTopic))).
Context {lib : GrpcLibrary}.

Inductive main_reachable : main_pc → Broker → World → Prop :=
  | reach_init cfg m o w : main_reachable MainInit (new_broker cfg m o) w
  | reach_step a pc b w pc' b' w' :
      main_reachable pc b w →
      main_act Marshal Unmarshal a (pc, (b, w)) = Some (pc', (b', w')) →
      main_reachable pc' b' w'.

(** ** The invariant *)

Definition starting (p : start_pc) : bool :=
  match p with SIdle | SReturned _ => false | _ => true end.

(** The serving goroutines that [Start] has not created yet. *)
Definition no_http_loop (p : start_pc) : bool :=
  match p with SIdle | SBindHTTP | SBindGRPC | SRollback | SSpawnHTTP => true | _ => false end.
Definition no_grpc_loop (p : start_pc) : bool :=
  no_http_loop p || match p with SSpawnGRPC => true | _ => false end.

(** The monitor waits for a crash or has received one. *)
Definition watching (m : monitor_pc) : bool :=
  match m with MWaiting | MGot | MCall => true | _ => false end.
Definition exited (l : loop) : bool := match l with LExited => true | _ => false end.
(** The report of a crash is in the channel, or was received. *)
Definition noticed (ch : list error) (m : monitor_pc) (p : start_pc) : bool :=
  match ch, m, p with
  | _ :: _, _, _ | _, MGot, _ | _, MCall, _ | _, _, SAbort => true
  | _, _, _ => false
  end.

(** How far [Start] is at each point of main; signals are handled after it. *)
Definition main_start (pc : main_pc) (p : start_pc) (stopped : bool) : Prop :=
  match pc with
  | MainInit => p = SIdle ∧ stopped = false
  | MainStarting => p ≠ SIdle
  | MainSelect | MainShutdown => p = SReturned true
  | MainExit _ => starting p = false ∧ p ≠ SIdle
  end.

Record orderly (pc : main_pc) (b : Broker) : Prop := mkOrderly {
  od_stopped : b_stopped b = true ↔ b_down b ≠ DNone;
  od_main : main_start pc (b_start b) (b_stopped b);
  od_idle : b_start b = SIdle ↔ b_started b = false ∧ pc = MainInit;
  od_start : starting (b_start b) = true → b_start b ≠ SWaitDown → b_stopped b = false;
  od_http_loop : no_http_loop (b_start b) = true → b_httpLoop b = LNone;
  od_grpc_loop : no_grpc_loop (b_start b) = true → b_grpcLoop b = LNone;
  od_monitor : b_monitor b ≠ MNone → b_start b = SReturned true;
  od_runner_start : b_runner b = ByStart → b_down b ≠ DFinished → b_start b = SWaitDown;
  od_runner_monitor : b_runner b = ByMonitor → b_monitor b ≠ MNone;
  od_ready : h_ready (b_http b) = true → reached DCancel (b_down b) = false;
  od_cancelled : b_cancelled b = true ↔ reached DWaitWorker (b_down b) = true;
  od_worker : reached DStopGRPC (b_down b) = true → worker_idle (b_worker b) = true;
  od_phase : reached DDraining (b_down b) = true → g_phase (b_grpc b) ≠ Running;
  od_listener : reached DStopHTTP (b_down b) = true → g_listener (b_grpc b) = None;
  od_drained : reached DStopHTTP (b_down b) = true → b_forced b = false → b_inflight b = [];
  od_http_down : reached DHttpWait (b_down b) = true → h_inShutdown (b_http b) = true;
  od_monitoring : b_start b = SReturned true → b_stopped b = false → watching (b_monitor b) = true;
  od_crash : b_stopped b = false → exited (b_httpLoop b) || exited (b_grpcLoop b) = true →
    noticed (b_serveErrCh b) (b_monitor b) (b_start b) = true;
  od_loops : reached DCloseOffsets (b_down b) = true →
    loop_idle (b_httpLoop b) = true ∧ loop_idle (b_grpcLoop b) = true;
  od_done : b_done b = true ↔ b_down b = DFinished;
  od_channel :
    (length (b_serveErrCh b) + may_report (b_httpLoop b) + may_report (b_grpcLoop b) ≤ 2)%nat;
}.

Lemma new_broker_orderly cfg m o : orderly MainInit (new_broker cfg m o).
Proof. split; simpl; naive_solver lia. Qed.

Lemma on_node_inv {A} (m : M (Server * World) A) b w r b' w' :
  on_node m (b, w) = (r, (b', w')) →
  ∃ srv, b' = b_with_panicked (panics r) (b_with_node srv b) ∧ m (b_node b, w) = (r, (srv, w')).
Proof.
  unfold on_node. destruct (m (b_node b, w)) as [r0 [srv w0]]. intros [= <- <- <-]. eauto.
Qed.

(** ** Every step keeps the invariant *)

(** The report of a crash stays noticed. *)
Ltac crash_field :=
  try match goal with |- context [noticed ?c ?m _] => destruct c, m end;
  try match goal with H : context [noticed _ ?m _] |- _ => is_var m; destruct m end;
  try match goal with |- context [match ?m with _ => _ end] => is_var m; destruct m end;
  simpl in *; intuition congruence.

Lemma running_start pc b :
  orderly pc b → starting (b_start b) = true → b_start b ≠ SWaitDown →
  b_stopped b = false ∧ b_down b = DNone.
Proof.
  intros O Hs Hw. pose proof (od_start _ _ O Hs Hw) as Hst. split; [done|].
  destruct (decide (b_down b = DNone)) as [|Hn]; [done|].
  apply (od_stopped _ _ O) in Hn. congruence.
Qed.

(** While [Start] runs, main waits for it. *)
Lemma main_start_moves pc p p' st :
  main_start pc p st → starting p = true → p' ≠ SIdle → main_start pc p' st.
Proof. destruct pc; simpl; intros; destruct_and?; simplify_eq/=; congruence. Qed.

Lemma main_start_stops pc p st :
  main_start pc p st → p ≠ SIdle → main_start pc p true.
Proof. destruct pc; simpl; intros; destruct_and?; done. Qed.

Lemma start_orderly pc a b b' :
  act_start a b = Some b' → a ≠ CallStart → orderly pc b → orderly pc b'.
Proof.
  intros E Ha O.
  assert (starting (b_start b) = true ∧ b_start b ≠ SWaitDown) as [Hs Hw].
  { destruct a, (b_start b) eqn:Hb; simpl in E |- *; rewrite ?Hb in E; done. }
  pose proof (running_start _ _ O Hs Hw) as [Hst Hdn].
  assert (pc ≠ MainInit) as Hpc.
  { intros ->. destruct (od_main _ _ O) as [Hi _]. by rewrite Hi in Hs. }
  destruct O. destruct_broker b. simpl in *. subst.
  destruct a, st; try done; unfold act_start, Http_Bind, Grpc_Bind in E; simpl in E; step_inv E.
  all: try match goal with |- context [is_ok ?r] => destruct (is_ok r) end.
  all: split; try orderly_field.
  all: try (by eapply main_start_moves).
  all: try specialize (od_http_loop0 eq_refl); try specialize (od_grpc_loop0 eq_refl).
  all: subst; simpl in *; first [done | lia | crash_field].
Qed.

Lemma loop_orderly pc a b b' : act_loop a b = Some b' → orderly pc b → orderly pc b'.
Proof.
  intros E O. destruct O. destruct_broker b. simpl in *.
  destruct a as [| | | | | | | | | |k|k err|k|k|k| | | | | | | | | | | | | | | | | | | | | | |];
    try done; destruct k; unfold act_loop, Grpc_Serve_begin, Grpc_Serve_return in E;
    simpl in E; step_inv E.
  all: split; try orderly_field.
  all: simpl in *; repeat case_match; simplify_eq/=; rewrite ?length_app; simpl in *.
  all: first [assumption | lia | by destruct ch | crash_field | apply Nat.ltb_ge in H; lia].
Qed.

(** Steps of the worker and of requests change only their own goroutine, the node and
    the panic flag. *)
Lemma worker_frame a b w b' w' :
  act_worker a (b, w) = Some (b', w') →
  worker_idle (b_worker b) = false ∧
  ∃ wk node p, b' = b_with_worker wk (b_with_panicked p (b_with_node node b)).
Proof.
  assert (∀ v : worker, ∃ wk node p, b_with_worker v b =
            b_with_worker wk (b_with_panicked p (b_with_node node b))) as Hsame.
  { intros v. exists v, (b_node b), (b_panicked b). by destruct_broker b. }
  unfold act_worker. destruct a; try done;
    destruct (b_worker b) as [| |tgs|tgs| |]; try done; intros E; (split; [done|]).
  - simplify_eq. eauto.
  - destruct tgs as [|tg tgs]; [done|]. destruct (b_cancelled b); [simplify_eq; eauto|].
    destruct (on_node _ _) as [r [b1 w1]] eqn:Hn. simplify_eq/=.
    apply on_node_inv in Hn as (srv & -> & _). by eexists _, _, _.
  - destruct tgs; simplify_eq; eauto.
  - simplify_eq; eauto.
  - simplify_eq; eauto.
  - destruct (b_cancelled b); simplify_eq; eauto.
Qed.

Lemma worker_orderly pc a b w b' w' :
  act_worker a (b, w) = Some (b', w') → orderly pc b → orderly pc b'.
Proof.
  intros [Hi (v & nd & p & ->)]%worker_frame O.
  destruct O. destruct_broker b. simpl in *. split; orderly_field.
Qed.

Lemma request_orderly `{!GrpcLaws} pc a b w b' w' :
  act_request Marshal Unmarshal a (b, w) = Some (b', w') → orderly pc b → orderly pc b'.
Proof.
  intros E O. assert (b_inflight b ≠ [] ∨ g_phase (b_grpc b) = Running) as Hi.
  { unfold act_request in E. destruct a; try done.
    - destruct (lib_accepts _ _) eqn:Ha in E; [|done]. right. by eapply accepts_running.
    - left. destruct (b_inflight b); [by destruct i|done]. }
  assert (∃ l node p, b' = b_with_inflight l (b_with_panicked p (b_with_node node b)))
    as (l & nd & p & ->).
  { unfold act_request in E. destruct a; try done.
    - destruct (lib_accepts _ _) in E; simplify_eq/=.
      exists (b_inflight b ++ [c]), (b_node b), (b_panicked b). by destruct_broker b.
    - destruct (b_inflight b !! i) as [c|]; [|done].
      destruct (on_node _ _) as [r [b1 w1]] eqn:Hn. simplify_eq/=.
      apply on_node_inv in Hn as (srv & -> & _). by eexists _, _, _. }
  destruct O. destruct_broker b. simpl in *. split; try orderly_field.
  simpl. intros Hst Hf. destruct Hi as [Hi|Hi]; [by rewrite od_drained0 in Hi|].
  exfalso. apply od_phase0; [by destruct dpc|done].
Qed.

Lemma monitor_orderly pc a b b' : act_monitor a b = Some b' → orderly pc b → orderly pc b'.
Proof.
  intros E O. destruct O. destruct_broker b. simpl in *.
  destruct a; try done; unfold act_monitor in E; simpl in E; step_inv E.
  all: split; try orderly_field.
  all: simpl; first
    [ by destruct stopped | by destruct stopped, ch | by destruct l
    | destruct dpc; simpl in *; intuition congruence ].
Qed.

(** A call of [Shutdown]; a client calls it after [Start] has returned. *)
Lemma call_orderly pc c b w b' w' :
  act_down (CallShutdown c) (b, w) = Some (b', w') → orderly pc b →
  (c = ByClient → b_start b = SReturned true) → orderly pc b'.
Proof.
  intros E O Hc. pose proof (running_start _ _ O) as Hrun.
  pose proof (main_start_stops _ _ _ (od_main _ _ O)) as Hmain.
  unfold act_down in E. destruct (calls_shutdown c b) eqn:Hcalls; [|by destruct (b_down b)].
  assert (match c with ByStart => b_start b = SAbort | _ => b_start b = SReturned true end) as Hst.
  { destruct c; simpl in Hcalls; [by destruct (b_start b)| |by apply Hc].
    apply (od_monitor _ _ O). by destruct (b_monitor b). }
  assert (b_stopped b = false → b_down b = DNone) as Hdn.
  { intros Hs. destruct (decide (b_down b = DNone)) as [|Hn]; [done|].
    apply (od_stopped _ _ O) in Hn. congruence. }
  destruct O. destruct_broker b. simpl in *.
  destruct c; simpl in *; subst; [destruct (Hrun eq_refl) as [-> ->]; [done|]|..];
    try destruct stopped; simplify_eq/=; try rewrite Hdn in * by done;
    clear Hrun Hc Hdn; try clear Hcalls; split; try orderly_field.
  simpl. eapply main_start_moves; [by apply Hmain|done|done].
Qed.

(** The node, the collected errors and the panic flag are outside the invariant. *)
Lemma orderly_frame pc b nd p l :
  orderly pc b → orderly pc (b_with_errs l (b_with_panicked p (b_with_node nd b))).
Proof. intros O. destruct O. destruct_broker b. by split. Qed.

Lemma orderly_join {A} pc b nd p (r : res A) :
  orderly pc b → orderly pc (join r (b_with_panicked p (b_with_node nd b))).
Proof.
  intros O. destruct r as [|e|]; simpl; [|by apply orderly_frame|].
  all: pose proof (orderly_frame pc b nd p (b_errs b) O) as O'; by destruct_broker b.
Qed.

(** Past the wait for the goroutines, [Shutdown] only moves on. *)
Lemma orderly_advance pc b d :
  orderly pc b → reached DCloseOffsets (b_down b) = true → reached DCloseOffsets d = true →
  b_down b ≠ DFinished → d ≠ DFinished → orderly pc (b_with_down d b).
Proof.
  intros O Hb Hd Hf Hf'. destruct O. destruct_broker b. simpl in *.
  destruct dpc, d; try done; split; try assumption; simpl in *; intuition congruence.
Qed.

Lemma close_orderly {A} pc b w (m : M (Server * World) A) d r b' w' :
  on_node m (b, w) = (r, (b', w')) → orderly pc b →
  reached DCloseOffsets (b_down b) = true → reached DCloseOffsets d = true →
  b_down b ≠ DFinished → d ≠ DFinished → orderly pc (b_with_down d (join r b')).
Proof.
  intros (srv & -> & _)%on_node_inv O Hb Hd Hf Hf'.
  apply orderly_advance; [by apply orderly_join|..]; try done; by destruct r.
Qed.

Lemma signal_orderly pc b w b' w' :
  act_down ShutdownSignal (b, w) = Some (b', w') → orderly pc b → orderly pc b'.
Proof.
  intros E O. pose proof (main_start_moves pc (b_start b) (SReturned false) (b_stopped b)) as Hm.
  destruct O. destruct_broker b. unfold act_down in E. simpl in *.
  destruct dpc; try done. destruct rn; simplify_eq/=; split; try orderly_field.
  - simpl. rewrite od_runner_start0 in Hm by done. rewrite od_runner_start0 in od_main0 by done. auto.
  - done.
Qed.

Lemma down_orderly `{!GrpcLaws} pc a b w b' w' :
  act_down a (b, w) = Some (b', w') → (∀ c, a ≠ CallShutdown c) → orderly pc b → orderly pc b'.
Proof.
  intros E Ha O. destruct a; try done; try (by destruct (Ha c)); try (by simpl in E; destruct (b_down b)).
  12: by eapply signal_orderly.
  all: unfold act_down in E.
  10,11: destruct (on_node _ _) as [r [b1 w1]] eqn:Hn; destruct (b_down b) eqn:Hd; simplify_eq;
    by eapply close_orderly; rewrite ?Hd.
  all: destruct O; destruct_broker b; simpl in *; destruct dpc; try done.
  all: step_inv E; split; try orderly_field.
  - intros _ _. apply drained_none in Heqb. by destruct infl.
  - intros _. by apply andb_true_iff in Heqb.
Qed.

Lemma act_orderly `{!GrpcLaws} pc a b w b' w' :
  act Marshal Unmarshal a (b, w) = Some (b', w') → background a = true →
  orderly pc b → orderly pc b'.
Proof.
  unfold act. cbn [fst]. destruct (b_panicked b); [done|]. intros E Hbg O.
  destruct a; try done; first
    [ exact (worker_orderly _ _ _ _ _ _ E O)
    | exact (request_orderly _ _ _ _ _ _ E O)
    | apply fmap_Some in E as (b1 & Es & [= -> ->]); first
        [ exact (loop_orderly _ _ _ _ Es O)
        | exact (monitor_orderly _ _ _ _ Es O)
        | by apply (start_orderly _ _ _ _ Es) ]
    | by apply (down_orderly _ _ _ _ _ _ E)
    | apply (call_orderly _ _ _ _ _ _ E O); by intros -> ].
Qed.

(** Main moves on without touching the broker. *)
Lemma orderly_pc pc pc' b :
  orderly pc b → b_start b ≠ SIdle → pc' ≠ MainInit →
  main_start pc' (b_start b) (b_stopped b) → orderly pc' b.
Proof. intros O Hi Hpc Hm. destruct O. destruct_broker b. split; try done. simpl in *. intuition. Qed.

Lemma call_start_orderly b w b' w' :
  act Marshal Unmarshal CallStart (b, w) = Some (b', w') →
  orderly MainInit b → orderly MainStarting b'.
Proof.
  unfold act. cbn [fst]. destruct (b_panicked b); [done|].
  intros (b1 & Es & [= -> ->])%fmap_Some O. destruct (od_main _ _ O) as [Hi Hst].
  assert (b_started b = false) as Hs by by apply (od_idle _ _ O).
  destruct O. destruct_broker b. simpl in *. subst. simplify_eq/=. split; orderly_field.
Qed.

Lemma client_call_orderly b w b' w' :
  act Marshal Unmarshal (CallShutdown ByClient) (b, w) = Some (b', w') →
  orderly MainSelect b → orderly MainSelect b'.
Proof.
  unfold act. cbn [fst]. destruct (b_panicked b); [done|]. intros E O.
  apply (call_orderly _ _ _ _ _ _ E O). intros _. apply (od_main _ _ O).
Qed.

Lemma main_orderly `{!GrpcLaws} pc b w : main_reachable pc b w → orderly pc b.
Proof.
  induction 1 as [cfg m o w|a pc b w pc' b' w' _ O E]; [apply new_broker_orderly|].
  pose proof (od_main _ _ O) as Hm. unfold main_act in E. destruct a, pc; simplify_eq/=.
  all: try (destruct (background _) eqn:Hbg; [|done];
            destruct (act _ _ _ _) as [[b1 w1]|] eqn:Ea; simplify_eq/=; by eapply act_orderly).
  - destruct (act _ _ _ _) as [[b1 w1]|] eqn:Ea; simplify_eq/=. by eapply call_start_orderly.
  - destruct (b_start b) as [| | | | | | | | | | |ok] eqn:Hs; try done.
    destruct ok; simplify_eq/=; apply (orderly_pc _ _ _ O); rewrite ?Hs; done.
  - destruct (b_done b); simplify_eq. apply (orderly_pc _ _ _ O); rewrite ?Hm; done.
  - destruct (act _ _ _ _) as [[b1 w1]|] eqn:Ea; simplify_eq/=.
    pose proof (client_call_orderly _ _ _ _ Ea O) as O1. pose proof (od_main _ _ O1) as Hm1.
    simpl in Hm1. destruct (b_stopped b); apply (orderly_pc _ _ _ O1); rewrite ?Hm1; done.
  - destruct (b_down b); simplify_eq. apply (orderly_pc _ _ _ O); rewrite ?Hm; done.
Qed.
End Spec.
