(* ===== verification/BrokerSpec.v ===== *)
(** * Properties of the broker's start-up and shutdown

    What the process guarantees when it ends: the order of the shutdown, what is
    closed, that it finishes; and two schedules in which it does not wait. *)

From S2P Require Import Prelude FileSystem Names Segment Store Retention Recovery.
From S2P Require Import Offsets Topics Grpc Config Float64 HttpServer GrpcServer.
From S2P Require Import Broker BrokerInv StoreRefinement.
Open Scope Z_scope.

Section Spec.
Context (Marshal : gmap string DiskTopic → bytes).
Context (Unmarshal : bytes → option (gmap string DiskTopic) →
           res (option (gmap string DiskTopic))).
Context {lib : GrpcLibrary}.

(** ** The order of the shutdown *)

(** The steps of [Shutdown] that close storage. *)
Definition closes_storage (a : action) : bool :=
  match a with ShutdownCloseOffsets | ShutdownCloseStorage => true | _ => false end.

Lemma start_node a b b' : act_start a b = Some b' → b_node b' = b_node b.
Proof. unfold act_start. intros E. destruct a, (b_start b); try done; by step_inv E. Qed.

Lemma loop_node a b b' : act_loop a b = Some b' → b_node b' = b_node b.
Proof.
  intros E. destruct a as [| | | | | | | | | |k|k err|k|k|k| | | | | | | | | | | | | | | | | | | | | | |];
    try done; unfold act_loop in E; destruct k; by step_inv E.
Qed.

Lemma monitor_node a b b' : act_monitor a b = Some b' → b_node b' = b_node b.
Proof. unfold act_monitor. intros E. destruct a, (b_monitor b); try done; by step_inv E. Qed.

Lemma down_node a b w b' w' :
  act_down a (b, w) = Some (b', w') → closes_storage a = false → b_node b' = b_node b ∧ w' = w.
Proof.
  unfold act_down. intros E Ha.
  destruct a as [| | | | | | | | | | | | | | | | | | | | | | |c| | | | | | | |err| | | | | |];
    try done; destruct (b_down b); try done; try destruct c; try destruct err; simpl in E;
    step_inv E; split; try done; by destruct (b_runner b).
Qed.

(** A step of a goroutine other than the handlers, the sweep and the two closing
    steps leaves storage alone. *)
Lemma act_keeps_node a b w b' w' :
  act Marshal Unmarshal a (b, w) = Some (b', w') → closes_storage a = false →
  worker_idle (b_worker b) = true → b_inflight b = [] → b_node b' = b_node b ∧ w' = w.
Proof.
  unfold act. cbn [fst]. destruct (b_panicked b); [done|]. intros E Hc Hw Hi.
  destruct a; try done; try (by apply worker_frame in E as [? _]; congruence).
  all: try (apply fmap_Some in E as (b1 & Es & [= -> ->]); split; [|done]; first
    [ exact (start_node _ _ _ Es) | exact (loop_node _ _ _ Es) | exact (monitor_node _ _ _ Es) ]).
  all: try exact (down_node _ _ _ _ _ E Hc).
  - simpl in E. by destruct (lib_accepts _ _); simplify_eq.
  - simpl in E. by rewrite Hi in E.
Qed.

(** C11: [Shutdown] closes storage last.  In every state of the process from the
    moment it starts to close the offset store on: the readiness flag is down,
    the maintenance context is cancelled, the retention worker and both serving
    goroutines have exited and the gRPC listener is closed; and unless the
    graceful stop timed out, no request is in flight and no step but the two closing
    ones touches the registry, the offset store or the files. *)
Theorem storage_closed_last (laws : GrpcLaws) pc b w :
  main_reachable Marshal Unmarshal pc b w → reached DCloseOffsets (b_down b) = true →
  h_ready (b_http b) = false ∧ b_cancelled b = true
  ∧ worker_idle (b_worker b) = true
  ∧ loop_idle (b_httpLoop b) = true ∧ loop_idle (b_grpcLoop b) = true
  ∧ g_listener (b_grpc b) = None
  ∧ (b_forced b = false → b_inflight b = [] ∧
     ∀ a b' w', act Marshal Unmarshal a (b, w) = Some (b', w') → closes_storage a = false →
       b_node b' = b_node b ∧ w' = w).
Proof.
  intros O%main_orderly Hd; [|done].
  assert (∀ d, reached d DCloseOffsets = true → reached d (b_down b) = true) as Hr.
  { intros d. unfold reached in *. rewrite !Nat.leb_le in *. lia. }
  assert (worker_idle (b_worker b) = true) as Hw by by apply (od_worker _ _ O), Hr.
  split. { destruct (h_ready (b_http b)) eqn:Hh; [|done]. apply (od_ready _ _ O) in Hh.
    by rewrite Hr in Hh. }
  split; [by apply (od_cancelled _ _ O), Hr|]. split; [done|].
  destruct (od_loops _ _ O Hd) as [H1 H2]. split; [done|]. split; [done|].
  split; [by apply (od_listener _ _ O), Hr|]. intros Hf.
  assert (b_inflight b = []) as Hi by (apply (od_drained _ _ O); [by apply Hr|done]).
  split; [done|]. intros a b' w' E Hc. by apply (act_keeps_node _ _ _ _ _ E).
Qed.

(** ** What is closed at the end *)

(** Steps other than the closing ones do not advance past them, and never revoke a
    forced stop. *)
Record holds_back (b b' : Broker) : Prop := mkHoldsBack {
  hb_forced : b_forced b' = false → b_forced b = false;
  hb_storage : reached DCloseStorage (b_down b') = true → reached DCloseStorage (b_down b) = true;
  hb_signal : reached DSignal (b_down b') = true → reached DSignal (b_down b) = true;
}.

Lemma same_holds_back b b' :
  b_forced b' = b_forced b → b_down b' = b_down b → holds_back b b'.
Proof. intros Hf Hd. split; by rewrite ?Hf, ?Hd. Qed.

Lemma down_holds_back a b w b' w' :
  act_down a (b, w) = Some (b', w') → closes_storage a = false → holds_back b b'.
Proof.
  unfold act_down. intros E Ha.
  destruct a as [| | | | | | | | | | | | | | | | | | | | | | |c| | | | | | | |err| | | | | |]; try done.
  1: destruct (calls_shutdown c b), (b_stopped b), c; simplify_eq/=; by split.
  all: destruct (b_down b) eqn:Hd; try done; try destruct err; simpl in E;
    step_inv E; try destruct (b_runner b); split; simpl; rewrite ?Hd; done.
Qed.

Lemma request_holds_back a b w b' w' :
  act_request Marshal Unmarshal a (b, w) = Some (b', w') → holds_back b b'.
Proof.
  unfold act_request. intros E. destruct a; try done.
  - destruct (lib_accepts _ _); simplify_eq. by split.
  - destruct (b_inflight b !! i) as [c|]; [|done].
    destruct (on_node _ _) as [r [b1 w1]] eqn:Hn. simplify_eq/=.
    apply on_node_inv in Hn as (srv & -> & _). by split.
Qed.

Lemma act_holds_back a b w b' w' :
  act Marshal Unmarshal a (b, w) = Some (b', w') → closes_storage a = false → holds_back b b'.
Proof.
  unfold act. cbn [fst]. destruct (b_panicked b); [done|]. intros E Hc.
  destruct a as [| | | | | | | | | |k|k err|k|k|k| | | | | | | | |c| | | | | | | |err| | | | | |];
    try done; try (apply worker_frame in E as [_ (? & ? & ? & ->)]; by apply same_holds_back).
  all: try (apply fmap_Some in E as (b1 & Es & [= -> ->]); try destruct k;
    unfold act_start, act_loop, act_monitor in Es; cbn in Es;
    step_inv Es; by apply same_holds_back).
  all: first [exact (down_holds_back _ _ _ _ _ E Hc) | exact (request_holds_back _ _ _ _ _ E)].
Qed.

(** Every partition of the registry is closed. *)
Definition partitions_closed (m : Manager) : Prop :=
  ∀ name t p, m_topics m !! name = Some t → p ∈ t_partitions t → st_closed p = true.

Lemma close_logs_closed logs w : 
  let '(logs', _, w') := close_logs logs w in
  (∀ p, p ∈ logs' → st_closed p = true)
  ∧ ∀ q, data_at (w_files w') q = data_at (w_files w) q.
Proof.
  revert w. induction logs as [|p logs IH]; intros w; cbn [close_logs].
  { split; [|done]. intros p Hp. by apply elem_of_nil in Hp. }
  destruct (partition.Close (p, w)) as [r [p' w1]] eqn:E.
  apply Store_Close_spec in E as (Hc & HD & _).
  specialize (IH w1). destruct (close_logs logs w1) as [[logs' err] w2]. destruct IH as [Hp Hq].
  split; [|intros q; by rewrite Hq, HD]. intros x [-> | Hx]%elem_of_cons; auto.
Qed.

Lemma close_topics_closed ts w :
  let '(ts', _, w') := close_topics ts w in
  (∀ name t p, (name, t) ∈ ts' → p ∈ t_partitions t → st_closed p = true)
  ∧ ∀ q, data_at (w_files w') q = data_at (w_files w) q.
Proof.
  revert w. induction ts as [|[name t] ts IH]; intros w; cbn [close_topics].
  { split; [|done]. intros n t p Hp. by apply elem_of_nil in Hp. }
  pose proof (close_logs_closed (t_partitions t) w) as Hl.
  destruct (close_logs (t_partitions t) w) as [[ps e1] w1]. destruct Hl as [Hps HD].
  specialize (IH w1). destruct (close_topics ts w1) as [[ts' e2] w2]. destruct IH as [Hts HD2].
  split; [|intros q; by rewrite HD2, HD].
  intros n t' p [[= -> ->]|Hin]%elem_of_cons Hp; [by apply Hps|by eapply Hts].
Qed.

Lemma Manager_Close_closed m w r m' w' :
  Manager_Close (m, w) = (r, (m', w')) →
  partitions_closed m' ∧ ∀ q, data_at (w_files w') q = data_at (w_files w) q.
Proof.
  unfold Manager_Close. pose proof (close_topics_closed (map_to_list (m_topics m)) w) as Hc.
  destruct (close_topics _ _) as [[ts err] w1]. destruct Hc as [Hc HD]. intros [= <- <- <-].
  split; [|done]. intros name t p Ht. eapply Hc, elem_of_list_to_map_2, Ht.
Qed.

Lemma Offsets_Close_closed o w r o' w' :
  Offsets_Close (o, w) = (r, (o', w')) → os_closed o' = true.
Proof.
  unfold Offsets_Close, bind, attempt, io, lift_res, modify, get_obj, ret.
  destruct (os_closed o) eqn:Ho; [by intros [= <- <- <-]|].
  destruct (os_writeFailed o); simpl; [|destruct (fs_sync _ _) as [[] ?]; simpl];
    try destruct (fs_close _ _) as [[] ?]; by intros [= <- <- <-].
Qed.

(** The offset store and the partitions are closed as far as [Shutdown] has come. *)
Definition closed_so_far (b : Broker) : Prop :=
  b_forced b = false →
  (reached DCloseStorage (b_down b) = true → os_closed (sv_offsets (b_node b)) = true)
  ∧ (reached DSignal (b_down b) = true → partitions_closed (sv_topics (b_node b))).

Lemma close_offsets_step b w b' w' :
  act Marshal Unmarshal ShutdownCloseOffsets (b, w) = Some (b', w') → closed_so_far b'.
Proof.
  unfold act, act_down. cbn [fst]. destruct (b_panicked b); [done|].
  destruct (b_down b); try done.
  destruct (on_node _ _) as [r [b1 w1]] eqn:Hn. apply on_node_inv in Hn as (srv & -> & Hn).
  intros [= <- <-] _. split; [intros _|done].
  unfold on_offsets in Hn. destruct (Offsets_Close _) as [r1 [o w2]] eqn:Ho.
  injection Hn as <- <- <-. apply Offsets_Close_closed in Ho. by destruct r1.
Qed.

Lemma close_storage_step b w b' w' :
  act Marshal Unmarshal ShutdownCloseStorage (b, w) = Some (b', w') →
  closed_so_far b → closed_so_far b'.
Proof.
  unfold act, act_down. cbn [fst]. destruct (b_panicked b); [done|].
  destruct (b_down b) eqn:Hd; try done.
  destruct (on_node _ _) as [r [b1 w1]] eqn:Hn. apply on_node_inv in Hn as (srv & -> & Hn).
  intros [= <- <-] IH Hf. unfold on_manager in Hn.
  destruct (Manager_Close _) as [r1 [m w2]] eqn:Hm. injection Hn as <- <- <-.
  apply Manager_Close_closed in Hm as [Hm _].
  assert (b_forced b = false) as Hf0 by by destruct r1. destruct (IH Hf0) as [Ho _].
  rewrite Hd in Ho. split; intros _; destruct r1; simpl; auto.
Qed.

Lemma reachable_closed (laws : GrpcLaws) pc b w :
  main_reachable Marshal Unmarshal pc b w → closed_so_far b.
Proof.
  induction 1 as [cfg m o w|a pc b w pc' b' w' Hr IH E]; [by intros _|].
  pose proof (main_orderly Marshal Unmarshal _ _ _ Hr) as O.
  assert (b' = b ∨ ∃ a, act Marshal Unmarshal a (b, w) = Some (b', w')) as [->|[a0 Ea]]; [|done|].
  { unfold main_act in E. destruct a, pc; simpl in E; step_inv E; eauto.
    all: try (apply fmap_Some in E as ([b1 w1] & Ea & [= -> -> ->]); eauto). }
  destruct (closes_storage a0) eqn:Hc.
  { destruct a0; try done; [by eapply close_offsets_step|by eapply close_storage_step]. }
  apply act_holds_back in Ea as Hh; [|done]. intros Hf. apply (hb_forced _ _ Hh) in Hf.
  destruct (IH Hf) as [Ho Hp].
  assert (reached DCloseStorage (b_down b) = true → b_node b' = b_node b) as Hn.
  { intros Hd. apply (act_keeps_node _ _ _ _ _ Ea Hc).
    - apply (od_worker _ _ O). by destruct (b_down b).
    - apply (od_drained _ _ O); [by destruct (b_down b)|done]. }
  split.
  - intros Hd%(hb_storage _ _ Hh). rewrite Hn by done. auto.
  - intros Hd%(hb_signal _ _ Hh). rewrite Hn by by destruct (b_down b). auto.
Qed.

(** C28: after a shutdown in which the graceful stop did not time out, the offset store
    and every partition of the registry are closed when [Done] is signalled, and the
    closing of the partitions changes no byte of any file. *)
Theorem shutdown_closes_storage (laws : GrpcLaws) pc b w :
  main_reachable Marshal Unmarshal pc b w → b_forced b = false →
  (b_done b = true →
   os_closed (sv_offsets (b_node b)) = true ∧ partitions_closed (sv_topics (b_node b)))
  ∧ ∀ b' w', act Marshal Unmarshal ShutdownCloseStorage (b, w) = Some (b', w') →
      ∀ q, data_at (w_files w') q = data_at (w_files w) q.
Proof.
  intros Hr Hf. pose proof (main_orderly Marshal Unmarshal _ _ _ Hr) as O. split.
  - intros Hd%(od_done _ _ O). destruct (reachable_closed laws _ _ _ Hr Hf) as [Ho Hp].
    rewrite Hd in Ho, Hp. auto.
  - intros b' w'. unfold act, act_down. cbn [fst]. destruct (b_panicked b); [done|].
    destruct (b_down b); try done. destruct (on_node _ _) as [r [b1 w1]] eqn:Hn.
    apply on_node_inv in Hn as (srv & -> & Hn). intros [= <- <-]. unfold on_manager in Hn.
    destruct (Manager_Close _) as [r1 [m w2]] eqn:Hm. injection Hn as <- <- <-.
    by apply Manager_Close_closed in Hm as [_ Hm].
Qed.

(** ** Shutdown finishes

    A step is forthcoming when the code or the documentation of a library promises
    that it happens: goroutines that are not blocked go on, requests are handled to
    their end, [Serve] returns after its server was told to stop.  New requests,
    timers and clients are not forthcoming. *)
Definition forthcoming (a : action) (b : Broker) : bool :=
  match a with
  | LoopServe _ | LoopCheck _ | LoopUnready _ | LoopSend _
  | WorkerSnapshot | WorkerRetain _ | WorkerCheck | WorkerStop
  | MonitorError | MonitorCancelled | MonitorCheck
  | CallShutdown ByMonitor
  | ShutdownUnready | ShutdownCancel | ShutdownWorkerExited | ShutdownStopGRPC | ShutdownDrained
  | ShutdownStopHTTP | ShutdownHTTPStopped _ | ShutdownLoopsExited
  | ShutdownCloseOffsets | ShutdownCloseStorage | ShutdownSignal
  | Handle _ => true
  | ServeReturns HTTP _ => h_inShutdown (b_http b)
  | ServeReturns GRPC _ => bool_decide (g_phase (b_grpc b) ≠ Running)
  | _ => false
  end.

(** [P] holds after finitely many forthcoming steps, in whatever order they are taken;
    until then one can be taken. *)
Inductive inevitably (P : Broker → Prop) (b : Broker) (w : World) : Prop :=
  | inev_now : P b → inevitably P b w
  | inev_later :
      (∃ a s', forthcoming a b = true ∧ act Marshal Unmarshal a (b, w) = Some s') →
      (∀ a b' w', forthcoming a b = true → act Marshal Unmarshal a (b, w) = Some (b', w') →
         inevitably P b' w') →
      inevitably P b w.

(** What is left to do. *)
Definition loop_left (l : loop) : nat :=
  match l with
  | LSpawned => 5 | LServing => 4 | LReturned _ => 3 | LUnready _ => 2 | LSend _ => 1 | _ => 0
  end.
Definition worker_left (b : Broker) : nat :=
  match b_worker b with
  | WStart => 2 * length (sweep_targets (sv_topics (b_node b))) + 3
  | WSweep l => 2 * length l + 2
  | WSwept l => 2 * length l + 3
  | WSelect => 1
  | _ => 0
  end.
Definition monitor_left (m : monitor_pc) : nat :=
  match m with MWaiting => 4 | MGot => 3 | MCall => 2 | MWaitDown => 1 | _ => 0 end.
Definition left_over (b : Broker) : nat :=
  (12 - stage (b_down b)) + loop_left (b_httpLoop b) + loop_left (b_grpcLoop b)
  + worker_left b + monitor_left (b_monitor b).

Definition finished (b : Broker) : Prop := b_down b = DFinished ∨ b_panicked b = true.

(** The process is going down: [Shutdown] runs, or the crash of a server is on its
    way to the monitor. *)
Definition reporting (l : loop) : bool :=
  match l with LReturned _ | LUnready _ | LSend _ | LExited => true | _ => false end.
Definition going_down (b : Broker) : Prop :=
  b_stopped b = true
  ∨ b_start b = SReturned true ∧ (reporting (b_httpLoop b) || reporting (b_grpcLoop b)) = true.

(** A goroutine that is neither idle nor serving takes its next step. *)
Lemma loop_moves k b w :
  b_panicked b = false → loop_idle (get_loop k b) = false →
  (get_loop k b = LServing → match k with HTTP => h_inShutdown (b_http b) = true
                             | GRPC => g_phase (b_grpc b) ≠ Running end) →
  ∃ a s', forthcoming a b = true ∧ act Marshal Unmarshal a (b, w) = Some s'.
Proof.
  intros Hp Hi Hs. unfold act.
  destruct (get_loop k b) as [| | |err|e|e|] eqn:Hk; try done.
  - exists (LoopServe k). cbn [fst]. rewrite Hp. unfold lift_act, act_loop. rewrite Hk.
    destruct k; [destruct (Http_Serve _)|destruct (Grpc_Serve_begin _) as [[] ?]]; eauto.
  - exists (ServeReturns k None). cbn [fst]. rewrite Hp. unfold lift_act, act_loop. rewrite Hk.
    specialize (Hs eq_refl). destruct k; simpl; [by eauto|]. rewrite bool_decide_eq_true_2; eauto.
  - exists (LoopCheck k). cbn [fst]. rewrite Hp. unfold lift_act, act_loop. rewrite Hk. eauto.
  - exists (LoopUnready k). cbn [fst]. rewrite Hp. unfold lift_act, act_loop. rewrite Hk. eauto.
  - exists (LoopSend k). cbn [fst]. rewrite Hp. unfold lift_act, act_loop. rewrite Hk. eauto.
Qed.

Lemma worker_moves b w :
  b_panicked b = false → worker_idle (b_worker b) = false → b_cancelled b = true →
  ∃ a s', forthcoming a b = true ∧ act Marshal Unmarshal a (b, w) = Some s'.
Proof.
  intros Hp Hi Hc. unfold act.
  destruct (b_worker b) as [| |[|tg tgs]|tgs| |] eqn:Hw; try done.
  - exists WorkerSnapshot. cbn [fst]. rewrite Hp. simpl. rewrite Hw. eauto.
  - exists WorkerCheck. cbn [fst]. rewrite Hp. simpl. rewrite Hw. eauto.
  - exists (WorkerRetain 0). cbn [fst]. rewrite Hp. simpl. rewrite Hw, Hc. eauto.
  - exists WorkerCheck. cbn [fst]. rewrite Hp. simpl. rewrite Hw. eauto.
  - exists WorkerStop. cbn [fst]. rewrite Hp. simpl. rewrite Hw, Hc. eauto.
Qed.

(** A step of [Shutdown] is a step of the broker. *)
Lemma down_moves a b w s' :
  b_panicked b = false → act_down a (b, w) = Some s' → forthcoming a b = true →
  (∀ c, a ≠ CallShutdown c) →
  ∃ a s', forthcoming a b = true ∧ act Marshal Unmarshal a (b, w) = Some s'.
Proof.
  intros Hp Ha Hf Hc. exists a, s'. split; [done|]. unfold act. cbn [fst]. rewrite Hp.
  destruct a; try done; by destruct (b_down b).
Qed.

Lemma handler_moves c l b w :
  b_panicked b = false → b_inflight b = c :: l →
  ∃ a s', forthcoming a b = true ∧ act Marshal Unmarshal a (b, w) = Some s'.
Proof.
  intros Hp Hi. exists (Handle 0). unfold act, act_request. cbn [fst]. rewrite Hp, Hi.
  change ((c :: l) !! 0%nat) with (Some c). cbv iota beta.
  destruct (on_node _ _) as [r [b1 w1]]. eauto.
Qed.

(** While [Shutdown] runs, it or a goroutine it waits for can take a step. *)
Lemma shutdown_moves `{!GrpcReturns} pc b w :
  orderly pc b → b_stopped b = true → b_down b ≠ DFinished → b_panicked b = false →
  ∃ a s', forthcoming a b = true ∧ act Marshal Unmarshal a (b, w) = Some s'.
Proof.
  intros O Hs Hf Hp. apply (od_stopped _ _ O) in Hs.
  assert (∀ a s', forthcoming a b = true → (∀ c, a ≠ CallShutdown c) →
    act_down a (b, w) = Some s' →
    ∃ a s', forthcoming a b = true ∧ act Marshal Unmarshal a (b, w) = Some s') as Hmove.
  { intros. by eapply down_moves. }
  unfold act_down in Hmove. destruct (b_down b) eqn:Hd; try done.
  - by eapply (Hmove ShutdownUnready).
  - by eapply (Hmove ShutdownCancel).
  - destruct (worker_idle (b_worker b)) eqn:Hw.
    + by eapply (Hmove ShutdownWorkerExited).
    + apply worker_moves; [done..|]. apply (od_cancelled _ _ O). by rewrite Hd.
  - by eapply (Hmove ShutdownStopGRPC).
  - destruct (b_inflight b) as [|c l] eqn:Hi; [|by eapply handler_moves].
    eapply (Hmove ShutdownDrained); [done..|]. cbn [length]. by rewrite drained_returns.
  - by eapply (Hmove ShutdownStopHTTP).
  - by eapply (Hmove (ShutdownHTTPStopped None)).
  - destruct (loop_idle (b_httpLoop b)) eqn:H1; [destruct (loop_idle (b_grpcLoop b)) eqn:H2|].
    + by eapply (Hmove ShutdownLoopsExited).
    + apply (loop_moves GRPC); [done..|]. intros _. apply (od_phase _ _ O). by rewrite Hd.
    + apply (loop_moves HTTP); [done..|]. intros _. apply (od_http_down _ _ O). by rewrite Hd.
  - destruct (on_node (on_offsets Offsets_Close) (b, w)) as [r [b1 w1]] eqn:Hn.
    by eapply (Hmove ShutdownCloseOffsets).
  - destruct (on_node (on_manager Manager_Close) (b, w)) as [r [b1 w1]] eqn:Hn.
    by eapply (Hmove ShutdownCloseStorage).
  - by eapply (Hmove ShutdownSignal).
Qed.

(** A crash that was not yet acted on can take its next step towards the monitor. *)
Lemma crash_moves pc b w :
  orderly pc b → b_stopped b = false → b_start b = SReturned true →
  reporting (b_httpLoop b) || reporting (b_grpcLoop b) = true → b_panicked b = false →
  ∃ a s', forthcoming a b = true ∧ act Marshal Unmarshal a (b, w) = Some s'.
Proof.
  intros O Hs Hst Hr Hp.
  destruct (decide (exited (b_httpLoop b) || exited (b_grpcLoop b) = true)) as [He|He].
  - pose proof (od_monitoring _ _ O Hst Hs) as Hw. pose proof (od_crash _ _ O Hs He) as Hn.
    rewrite Hst in Hn. destruct (b_monitor b) eqn:Hm; try done.
    + destruct (b_serveErrCh b) as [|e es] eqn:Hch; [done|].
      exists MonitorError. unfold act. cbn [fst]. rewrite Hp. simpl. rewrite Hm, Hch. eauto.
    + exists MonitorCheck. unfold act. cbn [fst]. rewrite Hp. simpl. rewrite Hm. eauto.
    + exists (CallShutdown ByMonitor). unfold act. cbn [fst]. rewrite Hp. simpl. rewrite Hm, Hs. eauto.
  - apply orb_true_iff in Hr as [Hr|Hr].
    + apply (loop_moves HTTP); [done|..]; simpl; by destruct (b_httpLoop b).
    + apply (loop_moves GRPC); [done|..]; simpl; destruct (b_grpcLoop b); try done.
      destruct He. by rewrite orb_true_r.
Qed.

(** ** Every forthcoming step leaves less to do *)

(** One request fewer, or as many requests and less of everything else. *)
Definition less (b' b : Broker) : Prop :=
  (length (b_inflight b') < length (b_inflight b))%nat
  ∨ b_inflight b' = b_inflight b ∧ (left_over b' < left_over b)%nat.

Lemma loop_less a b b' : act_loop a b = Some b' → less b' b.
Proof.
  intros E. right. unfold left_over, worker_left.
  destruct a as [| | | | | | | | | |k|k err|k|k|k| | | | | | | | | | | | | | | | | | | | | | |];
    try done; unfold act_loop in E; destruct k; destruct_broker b; simpl in *; step_inv E;
    (split; [done|]); repeat case_match; simpl; lia.
Qed.

Lemma monitor_less a b b' : act_monitor a b = Some b' → less b' b.
Proof.
  intros E. right. unfold left_over, worker_left. destruct_broker b. simpl in *.
  destruct a; try done; unfold act_monitor in E; simpl in *; step_inv E;
    (split; [done|]); repeat case_match; simpl; lia.
Qed.

Lemma worker_less a b w b' w' :
  act_worker a (b, w) = Some (b', w') → a ≠ WorkerTick → less b' b.
Proof.
  intros E Ha. right. unfold left_over, worker_left. unfold act_worker in E.
  destruct a; try done; destruct (b_worker b) as [| |[|tg tgs]|tgs| |] eqn:Hw; try done.
  2: { destruct (b_cancelled b).
    - simplify_eq/=. split; [done|simpl; lia].
    - destruct (on_node _ _) as [r [b1 w1]] eqn:Hn. apply on_node_inv in Hn as (srv & -> & _).
      simplify_eq/=. split; [done|simpl; lia]. }
  all: step_inv E; (split; [done|simpl; lia]).
Qed.

Lemma request_less i b w b' w' :
  act_request Marshal Unmarshal (Handle i) (b, w) = Some (b', w') → less b' b.
Proof.
  unfold act_request. intros E. destruct (b_inflight b !! i) as [c|] eqn:Hi; [|done].
  destruct (on_node _ _) as [r [b1 w1]] eqn:Hn. apply on_node_inv in Hn as (srv & -> & _).
  simplify_eq/=. left. apply lookup_lt_Some in Hi as Hl. simpl.
  rewrite length_delete; [lia|by eexists].
Qed.

Lemma call_less pc b w b' w' :
  orderly pc b → act_down (CallShutdown ByMonitor) (b, w) = Some (b', w') → less b' b.
Proof.
  intros O E. assert (b_stopped b = false → b_down b = DNone) as Hd.
  { intros Hs. destruct (decide (b_down b = DNone)) as [|Hn]; [done|].
    apply (od_stopped _ _ O) in Hn. congruence. }
  right. unfold left_over, worker_left. clear O. destruct_broker b. unfold act_down in E.
  simpl in *. destruct mo; try (by destruct dpc).
  destruct stopped; [|rewrite Hd in * by done]; [destruct dpc|]; simplify_eq/=; (split; [done|]);
    repeat case_match; simpl; lia.
Qed.

Lemma down_less pc a b w b' w' :
  orderly pc b → act_down a (b, w) = Some (b', w') → (∀ c, a ≠ CallShutdown c) →
  a ≠ ShutdownTimeout → less b' b.
Proof.
  intros O E Hc Ht. pose proof (od_worker _ _ O) as Hw. clear O.
  assert (∀ A (m : M (Server * World) A) d r b1 w1, on_node m (b, w) = (r, (b1, w1)) →
    worker_idle (b_worker b) = true → (stage (b_down b) < stage d ≤ 12)%nat →
    less (b_with_down d (join r b1)) b) as Hclose.
  { intros A m d r b1 w1 (srv & -> & _)%on_node_inv Hi Hd. right. unfold left_over, worker_left.
    destruct_broker b. destruct r, wk; simpl in *; (split; [done|lia]). }
  unfold act_down in E. destruct a; try done; try (by destruct (Hc c)).
  9,10: destruct (on_node _ _) as [r [b1 w1]] eqn:Hn; destruct (b_down b) eqn:Hd; simplify_eq;
    (eapply Hclose; [done|by apply Hw|simpl; lia]).
  all: clear Hclose; right; unfold left_over, worker_left; destruct_broker b; simpl in *;
    destruct dpc; try done; try destruct err; step_inv E; try destruct rn;
    (split; [done|]); simpl in *; repeat case_match; simpl; lia.
Qed.

Lemma forthcoming_background a b : forthcoming a b = true → background a = true.
Proof. by destruct a; try destruct c. Qed.

Lemma forthcoming_less pc a b w b' w' :
  orderly pc b → forthcoming a b = true → act Marshal Unmarshal a (b, w) = Some (b', w') →
  less b' b.
Proof.
  intros O Hf. unfold act. cbn [fst]. destruct (b_panicked b); [done|]. intros E.
  destruct a as [| | | | | | | | | |k|k err|k|k|k| | | | | | | | |c| | | | | | | |err| | | | | |];
    try done; first
    [ by apply (worker_less _ _ _ _ _ E)
    | exact (request_less _ _ _ _ _ E)
    | apply fmap_Some in E as (b1 & Es & [= -> ->]); first
        [ exact (loop_less _ _ _ Es) | exact (monitor_less _ _ _ Es) ]
    | by apply (down_less _ _ _ _ _ _ O E)
    | destruct c; try done; exact (call_less _ _ _ _ _ O E) ].
Qed.

(** ** The process goes down to the end *)

Lemma loop_goes_down a b b' : act_loop a b = Some b' → going_down b → going_down b'.
Proof.
  intros E Hg. destruct_broker b.
  destruct a as [| | | | | | | | | |k|k err|k|k|k| | | | | | | | | | | | | | | | | | | | | | |];
    try done; unfold act_loop in E; destruct k; simpl in *; step_inv E;
    (destruct Hg as [Hg|[Hg Hr]]; [by left|right]; simpl in *; split; [done|]);
    try destruct stopped; simpl; by rewrite ?orb_true_r.
Qed.

Lemma monitor_goes_down a b b' : act_monitor a b = Some b' → going_down b → going_down b'.
Proof. unfold act_monitor. intros E Hg. destruct a, (b_monitor b); try done; by step_inv E. Qed.

Lemma request_goes_down i b w b' w' :
  act_request Marshal Unmarshal (Handle i) (b, w) = Some (b', w') → going_down b → going_down b'.
Proof.
  unfold act_request. intros E Hg. destruct (b_inflight b !! i) as [c|]; [|done].
  destruct (on_node _ _) as [r [b1 w1]] eqn:Hn. apply on_node_inv in Hn as (srv & -> & _).
  by simplify_eq/=.
Qed.

Lemma down_goes_down pc a b w b' w' :
  orderly pc b → act_down a (b, w) = Some (b', w') → (∀ c, a ≠ CallShutdown c) → going_down b'.
Proof.
  intros O E Hc. left. assert (b_stopped b = true) as Hs.
  { apply (od_stopped _ _ O). intros Hd. unfold act_down in E. rewrite Hd in E.
    destruct a; try done. by destruct (Hc c). }
  clear O. unfold act_down in E. destruct a; try done; try (by destruct (Hc c)).
  10,11: destruct (on_node _ _) as [r [b1 w1]] eqn:Hn; apply on_node_inv in Hn as (srv & -> & _).
  all: destruct (b_down b); try done; step_inv E; try destruct r; try destruct err;
    try destruct (b_runner b); done.
Qed.

Lemma call_goes_down b w b' w' :
  act_down (CallShutdown ByMonitor) (b, w) = Some (b', w') → going_down b'.
Proof.
  unfold act_down. intros E. left.
  destruct (calls_shutdown _ _), (b_stopped b) eqn:Hs, (b_down b); by simplify_eq/=.
Qed.

Lemma going_down_stays pc a b w b' w' :
  orderly pc b → forthcoming a b = true → act Marshal Unmarshal a (b, w) = Some (b', w') →
  going_down b → going_down b'.
Proof.
  intros O Hf. unfold act. cbn [fst]. destruct (b_panicked b); [done|]. intros E Hg.
  destruct a as [| | | | | | | | | |k|k err|k|k|k| | | | | | | | |c| | | | | | | |err| | | | | |];
    try done; first
    [ apply worker_frame in E as [_ (? & ? & ? & ->)]; exact Hg
    | exact (request_goes_down _ _ _ _ _ E Hg)
    | apply fmap_Some in E as (b1 & Es & [= -> ->]); first
        [ exact (loop_goes_down _ _ _ Es Hg) | exact (monitor_goes_down _ _ _ Es Hg) ]
    | by apply (down_goes_down _ _ _ _ _ _ O E)
    | destruct c; try done; exact (call_goes_down _ _ _ _ E) ].
Qed.

Lemma goes_down_to_the_end `{!GrpcLaws, !GrpcReturns} pc b w :
  orderly pc b → going_down b → inevitably finished b w.
Proof.
  remember (length (b_inflight b)) as n eqn:Hn. revert b w Hn.
  induction n as [n IHn] using lt_wf_ind. intros b.
  remember (left_over b) as k eqn:Hk. revert b Hk.
  induction k as [k IHk] using lt_wf_ind. intros b Hk w Hn O Hg.
  destruct (decide (b_down b = DFinished)) as [Hd|Hd]; [by apply inev_now; left|].
  destruct (b_panicked b) eqn:Hp; [by apply inev_now; right|]. apply inev_later.
  - destruct (b_stopped b) eqn:Hs; [by eapply shutdown_moves|].
    destruct Hg as [Hg|[Hst Hr]]; [congruence|by eapply crash_moves].
  - intros a b' w' Hf E.
    pose proof (act_orderly _ _ _ _ _ _ _ _ E (forthcoming_background _ _ Hf) O) as O'.
    pose proof (going_down_stays _ _ _ _ _ _ O Hf E Hg) as Hg'.
    destruct (forthcoming_less _ _ _ _ _ _ O Hf E) as [Hl|[Hi Hl]].
    + eapply (IHn (length (b_inflight b'))); [lia|done|done|done].
    + eapply (IHk (left_over b')); [lia|done|congruence|done|done].
Qed.


(** ** A second call of Shutdown does not wait *)

(** A crash of the gRPC server, the monitor entering [Shutdown], then a signal. *)
Definition crash_then_signal : list main_action :=
  [ MainCallStart; Background (BindHTTP (Ok "localhost:9093"%string));
    Background (BindGRPC (Ok "localhost:50051"%string));
    Background SpawnHTTP; Background SpawnGRPC; Background SpawnWorker;
    Background (LoopServe HTTP); Background (LoopServe GRPC);
    Background WindowTimeout; Background MarkReady; MainStarted;
    Background (ServeReturns GRPC (Some ErrIO)); Background (LoopCheck GRPC);
    Background (LoopUnready GRPC); Background (LoopSend GRPC);
    Background MonitorError; Background MonitorCheck; Background (CallShutdown ByMonitor);
    MainSignal ].

(** C40: a signal that arrives while the monitor is already shutting the broker down
    makes main report a clean shutdown and exit with status zero at once: nothing
    has been flushed or closed, the worker may be in a sweep and [Done] is not
    signalled.  This holds from every initial state. *)
Theorem signal_during_crash_exits_early cfg m o w :
  ∃ b, main_acts Marshal Unmarshal crash_then_signal (MainInit, (new_broker cfg m o, w))
         = Some (MainExit true, (b, w))
       ∧ b_stopped b = true ∧ b_done b = false
       ∧ b_node b = b_node (new_broker cfg m o) ∧ b_worker b = WStart.
Proof.
  assert (match main_acts Marshal Unmarshal crash_then_signal (MainInit, (new_broker cfg m o, w)) with
          | Some (MainExit true, (b, w')) => w' = w ∧ b_stopped b = true ∧ b_done b = false
              ∧ b_node b = b_node (new_broker cfg m o) ∧ b_worker b = WStart
          | _ => False
          end) as H by (vm_compute; auto).
  destruct (main_acts _ _ _ _) as [[pc [b w']]|]; [|done].
  destruct pc as [| | | |[]]; try done. destruct H as [-> H]. eauto.
Qed.

Lemma main_acts_reachable l pc b w pc' b' w' :
  main_reachable Marshal Unmarshal pc b w →
  main_acts Marshal Unmarshal l (pc, (b, w)) = Some (pc', (b', w')) →
  main_reachable Marshal Unmarshal pc' b' w'.
Proof.
  revert pc b w. induction l as [|a l IH]; intros pc b w Hr E; [by simplify_eq/=|].
  cbn [main_acts] in E. apply bind_Some in E as ([pc1 [b1 w1]] & Ea & E).
  by eapply IH; [eapply reach_step|].
Qed.

End Spec.

(** ** Runs of the process *)

(** The grpc library as documented. *)
#[global] Instance documented_grpc : GrpcLibrary := {
  lib_accepts served phase := served && bool_decide (phase = Running);
  lib_drained n := (n =? 0)%nat;
}.
#[global] Instance documented_laws : GrpcLaws.
Proof.
  split; simpl.
  - intros served phase [_ H]%andb_true_iff. by apply bool_decide_eq_true in H.
  - intros n. apply Nat.eqb_eq.
Qed.
#[global] Instance documented_returns : GrpcReturns.
Proof. by split. Qed.

Module demo.

Definition Marshal (m : gmap string DiskTopic) : bytes := [].
Definition Unmarshal (b : bytes) (m : option (gmap string DiskTopic))
    : res (option (gmap string DiskTopic)) := Ok m.

(** A broker with one topic of one empty partition. *)
Definition log_dir : path := ["data"; "t-0"]%string.
Definition partition : Store :=
  mkStore log_dir 1000 100 50 "sync" false false
    [mkSegment 0 0 0 (log_dir ++ ["0.log"]%string) (log_dir ++ ["0.index"]%string) [] 0 0
       false true 0 false] 0 0.
Definition topics : gmap string Topic :=
  {["t"%string := mkTopic "t" [partition] (mkRetentionPolicy 0 0)]}.
Definition broker : Broker :=
  new_broker DefaultConfig (mkManager topics ["data"%string] 1000 100 50 "sync" 0 0)
    (mkOffsetStore ["data"; "offsets"; "consumer-offsets.log"]%string ∅ 0 false false).
Definition world : World := mkWorld ∅ ∅ [] [].

(** Start, a request, a signal. *)
Definition up_to_signal : list main_action :=
  [ MainCallStart; Background (BindHTTP (Ok "localhost:9093"%string));
    Background (BindGRPC (Ok "localhost:50051"%string));
    Background SpawnHTTP; Background SpawnGRPC; Background SpawnWorker;
    Background (LoopServe HTTP); Background (LoopServe GRPC);
    Background WorkerSnapshot; Background WindowTimeout; Background MarkReady; MainStarted;
    Background (Accept CallListTopics); MainSignal ].
(** [Shutdown] up to the closing of storage, and to the end. *)
Definition up_to_closing : list main_action :=
  up_to_signal ++
  [ Background ShutdownUnready; Background ShutdownCancel;
    Background (WorkerRetain 0); Background WorkerStop; Background ShutdownWorkerExited;
    Background ShutdownStopGRPC; Background (Handle 0); Background ShutdownDrained;
    Background (ServeReturns GRPC None); Background (LoopCheck GRPC);
    Background ShutdownStopHTTP; Background (ServeReturns HTTP (Some ErrIO));
    Background (ShutdownHTTPStopped None); Background (LoopCheck HTTP);
    Background ShutdownLoopsExited ].
Definition up_to_exit : list main_action :=
  up_to_closing ++
  [ Background ShutdownCloseOffsets; Background ShutdownCloseStorage; Background ShutdownSignal;
    MainDown ].

Definition after (l : list main_action) : main_pc * (Broker * World) :=
  default (MainInit, (broker, world)) (main_acts Marshal Unmarshal l (MainInit, (broker, world))).

Lemma after_reachable l :
  bool_decide (is_Some (main_acts Marshal Unmarshal l (MainInit, (broker, world)))) = true →
  main_reachable Marshal Unmarshal (fst (after l)) (fst (snd (after l))) (snd (snd (after l))).
Proof.
  intros [s Hs]%bool_decide_eq_true. unfold after. rewrite Hs. destruct s as [pc [b w]]. simpl.
  eapply main_acts_reachable; [apply reach_init|exact Hs].
Qed.

End demo.

Lemma storage_closed_last_witness :
  let b := fst (snd (demo.after demo.up_to_closing)) in
  reached DCloseOffsets (b_down b) = true ∧ worker_idle (b_worker b) = true
  ∧ b_forced b = false.
Proof.
  simpl. split; [vm_compute; reflexivity|]. split; [|vm_compute; reflexivity].
  apply (storage_closed_last demo.Marshal demo.Unmarshal documented_laws
           (fst (demo.after demo.up_to_closing)) _ (snd (snd (demo.after demo.up_to_closing)))).
  - apply demo.after_reachable. vm_compute. reflexivity.
  - vm_compute. reflexivity.
Defined.

Lemma shutdown_closes_storage_witness :
  let b := fst (snd (demo.after demo.up_to_exit)) in
  b_done b = true ∧ os_closed (sv_offsets (b_node b)) = true
  ∧ partitions_closed (sv_topics (b_node b)).
Proof.
  simpl. split; [vm_compute; reflexivity|].
  apply (shutdown_closes_storage demo.Marshal demo.Unmarshal documented_laws
           (fst (demo.after demo.up_to_exit)) _ (snd (snd (demo.after demo.up_to_exit)))).
  - apply demo.after_reachable. vm_compute. reflexivity.
  - vm_compute. reflexivity.
  - vm_compute. reflexivity.
Defined.


(** ** Start does not look at the stopped flag *)

(** [Shutdown] runs to its end while [Start] is about to create the worker. *)
Definition start_overtaken : list action :=
  [ CallStart; BindHTTP (Ok "localhost:9093"%string); BindGRPC (Ok "localhost:50051"%string);
    SpawnHTTP; SpawnGRPC; LoopServe HTTP; LoopServe GRPC;
    CallShutdown ByClient; ShutdownUnready; ShutdownCancel; ShutdownWorkerExited;
    ShutdownStopGRPC; ShutdownDrained; ShutdownStopHTTP; ShutdownHTTPStopped None;
    ServeReturns GRPC None; LoopCheck GRPC; ServeReturns HTTP (Some ErrIO); LoopCheck HTTP;
    ShutdownLoopsExited; ShutdownCloseOffsets; ShutdownCloseStorage; ShutdownSignal;
    SpawnWorker; WindowTimeout; MarkReady ].

(** For a client of the package other than main, [Shutdown] during [Start] is not
    safe: [Start] does not look at [stopped], so after [Shutdown] has finished and
    [Done] is signalled it still starts the retention worker on the closed stores,
    marks the broker ready and returns nil. *)
Theorem start_overtaken_by_shutdown :
  ∃ b w, acts demo.Marshal demo.Unmarshal start_overtaken (demo.broker, demo.world) = Some (b, w)
    ∧ b_done b = true ∧ os_closed (sv_offsets (b_node b)) = true
    ∧ IsReady (b_http b) = true ∧ b_worker b = WStart ∧ b_start b = SReturned true.
Proof.
  assert (match acts demo.Marshal demo.Unmarshal start_overtaken (demo.broker, demo.world) with
          | Some (b, w) => b_done b = true ∧ os_closed (sv_offsets (b_node b)) = true
              ∧ IsReady (b_http b) = true ∧ b_worker b = WStart ∧ b_start b = SReturned true
          | None => False
          end) as H by (vm_compute; auto).
  destruct (acts _ _ _ _) as [[b w]|]; [|done]. eauto.
Qed.
