(* ===== verification/BenchLatency.v ===== *)
(** * Latency sampler (internal/bench/latency.go)

    A reservoir of at most [maxSize] durations and the report computed from it.
    [rng.Uint64] is the generator of math/rand: the value it would return is an
    argument of [Sampler_Add].  Durations are int64 nanoseconds. *)

From S2P Require Import Prelude Float64.
From Stdlib Require Import Floats.SpecFloat.
Open Scope Z_scope.

Record Sampler := mkSampler {
  sm_seen : Z;
  sm_samples : list Z;
  sm_maxSize : Z;
}.

Definition NewSampler (maxSize : Z) : Sampler := mkSampler 0 [] maxSize.

(** [random] is the next value of [rng.Uint64()]; the remainder by a counter that
    wrapped to zero panics. *)
Definition Sampler_Add (random d : Z) (s : Sampler) : res Sampler :=
  let seen := u64 (sm_seen s + 1) in
  if blen (sm_samples s) <? sm_maxSize s
  then Ok (mkSampler seen (sm_samples s ++ [d]) (sm_maxSize s))
  else if seen =? 0 then Panic else
    let val := random mod seen in
    if val <? u64 (sm_maxSize s) then
      if val <? blen (sm_samples s)
      then Ok (mkSampler seen (<[Z.to_nat val := d]> (sm_samples s)) (sm_maxSize s))
      else Panic
    else Ok (mkSampler seen (sm_samples s) (sm_maxSize s)).

Fixpoint add_all (l : list (Z * Z)) (s : Sampler) : res Sampler :=
  match l with
  | [] => Ok s
  | (random, d) :: l => let! s := Sampler_Add random d s in add_all l s
  end.

Record LatencyReport := mkLatencyReport {
  MinMs : float64;
  MeanMs : float64;
  P50Ms : float64;
  P95Ms : float64;
  P99Ms : float64;
  MaxMs : float64;
}.

Definition durationToMs (d : Z) : float64 := f64_div (float64_of d) (float64_of 1000000).

(** The rank of the percentile, clamped to the slice. *)
Definition percentile_index (p : float64) (n : Z) : Z :=
  let idx := int_ceil (f64_mul p (float64_of n)) - 1 in
  let idx := if idx <? 0 then 0 else idx in
  if n <=? idx then n - 1 else idx.

Definition getPercentile (sorted : list Z) (p : float64) : res Z :=
  let n := blen sorted in
  if n =? 0 then Ok 0 else
  match sorted !! Z.to_nat (percentile_index p n) with
  | Some d => Ok d
  | None => Panic
  end.

(** The sum of the samples wraps like any int64. *)
Definition mean (l : list Z) : Z :=
  Z.quot (foldl (fun sum d => i64 (sum + d)) 0 l) (blen l).

(** The durations of a report before their conversion to milliseconds. *)
Record Summary := mkSummary {
  s_min : Z; s_mean : Z; s_p50 : Z; s_p95 : Z; s_p99 : Z; s_max : Z;
}.

Definition summarize (samples : list Z) : res Summary :=
  let sorted := merge_sort Z.le samples in
  let! p50 := getPercentile sorted (f64_ratio 50 100) in
  let! p95 := getPercentile sorted (f64_ratio 95 100) in
  let! p99 := getPercentile sorted (f64_ratio 99 100) in
  match sorted, last sorted with
  | minVal :: _, Some maxVal => Ok (mkSummary minVal (mean sorted) p50 p95 p99 maxVal)
  | _, _ => Panic
  end.

Definition GetReport (s : Sampler) : res LatencyReport :=
  match sm_samples s with
  | [] => Ok (mkLatencyReport (S754_zero false) (S754_zero false) (S754_zero false)
                (S754_zero false) (S754_zero false) (S754_zero false))
  | samples =>
    let! r := summarize samples in
    Ok (mkLatencyReport (durationToMs (s_min r)) (durationToMs (s_mean r))
          (durationToMs (s_p50 r)) (durationToMs (s_p95 r)) (durationToMs (s_p99 r))
          (durationToMs (s_max r)))
  end.

(** ** The reservoir *)

(** After [l] samples: as many as fit, each of them one that was added. *)
Record reservoir (s : Sampler) (l : list Z) : Prop := mkReservoir {
  rv_seen : sm_seen s = blen l;
  rv_size : blen (sm_samples s) = Z.min (blen l) (sm_maxSize s);
  rv_from : ∀ d, d ∈ sm_samples s → d ∈ l;
}.

Lemma elem_of_inserted {A} (l : list A) i (x y : A) : x ∈ <[i := y]> l → x = y ∨ x ∈ l.
Proof.
  intros [j Hj]%list_elem_of_lookup.
  apply list_lookup_insert_Some in Hj as [(_ & -> & _)|[_ Hj]]; [by left|].
  right. by eapply list_elem_of_lookup_2.
Qed.

Lemma Add_reservoir s l random d :
  reservoir s l → 0 ≤ random → 0 ≤ sm_maxSize s < two63 → blen l + 1 < two64 →
  ∃ s', Sampler_Add random d s = Ok s' ∧ sm_maxSize s' = sm_maxSize s ∧ reservoir s' (l ++ [d]).
Proof.
  intros [Hseen Hsize Hfrom] Hr Hmax Hl. unfold Sampler_Add.
  assert (u64 (sm_seen s + 1) = blen l + 1) as -> by (rewrite Hseen; apply u64_small; blen_lia).
  assert (blen (l ++ [d]) = blen l + 1) as Hl1 by blen_lia.
  destruct (Z.ltb_spec (blen (sm_samples s)) (sm_maxSize s)) as [Hlt|Hge].
  { eexists. split; [done|]. split; [done|]. split; simpl; [lia|blen_lia|].
    intros x [Hx | ->%list_elem_of_singleton]%elem_of_app; apply elem_of_app; [left; auto|right].
    by apply list_elem_of_singleton. }
  rewrite (proj2 (Z.eqb_neq _ _)) by blen_lia. rewrite (u64_small (sm_maxSize s)) by lia.
  pose proof (Z.mod_pos_bound random (blen l + 1) ltac:(blen_lia)) as Hv.
  set (val := random mod (blen l + 1)) in *.
  assert (∀ x, x ∈ sm_samples s → x ∈ l ++ [d]) as Hsub.
  { intros x Hx. apply elem_of_app. left. auto. }
  destruct (Z.ltb_spec val (sm_maxSize s)) as [Hv1|Hv1].
  - rewrite (proj2 (Z.ltb_lt _ _)) by lia. eexists. split; [done|]. split; [done|].
    split; simpl; [lia| |].
    + unfold blen in *. rewrite length_insert. lia.
    + intros x [-> | Hx]%elem_of_inserted; [|auto]. apply elem_of_app. right.
      by apply list_elem_of_singleton.
  - eexists. split; [done|]. split; [done|]. split; simpl; [lia|lia|done].
Qed.

(** The reservoir.  After any sequence of additions (fewer than 2^64) the
    sampler holds as many samples as were added, at most [maxSize], every one of them a
    duration that was added; no index is out of range and no division by zero
    occurs, whatever the random numbers are. *)
Theorem sampler_keeps_reservoir maxSize l :
  0 ≤ maxSize < two63 → blen l < two64 → Forall (fun x => 0 ≤ fst x) l →
  ∃ s, add_all l (NewSampler maxSize) = Ok s
    ∧ blen (sm_samples s) = Z.min (blen l) maxSize
    ∧ ∀ d, d ∈ sm_samples s → d ∈ (snd <$> l).
Proof.
  intros Hmax Hl Hr.
  assert (∀ l s done, reservoir s done → sm_maxSize s = maxSize →
    blen done + blen l < two64 → Forall (fun x => 0 ≤ fst x) l →
    ∃ s', add_all l s = Ok s' ∧ sm_maxSize s' = maxSize ∧ reservoir s' (done ++ (snd <$> l))) as Hall.
  { clear l Hl Hr. induction l as [|[random d] l IH]; intros s dn Hs Hm Hl Hr.
    - exists s. by rewrite app_nil_r.
    - apply Forall_cons in Hr as [Hr0 Hr]. cbn [add_all fst] in *.
      destruct (Add_reservoir s dn random d Hs Hr0) as (s1 & -> & Hm1 & Hs1); [lia|blen_lia|].
      cbn [rbind]. destruct (IH s1 (dn ++ [d]) Hs1) as (s' & -> & Hm' & Hs'); [lia|blen_lia|done|].
      exists s'. split; [done|]. split; [done|]. by rewrite <- app_assoc in Hs'. }
  destruct (Hall l (NewSampler maxSize) []) as (s & -> & Hm & Hs); try done.
  { split; [done| |done]. simpl. rewrite blen_nil. lia. }
  exists s. split; [done|]. destruct Hs as [_ Hsize Hfrom]. simpl in *.
  split; [|done]. rewrite Hsize, Hm. unfold blen. by rewrite length_fmap.
Qed.

Lemma sampler_keeps_reservoir_witness :
  ∃ s, add_all [(7, 30); (5, 10); (4, 20)] (NewSampler 2) = Ok s
    ∧ blen (sm_samples s) = 2 ∧ ∀ d, d ∈ sm_samples s → d ∈ [30; 10; 20].
Proof.
  apply (sampler_keeps_reservoir 2 [(7, 30); (5, 10); (4, 20)]); [lia|vm_compute; reflexivity|].
  repeat constructor; simpl; lia.
Defined.

(** ** The report *)

Lemma percentile_index_range p n : 0 < n → 0 ≤ percentile_index p n < n.
Proof.
  intros Hn. unfold percentile_index. set (i := int_ceil _ - 1).
  destruct (i <? 0) eqn:E1; [destruct (n <=? 0) eqn:E2|destruct (n <=? i) eqn:E2]; lia.
Qed.

Lemma getPercentile_elem sorted p :
  sorted ≠ [] → ∃ d, getPercentile sorted p = Ok d ∧ d ∈ sorted.
Proof.
  intros Hs. assert (0 < blen sorted) as Hn by (destruct sorted; [done|blen_lia]).
  pose proof (percentile_index_range p _ Hn) as Hi. unfold getPercentile.
  rewrite (proj2 (Z.eqb_neq _ _)) by lia.
  destruct (lookup_lt_is_Some_2 sorted (Z.to_nat (percentile_index p (blen sorted)))) as [d Hd].
  { unfold blen in *. lia. }
  rewrite Hd. exists d. split; [done|]. by eapply list_elem_of_lookup_2.
Qed.

Definition total (l : list Z) : Z := foldr Z.add 0 l.

Lemma sum_exact l acc :
  Forall (fun d => 0 ≤ d) l → 0 ≤ acc → acc + total l < two63 →
  foldl (fun sum d => i64 (sum + d)) acc l = acc + total l.
Proof.
  revert acc. induction l as [|d l IH]; intros acc Hl Ha Ht; simpl in *; [lia|].
  apply Forall_cons in Hl as [Hd Hl].
  assert (0 ≤ total l) by (clear -Hl; induction Hl; simpl in *; lia).
  rewrite i64_small by lia. rewrite IH; [lia|done|lia|lia].
Qed.

Lemma total_bounds l lo hi :
  (∀ d, d ∈ l → lo ≤ d ≤ hi) → lo * blen l ≤ total l ≤ hi * blen l.
Proof.
  induction l as [|d l IH]; intros H; [simpl; rewrite blen_nil; lia|].
  specialize (IH ltac:(intros x Hx; apply H; by right)).
  pose proof (H d ltac:(by left)). simpl. rewrite blen_cons. lia.
Qed.

Lemma mean_bounds l lo hi :
  l ≠ [] → 0 ≤ lo → (∀ d, d ∈ l → lo ≤ d ≤ hi) → total l < two63 → lo ≤ mean l ≤ hi.
Proof.
  intros Hl Hlo Hb Ht. assert (0 < blen l) by (destruct l; [done|blen_lia]).
  pose proof (total_bounds _ _ _ Hb) as Hs. unfold mean.
  rewrite sum_exact; [|apply Forall_forall; intros d Hd; specialize (Hb d Hd); lia|lia|lia].
  rewrite Z.quot_div_nonneg by nia.
  split; [apply Z.div_le_lower_bound|apply Z.div_le_upper_bound]; nia.
Qed.

Lemma sorted_first_last (l : list Z) x y :
  Sorted Z.le l → head l = Some x → last l = Some y → ∀ d, d ∈ l → x ≤ d ≤ y.
Proof.
  intros Hs Hx Hy d Hd. apply Sorted_StronglySorted in Hs; [|intros ???; lia].
  revert x Hx. induction Hs as [|a l Hs IH Hall]; intros x Hx; [done|].
  injection Hx as ->. rewrite Forall_forall in Hall.
  destruct l as [|b l]; [injection Hy as ->; apply list_elem_of_singleton in Hd; lia|].
  rewrite last_cons_cons in Hy. assert (y ∈ b :: l) as Hin.
  { apply last_Some in Hy as [l' ->]. apply elem_of_app. right. by left. }
  apply elem_of_cons in Hd as [-> | Hd]; [split; [lia|by apply Hall]|].
  specialize (IH Hy Hd b eq_refl). pose proof (Hall b ltac:(by left)). lia.
Qed.

(** C35: the latency report of a non-empty set of samples is well defined (no index out
    of range, whatever the rounding of the float products), the minimum, the
    maximum and the percentiles are samples, and every figure lies between the
    minimum and the maximum, the mean included as long as the sum fits an int64. *)
Theorem report_within_range samples :
  samples ≠ [] → Forall (fun d => 0 ≤ d) samples → total samples < two63 →
  ∃ r, summarize samples = Ok r
    ∧ (∀ d, d ∈ samples → s_min r ≤ d ≤ s_max r)
    ∧ Forall (fun d => d ∈ samples) [s_min r; s_p50 r; s_p95 r; s_p99 r; s_max r]
    ∧ s_min r ≤ s_mean r ≤ s_max r.
Proof.
  intros Hne Hpos Hsum. unfold summarize.
  pose proof (merge_sort_Permutation Z.le samples) as Hperm.
  pose proof (Sorted_merge_sort Z.le samples) as Hsort.
  set (sorted := merge_sort Z.le samples) in *.
  assert (sorted ≠ []) as Hs.
  { intros Hs. rewrite Hs in Hperm. by apply Permutation_nil in Hperm. }
  assert (∀ d, d ∈ sorted → d ∈ samples) as Hin by (intros d; by rewrite Hperm).
  destruct (getPercentile_elem sorted (f64_ratio 50 100) Hs) as (p50 & -> & H50).
  destruct (getPercentile_elem sorted (f64_ratio 95 100) Hs) as (p95 & -> & H95).
  destruct (getPercentile_elem sorted (f64_ratio 99 100) Hs) as (p99 & -> & H99).
  cbn [rbind]. clearbody sorted.
  assert (total sorted = total samples) as Ht.
  { clear -Hperm. induction Hperm; simpl in *; lia. }
  destruct (last sorted) as [y|] eqn:Hy; [|by apply last_None in Hy].
  destruct sorted as [|x l] eqn:El; [done|].
  assert (∀ d, d ∈ x :: l → x ≤ d ≤ y) as Hb by by eapply sorted_first_last.
  rewrite Hy. eexists. split; [done|]. simpl. split; [intros d Hd; apply Hb; by rewrite Hperm|].
  split.
  - repeat apply Forall_cons_2; try apply Forall_nil_2; apply Hin; try done; [by left|].
    apply last_Some in Hy as [l' ->]. apply elem_of_app. right. by left.
  - apply mean_bounds; [done| |done|lia]. rewrite Forall_forall in Hpos. apply Hpos, Hin. by left.
Qed.

Lemma report_within_range_witness :
  ∃ r, summarize [40; 10; 30; 20] = Ok r
    ∧ (∀ d, d ∈ [40; 10; 30; 20] → s_min r ≤ d ≤ s_max r)
    ∧ Forall (fun d => d ∈ [40; 10; 30; 20]) [s_min r; s_p50 r; s_p95 r; s_p99 r; s_max r]
    ∧ s_min r ≤ s_mean r ≤ s_max r.
Proof.
  apply (report_within_range [40; 10; 30; 20]); [done|repeat constructor; lia|].
  vm_compute. reflexivity.
Defined.

(** The percentiles of a hundred samples. *)
Example report_of_hundred :
  summarize (Z.of_nat <$> seq 1 100) = Ok (mkSummary 1 50 50 95 99 100).
Proof. vm_compute. reflexivity. Qed.
