(* ===== verification/BenchProducer.v ===== *)
(** * Producer benchmark (internal/bench/producer.go)

    The workers of [Run] share atomic counters; each worker is a program counter and
    [worker_act] is one step of one worker: an atomic operation, a critical section
    of [p.mu], or an RPC, whose outcome is an argument.  The latencies go to the sampler
    (BenchLatency.v), which has a lock of its own.  The verification of the
    acknowledged ranges and its sort are translated as they stand; Go maps that the
    code ranges over are visited in the order of [map_to_list]. *)

From S2P Require Import Prelude Float64 BenchLatency.
Open Scope Z_scope.

Record AcknowledgedRange := mkRange {
  Partition : Z;
  Base : Z;
  Last : Z;
}.

#[global] Instance range_eq_dec : EqDecision AcknowledgedRange.
Proof. solve_decision. Defined.

(** ** The workers *)

(** The parameters of a run that the workers read. *)
Record ProducerConf := mkProducerConf {
  pc_total : Z;
  (** [p.duration > 0] *)
  pc_timed : bool;
  pc_batchSize : Z;
  (** [-1] for round-robin *)
  pc_partition : Z;
  pc_failFast : bool;
  pc_partitionCount : Z;
}.

(** The state that the workers share. *)
Record Producer := mkProducer {
  nextRecord : Z;
  acknowledged : Z;
  failed : Z;
  rpcCount : Z;
  canceledRequests : Z;
  partitionCounter : Z;
  ranges : list AcknowledgedRange;
  errMap : gmap string Z;
  firstErr : option error;
  (** [runCtx] is cancelled *)
  run_cancelled : bool;
}.

Definition new_producer : Producer := mkProducer 0 0 0 0 0 0 [] ∅ None false.

(** The outcome of a Produce call: offsets, or an error with its status code; the
    flag tells whether the error is [context.Canceled]. *)
Inductive produce_reply : Type :=
  | Acked (baseOffset lastOffset : Z)
  | Refused (code : string) (err : error) (canceled : bool).

Inductive producer_pc : Type :=
  | PLoop
  | PClaim
  | PTarget (size : Z)
  | PSend (size partition : Z)
  | PReplied (size partition : Z) (reply : produce_reply)
  | PFailed (code : string) (err : error)
  | PStore (partition base last : Z)
  | PReturned.

(** What a step of a worker takes from its environment: whether the duration has
    elapsed, and the outcome of its call. *)
Inductive producer_input : Type :=
  | Tick
  | Elapsed
  | Reply (r : produce_reply).

Definition incr (n : option Z) : option Z := Some (default 0 n + 1).

(** One step of a worker. *)
Definition worker_act (c : ProducerConf) (i : producer_input) (l : producer_pc) (p : Producer)
    : option (producer_pc * Producer) :=
  let '(mkProducer nr ack fl rpcs canc ctr rs em fe stop) := p in
  match l, i with
  | PLoop, Tick => Some (if stop then PReturned else PClaim, p)
  | PClaim, Elapsed => if pc_timed c then Some (PReturned, p) else None
  | PClaim, Tick =>
    let nr := i64 (nr + pc_batchSize c) in
    let p := mkProducer nr ack fl rpcs canc ctr rs em fe stop in
    if pc_timed c then Some (PTarget (pc_batchSize c), p) else
    let startIdx := i64 (nr - pc_batchSize c) in
    if pc_total c <=? startIdx then Some (PReturned, p) else
    let remaining := i64 (pc_total c - startIdx) in
    Some (PTarget (if remaining <? pc_batchSize c then remaining else pc_batchSize c), p)
  | PTarget size, Tick =>
    if pc_partition c =? -1 then
      let ctr := u64 (ctr + 1) in
      let nextVal := u64 (ctr - 1) in
      Some (PSend size (u32 (nextVal mod pc_partitionCount c)),
            mkProducer nr ack fl rpcs canc ctr rs em fe stop)
    else Some (PSend size (u32 (pc_partition c)), p)
  | PSend size part, Reply r =>
    Some (PReplied size part r, mkProducer nr ack fl (i64 (rpcs + 1)) canc ctr rs em fe stop)
  | PReplied size part (Acked base last), Tick =>
    Some (PStore part base last, mkProducer nr (i64 (ack + size)) fl rpcs canc ctr rs em fe stop)
  | PReplied size part (Refused code err canceled), Tick =>
    if canceled && stop
    then Some (PLoop, mkProducer nr ack fl rpcs (i64 (canc + 1)) ctr rs em fe stop)
    else Some (PFailed code err, mkProducer nr ack (i64 (fl + size)) rpcs canc ctr rs em fe stop)
  | PFailed code err, Tick =>
    let em := partial_alter incr code em in
    let fe := match fe with None => Some err | Some _ => fe end in
    if pc_failFast c
    then Some (PReturned, mkProducer nr ack fl rpcs canc ctr rs em fe true)
    else Some (PLoop, mkProducer nr ack fl rpcs canc ctr rs em fe stop)
  | PStore part base last, Tick =>
    Some (PLoop, mkProducer nr ack fl rpcs canc ctr (rs ++ [mkRange part base last]) em fe stop)
  | _, _ => None
  end.

(** A step of the worker with number [k]. *)
Definition workers_act (c : ProducerConf) (k : nat) (i : producer_input)
    (s : list producer_pc * Producer) : option (list producer_pc * Producer) :=
  let '(ws, p) := s in
  l ← ws !! k; '(l', p') ← worker_act c i l p; Some (<[k := l']> ws, p').

Inductive workers_run (c : ProducerConf) (n : nat) : list producer_pc → Producer → Prop :=
  | run_start : workers_run c n (replicate n PLoop) new_producer
  | run_step k i ws p ws' p' :
      workers_run c n ws p → workers_act c k i (ws, p) = Some (ws', p') →
      workers_run c n ws' p'.

(** ** Sorting of the ranges *)

(** The inner loop: move the element at [j] down while its left neighbour is larger. *)
Fixpoint sift (j : nat) (rs : list AcknowledgedRange) : list AcknowledgedRange :=
  match j with
  | O => rs
  | S j' =>
    match rs !! j', rs !! j with
    | Some a, Some b =>
      if Base b <? Base a then sift j' (<[j' := b]> (<[j := a]> rs)) else rs
    | _, _ => rs
    end
  end.

Definition sortRanges (rs : list AcknowledgedRange) : list AcknowledgedRange :=
  foldl (fun rs i => sift i rs) rs (seq 1 (length rs - 1)).

(** ** Verification *)

Definition count_range (m : gmap Z Z) (r : AcknowledgedRange) : gmap Z Z :=
  partial_alter (fun n => Some (i64 (default 0 n + i64 (u64 (u64 (Last r - Base r) + 1)))))
    (Partition r) m.
Definition recordsPerPartition (rs : list AcknowledgedRange) : gmap Z Z :=
  foldl count_range ∅ rs.

Definition group_range (m : gmap Z (list AcknowledgedRange)) (r : AcknowledgedRange)
    : gmap Z (list AcknowledgedRange) :=
  partial_alter (fun l => Some (default [] l ++ [r])) (Partition r) m.
Definition partitionRanges (rs : list AcknowledgedRange) : gmap Z (list AcknowledgedRange) :=
  foldl group_range ∅ rs.

(** The offsets that DescribeTopic reported; a missing partition reads as 0. *)
Definition offset_at (offsets : gmap Z Z) (part : Z) : Z := default 0 (offsets !! part).

Definition delta_matches (initial final : gmap Z Z) (e : Z * Z) : bool :=
  let '(part, expectedCount) := e in
  u64 (offset_at final part - offset_at initial part) =? u64 expectedCount.

Fixpoint continuous (rs : list AcknowledgedRange) : bool :=
  match rs with
  | r :: (r' :: _) as rest => (u64 (Last r + 1) =? Base r') && continuous rest
  | _ => true
  end.

Definition ranges_continuous (e : Z * list AcknowledgedRange) : bool :=
  (length (snd e) <=? 1)%nat || continuous (sortRanges (snd e)).

(** Step 4 of [Run]. *)
Definition verify_offsets (initial final : gmap Z Z) (rs : list AcknowledgedRange) : res unit :=
  if forallb (delta_matches initial final) (map_to_list (recordsPerPartition rs)) then
    if forallb ranges_continuous (map_to_list (partitionRanges rs)) then Ok tt
    else Err (Errorf "offset discontinuity detected")
  else Err (Errorf "offset verification failed").

(** ** The run *)

(** What describes a run in its report, and is copied from the flags and the build. *)
Record SystemMetadata := mkSystemMetadata {
  RunID : string;
  RunNumber : Z;
  Warmup : bool;
  Commit_sha : string;
  Dirty : bool;
  BuildTime : string;
  GoVersion : string;
  OS : string;
  Arch : string;
  BrokerVersion : string;
}.

Record BenchInfo := mkBenchInfo {
  bi_Metadata : SystemMetadata;
  bi_topic : string;
  bi_flushMode : string;
  bi_msgSize : Z;
  bi_concurrency : Z;
}.

Record ProducerResult := mkProducerResult {
  pr_Metadata : SystemMetadata;
  pr_Topic : string;
  pr_Partitions : Z;
  pr_PartitionMode : string;
  pr_FlushMode : string;
  pr_RequestedRecords : Z;
  pr_AcknowledgedRecords : Z;
  pr_FailedRecords : Z;
  pr_RPCCount : Z;
  pr_RecordSizeBytes : Z;
  pr_BatchSize : Z;
  pr_Concurrency : Z;
  pr_DurationSeconds : float64;
  pr_MessagesPerSecond : float64;
  pr_PayloadMiBPerSecond : float64;
  pr_Latency : LatencyReport;
  pr_Errors : gmap string Z;
}.

(** Lines 122-137: what [Run] checks before it starts the workers. *)
Definition check_partition (partition partitionCount : Z) : res unit :=
  if partitionCount =? 0 then Err (Errorf "topic has 0 partitions configured") else
  if (negb (partition =? -1)) && ((partition <? 0) || (partitionCount <=? u32 partition))
  then Err (Errorf "explicit partition out of bounds") else Ok tt.

(** Lines 270 to the end, after the workers returned: [duration] is the measured time
    in nanoseconds, [final] the result of the second DescribeTopic. *)
Definition finish_run (c : ProducerConf) (info : BenchInfo) (duration : Z) (initial : gmap Z Z)
    (final : res (gmap Z Z)) (sampler : Sampler) (p : Producer) : res ProducerResult :=
  match firstErr p, pc_failFast c with
  | Some e, true => Err e
  | _, _ =>
    let! final := final in
    let! _ := verify_offsets initial final (ranges p) in
    let! latency := GetReport sampler in
    let secs := Seconds duration in
    let positive := 0 <? duration in
    let acked := float64_of (acknowledged p) in
    Ok (mkProducerResult (bi_Metadata info) (bi_topic info) (pc_partitionCount c)
      (if pc_partition c =? -1 then "round-robin" else "explicit") (bi_flushMode info)
      (pc_total c) (acknowledged p) (failed p) (rpcCount p)
      (bi_msgSize info) (pc_batchSize c) (bi_concurrency info) secs
      (if positive then f64_div acked secs else float64_of 0)
      (if positive
       then f64_div (f64_div (f64_mul acked (float64_of (bi_msgSize info))) (float64_of 1048576)) secs
       else float64_of 0)
      latency
      (if 0 <? canceledRequests p
       then <["Canceled"%string := canceledRequests p]> (errMap p) else errMap p))
  end.
