(* ===== verification/BenchProducerSpec.v ===== *)
(** * Properties of the producer benchmark

    The sort of the ranges, the accounting of the workers under every interleaving,
    and what the verification of the acknowledged offsets establishes. *)

From S2P Require Import Prelude Float64 BenchLatency BenchProducer.
From Stdlib Require Import Sorting.Sorted.
Open Scope Z_scope.

(** ** The sort *)

Definition base_le (a b : AcknowledgedRange) : Prop := Base a ≤ Base b.

#[global] Instance base_le_trans : Transitive base_le.
Proof. intros a b c. unfold base_le. lia. Qed.

(** [sift] inserts the element behind the prefix [pre] into it. *)
Lemma sift_inserts pre x suf :
  ∃ p1 p2, pre = p1 ++ p2 ∧ sift (length pre) (pre ++ x :: suf) = p1 ++ x :: p2 ++ suf
    ∧ Forall (fun a => Base x < Base a) p2 ∧ (∀ a, last p1 = Some a → base_le a x).
Proof.
  revert suf. induction pre as [|a pre IH] using rev_ind; intros suf.
  { exists [], []. done. }
  rewrite length_app, Nat.add_comm. simpl.
  assert (((pre ++ [a]) ++ x :: suf) !! length pre = Some a) as ->.
  { rewrite <- app_assoc. by apply (list_lookup_middle pre (x :: suf)). }
  assert (((pre ++ [a]) ++ x :: suf) !! S (length pre) = Some x) as ->.
  { apply list_lookup_middle. rewrite length_app. simpl. lia. }
  destruct (Z.ltb_spec (Base x) (Base a)) as [Hlt|Hge].
  - replace (<[length pre := x]> (<[S (length pre) := a]> ((pre ++ [a]) ++ x :: suf)))
      with (pre ++ x :: a :: suf).
    2: { rewrite <- app_assoc. simpl. rewrite insert_app_r_alt by lia.
      replace (S (length pre) - length pre)%nat with 1%nat by lia. simpl.
      rewrite insert_app_r_alt by lia. by rewrite Nat.sub_diag. }
    destruct (IH (a :: suf)) as (p1 & p2 & -> & -> & Hp2 & Hp1).
    exists p1, (p2 ++ [a]). rewrite <- !app_assoc. split; [done|]. split; [done|].
    split; [|done]. apply Forall_app. split; [done|]. by constructor.
  - exists (pre ++ [a]), []. rewrite app_nil_r. split; [done|]. split; [done|]. split; [done|].
    intros b. rewrite last_snoc. intros [= <-]. unfold base_le. lia.
Qed.

Lemma insert_sorted p1 x p2 :
  StronglySorted base_le (p1 ++ p2) → Forall (fun a => Base x < Base a) p2 →
  (∀ a, last p1 = Some a → base_le a x) → StronglySorted base_le (p1 ++ x :: p2).
Proof.
  induction p1 as [|b p1 IH]; intros Hs Hx Hl; simpl in *.
  - constructor; [done|]. eapply Forall_impl; [exact Hx|]. intros a Ha. simpl in Ha. unfold base_le. lia.
  - apply StronglySorted_inv in Hs as [Hs Hb]. apply Forall_app in Hb as [Hb1 Hb2].
    constructor.
    + apply IH; [done..|]. intros a Ha. apply Hl. destruct p1; [done|]. by rewrite last_cons_cons.
    + apply Forall_app. split; [done|]. constructor; [|done].
      destruct p1 as [|c p1]; [by apply Hl|].
      destruct (last (c :: p1)) as [d|] eqn:Hd; [|by apply last_None in Hd].
      transitivity d; [|apply Hl; by rewrite last_cons_cons].
      rewrite Forall_forall in Hb1. apply Hb1. apply last_Some in Hd as [l' ->].
      apply elem_of_app. right. by left.
Qed.

(** After [k] passes the first [k + 1] elements are sorted. *)
Lemma passes_sort rs k :
  (k < length rs)%nat →
  let rs' := foldl (fun l i => sift i l) rs (seq 1 k) in
  rs' ≡ₚ rs ∧ StronglySorted base_le (take (S k) rs').
Proof.
  induction k as [|k IH]; intros Hk; cbv zeta.
  - split; [done|]. destruct rs as [|r rs]; simpl; [constructor|]. rewrite take_0.
    repeat constructor.
  - rewrite seq_S, foldl_app. cbn [foldl]. change (1 + k)%nat with (S k). destruct IH as [Hp Hs]; [lia|].
    set (l := foldl (fun l i => sift i l) rs (seq 1 k)) in *.
    assert (S k < length l)%nat as Hl by (apply Permutation_length in Hp; lia).
    destruct (lookup_lt_is_Some_2 l (S k) Hl) as [x Hx].
    pose proof (take_drop_middle _ _ _ Hx) as El.
    assert (length (take (S k) l) = S k) as Hlen by (rewrite length_take; lia).
    destruct (sift_inserts (take (S k) l) x (drop (S (S k)) l)) as (p1 & p2 & Epre & Es & Hp2 & Hp1).
    rewrite Hlen, El in Es. rewrite Es. split.
    + transitivity l; [|done]. rewrite Epre, <- app_assoc in El.
      transitivity (p1 ++ p2 ++ x :: drop (S (S k)) l); [|by rewrite El].
      apply Permutation_app_head. by rewrite Permutation_middle.
    + rewrite Epre in Hs. apply (f_equal length) in Epre. rewrite Hlen, length_app in Epre.
      replace (p1 ++ x :: p2 ++ drop (S (S k)) l) with ((p1 ++ x :: p2) ++ drop (S (S k)) l)
        by by rewrite <- app_assoc.
      rewrite take_app_length'; [by apply insert_sorted|]. rewrite length_app. simpl. lia.
Qed.

Lemma sortRanges_sorts rs :
  sortRanges rs ≡ₚ rs ∧ StronglySorted base_le (sortRanges rs).
Proof.
  unfold sortRanges. destruct rs as [|r rs]; [split; [done|constructor]|].
  destruct (passes_sort (r :: rs) (length (r :: rs) - 1)) as [Hp Hs]; [simpl; lia|].
  split; [done|]. rewrite take_ge in Hs; [done|]. rewrite Hp. simpl. lia.
Qed.

(** ** The verification *)

Definition of_partition (part : Z) (rs : list AcknowledgedRange) : list AcknowledgedRange :=
  filter (fun r => Partition r = part) rs.

Definition range_count (r : AcknowledgedRange) : Z := Last r - Base r + 1.
Definition range_total (rs : list AcknowledgedRange) : Z := foldr (fun r n => range_count r + n) 0 rs.

(** The ranges follow one another from [lo] up to [hi] without gap or overlap. *)
Fixpoint tiles (lo : Z) (rs : list AcknowledgedRange) (hi : Z) : Prop :=
  match rs with
  | [] => lo = hi
  | r :: rs => Base r = lo ∧ Base r ≤ Last r ∧ tiles (Last r + 1) rs hi
  end.

Lemma u64_i64 z : u64 (i64 z) = u64 z.
Proof.
  unfold u64, i64. replace ((z + two63) mod two64 - two63) with ((z + two63) mod two64 + (- two63)) by lia.
  rewrite Z.add_mod_idemp_l by lia. f_equal. lia.
Qed.

Lemma u64_add a a' b b' : u64 a = u64 a' → u64 b = u64 b' → u64 (a + b) = u64 (a' + b').
Proof. unfold u64. intros Ha Hb. by rewrite Z.add_mod, Ha, Hb, <- Z.add_mod by lia. Qed.

Lemma range_total_app l1 l2 : range_total (l1 ++ l2) = range_total l1 + range_total l2.
Proof. induction l1 as [|r l1 IH]; simpl; lia. Qed.

Lemma range_total_perm l1 l2 : l1 ≡ₚ l2 → range_total l1 = range_total l2.
Proof. induction 1; simpl in *; lia. Qed.

Lemma of_partition_snoc part rs r :
  of_partition part (rs ++ [r]) =
  of_partition part rs ++ (if decide (Partition r = part) then [r] else []).
Proof.
  unfold of_partition. rewrite filter_app, filter_cons, filter_nil. by case_decide.
Qed.

(** The two maps that [Run] builds. *)
Lemma partitionRanges_lookup rs part :
  partitionRanges rs !! part =
  match of_partition part rs with [] => None | l => Some l end.
Proof.
  unfold partitionRanges. induction rs as [|r rs IH] using rev_ind; [by cbn [foldl]; rewrite lookup_empty|].
  rewrite foldl_app, of_partition_snoc. cbn [foldl]. unfold group_range at 1.
  destruct (decide (Partition r = part)) as [<-|Hne].
  - rewrite lookup_partial_alter, decide_True by done. rewrite IH.
    destruct (of_partition (Partition r) rs); done.
  - rewrite lookup_partial_alter_ne by done. by rewrite IH, app_nil_r.
Qed.

Lemma recordsPerPartition_lookup rs part :
  match recordsPerPartition rs !! part with
  | Some n => of_partition part rs ≠ [] ∧ u64 n = u64 (range_total (of_partition part rs))
  | None => of_partition part rs = []
  end.
Proof.
  unfold recordsPerPartition. induction rs as [|r rs IH] using rev_ind; [by cbn [foldl]; rewrite lookup_empty|].
  rewrite foldl_app, of_partition_snoc. cbn [foldl]. unfold count_range at 1.
  destruct (decide (Partition r = part)) as [<-|Hne].
  2: { rewrite lookup_partial_alter_ne by done. by rewrite app_nil_r. }
  rewrite lookup_partial_alter, decide_True by done. split; [by destruct (of_partition _ rs)|].
  rewrite range_total_app, u64_i64. simpl. rewrite Z.add_0_r. apply u64_add.
  - destruct (foldl count_range ∅ rs !! Partition r) as [n|]; [by destruct IH|by rewrite IH].
  - rewrite u64_i64. unfold u64, range_count. rewrite Zmod_mod. by rewrite Z.add_mod_idemp_l.
Qed.

(** What a sorted list of ranges within the bounds must satisfy. *)
Lemma continuous_tiles rs r :
  Forall (fun r => 0 ≤ Base r ∧ Base r ≤ Last r < two63) (r :: rs) → continuous (r :: rs) = true →
  ∃ hi l, last (r :: rs) = Some l ∧ hi = Last l + 1 ∧ tiles (Base r) (r :: rs) hi.
Proof.
  revert r. induction rs as [|r' rs IH]; intros r Hb Hc.
  - exists (Last r + 1), r. apply Forall_cons in Hb as [Hb _]. simpl. repeat split; lia.
  - apply Forall_cons in Hb as [Hr Hb]. cbn [continuous] in Hc.
    apply andb_true_iff in Hc as [He Hc]. apply Z.eqb_eq in He. rewrite u64_small in He by lia.
    destruct (IH r' Hb Hc) as (hi & l & Hl & -> & Ht). exists (Last l + 1), l.
    split; [by rewrite last_cons_cons|]. split; [done|]. cbn [tiles] in *. rewrite He.
    split; [done|]. split; [lia|done].
Qed.

Lemma tiles_total lo rs hi : tiles lo rs hi → range_total rs = hi - lo.
Proof.
  revert lo. induction rs as [|r rs IH]; intros lo; simpl; [lia|].
  intros (Hb & Hle & Ht). rewrite (IH _ Ht). unfold range_count. lia.
Qed.

Lemma tiles_le lo rs hi : tiles lo rs hi → lo ≤ hi ∧ Forall (fun r => lo ≤ Base r) rs.
Proof.
  revert lo. induction rs as [|r rs IH]; intros lo; simpl; [split; [lia|done]|].
  intros (Hb & Hle & Ht). destruct (IH _ Ht) as [H1 H2]. split; [lia|]. constructor; [lia|].
  eapply Forall_impl; [exact H2|]. simpl. lia.
Qed.

Lemma tiles_sorted lo rs hi :
  tiles lo rs hi → StronglySorted base_le rs ∧ ∀ x y, x ∈ rs → y ∈ rs → Base x = Base y → x = y.
Proof.
  revert lo. induction rs as [|r rs IH]; intros lo; simpl; [split; [constructor|set_solver]|].
  intros (Hb & Hle & Ht). destruct (IH _ Ht) as [Hs Hinj]. apply tiles_le in Ht as [_ Hlo].
  rewrite Forall_forall in Hlo. split.
  - constructor; [done|]. apply Forall_forall. intros x Hx. specialize (Hlo x Hx). unfold base_le. lia.
  - intros x y [-> | Hx]%elem_of_cons [-> | Hy]%elem_of_cons He; [done| | |auto].
    + specialize (Hlo y Hy). lia.
    + specialize (Hlo x Hx). lia.
Qed.

Lemma tiles_continuous lo rs hi : tiles lo rs hi → 0 ≤ lo → hi < two63 → continuous rs = true.
Proof.
  revert lo. induction rs as [|r rs IH]; intros lo; [done|]. cbn [tiles].
  intros (Hb & Hle & Ht) Hlo Hhi. destruct rs as [|r' rs]; [done|].
  change ((u64 (Last r + 1) =? Base r') && continuous (r' :: rs) = true).
  pose proof (tiles_le _ _ _ Ht) as [H1 _]. rewrite (IH _ Ht) by lia.
  destruct Ht as (Hb' & _). rewrite u64_small by lia. rewrite Hb', Z.eqb_refl. done.
Qed.

(** A tiling is the sorted list. *)
Lemma tiles_sortRanges lo rs rs' hi : tiles lo rs' hi → rs' ≡ₚ rs → sortRanges rs = rs'.
Proof.
  intros Ht Hp. destruct (sortRanges_sorts rs) as [Hp' Hs']. apply tiles_sorted in Ht as [Hs Hinj].
  apply (StronglySorted_unique_strong base_le); [|done|done|by rewrite Hp', Hp].
  intros x y Hx Hy Hxy Hyx. apply Hinj; [by rewrite Hp, <- Hp'|done|]. unfold base_le in *. lia.
Qed.

(** The two checks for one partition. *)
Definition partition_verified (initial final : gmap Z Z) (part : Z) (rs : list AcknowledgedRange)
    : Prop :=
  u64 (offset_at final part - offset_at initial part) = u64 (range_total rs)
  ∧ ranges_continuous (part, rs) = true.

Lemma forallb_map_to_list {A} (f : Z * A → bool) (m : gmap Z A) :
  forallb f (map_to_list m) = true ↔ ∀ k x, m !! k = Some x → f (k, x) = true.
Proof.
  rewrite forallb_forall. split.
  - intros H k x Hk. by apply H, list_elem_of_In, elem_of_map_to_list.
  - intros H [k x] Hk. by apply H, elem_of_map_to_list, list_elem_of_In.
Qed.

Lemma verify_by_partition initial final rs :
  verify_offsets initial final rs = Ok tt ↔
  ∀ part, of_partition part rs ≠ [] → partition_verified initial final part (of_partition part rs).
Proof.
  unfold verify_offsets, partition_verified.
  assert (∀ b1 b2 : bool, (if b1 then if b2 then Ok tt else Err (Errorf "offset discontinuity detected")
      else Err (Errorf "offset verification failed")) = Ok tt ↔ b1 = true ∧ b2 = true) as ->.
  { intros [] []; split; intros; destruct_and?; done. }
  rewrite !forallb_map_to_list. split.
  - intros [H1 H2] part Hne. split.
    + pose proof (recordsPerPartition_lookup rs part) as Hr.
      destruct (recordsPerPartition rs !! part) as [n|] eqn:En; [|done].
      destruct Hr as [_ <-]. specialize (H1 _ _ En). by apply Z.eqb_eq in H1.
    + apply H2. rewrite partitionRanges_lookup. by destruct (of_partition part rs).
  - intros H. split; intros part x Hx.
    + pose proof (recordsPerPartition_lookup rs part) as Hr. rewrite Hx in Hr.
      destruct Hr as [Hne Hn]. destruct (H part Hne) as [Hd _]. apply Z.eqb_eq. congruence.
    + rewrite partitionRanges_lookup in Hx.
      destruct (of_partition part rs) as [|r l] eqn:El; [done|]. injection Hx as <-.
      destruct (H part) as [_ Hc]; [by rewrite El|]. by rewrite El in Hc.
Qed.

Definition in_bounds (lo hi : Z) (r : AcknowledgedRange) : Prop :=
  0 ≤ lo ≤ Base r ∧ Base r ≤ Last r < hi ∧ hi < two63.

Lemma of_partition_bounds initial final rs part :
  Forall (fun r => in_bounds (offset_at initial (Partition r)) (offset_at final (Partition r)) r) rs →
  Forall (in_bounds (offset_at initial part) (offset_at final part)) (of_partition part rs).
Proof.
  rewrite !Forall_forall. intros H r [<- Hr]%list_elem_of_filter. by apply H.
Qed.

(** Ranges that pass the checks tile the new offsets. *)
Lemma verified_tiles initial final part rs :
  Forall (in_bounds (offset_at initial part) (offset_at final part)) rs → rs ≠ [] →
  partition_verified initial final part rs →
  tiles (offset_at initial part) (sortRanges rs) (offset_at final part).
Proof.
  intros Hb Hne [Hd Hc]. set (lo := offset_at initial part) in *.
  set (hi := offset_at final part) in *. destruct (sortRanges_sorts rs) as [Hp _].
  assert (continuous (sortRanges rs) = true) as Hcont.
  { apply orb_true_iff in Hc as [Hc|Hc]; [|done]. apply Nat.leb_le in Hc. simpl in Hc.
    destruct (sortRanges rs) as [|a [|b l]] eqn:E; try done.
    apply Permutation_length in Hp. simpl in Hp. lia. }
  assert (Forall (in_bounds lo hi) (sortRanges rs)) as Hbs by by rewrite Hp.
  destruct (sortRanges rs) as [|r l] eqn:E.
  { by apply Permutation_nil in Hp. }
  destruct (continuous_tiles l r) as (h & x & Hx & -> & Ht); [|done|].
  { eapply Forall_impl; [exact Hbs|]. unfold in_bounds. lia. }
  pose proof (tiles_total _ _ _ Ht) as Htot. apply range_total_perm in Hp. rewrite <- Hp, Htot in Hd.
  assert (in_bounds lo hi x) as Hbx.
  { rewrite Forall_forall in Hbs. apply Hbs. apply last_Some in Hx as [l' ->].
    apply elem_of_app. right. by left. }
  apply Forall_cons in Hbs as [Hbr _]. pose proof (tiles_le _ _ _ Ht) as [Hle _].
  unfold in_bounds in *. rewrite !u64_small in Hd by lia.
  assert (Base r = lo) as <- by lia. by replace hi with (Last x + 1) by lia.
Qed.

Lemma tiles_verified initial final part rs rs' :
  Forall (in_bounds (offset_at initial part) (offset_at final part)) rs → rs ≠ [] →
  rs' ≡ₚ rs → tiles (offset_at initial part) rs' (offset_at final part) →
  partition_verified initial final part rs.
Proof.
  intros Hb Hne Hp Ht. assert (∃ r, r ∈ rs) as [r Hr] by (destruct rs as [|r]; [done|exists r; by left]).
  rewrite Forall_forall in Hb. specialize (Hb r Hr). unfold in_bounds in Hb. split.
  - rewrite <- (range_total_perm _ _ Hp), (tiles_total _ _ _ Ht). done.
  - apply orb_true_iff. right. simpl. rewrite (tiles_sortRanges _ _ _ _ Ht Hp).
    eapply tiles_continuous; [done|lia|lia].
Qed.



(** ** The accounting of the workers *)

(** Records that a worker has claimed and not yet counted. *)
Definition pending (l : producer_pc) : Z :=
  match l with PTarget size | PSend size _ | PReplied size _ _ => size | _ => 0 end.
Definition has_returned (l : producer_pc) : Z := match l with PReturned => 1 | _ => 0 end.
Definition sum_of (f : producer_pc → Z) (ws : list producer_pc) : Z :=
  foldr (fun l n => f l + n) 0 ws.

Lemma sum_of_insert f ws k l l' :
  ws !! k = Some l → sum_of f (<[k := l']> ws) = sum_of f ws - f l + f l'.
Proof.
  revert k. induction ws as [|x ws IH]; intros [|k] H; simpl in *; [done|done| |].
  - injection H as ->. lia.
  - rewrite (IH _ H). lia.
Qed.

Lemma sum_of_replicate f n l : f l = 0 → sum_of f (replicate n l) = 0.
Proof. intros H. induction n; simpl; lia. Qed.

Lemma sum_of_nonneg f ws : (∀ l, l ∈ ws → 0 ≤ f l) → 0 ≤ sum_of f ws.
Proof.
  induction ws as [|x ws IH]; intros H; simpl; [lia|].
  pose proof (H x ltac:(by left)). specialize (IH ltac:(intros l Hl; apply H; by right)). lia.
Qed.

Lemma sum_of_le f ws : (∀ l, f l ≤ 1) → sum_of f ws ≤ blen ws.
Proof.
  intros H. induction ws as [|x ws IH]; [simpl; rewrite blen_nil; lia|].
  simpl. rewrite blen_cons. specialize (H x). lia.
Qed.

(** A sound configuration of a counted run with [n] workers. *)
Record counted_run (c : ProducerConf) (n : nat) : Prop := mkCountedRun {
  cr_timed : pc_timed c = false;
  cr_total : 0 ≤ pc_total c;
  cr_batch : 0 < pc_batchSize c;
  cr_count : pc_partitionCount c < two32;
  cr_partition : 0 ≤ pc_partitionCount c ∧
    check_partition (pc_partition c) (pc_partitionCount c) = Ok tt;
  cr_room : pc_total c + pc_batchSize c * (Z.of_nat n + 2) < two63;
}.

(** The requests of a worker are for at most a batch and an existing partition. *)
Definition request_ok (c : ProducerConf) (l : producer_pc) : Prop :=
  match l with
  | PTarget size => 0 < size ≤ pc_batchSize c
  | PSend size part | PReplied size part _ =>
    0 < size ≤ pc_batchSize c ∧ 0 ≤ part < pc_partitionCount c
  | _ => True
  end.

Record accounts (c : ProducerConf) (n : nat) (ws : list producer_pc) (p : Producer) : Prop :=
  mkAccounts {
  ac_workers : length ws = n;
  ac_next : 0 ≤ nextRecord p ≤ pc_total c + pc_batchSize c * (1 + sum_of has_returned ws);
  ac_ack : 0 ≤ acknowledged p;
  ac_failed : 0 ≤ failed p;
  ac_all : acknowledged p + failed p + sum_of pending ws ≤ Z.min (nextRecord p) (pc_total c);
  ac_exact : run_cancelled p = false →
    acknowledged p + failed p + sum_of pending ws = Z.min (nextRecord p) (pc_total c);
  ac_requests : Forall (request_ok c) ws;
  ac_returned : run_cancelled p = false → PReturned ∈ ws → pc_total c ≤ nextRecord p;
}.

(** The partition that a request is sent to exists. *)
Lemma target_in_range c n ctr :
  counted_run c n →
  0 ≤ (if pc_partition c =? -1 then u32 (u64 (u64 (ctr + 1) - 1) mod pc_partitionCount c)
       else u32 (pc_partition c)) < pc_partitionCount c.
Proof.
  intros [_ _ _ Hc [H0 Hp] _]. unfold check_partition in Hp.
  destruct (Z.eqb_spec (pc_partitionCount c) 0) as [|Hne]; [done|].
  destruct (Z.eqb_spec (pc_partition c) (-1)) as [He|He]; simpl in Hp.
  - set (v := u64 (u64 (ctr + 1) - 1)). pose proof (Z.mod_pos_bound v (pc_partitionCount c)).
    rewrite u32_small; lia.
  - pose proof (u32_range (pc_partition c)).
    destruct (Z.leb_spec (pc_partitionCount c) (u32 (pc_partition c))); [|lia].
    by rewrite orb_true_r in Hp.
Qed.

Lemma pending_le c ws k l :
  Forall (request_ok c) ws → ws !! k = Some l → pending l ≤ sum_of pending ws.
Proof.
  intros Hreq Hk. pose proof (sum_of_insert pending ws k l PLoop Hk) as Hs.
  assert (0 ≤ sum_of pending (<[k := PLoop]> ws)); [|simpl in Hs; lia].
  apply sum_of_nonneg. intros x [-> | Hx]%elem_of_inserted; [simpl; lia|].
  rewrite Forall_forall in Hreq. specialize (Hreq x Hx). destruct x; simpl in *; lia.
Qed.

(** Discharge the fields of [accounts] after a step. *)
Ltac accounts_solve :=
  split; simpl in *; rewrite ?length_insert; try done; try lia; auto;
  try (by intros; repeat match goal with H : _ = false → _ |- _ =>
         first [specialize (H eq_refl) | specialize (H ltac:(assumption))] end; lia);
  try (intros ? [? | ?]%elem_of_inserted; [done|]; intuition lia);
  try (match goal with H : _ → ?G |- ?G => apply H end; lia).

Lemma step_accounts c n k i ws p ws' p' :
  counted_run c n → accounts c n ws p → workers_act c k i (ws, p) = Some (ws', p') →
  accounts c n ws' p'.
Proof.
  intros C [Hn Hnext Hack Hfail Hall Hex Hreq Hret] E. unfold workers_act in E.
  apply bind_Some in E as (l & Hk & E). apply bind_Some in E as ([l' q] & E & [= <- <-]).
  pose proof (sum_of_insert pending ws k l l' Hk) as Hs1.
  pose proof (sum_of_insert has_returned ws k l l' Hk) as Hs2.
  pose proof (pending_le c ws k l Hreq Hk) as Hpl.
  assert (request_ok c l) as Hl by (rewrite Forall_forall in Hreq; by eapply Hreq, list_elem_of_lookup_2).
  assert (0 ≤ sum_of has_returned ws ≤ Z.of_nat n) as Hle.
  { split; [apply sum_of_nonneg; by intros []|].
    etrans; [apply sum_of_le; by intros []|]. unfold blen. lia. }
  assert (request_ok c l' → Forall (request_ok c) (<[k := l']> ws)) as Hreq'.
  { intros. by apply Forall_insert. }
  pose proof (target_in_range c n (partitionCounter p) C) as Htgt.
  destruct C as [Ht Htot Hb _ _ Hroom]. destruct p as [nr ack fl rpcs canc ctr rs em fe stop].
  simpl in *. unfold worker_act in E.
  destruct l as [| |size|size part|size part [base lst|code err canceled]|code err|part base lst|],
    i as [| |r]; try done; rewrite ?Ht in E; simplify_eq/=.
  - destruct stop; accounts_solve.
  - assert (pc_batchSize c * sum_of has_returned ws ≤ pc_batchSize c * Z.of_nat (length ws))
      by (apply Z.mul_le_mono_nonneg_l; lia).
    assert (nr + pc_batchSize c < two63) by lia.
    rewrite (i64_small (nr + _)), Z.add_simpl_r, (i64_small nr) in E by lia.
    destruct (Z.leb_spec (pc_total c) nr) as [Hge|Hlt]; simplify_eq/=.
    + accounts_solve.
    + rewrite i64_small in * by lia.
      destruct (Z.ltb_spec (pc_total c - nr) (pc_batchSize c)); simpl in *; accounts_solve.
  - destruct (pc_partition c =? -1); simplify_eq/=; accounts_solve.
  - accounts_solve.
  - rewrite i64_small by lia. accounts_solve.
  - destruct (canceled && stop) eqn:Hcs; simplify_eq/=.
    + apply andb_true_iff in Hcs as [-> ->]. accounts_solve.
    + rewrite i64_small by lia. accounts_solve.
  - destruct (pc_failFast c); simplify_eq/=; accounts_solve.
  - accounts_solve.
Qed.

Lemma run_accounts c n ws p : counted_run c n → workers_run c n ws p → accounts c n ws p.
Proof.
  intros C. induction 1 as [|k i ws p ws' p' _ IH E]; [|by eapply step_accounts].
  pose proof (cr_total _ _ C). pose proof (cr_batch _ _ C).
  split; simpl; rewrite ?sum_of_replicate by done; try lia.
  - apply length_replicate.
  - apply Forall_replicate. done.
  - intros _ [? _]%elem_of_replicate. done.
Qed.

(** When all workers have returned and no failure cancelled the run, the records are
    accounted for. *)
Lemma returned_accounts c n ws p :
  counted_run c n → workers_run c n ws p → (0 < n)%nat → Forall (eq PReturned) ws →
  run_cancelled p = false → acknowledged p + failed p = pc_total c.
Proof.
  intros C R Hpos Hws Hs. pose proof (run_accounts _ _ _ _ C R) as [Hn Hnext Hack Hfail Hall Hex Hreq Hret].
  assert (sum_of pending ws = 0) as Hz.
  { clear -Hws. induction Hws as [|l ws <- _ IH]; simpl; lia. }
  assert (PReturned ∈ ws) as Hin.
  { destruct ws as [|l ws]; [simpl in Hn; lia|]. apply Forall_cons in Hws as [<- _]. by left. }
  specialize (Hex Hs). specialize (Hret Hs Hin). lia.
Qed.

(** The workers of a counted run share the records without loss or duplication,
    under every interleaving and every outcome of the calls: in-flight requests
    are for at most a batch and an existing partition, never more than the requested
    records are acknowledged or failed, and when all workers have returned and
    no failure cancelled the run, each requested record was sent exactly once. *)
Theorem producer_accounts_for_every_record c n ws p :
  counted_run c n → workers_run c n ws p →
  Forall (request_ok c) ws
  ∧ acknowledged p + failed p ≤ pc_total c
  ∧ ((0 < n)%nat → Forall (eq PReturned) ws → run_cancelled p = false →
     acknowledged p + failed p = pc_total c).
Proof.
  intros C R. pose proof (run_accounts _ _ _ _ C R) as [_ _ _ _ Hall _ Hreq _].
  split; [done|]. assert (0 ≤ sum_of pending ws) as Hp.
  { apply sum_of_nonneg. intros l Hl. rewrite Forall_forall in Hreq. specialize (Hreq l Hl).
    destruct l; simpl in *; lia. }
  split; [lia|]. by apply returned_accounts.
Qed.

(** Two workers, five records in batches of two. *)
Definition demo_conf : ProducerConf := mkProducerConf 5 false 2 (-1) false 3.
Definition demo_inputs : list (nat * producer_input) :=
  let request k r := [(k, Tick); (k, Reply r); (k, Tick); (k, Tick)] in
  [(0, Tick); (1, Tick); (1, Tick); (0, Tick)]%nat
  ++ request 0%nat (Acked 0 1) ++ request 1%nat (Refused "Unavailable" ErrIO false)
  ++ [(0, Tick); (0, Tick)]%nat ++ request 0%nat (Acked 0 0)
  ++ [(0, Tick); (0, Tick); (1, Tick); (1, Tick)]%nat.

Fixpoint run_inputs (c : ProducerConf) (l : list (nat * producer_input))
    (s : list producer_pc * Producer) : option (list producer_pc * Producer) :=
  match l with
  | [] => Some s
  | (k, i) :: l => workers_act c k i s ≫= run_inputs c l
  end.

Lemma run_inputs_run c n l ws p ws' p' :
  workers_run c n ws p → run_inputs c l (ws, p) = Some (ws', p') → workers_run c n ws' p'.
Proof.
  revert ws p. induction l as [|[k i] l IH]; intros ws p R E; [by simplify_eq/=|].
  cbn [run_inputs] in E. apply bind_Some in E as ([ws1 p1] & Ea & E).
  by eapply IH; [eapply run_step|].
Qed.

Definition demo_end : list producer_pc * Producer :=
  default ([], new_producer) (run_inputs demo_conf demo_inputs (replicate 2 PLoop, new_producer)).

Lemma producer_accounts_for_every_record_witness :
  Forall (eq PReturned) (fst demo_end)
  ∧ acknowledged (snd demo_end) + failed (snd demo_end) = 5.
Proof.
  assert (run_inputs demo_conf demo_inputs (replicate 2 PLoop, new_producer) = Some demo_end) as E.
  { vm_compute. reflexivity. }
  assert (Forall (eq PReturned) (fst demo_end)) as Hr by (vm_compute; repeat constructor).
  split; [exact Hr|].
  apply (producer_accounts_for_every_record demo_conf 2 (fst demo_end) (snd demo_end)).
  - split; vm_compute; intuition congruence.
  - eapply run_inputs_run; [apply run_start|]. rewrite E. by destruct demo_end.
  - lia.
  - exact Hr.
  - vm_compute. reflexivity.
Defined.
