(* ===== verification/BenchConsumer.v ===== *)
(** * Consumer benchmark (internal/bench/consumer.go)

    As for the producer, a worker is a program counter over shared atomic counters
    and [consumer_act] is one step of one worker.  [claimConsumed] is its loop of a
    load and a compare-and-swap, which other workers can come between. *)

From S2P Require Import Prelude Float64 BenchLatency BenchProducer.
Open Scope Z_scope.

Record ConsumerConf := mkConsumerConf {
  cc_target : Z;
  cc_duration : Z;
  cc_offset : Z;
  cc_partition : Z;
}.

Definition cc_timed (c : ConsumerConf) : bool := 0 <? cc_duration c.

(** A fetched record: its offset and the bytes of key and value. *)
Record Fetched := mkFetched {
  ft_offset : Z;
  ft_bytes : Z;
}.

(** The state that the workers share; [partitionChan] is the closed channel of the
    partitions that no worker has taken. *)
Record Consumer := mkConsumer {
  observedRecords : Z;
  countedRecords : Z;
  overshootRecords : Z;
  countedBytes : Z;
  c_rpcCount : Z;
  failedRequests : Z;
  c_canceledRequests : Z;
  c_errMap : gmap string Z;
  c_firstErr : option error;
  c_cancelled : bool;
  partitionChan : list Z;
}.

Definition new_consumer (partitions : list Z) : Consumer :=
  mkConsumer 0 0 0 0 0 0 0 ∅ None false partitions.

(** The partitions to consume: lines 133-148. *)
Definition partitionsToConsume (partition partitionCount : Z) : res (list Z) :=
  let! _ := check_partition partition partitionCount in
  if partition =? -1 then Ok (Z.of_nat <$> seq 0 (Z.to_nat partitionCount))
  else Ok [u32 partition].

(** Lines 164-170. *)
Definition numWorkers (concurrency : Z) (partitions : list Z) : Z :=
  let n := if blen partitions <? concurrency then blen partitions else concurrency in
  if n <=? 0 then 1 else n.

Inductive fetch_reply : Type :=
  | Records (records : list Fetched) (logEndOffset : Z)
  | FetchFailed (code : string) (err : error) (canceled : bool).

Inductive consumer_pc : Type :=
  | CNext
  | CReceive
  | CHead (part off : Z)
  | CIdle (part off : Z)
  | CSend (part off : Z)
  | CReplied (part off : Z) (reply : fetch_reply)
  | CLoad (part off : Z) (records : list Fetched) (logEnd : Z)
  | CSwap (part off : Z) (records : list Fetched) (logEnd current : Z)
  | CObserve (part : Z) (records : list Fetched) (logEnd accepted : Z)
  | COvershoot (part : Z) (records : list Fetched) (logEnd accepted : Z)
  | CBytes (part : Z) (records : list Fetched) (logEnd accepted : Z)
  | CEnd (part off numRecords logEnd : Z)
  | CPoll (part off : Z) (polls : nat)
  | CReturned.

(** What a step takes from its environment: the clock, a call, the end of the run. *)
Inductive consumer_input : Type :=
  | CTick
  | CElapsed
  | CIdleExpired
  | CStop
  | CReply (r : fetch_reply).

Definition with_error (err : error) (s : Consumer) : Consumer :=
  let '(mkConsumer ob ct ov by_ rpcs fl canc em fe stop ch) := s in
  mkConsumer ob ct ov by_ rpcs fl canc em (match fe with None => Some err | Some _ => fe end) true ch.

(** The offsets of a response continue at [off]. *)
Fixpoint offsets_continue (off : Z) (records : list Fetched) : bool :=
  match records with
  | [] => true
  | r :: records => (ft_offset r =? off) && offsets_continue (u64 (off + 1)) records
  end.

Definition bytes_of (records : list Fetched) : Z :=
  foldl (fun n r => i64 (n + ft_bytes r)) 0 records.

(** What one round of [claimConsumed] tries to claim, from the value it loaded. *)
Definition claim_accepted (target current recordsReturned : Z) : Z :=
  if target <? i64 (current + recordsReturned) then i64 (target - current) else recordsReturned.

(** One step of a worker. *)
Definition consumer_act (c : ConsumerConf) (i : consumer_input) (l : consumer_pc) (s : Consumer)
    : option (consumer_pc * Consumer) :=
  let '(mkConsumer ob ct ov by_ rpcs fl canc em fe stop ch) := s in
  match l, i with
  | CNext, CTick => Some (if stop then CReturned else CReceive, s)
  | CReceive, CStop => if stop then Some (CReturned, s) else None
  | CReceive, CTick =>
    match ch with
    | [] => Some (CReturned, s)
    | part :: ch =>
      Some (CHead part (cc_offset c), mkConsumer ob ct ov by_ rpcs fl canc em fe stop ch)
    end
  | CHead part off, CElapsed => if cc_timed c then Some (CReturned, s) else None
  | CHead part off, CTick =>
    if cc_timed c then Some (CIdle part off, s)
    else if cc_target c <=? ct then Some (CReturned, s) else Some (CIdle part off, s)
  | CIdle part off, CIdleExpired => Some (CReturned, with_error (Errorf "idle timeout") s)
  | CIdle part off, CTick => Some (CSend part off, s)
  | CSend part off, CReply r =>
    Some (CReplied part off r, mkConsumer ob ct ov by_ (i64 (rpcs + 1)) fl canc em fe stop ch)
  | CReplied part off (FetchFailed code err canceled), CTick =>
    if canceled && stop
    then Some (CReturned, mkConsumer ob ct ov by_ rpcs fl (i64 (canc + 1)) em fe stop ch)
    else Some (CReturned, with_error err
           (mkConsumer ob ct ov by_ rpcs (i64 (fl + 1)) canc (partial_alter incr code em) fe stop ch))
  | CReplied part off (Records records logEnd), CTick =>
    match records with
    | [] => Some (CEnd part off 0 logEnd, s)
    | _ => if offsets_continue off records then Some (CLoad part off records logEnd, s)
           else Some (CReturned, with_error (Errorf "offset continuity failure") s)
    end
  | CLoad part off records logEnd, CTick =>
    if cc_target c <=? ct then Some (CObserve part records logEnd 0, s)
    else Some (CSwap part off records logEnd ct, s)
  | CSwap part off records logEnd current, CTick =>
    let accepted := claim_accepted (cc_target c) current (blen records) in
    if ct =? current
    then Some (CObserve part records logEnd accepted,
               mkConsumer ob (i64 (current + accepted)) ov by_ rpcs fl canc em fe stop ch)
    else Some (CLoad part off records logEnd, s)
  | CObserve part records logEnd accepted, CTick =>
    Some (COvershoot part records logEnd accepted,
          mkConsumer (i64 (ob + blen records)) ct ov by_ rpcs fl canc em fe stop ch)
  | COvershoot part records logEnd accepted, CTick =>
    Some (CBytes part records logEnd accepted,
          mkConsumer ob ct (i64 (ov + (blen records - accepted))) by_ rpcs fl canc em fe stop ch)
  | CBytes part records logEnd accepted, CTick =>
    let by_ := i64 (by_ + bytes_of (take (Z.to_nat accepted) records)) in
    let off := match last records with Some r => u64 (ft_offset r + 1) | None => 0 end in
    Some (CEnd part off (blen records) logEnd,
          mkConsumer ob ct ov by_ rpcs fl canc em fe stop ch)
  | CEnd part off n logEnd, CTick =>
    if logEnd <=? off then
      if cc_timed c
      then Some (if n =? 0 then CPoll part (cc_offset c) 2 else CHead part (cc_offset c), s)
      else Some (CNext, s)
    else Some (if n =? 0 then CPoll part off 1 else CHead part off, s)
  | CPoll part off (S k), CTick =>
    Some (match k with O => CHead part off | _ => CPoll part off k end, s)
  | CPoll part off (S k), CStop => if stop then Some (CReturned, s) else None
  | _, _ => None
  end.

Definition consumers_act (c : ConsumerConf) (k : nat) (i : consumer_input)
    (st : list consumer_pc * Consumer) : option (list consumer_pc * Consumer) :=
  let '(ws, s) := st in
  l ← ws !! k; '(l', s') ← consumer_act c i l s; Some (<[k := l']> ws, s').

(** A response fits a gRPC message. *)
Definition input_ok (i : consumer_input) : Prop :=
  match i with CReply (Records records _) => blen records < two31 | _ => True end.

Inductive consumers_run (c : ConsumerConf) (n : nat) (partitions : list Z)
    : list consumer_pc → Consumer → Prop :=
  | consume_start : consumers_run c n partitions (replicate n CNext) (new_consumer partitions)
  | consume_step k i ws s ws' s' :
      consumers_run c n partitions ws s → input_ok i → consumers_act c k i (ws, s) = Some (ws', s') →
      consumers_run c n partitions ws' s'.

(** ** The result *)

Record ConsumerResult := mkConsumerResult {
  cr_Metadata : SystemMetadata;
  cr_Topic : string;
  cr_PartitionMode : string;
  cr_TargetRecords : Z;
  cr_ObservedRecords : Z;
  cr_CountedRecords : Z;
  cr_OvershootRecords : Z;
  cr_RPCCount : Z;
  cr_MaxFetchBytes : Z;
  cr_Concurrency : Z;
  cr_DurationSeconds : float64;
  cr_MessagesPerSecond : float64;
  cr_PayloadMiBPerSecond : float64;
  cr_Latency : LatencyReport;
  cr_Errors : gmap string Z;
}.

(** After the workers returned; [duration] is the measured time. *)
Definition finish_consumer (c : ConsumerConf) (info : BenchInfo) (maxFetchBytes duration : Z)
    (sampler : Sampler) (s : Consumer)
    : res ConsumerResult :=
  if (cc_duration c =? 0) && (countedRecords s <? cc_target c)
  then Err (Errorf "consumer benchmark exhausted all partitions") else
  match c_firstErr s with
  | Some e => Err e
  | None =>
    let! latency := GetReport sampler in
    let secs := Seconds duration in
    let positive := 0 <? duration in
    Ok (mkConsumerResult (bi_Metadata info) (bi_topic info)
      (if cc_partition c =? -1 then "all-partitions" else "single")
      (cc_target c) (observedRecords s) (countedRecords s) (overshootRecords s) (c_rpcCount s)
      maxFetchBytes (bi_concurrency info) secs
      (if positive then f64_div (float64_of (countedRecords s)) secs else float64_of 0)
      (if positive
       then f64_div (f64_div (float64_of (countedBytes s)) (float64_of 1048576)) secs
       else float64_of 0)
      latency
      (if 0 <? c_canceledRequests s
       then <["Canceled"%string := c_canceledRequests s]> (c_errMap s) else c_errMap s))
  end.

(** ** The accounting of the workers *)

(** What a worker has yet to add to [observedRecords] and to [overshootRecords]. *)
Definition to_observe (l : consumer_pc) : Z :=
  match l with CObserve _ records _ _ => blen records | _ => 0 end.
Definition to_overshoot (l : consumer_pc) : Z :=
  match l with
  | CObserve _ records _ accepted | COvershoot _ records _ accepted => blen records - accepted
  | _ => 0
  end.
Definition sum_over (f : consumer_pc → Z) (ws : list consumer_pc) : Z :=
  foldr (fun l n => f l + n) 0 ws.

Lemma sum_over_insert f ws k l l' :
  ws !! k = Some l → sum_over f (<[k := l']> ws) = sum_over f ws + (f l' - f l).
Proof.
  revert k. induction ws as [|x ws IH]; intros [|k] H; simpl in *; [done|done| |].
  - injection H as ->. lia.
  - rewrite (IH _ H). lia.
Qed.

Lemma sum_over_zero f ws l : f l = 0 → Forall (eq l) ws → sum_over f ws = 0.
Proof. intros Hf. induction 1 as [|x ws <- _ IH]; simpl; lia. Qed.

(** A worker holds a response that fits a message; in the middle of [claimConsumed]
    the value it loaded was below the target. *)
Definition claim_ok (c : ConsumerConf) (l : consumer_pc) : Prop :=
  match l with
  | CReplied _ _ (Records records _) | CLoad _ _ records _ => blen records < two31
  | CSwap _ _ records _ current => blen records < two31 ∧ 0 ≤ current < cc_target c
  | _ => True
  end.

Record tally (c : ConsumerConf) (ws : list consumer_pc) (s : Consumer) : Prop := mkTally {
  ta_counted : 0 ≤ countedRecords s ≤ cc_target c;
  ta_sum : i64 (observedRecords s + sum_over to_observe ws)
           = i64 (countedRecords s + overshootRecords s + sum_over to_overshoot ws);
  ta_observed : - two63 ≤ observedRecords s < two63;
  ta_claims : Forall (claim_ok c) ws;
}.

Lemma i64_add_l a b : i64 (i64 a + b) = i64 (a + b).
Proof.
  unfold i64. f_equal.
  replace ((a + two63) mod two64 - two63 + b + two63) with ((a + two63) mod two64 + b) by lia.
  rewrite Z.add_mod_idemp_l by lia. f_equal. lia.
Qed.

(** Sums equal modulo 2^64 stay equal when the same amount is added. *)
Lemma i64_shift x y x' y' d : i64 x = i64 y → x' = x + d → y' = y + d → i64 x' = i64 y'.
Proof. intros H -> ->. by rewrite <- (i64_add_l x), H, i64_add_l. Qed.

Lemma claim_bounds target current n accepted :
  0 ≤ current < target → target < two63 - two31 → 0 ≤ n < two31 →
  accepted = (if target <? i64 (current + n) then i64 (target - current) else n) →
  0 ≤ accepted ≤ n ∧ i64 (current + accepted) = current + accepted ∧ current + accepted ≤ target.
Proof.
  intros Hc Ht Hn ->. rewrite (i64_small (current + n)), (i64_small (target - current)) by lia.
  destruct (Z.ltb_spec target (current + n)); rewrite i64_small by lia; lia.
Qed.

Lemma step_tally c k i ws s ws' s' :
  cc_target c < two63 - two31 → input_ok i → tally c ws s →
  consumers_act c k i (ws, s) = Some (ws', s') → tally c ws' s'.
Proof.
  intros Ht Hi [Hct Hsum Hob Hcl] E. unfold consumers_act in E.
  apply bind_Some in E as (l & Hk & E). apply bind_Some in E as ([l' q] & E & [= <- <-]).
  pose proof (sum_over_insert to_observe ws k l l' Hk) as Hs1.
  pose proof (sum_over_insert to_overshoot ws k l l' Hk) as Hs2.
  assert (claim_ok c l) as Hl by (rewrite Forall_forall in Hcl; by eapply Hcl, list_elem_of_lookup_2).
  assert (claim_ok c l' → Forall (claim_ok c) (<[k := l']> ws)) as Hcl'.
  { intros. by apply Forall_insert. }
  destruct s as [ob ct ov by_ rpcs fl canc em fe stop ch]. simpl in *.
  (* steps that leave the counters and the pending amounts alone *)
  assert (∀ q, observedRecords q = ob → countedRecords q = ct → overshootRecords q = ov →
    to_observe l' = to_observe l → to_overshoot l' = to_overshoot l → claim_ok c l' →
    tally c (<[k := l']> ws) q) as Hsame.
  { intros q0 H1 H2 H3 H4 H5 H6. split; rewrite ?H1, ?H2, ?H3; auto.
    rewrite Hs1, Hs2, H4, H5, !Z.sub_diag, !Z.add_0_r. done. }
  unfold consumer_act in E.
  destruct l as [| |part off|part off|part off|part off reply|part off recs le|part off recs le cur
    |part recs le acc|part recs le acc|part recs le acc|part off n le|part off m|], i as [| | | |r];
    try done; try (repeat case_match; simplify_eq/=; by apply Hsame).
  - destruct (Z.leb_spec (cc_target c) ct) as [Hge|Hlt]; simplify_eq/=.
    + split; simpl; auto. rewrite Hs1, Hs2. eapply (i64_shift _ _ _ _ (blen recs) Hsum); lia.
    + apply Hsame; try done. split; [exact Hl|lia].
  - destruct (Z.eqb_spec ct cur) as [->|Hne]; simplify_eq/=; [|by apply Hsame; try done; destruct Hl].
    destruct Hl as [Hn Hcur]. set (acc := claim_accepted _ _ _) in *.
    destruct (claim_bounds (cc_target c) cur (blen recs) acc) as (Ha & -> & Hle); [lia|lia| |done|].
    { pose proof (Zle_0_nat (length recs)). unfold blen in *. lia. }
    split; simpl; auto; [lia|]. rewrite Hs1, Hs2.
    eapply (i64_shift _ _ _ _ (blen recs) Hsum); lia.
  - simplify_eq/=. split; simpl; auto; [|apply i64_range].
    rewrite i64_add_l, Hs1, Hs2. eapply (i64_shift _ _ _ _ 0 Hsum); lia.
  - simplify_eq/=. split; simpl; auto. rewrite Hs1, Hs2.
    rewrite (Z.add_comm ct), <- Z.add_assoc, i64_add_l. eapply (i64_shift _ _ _ _ 0 Hsum); lia.
Qed.

Lemma run_tally c n partitions ws s :
  0 ≤ cc_target c < two63 - two31 → consumers_run c n partitions ws s → tally c ws s.
Proof.
  intros Ht. induction 1 as [|k i ws s ws' s' _ IH Hi E]; [|eapply step_tally; [lia|done..]].
  assert (Forall (eq CNext) (replicate n CNext)) as Hr by by apply Forall_replicate.
  split; simpl; [lia| |lia|].
  - by rewrite !(sum_over_zero _ _ CNext) by done.
  - eapply Forall_impl; [exact Hr|]. by intros x <-.
Qed.


(** The flag -duration is documented to make -count irrelevant, but the
    compare-and-swap loop caps the counter in timed runs too: with -count 0, every record of a
    timed run is overshoot, and the reported throughput is zero. *)
Theorem timed_run_counts_nothing c n partitions ws s :
  0 < cc_duration c → cc_target c = 0 → consumers_run c n partitions ws s →
  countedRecords s = 0.
Proof.
  intros _ Ht R. pose proof (run_tally c n partitions ws s ltac:(lia) R) as [Hct _ _ _]. lia.
Qed.

(** One worker reads a partition of two records. *)
Definition demo_consumer_inputs : list consumer_input :=
  [CTick; CTick; CTick; CTick; CReply (Records [mkFetched 0 5; mkFetched 1 7] 2); CTick; CTick;
   CTick; CTick; CTick; CTick; CTick].
Fixpoint run_consumer (c : ConsumerConf) (l : list consumer_input)
    (st : list consumer_pc * Consumer) : option (list consumer_pc * Consumer) :=
  match l with
  | [] => Some st
  | i :: l => consumers_act c 0 i st ≫= run_consumer c l
  end.

Lemma run_consumer_run c n partitions l ws s ws' s' :
  consumers_run c n partitions ws s → Forall input_ok l →
  run_consumer c l (ws, s) = Some (ws', s') → consumers_run c n partitions ws' s'.
Proof.
  revert ws s. induction l as [|i l IH]; intros ws s R Hl E; [by simplify_eq/=|].
  apply Forall_cons in Hl as [Hi Hl]. cbn [run_consumer] in E.
  apply bind_Some in E as ([ws1 s1] & Ea & E). by eapply IH; [eapply consume_step|..].
Qed.

Definition demo_after (c : ConsumerConf) : list consumer_pc * Consumer :=
  default ([], new_consumer []) (run_consumer c demo_consumer_inputs ([CNext], new_consumer [0])).

Lemma demo_after_run c :
  bool_decide (is_Some (run_consumer c demo_consumer_inputs ([CNext], new_consumer [0]))) = true →
  consumers_run c 1 [0] (fst (demo_after c)) (snd (demo_after c)).
Proof.
  intros [[ws s] Hs]%bool_decide_eq_true. unfold demo_after. rewrite Hs. simpl.
  eapply run_consumer_run; [apply (consume_start c 1 [0])| |exact Hs].
  repeat constructor.
Qed.


Lemma timed_run_counts_nothing_witness :
  let s := snd (demo_after (mkConsumerConf 0 15 0 (-1))) in
  countedRecords s = 0 ∧ observedRecords s = 2.
Proof.
  cbv zeta. split; [|vm_compute; reflexivity].
  apply (timed_run_counts_nothing (mkConsumerConf 0 15 0 (-1)) 1 [0]
           (fst (demo_after (mkConsumerConf 0 15 0 (-1))))); [simpl; lia|done|].
  apply demo_after_run. vm_compute. reflexivity.
Defined.
