(* ===== verification/Flags.v ===== *)
(** * Command-line flags

    Package flag and the integer parsers of strconv, as far as the commands use them: a
    [FlagSet] is the list of its flags with their kinds, and [Parse] either ends the
    process (every set exits on an error) or gives the values that were set and the
    arguments that are left.  [time.ParseDuration] is an argument, as in Config.v. *)

From S2P Require Import Prelude Names Config.
From Stdlib Require Import Strings.Ascii.
Open Scope Z_scope.

(** ** strconv.ParseInt and ParseUint with base 0 and 64 bits *)

Definition lower (c : ascii) : nat :=
  let n := nat_of_ascii c in if ((65 <=? n) && (n <=? 90))%nat then (n + 32)%nat else n.

(** The value of a digit: decimal digits, then letters of either case. *)
Definition digit_value (c : ascii) : option Z :=
  let n := nat_of_ascii c in
  if ((48 <=? n) && (n <=? 57))%nat then Some (Z.of_nat n - 48)
  else let l := lower c in
       if ((97 <=? l) && (l <=? 122))%nat then Some (Z.of_nat l - 97 + 10) else None.

(** The loop over the digits; underscores are skipped here. *)
Fixpoint scan_base (base : Z) (s : string) (acc : Z) : option Z :=
  match s with
  | EmptyString => Some acc
  | String c s =>
    if bool_decide (c = "_"%char) then scan_base base s acc else
    match digit_value c with
    | Some d => if d <? base then scan_base base s (acc * base + d) else None
    | None => None
    end
  end.

(** What the previous character was, for [underscoreOK]. *)
Inductive seen := SeenStart | SeenDigit | SeenUnderscore | SeenOther.

Fixpoint underscores_ok (hex : bool) (s : string) (i : seen) : bool :=
  match s with
  | EmptyString => match i with SeenUnderscore => false | _ => true end
  | String c s =>
    let l := lower c in
    if is_digit c || (hex && ((97 <=? l) && (l <=? 102))%nat) then underscores_ok hex s SeenDigit
    else if bool_decide (c = "_"%char)
    then match i with SeenDigit => underscores_ok hex s SeenUnderscore | _ => false end
    else match i with SeenUnderscore => false | _ => underscores_ok hex s SeenOther end
  end.

(** The base that a prefix selects: the base, whether it is hexadecimal, whether there
    was a prefix of two characters, and the digits. *)
Definition base_of (s : string) : Z * bool * bool * string :=
  match s with
  | String "0" (String c (String _ _ as rest)) =>
    let l := lower c in
    if (l =? 98)%nat then (2, false, true, rest)
    else if (l =? 111)%nat then (8, false, true, rest)
    else if (l =? 120)%nat then (16, true, true, rest)
    else (8, false, false, String c rest)
  | String "0" rest => (8, false, false, rest)
  | _ => (10, false, false, s)
  end.

(** [ParseUint(s, 0, 64)]. *)
Definition ParseUint0 (s : string) : option Z :=
  if bool_decide (s = ""%string) then None else
  let '(base, hex, prefixed, digits) := base_of s in
  match scan_base base digits 0 with
  | Some n =>
    if negb (underscores_ok hex (if prefixed then digits else s)
               (if prefixed then SeenDigit else SeenStart)) then None
    else if n <? two64 then Some n else None
  | None => None
  end.

(** [ParseInt(s, 0, 64)]. *)
Definition ParseInt0 (s : string) : option Z :=
  let '(neg, u) := match s with
                   | String "-" u => (true, u)
                   | String "+" u => (false, u)
                   | _ => (false, s)
                   end in
  match ParseUint0 u with
  | Some n =>
    if neg then if n <=? two63 then Some (- n) else None
    else if n <? two63 then Some n else None
  | None => None
  end.

(** ** Package flag *)

Inductive flag_kind := KString | KInt | KUint64 | KBool | KDuration.

Definition starts_with (p s : string) : bool := String.prefix p s.

(** Split [name=value] at the first [=] after the first character. *)
Fixpoint cut_eq (s : string) : string * option string :=
  match s with
  | EmptyString => (EmptyString, None)
  | String c s =>
    if bool_decide (c = "="%char) then (EmptyString, Some s)
    else let '(n, v) := cut_eq s in (String c n, v)
  end.
Definition split_flag (s : string) : string * option string :=
  match s with
  | EmptyString => (EmptyString, None)
  | String c s => let '(n, v) := cut_eq s in (String c n, v)
  end.

(** An argument: not a flag, the terminator, or a flag with its text. *)
Inductive arg_shape := NotFlag | Terminator | BadSyntax | FlagText (text : string).
Definition shape (s : string) : arg_shape :=
  match s with
  | String "-" (String c rest) =>
    let name := if bool_decide (c = "-"%char) then rest else String c rest in
    if bool_decide (c = "-"%char) && bool_decide (rest = ""%string) then Terminator else
    match name with
    | EmptyString => BadSyntax
    | String d _ => if bool_decide (d = "-"%char) || bool_decide (d = "="%char)
                    then BadSyntax else FlagText name
    end
  | _ => NotFlag
  end.

Fixpoint kind_in (formal : list (string * flag_kind)) (name : string) : option flag_kind :=
  match formal with
  | [] => None
  | (n, k) :: formal => if bool_decide (n = name) then Some k else kind_in formal name
  end.

(** A process that ends with a status, or goes on with a value. *)
Abbreviation cli A := (Z + A)%type.

Section Parse.
Context (ParseDuration : string → option Z).

(** [Set] accepts the value. *)
Definition accepts (k : flag_kind) (v : string) : bool :=
  match k with
  | KString => true
  | KInt => bool_decide (is_Some (ParseInt0 v))
  | KUint64 => bool_decide (is_Some (ParseUint0 v))
  | KBool => bool_decide (is_Some (ParseBool v))
  | KDuration => bool_decide (is_Some (ParseDuration v))
  end.

(** [FlagSet.Parse] with [ExitOnError]: help exits with status 0, an error with 2. *)
Fixpoint Parse (formal : list (string * flag_kind)) (args : list string)
    (set : gmap string string) : cli (gmap string string * list string) :=
  match args with
  | [] => inr (set, [])
  | s :: rest =>
    match shape s with
    | NotFlag => inr (set, args)
    | Terminator => inr (set, rest)
    | BadSyntax => inl 2
    | FlagText text =>
      let '(name, value) := split_flag text in
      match kind_in formal name with
      | None => inl (if bool_decide (name = "help"%string) || bool_decide (name = "h"%string)
                     then 0 else 2)
      | Some KBool =>
        let v := default "true"%string value in
        if accepts KBool v then Parse formal rest (<[name := v]> set) else inl 2
      | Some k =>
        match value, rest with
        | Some v, _ => if accepts k v then Parse formal rest (<[name := v]> set) else inl 2
        | None, v :: rest =>
          if accepts k v then Parse formal rest (<[name := v]> set) else inl 2
        | None, [] => inl 2
        end
      end
    end
  end.

(** A flag that takes its value from the next argument. *)
Lemma Parse_next_arg formal s name k v rest set :
  shape s = FlagText name → split_flag name = (name, None) → kind_in formal name = Some k →
  k ≠ KBool → accepts k v = true →
  Parse formal (s :: v :: rest) set = Parse formal rest (<[name := v]> set).
Proof. intros H1 H2 H3 Hk Ha. cbn [Parse]. rewrite H1, H2, H3. destruct k; by rewrite ?Ha. Qed.

(** The value of a flag after [Parse]. *)
Definition string_flag (set : gmap string string) (name dflt : string) : string :=
  default dflt (set !! name).
Definition value_flag {A} (parse : string → option A) (set : gmap string string) (name : string)
    (dflt : A) : A :=
  default dflt (set !! name ≫= parse).
Definition int_flag (set : gmap string string) (name : string) (dflt : Z) : Z :=
  value_flag ParseInt0 set name dflt.
Definition uint_flag (set : gmap string string) (name : string) (dflt : Z) : Z :=
  value_flag ParseUint0 set name dflt.
Definition bool_flag (set : gmap string string) (name : string) (dflt : bool) : bool :=
  value_flag ParseBool set name dflt.
Definition duration_flag (set : gmap string string) (name : string) (dflt : Z) : Z :=
  value_flag ParseDuration set name dflt.

End Parse.

(** ** Values of integer flags *)

Lemma ParseUint0_range s n : ParseUint0 s = Some n → n < two64.
Proof.
  unfold ParseUint0. case_bool_decide; [done|].
  destruct (base_of s) as [[[base hex] prefixed] digits].
  destruct (scan_base base digits 0) as [m|]; [|done].
  destruct (negb _); [done|]. destruct (Z.ltb_spec m two64); [|done]. by intros [= <-].
Qed.

Lemma scan_base_nonneg base s acc n :
  0 <= base → 0 <= acc → scan_base base s acc = Some n → 0 <= n.
Proof.
  intros Hb. revert acc. induction s as [|c s IH]; intros acc Ha; simpl; [by intros [= <-]|].
  case_bool_decide; [by apply IH|]. destruct (digit_value c) as [d|] eqn:Hd; [|done].
  destruct (d <? base); [|done]. apply IH.
  assert (0 <= d); [|nia]. unfold digit_value in Hd. repeat case_match; simplify_eq;
    repeat match goal with H : (_ && _)%bool = true |- _ => apply andb_true_iff in H as [H ?] end;
    rewrite ?Nat.leb_le in *; lia.
Qed.

Lemma ParseUint0_nonneg s n : ParseUint0 s = Some n → 0 <= n.
Proof.
  unfold ParseUint0. case_bool_decide; [done|].
  destruct (base_of s) as [[[base hex] prefixed] digits] eqn:Hb.
  destruct (scan_base base digits 0) as [m|] eqn:Hs; [|done].
  destruct (negb _); [done|]. destruct (m <? two64); [|done]. intros [= <-].
  eapply scan_base_nonneg, Hs; [|lia]. unfold base_of in Hb. repeat case_match; simplify_eq; lia.
Qed.

Lemma ParseInt0_range s n : ParseInt0 s = Some n → - two63 <= n < two63.
Proof.
  unfold ParseInt0. destruct (match s with EmptyString => _ | _ => _ end) as [neg u].
  destruct (ParseUint0 u) as [m|] eqn:Hu; [|done]. apply ParseUint0_nonneg in Hu.
  destruct neg.
  - destruct (Z.leb_spec m two63); [|done]. intros [= <-]. lia.
  - destruct (Z.ltb_spec m two63); [|done]. intros [= <-]. lia.
Qed.

Lemma int_flag_range set name dflt :
  - two63 <= dflt < two63 → - two63 <= int_flag set name dflt < two63.
Proof.
  intros Hd. unfold int_flag, value_flag. destruct (set !! name) as [v|]; simpl; [|done].
  destruct (ParseInt0 v) as [n|] eqn:H; simpl; [|done]. by eapply ParseInt0_range.
Qed.

(** Numerals as strconv reads them. *)
Example ParseInt0_decimal : ParseInt0 "-1_000" = Some (-1000). Proof. reflexivity. Qed.
Example ParseInt0_hex : ParseInt0 "0x_fF" = Some 255. Proof. reflexivity. Qed.
Example ParseInt0_octal : ParseInt0 "017" = Some 15. Proof. reflexivity. Qed.
Example ParseInt0_refused : ParseInt0 "1__0" = None. Proof. reflexivity. Qed.
Example ParseInt0_overflow : ParseInt0 "9223372036854775808" = None. Proof. reflexivity. Qed.
