(* ===== verification/Commands.v ===== *)
(** * The client commands (cmd/admin, cmd/producer, cmd/consumer, cmd/bench_producer,
    cmd/bench_consumer)

    Each command parses its arguments and calls the broker.  A call over the network is
    the handler of Grpc.v on the broker's state, with the arguments as the wire delivers
    them: an empty bytes field arrives as nil.  [grpc.NewClient] is an argument that
    tells whether it accepts the address.  What a command prints is the data it prints. *)

From S2P Require Import Prelude FileSystem Names Model Topics Grpc Config Flags.
From S2P Require Import Float64 BenchLatency BenchProducer BenchConsumer.
From Stdlib Require Import Init.Byte Strings.Ascii.
Open Scope Z_scope.

(** A bytes field of a message after its way over the wire. *)
Definition wire_bytes (b : bytes) : option bytes :=
  match b with [] => None | _ => Some b end.

Definition string_bytes (s : string) : bytes := String.list_byte_of_string s.

(** ** cmd/admin *)

Module admin.

Definition is_flag (name arg : string) : bool :=
  bool_decide (arg = "-" +:+ name) || bool_decide (arg = "--" +:+ name).

(** Lines 19-40: the broker address, and the subcommand with its arguments. *)
Fixpoint scan_global (args : list string) (brokerAddr : string)
    : cli (string * string * list string) :=
  match args with
  | [] => inl 1
  | arg :: rest =>
    if is_flag "broker" arg then
      match rest with
      | value :: rest => scan_global rest value
      | [] => inl 1
      end
    else if negb (starts_with "-" arg) then inr (brokerAddr, arg, rest)
    else scan_global rest brokerAddr
  end.

(** Lines 59-78: the topic name and the arguments left for the flag set. *)
Fixpoint split_create (args : list string) (topicName : string) (remainArgs : list string)
    : string * list string :=
  match args with
  | [] => (topicName, remainArgs)
  | arg :: rest =>
    if is_flag "partitions" arg then
      match rest with
      | value :: rest => split_create rest topicName (remainArgs ++ [arg; value])
      | [] => split_create rest topicName (remainArgs ++ [arg])
      end
    else if starts_with "-" arg then split_create rest topicName (remainArgs ++ [arg])
    else if bool_decide (topicName = ""%string) then split_create rest arg remainArgs
    else split_create rest topicName (remainArgs ++ [arg])
  end.

Inductive call : Type :=
  | CallCreate (req : CreateTopicRequest)
  | CallList
  | CallDescribe (name : string).

(** No flag of this command is a duration. *)
Definition no_duration (_ : string) : option Z := None.

(** Lines 59-100. *)
Definition create_call (subArgs : list string) : cli call :=
  let '(topicName, remainArgs) := split_create subArgs "" [] in
  if bool_decide (topicName = ""%string) then inl 1 else
  match Parse no_duration [("partitions"%string, KInt)] remainArgs ∅ with
  | inl status => inl status
  | inr (set, _) =>
    let partitions := int_flag set "partitions" 0 in
    if partitions <=? 0 then inl 1 else
    inr (CallCreate (mkCreateTopicRequest topicName (u32 partitions) None))
  end.

(** Lines 123-129: the first argument that is not a flag. *)
Fixpoint describe_name (subArgs : list string) : string :=
  match subArgs with
  | [] => ""
  | arg :: rest => if starts_with "-" arg then describe_name rest else arg
  end.

Definition subcommand_call (subcommand : string) (subArgs : list string) : cli call :=
  if bool_decide (subcommand = "create-topic"%string) then create_call subArgs
  else if bool_decide (subcommand = "list-topics"%string) then inr CallList
  else if bool_decide (subcommand = "describe-topic"%string) then
    let topicName := describe_name subArgs in
    if bool_decide (topicName = ""%string) then inl 1 else inr (CallDescribe topicName)
  else inl 1.

(** [os.Args] without the program's name. *)
Definition main_call (NewClient : string → bool) (args : list string) : cli call :=
  match scan_global args "localhost:50051" with
  | inl status => inl status
  | inr (brokerAddr, subcommand, subArgs) =>
    if negb (NewClient brokerAddr) then inl 1 else subcommand_call subcommand subArgs
  end.

(** What the command prints when the call succeeds. *)
Inductive output : Type :=
  | Created (name : string) (partitionCount : Z)
  | NoTopics
  | Topics (topics : list (string * Z))
  | Described (t : TopicMetadata).

Section Main.
Context (Marshal : gmap string DiskTopic → bytes).
Context (Unmarshal : bytes → option (gmap string DiskTopic) →
           res (option (gmap string DiskTopic))).

Definition main (NewClient : string → bool) (args : list string)
    : M (Server * World) (cli output) :=
  match main_call NewClient args with
  | inl status => ret (inl status)
  | inr (CallCreate req) =>
    let* r := Admin_CreateTopic Marshal Unmarshal req in
    match r with
    | inl _ => ret (inl 1)
    | inr t => ret (inr (Created (tm_Name t) (tm_PartitionCount t)))
    end
  | inr CallList =>
    let* r := Admin_ListTopics in
    match r with
    | inl _ => ret (inl 1)
    | inr [] => ret (inr NoTopics)
    | inr ts => ret (inr (Topics ((fun t => (tm_Name t, tm_PartitionCount t)) <$> ts)))
    end
  | inr (CallDescribe name) =>
    let* r := Admin_DescribeTopic name in
    match r with
    | inl _ => ret (inl 1)
    | inr t => ret (inr (Described t))
    end
  end.

End Main.
End admin.

(** ** cmd/producer *)

Module producer.

(** hash/fnv: [New32a], [Write], [Sum32]. *)
Definition fnv_step (h : Z) (b : byte) : Z := u32 (Z.lxor h (Z_of_byte b) * 16777619).
Definition fnv32a (data : bytes) : Z := fold_left fnv_step data 2166136261.

Record Args := mkArgs {
  brokerAddr : string;
  topicName : string;
  partition : Z;
  key : string;
  value : string;
}.

(** Lines 18-29. *)
Definition parse_args (args : list string) : cli Args :=
  match Parse admin.no_duration
    [("broker", KString); ("topic", KString); ("partition", KInt); ("key", KString);
     ("value", KString)]%string args ∅ with
  | inl status => inl status
  | inr (set, _) =>
    let a := mkArgs (string_flag set "broker" "localhost:50051") (string_flag set "topic" "")
               (int_flag set "partition" (-1)) (string_flag set "key" "")
               (string_flag set "value" "") in
    if bool_decide (topicName a = ""%string) || bool_decide (value a = ""%string)
    then inl 1 else inr a
  end.

(** Lines 57-74: [random] is what [rand.Intn(int(partitionCount))] returns. *)
Definition route (a : Args) (partitionCount random : Z) : cli Z :=
  if negb (partition a =? -1) then
    if (partition a <? 0) || (partitionCount <=? u32 (partition a)) then inl 1
    else inr (u32 (partition a))
  else if bool_decide (key a ≠ ""%string) then
    inr (fnv32a (string_bytes (key a)) mod partitionCount)
  else inr (u32 random).

(** What is printed: base and last offset and the partition. *)
Definition produced : Type := Z * Z * Z.

(** Lines 31-94; [clock] is the client's clock and [now] the broker's. *)
Definition run (NewClient : string → bool) (clock now random : Z) (a : Args)
    : M (Server * World) (cli produced) :=
  if negb (NewClient (brokerAddr a)) then ret (inl 1) else
  let* d := Admin_DescribeTopic (topicName a) in
  match d with
  | inl _ => ret (inl 1)
  | inr t =>
    let partitionCount := tm_PartitionCount t in
    if partitionCount =? 0 then ret (inl 1) else
    match route a partitionCount random with
    | inl status => ret (inl status)
    | inr targetPartition =>
      let record := mkPbRecord (wire_bytes (string_bytes (key a)))
                      (wire_bytes (string_bytes (value a))) [] clock in
      let* r := Produce now (mkProduceRequest (topicName a) targetPartition [record]) in
      match r with
      | inl _ => ret (inl 1)
      | inr resp => ret (inr (BaseOffset resp, LastOffset resp, targetPartition))
      end
    end
  end.

Definition main (NewClient : string → bool) (clock now random : Z) (args : list string)
    : M (Server * World) (cli produced) :=
  match parse_args args with
  | inl status => ret (inl status)
  | inr a => run NewClient clock now random a
  end.

End producer.

(** ** cmd/consumer *)

Module consumer.

Record Args := mkArgs {
  brokerAddr : string;
  topicName : string;
  partition : Z;
  offset : Z;
}.

(** Lines 16-26. *)
Definition parse_args (args : list string) : cli Args :=
  match Parse admin.no_duration
    [("broker", KString); ("topic", KString); ("partition", KInt); ("offset", KUint64)]%string
    args ∅ with
  | inl status => inl status
  | inr (set, _) =>
    let a := mkArgs (string_flag set "broker" "localhost:50051") (string_flag set "topic" "")
               (int_flag set "partition" (-1)) (uint_flag set "offset" 0) in
    if bool_decide (topicName a = ""%string) || (partition a =? -1) then inl 1 else inr a
  end.

(** What is printed of a record; a nil field prints as an empty string. *)
Record printed := mkPrinted {
  pt_Offset : Z;
  pt_Timestamp : Z;
  pt_Key : bytes;
  pt_Value : bytes;
  pt_Headers : list Header;
}.
Definition print_record (r : StoredRecord) : printed :=
  mkPrinted (Offset r) (Timestamp r) (default [] (Key r)) (default [] (Value r)) (Headers r).

(** The bounds of the log and the records. *)
Definition output : Type := Z * Z * list printed.

(** Lines 28-68. *)
Definition run (NewClient : string → bool) (a : Args) : M (Server * World) (cli output) :=
  if negb (NewClient (brokerAddr a)) then ret (inl 1) else
  let* r := Fetch (mkFetchRequest (topicName a) (u32 (partition a)) (offset a) (1024 * 1024)) in
  match r with
  | inl _ => ret (inl 1)
  | inr resp =>
    ret (inr (Grpc.EarliestOffset resp, Grpc.LogEndOffset resp, print_record <$> Grpc.Records resp))
  end.

Definition main (NewClient : string → bool) (args : list string)
    : M (Server * World) (cli output) :=
  match parse_args args with
  | inl status => ret (inl status)
  | inr a => run NewClient a
  end.

End consumer.

(** ** cmd/bench_producer *)

Module bench_producer.

Record Args := mkArgs {
  brokerAddr : string;
  topicName : string;
  msgSize : Z;
  count : Z;
  duration : Z;
  concurrency : Z;
  batchSize : Z;
  partition : Z;
  failFast : bool;
  timeout : Z;
  output : string;
  outputFile : string;
  runLabel : string;
  warmup : bool;
  flushMode : string;
  runNumber : Z;
}.

Section Main.
Context (ParseDuration : string → option Z).

Definition flags : list (string * flag_kind) :=
  [("broker", KString); ("topic", KString); ("msg-size", KInt); ("count", KInt);
   ("duration", KDuration); ("concurrency", KInt); ("batch-size", KInt); ("partition", KInt);
   ("fail-fast", KBool); ("timeout", KDuration); ("output", KString); ("output-file", KString);
   ("run-label", KString); ("warmup", KBool); ("flush-mode", KString);
   ("run-number", KInt)]%string.

Definition args_of (set : gmap string string) : Args :=
  mkArgs (string_flag set "broker" "localhost:9092") (string_flag set "topic" "bench-topic")
    (int_flag set "msg-size" 100) (int_flag set "count" 100000)
    (duration_flag ParseDuration set "duration" 0) (int_flag set "concurrency" 4)
    (int_flag set "batch-size" 100) (int_flag set "partition" (-1))
    (bool_flag set "fail-fast" true) (duration_flag ParseDuration set "timeout" (5 * Second))
    (string_flag set "output" "text") (string_flag set "output-file" "")
    (string_flag set "run-label" "") (bool_flag set "warmup" false)
    (string_flag set "flush-mode" "sync") (int_flag set "run-number" 1).

(** Lines 24-61. *)
Definition parse_args (args : list string) : cli Args :=
  match Parse ParseDuration flags args ∅ with
  | inl status => inl status
  | inr (set, _) =>
    let a := args_of set in
    if bool_decide (topicName a = ""%string) then inl 1 else
    if msgSize a <=? 0 then inl 1 else
    if (duration a <=? 0) && (count a <=? 0) then inl 1 else
    if concurrency a <=? 0 then inl 1 else
    if batchSize a <=? 0 then inl 1 else inr a
  end.

End Main.

(** The build: the variables set by the linker and the constants of package runtime. *)
Record build := mkBuild {
  bd_commit : string;
  bd_dirty : string;
  bd_buildTime : string;
  bd_version : string;
  bd_goos : string;
  bd_goarch : string;
}.

Definition metadata (bd : build) (runLabel : string) (runNumber : Z) (warmup : bool)
    : SystemMetadata :=
  mkSystemMetadata runLabel runNumber warmup (bd_commit bd)
    (bool_decide (bd_dirty bd = "true"%string)) (bd_buildTime bd) (bd_version bd) (bd_goos bd)
    (bd_goarch bd) "1.0.0".

(** [NewProducerBench] with the arguments of main, and the partition count that [Run]
    finds. *)
Definition new_bench (bd : build) (a : Args) (partitionCount : Z) : ProducerConf * BenchInfo :=
  (mkProducerConf (count a) (0 <? duration a) (batchSize a) (partition a) (failFast a)
     partitionCount,
   mkBenchInfo (metadata bd (runLabel a) (runNumber a) (warmup a)) (topicName a) (flushMode a)
     (msgSize a) (concurrency a)).

(** The end offsets in a topic description. *)
Definition end_offsets (t : TopicMetadata) : gmap Z Z :=
  foldl (fun m pm => <[pm_PartitionId pm := pm_LogEndOffset pm]> m) ∅ (tm_Partitions t).

(** The start of [Run], lines 116-137 of producer.go: the partition count and the
    initial end offsets. *)
Definition discover (topicName : string) (partition : Z)
    : M (Server * World) (res (Z * gmap Z Z)) :=
  let* d := Admin_DescribeTopic topicName in
  match d with
  | inl _ => ret (Err (Errorf "failed to describe topic"))
  | inr t =>
    ret (let! _ := check_partition partition (tm_PartitionCount t) in
         Ok (tm_PartitionCount t, end_offsets t))
  end.

(** The exit status for the result of [Run]; [stored] tells that the JSON report could be
    marshalled and written.  The error of writing the text report is dropped. *)
Definition exit_status (a : Args) (stored : bool) (r : res ProducerResult) : Z :=
  match r with
  | Ok result =>
    if bool_decide (output a = "json"%string) && negb stored then 1
    else if 0 <? pr_FailedRecords result then 1 else 0
  | Err _ => 1
  | Panic => 2
  end.

End bench_producer.

(** ** cmd/bench_consumer *)

Module bench_consumer.

Record Args := mkArgs {
  brokerAddr : string;
  topicName : string;
  targetPartition : Z;
  count : Z;
  duration : Z;
  maxFetchBytes : Z;
  concurrency : Z;
  offset : Z;
  pollInterval : Z;
  idleTimeout : Z;
  timeout : Z;
  output : string;
  outputFile : string;
  runLabel : string;
  warmup : bool;
  runNumber : Z;
}.

Section Main.
Context (ParseDuration : string → option Z).

Definition flags : list (string * flag_kind) :=
  [("broker", KString); ("topic", KString); ("partition", KInt); ("all-partitions", KBool);
   ("count", KInt); ("duration", KDuration); ("max-fetch-bytes", KInt); ("concurrency", KInt);
   ("offset", KUint64); ("poll-interval", KDuration); ("idle-timeout", KDuration);
   ("timeout", KDuration); ("output", KString); ("output-file", KString);
   ("run-label", KString); ("warmup", KBool); ("run-number", KInt)]%string.

(** Lines 24-67. *)
Definition parse_args (args : list string) : cli Args :=
  match Parse ParseDuration flags args ∅ with
  | inl status => inl status
  | inr (set, _) =>
    let topicName := string_flag set "topic" "bench-topic" in
    let partition := int_flag set "partition" (-1) in
    let allPartitions := bool_flag set "all-partitions" true in
    let count := int_flag set "count" 100000 in
    let duration := duration_flag ParseDuration set "duration" 0 in
    let maxFetchBytes := int_flag set "max-fetch-bytes" 1048576 in
    let concurrency := int_flag set "concurrency" 4 in
    if bool_decide (topicName = ""%string) then inl 1 else
    if (duration <=? 0) && (count <=? 0) then inl 1 else
    if maxFetchBytes <=? 0 then inl 1 else
    if concurrency <=? 0 then inl 1 else
    if (partition =? -1) && negb allPartitions then inl 1 else
    inr (mkArgs (string_flag set "broker" "localhost:9092") topicName partition count duration
           maxFetchBytes concurrency (uint_flag set "offset" 0)
           (duration_flag ParseDuration set "poll-interval" 10000000)
           (duration_flag ParseDuration set "idle-timeout" (30 * Second))
           (duration_flag ParseDuration set "timeout" (5 * Second))
           (string_flag set "output" "text") (string_flag set "output-file" "")
           (string_flag set "run-label" "") (bool_flag set "warmup" false)
           (int_flag set "run-number" 1))
  end.

End Main.

(** [NewConsumerBench] with the arguments of main; the report has no flush mode and no
    record size. *)
Definition new_bench (bd : bench_producer.build) (a : Args) : ConsumerConf * BenchInfo :=
  (mkConsumerConf (count a) (duration a) (offset a) (targetPartition a),
   mkBenchInfo (bench_producer.metadata bd (runLabel a) (runNumber a) (warmup a)) (topicName a)
     "" 0 (concurrency a)).

(** The start of [Run], lines 127-148 of consumer.go. *)
Definition discover (topicName : string) (partition : Z) : M (Server * World) (res (list Z)) :=
  let* d := Admin_DescribeTopic topicName in
  match d with
  | inl _ => ret (Err (Errorf "failed to describe topic"))
  | inr t => ret (partitionsToConsume partition (tm_PartitionCount t))
  end.

Definition exit_status (a : Args) (stored : bool) (r : res ConsumerResult) : Z :=
  match r with
  | Ok _ => if bool_decide (output a = "json"%string) && negb stored then 1 else 0
  | Err _ => 1
  | Panic => 2
  end.

End bench_consumer.
