(* ===== verification/CommandsSpec.v ===== *)
(** * Properties of the client commands

    Routing of the producer, the round trip of a record through the two commands, the
    requests of the admin command, and what the exit status of the producer benchmark
    means. *)

From S2P Require Import Prelude FileSystem Names Model Segment Store StoreInv StoreAppend StoreRead.
From S2P Require Import Topics Grpc GrpcSpec Config Flags Float64 BenchLatency BenchProducer.
From S2P Require Import BenchProducerSpec BenchConsumer Commands.
From Stdlib Require Import Init.Byte.
Open Scope Z_scope.

(** ** Routing *)

(** The published test vectors of FNV-1a. *)
Example fnv32a_empty : producer.fnv32a [] = 2166136261. Proof. reflexivity. Qed.
Example fnv32a_a : producer.fnv32a (string_bytes "a") = 3826002220. Proof. reflexivity. Qed.
Example fnv32a_foobar : producer.fnv32a (string_bytes "foobar") = 3214735720.
Proof. reflexivity. Qed.

Lemma fnv32a_range data : 0 <= producer.fnv32a data < two32.
Proof.
  unfold producer.fnv32a. assert (∀ h, 0 <= h < two32 →
    0 <= fold_left producer.fnv_step data h < two32) as H; [|by apply H].
  induction data as [|b data IH]; intros h Hh; [done|]. simpl. apply IH, u32_range.
Qed.

(** The partition of a keyed record. *)
Definition key_partition (key : string) (partitionCount : Z) : Z :=
  producer.fnv32a (string_bytes key) mod partitionCount.

Lemma route_bounds a n random p :
  0 < n < two32 → 0 <= random < n → producer.route a n random = inr p → 0 <= p < n.
Proof.
  intros Hn Hr. unfold producer.route. destruct (negb _).
  - pose proof (u32_range (producer.partition a)).
    destruct (Z.ltb_spec (producer.partition a) 0); [done|].
    destruct (Z.leb_spec n (u32 (producer.partition a))); [done|]. intros [= <-]. lia.
  - case_bool_decide; intros [= <-]; [apply Z.mod_pos_bound; lia|]. rewrite u32_small; lia.
Qed.

(** C34: the producer sends a record to an existing partition, whatever the flags say; without
    an explicit partition, records with the same key go to the same partition, the
    FNV-1a hash of the key modulo the partition count, whatever else the record holds and
    whatever the random source returns; an explicit partition in range is used as it is. *)
Theorem producer_routes_by_key a n random :
  0 < n < two32 → 0 <= random < n →
  (∀ p, producer.route a n random = inr p → 0 <= p < n)
  ∧ (producer.partition a = -1 → producer.key a ≠ ""%string →
     producer.route a n random = inr (key_partition (producer.key a) n))
  ∧ (0 <= producer.partition a < n → producer.route a n random = inr (producer.partition a)).
Proof.
  intros Hn Hr. split_and!.
  - intros p. by apply route_bounds.
  - intros Hp Hk. unfold producer.route. rewrite Hp. simpl. by rewrite bool_decide_eq_true_2.
  - intros Hp. unfold producer.route. destruct (Z.eqb_spec (producer.partition a) (-1)); [lia|].
    simpl. rewrite u32_small by lia. destruct (Z.ltb_spec (producer.partition a) 0); [lia|].
    by destruct (Z.leb_spec n (producer.partition a)); [lia|].
Qed.

Definition keyed_args : producer.Args :=
  producer.mkArgs "localhost:50051" "orders" (-1) "foobar" "v".

Lemma producer_routes_by_key_witness :
  producer.route keyed_args 7 3 = inr (3214735720 mod 7).
Proof.
  destruct (producer_routes_by_key keyed_args 7 3) as (_ & H & _); [lia|lia|].
  apply H; [reflexivity|discriminate].
Defined.

(** The range check of an explicit partition is made after the conversion to uint32: a
    partition number of 2^32 + 1 is accepted and the record goes to partition 1. *)
Lemma explicit_partition_wraps :
  producer.route (producer.mkArgs "" "orders" 4294967297 "" "v") 3 0 = inr 1.
Proof. reflexivity. Qed.

(** ** A record through the two commands *)

Lemma default_wire b : default [] (wire_bytes b) = b.
Proof. by destruct b. Qed.

Lemma olen_wire b : olen (wire_bytes b) = blen b.
Proof. by destruct b. Qed.

(** Describing a topic changes nothing, and the partition count is a uint32. *)
Lemma DescribeTopic_pure name s w r s' w' :
  Admin_DescribeTopic name (s, w) = (r, (s', w')) →
  s' = s ∧ w' = w ∧ ∀ t, r = Ok (inr t) → 0 <= tm_PartitionCount t < two32.
Proof.
  unfold Admin_DescribeTopic. case_bool_decide; [by intros [= <- <- <-]|].
  unfold bind, get_obj, lift_res, ret, panic. cbn beta iota.
  destruct (GetTopic _ _) as [t|e|]; [|by intros [= <- <- <-]..].
  destruct (convertToProtoMetadata t) as [tm|e|] eqn:Ht; intros [= <- <- <-];
    (split; [done|]; split; [done|]); try done.
  intros t' [= <-]. unfold convertToProtoMetadata in Ht.
  destruct (convert_partitions _ _ _); [|done..]. injection Ht as <-. apply u32_range.
Qed.

(** The target of a record is a uint32. *)
Lemma route_uint32 a n random p :
  0 < n < two32 → producer.route a n random = inr p → u32 p = p.
Proof.
  intros Hn. unfold producer.route. destruct (negb _).
  - destruct ((_ <? _) || _); [done|]. intros [= <-]. apply u32_small, u32_range.
  - case_bool_decide; intros [= <-]; [|apply u32_small, u32_range].
    apply u32_small. pose proof (Z.mod_pos_bound (producer.fnv32a (string_bytes (producer.key a))) n). lia.
Qed.

Lemma producer_run_inv NC clock now random a s w base lst part s1 w1 :
  producer.run NC clock now random a (s, w) = (Ok (inr (base, lst, part)), (s1, w1)) →
  let record := mkPbRecord (wire_bytes (string_bytes (producer.key a)))
                  (wire_bytes (string_bytes (producer.value a))) [] clock in
  NC (producer.brokerAddr a) = true ∧ u32 part = part
  ∧ ∃ resp, Produce now (mkProduceRequest (producer.topicName a) part [record]) (s, w)
              = (Ok (inr resp), (s1, w1))
      ∧ BaseOffset resp = base ∧ LastOffset resp = lst.
Proof.
  unfold producer.run. destruct (NC _); [|done]. cbn [negb]. intros E.
  apply bind_ok in E as (d & [s0 w0] & Ed & E). apply DescribeTopic_pure in Ed as (-> & -> & Hd).
  destruct d as [?|t]; [done|]. specialize (Hd t eq_refl).
  destruct (Z.eqb_spec (tm_PartitionCount t) 0); [done|].
  destruct (producer.route a _ random) as [?|p] eqn:Hr; [done|].
  apply bind_ok in E as (r & [s2 w2] & Er & E). destruct r as [?|resp]; [done|].
  injection E as <- <- -> -> ->. split; [done|]. split; [|by exists resp].
  eapply route_uint32, Hr. lia.
Qed.

(** The one record of a call. *)
Definition cli_record (k v : bytes) (clock : Z) : PbRecord :=
  mkPbRecord (wire_bytes k) (wire_bytes v) [] clock.

Lemma cli_record_size base now k v clock :
  total_size (stamp base now (client_records [cli_record k v clock])) = blen k + blen v + 16.
Proof. rewrite <- (olen_wire k), <- (olen_wire v). cbn -[olen wire_bytes]. unfold recordSize. simpl. lia. Qed.

Lemma cli_record_printed base now k v clock :
  0 <= base < two64 →
  consumer.print_record <$> stamp base now (client_records [cli_record k v clock])
  = [consumer.mkPrinted base now k v []].
Proof.
  intros Hb. unfold consumer.print_record. cbn -[wire_bytes u64].
  by rewrite !default_wire, Z.add_0_r, u64_small.
Qed.



(** ** The requests of the admin command *)

Lemma not_flag_dash name flag : starts_with "-" name = false → admin.is_flag flag name = false.
Proof.
  intros Hn. unfold admin.is_flag. apply orb_false_iff.
  split; apply bool_decide_eq_false; intros ->; by destruct flag.
Qed.

(** The admin command asks for what its arguments say: for a topic name that is not a
    flag and a partition count in any notation that strconv reads, [create-topic] sends
    exactly this name and count (before or after one another, with one dash or two, and
    with any --broker address in front); counts that are not positive are refused. *)
Theorem admin_sends_request NewClient addr name flag v n :
  NewClient addr = true → starts_with "-" name = false → name ≠ ""%string →
  flag = "-partitions"%string ∨ flag = "--partitions"%string →
  ParseInt0 v = Some n → n < two32 →
  let r := if n <=? 0 then inl 1
           else inr (admin.CallCreate (mkCreateTopicRequest name n None)) in
  admin.main_call NewClient ["--broker"%string; addr; "create-topic"%string; name; flag; v] = r
  ∧ admin.main_call NewClient ["-broker"%string; addr; "create-topic"%string; flag; v; name] = r.
Proof.
  intros Hc Hn Hne Hf Hv Hlt r. unfold admin.main_call, admin.subcommand_call.
  assert (∀ l, l = [name; flag; v] ∨ l = [flag; v; name] → admin.create_call l = r) as Hcall.
  { intros l Hl. assert (admin.split_create l "" [] = (name, [flag; v])) as Hsplit.
    { destruct Hl as [-> | ->]; cbn [admin.split_create]; rewrite (not_flag_dash _ _ Hn), Hn;
        by destruct Hf as [-> | ->]. }
    unfold admin.create_call. rewrite Hsplit, bool_decide_eq_false_2 by done.
    assert (Parse admin.no_duration [("partitions"%string, KInt)] [flag; v] ∅
            = inr ({["partitions"%string := v]}, [])) as ->.
    { assert (accepts admin.no_duration KInt v = true) as Ha
        by (unfold accepts; apply bool_decide_eq_true; by rewrite Hv).
      rewrite (Parse_next_arg _ _ _ "partitions" KInt); [done|destruct Hf as [-> | ->]..|done]; done. }
    unfold int_flag, value_flag. rewrite lookup_singleton_eq. cbn [mbind option_bind default]. rewrite Hv.
    simpl. unfold r. destruct (Z.leb_spec n 0); [done|]. by rewrite u32_small by lia. }
  assert (∀ b rest, b = "-broker"%string ∨ b = "--broker"%string →
    admin.scan_global (b :: addr :: "create-topic"%string :: rest) "localhost:50051"
    = inr (addr, "create-topic"%string, rest)) as Hscan by by intros b rest [-> | ->].
  split; rewrite Hscan by auto; rewrite Hc; apply Hcall; auto.
Qed.

Lemma admin_sends_request_witness :
  admin.main_call (fun _ => true)
    ["--broker"; "localhost:50051"; "create-topic"; "orders"; "--partitions"; "0x10"]%string
  = inr (admin.CallCreate (mkCreateTopicRequest "orders" 16 None)).
Proof.
  destruct (admin_sends_request (fun _ => true) "localhost:50051" "orders" "--partitions" "0x10" 16)
    as [H _]; [reflexivity|reflexivity|discriminate|by right|reflexivity|lia|exact H].
Defined.

(** The admin command accepts partition counts that do not fit a uint32 and sends them
    modulo 2^32: asking for 4294967297 partitions does, in every state of the broker,
    what asking for one does, although the broker refuses more than 1024. *)
Theorem admin_truncates_partitions Marshal Unmarshal NewClient name s w :
  starts_with "-" name = false →
  admin.main Marshal Unmarshal NewClient
    ["create-topic"%string; name; "--partitions"%string; "4294967297"%string] (s, w)
  = admin.main Marshal Unmarshal NewClient
      ["create-topic"%string; name; "--partitions"%string; "1"%string] (s, w).
Proof.
  intros Hn. unfold admin.main. f_equal.
  assert (∀ v, admin.main_call NewClient ["create-topic"%string; name; "--partitions"%string; v]
    = if negb (NewClient "localhost:50051"%string) then inl 1
      else admin.create_call [name; "--partitions"%string; v]) as Hm by done.
  rewrite !Hm. assert (∀ v, admin.split_create [name; "--partitions"%string; v] "" []
    = (name, ["--partitions"%string; v])) as Hs.
  { intros v. cbn [admin.split_create]. by rewrite (not_flag_dash _ _ Hn), Hn. }
  unfold admin.create_call. rewrite !Hs. by destruct (bool_decide (name = "")).
Qed.

Lemma admin_truncates_partitions_witness :
  admin.main_call (fun _ => true)
    ["create-topic"; "orders"; "--partitions"; "4294967297"]%string
  = inr (admin.CallCreate (mkCreateTopicRequest "orders" 1 None))
  ∧ ∀ s w, admin.main (fun _ => []) (fun _ _ => Ok None) (fun _ => true)
      ["create-topic"; "orders"; "--partitions"; "4294967297"]%string (s, w)
    = admin.main (fun _ => []) (fun _ _ => Ok None) (fun _ => true)
      ["create-topic"; "orders"; "--partitions"; "1"]%string (s, w).
Proof.
  split; [vm_compute; reflexivity|]. intros s w.
  exact (admin_truncates_partitions (fun _ => []) (fun _ _ => Ok None) (fun _ => true) "orders" s w
    eq_refl).
Defined.

(** ** The exit status of the producer benchmark *)

(** A cancelled run is one that fails fast and has recorded its error. *)
Lemma cancelled_with_error c n ws p :
  workers_run c n ws p → run_cancelled p = true → pc_failFast c = true ∧ firstErr p ≠ None.
Proof.
  induction 1 as [|k i ws p ws' p' _ IH E]; [done|]. unfold workers_act in E.
  apply bind_Some in E as (l & Hk & E). apply bind_Some in E as ([l' q] & E & [= <- <-]).
  destruct p as [nr ack fl rpcs canc ctr rs em fe stop]. simpl in *. unfold worker_act in E.
  destruct l as [| | | |? ? []| | |], i; try done; repeat case_match; simplify_eq/=; auto;
    intros Hc; specialize (IH Hc); by destruct IH.
Qed.

(** The conditions of a counted run hold for accepted flags and a described topic. *)
Lemma accepted_counted ParseDuration args bd a name s w n initial s' w' :
  bench_producer.parse_args ParseDuration args = inr a → bench_producer.duration a <= 0 →
  bench_producer.discover name (bench_producer.partition a) (s, w) = (Ok (Ok (n, initial)), (s', w')) →
  bench_producer.count a
    + bench_producer.batchSize a * (bench_producer.concurrency a + 2) < two63 →
  BenchProducerSpec.counted_run (fst (bench_producer.new_bench bd a n))
    (Z.to_nat (bench_producer.concurrency a))
  ∧ 0 < bench_producer.concurrency a.
Proof.
  unfold bench_producer.parse_args, bench_producer.discover. intros Ha Hd Hn Hroom.
  destruct (Parse _ _ _ _) as [?|[set ?]]; [done|]. case_bool_decide; [done|].
  destruct (bench_producer.msgSize _ <=? 0); [done|].
  destruct ((_ <=? 0) && _) eqn:Hc; [done|].
  destruct (Z.leb_spec (bench_producer.concurrency (bench_producer.args_of ParseDuration set)) 0); [done|].
  destruct (Z.leb_spec (bench_producer.batchSize (bench_producer.args_of ParseDuration set)) 0); [done|].
  injection Ha as <-. apply bind_ok in Hn as (d & [s0 w0] & Ed & Hn).
  apply DescribeTopic_pure in Ed as (_ & _ & Hcount). destruct d as [?|t]; [done|].
  specialize (Hcount t eq_refl). injection Hn as Hn <- <-.
  destruct (check_partition _ _) as [[]|?|] eqn:Hp; [|done..]. injection Hn as <- <-.
  split; [|done]. apply andb_false_iff in Hc as [Hc|Hc]; apply Z.leb_gt in Hc; [lia|].
  split; cbn [fst bench_producer.new_bench pc_timed pc_total pc_batchSize pc_partition pc_partitionCount];
    [|lia|lia|lia|split; [lia|done]|].
  - by apply Z.ltb_ge.
  - rewrite Z2Nat.id by lia. lia.
Qed.

(** C32: exit status zero of the producer benchmark means that everything was sent.  For
    accepted flags and a run without -duration, under every interleaving of the workers
    and every outcome of the calls: when all workers have returned and the command exits
    with status 0, every requested record was acknowledged, none failed, and the
    acknowledged ranges passed the verification against the broker's end offsets. *)
Theorem bench_producer_exit_zero ParseDuration args bd a s w n initial s' w' ws p duration final
    sampler stored :
  bench_producer.parse_args ParseDuration args = inr a → bench_producer.duration a <= 0 →
  bench_producer.count a
    + bench_producer.batchSize a * (bench_producer.concurrency a + 2) < two63 →
  bench_producer.discover (bench_producer.topicName a) (bench_producer.partition a) (s, w)
    = (Ok (Ok (n, initial)), (s', w')) →
  let '(c, info) := bench_producer.new_bench bd a n in
  workers_run c (Z.to_nat (bench_producer.concurrency a)) ws p → Forall (eq PReturned) ws →
  bench_producer.exit_status a stored (finish_run c info duration initial final sampler p) = 0 →
  acknowledged p = bench_producer.count a ∧ failed p = 0
  ∧ ∃ ends, final = Ok ends ∧ verify_offsets initial ends (ranges p) = Ok tt.
Proof.
  intros Ha Hd Hroom Hdisc. destruct (accepted_counted _ _ bd _ _ _ _ _ _ _ _ Ha Hd Hdisc Hroom) as [C Hw].
  destruct (bench_producer.new_bench bd a n) as [c info] eqn:Hb. simpl in C.
  assert (pc_total c = bench_producer.count a) as Htot by by injection Hb as <- _.
  intros R Hret Hexit. destruct (finish_run _ _ _ _ _ _ _) as [r|e|] eqn:Hf; [|done..].
  unfold finish_run in Hf.
  assert (run_cancelled p = false) as Hcan.
  { destruct (run_cancelled p) eqn:Hc; [|done].
    destruct (cancelled_with_error _ _ _ _ R Hc) as [Hff Hfe]. rewrite Hff in Hf.
    by destruct (firstErr p). }
  assert (acknowledged p + failed p = pc_total c) as Hall
    by (apply (returned_accounts c _ ws p C R); [lia|done|done]).
  assert (∃ ends, final = Ok ends ∧ verify_offsets initial ends (ranges p) = Ok tt
    ∧ pr_FailedRecords r = failed p) as (ends & -> & Hv & Hfr).
  { destruct (firstErr p), (pc_failFast c); [done| | |];
    (destruct final as [ends|?|]; [|done..]; exists ends; simpl in Hf;
     destruct (verify_offsets _ _ _) as [[]|?|]; [|done..]; simpl in Hf;
     destruct (GetReport sampler); [|done..]; injection Hf as <-; done). }
  assert (failed p = 0) as H0.
  { pose proof (ac_failed _ _ _ _ (run_accounts _ _ _ _ C R)).
    unfold bench_producer.exit_status in Hexit. destruct (_ && _); [done|].
    rewrite Hfr in Hexit. destruct (Z.ltb_spec 0 (failed p)); [done|lia]. }
  split; [lia|split; [done|by exists ends]].
Qed.

(** One worker sends three records in two batches. *)
Definition bench_args : list string :=
  ["-topic"; "orders"; "--count=3"; "-concurrency"; "1"; "-batch-size"; "2"]%string.
Definition bench_build : bench_producer.build := bench_producer.mkBuild "" "" "" "" "" "".
Definition bench_inputs : list (nat * producer_input) :=
  let batch r := [Tick; Tick; Tick; Reply r; Tick; Tick] in
  pair 0%nat <$> batch (Acked 0 1) ++ batch (Acked 2 2) ++ [Tick; Tick].

Lemma bench_producer_exit_zero_witness :
  ∃ a ws p, bench_producer.parse_args demo_ParseDuration bench_args = inr a
    ∧ run_inputs (fst (bench_producer.new_bench bench_build a 1)) bench_inputs
        (replicate 1 PLoop, new_producer) = Some (ws, p)
    ∧ acknowledged p = 3 ∧ failed p = 0.
Proof.
  assert (∃ a, bench_producer.parse_args demo_ParseDuration bench_args = inr a
    ∧ a = bench_producer.mkArgs "localhost:9092" "orders" 100 3 0 1 2 (-1) true (5 * Second)
            "text" "" "" false "sync" 1) as (a & Ha & Ea).
  { eexists. split; vm_compute; reflexivity. }
  assert (∃ ws p, run_inputs (fst (bench_producer.new_bench bench_build a 1)) bench_inputs
      (replicate 1 PLoop, new_producer) = Some (ws, p)
    ∧ Forall (eq PReturned) ws
    ∧ bench_producer.exit_status a true (finish_run (fst (bench_producer.new_bench bench_build a 1))
        (snd (bench_producer.new_bench bench_build a 1)) 1000000000 {[0 := 0]} (Ok {[0 := 3]})
        (NewSampler 10) p) = 0) as (ws & p & Hr & Hret & Hx).
  { subst a. eexists _, _. split; [vm_compute; reflexivity|].
    split; [repeat constructor|vm_compute; reflexivity]. }
  assert (bench_producer.discover (bench_producer.topicName a) (bench_producer.partition a)
      (demo_server (demo_store "async"), demo_world [])
    = (Ok (Ok (1, {[0 := 0]})), (demo_server (demo_store "async"), demo_world []))) as Hdisc.
  { subst a. vm_compute. reflexivity. }
  exists a, ws, p. split; [exact Ha|]. split; [exact Hr|].
  assert (bench_producer.duration a <= 0 ∧ bench_producer.count a = 3
    ∧ bench_producer.batchSize a = 2 ∧ bench_producer.concurrency a = 1) as (Hd & Hc & Hb & Hn)
    by (subst a; done).
  pose proof (bench_producer_exit_zero demo_ParseDuration bench_args bench_build a
    (demo_server (demo_store "async")) (demo_world []) 1 {[0 := 0]}
    (demo_server (demo_store "async")) (demo_world []) ws p 1000000000 (Ok {[0 := 3]})
    (NewSampler 10) true Ha Hd ltac:(rewrite Hc, Hb, Hn; lia) Hdisc) as H.
  destruct (bench_producer.new_bench bench_build a 1) as [c info]. cbn [fst snd] in *.
  rewrite Hc, Hn in H. destruct H as (H1 & H2 & _); [|exact Hret|exact Hx|by split].
  eapply run_inputs_run; [apply run_start|exact Hr].
Defined.
